(* ===== verification/_CoqProject ===== *)
-Q . S2P
Prelude.v
RustInt.v
RustStr.v
RustText.v
RustFloat.v
Xml.v
HeadLenPow.v
KPath.v
Coord.v
XValue.v
XText.v
Store.v
Remote.v
Backend.v
BackendRead.v
BackendWrite.v
BackendTree.v
BackendSetGet.v
Watch.v
SigV4.v
Dsn.v
S3Store.v
S3Safety.v
S3Api.v
S3Server.v
S3Refines.v
Redis.v
RedisCodec.v
RedisApi.v
RedisRefines.v
Client.v
BackendClient.v
BackendRemote.v
KVSpace.v
FsTree.v
FsWalk.v
FsSpace.v
FsCases.v
FsWf.v
FsBounds.v
FsNames.v
FsLeaves.v
FsLaws.v
FsCopy.v
FsWrites.v
FsRefines.v
FsBackend.v
FsParts.v
FsListing.v
FsSubtree.v
Conn.v
Calendar.v
Signing.v
Ffi.v
FfiCache.v
FfiSpace.v
FfiAbi.v
