(* ===== verification/Prelude.v ===== *)
(** * kvspace-durable: a verified model of the durable key-value space

    The repository is the Rust crate [kvspace-durable]: a hierarchical key-value space with links,
    read-only extensions and directory listings, kept in Redis, in S3-compatible object storage or
    in a file system, and used through a C ABI.  This library models it file by file and proves
    what makes each part correct.  Paths below are relative to the repository.

    ** The program and where its parts are modelled

    - [RustInt], [RustStr], [RustText]: the operations of the Rust standard library the program
      uses: fixed-width integers and their little-endian bytes, [str] searching and splitting,
      decimal printing and parsing, UTF-8 validation and lossy decoding, trimming.  A [&str] is
      its list of bytes.  [RustFloat]: the shortest decimal text of a float, a bit pattern here.
    - [HeadLenPow]: [src/src/headlenpow.rs], the wire of a value (16-byte head, body, attrs).
    - [XValue]: [src/src/xvalue.rs] and [src/src/xvalue_*.rs], the typed values, their heads and
      the two conversions from and to the wire; [XText] their text.
    - [KPath]: [src/src/const.rs] and the helpers of [src/src/kvspace_common.rs] and
      [src/src/store.rs] on keys: splitting, subtrees, the reserved area, the status slots.
    - [Coord]: [src/src/coord.rs], coordinate segments such as [[0,1]] and the order of listings.
    - [Store]: the trait [KVStore] of [src/src/store.rs] as the class [KVStore], its laws [KVLaws]
      (a store is a finite map and each method acts on that map), its default methods, and the
      reference store [mem].
    - [Backend]: [src/src/backend.rs] over any [KVStore]; one definition per method.  The proofs
      are in [BackendRead] (links, [get], [list_]), [BackendWrite] ([set], [set_part], the
      invariant), [BackendTree] ([del_tree], [cp_tree], the reserved area) and [BackendSetGet].
    - [Watch]: [watch_value] of [src/src/kvspace_common.rs] against a stream of observations.
    - [KVSpace]: the trait of [src/src/kvspace.rs] as a class, with [Backend] as an instance.
    - [Ffi]: [src/src/ffi.rs], the handle of the C ABI over any [KVSpace]: read cache, rings of
      the control keys, retired buffers, lazy write, list snapshot, and every call on them.  The
      proofs are in [FfiCache] and [FfiSpace].  [FfiAbi] is the shell C sees around those calls:
      null handles, out-parameters, the error buffer and the return codes.
    - [SigV4], [Dsn]: [src/src/s3/sigv4.rs] and [src/src/s3/dsn.rs].  The proofs are in [Dsn],
      [Calendar] (dates) and [Signing] (queries).
    - [Remote]: the trait [KVStore] again, for stores behind a network: every method moves a world
      and may panic; and what it means that such a store refines [mem].
    - [Xml], [S3Store]: [src/src/s3/store.rs], the XML extraction, requests, retries, paging and
      the store methods.  [S3Api] states the laws of a server that keeps the S3 API, [S3Server] is
      a server that has them; the proofs are in [S3Safety] and [S3Refines].
    - [Redis]: [src/src/redis/store.rs], the RESP client and the store methods.  [RedisCodec] is
      the encoding of replies, [RedisApi] the laws of a server and one that has them; the
      refinement is in [RedisRefines].
    - [Client]: programs that make one store call after the other, run on a [Remote] store, and
      the adequacy theorem that carries what they do on [mem] over to a store that refines it.
      [BackendClient] has the methods of [Backend] as such programs; [BackendRemote] composes them
      with Redis and S3.
    - [FsTree]: the file system the directory space runs on, a tree of files and directories with
      the path resolution of the operating system; [FsWalk] its lemmas.
    - [FsSpace]: [src/src/fs/kvspace.rs], one definition per function, and [FsKVSpace] as a second
      instance of [KVSpace].  The proofs: [FsWf] (the tree stays well formed), [FsNames] (which
      keys the mapping to paths separates), [FsLeaves] (a value per key, on the locations of the
      tree), [FsLaws] (the leaf operations), [FsWrites] (when a write goes through: which files are
      in the way of a key, and which values of the map those are), [FsRefines] (the space is a
      map), [FsBackend] (it agrees with [Backend] over that map), [FsParts] and [FsBounds] (part
      writes), [FsListing] (what a listing has of that map), [FsSubtree] (what [del_tree] removes),
      [FsCopy] (the recursive copy); [FsCases] has runs at the edges.
    - [Conn]: [src/src/conn.rs], the choice of a backend by scheme.

    ** How the parts interact

    A handle ([Ffi]) owns a [KVSpace]; [Backend] is one, over a [KVStore].  [Backend] is proved
    against the laws of the store and the handle against the trait, so that neither proof looks
    into the layer below; [mem] discharges the store laws, and the witnesses run on it.  The S3 and
    Redis stores refine [mem] call by call, each against the documented laws of its server, and
    [Client] turns that into a statement about whole methods of [Backend].  The
    directory space is a [KVSpace] of its own, without a store below it.  Values
    cross every layer as wire bytes ([HeadLenPow], [XValue]); keys are interpreted by [KPath].

    ** Conventions

    A function that can fail returns a [res]: [Ok], [Err] for a returned error, [Panic] for a
    panic.  A method that changes state is a [stm], which keeps the state reached before an error.
    The type of errors is the constructor and the data of the message, not its text.  Machine
    integers are [Z] with the wrap-around written where the release build has it; [usize] has 64
    bits.  [HashMap]s and stores are [gmap]s, whose iteration order stands for the unspecified
    one.  Other processes are explicit: a stream of observations in [Watch], an [OEnv] step
    between two calls in [FfiCache], an arbitrary change of the space before each call of a
    traversal in [FfiSpace].  Third-party code is a parameter:
    SHA-256, HMAC, the HTTP agent, the TCP stream, the clock and the sleep.

    ** What is proved

    - The wire: the decoder accepts exactly the encodings of legal heads (C1), legal being said of
      the records of the attr area and not in terms of the decoder; plain and fixed-capacity
      values round-trip (C2, C3); every value the wire can hold reads back (C6).
    - The text of a value: integers parse back, a float's decimal text rounds to that float (C7).
    - Keys: where [split_index] cuts a key (C4); coordinates are ordered by a total preorder (C5).
    - Reads: link resolution takes at most sixteen exact hops (C8); a batch read is pointwise
      (C9); a listing has exactly the visible members (C10).
    - Writes: [set] writes the accepted prefix of its batch (C11); a positional write succeeds
      exactly inside the effective length (C12); every stored value is one well-formed wire after
      any sequence of calls whose positional writes stay out of the head (C13); what is set is what is read (C17).
    - Trees: [del_tree] and [cp_tree] (C14, C15) and the reserved area (C16), whose root alone a
      deletion can reach.
    - Waiting: [watch_value] returns the first match, with a bounded back-off (C18).
    - S3 requests: connection strings (C19), redaction (C20).
    - The handle: borrowed pointers stay valid while nothing writes or deletes the key, and which
      failing calls free them all the same (C21); a written key is read afresh (C22); the
      cache is transparent (C23); a traversal sees one listing (C24); lazy writes read back (C25).
    - The S3 store: list responses are read back exactly (C26); whatever the server answers, no
      object outside the prefix changes (C27); it refines the reference store (C28).
    - The Redis store: the reader consumes exactly one reply (C29); it refines the reference store
      and stays aligned with the stream, scans where the server's unsigned cursors fit the signed
      integer the program reads (C30).
    - The directory space: on canonical keys it is a map from keys to values, although keys turn
      from files into directories, and a write goes through exactly where no file is in its way
      (C31); its methods do there what those of [Backend] do over that map (C32), a part write
      included (C35); a listing is complete (C33); [del_tree] takes exactly the keys of its subtree
      (C34); the recursive copy ends and is complete (C40).
    - The composition: a program that uses the key-value space as its backend is built for gets
      over Redis (C36) and over S3 (C37) an outcome it can have over the reference store; the
      theorems say which programs these are.
    - The C shell: every exported call returns one of its codes, whatever panics below it, with its
      out-parameters set from the answer of the call inside (C38); an error text never leaves its
      buffer and is always terminated (C39).

    Proved beside these: coordinates print and parse back, and grown dimensions cover them
    ([Coord]); object names are injective ([Dsn]); the default positional methods of a store act in
    place ([Store]); the calendar ([Calendar]) and the canonical query ([Signing]) of a signed
    request; the dispatch by scheme, and what a refusal shows ([Conn]); a part write of the directory
    space never grows a file, on any tree ([FsBounds]); no call of it leaves an orphan in the tree
    ([FsWf]).

    The [Example]s beside the theorems record behaviours the theorems exclude: cases where the
    program does not do what its comments say.

    ** Fuel

    Link resolution has the program's own bound of sixteen, as have the pointers of [Get].  The
    attr scans, [chunks_exact], the UTF-8 walks and [trim] run on the length of their input, of
    which every round consumes at least a byte.  Decimal printing has fuel 21, enough for 70 bits.
    The digits of a float have fuel 20, which the proof of C7 shows to be enough for 64 bits.
    [watch_value] may wait forever: its fuel is the number of polls, and the theorem says which
    fuel is enough and that without a match none is.  The pages of an S3 listing and the lines,
    nested arrays and cursors of a Redis reply are as many as the server sends: their fuel is a
    parameter, and the refinements hold from some fuel on.  [copy_recursive] has the depth of the
    tree, which C40 shows to be enough.

    ** What is not modelled, and what comes next

    The file system has no permissions, symbolic links, limits on names or disk errors, and no
    other process changes it during a call; the order of a directory is that of the map.  Huge
    allocations announced by a Redis reply are not modelled.  Of the C ABI, what a null pointer to
    a required out-parameter does is undefined and left out, and the texts of the errors that come
    from below the shell are a parameter.  A store of [Client] is used by one connection: other
    clients do not write between two calls of a method.  [src/src/lib.rs] and the [mod.rs] files
    only declare modules.  Next: the subtree copies of the directory space against those of
    [Backend].

    This file holds the shared vocabulary: literals, results, state-and-error computations, the
    judgements [keeps] and [fails] on them, hint databases and tactics. *)

From Stdlib Require Export ZArith Lia.
From Stdlib Require Import Strings.Byte.
From stdpp Require Export sorting gmap numbers.
From stdpp Require Export base tactics option list.

(** [naive_solver] clears hypotheses that [destruct] has already consumed. *)
#[export] Set Warnings "-clear-no-such-hyp".

(** ** Bytes, strings and their literals *)

Abbreviation byte := Byte.byte.

(** A Rust [&str]/[String] is its UTF-8 byte sequence; [&[u8]]/[Vec<u8>] is the same list. *)
Abbreviation str := (list Byte.byte) (only parsing).
Abbreviation bytes := (list Byte.byte) (only parsing).

Declare Scope rust_scope.
Delimit Scope rust_scope with rs.

Definition id_str := @id (list Byte.byte).
String Notation str id_str id_str : rust_scope.

#[export] Instance byte_eq_decision : EqDecision byte := Byte.byte_eq_dec.
#[export] Program Instance byte_countable : Countable byte :=
  inj_countable Byte.to_N Byte.of_N _.
Next Obligation. intros b. apply Byte.of_to_N. Qed.

(** ** Results

    A Rust function that returns [Result<A, String>] and may also panic. *)
Inductive res (E A : Type) : Type :=
  | Ok (a : A)
  | Err (e : E)
  | Panic (e : E).
Arguments Ok {E A} a.
Arguments Err {E A} e.
Arguments Panic {E A} e.

#[export] Instance res_ret {E} : MRet (res E) := λ A a, Ok a.
#[export] Instance res_bind {E} : MBind (res E) := λ A B f m,
  match m with Ok a => f a | Err e => Err e | Panic e => Panic e end.

(** [opt.ok_or(e)?] *)
Definition ok_or {E A} (e : E) (o : option A) : res E A :=
  match o with Some a => Ok a | None => Err e end.

(** An early [return Err(e)] when [b] holds. *)
Definition bail_if {E} (b : bool) (e : E) : res E unit :=
  if b then Err e else Ok tt.

(** ** Stateful computations

    A method on [&mut self] (or on a store with interior mutability) that may return early or
    panic: the state reached so far survives the error. *)
Definition stm (S E A : Type) : Type := S → res E A * S.

#[export] Instance stm_ret {S E} : MRet (stm S E) := λ A a s, (Ok a, s).
#[export] Instance stm_bind {S E} : MBind (stm S E) := λ A B f m s,
  match m s with
  | (Ok a, s') => f a s'
  | (Err e, s') => (Err e, s')
  | (Panic e, s') => (Panic e, s')
  end.

Definition gets {S E A} (f : S → A) : stm S E A := λ s, (Ok (f s), s).
Definition modify {S E} (f : S → S) : stm S E unit := λ s, (Ok tt, f s).
Definition lift {S E A} (r : res E A) : stm S E A := λ s, (r, s).
Definition err_if {S E} (b : bool) (e : E) : stm S E unit := lift (bail_if b e).

(** [let _ = m;]: an error is dropped, a panic is not. *)
Definition ignore {S E A} (m : stm S E A) : stm S E unit := λ s,
  match m s with (Panic e, s') => (Panic e, s') | (_, s') => (Ok tt, s') end.

(** [for x in l { f(x)?; }] *)
Fixpoint for_each {S E A} (l : list A) (f : A → stm S E unit) : stm S E unit :=
  match l with
  | [] => mret tt
  | x :: l => f x;; for_each l f
  end.

Lemma for_each_app {S E A} (l k : list A) (f : A → stm S E unit) s :
  for_each (l ++ k) f s = (for_each l f;; for_each k f) s.
Proof.
  revert s. induction l as [|x l IH]; intros s; [done|].
  cbn [app for_each]. unfold mbind, stm_bind. destruct (f x s) as [[[]| |] s']; [|done..].
  apply IH.
Qed.

Lemma stm_bind_eq {S E A B} (m : stm S E A) (f : A → stm S E B) s :
  (m ≫= f) s = match m s with
               | (Ok a, s') => f a s' | (Err e, s') => (Err e, s') | (Panic e, s') => (Panic e, s')
               end.
Proof. done. Qed.

Lemma bind_err_if {S E B} b (e : E) (f : unit → stm S E B) s :
  (err_if b e ≫= f) s = if b then (Err e, s) else f tt s.
Proof. by destruct b. Qed.

Lemma bind_lift_ok {S E A B} (a : A) (f : A → stm S E B) s : (lift (Ok a) ≫= f) s = f a s.
Proof. done. Qed.

Lemma bind_gets {S E A B} (g : S → A) (f : A → stm S E B) s : (gets g ≫= f) s = f (g s) s.
Proof. done. Qed.

Lemma bind_modify {S E B} (g : S → S) (f : unit → stm S E B) s : (modify g ≫= f) s = f tt (g s).
Proof. done. Qed.

(** [m] keeps [P], whether it succeeds, fails or panics. *)
Definition keeps {S E A} (P : S → Prop) (m : stm S E A) : Prop := ∀ s, P s → P (snd (m s)).

Section keeps.
Context {S E : Type} (P : S → Prop).

Lemma keeps_ret {A} (a : A) : keeps (E:=E) P (mret a).
Proof. by intros s. Qed.

Lemma keeps_gets {A} (f : S → A) : keeps (E:=E) P (gets f).
Proof. by intros s. Qed.

Lemma keeps_lift {A} (r : res E A) : keeps P (lift r).
Proof. by intros s. Qed.

Lemma keeps_err_if b (e : E) : keeps P (err_if b e).
Proof. by intros s. Qed.

Lemma keeps_modify (f : S → S) : (∀ s, P s → P (f s)) → keeps (E:=E) P (modify f).
Proof. intros Hf s Hs. by apply Hf. Qed.

Lemma keeps_bind {A B} (m : stm S E A) (f : A → stm S E B) :
  keeps P m → (∀ a, keeps P (f a)) → keeps P (m ≫= f).
Proof.
  intros Hm Hf s Hs. unfold mbind, stm_bind. specialize (Hm s Hs).
  destruct (m s) as [[a|e|e] s']; [by apply Hf|done..].
Qed.

Lemma keeps_bind_lift {A B} (r : res E A) (f : A → stm S E B) :
  (∀ a, r = Ok a → keeps P (f a)) → keeps P (lift r ≫= f).
Proof. intros Hf s Hs. unfold mbind, stm_bind, lift. destruct r; [by apply Hf|done..]. Qed.

Lemma keeps_ignore {A} (m : stm S E A) : keeps P m → keeps P (ignore m).
Proof. intros Hm s Hs. specialize (Hm s Hs). unfold ignore. by destruct (m s) as [[a|e|e] s']. Qed.

Lemma keeps_for_each {A} (l : list A) (f : A → stm S E unit) :
  (∀ x, x ∈ l → keeps P (f x)) → keeps P (for_each l f).
Proof.
  induction l as [|x l IH]; intros Hf; cbn [for_each]; [apply keeps_ret|].
  apply keeps_bind; [apply Hf; by left|]. intros _. apply IH. intros y Hy. apply Hf. by right.
Qed.
End keeps.

(** Every value [m] returns satisfies [Q]. *)
Definition yields {S E A} (Q : A → Prop) (m : stm S E A) : Prop :=
  ∀ s a s', m s = (Ok a, s') → Q a.

Section yields.
Context {S E : Type}.

Lemma yields_bind {A B} (Q : B → Prop) (m : stm S E A) (f : A → stm S E B) :
  (∀ a, yields Q (f a)) → yields Q (m ≫= f).
Proof.
  intros Hf s b s'. unfold mbind, stm_bind. destruct (m s) as [[a|e|e] s1]; [|done..].
  apply Hf.
Qed.

Lemma yields_bind_lift {A B} (Q : B → Prop) (r : res E A) (f : A → stm S E B) :
  (∀ a, r = Ok a → yields Q (f a)) → yields Q (lift r ≫= f).
Proof. intros Hf s b s'. unfold mbind, stm_bind, lift. destruct r; [by apply Hf|done..]. Qed.

Lemma yields_ret {A} (Q : A → Prop) (a : A) : Q a → yields (S:=S) (E:=E) Q (mret a).
Proof. by intros H s b s' [= <- _]. Qed.

Lemma yields_panic {A} (Q : A → Prop) (e : E) : yields (S:=S) Q (lift (Panic e)).
Proof. by intros s a s'. Qed.

(** A continuation need only keep [P] on the values the first part can return. *)
Lemma keeps_bind_yields {A B} (P : S → Prop) (Q : A → Prop) (m : stm S E A) (f : A → stm S E B) :
  keeps P m → yields Q m → (∀ a, Q a → keeps P (f a)) → keeps P (m ≫= f).
Proof.
  intros Hm HQ Hf s Hs. unfold mbind, stm_bind. specialize (Hm s Hs).
  destruct (m s) as [[a|e|e] s'] eqn:E1; [|done..]. apply Hf; [|done]. by eapply HQ.
Qed.
End yields.

(** [m] fails only with errors in [Qe] and panics only with errors in [Qp]. *)
Definition fails {S E A} (Qe Qp : E → Prop) (m : stm S E A) : Prop := ∀ s,
  match (m s).1 with Ok _ => True | Err e => Qe e | Panic e => Qp e end.

Section fails.
Context {S E : Type} (Qe Qp : E → Prop).

Lemma fails_ret {A} (a : A) : fails (S:=S) Qe Qp (mret a).
Proof. by intros s. Qed.

Lemma fails_gets {A} (f : S → A) : fails Qe Qp (gets f).
Proof. by intros s. Qed.

Lemma fails_modify (f : S → S) : fails Qe Qp (modify f).
Proof. by intros s. Qed.

Lemma fails_bind {A B} (m : stm S E A) (f : A → stm S E B) :
  fails Qe Qp m → (∀ a, fails Qe Qp (f a)) → fails Qe Qp (m ≫= f).
Proof.
  intros Hm Hf s. rewrite stm_bind_eq. specialize (Hm s). destruct (m s) as [[a|e|e] s']; [apply Hf|done..].
Qed.

Lemma fails_ok_or {A} (e : E) (o : option A) : (o = None → Qe e) → fails (S:=S) Qe Qp (lift (ok_or e o)).
Proof. intros He s. destruct o; [done|by apply He]. Qed.

Lemma fails_err_if b (e : E) : (b = true → Qe e) → fails (S:=S) Qe Qp (err_if b e).
Proof. intros He s. destruct b; [by apply He|done]. Qed.

Lemma fails_mono {A} (P : E → Prop) (m : stm S E A) : (∀ e, P e → Qe e) → fails P Qp m → fails Qe Qp m.
Proof. intros HPQ Hm s. specialize (Hm s). destruct (m s).1; [done|by apply HPQ|done]. Qed.
End fails.

(** ** Automation

    [path]: facts about keys; [stm]: which computations keep a property of the state;
    [kvstore]: how a read sees the effect of a write. *)
Create HintDb path discriminated.
Create HintDb stm discriminated.
#[export] Hint Resolve keeps_ret keeps_gets keeps_lift keeps_err_if keeps_ignore : stm.
Create Rewrite HintDb kvstore.

(** Walks through a computation, leaving the [modify]s. *)
Ltac keeps_steps :=
  repeat first
    [ apply keeps_ret | apply keeps_gets | apply keeps_lift | apply keeps_err_if
    | apply keeps_ignore
    | match goal with
      | |- keeps _ (mbind _ (lift _)) => apply keeps_bind_lift; intros ? ?
      | |- keeps _ (mbind _ _) => apply keeps_bind; [|intros ?]
      | |- keeps _ (if ?b then _ else _) => destruct b eqn:?
      end
    | progress cbv zeta ].

(** Walks through a computation, leaving the errors it raises itself. *)
Ltac fails_steps :=
  repeat first
    [ apply fails_ret | apply fails_gets | apply fails_modify
    | apply fails_ok_or; intros ? | apply fails_err_if; intros ?
    | match goal with
      | |- fails _ _ (mbind _ _) => apply fails_bind; [|intros ?]
      | |- fails _ _ (if ?b then _ else _) => destruct b eqn:?
      | |- fails _ _ (match ?o with Some _ => _ | None => _ end) => destruct o
      end
    | progress cbv zeta ].

(** A closed proposition whose decision procedure evaluates to true. *)
Ltac decided := apply (bool_decide_unpack _); vm_compute; exact I.

(** A computation by its result, whatever state it reaches. *)
Lemma pair_of_fst {A B} (p : A * B) a : fst p = a → p = (a, snd p).
Proof. destruct p. by intros <-. Qed.

(** ** Lists *)

Lemma filter_all {A} (P : A → Prop) `{∀ x, Decision (P x)} (l : list A) :
  Forall P l → filter P l = l.
Proof. induction 1 as [|x l Hx _ IH]; [done|]. rewrite filter_cons_True by done. by rewrite IH. Qed.
