(* ===== verification/RustInt.v ===== *)
(** * Machine integers and their little-endian bytes

    The fixed-width integers of the source as [Z] with the wrap-around written out, and
    [to_le_bytes]/[from_le_bytes] for every width.  [usize] is 64 bits wide (the targets the
    crate is built for); [isize::MAX] is the limit [Vec::try_reserve_exact] enforces. *)

From S2P Require Import Prelude.
Local Open Scope Z_scope.

(** ** Widths *)

(** [x as uN] and [x as iN]. *)
Definition wrap_u (w : Z) (x : Z) : Z := x mod 2 ^ w.
Definition wrap_s (w : Z) (x : Z) : Z :=
  let m := x mod 2 ^ w in if m <? 2 ^ (w - 1) then m else m - 2 ^ w.

Definition in_u (w : Z) (x : Z) : Prop := 0 <= x < 2 ^ w.
Definition in_s (w : Z) (x : Z) : Prop := - 2 ^ (w - 1) <= x < 2 ^ (w - 1).

Definition U16_MAX : Z := 65535.
Definition U32_MAX : Z := 4294967295.
Definition I32_MAX : Z := 2147483647.
Definition USIZE_MAX : Z := 18446744073709551615.
Definition ISIZE_MAX : Z := 9223372036854775807.

(** [usize::checked_add]. *)
Definition checked_add (a b : Z) : option Z :=
  if a + b <=? USIZE_MAX then Some (a + b) else None.

(** [u32::try_from], [i32::try_from] and [usize::try_from] on an unsigned argument. *)
Definition try_u32 (x : Z) : option Z := if x <=? U32_MAX then Some x else None.
Definition try_i32 (x : Z) : option Z := if x <=? I32_MAX then Some x else None.
Definition try_usize (x : Z) : option Z := if x <=? USIZE_MAX then Some x else None.

(** [u64::saturating_add]. *)
Definition saturating_add_u64 (a b : Z) : Z := Z.min (a + b) USIZE_MAX.

Lemma wrap_u_id w x : in_u w x → wrap_u w x = x.
Proof. intros H. by apply Z.mod_small. Qed.

Lemma wrap_s_id w x : 0 < w → in_s w x → wrap_s w x = x.
Proof.
  unfold in_s, wrap_s. intros Hw Hx.
  assert (Hp : 2 ^ w = 2 * 2 ^ (w - 1)).
  { rewrite <-Z.pow_succ_r by lia. f_equal. lia. }
  destruct (decide (0 <= x)) as [H0|H0].
  - rewrite Z.mod_small by lia. destruct (Z.ltb_spec x (2 ^ (w - 1))); lia.
  - rewrite <-(Z.mod_unique x (2 ^ w) (-1) (x + 2 ^ w)) by lia.
    destruct (Z.ltb_spec (x + 2 ^ w) (2 ^ (w - 1))); lia.
Qed.

Lemma wrap_s_wrap_u w x : wrap_s w (wrap_u w x) = wrap_s w x.
Proof. unfold wrap_s, wrap_u. by rewrite Zmod_mod. Qed.

Lemma in_u_wrap_u w x : 0 <= w → in_u w (wrap_u w x).
Proof. intros. unfold in_u, wrap_u. apply Z.mod_pos_bound. lia. Qed.

(** ** Bytes as numbers *)

Definition byte_val (b : byte) : Z := Z.of_N (Byte.to_N b).
Definition byte_of (z : Z) : byte := default Byte.x00 (Byte.of_N (Z.to_N (z mod 256))).

Lemma byte_val_range b : 0 <= byte_val b < 256.
Proof.
  unfold byte_val. pose proof (Byte.to_N_bounded b) as H.
  split; [lia|]. apply N2Z.inj_le in H. simpl in H. lia.
Qed.

Lemma byte_val_of z : byte_val (byte_of z) = z mod 256.
Proof.
  unfold byte_val, byte_of.
  pose proof (Z.mod_pos_bound z 256 ltac:(lia)) as Hr.
  destruct (Byte.of_N (Z.to_N (z mod 256))) as [b|] eqn:E; simpl.
  - apply Byte.to_of_N in E. rewrite E. lia.
  - apply Byte.of_N_None_iff in E. lia.
Qed.

Lemma byte_of_val b : byte_of (byte_val b) = b.
Proof.
  unfold byte_of. rewrite Z.mod_small by apply byte_val_range.
  unfold byte_val. rewrite N2Z.id. by rewrite Byte.of_to_N.
Qed.

Lemma byte_val_inj a b : byte_val a = byte_val b → a = b.
Proof. intros H. by rewrite <-(byte_of_val a), H, byte_of_val. Qed.

(** ** Little-endian codec *)

(** [x.to_le_bytes()] for an integer of [n] bytes; a signed [x] goes through its
    two's-complement bit pattern, since [Z.div] and [Z.modulo] round towards minus infinity. *)
Fixpoint le_bytes (n : nat) (x : Z) : bytes :=
  match n with
  | O => []
  | S n => byte_of x :: le_bytes n (x / 256)
  end.

(** [uN::from_le_bytes]. *)
Fixpoint le_val (l : bytes) : Z :=
  match l with
  | [] => 0
  | b :: l => byte_val b + 256 * le_val l
  end.

Lemma length_le_bytes n x : length (le_bytes n x) = n.
Proof. revert x. induction n; intros; simpl; auto. Qed.

Lemma le_val_range l : 0 <= le_val l < 256 ^ Z.of_nat (length l).
Proof.
  induction l as [|b l IH]; [simpl; lia|].
  cbn [le_val length]. rewrite Nat2Z.inj_succ, Z.pow_succ_r by lia.
  pose proof (byte_val_range b). lia.
Qed.

Lemma le_val_bytes n x : le_val (le_bytes n x) = x mod 256 ^ Z.of_nat n.
Proof.
  revert x. induction n as [|n IH]; intros x.
  - simpl. symmetry. apply Z.mod_1_r.
  - cbn [le_bytes le_val]. rewrite byte_val_of, IH, Nat2Z.inj_succ, Z.pow_succ_r by lia.
    rewrite Z.rem_mul_r; [done|lia|apply Z.pow_pos_nonneg; lia].
Qed.

Lemma le_bytes_val l : le_bytes (length l) (le_val l) = l.
Proof.
  induction l as [|b l IH]; [done|].
  cbn [le_bytes le_val length].
  assert (Hm : (byte_val b + 256 * le_val l) mod 256 = byte_val b).
  { pose proof (byte_val_range b).
    rewrite Z.mul_comm, Z_mod_plus_full, Z.mod_small; lia. }
  assert (Hd : (byte_val b + 256 * le_val l) / 256 = le_val l).
  { pose proof (byte_val_range b).
    rewrite Z.mul_comm, Z_div_plus_full, Z.div_small; lia. }
  rewrite Hd, IH. f_equal.
  apply byte_val_inj. by rewrite byte_val_of.
Qed.
