(* ===== verification/RustStr.v ===== *)
(** * The [str] operations of the Rust standard library

    [starts_with], [strip_prefix], [strip_suffix], [find], [rfind], [split], [split_once],
    [join], [trim_matches] and the lexicographic order on byte sequences.  A [char] pattern is
    the byte sequence that encodes it: on valid UTF-8 the two searches coincide. *)

From S2P Require Import Prelude.
Local Open Scope nat_scope.
Implicit Types (p s r : str).

(** ** Prefixes and suffixes *)

Fixpoint strip_prefix p s : option str :=
  match p, s with
  | [], _ => Some s
  | a :: p, b :: s => if decide (a = b) then strip_prefix p s else None
  | _ :: _, [] => None
  end.

Definition starts_with p s : bool :=
  match strip_prefix p s with Some _ => true | None => false end.

Definition strip_suffix p s : option str := reverse <$> strip_prefix (reverse p) (reverse s).

Definition ends_with p s : bool :=
  match strip_suffix p s with Some _ => true | None => false end.

Lemma strip_prefix_Some p s r : strip_prefix p s = Some r ↔ s = p ++ r.
Proof.
  revert s. induction p as [|a p IH]; intros [|b s]; simpl; [split; by intros [= ->]..|split; done|].
  case_decide; [subst; rewrite IH; split; [by intros ->|by intros [=]]|].
  split; [done|]. by intros [=].
Qed.

Lemma strip_prefix_app p r : strip_prefix p (p ++ r) = Some r.
Proof. by apply strip_prefix_Some. Qed.

Lemma strip_suffix_Some p s r : strip_suffix p s = Some r ↔ s = r ++ p.
Proof.
  unfold strip_suffix. rewrite fmap_Some. split.
  - intros (x & H & ->). apply strip_prefix_Some in H.
    by rewrite <-(reverse_involutive s), H, reverse_app, reverse_involutive.
  - intros ->. exists (reverse r). split; [|by rewrite reverse_involutive].
    rewrite reverse_app. apply strip_prefix_app.
Qed.

Lemma strip_suffix_app p r : strip_suffix p (r ++ p) = Some r.
Proof. by apply strip_suffix_Some. Qed.

Lemma starts_with_true p s : starts_with p s = true ↔ ∃ r, s = p ++ r.
Proof.
  unfold starts_with. destruct (strip_prefix p s) eqn:E; split; try done.
  - apply strip_prefix_Some in E. eauto.
  - intros [r ->]. by rewrite strip_prefix_app in E.
Qed.

Lemma ends_with_true p s : ends_with p s = true ↔ ∃ r, s = r ++ p.
Proof.
  unfold ends_with. destruct (strip_suffix p s) eqn:E; split; try done.
  - apply strip_suffix_Some in E. eauto.
  - intros [r ->]. by rewrite strip_suffix_app in E.
Qed.

Lemma starts_with_app p r : starts_with p (p ++ r) = true.
Proof. apply starts_with_true. eauto. Qed.

Lemma ends_with_app p r : ends_with p (r ++ p) = true.
Proof. apply ends_with_true. eauto. Qed.

Lemma starts_with_false p s : starts_with p s = false ↔ strip_prefix p s = None.
Proof. unfold starts_with. by destruct (strip_prefix p s). Qed.

Lemma starts_with_trans p s t :
  starts_with p s = true → starts_with s t = true → starts_with p t = true.
Proof.
  rewrite !starts_with_true. intros [a ->] [b ->]. exists (a ++ b). by rewrite app_assoc.
Qed.

(** ** Searching *)

Fixpoint find p s : option nat :=
  if starts_with p s then Some 0
  else match s with [] => None | _ :: s => S <$> find p s end.

Fixpoint rfind p s : option nat :=
  match (match s with [] => None | _ :: s => S <$> rfind p s end) with
  | Some i => Some i
  | None => if starts_with p s then Some 0 else None
  end.

Definition contains p s : bool :=
  match find p s with Some _ => true | None => false end.

Lemma find_Some p s i :
  find p s = Some i → s = take i s ++ p ++ drop (i + length p) s.
Proof.
  revert i. induction s as [|b s IH]; intros i; simpl.
  - destruct (starts_with p []) eqn:E; [|done]. intros [= <-].
    apply starts_with_true in E as [r Hr]. symmetry in Hr. apply app_nil in Hr as [-> ->]. done.
  - destruct (starts_with p (b :: s)) eqn:E.
    + intros [= <-]. apply starts_with_true in E as [r Hr]. simpl.
      rewrite Hr. by rewrite drop_app_length.
    + intros (j & Hj & ->)%fmap_Some. simpl. f_equal. by apply IH.
Qed.

Lemma find_None p s : find p s = None ↔ ∀ a b, s ≠ a ++ p ++ b.
Proof.
  induction s as [|c s IH]; simpl.
  - destruct (starts_with p []) eqn:E.
    + split; [done|]. intros H. apply starts_with_true in E as [r Hr].
      exfalso. by apply (H [] r).
    + split; [|done]. intros _ a b H. symmetry in H. apply app_nil in H as [-> H].
      apply app_nil in H as [-> ->]. discriminate E.
  - destruct (starts_with p (c :: s)) eqn:E.
    + split; [done|]. intros H. apply starts_with_true in E as [r Hr].
      exfalso. by apply (H [] r).
    + rewrite fmap_None, IH. split.
      * intros H [|a1 a] b Hs; simpl in Hs.
        -- rewrite Hs, starts_with_app in E. done.
        -- simplify_eq. by apply (H a b).
      * intros H a b Hs. apply (H (c :: a) b). simpl. by rewrite <-Hs.
Qed.

Lemma contains_true p s : contains p s = true ↔ ∃ a b, s = a ++ p ++ b.
Proof.
  unfold contains. destruct (find p s) eqn:E; split; try done.
  - apply find_Some in E. eauto.
  - intros (a & b & ->). by destruct (proj1 (find_None _ _) E a b).
Qed.

Lemma contains_false p s : contains p s = false ↔ ∀ a b, s ≠ a ++ p ++ b.
Proof. rewrite <-find_None. unfold contains. by destruct (find p s). Qed.

(** The index [find] returns is the first occurrence. *)
Lemma find_first p s a b :
  s = a ++ p ++ b → ∃ i, find p s = Some i ∧ i ≤ length a.
Proof.
  intros ->. induction a as [|c a IH]; simpl.
  - exists 0. split; [|lia]. destruct (p ++ b) eqn:E; simpl; rewrite <-E, starts_with_app; done.
  - destruct (starts_with p (c :: a ++ p ++ b)); [exists 0; split; [done|lia]|].
    destruct IH as (i & -> & Hi). exists (S i). split; [done|lia].
Qed.

Lemma rfind_Some p s i :
  rfind p s = Some i → s = take i s ++ p ++ drop (i + length p) s.
Proof.
  revert i. induction s as [|b s IH]; intros i; simpl.
  - destruct (starts_with p []) eqn:E; [|done]. intros [= <-].
    apply starts_with_true in E as [r Hr]. symmetry in Hr. apply app_nil in Hr as [-> ->]. done.
  - destruct (rfind p s) as [j|]; simpl.
    + intros [= <-]. simpl. f_equal. by apply IH.
    + destruct (starts_with p (b :: s)) eqn:E; [|done]. intros [= <-].
      apply starts_with_true in E as [r Hr]. simpl. rewrite Hr. by rewrite drop_app_length.
Qed.

(** An occurrence at [i] lies inside the string. *)
Lemma occurrence_bound p s i :
  p ≠ [] → s = take i s ++ p ++ drop (i + length p) s → i + length p ≤ length s.
Proof.
  intros Hp H. apply (f_equal length) in H.
  rewrite !length_app, length_take, length_drop in H.
  destruct p; [done|]. cbn [length] in *. lia.
Qed.

(** The index [rfind] returns is the last occurrence. *)
Lemma rfind_last p a b :
  ∃ i, rfind p (a ++ p ++ b) = Some i ∧ length a ≤ i.
Proof.
  induction a as [|c a (i & Hi & Hle)].
  - simpl. destruct (p ++ b) as [|x l] eqn:E; simpl.
    + exists 0. apply app_nil in E as [-> ->]. done.
    + destruct (rfind p l) as [j|]; simpl; [exists (S j); split; [done|lia]|].
      exists 0. rewrite <-E, starts_with_app. done.
  - exists (S i). simpl. rewrite Hi. simpl. split; [done|lia].
Qed.

Lemma rfind_None p s : rfind p s = None ↔ ∀ a b, s ≠ a ++ p ++ b.
Proof.
  split.
  - intros H a b ->. destruct (rfind_last p a b) as (i & Hi & _). congruence.
  - intros H. destruct (rfind p s) as [i|] eqn:E; [|done].
    apply rfind_Some in E. by destruct (H _ _ E).
Qed.

(** ** Splitting and joining *)

(** [s.split(c)] for a one-byte separator: never empty. *)
Fixpoint split_byte (c : byte) s : list str :=
  match s with
  | [] => [[]]
  | b :: s =>
      if decide (b = c) then [] :: split_byte c s
      else match split_byte c s with
           | [] => [[b]]
           | w :: ws => (b :: w) :: ws
           end
  end.

(** [parts.join(sep)]. *)
Fixpoint join sep (l : list str) : str :=
  match l with
  | [] => []
  | [w] => w
  | w :: ws => w ++ sep ++ join sep ws
  end.

(** [s.split_once(p)]. *)
Definition split_once p s : option (str * str) :=
  match find p s with
  | Some i => Some (take i s, drop (i + length p) s)
  | None => None
  end.

(** [s.rsplit(c).next()]: the segment after the last separator. *)
Definition last_segment (c : byte) s : str := default [] (last (split_byte c s)).

(** [trim_start_matches(c)], [trim_end_matches(c)] and [trim_matches(c)]. *)
Fixpoint trim_start_byte (c : byte) s : str :=
  match s with
  | b :: s' => if decide (b = c) then trim_start_byte c s' else s
  | [] => []
  end.
Definition trim_end_byte (c : byte) s : str := reverse (trim_start_byte c (reverse s)).
Definition trim_byte (c : byte) s : str := trim_end_byte c (trim_start_byte c s).

Lemma split_byte_ne c s : split_byte c s ≠ [].
Proof. destruct s as [|b s]; simpl; [done|]. case_decide; [done|]. by destruct (split_byte c s). Qed.

Lemma join_cons sep w ws : ws ≠ [] → join sep (w :: ws) = w ++ sep ++ join sep ws.
Proof. by destruct ws. Qed.

Lemma join_split c s : join [c] (split_byte c s) = s.
Proof.
  induction s as [|b s IH]; [done|]. simpl. pose proof (split_byte_ne c s) as Hne.
  case_decide as Hb; simpl.
  - subst. destruct (split_byte c s); [done|]. by rewrite IH.
  - destruct (split_byte c s) as [|w ws]; [done|].
    destruct ws; simpl in *; by rewrite IH.
Qed.

Lemma split_byte_notin c w : c ∉ w → split_byte c w = [w].
Proof.
  induction w as [|b w IH]; [done|]. rewrite not_elem_of_cons. intros [Hb Hw]. simpl.
  rewrite decide_False by congruence. by rewrite IH.
Qed.

Lemma split_byte_app c w s :
  c ∉ w → split_byte c (w ++ c :: s) = w :: split_byte c s.
Proof.
  induction w as [|b w IH]; simpl; [by rewrite decide_True|].
  rewrite not_elem_of_cons. intros [Hb Hw].
  rewrite decide_False by congruence. by rewrite IH.
Qed.

Lemma split_join c ws :
  ws ≠ [] → Forall (λ w, c ∉ w) ws → split_byte c (join [c] ws) = ws.
Proof.
  induction ws as [|w ws IH]; [done|]. intros _ [Hw Hws]%Forall_cons.
  destruct ws as [|w' ws]; [by apply split_byte_notin|].
  rewrite join_cons by done. simpl ([c] ++ _). rewrite split_byte_app by done.
  f_equal. by apply IH.
Qed.

Lemma split_byte_segments c s : Forall (λ w, c ∉ w) (split_byte c s).
Proof.
  induction s as [|b s IH]; simpl.
  - constructor; [apply not_elem_of_nil|done].
  - case_decide.
    + constructor; [apply not_elem_of_nil|done].
    + destruct (split_byte c s) as [|w ws].
      * constructor; [by apply not_elem_of_cons; split; [congruence|apply not_elem_of_nil]|done].
      * apply Forall_cons in IH as [Hw Hws]. constructor; [|done].
        apply not_elem_of_cons; split; [congruence|done].
Qed.

Lemma split_once_Some p s a b : split_once p s = Some (a, b) → s = a ++ p ++ b.
Proof.
  unfold split_once. destruct (find p s) eqn:E; [|done]. intros [= <- <-]. by apply find_Some.
Qed.

(** A separator of one byte, at its first and at its last occurrence. *)
Lemma starts_with_byte c b s : starts_with [c] (b :: s) = bool_decide (c = b).
Proof. unfold starts_with. simpl. unfold bool_decide. by destruct (decide (c = b)); simpl; case_decide. Qed.

Lemma find_byte c a b : c ∉ a → find [c] (a ++ c :: b) = Some (length a).
Proof.
  induction a as [|x a IH]; intros Hc; cbn [app find length]; rewrite starts_with_byte.
  - by rewrite bool_decide_true.
  - apply not_elem_of_cons in Hc as [Hne Hc]. rewrite bool_decide_false by done. by rewrite IH.
Qed.

(** A pattern whose first byte does not recur in it cannot straddle the end of a text it does
    not occur in. *)
Lemma find_after c q a b :
  c ∉ q → contains (c :: q) a = false → find (c :: q) (a ++ (c :: q) ++ b) = Some (length a).
Proof.
  intros Hc. induction a as [|x a IH]; intros Ha.
  - pose proof (starts_with_app (c :: q) b) as H. cbn [app] in H. cbn [app length find]. by rewrite H.
  - rewrite contains_false in Ha. cbn [app length find].
    destruct (starts_with (c :: q) (x :: a ++ c :: q ++ b)) eqn:E.
    + exfalso. apply starts_with_true in E as [r Hr]. cbn [app] in Hr. injection Hr as <- Hr.
      destruct (decide (length q <= length a)) as [Hle|Hgt].
      * apply (Ha [] (drop (length q) a)). cbn [app]. f_equal.
        rewrite <-(take_drop (length q) a) at 1. f_equal.
        apply (f_equal (take (length q))) in Hr. rewrite take_app_le in Hr by lia.
        by rewrite take_app_length in Hr.
      * apply Hc. apply (f_equal (.!! length a)) in Hr.
        rewrite lookup_app_r, Nat.sub_diag in Hr by lia. cbn in Hr.
        rewrite lookup_app_l in Hr by lia. by apply list_elem_of_lookup_2 with (length a).
    + cbn [app] in IH. rewrite IH; [done|]. apply contains_false. intros l r ->.
      by apply (Ha (x :: l) r).
Qed.

Lemma find_byte_None c a : find [c] a = None ↔ c ∉ a.
Proof.
  rewrite find_None. split.
  - intros H (l1 & l2 & ->)%list_elem_of_split. by apply (H l1 l2).
  - intros H x y ->. apply H. rewrite !elem_of_app. right. left. by left.
Qed.

Lemma find_byte_Some c s i :
  find [c] s = Some i → (c ∉ take i s) ∧ s = take i s ++ (c :: drop (S i) s).
Proof.
  intros H. pose proof (find_Some _ _ _ H) as Hs. simpl in Hs. rewrite Nat.add_1_r in Hs.
  split; [|done]. intros (l1 & l2 & E)%list_elem_of_split.
  assert (i ≤ length s).
  { apply (f_equal length) in Hs. rewrite length_app, length_take in Hs. simpl in Hs.
    rewrite length_drop in Hs. lia. }
  destruct (find_first [c] s l1 (l2 ++ c :: drop (S i) s)) as (j & Hj & Hle).
  { rewrite Hs at 1. rewrite E. by rewrite <-!app_assoc. }
  rewrite H in Hj. injection Hj as <-. apply (f_equal length) in E.
  rewrite length_take, length_app in E. simpl in E. lia.
Qed.

Lemma split_once_byte c a b : c ∉ a → split_once [c] (a ++ c :: b) = Some (a, b).
Proof.
  intros Hc. unfold split_once. rewrite find_byte by done. simpl.
  rewrite take_app_length. do 2 f_equal. by rewrite drop_app_add.
Qed.

Lemma split_once_byte_Some c s a b : split_once [c] s = Some (a, b) ↔ (c ∉ a) ∧ s = a ++ c :: b.
Proof.
  split; [|intros [Hc ->]; by apply split_once_byte].
  intros H. pose proof (split_once_Some _ _ _ _ H) as Hs. split; [|done]. revert H.
  unfold split_once. destruct (find [c] s) as [i|] eqn:E; [|done]. intros [= <- _].
  by apply find_byte_Some.
Qed.

Lemma rfind_byte_None c a : rfind [c] a = None ↔ c ∉ a.
Proof. by rewrite rfind_None, <-find_None, find_byte_None. Qed.

Lemma rfind_byte c a b : c ∉ b → rfind [c] (a ++ c :: b) = Some (length a).
Proof.
  intros Hc. induction a as [|x a IH]; cbn [app rfind length].
  - rewrite (proj2 (rfind_byte_None c b) Hc). simpl. by rewrite starts_with_byte, bool_decide_true.
  - by rewrite IH.
Qed.

Lemma rfind_byte_Some c s i :
  rfind [c] s = Some i → (c ∉ drop (S i) s) ∧ s = take i s ++ (c :: drop (S i) s).
Proof.
  intros H. pose proof (rfind_Some _ _ _ H) as Hs. simpl in Hs. rewrite Nat.add_1_r in Hs.
  split; [|done]. intros (l1 & l2 & E)%list_elem_of_split.
  destruct (rfind_last [c] (take i s ++ c :: l1) l2) as (j & Hj & Hle).
  rewrite <-app_assoc in Hj. simpl in Hj. rewrite <-E, <-Hs, H in Hj. injection Hj as <-.
  rewrite length_app, length_take in Hle. simpl in Hle.
  assert (i < length s); [|lia]. apply (f_equal length) in Hs.
  rewrite length_app, length_take in Hs. simpl in Hs. lia.
Qed.


(** ** Order

    [str] and [Vec<T>] compare lexicographically. *)
Fixpoint list_cmp {A} (cmp : A → A → comparison) (l k : list A) : comparison :=
  match l, k with
  | [], [] => Eq
  | [], _ :: _ => Lt
  | _ :: _, [] => Gt
  | a :: l, b :: k => match cmp a b with Eq => list_cmp cmp l k | c => c end
  end.

Definition byte_cmp (a b : byte) : comparison := N.compare (Byte.to_N a) (Byte.to_N b).
Definition str_cmp : str → str → comparison := list_cmp byte_cmp.

(** A three-way comparison that is a total preorder. *)
Class TotalCmp {A} (cmp : A → A → comparison) : Prop := {
  cmp_opp x y : cmp y x = CompOpp (cmp x y);
  cmp_trans x y z : cmp x y ≠ Gt → cmp y z ≠ Gt → cmp x z ≠ Gt;
}.

(** ... whose [Eq] is equality. *)
Class StrictCmp {A} (cmp : A → A → comparison) : Prop := {
  strict_total :: TotalCmp cmp;
  cmp_eq x y : cmp x y = Eq → x = y;
}.

Lemma cmp_refl `{TotalCmp A cmp} x : cmp x x = Eq.
Proof. pose proof (cmp_opp x x) as Hc. by destruct (cmp x x). Qed.

#[export] Instance N_strict : StrictCmp N.compare.
Proof.
  split; [split|].
  - intros x y. apply N.compare_antisym.
  - intros x y z. rewrite !N.compare_le_iff. lia.
  - intros x y. apply N.compare_eq.
Qed.

#[export] Instance Z_strict : StrictCmp Z.compare.
Proof.
  split; [split|].
  - intros x y. apply Z.compare_antisym.
  - intros x y z. rewrite !Z.compare_le_iff. lia.
  - intros x y. apply Z.compare_eq.
Qed.

#[export] Instance byte_strict : StrictCmp byte_cmp.
Proof.
  unfold byte_cmp. split; [split|].
  - intros x y. apply cmp_opp.
  - intros x y z. apply cmp_trans.
  - intros x y H%N.compare_eq. apply (f_equal Byte.of_N) in H.
    rewrite !Byte.of_to_N in H. by injection H.
Qed.

Lemma list_cmp_opp {A} (cmp : A → A → comparison) `{!StrictCmp cmp} l k :
  list_cmp cmp k l = CompOpp (list_cmp cmp l k).
Proof.
  revert k. induction l as [|a l IH]; intros [|b k]; simpl; try done.
  rewrite (cmp_opp a b). destruct (cmp a b); simpl; [apply IH|done..].
Qed.

Lemma list_cmp_eq {A} (cmp : A → A → comparison) `{!StrictCmp cmp} l k :
  list_cmp cmp l k = Eq → l = k.
Proof.
  revert k. induction l as [|a l IH]; intros [|b k]; simpl; try done.
  destruct (cmp a b) eqn:E; try done. intros H. f_equal; [by apply cmp_eq|by apply IH].
Qed.

Lemma list_cmp_trans {A} (cmp : A → A → comparison) `{!StrictCmp cmp} l k m :
  list_cmp cmp l k ≠ Gt → list_cmp cmp k m ≠ Gt → list_cmp cmp l m ≠ Gt.
Proof.
  revert k m. induction l as [|a l IH]; intros [|b k] [|c m]; simpl; try done.
  destruct (cmp a b) eqn:Eab, (cmp b c) eqn:Ebc; try done.
  - apply cmp_eq in Eab, Ebc. subst. rewrite cmp_refl. by apply IH.
  - apply cmp_eq in Eab. subst. by rewrite Ebc.
  - apply cmp_eq in Ebc. subst. by rewrite Eab.
  - intros _ _. pose proof (cmp_trans a b c) as Ht. rewrite Eab, Ebc in Ht.
    destruct (cmp a c) eqn:Eac; [|done|by destruct Ht].
    exfalso. apply cmp_eq in Eac. subst.
    pose proof (cmp_opp c b) as Ho. rewrite Eab, Ebc in Ho. done.
Qed.

#[export] Instance list_strict {A} (cmp : A → A → comparison) `{!StrictCmp cmp} :
  StrictCmp (list_cmp cmp).
Proof.
  split; [split|].
  - apply list_cmp_opp, _.
  - apply list_cmp_trans, _.
  - apply list_cmp_eq, _.
Qed.

#[export] Instance str_cmp_strict : StrictCmp str_cmp.
Proof. unfold str_cmp. apply _. Qed.
