(* ===== verification/RustText.v ===== *)
(** * Numbers and Unicode text of the Rust standard library

    Decimal printing ([to_string] of the integer types) and parsing ([str::parse]), UTF-8
    validation, [String::from_utf8_lossy] and [str::trim]. *)

From S2P Require Import Prelude RustInt RustStr.
Local Open Scope Z_scope.
Implicit Types (s : str).

(** ** Decimal numbers *)

Definition digit_byte (d : Z) : byte := byte_of (48 + d).
Definition is_digit (b : byte) : bool := (48 <=? byte_val b) && (byte_val b <=? 57).
Definition digit_val (b : byte) : Z := byte_val b - 48.

(** Digits of [x >= 0], most significant first, in front of [acc]. *)
Fixpoint show_digits (fuel : nat) (x : Z) (acc : str) : str :=
  match fuel with
  | O => acc
  | S fuel =>
      let acc := digit_byte (x mod 10) :: acc in
      if x <? 10 then acc else show_digits fuel (x / 10) acc
  end.

(** Twenty-one steps print every integer below [10 ^ 21]: more than a 64-bit type holds. *)
Definition show_u (x : Z) : str := show_digits 21 x [].

(** [x.to_string()] for a signed [x]. *)
Definition show_z (x : Z) : str :=
  if x <? 0 then Byte.x2d :: show_u (- x) else show_u x.

Fixpoint parse_digits (acc : Z) (s : str) : option Z :=
  match s with
  | [] => Some acc
  | b :: s => if is_digit b then parse_digits (10 * acc + digit_val b) s else None
  end.

Definition in_range (lo hi : Z) (o : option Z) : option Z :=
  match o with
  | Some x => if (lo <=? x) && (x <=? hi) then Some x else None
  | None => None
  end.

(** [s.parse::<uN>().ok()]: an optional [+], at least one digit, no overflow. *)
Definition parse_u (w : Z) (s : str) : option Z :=
  match s with
  | [] => None
  | b :: rest =>
      let ds := if decide (b = Byte.x2b) then rest else s in
      match ds with
      | [] => None
      | _ => in_range 0 (2 ^ w - 1) (parse_digits 0 ds)
      end
  end.

(** [s.parse::<iN>().ok()]: an optional [+] or [-], at least one digit, no overflow. *)
Definition parse_s (w : Z) (s : str) : option Z :=
  match s with
  | [] => None
  | b :: rest =>
      let '(neg, ds) :=
        if decide (b = Byte.x2d) then (true, rest)
        else if decide (b = Byte.x2b) then (false, rest) else (false, s) in
      match ds with
      | [] => None
      | _ => in_range (- 2 ^ (w - 1)) (2 ^ (w - 1) - 1)
               ((if neg : bool then Z.opp else id) <$> parse_digits 0 ds)
      end
  end.

Lemma digit_byte_val d : 0 <= d < 10 → byte_val (digit_byte d) = 48 + d.
Proof. intros. unfold digit_byte. rewrite byte_val_of, Z.mod_small; lia. Qed.

Lemma is_digit_byte d : 0 <= d < 10 → is_digit (digit_byte d) = true.
Proof. intros. unfold is_digit. rewrite digit_byte_val by done. lia. Qed.

Lemma parse_digits_app a s t :
  parse_digits a (s ++ t) = parse_digits a s ≫= λ b, parse_digits b t.
Proof. revert a. induction s as [|b s IH]; intros; simpl; [done|]. by destruct (is_digit b). Qed.

(** What the digit loop prints reads back as the number, and starts with a digit. *)
Lemma parse_show_digits fuel x acc :
  0 <= x < 10 ^ Z.of_nat fuel → (0 < fuel)%nat →
  ∃ ds, show_digits fuel x acc = ds ++ acc ∧ ds ≠ [] ∧
        Forall (λ b, is_digit b = true) ds ∧ parse_digits 0 ds = Some x.
Proof.
  revert x acc. induction fuel as [|fuel IH]; intros x acc Hx Hf; [lia|].
  rewrite Nat2Z.inj_succ, Z.pow_succ_r in Hx by lia. cbn [show_digits].
  pose proof (Z.mod_pos_bound x 10 ltac:(lia)) as Hm.
  pose proof (Z.div_mod x 10 ltac:(lia)) as Hdm.
  destruct (Z.ltb_spec x 10) as [Hlt|Hge].
  - exists [digit_byte (x mod 10)]. simpl. rewrite is_digit_byte by lia.
    split_and!; [done..| |].
    + constructor; [by rewrite is_digit_byte|done].
    + unfold digit_val. rewrite digit_byte_val by lia. f_equal. rewrite Z.mod_small; lia.
  - assert (Hfuel : (0 < fuel)%nat) by (destruct fuel; simpl in *; lia).
    destruct (IH (x / 10) (digit_byte (x mod 10) :: acc)) as (ds & -> & Hne & Hds & Hp);
      [split; [apply Z.div_pos; lia|apply Z.div_lt_upper_bound; lia]|done|].
    exists (ds ++ [digit_byte (x mod 10)]). rewrite <-app_assoc. split_and!; [done|by destruct ds| |].
    + apply Forall_app. split; [done|]. constructor; [by rewrite is_digit_byte|done].
    + rewrite parse_digits_app, Hp. simpl. rewrite is_digit_byte by lia.
      unfold digit_val. rewrite digit_byte_val by lia. f_equal. lia.
Qed.

Lemma show_u_spec x :
  0 <= x < 10 ^ 21 →
  show_u x ≠ [] ∧ Forall (λ b, is_digit b = true) (show_u x) ∧ parse_digits 0 (show_u x) = Some x.
Proof.
  intros Hx. unfold show_u.
  destruct (parse_show_digits 21 x []) as (ds & -> & ?); [done|lia|]. by rewrite app_nil_r.
Qed.

Lemma parse_digits_nonneg a s x : 0 <= a → parse_digits a s = Some x → 0 <= x.
Proof.
  revert a. induction s as [|b s IH]; simpl; intros a Ha; [congruence|].
  destruct (is_digit b) eqn:E; [|done]. apply IH. unfold is_digit in E. unfold digit_val. lia.
Qed.

Lemma digit_not_sign b : is_digit b = true → b ≠ Byte.x2b ∧ b ≠ Byte.x2d.
Proof. intros H. split; intros ->; discriminate H. Qed.

(** Reading back a printed signed number, for any width up to 64 bits. *)
Lemma parse_show_s w x : 0 < w <= 64 → in_s w x → parse_s w (show_z x) = Some x.
Proof.
  intros Hw Hx. unfold in_s in Hx.
  assert (Hb : 2 ^ (w - 1) <= 2 ^ 63) by (apply Z.pow_le_mono_r; lia).
  assert (2 ^ 63 = 9223372036854775808) as H63 by done.
  unfold show_z. destruct (Z.ltb_spec x 0).
  - destruct (show_u_spec (- x)) as (Hne & _ & Hp); [lia|].
    unfold parse_s. rewrite decide_True by done.
    destruct (show_u (- x)) as [|d ds]; [done|]. rewrite Hp. simpl.
    rewrite Z.opp_involutive.
    replace ((- 2 ^ (w - 1) <=? x) && (x <=? 2 ^ (w - 1) - 1)) with true by lia. done.
  - destruct (show_u_spec x) as (Hne & Hd & Hp); [lia|].
    unfold parse_s. destruct (show_u x) as [|d ds]; [done|].
    apply Forall_cons in Hd as [[Hp1 Hp2]%digit_not_sign _].
    rewrite !decide_False by done. rewrite Hp. simpl.
    replace ((- 2 ^ (w - 1) <=? x) && (x <=? 2 ^ (w - 1) - 1)) with true by lia. done.
Qed.

(** ** UTF-8 *)

Definition cont (b : byte) : bool := (128 <=? byte_val b) && (byte_val b <=? 191).

(** The first chunk of [s]: how many bytes it spans and whether it is one well-formed
    scalar value.  An ill-formed chunk is the maximal prefix [Utf8Chunks] rejects at once. *)
Definition utf8_chunk s : nat * bool :=
  let second_ok (lo hi : Z) (b : byte) := (lo <=? byte_val b) && (byte_val b <=? hi) in
  let tail2 (s : str) := match s with c :: _ => cont c | [] => false end in
  match s with
  | [] => (O, true)
  | b :: s1 =>
      let v := byte_val b in
      if v <? 128 then (1%nat, true)
      else if (194 <=? v) && (v <=? 223) then
        if tail2 s1 then (2%nat, true) else (1%nat, false)
      else if (224 <=? v) && (v <=? 239) then
        let lo := if v =? 224 then 160 else 128 in
        let hi := if v =? 237 then 159 else 191 in
        match s1 with
        | c :: s2 =>
            if second_ok lo hi c then
              if tail2 s2 then (3%nat, true) else (2%nat, false)
            else (1%nat, false)
        | [] => (1%nat, false)
        end
      else if (240 <=? v) && (v <=? 244) then
        let lo := if v =? 240 then 144 else 128 in
        let hi := if v =? 244 then 143 else 191 in
        match s1 with
        | c :: s2 =>
            if second_ok lo hi c then
              match s2 with
              | d :: s3 =>
                  if cont d then
                    if tail2 s3 then (4%nat, true) else (3%nat, false)
                  else (2%nat, false)
              | [] => (2%nat, false)
              end
            else (1%nat, false)
        | [] => (1%nat, false)
        end
      else (1%nat, false)
  end.

Definition REPLACEMENT : str := "�"%rs.

(** [String::from_utf8_lossy]; the fuel is the length, and every chunk of a non-empty string
    spans at least one byte. *)
Fixpoint lossy_fuel (fuel : nat) s : str :=
  match fuel, s with
  | S fuel, _ :: _ =>
      let '(n, ok) := utf8_chunk s in
      (if ok : bool then take n s else REPLACEMENT) ++ lossy_fuel fuel (drop n s)
  | _, _ => []
  end.
Definition from_utf8_lossy s : str := lossy_fuel (length s) s.

Fixpoint utf8_valid_fuel (fuel : nat) s : bool :=
  match s with
  | [] => true
  | _ :: _ =>
      match fuel with
      | O => false
      | S fuel => let '(n, ok) := utf8_chunk s in ok && utf8_valid_fuel fuel (drop n s)
      end
  end.
Definition utf8_valid s : bool := utf8_valid_fuel (length s) s.

(** [std::str::from_utf8]. *)
Definition from_utf8 s : option str := if utf8_valid s then Some s else None.

Lemma utf8_chunk_pos s : s ≠ [] → (0 < fst (utf8_chunk s))%nat.
Proof.
  destruct s as [|b s]; [done|]. intros _. unfold utf8_chunk.
  repeat (case_match; simpl; try lia).
Qed.

Lemma lossy_valid_fuel fuel s : utf8_valid_fuel fuel s = true → lossy_fuel fuel s = s.
Proof.
  revert s. induction fuel as [|fuel IH]; intros [|b s]; cbn -[utf8_chunk]; try done.
  destruct (utf8_chunk (b :: s)) as [n ok] eqn:E. intros [-> H]%andb_true_iff.
  rewrite IH by done. apply take_drop.
Qed.

(** Lossy decoding is the identity on valid UTF-8. *)
Lemma lossy_valid s : utf8_valid s = true → from_utf8_lossy s = s.
Proof. apply lossy_valid_fuel. Qed.

(** ** Scalar values *)

(** [char::from_u32(n)] pushed onto a [String]: the UTF-8 encoding of [n], unless [n] is a
    surrogate or beyond the last code point. *)
Definition char_utf8 (n : Z) : option str :=
  let tail (sh : Z) := byte_of (128 + Z.land (Z.shiftr n sh) 63) in
  if (n <? 0) || ((55296 <=? n) && (n <=? 57343)) || (1114111 <? n) then None
  else if n <? 128 then Some [byte_of n]
  else if n <? 2048 then Some [byte_of (192 + Z.shiftr n 6); tail 0]
  else if n <? 65536 then Some [byte_of (224 + Z.shiftr n 12); tail 6; tail 0]
  else Some [byte_of (240 + Z.shiftr n 18); tail 12; tail 6; tail 0].

(** [s.chars().take(n).collect::<String>()] of valid UTF-8. *)
Fixpoint take_chars (n : nat) s : str :=
  match n, s with
  | S n, _ :: _ => let k := fst (utf8_chunk s) in take k s ++ take_chars n (drop k s)
  | _, _ => []
  end.

(** Printing and parsing of an unsigned number. *)
Lemma parse_show_u w x : 0 <= w <= 64 → in_u w x → parse_u w (show_u x) = Some x.
Proof.
  intros Hw Hx. unfold in_u in Hx.
  assert (Hb : 2 ^ w <= 2 ^ 64) by (apply Z.pow_le_mono_r; lia).
  assert (2 ^ 64 = 18446744073709551616) as H64 by done.
  destruct (show_u_spec x) as (Hne & Hd & Hp); [lia|].
  unfold parse_u. destruct (show_u x) as [|d ds]; [done|].
  apply Forall_cons in Hd as [[Hp1 _]%digit_not_sign _].
  rewrite decide_False by done. rewrite Hp. cbn [in_range].
  by replace ((0 <=? x) && (x <=? 2 ^ w - 1)) with true by lia.
Qed.

Lemma show_u_notin (n : Z) b : 0 <= n < 10 ^ 21 → is_digit b = false → b ∉ show_u n.
Proof.
  intros Hn Hb Hin. destruct (show_u_spec n Hn) as (_ & Hd & _).
  rewrite Forall_forall in Hd. rewrite (Hd b Hin) in Hb. done.
Qed.

(** A well-formed first character stays one whatever follows. *)
Lemma utf8_chunk_app s t n : s ≠ [] → utf8_chunk s = (n, true) → utf8_chunk (s ++ t) = (n, true).
Proof.
  destruct s as [|a s]; [done|]. intros _. unfold utf8_chunk. cbn [app].
  repeat case_match; simplify_eq/=; try done; try congruence;
    repeat (case_match; simplify_eq/=; try done; try congruence).
Qed.

Lemma utf8_chunk_bound s : (fst (utf8_chunk s) <= length s)%nat.
Proof.
  destruct s as [|a s]; [done|]. unfold utf8_chunk.
  repeat (case_match; simplify_eq/=; try lia).
Qed.

Lemma utf8_valid_enough n m s :
  (length s <= n)%nat → (length s <= m)%nat → utf8_valid_fuel n s = utf8_valid_fuel m s.
Proof.
  revert m s. induction n as [|n IH]; intros m [|b s]; cbn [length]; intros Hn Hm; try lia.
  - by destruct m.
  - by destruct m.
  - destruct m as [|m]; [lia|]. cbn [utf8_valid_fuel].
    pose proof (utf8_chunk_pos (b :: s) ltac:(done)) as Hp.
    destruct (utf8_chunk (b :: s)) as [k ok]. cbn [fst] in Hp. f_equal.
    apply IH; rewrite length_drop; cbn [length]; lia.
Qed.

Lemma utf8_valid_step s :
  s ≠ [] → utf8_valid s = let '(n, ok) := utf8_chunk s in ok && utf8_valid (drop n s).
Proof.
  destruct s as [|b s]; [done|]. intros _. unfold utf8_valid at 1. cbn [length utf8_valid_fuel].
  pose proof (utf8_chunk_pos (b :: s) ltac:(done)) as Hp.
  destruct (utf8_chunk (b :: s)) as [k ok]. cbn [fst] in Hp. f_equal.
  apply utf8_valid_enough; rewrite length_drop; cbn [length]; lia.
Qed.

Lemma utf8_valid_app s t : utf8_valid s = true → utf8_valid t = true → utf8_valid (s ++ t) = true.
Proof.
  remember (length s) as n eqn:Hn. revert s Hn.
  induction (lt_wf n) as [n _ IH]. intros s -> Hs Ht.
  destruct s as [|b s]; [done|]. rewrite utf8_valid_step by done.
  rewrite utf8_valid_step in Hs by done.
  pose proof (utf8_chunk_pos (b :: s) ltac:(done)) as Hp.
  pose proof (utf8_chunk_bound (b :: s)) as Hb.
  destruct (utf8_chunk (b :: s)) as [k [|]] eqn:E; [|done]. cbn [fst] in Hp, Hb.
  rewrite (utf8_chunk_app (b :: s) t k) by done.
  rewrite drop_app_le by done. cbn [andb] in *. eapply IH; [|done|exact Hs|exact Ht].
  rewrite length_drop. cbn [length] in *. lia.
Qed.

Lemma utf8_valid_ascii s : Forall (λ b, byte_val b < 128) s → utf8_valid s = true.
Proof.
  induction 1 as [|b s Hb _ IH]; [done|]. rewrite utf8_valid_step by done.
  unfold utf8_chunk. apply Z.ltb_lt in Hb. rewrite Hb. cbn [drop andb]. by rewrite drop_0.
Qed.

(** The bytes of the first character, alone, still are that character; past ASCII none of them
    is an ASCII byte. *)
Lemma utf8_chunk_take s t n :
  s ≠ [] → utf8_chunk s = (n, true) → utf8_chunk (take n s ++ t) = (n, true).
Proof.
  destruct s as [|a s]; [done|]. intros _ H. unfold utf8_chunk in H.
  repeat match type of H with context [match ?x with _ => _ end] => destruct x eqn:? end;
    simplify_eq; unfold utf8_chunk; cbn [take app];
    repeat match goal with H : ?x = true |- context [?x] => rewrite H
                         | H : ?x = false |- context [?x] => rewrite H end;
    try done;
    match goal with |- context [take 1 ?l] => destruct l; [done|] end;
    cbn [take app]; match goal with H : _ = true |- _ => by rewrite H end.
Qed.

Lemma utf8_chunk_high b s n :
  utf8_chunk (b :: s) = (n, true) → 128 <= byte_val b → Forall (λ c, 128 <= byte_val c) (take n (b :: s)).
Proof.
  unfold utf8_chunk, cont. intros H Hb.
  repeat case_match; simplify_eq/=; repeat constructor; lia.
Qed.

(** A well-formed string is cut into well-formed strings before any byte that starts a character. *)
Lemma utf8_chunk_tail b s n :
  utf8_chunk (b :: s) = (n, true) → Forall (λ c, cont c = true) (take (n - 1) s).
Proof.
  unfold utf8_chunk, cont. intros H. repeat case_match; simplify_eq/=; repeat constructor; lia.
Qed.

Lemma utf8_valid_take s n : s ≠ [] → utf8_chunk s = (n, true) → utf8_valid (take n s) = true.
Proof.
  intros Hs H. pose proof (utf8_chunk_pos s Hs) as Hp. rewrite H in Hp. cbn [fst] in Hp.
  rewrite utf8_valid_step by (destruct s, n; [done|done|lia|done]).
  pose proof (utf8_chunk_take s [] n Hs H) as E. rewrite app_nil_r in E. rewrite E. cbn [andb].
  rewrite drop_ge; [done|]. rewrite length_take. lia.
Qed.

Lemma utf8_valid_cut (x : str) c (y : str) :
  utf8_valid (x ++ c :: y) = true → cont c = false → utf8_valid x = true ∧ utf8_valid (c :: y) = true.
Proof.
  intros H Hc. remember (length x) as m eqn:Hm. revert x Hm H. induction (lt_wf m) as [m _ IH]. intros x -> H.
  destruct x as [|b x]; [done|]. rewrite utf8_valid_step in H by done.
  pose proof (utf8_chunk_pos ((b :: x) ++ c :: y) ltac:(done)) as Hp.
  destruct (utf8_chunk ((b :: x) ++ c :: y)) as [n [|]] eqn:E; [|done]. cbn [andb fst] in *.
  assert (Hn : (n <= length (b :: x))%nat).
  { destruct (decide (n <= length (b :: x))%nat) as [|Hn]; [done|exfalso].
    pose proof (utf8_chunk_tail b (x ++ c :: y) n E) as Ht. rewrite Forall_lookup in Ht.
    rewrite (Ht (length x) c) in Hc; [done|]. cbn [length] in Hn.
    rewrite lookup_take_lt by lia. by apply list_lookup_middle. }
  rewrite drop_app_le in H by done.
  destruct (IH (length (drop n (b :: x)))%nat) with (x := drop n (b :: x)) as [H1 H2];
    [rewrite length_drop; cbn [length] in *; lia|done|done|]. split; [|done].
  rewrite <-(take_drop n (b :: x)). apply utf8_valid_app; [|done].
  pose proof (utf8_valid_take ((b :: x) ++ c :: y) n ltac:(done) E) as Hv. by rewrite take_app_le in Hv.
Qed.

(** ** Trimming *)

(** The UTF-8 encodings of the characters with the [White_Space] property. *)
Definition white_space : list str :=
  [[Byte.x09]; [Byte.x0a]; [Byte.x0b]; [Byte.x0c]; [Byte.x0d]; [Byte.x20];
   [Byte.xc2; Byte.x85]; [Byte.xc2; Byte.xa0]; [Byte.xe1; Byte.x9a; Byte.x80];
   [Byte.xe2; Byte.x80; Byte.x80]; [Byte.xe2; Byte.x80; Byte.x81]; [Byte.xe2; Byte.x80; Byte.x82];
   [Byte.xe2; Byte.x80; Byte.x83]; [Byte.xe2; Byte.x80; Byte.x84]; [Byte.xe2; Byte.x80; Byte.x85];
   [Byte.xe2; Byte.x80; Byte.x86]; [Byte.xe2; Byte.x80; Byte.x87]; [Byte.xe2; Byte.x80; Byte.x88];
   [Byte.xe2; Byte.x80; Byte.x89]; [Byte.xe2; Byte.x80; Byte.x8a]; [Byte.xe2; Byte.x80; Byte.xa8];
   [Byte.xe2; Byte.x80; Byte.xa9]; [Byte.xe2; Byte.x80; Byte.xaf]; [Byte.xe2; Byte.x81; Byte.x9f];
   [Byte.xe3; Byte.x80; Byte.x80]].

(** One white-space character off the front, if there is one. *)
Definition strip_ws (ws : list str) s : option str :=
  match list_find (λ w, starts_with w s = true) ws with
  | Some (_, w) => strip_prefix w s
  | None => None
  end.

Fixpoint trim_start_fuel (ws : list str) (fuel : nat) s : str :=
  match fuel with
  | O => s
  | S fuel => match strip_ws ws s with Some s' => trim_start_fuel ws fuel s' | None => s end
  end.
Definition trim_start s : str := trim_start_fuel white_space (length s) s.
Definition trim_end s : str :=
  reverse (trim_start_fuel (reverse <$> white_space) (length s) (reverse s)).

(** [str::trim]. *)
Definition trim s : str := trim_end (trim_start s).

Lemma strip_ws_None ws s :
  Forall (λ w, starts_with w s = false) ws → strip_ws ws s = None.
Proof.
  intros H. unfold strip_ws.
  destruct (list_find _ ws) as [[i w]|] eqn:E; [|done].
  apply list_find_Some in E as (Hi & Hw & _).
  rewrite Forall_lookup in H. rewrite (H _ _ Hi) in Hw. done.
Qed.

(** White space never starts or ends with the bytes of a decimal number, so trimming such a
    string is the identity. *)
Definition plain_byte (b : byte) : bool := is_digit b || bool_decide (b = Byte.x2d).

Lemma plain_not_ws b :
  plain_byte b = true →
  Forall (λ w, w ≠ [] ∧ head w ≠ Some b ∧ last w ≠ Some b) white_space.
Proof. intros H. repeat constructor; try done; intros [= <-]; discriminate H. Qed.

Lemma trim_start_plain ws fuel b s :
  Forall (λ w, w ≠ [] ∧ head w ≠ Some b) ws → trim_start_fuel ws fuel (b :: s) = b :: s.
Proof.
  intros H. destruct fuel as [|fuel]; [done|]. simpl.
  rewrite strip_ws_None; [done|]. eapply Forall_impl; [exact H|].
  intros [|a w] [Hne Hh]; [done|]. unfold starts_with. simpl.
  rewrite decide_False; [done|]. by intros ->.
Qed.

Lemma trim_plain s : Forall (λ b, plain_byte b = true) s → trim s = s.
Proof.
  intros H. unfold trim, trim_end.
  assert (trim_start s = s) as ->.
  { destruct s as [|b s]; [done|]. apply Forall_cons in H as [Hb _].
    apply trim_start_plain. eapply Forall_impl; [exact (plain_not_ws b Hb)|].
    by intros w (? & ? & _). }
  apply (inj reverse). rewrite reverse_involutive.
  destruct (reverse s) as [|b r] eqn:E.
  { apply (f_equal reverse) in E. rewrite reverse_involutive in E. by subst. }
  apply trim_start_plain, Forall_fmap.
  assert (Hb : plain_byte b = true).
  { rewrite Forall_forall in H. apply H.
    rewrite <-(reverse_involutive s), E, elem_of_reverse. apply list_elem_of_here. }
  eapply Forall_impl; [exact (plain_not_ws b Hb)|]. simpl. intros w (Hne & _ & Hl).
  rewrite head_reverse. split; [|done].
  intros Hw. apply Hne. by rewrite <-(reverse_involutive w), Hw.
Qed.
