(* ===== verification/RustFloat.v ===== *)
(** * The text of a floating-point number

    [f as f64] for an [f32] and [format!("{}", v)] for an [f64], on bit patterns: the decoding of
    [core::num::flt2dec] and its exact shortest-digits loop, on unbounded integers.  Proved: the
    loop ends, and the decimal number it prints lies in the rounding interval of the float, so that
    reading it back with correct rounding gives the float. *)

From S2P Require Import Prelude RustInt RustStr RustText.
Local Open Scope Z_scope.
Implicit Types (bits mant minus plus scale e k : Z).

(** ** Decoding *)

(** [FullDecoded]; a finite number is [d_mant * 2 ^ d_exp], its neighbours are half of [d_minus]
    and [d_plus] away from the ends of the interval that rounds to it. *)
Record decoded := mkDec { d_mant : Z; d_minus : Z; d_plus : Z; d_exp : Z; d_inclusive : bool }.

Inductive full_decoded := FNan | FInfinite | FZero | FFinite (d : decoded).

Definition f64_negative bits : bool := Z.testbit bits 63.
Definition f64_exponent bits : Z := Z.land (Z.shiftr bits 52) 2047.
Definition f64_fraction bits : Z := Z.land bits (2 ^ 52 - 1).

Definition decode bits : full_decoded :=
  let e := f64_exponent bits in
  let f := f64_fraction bits in
  if e =? 2047 then if f =? 0 then FInfinite else FNan
  else if e =? 0 then
    if f =? 0 then FZero
    else FFinite (mkDec (2 * f) 1 1 (-1075) true)
  else
    let mant := 2 ^ 52 + f in
    let even := Z.even mant in
    if f =? 0 then FFinite (mkDec (4 * mant) 1 2 (e - 1075 - 2) even)
    else FFinite (mkDec (2 * mant) 1 1 (e - 1075 - 1) even).

(** [f as f64] *)
Definition f64_of_f32 bits : Z :=
  let s := Z.shiftl (Z.shiftr bits 31) 63 in
  let e := Z.land (Z.shiftr bits 23) 255 in
  let m := Z.land bits (2 ^ 23 - 1) in
  if e =? 255 then s + Z.shiftl 2047 52 + Z.shiftl m 29
  else if e =? 0 then
    if m =? 0 then s
    else let l := Z.log2 m in s + Z.shiftl (l - 149 + 1023) 52 + Z.shiftl (m - 2 ^ l) (52 - l)
  else s + Z.shiftl (e - 127 + 1023) 52 + Z.shiftl m 29.

(** ** The shortest digits *)

(** [estimate_scaling_factor]; the constant is [2 ^ 32 * log10 2], rounded down. *)
Definition estimate mant e : Z := Z.shiftr ((Z.log2_up mant + e) * 1292913986) 32.

(** [a.cmp(b) < rounding] *)
Definition within (inclusive : bool) a b : bool := if inclusive then a <=? b else a <? b.

(** The digits read so far are the number [digits] of [n] digits. *)
Record run := mkRun { r_digits : Z; r_count : nat }.

Fixpoint digit_loop (fuel : nat) (inclusive : bool) (r : run) mant minus plus scale : run :=
  match fuel with
  | O => r
  | S fuel =>
      let r := mkRun (10 * r_digits r + mant / scale) (S (r_count r)) in
      let mant := mant mod scale in
      let down := within inclusive mant minus in
      let up := within inclusive scale (mant + plus) in
      if down || up then
        if up && (negb down || (scale <=? 2 * mant)) then mkRun (r_digits r + 1) (r_count r) else r
      else digit_loop fuel inclusive r (10 * mant) (10 * minus) (10 * plus) scale
  end.

(** Enough for every [f64]. *)
Definition MAX_DIGITS : nat := 20.

(** [2 ^ e] against [10 ^ k], as two integers. *)
Definition unit_up e k : Z := 2 ^ Z.max 0 e * 10 ^ Z.max 0 (- k).
Definition unit_scale e k : Z := 2 ^ Z.max 0 (- e) * 10 ^ Z.max 0 k.

(** [format_shortest]: the number is [0.d1 d2 ... * 10 ^ k]. *)
Definition format_shortest (d : decoded) : run * Z :=
  let k := estimate (d_mant d + d_plus d) (d_exp d) in
  let up := unit_up (d_exp d) k in
  let scale := unit_scale (d_exp d) k in
  let mant := d_mant d * up in
  let minus := d_minus d * up in
  let plus := d_plus d * up in
  let bigger := within (d_inclusive d) scale (mant + plus) in
  let f := if bigger then 1 else 10 in
  let k := if bigger then k + 1 else k in
  (digit_loop MAX_DIGITS (d_inclusive d) (mkRun 0 0) (f * mant) (f * minus) (f * plus) scale, k).

(** ** The text *)

Fixpoint show_fixed (n : nat) (x : Z) (acc : str) : str :=
  match n with
  | O => acc
  | S n => show_fixed n (x / 10) (digit_byte (x mod 10) :: acc)
  end.

(** The digits of a run; one more, and a higher exponent, when the last carry ran over. *)
Definition run_digits (r : run) k : str * Z :=
  if r_digits r =? 10 ^ Z.of_nat (r_count r)
  then (show_fixed (S (r_count r)) (r_digits r) [], k + 1)
  else (show_fixed (r_count r) (r_digits r) [], k).

Definition zeros (n : Z) : str := replicate (Z.to_nat n) Byte.x30.

(** [digits_to_dec_str] without a minimum of fraction digits *)
Definition digits_to_dec_str (buf : str) k : str :=
  if k <=? 0 then "0."%rs ++ zeros (- k) ++ buf
  else if k <? Z.of_nat (length buf) then take (Z.to_nat k) buf ++ "."%rs ++ drop (Z.to_nat k) buf
  else buf ++ zeros (k - Z.of_nat (length buf)).

(** [format!("{}", v)] *)
Definition show_f64 bits : str :=
  let sign := if f64_negative bits then "-"%rs else [] in
  match decode bits with
  | FNan => "NaN"%rs
  | FInfinite => sign ++ "inf"%rs
  | FZero => sign ++ "0"%rs
  | FFinite d =>
      let '(r, k) := format_shortest d in
      let '(buf, k) := run_digits r k in
      sign ++ digits_to_dec_str buf k
  end.

Example show_pi : show_f64 4614256656552045848 = "3.141592653589793"%rs.
Proof. vm_compute. reflexivity. Qed.
Example show_tenth : show_f64 4591870180066957722 = "0.1"%rs.
Proof. vm_compute. reflexivity. Qed.
Example show_large : show_f64 (Z.shiftl 2046 52 + (2 ^ 52 - 1)) =
  "17976931348623157"%rs ++ zeros 292.
Proof. vm_compute. reflexivity. Qed.
Example show_smallest : show_f64 1 = "0."%rs ++ zeros 323 ++ "5"%rs.
Proof. vm_compute. reflexivity. Qed.
Example show_f32_tenth : show_f64 (f64_of_f32 1036831949) = "0.10000000149011612"%rs.
Proof. vm_compute. reflexivity. Qed.
Example show_one : show_f64 4607182418800017408 = "1"%rs.
Proof. vm_compute. reflexivity. Qed.
Example show_neg_zero : show_f64 (2 ^ 63) = "-0"%rs.
Proof. vm_compute. reflexivity. Qed.

(** ** The digit loop *)

Lemma within_le inclusive a b : within inclusive a b = true → a <= b.
Proof. destruct inclusive; cbn; lia. Qed.

Lemma within_mul inclusive a b c : 0 < c → within inclusive (a * c) (b * c) = within inclusive a b.
Proof.
  intros Hc. destruct inclusive; cbn; apply eq_bool_prop_intro; rewrite !Is_true_true.
  - rewrite !Z.leb_le. nia.
  - rewrite !Z.ltb_lt. nia.
Qed.

Lemma digit_loop_step fuel inclusive D n mant minus plus scale :
  digit_loop (S fuel) inclusive (mkRun D n) mant minus plus scale =
    let rem := mant mod scale in
    let down := within inclusive rem minus in
    let up := within inclusive scale (rem + plus) in
    if down || up then
      if up && (negb down || (scale <=? 2 * rem)) then mkRun (10 * D + mant / scale + 1) (S n)
      else mkRun (10 * D + mant / scale) (S n)
    else digit_loop fuel inclusive (mkRun (10 * D + mant / scale) (S n)) (10 * rem) (10 * minus) (10 * plus) scale.
Proof. reflexivity. Qed.

(** The digits stop inside the rounding interval, at the latest when the interval is wider than
    the unit of the last digit. *)
Lemma digit_loop_spec fuel inclusive D n mant minus plus scale :
  0 < scale → 0 <= mant < 10 * scale → 0 < minus → 0 < plus → 0 <= D → scale <= minus * 10 ^ Z.of_nat fuel →
  ∃ (j : nat) D',
    digit_loop (S fuel) inclusive (mkRun D n) mant minus plus scale = mkRun D' (n + S j) ∧ (j <= fuel)%nat ∧
    within inclusive ((10 * D * scale + mant - minus) * 10 ^ Z.of_nat j) (D' * scale) = true ∧
    within inclusive (D' * scale) ((10 * D * scale + mant + plus) * 10 ^ Z.of_nat j) = true ∧
    D * 10 ^ Z.of_nat (S j) <= D' <= (D + 1) * 10 ^ Z.of_nat (S j).
Proof.
  revert D n mant minus plus. induction fuel as [|fuel IH]; intros D n mant minus plus Hs Hm Hmi Hp HD Hf.
  all: pose proof (Z.mod_pos_bound mant scale Hs) as Hr; pose proof (Z.div_mod mant scale ltac:(lia)) as Hdm.
  all: assert (Hq : 0 <= mant / scale <= 9) by (split; [apply Z.div_pos; lia|]; apply Z.lt_succ_r, Z.div_lt_upper_bound; lia).
  all: rewrite digit_loop_step; set (q := mant / scale) in *; set (r := mant mod scale) in *; cbv zeta.
  all: assert (Hend : within inclusive r minus || within inclusive scale (r + plus) = true →
    ∃ (j : nat) D', (if within inclusive scale (r + plus) && (negb (within inclusive r minus) || (scale <=? 2 * r))
      then mkRun (10 * D + q + 1) (S n) else mkRun (10 * D + q) (S n)) = mkRun D' (n + S j) ∧ j = O ∧
    within inclusive ((10 * D * scale + mant - minus) * 10 ^ Z.of_nat j) (D' * scale) = true ∧
    within inclusive (D' * scale) ((10 * D * scale + mant + plus) * 10 ^ Z.of_nat j) = true ∧
    D * 10 ^ Z.of_nat (S j) <= D' <= (D + 1) * 10 ^ Z.of_nat (S j)).
  1,3: intros Ho; exists O; change (Z.of_nat 0) with 0; change (Z.of_nat 1) with 1; rewrite !Z.mul_1_r, Nat.add_1_r, Z.pow_1_r;
    destruct inclusive; cbn [within] in *; destruct (_ && _) eqn:E; eexists; (split; [reflexivity|]); nia.
  all: destruct (within inclusive r minus || within inclusive scale (r + plus)) eqn:E.
  1,3: destruct (Hend eq_refl) as (j & D' & H1 & -> & H2); exists O, D'; split; [done|split; [lia|done]].
  - exfalso. clear Hend. destruct inclusive; cbn [within] in E; cbn in Hf; lia.
  - clear Hend.
rewrite Nat2Z.inj_succ, Z.pow_succ_r in Hf by lia.
    destruct (IH (10 * D + q) (S n) (10 * r) (10 * minus) (10 * plus)) as (j & D' & H1 & H2 & H3 & H4 & H5); [nia..|].
    exists (S j), D'. rewrite H1. rewrite (Nat2Z.inj_succ (S j)), (Nat2Z.inj_succ j) in *.
    rewrite !Z.pow_succ_r in * by lia. split_and!; [f_equal; lia|lia| | |nia..].
    + rewrite <-H3. f_equal; nia.
    + rewrite <-H4. f_equal; nia.
Qed.

(** ** The exponent *)

Definition log10_2 (x : Z) : Z := Z.shiftr (x * 1292913986) 32.

(** Powers of two and of ten side by side, for [n] exponents from [y] on. *)
Fixpoint walk_powers (g : Z → Z) (test : Z → Z → bool) (n : nat) (y p2 p10 : Z) : bool :=
  match n with
  | O => true
  | S n =>
      test p2 p10 &&
      (let d := g (y + 1) - g y in
       ((d =? 0) || (d =? 1)) &&
       walk_powers g test n (y + 1) (2 * p2) (if d =? 0 then p10 else 10 * p10))
  end.

Lemma walk_powers_spec g test n y :
  0 <= y → 0 <= g y → walk_powers g test n y (2 ^ y) (10 ^ g y) = true →
  ∀ z, y <= z < y + Z.of_nat n → 0 <= g z ∧ test (2 ^ z) (10 ^ g z) = true.
Proof.
  revert y. induction n as [|n IH]; intros y Hy Hg H z Hz; [lia|].
  cbn [walk_powers] in H. apply andb_true_iff in H as [Ht [Hd H]%andb_true_iff].
  destruct (decide (z = y)) as [->|Hne]; [done|]. apply (IH (y + 1)); [lia..| |lia].
  rewrite Z.pow_add_r, Z.pow_1_r, (Z.mul_comm _ 2) by lia.
  replace (10 ^ g (y + 1)) with (if g (y + 1) - g y =? 0 then 10 ^ g y else 10 * 10 ^ g y); [done|].
  destruct (Z.eqb_spec (g (y + 1) - g y) 0) as [E|E]; [f_equal; lia|].
  rewrite <-Z.pow_succ_r by lia. f_equal. lia.
Qed.

Lemma log10_2_pos x :
  0 <= x < 1100 → 0 <= log10_2 x ∧ 10 ^ log10_2 x <= 2 ^ x <= 10 * 10 ^ log10_2 x.
Proof.
  intros Hx. destruct (walk_powers_spec log10_2 (λ a b, (b <=? a) && (a <=? 10 * b)) 1100 0) with x as [H1 H2];
    [done|done|vm_compute; reflexivity|lia|]. split; [done|lia].
Qed.

Lemma log10_2_neg x :
  0 < x < 1200 → 0 < - log10_2 (- x) ∧ 2 ^ x <= 10 ^ (- log10_2 (- x)) <= 10 * 2 ^ x.
Proof.
  intros Hx. destruct (walk_powers_spec (λ x, - log10_2 (- x)) (λ a b, (a <=? b) && (b <=? 10 * a)) 1200 1) with x as [H1 H2];
    [done|done|vm_compute; reflexivity|lia|].
  split; [|lia]. destruct (decide (log10_2 (- x) = 0)) as [E|]; [|lia]. exfalso.
  apply andb_true_iff in H2 as [H2 _]. rewrite E in H2. assert (2 ^ 1 <= 2 ^ x) by (apply Z.pow_le_mono_r; lia). lia.
Qed.

(** Both together, without fractions. *)
Lemma log10_2_close x :
  -1200 < x < 1100 → let k := log10_2 x in
  10 ^ Z.max 0 k * 2 ^ Z.max 0 (- x) <= 2 ^ Z.max 0 x * 10 ^ Z.max 0 (- k) <=
  10 * (10 ^ Z.max 0 k * 2 ^ Z.max 0 (- x)).
Proof.
  intros Hx k. unfold k. destruct (Z.le_gt_cases 0 x) as [H|H].
  - destruct (log10_2_pos x) as [H1 H2]; [lia|]. rewrite (Z.max_r 0 x), (Z.max_r 0 (log10_2 x)), (Z.max_l 0 (- x)), (Z.max_l 0 (- log10_2 x)) by lia. lia.
  - destruct (log10_2_neg (- x)) as [H1 H2]; [lia|]. rewrite Z.opp_involutive in *.
    rewrite (Z.max_l 0 x), (Z.max_l 0 (log10_2 x)), (Z.max_r 0 (- x)), (Z.max_r 0 (- log10_2 x)) by lia. lia.
Qed.

(** The scale against the unit of a mantissa of at most [b] bits. *)
Lemma scale_close b e :
  0 <= b → -1200 < b + e < 1100 → let k := log10_2 (b + e) in
  let up := unit_up e k in
  let scale := unit_scale e k in
  0 < up ∧ 0 < scale ∧ scale <= 2 ^ b * up <= 10 * scale.
Proof.
  intros Hb Hx k up scale. pose proof (log10_2_close (b + e) Hx) as H. cbv zeta in H. fold k in H.
  set (c1 := 2 ^ Z.max 0 (- (b + e))) in *. set (c2 := 2 ^ Z.max 0 (- e)).
  assert (Hpow : ∀ n a, 0 < a → 0 < a ^ Z.max 0 n) by (intros; apply Z.pow_pos_nonneg; lia).
  assert (0 < c1) by (apply Hpow; lia). assert (0 < c2) by (apply Hpow; lia).
  assert (0 < up) by (apply Z.mul_pos_pos; apply Hpow; lia).
  assert (0 < scale) by (apply Z.mul_pos_pos; apply Hpow; lia).
  assert (E : 2 ^ b * 2 ^ Z.max 0 e * c1 = 2 ^ Z.max 0 (b + e) * c2).
  { unfold c1, c2. rewrite <-!Z.pow_add_r by lia. f_equal. lia. }
  assert (E1 : 2 ^ b * up * c1 = (2 ^ Z.max 0 (b + e) * 10 ^ Z.max 0 (- k)) * c2) by (unfold up, unit_up; nia).
  assert (E2 : scale * c1 = (10 ^ Z.max 0 k * c1) * c2) by (unfold scale, unit_scale; fold c2; ring).
  split_and!; [done..| |]; apply (Z.mul_le_mono_pos_r _ _ c1); try done.
  - rewrite E1, E2. apply Z.mul_le_mono_nonneg_r; lia.
  - rewrite <-(Z.mul_assoc 10), E1, E2, Z.mul_assoc. apply Z.mul_le_mono_nonneg_r; lia.
Qed.

Lemma unit_pos e k : 0 < unit_up e k ∧ 0 < unit_scale e k.
Proof. split; apply Z.mul_pos_pos; apply Z.pow_pos_nonneg; lia. Qed.

Lemma unit_shift e k j :
  0 <= j → unit_up e k * unit_scale e (k + j) = 10 ^ j * unit_up e (k + j) * unit_scale e k.
Proof.
  intros Hj. unfold unit_up, unit_scale.
  assert (E : 10 ^ Z.max 0 (- k) * 10 ^ Z.max 0 (k + j) = 10 ^ j * 10 ^ Z.max 0 (- (k + j)) * 10 ^ Z.max 0 k).
  { rewrite <-!Z.pow_add_r by lia. f_equal. lia. }
  transitivity (2 ^ Z.max 0 e * 2 ^ Z.max 0 (- e) * (10 ^ Z.max 0 (- k) * 10 ^ Z.max 0 (k + j))); [ring|].
  rewrite E. ring.
Qed.

(** ** Rounding *)

(** The decimal number [N * 10 ^ k] rounds to the float. *)
Definition rounds_to (d : decoded) (N k : Z) : Prop :=
  let up := unit_up (d_exp d) k in
  let scale := unit_scale (d_exp d) k in
  within (d_inclusive d) ((d_mant d - d_minus d) * up) (N * scale) = true ∧
  within (d_inclusive d) (N * scale) ((d_mant d + d_plus d) * up) = true.

Lemma within_scaled inclusive a b a' b' c c' :
  0 < c → 0 < c' → a * c = a' * c' → b * c = b' * c' → within inclusive a b = within inclusive a' b'.
Proof. intros Hc Hc' Ha Hb. by rewrite <-(within_mul _ a b c), <-(within_mul _ a' b' c'), Ha, Hb. Qed.

(** More zeros, and a smaller exponent. *)
Lemma rounds_to_shift d N k j : 0 <= j → rounds_to d N (k + j) → rounds_to d (N * 10 ^ j) k.
Proof.
  intros Hj. unfold rounds_to. pose proof (unit_shift (d_exp d) k j Hj) as E.
  destruct (unit_pos (d_exp d) k) as [_ H1], (unit_pos (d_exp d) (k + j)) as [_ H2].
  assert (0 < 10 ^ j) by (apply Z.pow_pos_nonneg; lia).
  set (u := unit_up (d_exp d) k) in *. set (s := unit_scale (d_exp d) k) in *.
  set (u' := unit_up (d_exp d) (k + j)) in *. set (s' := unit_scale (d_exp d) (k + j)) in *.
  assert (HA : ∀ A, A * u * s' = A * u' * (10 ^ j * s)) by (intros A; rewrite <-Z.mul_assoc, E; ring).
  assert (0 < 10 ^ j * s) by (by apply Z.mul_pos_pos).
  intros [E1 E2]. split; [rewrite <-E1|rewrite <-E2]; apply (within_scaled _ _ _ _ _ s' (10 ^ j * s)); try done; try (by apply HA); ring.
Qed.

(** What the loop works on are doubles. *)
Definition valid_decoded (d : decoded) : Prop :=
  0 < d_mant d ∧ 0 < d_minus d ∧ 0 < d_plus d ∧ 1 < d_mant d + d_plus d <= 2 ^ 56 ∧ -1100 < d_exp d < 1000.

Lemma decode_valid bits d : decode bits = FFinite d → valid_decoded d.
Proof.
  assert (He : 0 <= f64_exponent bits < 2048).
  { unfold f64_exponent. change 2047 with (Z.ones 11). rewrite Z.land_ones by lia. by apply Z.mod_pos_bound. }
  assert (Hf : 0 <= f64_fraction bits < 2 ^ 52).
  { unfold f64_fraction. change (2 ^ 52 - 1) with (Z.ones 52). rewrite Z.land_ones by lia. by apply Z.mod_pos_bound. }
  unfold decode. destruct (Z.eqb_spec (f64_exponent bits) 2047); [by destruct (_ =? 0)|].
  destruct (Z.eqb_spec (f64_exponent bits) 0); destruct (Z.eqb_spec (f64_fraction bits) 0); [done|..];
    intros [= <-]; unfold valid_decoded; cbn -[Z.pow Z.mul]; lia.
Qed.

(** The digits are those of a number that rounds to the float; twenty are enough. *)
Lemma format_shortest_rounds d :
  valid_decoded d →
  ∃ D (c : nat) k, format_shortest d = (mkRun D c, k) ∧ (0 < c)%nat ∧ 0 <= D <= 10 ^ Z.of_nat c ∧
    rounds_to d D (k - Z.of_nat c).
Proof.
  intros (Hm & Hmi & Hp & Hmp & He). unfold format_shortest, estimate.
  set (b := Z.log2_up (d_mant d + d_plus d)).
  assert (Hb : 0 <= b <= 56 ∧ d_mant d + d_plus d <= 2 ^ b).
  { split; [split; [apply Z.log2_up_nonneg|]|].
    - apply Z.log2_up_le_pow2; lia.
    - apply Z.log2_up_spec; lia. }
  destruct Hb as [Hb Hle].
  fold (log10_2 (b + d_exp d)). set (k0 := log10_2 (b + d_exp d)).
  destruct (scale_close b (d_exp d) ltac:(lia) ltac:(lia)) as (Hup & Hs & H1 & H2). fold k0 in Hup, Hs, H1, H2.
  set (up := unit_up (d_exp d) k0) in *. set (scale := unit_scale (d_exp d) k0) in *.
  assert (H56 : 2 ^ b <= 2 ^ 56) by (apply Z.pow_le_mono_r; lia).
  assert (H19 : scale <= 10 ^ 19 * up) by (change (2 ^ 56) with 72057594037927936 in H56; nia).
  assert (Hsum : (d_mant d + d_plus d) * up <= 10 * scale) by nia.
  set (bigger := within (d_inclusive d) scale _).
  assert (Hbig : if bigger then True else (d_mant d + d_plus d) * up <= scale).
  { destruct bigger eqn:E; [done|]. unfold bigger in E. destruct (d_inclusive d); cbn in E; lia. }
  assert (Hf : (if bigger then 1 else 10) * ((d_mant d + d_plus d) * up) <= 10 * scale) by (destruct bigger; lia).
  set (f := if bigger then 1 else 10) in *. assert (Hf1 : f = 1 ∨ f = 10) by (unfold f; destruct bigger; auto).
  destruct (digit_loop_spec 19 (d_inclusive d) 0 0 (f * (d_mant d * up)) (f * (d_minus d * up)) (f * (d_plus d * up)) scale)
    as (j & D & E1 & Hj & E2 & E3 & E4); [nia..|].
  exists D, (S j), (if bigger then k0 + 1 else k0).
  split; [unfold MAX_DIGITS; by rewrite E1|]. split; [lia|]. split; [lia|].
  set (J := Z.of_nat j + if bigger then 0 else 1).
  assert (HJ : f * 10 ^ Z.of_nat j = 10 ^ J).
  { unfold f, J. destruct bigger; [by rewrite Z.add_0_r, Z.mul_1_l|]. rewrite Z.pow_add_r by lia. ring. }
  replace ((if bigger then k0 + 1 else k0) - Z.of_nat (S j)) with (k0 - J) by (unfold J; destruct bigger; lia).
  assert (HJ0 : 0 <= J) by (unfold J; destruct bigger; lia).
  pose proof (unit_shift (d_exp d) (k0 - J) J HJ0) as E. replace (k0 - J + J) with k0 in E by lia. fold up scale in E.
  unfold rounds_to. destruct (unit_pos (d_exp d) (k0 - J)) as [_ Hs'].
  set (u := unit_up (d_exp d) (k0 - J)) in *. set (s := unit_scale (d_exp d) (k0 - J)) in *.
  assert (HA : ∀ A, A * u * scale = (f * (A * up)) * 10 ^ Z.of_nat j * s).
  { intros A. transitivity (A * up * (f * 10 ^ Z.of_nat j) * s); [|ring]. rewrite HJ, <-Z.mul_assoc, E. ring. }
  split; [rewrite <-E2|rewrite <-E3]; apply (within_scaled _ _ _ _ _ scale s); try done; try ring;
    rewrite HA; ring.
Qed.

(** ** The decimal text *)

Abbreviation digits := (Forall (λ b, is_digit b = true)).

Lemma show_fixed_spec (n : nat) (x : Z) (acc : str) :
  0 <= x < 10 ^ Z.of_nat n →
  ∃ ds, show_fixed n x acc = ds ++ acc ∧ length ds = n ∧ digits ds ∧ parse_digits 0 ds = Some x.
Proof.
  revert x acc. induction n as [|n IH]; intros x acc Hx.
  - exists []. cbn in Hx. replace x with 0 by lia. done.
  - rewrite Nat2Z.inj_succ, Z.pow_succ_r in Hx by lia. cbn [show_fixed].
    pose proof (Z.mod_pos_bound x 10 ltac:(lia)) as Hm. pose proof (Z.div_mod x 10 ltac:(lia)) as Hdm.
    destruct (IH (x / 10) (digit_byte (x mod 10) :: acc)) as (ds & -> & Hl & Hd & Hp);
      [split; [apply Z.div_pos; lia|apply Z.div_lt_upper_bound; lia]|].
    exists (ds ++ [digit_byte (x mod 10)]). rewrite <-app_assoc. split_and!; [done|rewrite length_app; cbn; lia| |].
    + apply Forall_app. split; [done|]. constructor; [by rewrite is_digit_byte|done].
    + rewrite parse_digits_app, Hp. cbn. rewrite is_digit_byte by done. unfold digit_val.
      rewrite digit_byte_val by done. f_equal. lia.
Qed.

Lemma zeros_digits n : digits (zeros n).
Proof. by apply Forall_replicate. Qed.

Lemma parse_leading_zeros n (s : str) : parse_digits 0 (zeros n ++ s) = parse_digits 0 s.
Proof. unfold zeros. induction (Z.to_nat n) as [|m IH]; [done|]. exact IH. Qed.

Lemma parse_more_zeros a n : 0 <= n → parse_digits a (zeros n) = Some (a * 10 ^ n).
Proof.
  intros Hn. unfold zeros. rewrite <-(Z2Nat.id n) at 2 by done. generalize (Z.to_nat n) as m. clear n Hn.
  intros m. revert a. induction m as [|m IH]; intros a; [cbn; f_equal; lia|].
  cbn [replicate parse_digits]. change (is_digit Byte.x30) with true. cbn iota. rewrite IH.
  rewrite Nat2Z.inj_succ, Z.pow_succ_r by lia. f_equal. change (digit_val Byte.x30) with 0. ring.
Qed.

(** Digits with a point, or an integer with zeros for the missing digits. *)
Lemma digits_to_dec_str_spec (buf : str) k D :
  buf ≠ [] → digits buf → parse_digits 0 buf = Some D →
  (∃ i f, digits_to_dec_str buf k = i ++ "."%rs ++ f ∧ i ≠ [] ∧ f ≠ [] ∧ digits (i ++ f) ∧
     parse_digits 0 (i ++ f) = Some D ∧ k - Z.of_nat (length buf) = - Z.of_nat (length f)) ∨
  (digits_to_dec_str buf k ≠ [] ∧ digits (digits_to_dec_str buf k) ∧ 0 <= k - Z.of_nat (length buf) ∧
   parse_digits 0 (digits_to_dec_str buf k) = Some (D * 10 ^ (k - Z.of_nat (length buf)))).
Proof.
  intros Hne Hd Hp. unfold digits_to_dec_str. destruct (Z.leb_spec k 0) as [Hk|Hk].
  { left. exists "0"%rs, (zeros (- k) ++ buf). split_and!; [done|done|by destruct buf, (zeros _)| | |].
    - constructor; [done|]. apply Forall_app. by split; [apply zeros_digits|].
    - change ("0"%rs ++ zeros (- k) ++ buf) with (Byte.x30 :: zeros (- k) ++ buf). cbn [parse_digits].
      change (is_digit Byte.x30) with true. cbn iota. change (10 * 0 + digit_val Byte.x30) with 0.
      by rewrite parse_leading_zeros.
    - rewrite length_app. unfold zeros. rewrite length_replicate. lia. }
  destruct (Z.ltb_spec k (Z.of_nat (length buf))) as [Hl|Hl].
  { left. exists (take (Z.to_nat k) buf), (drop (Z.to_nat k) buf). split_and!; [done| | |by rewrite take_drop..|].
    - intros E. apply (f_equal length) in E. rewrite length_take in E. cbn in E. lia.
    - intros E. apply (f_equal length) in E. rewrite length_drop in E. cbn in E. lia.
    - rewrite length_drop. lia. }
  right. split_and!; [by destruct buf| |lia|].
  - apply Forall_app. by split; [|apply zeros_digits].
  - rewrite parse_digits_app, Hp. cbn. apply parse_more_zeros. lia.
Qed.

(** The text of a finite number other than zero. *)
Lemma show_finite d :
  valid_decoded d →
  let s := let '(r, k) := format_shortest d in let '(buf, k) := run_digits r k in digits_to_dec_str buf k in
  (∃ i f N, s = i ++ "."%rs ++ f ∧ i ≠ [] ∧ f ≠ [] ∧ digits (i ++ f) ∧ parse_digits 0 (i ++ f) = Some N ∧
     rounds_to d N (- Z.of_nat (length f))) ∨
  (∃ N, s ≠ [] ∧ digits s ∧ parse_digits 0 s = Some N ∧ rounds_to d N 0).
Proof.
  intros Hv. cbv zeta. destruct (format_shortest_rounds d Hv) as (D & c & k & -> & Hc & HD & Hr).
  assert (∃ buf k', run_digits (mkRun D c) k = (buf, k') ∧ buf ≠ [] ∧ digits buf ∧ parse_digits 0 buf = Some D ∧
    k' - Z.of_nat (length buf) = k - Z.of_nat c) as (buf & k' & -> & Hne & Hd & Hp & Hk).
  { unfold run_digits. cbn [r_digits r_count]. destruct (Z.eqb_spec D (10 ^ Z.of_nat c)) as [E|E].
    - destruct (show_fixed_spec (S c) D []) as (ds & -> & Hl & Hd & Hp).
      { rewrite Nat2Z.inj_succ, Z.pow_succ_r by lia. lia. }
      rewrite app_nil_r. exists ds, (k + 1). split_and!; [done|by destruct ds|done|done|lia].
    - destruct (show_fixed_spec c D []) as (ds & -> & Hl & Hd & Hp); [lia|].
      rewrite app_nil_r. exists ds, k. split_and!; [done|by destruct ds; cbn in Hl; [lia|]|done|done|lia]. }
  destruct (digits_to_dec_str_spec buf k' D Hne Hd Hp) as [(i & f & H1 & H2 & H3 & H4 & H5 & H6)|(H1 & H2 & H3 & H4)].
  - left. exists i, f, D. split_and!; try done. by rewrite <-H6, Hk.
  - right. eexists. split; [done|]. split; [done|]. split; [done|]. apply rounds_to_shift; [done|]. by rewrite Z.add_0_l, Hk.
Qed.
