(* ===== verification/Xml.v ===== *)
(** * Values out of an XML list response: [src/src/s3/store.rs], lines 46 to 101

    [xml_unescape] and [xml_tag_values], with the documents they are meant for: texts whose
    characters are written as themselves, as named entities or as decimal references, in flat
    elements separated by anything that does not hold the opening tag. *)

From S2P Require Import Prelude RustInt RustStr RustText.
Local Open Scope Z_scope.

Definition AMP : byte := Byte.x26.
Definition LT : byte := Byte.x3c.

(** ** The two functions *)

(** What the text between [&] and [;] stands for. *)
Definition xml_entity (ent : str) : option str :=
  if decide (ent = "amp"%rs) then Some "&"%rs
  else if decide (ent = "lt"%rs) then Some "<"%rs
  else if decide (ent = "gt"%rs) then Some ">"%rs
  else if decide (ent = "quot"%rs) then Some [Byte.x22]
  else if decide (ent = "apos"%rs) then Some "'"%rs
  else n ← strip_prefix "#"%rs ent; x ← parse_u 32 n; char_utf8 x.

(** The entity [rest] (which starts with [&]) opens with, and what follows its [;]. *)
Definition xml_entity_at (rest : str) : option (str * str) :=
  semi ← find ";"%rs rest;
  ch ← xml_entity (take (semi - 1) (drop 1 rest));
  Some (ch, drop (semi + 1) rest).

(** The loop of [xml_unescape]; every round drops at least the [&] it found, so the length of
    the text is fuel enough (see [xml_unescape_amp]). *)
Fixpoint xml_unescape_loop (fuel : nat) (rest : str) : str :=
  match fuel with
  | O => rest
  | S fuel =>
      match find "&"%rs rest with
      | None => rest
      | Some amp =>
          let out := take amp rest in
          let rest := drop amp rest in
          match xml_entity_at rest with
          | Some (ch, rest) => out ++ ch ++ xml_unescape_loop fuel rest
          | None => out ++ "&"%rs ++ xml_unescape_loop fuel (drop 1 rest)
          end
      end
  end.

Definition xml_unescape (s : str) : str := xml_unescape_loop (length s) s.

Definition open_tag (tag : str) : str := "<"%rs ++ tag ++ ">"%rs.
Definition close_tag (tag : str) : str := "</"%rs ++ tag ++ ">"%rs.

(** The loop of [xml_tag_values]; every round consumes an opening tag. *)
Fixpoint xml_tag_values_loop (fuel : nat) (open close rest : str) : list str :=
  match fuel with
  | O => []
  | S fuel =>
      match find open rest with
      | None => []
      | Some a =>
          let after := drop (a + length open) rest in
          match find close after with
          | Some b =>
              xml_unescape (take b after) ::
              xml_tag_values_loop fuel open close (drop (b + length close) after)
          | None => []
          end
      end
  end.

Definition xml_tag_values (xml tag : str) : list str :=
  xml_tag_values_loop (length xml) (open_tag tag) (close_tag tag) xml.

(** The unit tests of the source. *)
Example xml_unescape_tests :
  xml_unescape "&#22909;"%rs = "好"%rs ∧ xml_unescape "&amp;lt;"%rs = "&lt;"%rs ∧
  xml_unescape "/f·键‥0&amp;x"%rs = "/f·键‥0&x"%rs.
Proof. by vm_compute. Qed.

Example xml_tag_values_tests :
  let xml := "<ListBucketResult><Contents><Key>a/b.txt</Key></Contents><Contents><Key>c&amp;d</Key></Contents><Contents><Key>e%20f</Key></Contents><IsTruncated>false</IsTruncated></ListBucketResult>"%rs in
  xml_tag_values xml "Key"%rs = ["a/b.txt"%rs; "c&d"%rs; "e%20f"%rs] ∧
  xml_tag_values xml "IsTruncated"%rs = ["false"%rs] ∧
  xml_tag_values "<x><NextContinuationToken>1/x+y=</NextContinuationToken></x>"%rs
    "NextContinuationToken"%rs = ["1/x+y="%rs].
Proof. by vm_compute. Qed.

(** A hexadecimal reference is left as it stands. *)
Example xml_hex_reference_kept : xml_unescape "a&#x26;b"%rs = "a&#x26;b"%rs.
Proof. by vm_compute. Qed.

(** ** The fuel *)

Lemma xml_entity_at_shorter rest ch rest' :
  rest ≠ [] → xml_entity_at rest = Some (ch, rest') → (length rest' < length rest)%nat.
Proof.
  unfold xml_entity_at. intros Hne (semi & _ & (c & _ & [= _ <-])%bind_Some)%bind_Some.
  rewrite length_drop. destruct rest; [done|]. simpl. lia.
Qed.

Lemma xml_unescape_enough n m s :
  (length s <= n)%nat → (length s <= m)%nat → xml_unescape_loop n s = xml_unescape_loop m s.
Proof.
  revert m s. induction n as [|n IH]; intros m s Hn Hm.
  { destruct s; [|simpl in Hn; lia]. by destruct m. }
  destruct m as [|m]; [destruct s; [done|simpl in Hm; lia]|]. cbn [xml_unescape_loop].
  destruct (find "&"%rs s) as [amp|] eqn:E; [|done].
  assert (Hlen : (length (drop amp s) <= length s)%nat) by (rewrite length_drop; lia).
  assert (Hne : drop amp s ≠ []).
  { apply (find_byte_Some AMP) in E as [_ E]. intros H. apply (f_equal length) in E, H.
    rewrite length_drop in H. rewrite length_app, length_take in E. cbn [length] in E, H. lia. }
  destruct (xml_entity_at (drop amp s)) as [[ch rest']|] eqn:Ee.
  - apply xml_entity_at_shorter in Ee; [|done]. do 2 f_equal. apply IH; lia.
  - do 2 f_equal. apply IH; (destruct (drop amp s); [done|]); simpl in *;
      rewrite ?drop_0 in *; lia.
Qed.

(** The equations of [xml_unescape]. *)
Lemma xml_unescape_plain s : AMP ∉ s → xml_unescape s = s.
Proof.
  intros H. unfold xml_unescape. destruct s as [|b s]; [done|]. cbn [length xml_unescape_loop].
  change "&"%rs with [AMP]. by rewrite (proj2 (find_byte_None AMP (b :: s)) H).
Qed.

Lemma xml_unescape_amp a t :
  AMP ∉ a → xml_unescape (a ++ AMP :: t) =
  a ++ match xml_entity_at (AMP :: t) with
       | Some (ch, rest) => ch ++ xml_unescape rest
       | None => AMP :: xml_unescape t
       end.
Proof.
  intros Ha. unfold xml_unescape at 1. rewrite length_app, Nat.add_comm. cbn [length].
  cbn [Nat.add xml_unescape_loop]. change "&"%rs with [AMP]. rewrite find_byte by done.
  cbv zeta. rewrite take_app_length, drop_app_length.
  destruct (xml_entity_at (AMP :: t)) as [[ch rest]|] eqn:E.
  - apply xml_entity_at_shorter in E; [|done]. do 2 f_equal. cbn [length] in E.
    apply xml_unescape_enough; lia.
  - cbn [drop app]. rewrite drop_0. do 2 f_equal. apply xml_unescape_enough; lia.
Qed.

Lemma xml_unescape_here t :
  xml_unescape (AMP :: t) = match xml_entity_at (AMP :: t) with
                            | Some (ch, rest) => ch ++ xml_unescape rest
                            | None => AMP :: xml_unescape t
                            end.
Proof. apply (xml_unescape_amp []), not_elem_of_nil. Qed.

Lemma xml_unescape_cons b s : b ≠ AMP → xml_unescape (b :: s) = b :: xml_unescape s.
Proof.
  intros Hb. destruct (decide (AMP ∈ s)) as [Hin|Hin].
  - apply list_elem_of_split_l in Hin as (l1 & l2 & -> & Hl1).
    rewrite xml_unescape_amp by done.
    change (b :: l1 ++ AMP :: l2) with ((b :: l1) ++ AMP :: l2).
    rewrite xml_unescape_amp; [done|]. intros [?|?]%elem_of_cons; [congruence|done].
  - rewrite !xml_unescape_plain; [done|done|]. intros [?|?]%elem_of_cons; [congruence|done].
Qed.

(** ** The documents *)

Definition xml_entities : list (str * str) :=
  [("amp"%rs, "&"%rs); ("lt"%rs, "<"%rs); ("gt"%rs, ">"%rs); ("quot"%rs, [Byte.x22]); ("apos"%rs, "'"%rs)].

(** [xml_text e s]: [e] is one of the ways to write the text [s]. *)
Inductive xml_text : str → str → Prop :=
  | xml_text_nil : xml_text [] []
  | xml_text_byte b e s : b ≠ AMP → b ≠ LT → xml_text e s → xml_text (b :: e) (b :: s)
  | xml_text_named name c e s :
      (name, c) ∈ xml_entities → xml_text e s →
      xml_text (AMP :: name ++ Byte.x3b :: e) (c ++ s)
  | xml_text_number n c e s :
      char_utf8 n = Some c → xml_text e s →
      xml_text (AMP :: Byte.x23 :: show_u n ++ Byte.x3b :: e) (c ++ s).

(** [xml_doc tag d vs]: the elements [tag] of [d] hold the texts [vs], in order. *)
Inductive xml_doc (tag : str) : str → list str → Prop :=
  | xml_doc_end d : contains (open_tag tag) d = false → xml_doc tag d []
  | xml_doc_elem gap e v d vs :
      contains (open_tag tag) gap = false → xml_text e v → xml_doc tag d vs →
      xml_doc tag (gap ++ open_tag tag ++ e ++ close_tag tag ++ d) (v :: vs).

Lemma xml_entity_at_semi name t :
  Byte.x3b ∉ name →
  xml_entity_at (AMP :: name ++ Byte.x3b :: t) = (λ ch, (ch, t)) <$> xml_entity name.
Proof.
  intros H. unfold xml_entity_at. change (find ";"%rs) with (find [Byte.x3b]).
  change (AMP :: name ++ Byte.x3b :: t) with ((AMP :: name) ++ Byte.x3b :: t).
  rewrite find_byte by (intros [?|?]%elem_of_cons; done). cbn [mbind option_bind].
  cbn [length app drop]. rewrite Nat.sub_1_r, drop_0. cbn [Nat.pred]. rewrite take_app_length.
  rewrite Nat.add_1_r. cbn [drop]. rewrite <-(Nat.add_1_r (length name)), drop_app_add.
  by destruct (xml_entity name).
Qed.

Lemma char_utf8_range n c : char_utf8 n = Some c → 0 <= n <= 1114111.
Proof.
  unfold char_utf8. cbv zeta.
  destruct ((n <? 0) || ((55296 <=? n) && (n <=? 57343)) || (1114111 <? n)) eqn:E; [done|].
  intros _. lia.
Qed.

Lemma xml_entity_number n c : char_utf8 n = Some c → xml_entity (Byte.x23 :: show_u n) = Some c.
Proof.
  intros H. pose proof (char_utf8_range n c H). unfold xml_entity.
  rewrite !decide_False by discriminate. change "#"%rs with [Byte.x23].
  change (Byte.x23 :: show_u n) with ([Byte.x23] ++ show_u n). rewrite strip_prefix_app.
  cbn [mbind option_bind]. rewrite parse_show_u; [done|lia|]. unfold in_u. lia.
Qed.

Lemma xml_entities_named name c :
  (name, c) ∈ xml_entities → xml_entity name = Some c ∧ (Byte.x3b ∉ name) ∧ (LT ∉ name).
Proof.
  assert (Forall (λ p, xml_entity p.1 = Some p.2 ∧ (Byte.x3b ∉ p.1) ∧ (LT ∉ p.1)) xml_entities)
    as H by decided.
  rewrite Forall_forall in H. apply H.
Qed.

Lemma xml_unescape_text e s : xml_text e s → xml_unescape e = s.
Proof.
  induction 1 as [|b e s Hb _ _ IH|name c e s Hin _ IH|n c e s Hc _ IH].
  - done.
  - by rewrite xml_unescape_cons, IH.
  - rewrite xml_unescape_here.
    rewrite xml_entity_at_semi; cycle 1.
    { apply (xml_entities_named name c Hin). }
    rewrite (proj1 (xml_entities_named name c Hin)).
    cbn [fmap option_fmap option_map]. by rewrite IH.
  - rewrite xml_unescape_here.
    pose proof (char_utf8_range n c Hc).
    change (Byte.x23 :: show_u n ++ Byte.x3b :: e) with ((Byte.x23 :: show_u n) ++ Byte.x3b :: e).
    rewrite xml_entity_at_semi.
    2:{ intros [?|Hin]%elem_of_cons; [done|]. revert Hin. apply show_u_notin; [lia|done]. }
    rewrite (xml_entity_number n c Hc). cbn [fmap option_fmap option_map]. by rewrite IH.
Qed.

(** No text opens a tag. *)
Lemma xml_text_no_lt e s : xml_text e s → LT ∉ e.
Proof.
  induction 1 as [|b e s Hb Hl _ IH|name c e s Hin _ IH|n c e s Hc _ IH].
  - apply not_elem_of_nil.
  - rewrite not_elem_of_cons. done.
  - rewrite not_elem_of_cons, not_elem_of_app, not_elem_of_cons. split_and!; [done| |done|done].
    apply (xml_entities_named name c Hin).
  - pose proof (char_utf8_range n c Hc).
    rewrite !not_elem_of_cons, not_elem_of_app, not_elem_of_cons. split_and!; try done.
    apply show_u_notin; [lia|done].
Qed.

Lemma xml_tag_values_enough n m open close s :
  open ≠ [] → (length s <= n)%nat → (length s <= m)%nat →
  xml_tag_values_loop n open close s = xml_tag_values_loop m open close s.
Proof.
  intros Ho. revert m s. induction n as [|n IH]; intros m s Hn Hm.
  { destruct s; [|simpl in Hn; lia]. destruct m; [done|]. cbn. by destruct open. }
  destruct m as [|m]; [destruct s; [|simpl in Hm; lia]; cbn; by destruct open|].
  cbn [xml_tag_values_loop]. destruct (find open s) as [a|] eqn:E; [|done].
  apply find_Some in E. apply (f_equal length) in E. rewrite !length_app, length_take in E.
  destruct (find close _) as [b|]; [|done]. f_equal.
  destruct open; [done|]. cbn [length] in *. apply IH; rewrite !length_drop in *; lia.
Qed.

Lemma contains_lt p e : LT ∉ e → contains (LT :: p) e = false.
Proof. intros H. apply contains_false. intros l r ->. apply H. set_solver. Qed.

Lemma xml_doc_values tag d vs :
  LT ∉ tag → xml_doc tag d vs → xml_tag_values d tag = vs.
Proof.
  intros Htag. unfold xml_tag_values.
  assert (Ht : LT ∉ tag ++ ">"%rs) by (rewrite not_elem_of_app; split; [done|decided]).
  assert (Hc : LT ∉ "/"%rs ++ tag ++ ">"%rs) by (rewrite not_elem_of_app; split; [decided|done]).
  induction 1 as [d Hd|gap e v d vs Hgap He Hdoc IH].
  - destruct d as [|b d]; [done|]. cbn [length xml_tag_values_loop].
    unfold contains in Hd. by destruct (find (open_tag tag) (b :: d)).
  - rewrite <-(xml_unescape_text e v He).
    destruct (length (gap ++ _)) as [|n] eqn:En; cbn [xml_tag_values_loop].
    { rewrite !length_app in En. cbn in En. lia. }
    rewrite (find_after LT (tag ++ ">"%rs) gap _ Ht Hgap). cbv zeta.
    rewrite drop_app_add, drop_app_length.
    rewrite (find_after LT ("/"%rs ++ tag ++ ">"%rs) e _ Hc)
      by (apply contains_lt; by eapply xml_text_no_lt).
    rewrite take_app_length, drop_app_add, drop_app_length. f_equal.
    rewrite <-IH. apply xml_tag_values_enough; [done| |done].
    rewrite !length_app in En. cbn in En. lia.
Qed.

(** ** Properties *)

(** C26. Reading a list response back: in a document whose elements [tag] hold, in order, the
    texts [vs], each character written as itself, as one of the five named entities or as a
    decimal reference, and with anything that does not open the same tag in between,
    [xml_tag_values] returns exactly [vs].  The tag itself is any name without [<]. *)
Theorem xml_tag_values_document tag d vs :
  LT ∉ tag → xml_doc tag d vs → xml_tag_values d tag = vs.
Proof. apply xml_doc_values. Qed.

Lemma xml_tag_values_document_witness :
  xml_tag_values "<a><Key>x&lt;&#22909;</Key> <Key></Key></a>"%rs "Key"%rs = ["x<好"%rs; []].
Proof.
  apply (xml_tag_values_document "Key"%rs); [decided|].
  apply (xml_doc_elem "Key"%rs "<a>"%rs "x&lt;&#22909;"%rs "x<好"%rs " <Key></Key></a>"%rs); [done| |].
  - apply xml_text_byte; [done..|].
    apply (xml_text_named "lt"%rs "<"%rs); [decided|].
    apply (xml_text_number 22909 "好"%rs); [done|constructor].
  - apply (xml_doc_elem "Key"%rs " "%rs [] [] "</a>"%rs); [done|constructor|by constructor].
Defined.
