(* ===== verification/HeadLenPow.v ===== *)
(** * The XValue wire: [src/src/headlenpow.rs]

    [wire = bodylen:u64 | attrslen:u32 | layout:u8 | padding:3 | body | attr records], every
    integer little-endian.  An attr record is [tag:u8 | len:u16 | data]; tag 1 is the langtype,
    tag 2 the [reallen] of a fixed-capacity value.  [Vec::try_reserve_exact] refuses exactly
    the sizes above [isize::MAX]; the allocator itself is taken to succeed. *)

From S2P Require Import Prelude RustInt RustStr RustText.
Local Open Scope Z_scope.
Implicit Types (data attrs body langtype rest : bytes).

(** ** Data *)

Definition PREFIX : Z := 16.
Definition OFF_BODYLEN : nat := 0.
Definition OFF_ATTRSLEN : nat := 8.
Definition OFF_LAYOUT : nat := 12.
Definition OFF_PADDING : nat := 13.

Definition LAYOUT_LENGTH : Z := 0.
Definition LAYOUT_CAPACITY : Z := 1.

Definition ATTR_TAG_LANGTYPE : Z := 1.
Definition ATTR_TAG_REALLEN : Z := 2.

Inductive Reference := RefNone | RefPointer | RefExtension.
#[export] Instance Reference_eq_decision : EqDecision Reference.
Proof. solve_decision. Defined.

Record Head := mkHead {
  h_layout : Z;
  h_reference : Reference;
  h_langtype : bytes;
  h_len : Z;
  h_attrs : bytes;
  h_body : bytes;
}.

(** ** Reading *)

(** [data[a..b]], for bounds the caller has checked. *)
Definition slice (a b : Z) data : bytes := take (Z.to_nat (b - a)) (drop (Z.to_nat a) data).

(** [data.get(at..at + n)]. *)
Definition get_range (at_ n : nat) data : option bytes :=
  if (at_ + n <=? length data)%nat then Some (take n (drop at_ data)) else None.

Definition padding_is_zero data : bool :=
  bool_decide (data !! OFF_PADDING = Some Byte.x00) &&
  bool_decide (data !! (OFF_PADDING + 1)%nat = Some Byte.x00) &&
  bool_decide (data !! (OFF_PADDING + 2)%nat = Some Byte.x00).

Definition read_u32 data (at_ : nat) : option Z := le_val <$> get_range at_ 4 data.
Definition read_u64 data (at_ : nat) : option Z := le_val <$> get_range at_ 8 data.

(** The loop of [scan_reallen]: [found] is the variable of that name.  Every iteration consumes
    at least the three bytes of a record header, so [length attrs] steps are enough. *)
Fixpoint scan_reallen_loop (fuel : nat) rest (found : option Z) : option (option Z) :=
  match fuel, rest with
  | S fuel, tag :: l0 :: l1 :: tail =>
      let rlen := Z.to_nat (le_val [l0; l1]) in
      rec ← get_range 0 rlen tail;
      if byte_val tag =? ATTR_TAG_REALLEN then
        match found with
        | Some _ => None
        | None =>
            if (rlen =? 8)%nat then scan_reallen_loop fuel (drop rlen tail) (Some (le_val rec))
            else None
        end
      else scan_reallen_loop fuel (drop rlen tail) found
  | _, _ => Some found
  end.

Definition scan_reallen attrs : option (bool * Z) :=
  found ← scan_reallen_loop (length attrs) attrs None;
  Some (match found with Some r => (true, r) | None => (false, 0) end).

Fixpoint find_attr_loop (fuel : nat) rest (wanted : Z) : option bytes :=
  match fuel, rest with
  | S fuel, tag :: l0 :: l1 :: tail =>
      let rlen := Z.to_nat (le_val [l0; l1]) in
      rec ← get_range 0 rlen tail;
      if byte_val tag =? wanted then Some rec else find_attr_loop fuel (drop rlen tail) wanted
  | _, _ => None
  end.

Definition find_attr attrs (wanted : Z) : option bytes :=
  find_attr_loop (length attrs) attrs wanted.

Definition reference_of langtype : Reference :=
  match langtype with
  | b :: _ =>
      if decide (b = Byte.x2a) then RefPointer
      else if decide (b = Byte.x40) then RefExtension else RefNone
  | [] => RefNone
  end.

(** The tag 2 rule: present and at most the capacity under [CAPACITY], absent otherwise. *)
Definition reallen_ok (lay ln : Z) (has : bool) (reallen : Z) : bool :=
  if lay =? LAYOUT_CAPACITY then has && (reallen <=? ln) else negb has.

Definition from_wire data : option Head :=
  if Z.of_nat (length data) <? PREFIX then None
  else if negb (padding_is_zero data) then None
  else
    lay ← byte_val <$> data !! OFF_LAYOUT;
    if LAYOUT_CAPACITY <? lay then None
    else
      ln ← read_u64 data OFF_BODYLEN;
      attrslen ← read_u32 data OFF_ATTRSLEN;
      body_end ← try_usize ln ≫= checked_add PREFIX;
      attrs_end ← try_usize attrslen ≫= checked_add body_end;
      if Z.of_nat (length data) <? attrs_end then None
      else
        let attrs := slice body_end attrs_end data in
        '(has_reallen, reallen) ← scan_reallen attrs;
        if negb (reallen_ok lay ln has_reallen reallen) then None
        else
          let langtype := default [] (find_attr attrs ATTR_TAG_LANGTYPE) in
          Some (mkHead lay (reference_of langtype) langtype ln attrs
                  (slice PREFIX body_end data)).

Definition reallen_from_wire data : option Z :=
  head ← from_wire data;
  if negb (h_layout head =? LAYOUT_CAPACITY) then None
  else '(has, reallen) ← scan_reallen (h_attrs head);
       if has : bool then Some reallen else None.

Definition effective_len data : option Z :=
  head ← from_wire data;
  if h_layout head =? LAYOUT_CAPACITY then reallen_from_wire data else Some (h_len head).

Definition attr_len data : option Z :=
  if Z.of_nat (length data) <? PREFIX then None else read_u32 data OFF_ATTRSLEN.

Definition langtype_from_wire data : option bytes :=
  head ← from_wire data;
  match h_langtype head with [] => None | lt => Some lt end.

(** ** Writing *)

(** [data[at..at + src.len()].copy_from_slice(src)]. *)
Definition splice (at_ : nat) (src data : bytes) : bytes :=
  take at_ data ++ src ++ drop (at_ + length src) data.

Definition attr_bytes langtype : option bytes :=
  match langtype with
  | [] => Some []
  | _ =>
      let l := Z.of_nat (length langtype) in
      if U16_MAX <? l then None
      else Some ([byte_of ATTR_TAG_LANGTYPE; byte_of (Z.land l 255); byte_of (Z.shiftr l 8)]
                 ++ langtype)
  end.

Definition reallen_record (reallen : Z) : bytes :=
  [byte_of ATTR_TAG_REALLEN; byte_of 8; byte_of 0] ++ le_bytes 8 reallen.

(** [Vec::new()] then [try_reserve_exact(total).ok()?] then [resize(total, 0)]. *)
Definition zeroed (total : Z) : option bytes :=
  if total <=? ISIZE_MAX then Some (replicate (Z.to_nat total) Byte.x00) else None.

Definition reserve (content : Z) langtype : option bytes :=
  attr ← attr_bytes langtype;
  let alen := Z.of_nat (length attr) in
  attrslen ← try_u32 alen;
  total ← checked_add PREFIX content ≫= λ x, checked_add x alen;
  data ← zeroed total;
  let data := splice OFF_BODYLEN (le_bytes 8 content) data in
  let data := splice OFF_ATTRSLEN (le_bytes 4 attrslen) data in
  let data := splice OFF_LAYOUT [byte_of LAYOUT_LENGTH] data in
  let data := splice OFF_PADDING [Byte.x00; Byte.x00; Byte.x00] data in
  Some (splice (Z.to_nat (PREFIX + content)) attr data).

Definition to_wire body langtype : option bytes :=
  data ← reserve (Z.of_nat (length body)) langtype;
  Some (splice (Z.to_nat PREFIX) body data).

Definition to_wire_varlen (capacity reallen : Z) langtype : option bytes :=
  if capacity <? reallen then None
  else
    attr0 ← attr_bytes langtype;
    let attr := attr0 ++ reallen_record reallen in
    let alen := Z.of_nat (length attr) in
    attrslen ← try_u32 alen;
    total ← checked_add PREFIX capacity ≫= λ x, checked_add x alen;
    data ← zeroed total;
    let data := splice OFF_BODYLEN (le_bytes 8 capacity) data in
    let data := splice OFF_ATTRSLEN (le_bytes 4 attrslen) data in
    let data := splice OFF_LAYOUT [byte_of LAYOUT_CAPACITY] data in
    Some (splice (Z.to_nat (PREFIX + capacity)) attr data).

(** ** Specification: the byte layout of a value *)

(** The sixteen bytes of a head. *)
Definition header (ln alen : Z) (lay : byte) : bytes :=
  le_bytes 8 ln ++ le_bytes 4 alen ++ [lay; Byte.x00; Byte.x00; Byte.x00].

(** The wire a head stands for. *)
Definition encode_head (h : Head) : bytes :=
  header (h_len h) (Z.of_nat (length (h_attrs h))) (byte_of (h_layout h)) ++ h_body h ++ h_attrs h.

(** An attr record, [tag:u8 | len:u16 | data], and the records of an attr area; none of this
    refers to the loops that read them. *)
Definition record (tag : Z) (payload : bytes) : bytes :=
  byte_of tag :: le_bytes 2 (Z.of_nat (length payload)) ++ payload.
Definition encode_records (rs : list (Z * bytes)) : bytes :=
  concat ((λ r, record r.1 r.2) <$> rs).
Definition wf_record (r : Z * bytes) : Prop :=
  0 <= r.1 < 256 ∧ Z.of_nat (length r.2) <= U16_MAX.

(** The data of the records of one tag, in order. *)
Definition data_of (tag : Z) (rs : list (Z * bytes)) : list bytes :=
  (filter (λ r, r.1 = tag) rs).*2.

(** The tag 2 rule: under [CAPACITY] exactly one tag 2 record, eight bytes that hold at most the
    capacity; under [LENGTH] none. *)
Definition legal_reallen (lay ln : Z) (rs : list (Z * bytes)) : Prop :=
  if decide (lay = LAYOUT_CAPACITY)
  then ∃ r, 0 <= r <= ln ∧ data_of ATTR_TAG_REALLEN rs = [le_bytes 8 r]
  else data_of ATTR_TAG_REALLEN rs = [].

(** What makes a head legal.  The attr area is a sequence of records, and at most two bytes that
    are too few to start another one; the langtype is the data of its first tag 1 record. *)
Record wf_head (h : Head) : Prop := {
  wf_layout : h_layout h = LAYOUT_LENGTH ∨ h_layout h = LAYOUT_CAPACITY;
  wf_len : h_len h = Z.of_nat (length (h_body h));
  wf_attrs : Z.of_nat (length (h_attrs h)) <= U32_MAX;
  wf_total : PREFIX + h_len h + Z.of_nat (length (h_attrs h)) <= USIZE_MAX;
  wf_records : ∃ rs dangling,
    h_attrs h = encode_records rs ++ dangling ∧ Forall wf_record rs ∧ (length dangling < 3)%nat ∧
    legal_reallen (h_layout h) (h_len h) rs ∧
    h_langtype h = default [] (head (data_of ATTR_TAG_LANGTYPE rs));
  wf_pointer : h_reference h = RefPointer ↔ head (h_langtype h) = Some (byte_of 42);
  wf_extension : h_reference h = RefExtension ↔ head (h_langtype h) = Some (byte_of 64);
}.

(** [from_wire] after the sixteen head bytes have been read. *)
Definition from_wire_rest (lay ln attrslen : Z) (rest : bytes) : option Head :=
  if LAYOUT_CAPACITY <? lay then None
  else
    let n := Z.of_nat (length rest) in
    if (USIZE_MAX <? PREFIX + ln + attrslen) || (n <? ln + attrslen) then None
    else
      let attrs := take (Z.to_nat attrslen) (drop (Z.to_nat ln) rest) in
      '(has_reallen, reallen) ← scan_reallen attrs;
      if negb (reallen_ok lay ln has_reallen reallen) then None
      else
        let langtype := default [] (find_attr attrs ATTR_TAG_LANGTYPE) in
        Some (mkHead lay (reference_of langtype) langtype ln attrs (take (Z.to_nat ln) rest)).

(** ** Lemmas *)

Lemma length_header ln alen lay : length (header ln alen lay) = 16%nat.
Proof. done. Qed.

Lemma get_range_eq i n data a b c :
  data = a ++ b ++ c → length a = i → length b = n → get_range i n data = Some b.
Proof.
  intros -> <- <-. unfold get_range. rewrite !length_app.
  destruct (Nat.leb_spec (length a + length b) (length a + (length b + length c))); [|lia].
  by rewrite drop_app_length, take_app_length.
Qed.

Lemma splice_app n a b src :
  length a = n → splice n src (a ++ b) = a ++ src ++ drop (length src) b.
Proof.
  intros <-. unfold splice. rewrite take_app_length. do 2 f_equal.
  rewrite <-drop_drop. by rewrite drop_app_length.
Qed.

(** ** Attr records *)

Lemma attr_bytes_record lt :
  lt ≠ [] → Z.of_nat (length lt) <= U16_MAX → attr_bytes lt = Some (record ATTR_TAG_LANGTYPE lt).
Proof.
  intros Hne Hlen. unfold attr_bytes. destruct lt as [|b lt]; [done|].
  destruct (Z.ltb_spec U16_MAX (Z.of_nat (length (b :: lt)))); [lia|].
  unfold record. cbn [le_bytes app]. do 3 f_equal; [|f_equal].
  - change 255 with (Z.ones 8). rewrite Z.land_ones by lia.
    unfold byte_of. by rewrite Zmod_mod.
  - by rewrite Z.shiftr_div_pow2.
Qed.

Lemma attr_bytes_Some lt a :
  attr_bytes lt = Some a →
  (lt = [] ∧ a = []) ∨
  (lt ≠ [] ∧ Z.of_nat (length lt) <= U16_MAX ∧ a = record ATTR_TAG_LANGTYPE lt).
Proof.
  destruct lt as [|b lt]; [intros [= <-]; by left|]. intros H. right.
  assert (Z.of_nat (length (b :: lt)) <= U16_MAX) as Hl.
  { unfold attr_bytes in H. destruct (Z.ltb_spec U16_MAX (Z.of_nat (length (b :: lt)))); [done|lia]. }
  rewrite attr_bytes_record in H by done. by injection H as <-.
Qed.

Lemma record_len_val (p : bytes) :
  Z.of_nat (length p) <= U16_MAX →
  ∃ l0 l1, le_bytes 2 (Z.of_nat (length p)) = [l0; l1] ∧ le_val [l0; l1] = Z.of_nat (length p).
Proof.
  intros H. eexists _, _. split; [done|].
  change (le_val (le_bytes 2 (Z.of_nat (length p))) = Z.of_nat (length p)).
  rewrite le_val_bytes, Z.mod_small; unfold U16_MAX in *; lia.
Qed.

Lemma get_range_0_app a b : get_range 0 (length a) (a ++ b) = Some a.
Proof. by apply (get_range_eq _ _ _ [] a b). Qed.

Lemma scan_record fuel tag p rest found :
  Z.of_nat (length p) <= U16_MAX → 0 <= tag < 256 →
  scan_reallen_loop (S fuel) (record tag p ++ rest) found =
  if tag =? ATTR_TAG_REALLEN then
    match found with
    | Some _ => None
    | None => if (length p =? 8)%nat then scan_reallen_loop fuel rest (Some (le_val p)) else None
    end
  else scan_reallen_loop fuel rest found.
Proof.
  intros Hp Ht. destruct (record_len_val p Hp) as (l0 & l1 & E & Hv).
  unfold record. rewrite E. cbn [app]. cbn -[le_val Z.to_nat Nat.eqb].
  rewrite Hv, Nat2Z.id, get_range_0_app. cbn [mbind option_bind].
  rewrite byte_val_of, Z.mod_small by done. by rewrite drop_app_length.
Qed.

Lemma find_record fuel tag p rest wanted :
  Z.of_nat (length p) <= U16_MAX → 0 <= tag < 256 →
  find_attr_loop (S fuel) (record tag p ++ rest) wanted =
  if tag =? wanted then Some p else find_attr_loop fuel rest wanted.
Proof.
  intros Hp Ht. destruct (record_len_val p Hp) as (l0 & l1 & E & Hv).
  unfold record. rewrite E. cbn [app]. cbn -[le_val Z.to_nat Nat.eqb].
  rewrite Hv, Nat2Z.id, get_range_0_app. cbn [mbind option_bind].
  rewrite byte_val_of, Z.mod_small by done. by rewrite drop_app_length.
Qed.

(** ** The attr area: the decoder's two loops against the record sequence *)

Lemma length_record tag p : length (record tag p) = (3 + length p)%nat.
Proof. done. Qed.

Lemma encode_records_cons r rs : encode_records (r :: rs) = record r.1 r.2 ++ encode_records rs.
Proof. done. Qed.

Lemma data_of_cons tag r rs :
  data_of tag (r :: rs) = if decide (r.1 = tag) then r.2 :: data_of tag rs else data_of tag rs.
Proof. unfold data_of. rewrite filter_cons. by case_decide. Qed.

(** What [scan_reallen] finds in the tag 2 records. *)
Definition reallen_of (found : option Z) (ds : list bytes) : option (option Z) :=
  match ds, found with
  | [], _ => Some found
  | [d], None => if (length d =? 8)%nat then Some (Some (le_val d)) else None
  | _, _ => None
  end.

Lemma scan_dangling fuel rest found :
  (length rest < 3)%nat → scan_reallen_loop fuel rest found = Some found.
Proof. destruct fuel; [done|]. by destruct rest as [|?[|?[|??]]]; simpl; intros; try lia. Qed.

Lemma find_dangling fuel rest wanted :
  (length rest < 3)%nat → find_attr_loop fuel rest wanted = None.
Proof. destruct fuel; [done|]. by destruct rest as [|?[|?[|??]]]; simpl; intros; try lia. Qed.

Lemma scan_records rs : ∀ fuel dangling found,
  Forall wf_record rs → (length dangling < 3)%nat →
  (length (encode_records rs ++ dangling) <= fuel)%nat →
  scan_reallen_loop fuel (encode_records rs ++ dangling) found =
  reallen_of found (data_of ATTR_TAG_REALLEN rs).
Proof.
  induction rs as [|[tag d] rs IH]; intros fuel dg found Hrs Hd Hf; [by apply scan_dangling|].
  apply Forall_cons in Hrs as [[Htag Hl] Hrs]. simpl in Htag, Hl.
  rewrite encode_records_cons, <-app_assoc, length_app, length_record in Hf.
  rewrite encode_records_cons, <-app_assoc. destruct fuel as [|fuel]; [simpl in Hf; lia|].
  rewrite scan_record, data_of_cons by done. simpl (_.1); simpl (_.2).
  destruct (Z.eqb_spec tag ATTR_TAG_REALLEN); [rewrite decide_True by done|
    rewrite decide_False by done; apply IH; [done|done|simpl in Hf; lia]].
  destruct found; [by destruct (data_of _ rs) as [|? []]|]. simpl reallen_of.
  destruct (length d =? 8)%nat; [|by destruct (data_of _ rs) as [|? []]].
  rewrite IH; [|done|done|simpl in Hf; lia]. by destruct (data_of _ rs) as [|? []].
Qed.

Lemma find_records rs wanted : ∀ fuel dangling,
  Forall wf_record rs → (length dangling < 3)%nat →
  (length (encode_records rs ++ dangling) <= fuel)%nat →
  find_attr_loop fuel (encode_records rs ++ dangling) wanted = head (data_of wanted rs).
Proof.
  induction rs as [|[tag d] rs IH]; intros fuel dg Hrs Hd Hf; [by apply find_dangling|].
  apply Forall_cons in Hrs as [[Htag Hl] Hrs]. simpl in Htag, Hl.
  rewrite encode_records_cons, <-app_assoc, length_app, length_record in Hf.
  rewrite encode_records_cons, <-app_assoc. destruct fuel as [|fuel]; [simpl in Hf; lia|].
  rewrite find_record, data_of_cons by done. simpl (_.1); simpl (_.2).
  destruct (Z.eqb_spec tag wanted); [by rewrite decide_True|].
  rewrite decide_False by done. apply IH; [done|done|simpl in Hf; lia].
Qed.

(** An attr area [scan_reallen] accepts is a sequence of records and a dangling end. *)
Lemma scan_Some_records fuel : ∀ rest found x,
  scan_reallen_loop fuel rest found = Some x → (length rest <= fuel)%nat →
  ∃ rs dangling, rest = encode_records rs ++ dangling ∧ Forall wf_record rs ∧
    (length dangling < 3)%nat.
Proof.
  assert (∀ l : bytes, (length l < 3)%nat → ∃ rs dg, l = encode_records rs ++ dg ∧
    Forall wf_record rs ∧ (length dg < 3)%nat) as Hdangling.
  { intros l Hl. by exists [], l. }
  induction fuel as [|fuel IH]; intros rest found x Hs Hl.
  { apply Hdangling. lia. }
  destruct rest as [|tag [|l0 [|l1 tail]]]; try (apply Hdangling; simpl; lia).
  cbn -[le_val Z.to_nat Nat.eqb] in Hs. set (n := Z.to_nat (le_val [l0; l1])) in *.
  unfold get_range in Hs. simpl (0 + n)%nat in Hs. rewrite drop_0 in Hs.
  destruct (Nat.leb_spec n (length tail)) as [Hn|]; [|done]. cbn [mbind option_bind] in Hs.
  assert (∃ found', scan_reallen_loop fuel (drop n tail) found' = Some x) as [found' Hs'].
  { destruct (byte_val tag =? ATTR_TAG_REALLEN); [|eauto]. destruct found; [done|].
    destruct (n =? 8)%nat; [eauto|done]. }
  destruct (IH _ _ _ Hs') as (rs & dg & Hd & Hrs & Hdg); [rewrite length_drop; simpl in Hl; lia|].
  pose proof (le_val_range [l0; l1]) as Hr. change (256 ^ Z.of_nat (length [l0; l1])) with 65536 in Hr.
  exists ((byte_val tag, take n tail) :: rs), dg.
  assert (length (take n tail) = n) as Hlen by (rewrite length_take; lia).
  split_and!; [|constructor; [split; simpl; [apply byte_val_range|]|done]|done].
  - rewrite encode_records_cons. unfold record. simpl (_.1); simpl (_.2).
    rewrite byte_of_val, Hlen. unfold n at 1. rewrite Z2Nat.id by lia.
    rewrite (le_bytes_val [l0; l1] : le_bytes 2 _ = _).
    rewrite <-!app_comm_cons, <-!app_assoc, <-Hd. simpl. by rewrite take_drop.
  - rewrite Hlen. unfold n, U16_MAX. lia.
Qed.

Lemma reallen_of_eight d x :
  reallen_of None [d] = Some x → d = le_bytes 8 (le_val d) ∧ x = Some (le_val d).
Proof.
  simpl. destruct (Nat.eqb_spec (length d) 8) as [Hd|]; [|done]. intros [= <-].
  split; [|done]. pose proof (le_bytes_val d) as E. rewrite Hd in E. exact (eq_sym E).
Qed.

Lemma reallen_ok_legal lay ln rs has r :
  in_u 64 ln → lay = LAYOUT_LENGTH ∨ lay = LAYOUT_CAPACITY →
  (found ← reallen_of None (data_of ATTR_TAG_REALLEN rs);
   Some (match found with Some x => (true, x) | None => (false, 0) end)) = Some (has, r) →
  reallen_ok lay ln has r = true → legal_reallen lay ln rs.
Proof.
  unfold reallen_ok, legal_reallen. intros Hln Hlay Hs Hok.
  destruct (data_of ATTR_TAG_REALLEN rs) as [|d [|? ?]].
  - simpl in Hs. injection Hs as <- <-. case_decide as Hc; [by rewrite Hc in Hok|done].
  - destruct (reallen_of None [d]) as [x|] eqn:E; [|done].
    destruct (reallen_of_eight _ _ E) as [Hd ->]. cbn [mbind option_bind] in Hs.
    injection Hs as <- <-. case_decide as Hc; subst.
    + exists (le_val d). rewrite Z.eqb_refl in Hok. simpl in Hok. apply Z.leb_le in Hok.
      pose proof (le_val_range d). split; [lia|by rewrite <-Hd].
    + destruct Hlay as [->| ->]; done.
  - done.
Qed.

Lemma legal_reallen_ok lay ln rs :
  in_u 64 ln → lay = LAYOUT_LENGTH ∨ lay = LAYOUT_CAPACITY → legal_reallen lay ln rs →
  ∃ has r, (found ← reallen_of None (data_of ATTR_TAG_REALLEN rs);
     Some (match found with Some x => (true, x) | None => (false, 0) end)) = Some (has, r) ∧
    reallen_ok lay ln has r = true.
Proof.
  unfold reallen_ok, legal_reallen. intros Hln Hlay. case_decide as Hc.
  - intros (r & Hr & ->). exists true, r. subst.
    cbn -[le_bytes le_val Z.ltb Z.leb]. rewrite (length_le_bytes 8). 
    cbn -[le_bytes le_val Z.ltb Z.leb]. unfold in_u in Hln.
    rewrite le_val_bytes, Z.mod_small by (simpl; lia). split; [done|]. unfold reallen_ok. cbn. apply Z.leb_le. lia.
  - intros ->. exists false, 0. split; [done|]. destruct Hlay; [by subst|done].
Qed.

Lemma reference_of_spec ref lt :
  ref = reference_of lt ↔
  (ref = RefPointer ↔ head lt = Some (byte_of 42)) ∧
  (ref = RefExtension ↔ head lt = Some (byte_of 64)).
Proof.
  change (byte_of 42) with Byte.x2a. change (byte_of 64) with Byte.x40.
  destruct lt as [|b lt]; simpl; [destruct ref; naive_solver|].
  repeat case_decide; subst; destruct ref; naive_solver.
Qed.

(** A legal head in the decoder's terms: the answers of its two loops. *)
Lemma wf_head_scanned h :
  wf_head h ↔
  (h_layout h = LAYOUT_LENGTH ∨ h_layout h = LAYOUT_CAPACITY) ∧
  h_len h = Z.of_nat (length (h_body h)) ∧
  Z.of_nat (length (h_attrs h)) <= U32_MAX ∧
  PREFIX + h_len h + Z.of_nat (length (h_attrs h)) <= USIZE_MAX ∧
  (∃ has r, scan_reallen (h_attrs h) = Some (has, r) ∧
            reallen_ok (h_layout h) (h_len h) has r = true) ∧
  h_langtype h = default [] (find_attr (h_attrs h) ATTR_TAG_LANGTYPE) ∧
  h_reference h = reference_of (h_langtype h).
Proof.
  rewrite (reference_of_spec (h_reference h)). unfold scan_reallen, find_attr. split.
  - intros [Hlay Hlen Hat Htot (rs & dg & Ha & Hrs & Hd & Hr & Hlt) Hp He].
    split_and!; try done; rewrite Ha.
    + rewrite scan_records by done. apply legal_reallen_ok; [|done..].
      unfold in_u, PREFIX, USIZE_MAX in *. lia.
    + by rewrite find_records.
  - intros (Hlay & Hlen & Hat & Htot & (has & r & Hs & Hok) & Hlt & Hp & He).
    destruct (scan_reallen_loop _ _ _) as [x|] eqn:E; [|done].
    destruct (scan_Some_records _ _ _ _ E) as (rs & dg & Ha & Hrs & Hd); [done|].
    split; try done. exists rs, dg. split_and!; try done.
    + rewrite <-E, Ha, scan_records in Hs by done. eapply reallen_ok_legal; [|done..].
      unfold in_u, PREFIX, USIZE_MAX in *. lia.
    + by rewrite Hlt, Ha, find_records.
Qed.

Lemma wf_reallen h : wf_head h →
  ∃ has r, scan_reallen (h_attrs h) = Some (has, r) ∧
           reallen_ok (h_layout h) (h_len h) has r = true.
Proof. by intros (_ & _ & _ & _ & ? & _)%wf_head_scanned. Qed.

Lemma from_wire_header ln alen lay rest :
  in_u 64 ln → in_u 32 alen →
  from_wire (header ln alen lay ++ rest) = from_wire_rest (byte_val lay) ln alen rest.
Proof.
  intros Hln Hal. unfold in_u in *. unfold from_wire, from_wire_rest.
  rewrite length_app, length_header.
  destruct (Z.ltb_spec (Z.of_nat (16 + length rest)) PREFIX) as [H|_]; [unfold PREFIX in H; lia|].
  change (padding_is_zero (header ln alen lay ++ rest)) with true.
  change ((header ln alen lay ++ rest) !! OFF_LAYOUT) with (Some lay). cbn [negb fmap option_fmap option_map].
  cbn [mbind option_bind].
  destruct (LAYOUT_CAPACITY <? byte_val lay); [done|].
  assert (read_u64 (header ln alen lay ++ rest) OFF_BODYLEN = Some ln) as ->.
  { unfold read_u64.
    rewrite (get_range_eq _ _ _ [] (le_bytes 8 ln)
      (le_bytes 4 alen ++ [lay; Byte.x00; Byte.x00; Byte.x00] ++ rest)) by done.
    cbn [fmap option_fmap option_map]. rewrite le_val_bytes, Z.mod_small; [done|exact Hln]. }
  assert (read_u32 (header ln alen lay ++ rest) OFF_ATTRSLEN = Some alen) as ->.
  { unfold read_u32.
    rewrite (get_range_eq _ _ _ (le_bytes 8 ln) (le_bytes 4 alen)
      ([lay; Byte.x00; Byte.x00; Byte.x00] ++ rest)) by done.
    cbn [fmap option_fmap option_map]. rewrite le_val_bytes, Z.mod_small; [done|exact Hal]. }
  cbn [mbind option_bind]. unfold try_usize, checked_add.
  destruct (Z.leb_spec ln USIZE_MAX) as [H1|H1]; [|unfold USIZE_MAX in H1; lia].
  destruct (Z.leb_spec alen USIZE_MAX) as [H2|H2]; [|unfold USIZE_MAX in H2; lia].
  cbn [mbind option_bind].
  destruct (Z.ltb_spec USIZE_MAX (PREFIX + ln + alen)) as [H3|H3].
  { destruct (Z.leb_spec (PREFIX + ln) USIZE_MAX); [|done]. cbn [mbind option_bind].
    destruct (Z.leb_spec (PREFIX + ln + alen) USIZE_MAX); [lia|done]. }
  destruct (Z.leb_spec (PREFIX + ln) USIZE_MAX) as [_|H4]; [|lia]. cbn [mbind option_bind].
  destruct (Z.leb_spec (PREFIX + ln + alen) USIZE_MAX) as [_|H5]; [|lia].
  cbn [mbind option_bind orb].
  assert (∀ a b, 0 <= a <= b →
    slice (PREFIX + a) (PREFIX + b) (header ln alen lay ++ rest) =
    take (Z.to_nat (b - a)) (drop (Z.to_nat a) rest)) as Hslice.
  { intros a b Hab. unfold slice. f_equal; [f_equal; unfold PREFIX; lia|].
    replace (Z.to_nat (PREFIX + a)) with (16 + Z.to_nat a)%nat by (unfold PREFIX; lia).
    rewrite <-drop_drop. by rewrite (drop_app_length' _ _ 16) by done. }
  destruct (Z.ltb_spec (Z.of_nat (16 + length rest)) (PREFIX + ln + alen)) as [H6|H6],
    (Z.ltb_spec (Z.of_nat (length rest)) (ln + alen)) as [H7|H7];
    unfold PREFIX in H6; try lia; [done|].
  replace (PREFIX + ln + alen) with (PREFIX + (ln + alen)) by lia.
  rewrite Hslice by lia. replace (ln + alen - ln) with alen by lia.
  assert (slice PREFIX (PREFIX + ln) (header ln alen lay ++ rest) = take (Z.to_nat ln) rest) as ->.
  { replace PREFIX with (PREFIX + 0) at 1 by lia. rewrite Hslice by lia.
    by rewrite Z.sub_0_r. }
  done.
Qed.

(** Any sixteen bytes with zero padding are the head of some lengths and layout. *)
Lemma header_split data :
  16 <= Z.of_nat (length data) → padding_is_zero data = true →
  ∃ ln alen lay rest, data = header ln alen lay ++ rest ∧ in_u 64 ln ∧ in_u 32 alen.
Proof.
  intros Hl Hp.
  do 16 (destruct data as [|? data]; [simpl in Hl; lia|]).
  unfold padding_is_zero in Hp.
  apply andb_true_iff in Hp as [[Hp1 Hp2]%andb_true_iff Hp3].
  apply bool_decide_eq_true in Hp1, Hp2, Hp3. simpl in Hp1, Hp2, Hp3. simplify_eq.
  exists (le_val [b; b0; b1; b2; b3; b4; b5; b6]), (le_val [b7; b8; b9; b10]), b11, data.
  split_and!.
  - unfold header.
    rewrite (le_bytes_val [b; b0; b1; b2; b3; b4; b5; b6] : le_bytes 8 _ = _).
    by rewrite (le_bytes_val [b7; b8; b9; b10] : le_bytes 4 _ = _).
  - exact (le_val_range [b; b0; b1; b2; b3; b4; b5; b6]).
  - exact (le_val_range [b7; b8; b9; b10]).
Qed.

Lemma from_wire_short data : Z.of_nat (length data) < 16 → from_wire data = None.
Proof.
  intros H. unfold from_wire.
  destruct (Z.ltb_spec (Z.of_nat (length data)) PREFIX); [done|unfold PREFIX in *; lia].
Qed.

Lemma from_wire_padding data : padding_is_zero data = false → from_wire data = None.
Proof. intros H. unfold from_wire. rewrite H. by destruct (_ <? _). Qed.

Lemma from_wire_rest_Some lay ln alen rest h :
  0 <= ln → 0 <= alen <= U32_MAX → 0 <= lay →
  from_wire_rest lay ln alen rest = Some h →
  wf_head h ∧ h_layout h = lay ∧ h_len h = ln ∧ Z.of_nat (length (h_attrs h)) = alen ∧
  ∃ extra, rest = h_body h ++ h_attrs h ++ extra.
Proof.
  unfold from_wire_rest. intros Hln Hal Hlay.
  destruct (Z.ltb_spec LAYOUT_CAPACITY lay) as [|Hl]; [done|].
  destruct (Z.ltb_spec USIZE_MAX (PREFIX + ln + alen)) as [|Ht]; [done|].
  destruct (Z.ltb_spec (Z.of_nat (length rest)) (ln + alen)) as [|Hr]; [done|]. cbn [orb].
  destruct (scan_reallen _) as [[has r]|] eqn:Es; [|done]. cbn [mbind option_bind].
  destruct (reallen_ok lay ln has r) eqn:Eo; [|done]. cbn [negb]. intros [= <-]. simpl.
  assert (Hal2 : Z.of_nat (length (take (Z.to_nat alen) (drop (Z.to_nat ln) rest))) = alen).
  { rewrite length_take, length_drop. lia. }
  split_and!; [|done..|].
  - apply wf_head_scanned. simpl. rewrite ?Hal2. split_and!; try done; try lia.
    + unfold LAYOUT_LENGTH, LAYOUT_CAPACITY in *. lia.
    + rewrite length_take. lia.
    + eauto.
  - exists (drop (Z.to_nat alen) (drop (Z.to_nat ln) rest)). by rewrite !take_drop.
Qed.

Lemma from_wire_rest_encode h extra :
  wf_head h →
  from_wire_rest (h_layout h) (h_len h) (Z.of_nat (length (h_attrs h)))
    (h_body h ++ h_attrs h ++ extra) = Some h.
Proof.
  intros (Hlay & Hlen & Hattrs & Htot & (has & r & Hscan & Hok) & Hlt & Href)%wf_head_scanned.
  destruct h as [lay ref lt ln at_ bd]. simpl in *. unfold from_wire_rest.
  destruct (Z.ltb_spec LAYOUT_CAPACITY lay);
    [unfold LAYOUT_LENGTH, LAYOUT_CAPACITY in *; lia|].
  destruct (Z.ltb_spec USIZE_MAX (PREFIX + ln + Z.of_nat (length at_))); [lia|].
  rewrite !length_app.
  destruct (Z.ltb_spec (Z.of_nat (length bd + (length at_ + length extra)))
              (ln + Z.of_nat (length at_))); [lia|]. cbn [orb].
  subst ln. rewrite !Nat2Z.id, drop_app_length, !take_app_length, Hscan.
  cbn [mbind option_bind]. rewrite Hok. cbn [negb]. by rewrite Href, Hlt.
Qed.

Lemma byte_val_layout h : wf_head h → byte_val (byte_of (h_layout h)) = h_layout h.
Proof. intros H. destruct (wf_layout h H) as [-> | ->]; done. Qed.

(** [from_wire] accepts exactly the encodings of legal heads, whatever follows them. *)
Lemma from_wire_spec data h :
  from_wire data = Some h ↔ wf_head h ∧ ∃ extra, data = encode_head h ++ extra.
Proof.
  split.
  - intros H.
    destruct (decide (Z.of_nat (length data) < 16)) as [Hs|Hs];
      [by rewrite from_wire_short in H|].
    destruct (padding_is_zero data) eqn:Hp; [|by rewrite from_wire_padding in H].
    destruct (header_split data) as (ln & alen & lay & rest & -> & Hln & Hal); [lia|done|].
    rewrite from_wire_header in H by done. unfold in_u in *.
    apply from_wire_rest_Some in H as (Hwf & Hl1 & Hl2 & Hl3 & extra & ->);
      [|lia|unfold U32_MAX; lia|apply byte_val_range].
    split; [done|]. exists extra. unfold encode_head.
    by rewrite Hl1, Hl2, Hl3, byte_of_val, <-!app_assoc.
  - intros [Hwf [extra ->]]. unfold encode_head. rewrite <-!app_assoc.
    rewrite from_wire_header, byte_val_layout by
      (try done; destruct Hwf; unfold in_u, USIZE_MAX, U32_MAX, PREFIX in *; lia).
    by apply from_wire_rest_encode.
Qed.

(** ** The attr area of the writers *)

Lemma reallen_record_eq r : reallen_record r = record ATTR_TAG_REALLEN (le_bytes 8 r).
Proof. done. Qed.

Lemma scan_nil fuel found : scan_reallen_loop fuel [] found = Some found.
Proof. by destruct fuel. Qed.

(** The attr area of a value without, respectively with, a [reallen] record. *)
Lemma scan_attr_bytes lt a : attr_bytes lt = Some a → scan_reallen a = Some (false, 0).
Proof.
  intros [[-> ->]|(_ & Hl & ->)]%attr_bytes_Some; [done|]. unfold scan_reallen.
  rewrite length_record. cbn [Nat.add].
  rewrite <-(app_nil_r (record _ lt)), scan_record, scan_nil by done. done.
Qed.

Lemma find_attr_bytes lt a t :
  attr_bytes lt = Some a → default [] (find_attr (a ++ t) ATTR_TAG_LANGTYPE) =
    match lt with [] => default [] (find_attr t ATTR_TAG_LANGTYPE) | _ => lt end.
Proof.
  intros [[-> ->]|(Hne & Hl & ->)]%attr_bytes_Some; [done|]. unfold find_attr.
  rewrite length_app, length_record. cbn [Nat.add].
  rewrite find_record by done. simpl. by destruct lt.
Qed.

Lemma scan_attr_reallen lt a r :
  attr_bytes lt = Some a → in_u 64 r → scan_reallen (a ++ reallen_record r) = Some (true, r).
Proof.
  intros Ha Hr. unfold scan_reallen. rewrite length_app.
  assert (scan_reallen_loop (length a + length (reallen_record r))
            (a ++ reallen_record r) None = Some (Some r)) as ->; [|done].
  assert (∀ fuel, scan_reallen_loop (S fuel) (reallen_record r) None = Some (Some r)) as Hrec.
  { intros fuel. rewrite reallen_record_eq, <-(app_nil_r (record _ _)).
    rewrite scan_record by (rewrite ?length_le_bytes; done).
    cbn [ATTR_TAG_REALLEN Z.eqb Pos.eqb]. rewrite length_le_bytes, scan_nil. simpl Nat.eqb. cbn match.
    rewrite le_val_bytes, Z.mod_small; done. }
  destruct (attr_bytes_Some _ _ Ha) as [[-> ->]|(_ & Hl & ->)]; [apply Hrec|].
  rewrite length_record. cbn [Nat.add]. rewrite scan_record by done.
  simpl (_ =? _). cbn match.
  apply Hrec.
Qed.

(** ** The writers, in closed form *)

Lemma replicate_splices ln alen lay n (attr : bytes) :
  length attr = n →
  ∀ c, let z := replicate (16 + c + n) Byte.x00 in
  let z := splice OFF_BODYLEN (le_bytes 8 ln) z in
  let z := splice OFF_ATTRSLEN (le_bytes 4 alen) z in
  let z := splice OFF_LAYOUT [lay] z in
  splice (16 + c) attr z = header ln alen lay ++ replicate c Byte.x00 ++ attr ∧
  splice OFF_PADDING [Byte.x00; Byte.x00; Byte.x00] z = z.
Proof.
  intros <- c. rewrite replicate_add. cbv zeta.
  assert (∀ b, splice OFF_LAYOUT [lay] (splice OFF_ATTRSLEN (le_bytes 4 alen)
    (splice OFF_BODYLEN (le_bytes 8 ln) (replicate (16 + c) Byte.x00 ++ b))) =
    (header ln alen lay ++ replicate c Byte.x00) ++ b) as ->.
  { intros b. rewrite replicate_add, <-!app_assoc. done. }
  split; [|done].
  rewrite splice_app by (rewrite length_app, length_replicate; done).
  rewrite drop_ge by (rewrite length_replicate; done). by rewrite app_nil_r, <-app_assoc.
Qed.

Definition fits (content : Z) (attr : bytes) : Prop :=
  PREFIX + content + Z.of_nat (length attr) <= ISIZE_MAX.
#[export] Instance fits_decision content attr : Decision (fits content attr).
Proof. unfold fits. apply _. Defined.

Lemma attr_bytes_length lt a : attr_bytes lt = Some a → Z.of_nat (length a) <= U16_MAX + 3.
Proof.
  intros [[-> ->]|(_ & Hl & ->)]%attr_bytes_Some; [done|]. rewrite length_record. lia.
Qed.

Lemma zeroed_chain content (attr : bytes) :
  0 <= content → Z.of_nat (length attr) <= U32_MAX →
  ((total ← (checked_add PREFIX content ≫= λ x, checked_add x (Z.of_nat (length attr)));
    zeroed total) =
   if decide (fits content attr)
   then Some (replicate (16 + Z.to_nat content + length attr) Byte.x00) else None).
Proof.
  intros Hc Ha. unfold fits, checked_add, zeroed.
  assert (ISIZE_MAX < USIZE_MAX) by done.
  destruct (Z.leb_spec (PREFIX + content) USIZE_MAX); cbn [mbind option_bind].
  - destruct (Z.leb_spec (PREFIX + content + Z.of_nat (length attr)) USIZE_MAX); cbn [mbind option_bind].
    + destruct (Z.leb_spec (PREFIX + content + Z.of_nat (length attr)) ISIZE_MAX);
        case_decide; try lia; [|done]. do 2 f_equal. unfold PREFIX. lia.
    + case_decide; [lia|done].
  - case_decide; [lia|done].
Qed.

Lemma reserve_eq content lt :
  0 <= content →
  reserve content lt =
  a ← attr_bytes lt;
  if decide (fits content a)
  then Some (header content (Z.of_nat (length a)) (byte_of LAYOUT_LENGTH)
             ++ replicate (Z.to_nat content) Byte.x00 ++ a)
  else None.
Proof.
  intros Hc. unfold reserve. destruct (attr_bytes lt) as [a|] eqn:E; [|done].
  cbn [mbind option_bind]. pose proof (attr_bytes_length _ _ E) as Ha.
  unfold U16_MAX in Ha. unfold try_u32.
  destruct (Z.leb_spec (Z.of_nat (length a)) U32_MAX); [|unfold U32_MAX in *; lia].
  cbn [mbind option_bind]. pose proof (zeroed_chain content a Hc ltac:(done)) as Hz.
  destruct (checked_add PREFIX content ≫= _) as [total|]; cbn [mbind option_bind] in *;
    [|by case_decide].
  rewrite Hz. case_decide; [|done]. cbn [mbind option_bind].
  pose proof (replicate_splices content (Z.of_nat (length a)) (byte_of LAYOUT_LENGTH) _ a
    eq_refl (Z.to_nat content)) as [Hs Hp]. cbv zeta in Hs, Hp. rewrite Hp.
  replace (Z.to_nat (PREFIX + content)) with (16 + Z.to_nat content)%nat by (unfold PREFIX; lia).
  by rewrite Hs.
Qed.

Lemma to_wire_eq body lt :
  to_wire body lt =
  a ← attr_bytes lt;
  if decide (fits (Z.of_nat (length body)) a)
  then Some (header (Z.of_nat (length body)) (Z.of_nat (length a)) (byte_of LAYOUT_LENGTH)
             ++ body ++ a)
  else None.
Proof.
  unfold to_wire. rewrite reserve_eq by lia. destruct (attr_bytes lt) as [a|]; [|done].
  cbn [mbind option_bind]. case_decide; [|done]. cbn [mbind option_bind].
  rewrite splice_app by done. rewrite Nat2Z.id.
  do 3 f_equal. by rewrite (drop_app_length' _ _ (length body)) by (by rewrite length_replicate).
Qed.

Lemma to_wire_varlen_eq capacity r lt :
  0 <= capacity →
  to_wire_varlen capacity r lt =
  if decide (r <= capacity) then
    a ← attr_bytes lt;
    let a := a ++ reallen_record r in
    if decide (fits capacity a)
    then Some (header capacity (Z.of_nat (length a)) (byte_of LAYOUT_CAPACITY)
               ++ replicate (Z.to_nat capacity) Byte.x00 ++ a)
    else None
  else None.
Proof.
  intros Hc. unfold to_wire_varlen.
  destruct (Z.ltb_spec capacity r), (decide (r <= capacity)); try lia; [done|].
  destruct (attr_bytes lt) as [a0|] eqn:E; [|done].
  cbn [mbind option_bind]. pose proof (attr_bytes_length _ _ E) as Ha.
  set (a := a0 ++ reallen_record r).
  assert (Z.of_nat (length a) <= U32_MAX).
  { unfold a. rewrite length_app. change (length (reallen_record r)) with 11%nat.
    unfold U16_MAX, U32_MAX in *. lia. }
  unfold try_u32. destruct (Z.leb_spec (Z.of_nat (length a)) U32_MAX); [|lia].
  cbn [mbind option_bind]. pose proof (zeroed_chain capacity a Hc ltac:(done)) as Hz.
  destruct (checked_add PREFIX capacity ≫= _) as [total|]; cbn [mbind option_bind] in *;
    [|by case_decide].
  rewrite Hz. cbv zeta. case_decide; [|done]. cbn [mbind option_bind].
  pose proof (replicate_splices capacity (Z.of_nat (length a)) (byte_of LAYOUT_CAPACITY) _ a
    eq_refl (Z.to_nat capacity)) as [Hs _]. cbv zeta in Hs.
  replace (Z.to_nat (PREFIX + capacity)) with (16 + Z.to_nat capacity)%nat by (unfold PREFIX; lia).
  by rewrite Hs.
Qed.

(** ** Reading back what the writers produce *)

Lemma fits_usize content a : fits content a → PREFIX + content + Z.of_nat (length a) <= USIZE_MAX.
Proof. unfold fits, ISIZE_MAX, USIZE_MAX. lia. Qed.

Lemma find_attr_bytes_nil lt a :
  attr_bytes lt = Some a → default [] (find_attr a ATTR_TAG_LANGTYPE) = lt.
Proof.
  intros H. pose proof (find_attr_bytes lt a [] H) as E. rewrite app_nil_r in E. rewrite E.
  by destruct lt.
Qed.

(** The head a [LENGTH] value decodes to. *)
Definition length_head (body lt a : bytes) : Head :=
  mkHead LAYOUT_LENGTH (reference_of lt) lt (Z.of_nat (length body)) a body.

Lemma wf_length_head body lt a :
  attr_bytes lt = Some a → fits (Z.of_nat (length body)) a → wf_head (length_head body lt a).
Proof.
  intros Ha Hf. pose proof (attr_bytes_length _ _ Ha). unfold U16_MAX in *.
  apply wf_head_scanned. simpl. split_and!; try done.
  - by left.
  - unfold U32_MAX. lia.
  - by apply fits_usize.
  - exists false, 0. split; [by eapply scan_attr_bytes|done].
  - symmetry. by apply find_attr_bytes_nil.
Qed.

Lemma to_wire_Some body lt w :
  to_wire body lt = Some w ↔
  ∃ a, attr_bytes lt = Some a ∧ fits (Z.of_nat (length body)) a ∧
       w = encode_head (length_head body lt a).
Proof.
  rewrite to_wire_eq. destruct (attr_bytes lt) as [a|]; cbn [mbind option_bind].
  - case_decide as Hf; split.
    + intros [= <-]. by exists a.
    + intros (? & [= <-] & _ & ->). done.
    + done.
    + by intros (? & [= <-] & ? & _).
  - split; [done|]. by intros (? & ? & _).
Qed.

Lemma from_wire_encode h extra : wf_head h → from_wire (encode_head h ++ extra) = Some h.
Proof. intros H. apply from_wire_spec. eauto. Qed.

Lemma to_wire_from_wire body lt w :
  to_wire body lt = Some w →
  ∃ a, attr_bytes lt = Some a ∧ from_wire w = Some (length_head body lt a) ∧
       length w = (16 + length body + length a)%nat.
Proof.
  intros (a & Ha & Hf & ->)%to_wire_Some. exists a. split; [done|]. split.
  - rewrite <-(app_nil_r (encode_head _)). by apply from_wire_encode, wf_length_head.
  - unfold encode_head. rewrite !length_app, length_header. simpl. lia.
Qed.

(** The head a [CAPACITY] value decodes to. *)
Definition capacity_head (body lt a : bytes) (r : Z) : Head :=
  mkHead LAYOUT_CAPACITY (reference_of lt) lt (Z.of_nat (length body)) (a ++ reallen_record r) body.

Lemma find_attr_reallen lt a r :
  attr_bytes lt = Some a →
  default [] (find_attr (a ++ reallen_record r) ATTR_TAG_LANGTYPE) = lt.
Proof.
  intros H. rewrite (find_attr_bytes lt a) by done. destruct lt as [|b lt]; [|done].
  unfold find_attr. rewrite reallen_record_eq, length_record. cbn [Nat.add].
  rewrite <-(app_nil_r (record _ _)), find_record by (rewrite ?length_le_bytes; done). done.
Qed.

Lemma wf_capacity_head body lt a r :
  attr_bytes lt = Some a → 0 <= r <= Z.of_nat (length body) →
  fits (Z.of_nat (length body)) (a ++ reallen_record r) → wf_head (capacity_head body lt a r).
Proof.
  intros Ha Hr Hf. pose proof (attr_bytes_length _ _ Ha). unfold U16_MAX in *.
  pose proof (fits_usize _ _ Hf) as Hu.
  apply wf_head_scanned. simpl. split_and!; try done.
  - by right.
  - rewrite length_app. change (length (reallen_record r)) with 11%nat. unfold U32_MAX. lia.
  - exists true, r. split.
    + apply (scan_attr_reallen lt); [done|]. unfold in_u, USIZE_MAX, PREFIX in *. lia.
    + unfold reallen_ok. simpl. apply Z.leb_le; lia.
  - symmetry. by apply find_attr_reallen.
Qed.

Lemma to_wire_varlen_Some capacity r lt w :
  0 <= capacity →
  to_wire_varlen capacity r lt = Some w ↔
  ∃ a, attr_bytes lt = Some a ∧ r <= capacity ∧ fits capacity (a ++ reallen_record r) ∧
       w = encode_head (capacity_head (replicate (Z.to_nat capacity) Byte.x00) lt a r).
Proof.
  intros Hc. rewrite to_wire_varlen_eq by done.
  assert (∀ a, encode_head (capacity_head (replicate (Z.to_nat capacity) Byte.x00) lt a r) =
    header capacity (Z.of_nat (length (a ++ reallen_record r))) (byte_of LAYOUT_CAPACITY)
    ++ replicate (Z.to_nat capacity) Byte.x00 ++ a ++ reallen_record r) as Henc.
  { intros a. unfold encode_head. simpl. by rewrite length_replicate, Z2Nat.id. }
  case_decide as Hr; [|split; [done|]; by intros (? & _ & ? & _)].
  destruct (attr_bytes lt) as [a|]; cbn [mbind option_bind].
  - case_decide as Hf; split.
    + intros [= <-]. exists a. by rewrite Henc.
    + intros (? & [= <-] & _ & _ & ->). by rewrite Henc.
    + done.
    + by intros (? & [= <-] & _ & ? & _).
  - split; [done|]. by intros (? & ? & _).
Qed.

(** ** Overwriting a part of the body *)

Lemma length_splice at_ src data :
  (at_ + length src <= length data)%nat → length (splice at_ src data) = length data.
Proof.
  intros H. unfold splice. rewrite !length_app, length_take, length_drop. lia.
Qed.

Lemma splice_app_l a b src : (length src <= length a)%nat → splice 0 src (a ++ b) = splice 0 src a ++ b.
Proof.
  intros H. unfold splice. simpl. rewrite drop_app_le by done. by rewrite app_assoc.
Qed.

Lemma splice_inside n src a b c :
  (length a <= n)%nat → (n + length src <= length a + length b)%nat →
  splice n src (a ++ b ++ c) = a ++ splice (n - length a) src b ++ c.
Proof.
  intros H1 H2. unfold splice. rewrite take_app_ge by done.
  rewrite take_app_le by lia. rewrite drop_app_ge by lia. rewrite drop_app_le by lia.
  rewrite <-!app_assoc. do 5 f_equal. lia.
Qed.

Definition with_body (h : Head) (b : bytes) : Head :=
  mkHead (h_layout h) (h_reference h) (h_langtype h) (h_len h) (h_attrs h) b.

Lemma wf_with_body h b : wf_head h → length b = length (h_body h) → wf_head (with_body h b).
Proof. intros [] Hb. split; simpl; try done. by rewrite Hb. Qed.

(** A write that stays inside the body changes the body and nothing else. *)
Lemma from_wire_splice data h off buf :
  from_wire data = Some h → PREFIX <= off → off + Z.of_nat (length buf) <= PREFIX + h_len h →
  from_wire (splice (Z.to_nat off) buf data) =
  Some (with_body h (splice (Z.to_nat (off - PREFIX)) buf (h_body h))).
Proof.
  intros (Hwf & extra & ->)%from_wire_spec Ho Hb. pose proof (wf_len h Hwf) as Hl.
  unfold PREFIX in *. unfold encode_head. rewrite <-!app_assoc.
  rewrite splice_inside by (rewrite length_header; lia). rewrite length_header.
  replace (Z.to_nat off - 16)%nat with (Z.to_nat (off - 16)) by lia.
  rewrite app_assoc, app_assoc, <-(app_assoc (header _ _ _)).
  apply (from_wire_encode (with_body h _)). apply wf_with_body; [done|].
  apply length_splice. lia.
Qed.

Lemma attr_len_encode h extra :
  wf_head h → attr_len (encode_head h ++ extra) = Some (Z.of_nat (length (h_attrs h))).
Proof.
  intros Hwf. unfold attr_len, encode_head. rewrite <-app_assoc.
  rewrite length_app, length_header.
  match goal with |- context [?a <? ?b] => destruct (Z.ltb_spec a b) as [H|_] end;
    [unfold PREFIX in H; lia|].
  unfold read_u32.
  rewrite (get_range_eq _ _ _ (le_bytes 8 (h_len h))
    (le_bytes 4 (Z.of_nat (length (h_attrs h))))
    ([byte_of (h_layout h); Byte.x00; Byte.x00; Byte.x00] ++ (h_body h ++ h_attrs h) ++ extra)) by done.
  cbn [fmap option_fmap option_map]. pose proof (wf_attrs h Hwf).
  rewrite le_val_bytes, Z.mod_small; [done|]. unfold U32_MAX in *. simpl. lia.
Qed.

Lemma attr_len_from_wire data h :
  from_wire data = Some h → attr_len data = Some (Z.of_nat (length (h_attrs h))).
Proof. intros (Hwf & extra & ->)%from_wire_spec. by apply attr_len_encode. Qed.

(** The whole value inside [data], without what follows it. *)
Definition value_size (h : Head) : nat :=
  (16 + length (h_body h) + length (h_attrs h))%nat.

Lemma length_encode_head h : length (encode_head h) = value_size h.
Proof. unfold encode_head, value_size. rewrite !length_app, length_header. lia. Qed.

Lemma from_wire_take data h :
  from_wire data = Some h →
  take (value_size h) data = encode_head h ∧ (value_size h <= length data)%nat ∧
  from_wire (take (value_size h) data) = Some h.
Proof.
  intros (Hwf & extra & ->)%from_wire_spec. rewrite <-length_encode_head, take_app_length.
  split_and!; [done|rewrite length_app; lia|].
  rewrite <-(app_nil_r (encode_head h)). by apply from_wire_encode.
Qed.

Lemma effective_len_encode h extra :
  wf_head h → ∃ e, effective_len (encode_head h ++ extra) = Some e ∧ e <= h_len h ∧
    (h_layout h = LAYOUT_LENGTH → e = h_len h).
Proof.
  intros Hwf. unfold effective_len, reallen_from_wire. rewrite from_wire_encode by done.
  cbn [mbind option_bind]. destruct (wf_reallen h Hwf) as (has & r & Hs & Hok).
  unfold reallen_ok in Hok. destruct (wf_layout h Hwf) as [Hl|Hl]; rewrite Hl in *; simpl in *.
  - eexists. split_and!; [done|lia|done].
  - rewrite Hs. destruct has; [|done]. exists r. split_and!; [done|lia|done].
Qed.

Lemma effective_len_le data h :
  from_wire data = Some h → ∃ e, effective_len data = Some e ∧ e <= h_len h.
Proof.
  intros (Hwf & extra & ->)%from_wire_spec.
  destruct (effective_len_encode h extra Hwf) as (e & ? & ? & _). eauto.
Qed.

Lemma effective_len_Some data e : effective_len data = Some e → ∃ h, from_wire data = Some h ∧ e <= h_len h.
Proof.
  intros He. assert (∃ h, from_wire data = Some h) as [h Hf].
  { unfold effective_len in He. destruct (from_wire data) as [h|]; [by exists h|done]. }
  exists h. split; [done|]. destruct (effective_len_le _ _ Hf) as (e' & He' & Hle). congruence.
Qed.

(** A write inside the body leaves a value of the same effective length. *)
Lemma effective_len_splice data h e off buf :
  from_wire data = Some h → effective_len data = Some e → PREFIX <= off →
  off + Z.of_nat (length buf) <= PREFIX + h_len h →
  from_wire (splice (Z.to_nat off) buf data) =
    Some (with_body h (splice (Z.to_nat (off - PREFIX)) buf (h_body h))) ∧
  effective_len (splice (Z.to_nat off) buf data) = Some e.
Proof.
  intros Hf He Ho Hb. pose proof (from_wire_splice data h off buf Hf Ho Hb) as Hs. split; [done|].
  rewrite <-He. unfold effective_len, reallen_from_wire. by rewrite Hs, Hf.
Qed.

(** ** Properties *)

(** The comment of [scan_reallen] has a truncated record refused.  An end of one or two bytes, too
    short for a record header, is accepted; a header whose data is cut short is refused. *)
Example dangling_attr_bytes_accepted :
  h_attrs <$> from_wire (header 0 2 Byte.x00 ++ [Byte.x02; Byte.x08]) = Some [Byte.x02; Byte.x08] ∧
  from_wire (header 0 4 Byte.x00 ++ [Byte.x01; Byte.x08; Byte.x00; Byte.x61]) = None.
Proof. split; vm_compute; reflexivity. Qed.

(** The tag 2 rule at work: once under [CAPACITY] and within the capacity; not twice, not above
    the capacity, not in another length, not under [LENGTH]. *)
Example reallen_rule :
  let two r := record 2 (le_bytes 8 r) in
  let wire lay attrs := header 4 (Z.of_nat (length attrs)) lay ++ "abcd"%rs ++ attrs in
  effective_len (wire Byte.x01 (two 3)) = Some 3 ∧
  from_wire (wire Byte.x01 (two 3 ++ two 3)) = None ∧
  from_wire (wire Byte.x01 (two 5)) = None ∧
  from_wire (wire Byte.x01 (record 2 (le_bytes 4 3))) = None ∧
  from_wire (wire Byte.x01 []) = None ∧
  from_wire (wire Byte.x00 (two 3)) = None.
Proof. cbv zeta. split_and!; vm_compute; reflexivity. Qed.

(** C1. [from_wire] accepts exactly the byte sequences that start with the encoding of a legal
    head, and decodes them to that head.  A legal head ([wf_head]) is described without the
    decoder's loops: the attr area is a sequence of records followed by at most two bytes, under
    the CAPACITY layout exactly one of them has tag 2, eight bytes long and at most the capacity,
    under LENGTH none has, and the langtype is the data of the first tag 1 record.  So nothing
    shorter, with non-zero padding, an unknown layout, lengths that overflow or overrun the input,
    a record whose data is cut short, or a tag 2 record against the rule is ever accepted, and
    trailing bytes never matter. *)
Theorem from_wire_accepts_exactly_encodings data h :
  from_wire data = Some h ↔ wf_head h ∧ ∃ extra, data = encode_head h ++ extra.
Proof. apply from_wire_spec. Qed.

(** C2. [to_wire] succeeds exactly when the langtype fits a u16 length and the whole value fits
    [isize::MAX]; what it writes decodes, whatever bytes follow it, to the body and langtype it
    was given, with the LENGTH layout, the reference the langtype's first byte stands for, and
    an effective length equal to the body length. *)
Theorem to_wire_roundtrip body lt extra :
  (is_Some (to_wire body lt) ↔
     Z.of_nat (length lt) <= U16_MAX ∧
     16 + Z.of_nat (length body) + (if bool_decide (lt = []) then 0 else 3 + Z.of_nat (length lt))
       <= ISIZE_MAX) ∧
  (∀ w, to_wire body lt = Some w →
     ∃ h, from_wire (w ++ extra) = Some h ∧
       h_body h = body ∧ h_langtype h = lt ∧ h_reference h = reference_of lt ∧
       h_layout h = LAYOUT_LENGTH ∧ effective_len (w ++ extra) = Some (Z.of_nat (length body)) ∧
       attr_len (w ++ extra) = Some (Z.of_nat (length w) - 16 - Z.of_nat (length body))).
Proof.
  split.
  - rewrite to_wire_eq. split.
    + intros [w Hw]. destruct (attr_bytes lt) as [a|] eqn:Ha; [|done].
      cbn [mbind option_bind] in Hw. case_decide as Hf; [|done]. unfold fits, PREFIX in Hf.
      destruct (attr_bytes_Some _ _ Ha) as [[-> ->]|(Hne & Hl & ->)].
      { split; [done|]. rewrite bool_decide_true by done. simpl in Hf. lia. }
      rewrite length_record in Hf. case_bool_decide; [done|]. lia.
    + intros [Hl Hf]. assert (∃ a, attr_bytes lt = Some a ∧ fits (Z.of_nat (length body)) a)
        as (a & -> & Hfit).
      { unfold fits, PREFIX. case_bool_decide as Hlt.
        - exists []. subst lt. simpl. split; [done|lia].
        - exists (record ATTR_TAG_LANGTYPE lt). rewrite attr_bytes_record, length_record by done.
          split; [done|lia]. }
      cbn [mbind option_bind]. by rewrite decide_True.
  - intros w (a & Ha & Hf & ->)%to_wire_Some.
    pose proof (wf_length_head _ _ _ Ha Hf) as Hwf.
    exists (length_head body lt a). split; [by apply from_wire_encode|].
    split_and!; try done.
    + destruct (effective_len_encode (length_head body lt a) extra Hwf) as (e & -> & _ & ->); done.
    + rewrite attr_len_encode by done. rewrite length_encode_head. unfold value_size.
      f_equal. simpl. lia.
Qed.

(** C3. A fixed-capacity value: [to_wire_varlen] refuses a content length above the capacity,
    and after the caller has filled in content of at most the declared length the value decodes
    with the whole capacity as its body, the content first and zeros after it, and the declared
    length, not the capacity, as its effective length. *)
Theorem to_wire_varlen_roundtrip capacity reallen lt content w :
  0 <= reallen → 0 <= capacity → Z.of_nat (length content) <= reallen →
  to_wire_varlen capacity reallen lt = Some w →
  reallen <= capacity ∧
  ∃ h, from_wire (splice (Z.to_nat PREFIX) content w) = Some h ∧
    h_layout h = LAYOUT_CAPACITY ∧ h_len h = capacity ∧ h_langtype h = lt ∧
    h_body h = content ++ replicate (Z.to_nat capacity - length content) Byte.x00 ∧
    effective_len (splice (Z.to_nat PREFIX) content w) = Some reallen.
Proof.
  intros Hr Hc Hlen (a & Ha & Hle & Hf & ->)%to_wire_varlen_Some; [|done].
  set (z := replicate (Z.to_nat capacity) Byte.x00) in *.
  assert (Hz : Z.of_nat (length z) = capacity) by (unfold z; rewrite length_replicate; lia).
  assert (Hwf : wf_head (capacity_head z lt a reallen)).
  { apply wf_capacity_head; rewrite ?Hz; done. }
  assert (Hfw : from_wire (encode_head (capacity_head z lt a reallen)) =
                Some (capacity_head z lt a reallen)).
  { rewrite <-(app_nil_r (encode_head _)). by apply from_wire_encode. }
  split; [done|].
  pose proof (from_wire_splice _ _ PREFIX content Hfw) as Hs. rewrite Z.sub_diag in Hs.
  cbn [h_len capacity_head] in Hs. specialize (Hs ltac:(lia) ltac:(unfold PREFIX; lia)).
  eexists. split; [exact Hs|]. split_and!; try done.
  - simpl. unfold splice. simpl. f_equal. unfold z. by rewrite drop_replicate.
  - unfold effective_len, reallen_from_wire. rewrite Hs. cbn [mbind option_bind]. simpl.
    rewrite (scan_attr_reallen lt) by
      (try done; unfold fits, PREFIX, ISIZE_MAX, in_u in *; lia). done.
Qed.

Lemma to_wire_varlen_roundtrip_witness :
  ∃ w, to_wire_varlen 32 5 "char/utf8"%rs = Some w ∧
  5 <= 32 ∧
  ∃ h, from_wire (splice (Z.to_nat PREFIX) "hello"%rs w) = Some h ∧
    h_layout h = LAYOUT_CAPACITY ∧ h_len h = 32 ∧ h_langtype h = "char/utf8"%rs ∧
    h_body h = "hello"%rs ++ replicate (Z.to_nat 32 - length "hello"%rs) Byte.x00 ∧
    effective_len (splice (Z.to_nat PREFIX) "hello"%rs w) = Some 5.
Proof.
  eexists. split; [vm_compute; reflexivity|].
  apply (to_wire_varlen_roundtrip 32 5 "char/utf8"%rs "hello"%rs);
    [lia|lia|vm_compute; discriminate|vm_compute; reflexivity].
Defined.
