(* ===== verification/KPath.v ===== *)
(** * Keys and paths: [src/src/const.rs], [src/src/kvspace_common.rs], [src/src/store.rs]

    Keys are absolute paths; [/] separates directories, [·] the members of a container and [‥]
    starts a runtime variable.  This file holds the path helpers every backend shares, the
    subtree test of the scans and the wire-level rules that depend on a key ([‥status]). *)

From S2P Require Import Prelude RustInt RustStr RustText HeadLenPow.
Local Open Scope Z_scope.
Implicit Types (key path prefix base parent child : str).

(** ** Constants *)

Definition PATH_SEP : str := "/"%rs.
Definition META_ROOT_NAME : str := ".kvspace-meta"%rs.
Definition DIR_INDEX_SUF : str := "/"%rs.
Definition RUNTIME_MEMBER_SEP : str := "‥"%rs.
Definition OBJ_SEP : str := "·"%rs.
Definition SLASH : byte := Byte.x2f.
Definition META_ROOT : str := "/.kvspace-meta"%rs.

Definition is_reserved key : bool :=
  bool_decide (key = META_ROOT) || starts_with (META_ROOT ++ "/"%rs) key.

(** ** Errors

    The [Err(String)] values of the crate and the messages of its panics, one constructor per
    [format!] site, with the values it interpolates. *)
Inductive kverr :=
  | ReservedKey (key : str)
  | ReservedSrcDst
  | InvalidKey (key : str)
  | InvalidXValue (key : str)
  | StatusMalformed (key : str)
  | StatusTooLong (effective : Z) (key : str)
  | StatusNotChar (base : str) (key : str)
  | StatusCapacity (len : Z) (key : str)
  | MemheadMissing (base : str)
  | ExtWrite (key : str)
  | ExtDel (key : str)
  | SetPartMissing (key : str)
  | SetPartCannotRead (key : str)
  | SetPartMalformed (key : str)
  | SetPartOutOfRange (key : str) (off buf_len upper : Z)
  | CpNotFound (src : str)
  | CpTreeInside
  | CpTreeNotFound (src : str)
  | CpListNotFound (src : str)
  | DirMustEndWithSlash (path : str)
  | MkindexNotDir (path : str)
  | MkindexInvalid (path : str)
  | ExtIndexNotDir (path ext_path : str)
  | ExtCascade (ext_path : str)
  | ExtTargetMissing (ext_path : str)
  | ExtLocatorInvalid (ext_path : str)
  | LinkTypeMismatch (target actual expect : str)
  | FsCreateRoot (root : str)
  | FsWrite (key : str)
  | FsSetPartRead (key : str)
  | FsRemove (prefix : str)
  | FsCopyTree (src dst : str)
  | FsNameBoundary (name : str).

(** ** Paths *)

Definition join_path parent child : str :=
  if decide (parent = PATH_SEP) then PATH_SEP ++ child
  else if ends_with PATH_SEP parent || ends_with OBJ_SEP parent then parent ++ child
  else parent ++ PATH_SEP ++ child.

Definition strip_dir_suf path : str :=
  if ends_with DIR_INDEX_SUF path then take (length path - length DIR_INDEX_SUF) path
  else if ends_with OBJ_SEP path then take (length path - length OBJ_SEP) path
  else path.

Definition subtree_base prefix : str :=
  if decide (prefix = PATH_SEP) then [] else strip_dir_suf prefix.

Definition is_descendant base path : bool :=
  if decide (base = PATH_SEP) then negb (bool_decide (path = PATH_SEP)) && starts_with PATH_SEP path
  else
    match strip_prefix base path with
    | Some rest => starts_with PATH_SEP rest || starts_with OBJ_SEP rest
    | None => false
    end.

Definition is_frame_operand_key key : bool :=
  if negb (starts_with "/vthread/"%rs key) then false
  else
    let slot := last_segment SLASH key in
    match strip_prefix "["%rs slot ≫= strip_suffix "]"%rs with
    | None => false
    | Some inner =>
        match split_once ","%rs inner with
        | None => false
        | Some (row, col) =>
            match parse_u 32 row, parse_s 32 col with
            | Some n, Some m => (0 <? n) && negb (m =? 0)
            | _, _ => false
            end
        end
    end.

Definition sep_path path : str * str :=
  if decide (path = PATH_SEP) then (PATH_SEP, [])
  else
    match rfind "/"%rs path with
    | None => ([], path)
    | Some O => (PATH_SEP, drop 1 path)
    | Some i => (take i path, drop (i + 1) path)
    end.

Inductive SepKind := SepDir | SepDict.

Definition split_index path : str * str * SepKind :=
  let '(parent, last) := sep_path path in
  let parent := if decide (parent = PATH_SEP) then parent else parent ++ DIR_INDEX_SUF in
  match rfind OBJ_SEP last with
  | Some (S _ as i) =>
      let m := drop (i + length OBJ_SEP) last in
      if decide (m = []) then (parent, last, SepDir)
      else (parent ++ take (i + length OBJ_SEP) last, m, SepDict)
  | _ => (parent, last, SepDir)
  end.

(** [path.ends_with('/') || path.ends_with('·')]: [Backend::is_dir], [FsKVSpace::is_dir_key]. *)
Definition is_dir path : bool := ends_with DIR_INDEX_SUF path || ends_with OBJ_SEP path.

(** A [sep_path] parent with its [/] back: the directory that holds the last component. *)
Definition parent_dir path : str * str :=
  let '(p, l) := sep_path path in
  (if decide (p = PATH_SEP) then p else p ++ DIR_INDEX_SUF, l).

(** ** Subtrees *)

Definition is_subtree_key prefix key : bool :=
  match prefix with
  | [] => starts_with "/"%rs key
  | _ =>
      if decide (prefix = "/"%rs) then starts_with "/"%rs key
      else
        match strip_prefix prefix key with
        | None => false
        | Some rest =>
            match rest with
            | [] => true
            | _ => starts_with "/"%rs rest || starts_with "·"%rs rest || starts_with "‥"%rs rest
            end
        end
  end.

(** ** Langtypes *)

(** [d.trim().is_empty() || d.trim() == "?" || d.trim().parse::<i32>().is_ok()] *)
Definition is_dim (d : str) : bool :=
  let t := trim d in
  bool_decide (t = []) || bool_decide (t = "?"%rs) ||
  match parse_s 32 t with Some _ => true | None => false end.

Definition is_shape (inner : str) : bool :=
  bool_decide (inner = []) || forallb is_dim (split_byte Byte.x2c inner).

Definition norm_langtype (s : str) : str :=
  if contains OBJ_SEP s then s
  else
    match strip_prefix "["%rs s with
    | Some rest =>
        match find "]"%rs rest with
        | Some end_ => if is_shape (take end_ rest) then drop (end_ + 1) rest else s
        | None => s
        end
    | None => s
    end.

(** ** The [‥status] slot *)

Definition STATUS_MAX_LEN : Z := 16.
Definition STATUS_MIN_CAP : Z := 80.

Definition is_status_key key : bool := bool_decide (last_segment SLASH key = "‥status"%rs).

Definition base_kind (langtype : bytes) : str :=
  let text := from_utf8_lossy langtype in
  match strip_prefix "["%rs text with
  | Some rest =>
      match find "]"%rs rest with
      | Some end_ => drop (end_ + 1) rest
      | None => text
      end
  | None => text
  end.

Definition validate_status_wire key (raw : bytes) : res kverr unit :=
  if negb (is_status_key key) then Ok tt
  else
    head ← ok_or (StatusMalformed key) (from_wire raw);
    effective ← ok_or (StatusMalformed key) (effective_len raw);
    bail_if (STATUS_MAX_LEN <? effective) (StatusTooLong effective key);;
    let base := base_kind (h_langtype head) in
    bail_if (negb (starts_with "char/"%rs base)) (StatusNotChar base key);;
    bail_if ((h_layout head =? LAYOUT_CAPACITY) && (h_len head <? STATUS_MIN_CAP))
      (StatusCapacity (h_len head) key);;
    Ok tt.

(** ** Lemmas: directories *)

Lemma is_dir_true path : is_dir path = true ↔ ∃ b, path = b ++ "/"%rs ∨ path = b ++ "·"%rs.
Proof.
  unfold is_dir, DIR_INDEX_SUF, OBJ_SEP. rewrite orb_true_iff, !ends_with_true. firstorder.
Qed.

Lemma is_dir_slash b : is_dir (b ++ "/"%rs) = true.
Proof. apply is_dir_true. eauto. Qed.

Lemma is_dir_obj b : is_dir (b ++ "·"%rs) = true.
Proof. apply is_dir_true. eauto. Qed.

Lemma ends_with_slash_obj b : ends_with DIR_INDEX_SUF (b ++ "·"%rs) = false.
Proof.
  destruct (ends_with _ _) eqn:E; [|done]. apply ends_with_true in E as [r Hr].
  change "·"%rs with ([Byte.xc2] ++ [Byte.xb7]) in Hr. rewrite app_assoc in Hr.
  apply app_inj_tail in Hr as [_ ?]. done.
Qed.

Lemma strip_dir_suf_slash b : strip_dir_suf (b ++ "/"%rs) = b.
Proof.
  unfold strip_dir_suf. unfold DIR_INDEX_SUF. rewrite ends_with_app, length_app. simpl.
  rewrite Nat.add_sub. apply take_app_length.
Qed.

Lemma strip_dir_suf_obj b : strip_dir_suf (b ++ "·"%rs) = b.
Proof.
  unfold strip_dir_suf. rewrite ends_with_slash_obj. unfold OBJ_SEP.
  rewrite ends_with_app, length_app. simpl. rewrite Nat.add_sub. apply take_app_length.
Qed.

Lemma strip_dir_suf_plain path : is_dir path = false → strip_dir_suf path = path.
Proof. unfold is_dir, strip_dir_suf. by intros [-> ->]%orb_false_iff. Qed.

(** A path is its stripped form followed by nothing, [/] or [·]. *)
Lemma strip_dir_suf_spec path :
  (is_dir path = false ∧ strip_dir_suf path = path) ∨
  path = strip_dir_suf path ++ "/"%rs ∨ path = strip_dir_suf path ++ "·"%rs.
Proof.
  destruct (is_dir path) eqn:E; [right|left; split; [done|by apply strip_dir_suf_plain]].
  apply is_dir_true in E as [b [-> | ->]];
    rewrite ?strip_dir_suf_slash, ?strip_dir_suf_obj; auto.
Qed.

(** ** Lemmas: subtrees *)

(** [rest] is what may follow the root of a subtree. *)
Definition subtree_rest (rest : str) : bool :=
  match rest with
  | [] => true
  | _ => starts_with "/"%rs rest || starts_with "·"%rs rest || starts_with "‥"%rs rest
  end.

Lemma subtree_rest_app a b : a ≠ [] → subtree_rest a = true → subtree_rest (a ++ b) = true.
Proof.
  destruct a as [|x a]; [done|]. intros _. simpl app. unfold subtree_rest.
  rewrite !orb_true_iff, !starts_with_true.
  intros [[[r Hr]|[r Hr]]|[r Hr]];
    [left; left|left; right|right]; exists (r ++ b); by rewrite app_comm_cons, Hr, app_assoc.
Qed.

Lemma is_subtree_key_rest prefix key :
  prefix ≠ [] → prefix ≠ "/"%rs →
  is_subtree_key prefix key = true ↔ ∃ rest, key = prefix ++ rest ∧ subtree_rest rest = true.
Proof.
  intros H1 H2. unfold is_subtree_key. destruct prefix as [|c p]; [done|].
  rewrite decide_False by done. destruct (strip_prefix (c :: p) key) as [rest|] eqn:E.
  - apply strip_prefix_Some in E as ->. split.
    + intros H. by exists rest.
    + intros (r & Hr & H). by apply app_inv_head in Hr as <-.
  - split; [done|]. intros (rest & -> & _). by rewrite strip_prefix_app in E.
Qed.

Lemma is_subtree_key_root prefix key :
  prefix = [] ∨ prefix = "/"%rs → is_subtree_key prefix key = starts_with "/"%rs key.
Proof. by intros [-> | ->]. Qed.

Lemma is_subtree_key_refl prefix : starts_with "/"%rs prefix = true → is_subtree_key prefix prefix = true.
Proof.
  intros H. destruct (decide (prefix = [])) as [->|]; [done|].
  destruct (decide (prefix = "/"%rs)) as [->|]; [done|].
  apply is_subtree_key_rest; [done..|]. exists []. by rewrite app_nil_r.
Qed.

Lemma is_subtree_key_abs prefix key :
  starts_with "/"%rs prefix = true → is_subtree_key prefix key = true → starts_with "/"%rs key = true.
Proof.
  intros Hp H. destruct (decide (prefix = [])) as [->|]; [done|].
  destruct (decide (prefix = "/"%rs)) as [->|]; [done|].
  apply is_subtree_key_rest in H as (r & -> & _); [|done..].
  apply starts_with_true in Hp as [x ->]. apply starts_with_true. exists (x ++ r). by rewrite app_assoc.
Qed.

Lemma is_subtree_key_trans p q k :
  starts_with "/"%rs p = true →
  is_subtree_key p q = true → is_subtree_key q k = true → is_subtree_key p k = true.
Proof.
  intros Hp H1 H2. pose proof (is_subtree_key_abs p q Hp H1) as Hq.
  pose proof (is_subtree_key_abs q k Hq H2) as Hk.
  destruct (decide (p = "/"%rs)) as [->|Hp1]; [done|].
  assert (p ≠ []) by (by intros ->).
  apply is_subtree_key_rest in H1 as (r1 & -> & Hr1); [|done..].
  assert (Hlen : (2 <= length (p ++ r1))%nat).
  { rewrite length_app. apply starts_with_true in Hp as [x ->]. destruct x; [done|]. simpl. lia. }
  apply is_subtree_key_rest in H2 as (r2 & -> & Hr2);
    [|intros E; rewrite E in Hlen; simpl in Hlen; lia..].
  apply is_subtree_key_rest; [done..|]. exists (r1 ++ r2). rewrite app_assoc. split; [done|].
  destruct r1; [done|]. by apply subtree_rest_app.
Qed.

(** ** Lemmas: splitting a path *)

Lemma rfind_byte_split (c : byte) s i :
  rfind [c] s = Some i → s = take i s ++ c :: drop (i + 1) s ∧ c ∉ drop (i + 1) s.
Proof.
  intros H. pose proof (rfind_Some _ _ _ H) as Hs. simpl in Hs. split; [exact Hs|].
  intros Hin. apply list_elem_of_split in Hin as (l1 & l2 & Hl).
  destruct (rfind_last [c] (take i s ++ c :: l1) l2) as (j & Hj & Hle).
  rewrite <-app_assoc in Hj. simpl in Hj. rewrite <-Hl, <-Hs, H in Hj. injection Hj as <-.
  rewrite length_app in Hle. simpl in Hle.
  pose proof (occurrence_bound [c] s i ltac:(done) Hs) as Hb. cbn [length] in Hb.
  rewrite length_take in Hle. lia.
Qed.

Definition DOUBLE_SEP : str := "//"%rs.

(** A canonical absolute path: what [set] accepts. *)
Definition abs_path path : Prop :=
  starts_with "/"%rs path = true ∧ contains DOUBLE_SEP path = false.

(** The directory and the last component of a canonical path. *)
Lemma parent_dir_spec path parent last :
  abs_path path → parent_dir path = (parent, last) →
  path = parent ++ last ∧ (SLASH ∉ last) ∧ ends_with DIR_INDEX_SUF parent = true.
Proof.
  unfold parent_dir, sep_path. intros [Habs Hdbl].
  destruct (decide (path = PATH_SEP)) as [->|Hne].
  { rewrite decide_True by done. intros [= <- <-]. split_and!; [done|apply not_elem_of_nil|done]. }
  destruct (rfind "/"%rs path) as [[|i]|] eqn:E.
  - rewrite decide_True by done. intros [= <- <-].
    apply (rfind_byte_split SLASH) in E as [Hs Hnot]. split_and!; [exact Hs|done|done].
  - apply (rfind_byte_split SLASH) in E as [Hs Hnot].
    destruct (decide _) as [Hps|Hps].
    + exfalso. rewrite Hps in Hs. pose proof (proj1 (contains_false _ _) Hdbl [] (drop (S i + 1) path)).
      done.
    + intros [= <- <-]. split_and!; [|done|apply ends_with_app].
      rewrite <-app_assoc. exact Hs.
  - apply starts_with_true in Habs as [r Hr]. by destruct (proj1 (rfind_None _ _) E [] r).
Qed.

Lemma split_index_eq path :
  split_index path =
  let '(parent, last) := parent_dir path in
  match rfind OBJ_SEP last with
  | Some (S _ as i) =>
      let m := drop (i + length OBJ_SEP) last in
      if decide (m = []) then (parent, last, SepDir)
      else (parent ++ take (i + length OBJ_SEP) last, m, SepDict)
  | _ => (parent, last, SepDir)
  end.
Proof. unfold split_index, parent_dir. by destruct (sep_path path). Qed.

(** Either the last component of a canonical path is a plain name under a [/] directory, or it
    is a member name under the [·] directory of the last [·] of that component. *)
Lemma split_index_spec path parent m kind :
  abs_path path → split_index path = (parent, m, kind) →
  path = parent ++ m ∧ (SLASH ∉ m) ∧
  match kind with
  | SepDir => ends_with DIR_INDEX_SUF parent = true
  | SepDict => m ≠ [] ∧ contains OBJ_SEP m = false ∧
      ∃ dir name, parent = dir ++ name ++ OBJ_SEP ∧ name ≠ [] ∧ (SLASH ∉ name) ∧
                  ends_with DIR_INDEX_SUF dir = true
  end.
Proof.
  intros Habs. rewrite split_index_eq. destruct (parent_dir path) as [dir last] eqn:E.
  destruct (parent_dir_spec _ _ _ Habs E) as (-> & Hnot & Hdir).
  destruct (rfind OBJ_SEP last) as [[|i]|] eqn:Er; [by intros [= <- <- <-]| |by intros [= <- <- <-]].
  pose proof (rfind_Some _ _ _ Er) as Hl.
  pose proof (occurrence_bound OBJ_SEP last (S i) ltac:(done) Hl) as Hb.
  change (length OBJ_SEP) with 2%nat in Hb.
  set (m0 := drop (S i + length OBJ_SEP) last) in *. fold (S i + length OBJ_SEP)%nat.
  assert (Htake : take (S i + length OBJ_SEP) last = take (S i) last ++ OBJ_SEP).
  { rewrite Hl at 1. rewrite app_assoc. apply take_app_length'.
    rewrite length_app, length_take. lia. }
  cbv zeta. rewrite Htake. destruct (decide (m0 = [])) as [Hne|Hne]; intros [= <- <- <-]; [done|].
  assert (Hnl : (SLASH ∉ take (S i) last) ∧ (SLASH ∉ m0)).
  { rewrite Hl in Hnot. rewrite !elem_of_app in Hnot. tauto. }
  destruct Hnl as [Hn1 Hn2]. split_and!; [|done..| |].
  - by rewrite <-!app_assoc, <-Hl.
  - apply contains_false. intros a b Hab.
    destruct (rfind_last OBJ_SEP (take (S i) last ++ OBJ_SEP ++ a) b) as (j & Hj & Hle).
    rewrite <-!app_assoc in Hj. change (OBJ_SEP ++ a ++ OBJ_SEP ++ b) with (OBJ_SEP ++ (a ++ OBJ_SEP ++ b)) in Hj.
    rewrite <-Hab, <-Hl, Er in Hj. injection Hj as <-.
    rewrite !length_app, length_take in Hle. change (length OBJ_SEP) with 2%nat in Hle. lia.
  - exists dir, (take (S i) last). split_and!; [done| |done|done].
    intros Ht. apply (f_equal length) in Ht. rewrite length_take in Ht. simpl in Ht.
    destruct last; [done|]. simpl in Ht. lia.
Qed.

(** A path component that names a member of a container: a non-empty member name, without [·],
    after the last [·] of the component, which is not its first character. *)
Definition member_split (last name m : str) : Prop :=
  last = name ++ OBJ_SEP ++ m ∧ name ≠ [] ∧ m ≠ [] ∧ contains OBJ_SEP m = false.

Lemma rfind_obj_unique name m (a b : str) :
  name ++ OBJ_SEP ++ m = a ++ OBJ_SEP ++ b → (length name <= length a)%nat →
  contains OBJ_SEP m = false → a = name.
Proof.
  intros H Hl Hm. apply app_eq_inv in H as [(k & Hname & Hk)|(k & -> & Hk)].
  - subst name. rewrite length_app in Hl. destruct k; [by rewrite app_nil_r|simpl in Hl; lia].
  - destruct k as [|x [|y k]]; [by rewrite app_nil_r|done|].
    injection Hk as <- <- ->. by destruct (proj1 (contains_false _ _) Hm k b).
Qed.

Lemma rfind_member last name m : member_split last name m → rfind OBJ_SEP last = Some (length name).
Proof.
  intros (-> & _ & _ & Hm). destruct (rfind_last OBJ_SEP name m) as (j & Hj & Hle). rewrite Hj.
  pose proof (rfind_Some _ _ _ Hj) as Hs.
  pose proof (occurrence_bound OBJ_SEP _ j ltac:(done) Hs) as Hb.
  assert (length (take j (name ++ OBJ_SEP ++ m)) = j) as Hlen by (rewrite length_take; lia).
  rewrite <-Hlen. f_equal. f_equal. by eapply rfind_obj_unique; [exact Hs|lia|].
Qed.

Lemma member_split_unique last name m name' m' :
  member_split last name m → member_split last name' m' → name = name' ∧ m = m'.
Proof.
  intros H H'. pose proof (rfind_member _ _ _ H) as E. rewrite (rfind_member _ _ _ H') in E.
  injection E as E. destruct H as (-> & _), H' as (H' & _).
  by apply app_inj_1 in H' as [-> ?%app_inv_head].
Qed.

(** The last component of a path is what follows its last [/]. *)
Lemma last_component_unique dir last dir' last' :
  dir ++ last = dir' ++ last' → (SLASH ∉ last) → (SLASH ∉ last') →
  ends_with DIR_INDEX_SUF dir = true → ends_with DIR_INDEX_SUF dir' = true →
  dir = dir' ∧ last = last'.
Proof.
  intros H Hl Hl' (d & ->)%ends_with_true (d' & ->)%ends_with_true.
  rewrite <-!app_assoc in H. unfold DIR_INDEX_SUF in *.
  apply app_eq_inv in H as [(k & -> & Hk)|(k & -> & Hk)]; destruct k as [|x k]; simpl in Hk.
  1,3: injection Hk as ->; by rewrite ?app_nil_r.
  - injection Hk as <- ->. destruct Hl'. apply elem_of_app. right. left.
  - injection Hk as <- ->. destruct Hl. apply elem_of_app. right. left.
Qed.

(** The answer of [split_index], forwards. *)
Lemma split_index_exact path parent m kind :
  abs_path path → split_index path = (parent, m, kind) →
  ∃ dir last, path = dir ++ last ∧ ends_with DIR_INDEX_SUF dir = true ∧ (SLASH ∉ last) ∧
    match kind with
    | SepDict => ∃ name, member_split last name m ∧ parent = dir ++ name ++ OBJ_SEP
    | SepDir => parent = dir ∧ m = last ∧ ∀ name m', ¬ member_split last name m'
    end.
Proof.
  intros Habs H. pose proof (split_index_spec _ _ _ _ Habs H) as (Hp & Hm & Hk).
  destruct kind.
  - exists parent, m. split_and!; try done. intros name m' Hms.
    rewrite split_index_eq in H. destruct (parent_dir path) as [dir last] eqn:E.
    destruct (parent_dir_spec _ _ _ Habs E) as (Hpath & Hnot & Hdir).
    pose proof (rfind_member _ _ _ Hms) as Hr. destruct Hms as (Hlast & Hne & Hne' & _).
    assert (last = m) as Hlm.
    { by apply (last_component_unique dir last parent m); rewrite <-?Hpath. }
    rewrite Hlm, Hr in H. destruct (length name) as [|i] eqn:El; [by destruct name|].
    cbv zeta in H. case_decide as Hd; [|done]. rewrite Hlast, <-El, app_assoc in Hd.
    by rewrite drop_app_length' in Hd by (by rewrite length_app).
  - destruct Hk as (Hne & Hc & dir & name & -> & Hn & Hns & Hd).
    exists dir, (name ++ OBJ_SEP ++ m). split_and!; [by rewrite Hp, <-!app_assoc|done| |].
    + rewrite !elem_of_app. intros [?|[Hs|?]]; try done. by apply list_elem_of_In in Hs as [?|[?|[]]].
    + exists name. by split_and!.
Qed.

(** ** Properties *)

(** C4. [split_index] of a canonical absolute key, exactly: cut the key after its last [/] into a
    directory and a last component.  When the component has a non-empty member name after its
    last [·], and something before it, the answer is that member name, [SepDict] and the [·]
    directory of the container; in every other case it is the whole component, [SepDir] and the
    [/] directory. *)
Theorem split_index_partition path parent m kind :
  abs_path path →
  split_index path = (parent, m, kind) ↔
  ∃ dir last, path = dir ++ last ∧ ends_with DIR_INDEX_SUF dir = true ∧ (SLASH ∉ last) ∧
    match kind with
    | SepDict => ∃ name, member_split last name m ∧ parent = dir ++ name ++ OBJ_SEP
    | SepDir => parent = dir ∧ m = last ∧ ∀ name m', ¬ member_split last name m'
    end.
Proof.
  intros Habs. split; [by apply split_index_exact|].
  intros (dir & last & -> & Hd & Hl & Hk).
  destruct (split_index (dir ++ last)) as [[parent' m'] kind'] eqn:E.
  apply split_index_exact in E as (dir' & last' & Heq & Hd' & Hl' & Hk'); [|done].
  destruct (last_component_unique _ _ _ _ Heq Hl Hl' Hd Hd') as [<- <-].
  destruct kind, kind'.
  - by destruct Hk as (-> & -> & _), Hk' as (-> & -> & _).
  - destruct Hk as (_ & _ & Hno), Hk' as (name & Hm & _). by destruct (Hno _ _ Hm).
  - destruct Hk' as (_ & _ & Hno), Hk as (name & Hm & _). by destruct (Hno _ _ Hm).
  - destruct Hk as (name & Hm & ->), Hk' as (name' & Hm' & ->).
    by destruct (member_split_unique _ _ _ _ _ Hm Hm') as [<- <-].
Qed.

Lemma split_index_partition_witness :
  split_index "/v/m·[0,1]"%rs = ("/v/m·"%rs, "[0,1]"%rs, SepDict) ∧
  ∃ dir last, "/v/m·[0,1]"%rs = dir ++ last ∧ ends_with DIR_INDEX_SUF dir = true ∧
    (SLASH ∉ last) ∧
    ∃ name, member_split last name "[0,1]"%rs ∧ "/v/m·"%rs = dir ++ name ++ OBJ_SEP.
Proof.
  split; [vm_compute; reflexivity|].
  apply (split_index_partition "/v/m·[0,1]"%rs _ _ SepDict);
    [split; vm_compute; reflexivity|vm_compute; reflexivity].
Defined.
