(* ===== verification/Coord.v ===== *)
(** * Coordinate segments: [src/src/coord.rs]

    The member names [[s0,s1,...]] of a string-keyed map: printing, parsing, the structural test
    and the order in which listings present names. *)

From S2P Require Import Prelude RustInt RustStr RustText.
Local Open Scope Z_scope.
Implicit Types (name : str) (dims coords : list Z).

Definition COMMA : byte := Byte.x2c.
Definition LBRACKET : byte := Byte.x5b.
Definition RBRACKET : byte := Byte.x5d.

Definition format_coord coords : str :=
  [LBRACKET] ++ join [COMMA] (show_z <$> coords) ++ [RBRACKET].

Definition parse_coord name : option (list Z) :=
  rest ← strip_prefix [LBRACKET] name;
  inner ← strip_suffix [RBRACKET] rest;
  if decide (inner = []) then None
  else
    mapM (λ p, if bool_decide (p = []) || negb (forallb is_digit p) then None else parse_s 64 p)
      (split_byte COMMA inner).

Definition is_coord name : bool :=
  (3 <=? length name)%nat && starts_with [LBRACKET] name && ends_with [RBRACKET] name &&
  negb (let inner := take (length name - 2) (drop 1 name) in
        bool_decide (LBRACKET ∈ inner) || bool_decide (RBRACKET ∈ inner)).

Definition cmp_coord (a b : str) : comparison :=
  match is_coord a, is_coord b with
  | false, false => str_cmp a b
  | false, true => Gt
  | true, false => Lt
  | true, true =>
      match parse_coord a, parse_coord b with
      | Some x, Some y => list_cmp Z.compare x y
      | Some _, None => Lt
      | None, Some _ => Gt
      | None, None => str_cmp a b
      end
  end.

(** [v as i32 + 1] *)
Definition coord_extent (v : Z) : Z := wrap_s 32 (wrap_s 32 v + 1).

(** One round of the loop of [grow_coord_dims]. *)
Definition grow_step (d : list Z) name : list Z :=
  match parse_coord name with
  | Some co =>
      let d := match d with [] => replicate (length co) 0 | _ => d end in
      if (length co =? length d)%nat then zip_with (λ x v, Z.max x (coord_extent v)) d co else d
  | None => d
  end.

Definition grow_coord_dims dims (names : list str) : list Z :=
  match foldl grow_step dims names with
  | [] => [wrap_s 32 (Z.of_nat (length names))]
  | d => d
  end.

(** [v.sort_by(|a, b| cmp_coord(a, b))]: a stable sort. *)
Definition coord_le (a b : str) : Prop := cmp_coord a b ≠ Gt.
#[export] Instance coord_le_decision : RelDecision coord_le.
Proof. intros a b. unfold coord_le. destruct (cmp_coord a b); [left|left|right]; congruence. Defined.
Definition sort_names (l : list str) : list str := merge_sort coord_le l.

(** ** Lemmas *)

(** The rank of a name: integer coordinates, other coordinates, everything else. *)
Definition coord_key name : (list Z + str) + str :=
  if is_coord name then
    match parse_coord name with Some x => inl (inl x) | None => inl (inr name) end
  else inr name.

Definition key_cmp (x y : (list Z + str) + str) : comparison :=
  match x, y with
  | inl (inl a), inl (inl b) => list_cmp Z.compare a b
  | inl (inl _), _ => Lt
  | inl (inr _), inl (inl _) => Gt
  | inl (inr a), inl (inr b) => str_cmp a b
  | inl (inr _), inr _ => Lt
  | inr a, inr b => str_cmp a b
  | inr _, _ => Gt
  end.

Lemma cmp_coord_key (a b : str) : cmp_coord a b = key_cmp (coord_key a) (coord_key b).
Proof.
  unfold cmp_coord, coord_key.
  destruct (is_coord a), (is_coord b); try done;
    repeat match goal with |- context [parse_coord ?x] => destruct (parse_coord x) end; done.
Qed.

#[export] Instance key_cmp_strict : StrictCmp key_cmp.
Proof.
  split; [split|].
  - intros [[x|x]|x] [[y|y]|y]; simpl; try done;
      [apply (cmp_opp (cmp:=list_cmp Z.compare))|apply (cmp_opp (cmp:=str_cmp))..].
  - intros [[x|x]|x] [[y|y]|y] [[z|z]|z]; simpl; try done;
      [apply (cmp_trans (cmp:=list_cmp Z.compare))|apply (cmp_trans (cmp:=str_cmp))..].
  - intros [[x|x]|x] [[y|y]|y]; simpl; try done; intros H; do 2 f_equal; by apply cmp_eq in H.
Qed.

#[export] Instance cmp_coord_total : TotalCmp cmp_coord.
Proof.
  split.
  - intros x y. rewrite !cmp_coord_key. apply (cmp_opp (cmp:=key_cmp)).
  - intros x y z. rewrite !cmp_coord_key. apply (cmp_trans (cmp:=key_cmp)).
Qed.

#[export] Instance coord_le_total : Total coord_le.
Proof.
  intros x y. unfold coord_le. rewrite (cmp_opp (cmp:=cmp_coord) x y).
  destruct (cmp_coord x y); simpl; auto.
Qed.

#[export] Instance coord_le_trans : Transitive coord_le.
Proof. intros x y z. apply (cmp_trans (cmp:=cmp_coord)). Qed.

(** *** Printing and parsing *)

Lemma digits_no_byte (c : byte) (s : str) :
  is_digit c = false → Forall (λ b, is_digit b = true) s → c ∉ s.
Proof. intros Hc Hs Hin. rewrite Forall_forall in Hs. specialize (Hs _ Hin). congruence. Qed.

Definition nat_coord (c : Z) : Prop := 0 <= c < 2 ^ 63.

Lemma show_z_nat c :
  nat_coord c → show_z c = show_u c ∧ show_z c ≠ [] ∧ Forall (λ b, is_digit b = true) (show_z c) ∧
  parse_s 64 (show_z c) = Some c.
Proof.
  unfold nat_coord. intros Hc.
  assert (show_z c = show_u c) as E.
  { unfold show_z. by destruct (Z.ltb_spec c 0); [lia|]. }
  destruct (show_u_spec c) as (Hne & Hd & _); [lia|].
  rewrite E. split_and!; [done..|]. rewrite <-E. apply parse_show_s; [lia|].
  unfold in_s. simpl. lia.
Qed.

Lemma format_inner_digits coords :
  Forall nat_coord coords →
  Forall (λ b, is_digit b = true ∨ b = COMMA) (join [COMMA] (show_z <$> coords)).
Proof.
  induction 1 as [|c cs Hc Hcs IH]; [constructor|].
  destruct (show_z_nat c Hc) as (_ & _ & Hd & _).
  assert (Forall (λ b, is_digit b = true ∨ b = COMMA) (show_z c)) as Hd'.
  { eapply Forall_impl; [exact Hd|]. auto. }
  destruct cs as [|c' cs]; [done|].
  rewrite fmap_cons, join_cons by done. apply Forall_app. split; [done|].
  constructor; [by right|done].
Qed.

Lemma format_inner_ne coords :
  coords ≠ [] → Forall nat_coord coords → join [COMMA] (show_z <$> coords) ≠ [].
Proof.
  intros Hne Hc. destruct Hc as [|c cs Hc Hcs]; [done|].
  destruct (show_z_nat c Hc) as (_ & Hne' & _).
  destruct cs as [|c' cs]; [done|]. rewrite fmap_cons, join_cons by done.
  by destruct (show_z c).
Qed.

Lemma parse_format coords :
  coords ≠ [] → Forall nat_coord coords → parse_coord (format_coord coords) = Some coords.
Proof.
  intros Hne Hc. unfold parse_coord, format_coord. rewrite strip_prefix_app.
  cbn [mbind option_bind]. rewrite strip_suffix_app. cbn [mbind option_bind].
  rewrite decide_False by (by apply format_inner_ne).
  rewrite split_join; [|by destruct coords|].
  - clear Hne. induction Hc as [|c cs Hc Hcs IH]; [done|].
    destruct (show_z_nat c Hc) as (_ & Hne & Hd & Hp).
    rewrite fmap_cons. cbn [mapM]. rewrite bool_decide_false by done.
    assert (forallb is_digit (show_z c) = true) as ->.
    { apply forallb_forall. rewrite Forall_forall in Hd. intros b Hb.
      apply Hd. by apply list_elem_of_In. }
    cbn [negb orb]. rewrite Hp. cbn [mbind option_bind]. rewrite IH. done.
  - apply Forall_fmap. eapply Forall_impl; [exact Hc|]. intros c H. simpl.
    apply digits_no_byte; [done|]. by apply show_z_nat.
Qed.

Lemma is_coord_format coords :
  coords ≠ [] → Forall nat_coord coords → is_coord (format_coord coords) = true.
Proof.
  intros Hne Hc. unfold is_coord, format_coord.
  pose proof (format_inner_digits _ Hc) as Hd. pose proof (format_inner_ne _ Hne Hc) as Hi.
  set (inner := join [COMMA] (show_z <$> coords)) in *.
  rewrite starts_with_app. rewrite app_assoc at 1. rewrite (app_assoc [LBRACKET] inner [RBRACKET]).
  rewrite ends_with_app. rewrite !length_app. cbn [length].
  assert (take (1 + length inner + 1 - 2) (drop 1 (([LBRACKET] ++ inner) ++ [RBRACKET])) = inner) as ->.
  { rewrite <-app_assoc. cbn [app drop]. replace (1 + length inner + 1 - 2)%nat with (length inner) by lia.
    apply take_app_length. }
  assert (∀ c, is_digit c = false → c ≠ COMMA → c ∉ inner) as Hnot.
  { intros c H1 H2 Hin. rewrite Forall_forall in Hd. destruct (Hd _ Hin); congruence. }
  rewrite !bool_decide_false by (by apply Hnot). destruct inner; [done|]. cbn [length].
  destruct (Nat.leb_spec 3 (1 + S (length inner) + 1)); [done|lia].
Qed.

(** *** Growing the dimensions *)

Lemma parse_coord_ne name co : parse_coord name = Some co → co ≠ [].
Proof.
  unfold parse_coord. destruct (strip_prefix _ _) as [rest|]; [|done]. cbn [mbind option_bind].
  destruct (strip_suffix _ _) as [inner|]; [|done]. cbn [mbind option_bind].
  case_decide; [done|]. intros Hm%length_mapM ->.
  pose proof (split_byte_ne COMMA inner). by destruct (split_byte COMMA inner).
Qed.

Lemma coord_extent_gt v : 0 <= v < I32_MAX → coord_extent v = v + 1.
Proof.
  unfold I32_MAX. intros H. unfold coord_extent.
  rewrite (wrap_s_id 32 v) by (unfold in_s; simpl; lia).
  apply wrap_s_id; unfold in_s; simpl; lia.
Qed.

Lemma grow_step_length d name : d ≠ [] → length (grow_step d name) = length d.
Proof.
  intros Hd. unfold grow_step. destruct (parse_coord name) as [co|]; [|done].
  destruct d as [|x d]; [done|]. destruct (Nat.eqb_spec (length co) (length (x :: d))) as [E|]; [|done].
  rewrite length_zip_with. lia.
Qed.

Lemma zip_max_le (d co : list Z) :
  length co = length d → Forall2 Z.le d (zip_with (λ x v, Z.max x (coord_extent v)) d co).
Proof.
  revert co. induction d as [|x d IH]; intros [|v co] H; simplify_eq/=; [constructor|].
  constructor; [lia|by apply IH].
Qed.

Lemma grow_step_mono d name : d ≠ [] → Forall2 Z.le d (grow_step d name).
Proof.
  intros Hd. assert (Forall2 Z.le d d) by (by apply Forall2_same_length_lookup_2; [|naive_solver lia]).
  unfold grow_step. destruct (parse_coord name) as [co|]; [|done].
  destruct d as [|x d]; [done|]. destruct (Nat.eqb_spec (length co) (length (x :: d))); [|done].
  by apply zip_max_le.
Qed.

Lemma grow_fold_mono names d :
  d ≠ [] → Forall2 Z.le d (foldl grow_step d names) ∧ length (foldl grow_step d names) = length d.
Proof.
  revert d. induction names as [|n names IH]; intros d Hd; simpl.
  - split; [|done]. apply Forall2_same_length_lookup_2; [done|]. naive_solver lia.
  - assert (Hne : grow_step d n ≠ []).
    { intros E. apply (f_equal length) in E. rewrite grow_step_length in E by done. by destruct d. }
    destruct (IH _ Hne) as [H1 H2]. split.
    + etrans; [by apply grow_step_mono|done].
    + by rewrite H2, grow_step_length.
Qed.

Lemma zip_max_gt (d co : list Z) :
  length co = length d → Forall (λ v, 0 <= v < I32_MAX) co →
  Forall2 Z.lt co (zip_with (λ x v, Z.max x (coord_extent v)) d co).
Proof.
  revert co. induction d as [|x d IH]; intros [|v co] H Hco; simplify_eq/=; [constructor|].
  apply Forall_cons in Hco as [Hv Hco]. constructor; [rewrite coord_extent_gt by done; lia|by apply IH].
Qed.

Lemma grow_step_covers d name co :
  parse_coord name = Some co → Forall (λ v, 0 <= v < I32_MAX) co →
  length co = length (grow_step d name) → Forall2 Z.lt co (grow_step d name).
Proof.
  intros Hp Hco. pose proof (parse_coord_ne _ _ Hp) as Hne. unfold grow_step. rewrite Hp.
  set (d' := match d with [] => _ | _ => _ end).
  destruct (Nat.eqb_spec (length co) (length d')) as [E|E]; [|done].
  intros _. by apply zip_max_gt.
Qed.

Lemma grow_step_ne d name co : parse_coord name = Some co → grow_step d name ≠ [].
Proof.
  intros Hp. pose proof (parse_coord_ne _ _ Hp) as Hne. unfold grow_step. rewrite Hp.
  destruct d as [|x d].
  - rewrite length_replicate, Nat.eqb_refl. by destruct co.
  - destruct (length co =? length (x :: d))%nat; [|done]. by destruct co.
Qed.

Lemma grow_fold_covers names d name co :
  name ∈ names → parse_coord name = Some co → Forall (λ v, 0 <= v < I32_MAX) co →
  length co = length (foldl grow_step d names) → Forall2 Z.lt co (foldl grow_step d names).
Proof.
  intros Hin Hp Hco. revert d. induction names as [|n names IH]; intros d; [by apply elem_of_nil in Hin|].
  simpl. apply elem_of_cons in Hin as [<-|Hin]; [|by apply IH].
  pose proof (grow_step_ne d name co Hp) as Hne.
  destruct (grow_fold_mono names _ Hne) as [Hle Hlen]. rewrite Hlen. intros Hl.
  eapply Forall2_trans; [|by apply grow_step_covers|exact Hle]. lia.
Qed.

(** ** Properties *)

(** Coordinate segments round-trip: every non-empty list of non-negative [i64] coordinates
    prints to a name that the structural test accepts and that parses back to the list. *)
Theorem coord_roundtrip coords :
  coords ≠ [] → Forall (λ c, 0 <= c < 2 ^ 63) coords →
  is_coord (format_coord coords) = true ∧ parse_coord (format_coord coords) = Some coords.
Proof. intros. split; [by apply is_coord_format|by apply parse_format]. Qed.

Lemma coord_roundtrip_witness :
  format_coord [0; 17; 9223372036854775807] = "[0,17,9223372036854775807]"%rs ∧
  is_coord (format_coord [0; 17; 9223372036854775807]) = true ∧
  parse_coord (format_coord [0; 17; 9223372036854775807]) = Some [0; 17; 9223372036854775807].
Proof.
  split; [vm_compute; reflexivity|].
  apply coord_roundtrip; [discriminate|repeat constructor; vm_compute; congruence].
Defined.

(** C5. Listings are ordered: [cmp_coord] is a total preorder (antisymmetric up to [Eq] and
    transitive), integer coordinates compare numerically and row-major, whatever the decimal
    lengths, and come before every name that is not a coordinate segment; sorting with it gives
    a sorted permutation. *)
Theorem cmp_coord_order :
  TotalCmp cmp_coord ∧
  (∀ x y, x ≠ [] → y ≠ [] → Forall nat_coord x → Forall nat_coord y →
     cmp_coord (format_coord x) (format_coord y) = list_cmp Z.compare x y) ∧
  (∀ x b, x ≠ [] → Forall nat_coord x → is_coord b = false → cmp_coord (format_coord x) b = Lt) ∧
  (∀ l, Sorted coord_le (sort_names l) ∧ sort_names l ≡ₚ l).
Proof.
  split_and!.
  - apply _.
  - intros x y Hx Hy Hnx Hny. unfold cmp_coord.
    by rewrite !is_coord_format, !parse_format by done.
  - intros x b Hx Hnx Hb. unfold cmp_coord. by rewrite is_coord_format, Hb by done.
  - intros l. split; [apply Sorted_merge_sort, _|apply merge_sort_Permutation].
Qed.

(** The order is not antisymmetric on names: a leading zero makes two names compare equal. *)
Example cmp_coord_leading_zero :
  cmp_coord "[01]"%rs "[1]"%rs = Eq ∧ "[01]"%rs ≠ "[1]"%rs.
Proof. split; [vm_compute; reflexivity|discriminate]. Qed.

(** [grow_coord_dims] gives dimensions that hold every member: the result is never empty, it
    keeps the rank of non-empty input dimensions and never shrinks one, and every name that
    parses to coordinates of that rank below [i32::MAX] lies strictly inside. *)
Theorem grow_coord_dims_covers dims names :
  let d := grow_coord_dims dims names in
  d ≠ [] ∧
  (dims ≠ [] → Forall2 Z.le dims d ∧ length d = length dims) ∧
  (∀ name co, name ∈ names → parse_coord name = Some co → length co = length d →
     Forall (λ v, 0 <= v < I32_MAX) co → Forall2 Z.lt co d).
Proof.
  cbv zeta. unfold grow_coord_dims.
  destruct (foldl grow_step dims names) as [|x d] eqn:E; split_and!; try done.
  - intros Hd. destruct (grow_fold_mono names dims Hd) as [_ Hl]. rewrite E in Hl. by destruct dims.
  - intros name co Hin Hp _ _. exfalso. clear -E Hin Hp.
    revert dims E. induction names as [|n names IH]; intros dims E; [by apply elem_of_nil in Hin|].
    simpl in E. apply elem_of_cons in Hin as [<-|Hin]; [|by eapply IH].
    pose proof (grow_step_ne dims name co Hp) as Hne.
    destruct (grow_fold_mono names _ Hne) as [_ Hl]. rewrite E in Hl.
    by destruct (grow_step dims name).
  - intros Hd. destruct (grow_fold_mono names dims Hd) as [Hm Hl]. by rewrite E in Hm, Hl.
  - intros name co Hin Hp Hl Hco. rewrite <-E in *. by apply (grow_fold_covers _ _ name).
Qed.
