(* ===== verification/XValue.v ===== *)
(** * Values: [src/src/xvalue.rs] and [src/src/xvalue_{bool,byte,float,int,uint}.rs]

    The [XValue] enum, the head a reader sees ([XValueHead]) and the two wire conversions.  A
    float is its bit pattern (the wire uses [to_bits]/[from_bits] only).  [i32] products wrap,
    as in the release build. *)

From S2P Require Import Prelude RustInt RustStr RustText HeadLenPow KPath.
Local Open Scope Z_scope.
Implicit Types (kind langtype : str) (dims : list Z) (raw data body : bytes).

(** ** Kinds and references *)

Definition KIND_NONE : str := "None"%rs.
Definition KIND_BOOL : str := "bool"%rs.
Definition KIND_INT8 : str := "int8"%rs.
Definition KIND_UINT8 : str := "uint8"%rs.
Definition KIND_CHAR : str := "char/utf32"%rs.
Definition KIND_CHAR_UTF8 : str := "char/utf8"%rs.
Definition KIND_CHAR_ASCII : str := "char/ascii"%rs.
Definition KIND_INT16 : str := "int16"%rs.
Definition KIND_UINT16 : str := "uint16"%rs.
Definition KIND_INT32 : str := "int32"%rs.
Definition KIND_UINT32 : str := "uint32"%rs.
Definition KIND_FLOAT32 : str := "float32"%rs.
Definition KIND_INT64 : str := "int64"%rs.
Definition KIND_UINT64 : str := "uint64"%rs.
Definition KIND_FLOAT64 : str := "float64"%rs.

Definition REF_INLINE : Z := 0.
Definition REF_PTR : Z := 1.
Definition REF_EXT : Z := 2.

(** ** Data *)

Record Arr (A : Type) := mkArr { a_data : list A; a_dims : list Z }.
Arguments mkArr {A} _ _.
Arguments a_data {A} _.
Arguments a_dims {A} _.

Record MapValue := mkMap { m_langtype : str }.
Record ExtHandle := mkExt { e_langtype : str; e_locator : str }.
Record Ptr := mkPtr { p_target_kindexpr : str; p_target : str }.
Record Opaque_ := mkOpaque { o_kind : str; o_body : bytes; o_array_len : Z }.

Inductive XValue :=
  | XNone
  | XPtr (p : Ptr)
  | XBool (d : Arr bool)
  | XInt8 (d : Arr Z)
  | XInt16 (d : Arr Z)
  | XInt32 (d : Arr Z)
  | XInt64 (d : Arr Z)
  | XUint8 (d : Arr Z)
  | XUint16 (d : Arr Z)
  | XUint32 (d : Arr Z)
  | XUint64 (d : Arr Z)
  | XFloat32 (d : Arr Z)
  | XFloat64 (d : Arr Z)
  | XCharByte (d : Arr Z)
  | XCharAscii (d : Arr Z)
  | XChar32 (d : Arr Z)
  | XMap (m : MapValue)
  | XExt (e : ExtHandle)
  | XOpaque (o : Opaque_).

Record XValueHead := mkXHead {
  x_headlen : Z;
  x_ref : Z;
  x_storetype : Z;
  x_langtype : str;
  x_phys_dims : list Z;
  x_body_len : Z;
  x_body_cap : Z;
}.

Definition default_head : XValueHead := mkXHead 0 0 0 [] [] 0 0.

(** ** Kind expressions *)

Definition is_map_langtype kind : bool := contains OBJ_SEP kind.

Definition parse_kindexpr (s : str) : list Z * str :=
  if contains OBJ_SEP s then ([], s)
  else if starts_with "["%rs s then
    match find "]"%rs s with
    | Some end_ =>
        let inner := take (end_ - 1) (drop 1 s) in
        if forallb is_dim (split_byte Byte.x2c inner) then
          ((λ d, default 0 (parse_s 32 d)) <$> filter (λ d, d ≠ []) (split_byte Byte.x2c inner),
           drop (end_ + 1) s)
        else ([], s)
    | None => ([], s)
    end
  else ([], s).

Definition kindexpr_of kind dims : str :=
  match dims with
  | [] => kind
  | _ => "["%rs ++ join ","%rs (show_z <$> dims) ++ "]"%rs ++ kind
  end.

Definition array_to_header kind (array_len : Z) : list Z :=
  if starts_with "char/"%rs kind then [Z.max array_len 0]
  else if 1 <? array_len then [array_len] else [].

Definition dims_from_len (n : Z) : list Z := if 1 <? n then [wrap_s 32 n] else [].
Definition char_dims (n : Z) : list Z := [wrap_s 32 n].

(** [phys_dims.iter().product()] *)
Definition dims_product dims : Z := foldl (λ p d, wrap_s 32 (p * d)) 1 dims.

(** ** Elements *)

(** [body.chunks_exact(n)]: every chunk spans [n > 0] bytes, so [length body] rounds suffice. *)
Fixpoint chunks_exact_fuel (fuel n : nat) body : list bytes :=
  match fuel with
  | O => []
  | S fuel =>
      if (n <=? length body)%nat then take n body :: chunks_exact_fuel fuel n (drop n body)
      else []
  end.
Definition chunks_exact (n : nat) body : list bytes := chunks_exact_fuel (length body) n body.

Definition bool_from_wire body dims : Arr bool := mkArr ((λ b, negb (byte_val b =? 0)) <$> body) dims.
Definition uint8_from_wire body dims : Arr Z := mkArr (byte_val <$> body) dims.
Definition int8_from_wire body dims : Arr Z := mkArr ((λ b, wrap_s 8 (byte_val b)) <$> body) dims.
Definition char_byte_from_wire body dims : Arr Z := mkArr (byte_val <$> body) dims.
Definition char_ascii_from_wire body dims : Arr Z := mkArr (byte_val <$> body) dims.

(** [chunks_exact(n).map(uN::from_le_bytes)] and the signed counterpart. *)
Definition uints_from_wire (n : nat) body dims : Arr Z := mkArr (le_val <$> chunks_exact n body) dims.
Definition ints_from_wire (n : nat) body dims : Arr Z :=
  mkArr ((λ c, wrap_s (8 * Z.of_nat n) (le_val c)) <$> chunks_exact n body) dims.

Definition int16_from_wire := ints_from_wire 2.
Definition int32_from_wire := ints_from_wire 4.
Definition int64_from_wire := ints_from_wire 8.
Definition uint16_from_wire := uints_from_wire 2.
Definition uint32_from_wire := uints_from_wire 4.
Definition uint64_from_wire := uints_from_wire 8.
Definition float32_from_wire := uints_from_wire 4.
Definition float64_from_wire := uints_from_wire 8.
Definition char32_from_wire := uints_from_wire 4.

(** [data.iter().flat_map(|v| (v as uN).to_le_bytes())] *)
Definition elems_to_bytes (n : nat) (xs : list Z) : bytes := concat (le_bytes n <$> xs).

(** ** Writing *)

Definition to_wire_head kind (ref : Z) dims raw : bytes :=
  let base := if decide (kind = KIND_NONE) then [] else kindexpr_of kind dims in
  let r := wrap_u 8 ref in
  if r =? REF_INLINE then default [] (HeadLenPow.to_wire raw base)
  else if r =? REF_PTR then default [] (HeadLenPow.to_wire raw ("*"%rs ++ base))
  else if r =? REF_EXT then default [] (HeadLenPow.to_wire raw ("@"%rs ++ base))
  else [].

Definition xvalue_to_wire kind raw (array_len : Z) : bytes :=
  to_wire_head kind 0 (array_to_header kind array_len) raw.

Definition xvalue_to_wire_ptr (target_kindexpr : str) raw : bytes :=
  let langtype := if starts_with "*"%rs target_kindexpr then target_kindexpr
                  else "*"%rs ++ target_kindexpr in
  default [] (HeadLenPow.to_wire raw langtype).

Definition bool_to_wire (d : Arr bool) : bytes :=
  to_wire_head KIND_BOOL 0 (a_dims d) ((λ b, if b : bool then Byte.x01 else Byte.x00) <$> a_data d).

(** The body shared by [int8_to_wire] ... [char32_to_wire]. *)
Definition elems_to_wire kind (n : nat) (d : Arr Z) : bytes :=
  to_wire_head kind 0 (a_dims d) (elems_to_bytes n (a_data d)).

Definition int8_to_wire := elems_to_wire KIND_INT8 1.
Definition int16_to_wire := elems_to_wire KIND_INT16 2.
Definition int32_to_wire := elems_to_wire KIND_INT32 4.
Definition int64_to_wire := elems_to_wire KIND_INT64 8.
Definition uint8_to_wire := elems_to_wire KIND_UINT8 1.
Definition uint16_to_wire := elems_to_wire KIND_UINT16 2.
Definition uint32_to_wire := elems_to_wire KIND_UINT32 4.
Definition uint64_to_wire := elems_to_wire KIND_UINT64 8.
Definition float32_to_wire := elems_to_wire KIND_FLOAT32 4.
Definition float64_to_wire := elems_to_wire KIND_FLOAT64 8.
Definition char_byte_to_wire := elems_to_wire KIND_CHAR_UTF8 1.
Definition char_ascii_to_wire := elems_to_wire KIND_CHAR_ASCII 1.
Definition char32_to_wire := elems_to_wire KIND_CHAR 4.

Definition to_wire (v : XValue) : bytes :=
  match v with
  | XNone => to_wire_head "None"%rs 0 [] []
  | XPtr p => xvalue_to_wire_ptr (p_target_kindexpr p) (p_target p)
  | XBool d => bool_to_wire d
  | XInt8 d => int8_to_wire d
  | XInt16 d => int16_to_wire d
  | XInt32 d => int32_to_wire d
  | XInt64 d => int64_to_wire d
  | XUint8 d => uint8_to_wire d
  | XUint16 d => uint16_to_wire d
  | XUint32 d => uint32_to_wire d
  | XUint64 d => uint64_to_wire d
  | XFloat32 d => float32_to_wire d
  | XFloat64 d => float64_to_wire d
  | XCharByte d => char_byte_to_wire d
  | XCharAscii d => char_ascii_to_wire d
  | XChar32 d => char32_to_wire d
  | XMap m => to_wire_head (m_langtype m) 0 [] []
  | XExt e => to_wire_head (e_langtype e) 2 [] (e_locator e)
  | XOpaque o => xvalue_to_wire (o_kind o) (o_body o) (o_array_len o)
  end.

(** ** Reading *)

Definition from_wire_head data : XValueHead :=
  match HeadLenPow.from_wire data with
  | None => default_head
  | Some h =>
      match try_i32 (h_len h) with
      | None => default_head
      | Some body_len =>
          let langtype := from_utf8_lossy (h_langtype h) in
          let ref := match h_reference h with
                     | RefNone => REF_INLINE | RefPointer => REF_PTR | RefExtension => REF_EXT
                     end in
          mkXHead PREFIX ref 0 langtype (fst (parse_kindexpr langtype)) body_len (h_len h)
      end
  end.

Definition head_is_ptr (h : XValueHead) : bool := x_ref h =? REF_PTR.
Definition head_kind (h : XValueHead) : str := snd (parse_kindexpr (x_langtype h)).
Definition head_array_len (h : XValueHead) : Z :=
  match x_phys_dims h with [] => 1 | ds => dims_product ds end.

(** [XValueHead::body] *)
Definition head_body (h : XValueHead) data : bytes :=
  if Z.of_nat (length data) <? x_headlen h + x_body_len h then []
  else slice (x_headlen h) (x_headlen h + x_body_len h) data.

(** [XValueHead::from_wire] *)
Definition head_from_wire (h : XValueHead) body : XValue :=
  if head_is_ptr h then
    XPtr (mkPtr (default (x_langtype h) (strip_prefix "*"%rs (x_langtype h))) (from_utf8_lossy body))
  else if x_ref h =? REF_EXT then
    XExt (mkExt (default (x_langtype h) (strip_prefix "@"%rs (x_langtype h))) (from_utf8_lossy body))
  else
    let kind := head_kind h in
    let dims := x_phys_dims h in
    if is_map_langtype kind then XMap (mkMap kind)
    else if decide (kind = KIND_BOOL) then XBool (bool_from_wire body dims)
    else if decide (kind = KIND_INT8) then XInt8 (int8_from_wire body dims)
    else if decide (kind = KIND_INT16) then XInt16 (int16_from_wire body dims)
    else if decide (kind = KIND_INT32) then XInt32 (int32_from_wire body dims)
    else if decide (kind = KIND_INT64) then XInt64 (int64_from_wire body dims)
    else if decide (kind = KIND_UINT8) then XUint8 (uint8_from_wire body dims)
    else if decide (kind = KIND_UINT16) then XUint16 (uint16_from_wire body dims)
    else if decide (kind = KIND_UINT32) then XUint32 (uint32_from_wire body dims)
    else if decide (kind = KIND_UINT64) then XUint64 (uint64_from_wire body dims)
    else if decide (kind = KIND_FLOAT32) then XFloat32 (float32_from_wire body dims)
    else if decide (kind = KIND_FLOAT64) then XFloat64 (float64_from_wire body dims)
    else if decide (kind = KIND_CHAR_UTF8) then XCharByte (char_byte_from_wire body dims)
    else if decide (kind = KIND_CHAR_ASCII) then XCharAscii (char_ascii_from_wire body dims)
    else if decide (kind = KIND_CHAR) then XChar32 (char32_from_wire body dims)
    else XOpaque (mkOpaque kind body (head_array_len h)).

Definition from_wire data : XValue :=
  let h := from_wire_head data in
  if x_headlen h =? 0 then XNone
  else if bool_decide (x_langtype h = []) && (x_ref h =? REF_INLINE) && (x_body_len h =? 0) &&
          (default 1 (attr_len data) =? 0) then XNone
  else head_from_wire h (head_body h data).

(** ** Observers *)

Definition is_none (v : XValue) : bool := match v with XNone => true | _ => false end.
Definition is_ptr (v : XValue) : bool := match v with XPtr _ => true | _ => false end.
Definition ptr_target (v : XValue) : str := match v with XPtr p => p_target p | _ => [] end.

Definition kind_of (v : XValue) : str :=
  match v with
  | XNone => []
  | XPtr p => p_target_kindexpr p
  | XBool _ => KIND_BOOL | XInt8 _ => KIND_INT8 | XInt16 _ => KIND_INT16
  | XInt32 _ => KIND_INT32 | XInt64 _ => KIND_INT64 | XUint8 _ => KIND_UINT8
  | XUint16 _ => KIND_UINT16 | XUint32 _ => KIND_UINT32 | XUint64 _ => KIND_UINT64
  | XFloat32 _ => KIND_FLOAT32 | XFloat64 _ => KIND_FLOAT64
  | XCharByte _ => KIND_CHAR_UTF8 | XCharAscii _ => KIND_CHAR_ASCII | XChar32 _ => KIND_CHAR
  | XMap m => m_langtype m
  | XExt e => e_langtype e
  | XOpaque o => o_kind o
  end.

Definition array_len_of (v : XValue) : Z :=
  match v with
  | XNone => 0
  | XPtr _ | XMap _ | XExt _ => 1
  | XBool d => wrap_s 32 (Z.of_nat (length (a_data d)))
  | XInt8 d | XInt16 d | XInt32 d | XInt64 d | XUint8 d | XUint16 d | XUint32 d | XUint64 d
  | XFloat32 d | XFloat64 d | XCharByte d | XCharAscii d | XChar32 d =>
      wrap_s 32 (Z.of_nat (length (a_data d)))
  | XOpaque o => o_array_len o
  end.

Definition body_bytes (v : XValue) : bytes :=
  if is_none v then []
  else match HeadLenPow.from_wire (to_wire v) with Some h => h_body h | None => [] end.

(** [kvspace_common::equal_xvalue] *)
Definition equal_xvalue (a b : XValue) : bool :=
  bool_decide (kind_of a = kind_of b) && bool_decide (body_bytes a = body_bytes b).

(** ** Constructors *)

Definition new_map_langtype langtype : XValue := XMap (mkMap langtype).
Definition new_ptr (target_kindexpr target : str) : XValue := XPtr (mkPtr target_kindexpr target).
Definition new_bool (v : list bool) : XValue := XBool (mkArr v (dims_from_len (Z.of_nat (length v)))).
Definition new_int64 (v : list Z) : XValue := XInt64 (mkArr v (dims_from_len (Z.of_nat (length v)))).
Definition new_float32 (v : list Z) : XValue := XFloat32 (mkArr v (dims_from_len (Z.of_nat (length v)))).
Definition new_float64 (v : list Z) : XValue := XFloat64 (mkArr v (dims_from_len (Z.of_nat (length v)))).
Definition new_char_byte (v : list Z) : XValue := XCharByte (mkArr v (char_dims (Z.of_nat (length v)))).

(** ** Lemmas: UTF-8 and kind expressions *)

Definition ascii (b : byte) : Prop := byte_val b < 128.

Lemma ascii_valid_fuel fuel s : (length s <= fuel)%nat → Forall ascii s → utf8_valid_fuel fuel s = true.
Proof.
  revert s. induction fuel as [|fuel IH]; intros [|b s] Hl Hs; simpl in Hl; try done; [lia|].
  apply Forall_cons in Hs as [Hb Hs]. unfold ascii in Hb.
  cbn -[utf8_chunk].
  assert (utf8_chunk (b :: s) = (1%nat, true)) as ->.
  { unfold utf8_chunk. destruct (Z.ltb_spec (byte_val b) 128); [done|lia]. }
  change (utf8_valid_fuel fuel s = true). apply IH; [lia|done].
Qed.

Lemma ascii_valid s : Forall ascii s → utf8_valid s = true.
Proof. by apply ascii_valid_fuel. Qed.

Lemma is_digit_ascii b : is_digit b = true → ascii b.
Proof. unfold is_digit, ascii. lia. Qed.

Definition i32 (x : Z) : Prop := in_s 32 x.

Lemma show_z_plain x :
  - 10 ^ 20 < x < 10 ^ 20 → show_z x ≠ [] ∧ Forall (λ b, plain_byte b = true) (show_z x).
Proof.
  intros Hx. unfold show_z, plain_byte. destruct (Z.ltb_spec x 0).
  - destruct (show_u_spec (- x)) as (_ & Hd & _); [lia|]. split; [done|].
    constructor; [done|]. eapply Forall_impl; [exact Hd|]. by intros b ->.
  - destruct (show_u_spec x) as (Hne & Hd & _); [lia|]. split; [done|].
    eapply Forall_impl; [exact Hd|]. by intros b ->.
Qed.

Lemma plain_byte_ascii b : plain_byte b = true → ascii b.
Proof.
  unfold plain_byte. intros [H|H]%orb_true_iff; [by apply is_digit_ascii|].
  apply bool_decide_eq_true in H as ->. done.
Qed.

Lemma i32_show x : i32 x → show_z x ≠ [] ∧ Forall (λ b, plain_byte b = true) (show_z x).
Proof.
  unfold i32, in_s. intros. apply show_z_plain.
  assert (2 ^ (32 - 1) < 10 ^ 20) by done. lia.
Qed.

Lemma is_dim_show x : i32 x → is_dim (show_z x) = true.
Proof.
  intros Hx. destruct (i32_show x Hx) as [Hne Hp]. unfold is_dim. rewrite trim_plain by done.
  rewrite (parse_show_s 32) by (try done; lia). by rewrite orb_true_r.
Qed.

(** A kind that starts no shape, reference or map type. *)
Definition plain_kind kind : Prop :=
  contains OBJ_SEP kind = false ∧ starts_with "["%rs kind = false ∧
  starts_with "*"%rs kind = false ∧ starts_with "@"%rs kind = false.

Lemma ascii_app_no_obj (x k : str) :
  Forall ascii x → contains OBJ_SEP k = false → contains OBJ_SEP (x ++ k) = false.
Proof.
  intros Hx Hk. apply contains_false. intros a b Hab.
  revert a Hab. induction Hx as [|c x Hc Hx IH]; intros a Hab; simpl in Hab.
  - by destruct (proj1 (contains_false _ _) Hk a b).
  - destruct a as [|d a]; simplify_eq/=; [|by apply (IH a)].
    unfold ascii in Hc. vm_compute in Hc. done.
Qed.

Lemma find_byte_app (c : byte) w s : c ∉ w → find [c] (w ++ c :: s) = Some (length w).
Proof.
  induction w as [|b w IH]; simpl.
  - intros _. unfold starts_with. simpl. by rewrite decide_True.
  - rewrite not_elem_of_cons. intros [Hb Hw]. unfold starts_with. simpl.
    rewrite decide_False by done. by rewrite IH.
Qed.

Definition dims_text dims : str := join ","%rs (show_z <$> dims).

Lemma dims_text_bytes dims :
  Forall i32 dims → Forall (λ b, plain_byte b = true ∨ b = Byte.x2c) (dims_text dims).
Proof.
  unfold dims_text. induction 1 as [|d ds Hd Hds IH]; [constructor|].
  destruct (i32_show d Hd) as [_ Hp].
  assert (Forall (λ b, plain_byte b = true ∨ b = Byte.x2c) (show_z d)).
  { eapply Forall_impl; [exact Hp|]. auto. }
  destruct ds as [|d' ds]; [done|]. rewrite fmap_cons, join_cons by done.
  apply Forall_app. split; [done|]. constructor; [by right|done].
Qed.

Lemma dims_text_ascii dims : Forall i32 dims → Forall ascii (dims_text dims).
Proof.
  intros H. eapply Forall_impl; [by apply dims_text_bytes|].
  intros b [Hb | ->]; [by apply plain_byte_ascii|done].
Qed.

Lemma dims_text_no_bracket dims : Forall i32 dims → Byte.x5d ∉ dims_text dims.
Proof.
  intros H Hin. pose proof (dims_text_bytes _ H) as Hf. rewrite Forall_forall in Hf.
  destruct (Hf _ Hin) as [Hb|Hb]; discriminate Hb.
Qed.

Lemma plain_no_comma s : Forall (λ b, plain_byte b = true) s → Byte.x2c ∉ s.
Proof. intros H Hin. rewrite Forall_forall in H. specialize (H _ Hin). discriminate H. Qed.

Lemma split_dims_text dims :
  dims ≠ [] → Forall i32 dims → split_byte Byte.x2c (dims_text dims) = show_z <$> dims.
Proof.
  intros Hne H. apply split_join; [by destruct dims|]. apply Forall_fmap.
  eapply Forall_impl; [exact H|]. intros d Hd. simpl. apply plain_no_comma, i32_show, Hd.
Qed.

Lemma parse_kindexpr_of kind dims :
  plain_kind kind → Forall i32 dims → parse_kindexpr (kindexpr_of kind dims) = (dims, kind).
Proof.
  intros (Hc & Hb & _) Hd. unfold parse_kindexpr, kindexpr_of.
  destruct dims as [|d ds]; [by rewrite Hc, Hb|]. fold (dims_text (d :: ds)).
  set (t := dims_text (d :: ds)) in *.
  assert (Hasc : Forall ascii ("["%rs ++ t ++ "]"%rs)).
  { apply Forall_app. split; [by constructor|]. apply Forall_app.
    split; [by apply dims_text_ascii|by constructor]. }
  pose proof (ascii_app_no_obj _ kind Hasc Hc) as E. rewrite <-!app_assoc in E. rewrite E.
  rewrite starts_with_app.
  assert (find "]"%rs ("["%rs ++ t ++ "]"%rs ++ kind) = Some (S (length t))) as ->.
  { rewrite (app_assoc "["%rs). change ("]"%rs ++ kind) with (Byte.x5d :: kind).
    rewrite (find_byte_app Byte.x5d); [done|]. apply not_elem_of_cons. split; [done|].
    by apply dims_text_no_bracket. }
  assert (take (S (length t) - 1) (drop 1 ("["%rs ++ t ++ "]"%rs ++ kind)) = t) as ->.
  { simpl. rewrite Nat.sub_0_r. apply take_app_length. }
  assert (drop (S (length t) + 1) ("["%rs ++ t ++ "]"%rs ++ kind) = kind) as ->.
  { rewrite !app_assoc. apply drop_app_length'. rewrite !length_app. simpl. lia. }
  unfold t. rewrite split_dims_text by done.
  assert (forallb is_dim (show_z <$> d :: ds) = true) as ->.
  { apply forallb_forall. intros w Hw%list_elem_of_In. apply list_elem_of_fmap in Hw as (x & -> & Hx).
    rewrite Forall_forall in Hd. by apply is_dim_show, Hd. }
  f_equal. rewrite filter_all by
    (apply Forall_fmap; eapply Forall_impl; [exact Hd|]; intros x Hx; by apply i32_show).
  rewrite <-list_fmap_compose. rewrite <-(list_fmap_id (d :: ds)) at 2. apply list_fmap_ext.
  intros i x Hi. simpl. rewrite Forall_lookup in Hd. rewrite (parse_show_s 32); [done|lia|by eapply Hd].
Qed.

(** ** Lemmas: elements *)

Lemma chunks_exact_fuel_concat fuel n (ws : list bytes) :
  (0 < n)%nat → Forall (λ w, length w = n) ws → (length (concat ws) <= fuel)%nat →
  chunks_exact_fuel fuel n (concat ws) = ws.
Proof.
  intros Hn H. revert fuel. induction H as [|w ws Hw Hws IH]; intros fuel Hf; simpl in Hf.
  - destruct fuel; [done|]. simpl. by destruct n; [lia|].
  - rewrite length_app in Hf. destruct fuel as [|fuel]; [lia|]. cbn [chunks_exact_fuel concat].
    rewrite length_app. destruct (Nat.leb_spec n (length w + length (concat ws))); [|lia].
    rewrite take_app_length', drop_app_length' by done. f_equal. apply IH. lia.
Qed.

Lemma chunks_exact_elems n xs :
  (0 < n)%nat → chunks_exact n (elems_to_bytes n xs) = le_bytes n <$> xs.
Proof.
  intros Hn. apply chunks_exact_fuel_concat; [done| |done].
  apply Forall_fmap, Forall_true. intros x. apply length_le_bytes.
Qed.

Lemma length_elems n xs : length (elems_to_bytes n xs) = (n * length xs)%nat.
Proof.
  induction xs as [|x xs IH]; [simpl; lia|].
  change (elems_to_bytes n (x :: xs)) with (le_bytes n x ++ elems_to_bytes n xs).
  rewrite length_app, length_le_bytes, IH. cbn [length]. lia.
Qed.

Lemma pow_256 n : 256 ^ Z.of_nat n = 2 ^ (8 * Z.of_nat n).
Proof. rewrite Z.pow_mul_r by lia. done. Qed.

Lemma fmap_id_on {A} (f : A → A) (P : A → Prop) (l : list A) :
  (∀ x, P x → f x = x) → Forall P l → f <$> l = l.
Proof. intros Hf. induction 1 as [|x l Hx _ IH]; [done|]. by rewrite fmap_cons, Hf, IH. Qed.

Lemma uints_roundtrip n xs dims :
  (0 < n)%nat → Forall (in_u (8 * Z.of_nat n)) xs →
  uints_from_wire n (elems_to_bytes n xs) dims = mkArr xs dims.
Proof.
  intros Hn H. unfold uints_from_wire. rewrite chunks_exact_elems, <-list_fmap_compose by done.
  f_equal. eapply fmap_id_on; [|exact H]. intros x Hx. simpl.
  rewrite le_val_bytes, pow_256. by apply wrap_u_id.
Qed.

Lemma ints_roundtrip n xs dims :
  (0 < n)%nat → Forall (in_s (8 * Z.of_nat n)) xs →
  ints_from_wire n (elems_to_bytes n xs) dims = mkArr xs dims.
Proof.
  intros Hn H. unfold ints_from_wire. rewrite chunks_exact_elems, <-list_fmap_compose by done.
  f_equal. eapply fmap_id_on; [|exact H]. intros x Hx. simpl.
  rewrite le_val_bytes, pow_256. fold (wrap_u (8 * Z.of_nat n) x). rewrite wrap_s_wrap_u.
  apply wrap_s_id; [lia|done].
Qed.

Lemma elems_1 xs : elems_to_bytes 1 xs = byte_of <$> xs.
Proof. induction xs as [|x xs IH]; [done|]. change (byte_of x :: elems_to_bytes 1 xs = byte_of x :: (byte_of <$> xs)). by rewrite IH. Qed.

Lemma bytes_roundtrip xs dims :
  Forall (in_u 8) xs → uint8_from_wire (elems_to_bytes 1 xs) dims = mkArr xs dims.
Proof.
  intros H. unfold uint8_from_wire. f_equal. rewrite elems_1, <-list_fmap_compose. eapply fmap_id_on; [|exact H].
  intros x Hx. simpl. rewrite byte_val_of. by apply (wrap_u_id 8).
Qed.

Lemma int8_roundtrip xs dims :
  Forall (in_s 8) xs → int8_from_wire (elems_to_bytes 1 xs) dims = mkArr xs dims.
Proof.
  intros H. unfold int8_from_wire. f_equal. rewrite elems_1, <-list_fmap_compose.
  eapply fmap_id_on; [|exact H]. intros x Hx. simpl. rewrite byte_val_of.
  change (x mod 256) with (wrap_u 8 x). rewrite wrap_s_wrap_u. by apply wrap_s_id.
Qed.

Lemma bools_roundtrip (xs : list bool) dims :
  bool_from_wire ((λ b, if b : bool then Byte.x01 else Byte.x00) <$> xs) dims = mkArr xs dims.
Proof.
  unfold bool_from_wire. f_equal. rewrite <-list_fmap_compose.
  apply (fmap_id_on _ (λ _, True)); [by intros []|by apply Forall_true].
Qed.

(** ** Well-formed values: those the wire can hold *)

(** The langtype has a u16 length and the body an i32 one. *)
Definition wire_fits langtype body : Prop :=
  Z.of_nat (length langtype) <= U16_MAX ∧ Z.of_nat (length body) <= I32_MAX ∧
  utf8_valid langtype = true.

(** A kind that is no shape, reference, map type or the absent kind. *)
Definition scalar_kind kind : Prop := plain_kind kind ∧ kind ≠ [] ∧ kind ≠ KIND_NONE.

Definition KNOWN_KINDS : list str :=
  [KIND_BOOL; KIND_INT8; KIND_INT16; KIND_INT32; KIND_INT64; KIND_UINT8; KIND_UINT16; KIND_UINT32;
   KIND_UINT64; KIND_FLOAT32; KIND_FLOAT64; KIND_CHAR_UTF8; KIND_CHAR_ASCII; KIND_CHAR].

Definition wf_arr {A} (elem : A → Prop) kind (n : nat) (d : Arr A) : Prop :=
  Forall elem (a_data d) ∧ Forall i32 (a_dims d) ∧
  Z.of_nat (length (kindexpr_of kind (a_dims d))) <= U16_MAX ∧
  Z.of_nat (n * length (a_data d)) <= I32_MAX.

Definition wf_opaque (o : Opaque_) : Prop :=
  scalar_kind (o_kind o) ∧ (o_kind o ∉ KNOWN_KINDS) ∧ i32 (o_array_len o) ∧
  (if starts_with "char/"%rs (o_kind o) then 0 <= o_array_len o else 1 <= o_array_len o) ∧
  wire_fits (kindexpr_of (o_kind o) (array_to_header (o_kind o) (o_array_len o))) (o_body o).

Definition wf_xvalue (v : XValue) : Prop :=
  match v with
  | XNone => True
  | XPtr p =>
      wire_fits ("*"%rs ++ p_target_kindexpr p) (p_target p) ∧
      starts_with "*"%rs (p_target_kindexpr p) = false ∧ utf8_valid (p_target p) = true
  | XBool d => wf_arr (λ _, True) KIND_BOOL 1 d
  | XInt8 d => wf_arr (in_s 8) KIND_INT8 1 d
  | XInt16 d => wf_arr (in_s 16) KIND_INT16 2 d
  | XInt32 d => wf_arr (in_s 32) KIND_INT32 4 d
  | XInt64 d => wf_arr (in_s 64) KIND_INT64 8 d
  | XUint8 d => wf_arr (in_u 8) KIND_UINT8 1 d
  | XUint16 d => wf_arr (in_u 16) KIND_UINT16 2 d
  | XUint32 d => wf_arr (in_u 32) KIND_UINT32 4 d
  | XUint64 d => wf_arr (in_u 64) KIND_UINT64 8 d
  | XFloat32 d => wf_arr (in_u 32) KIND_FLOAT32 4 d
  | XFloat64 d => wf_arr (in_u 64) KIND_FLOAT64 8 d
  | XCharByte d => wf_arr (in_u 8) KIND_CHAR_UTF8 1 d
  | XCharAscii d => wf_arr (in_u 8) KIND_CHAR_ASCII 1 d
  | XChar32 d => wf_arr (in_u 32) KIND_CHAR 4 d
  | XMap m =>
      wire_fits (m_langtype m) [] ∧ is_map_langtype (m_langtype m) = true ∧
      starts_with "*"%rs (m_langtype m) = false ∧ starts_with "@"%rs (m_langtype m) = false
  | XExt e =>
      wire_fits ("@"%rs ++ e_langtype e) (e_locator e) ∧ e_langtype e ≠ KIND_NONE ∧
      utf8_valid (e_locator e) = true
  | XOpaque o => wf_opaque o
  end.

(** ** Lemmas: reading back a value *)

Definition ref_code (r : Reference) : Z :=
  match r with RefNone => REF_INLINE | RefPointer => REF_PTR | RefExtension => REF_EXT end.

(** The head of a value whose langtype is valid UTF-8. *)
Definition plain_head langtype body : XValueHead :=
  mkXHead PREFIX (ref_code (reference_of langtype)) 0 langtype (fst (parse_kindexpr langtype))
    (Z.of_nat (length body)) (Z.of_nat (length body)).

Lemma wire_fits_Some langtype body :
  wire_fits langtype body → is_Some (HeadLenPow.to_wire body langtype).
Proof.
  intros (Hl & Hb & _). rewrite to_wire_eq.
  assert (∃ a, attr_bytes langtype = Some a) as [a Ha].
  { destruct langtype as [|c l]; [by exists []|].
    exists (record ATTR_TAG_LANGTYPE (c :: l)). by apply attr_bytes_record. }
  rewrite Ha. cbn [mbind option_bind]. apply attr_bytes_length in Ha.
  rewrite decide_True; [done|]. unfold fits, PREFIX, U16_MAX, I32_MAX, ISIZE_MAX in *. lia.
Qed.

Lemma body_of_plain_head langtype body a :
  head_body (plain_head langtype body) (encode_head (length_head body langtype a)) = body.
Proof.
  unfold head_body, encode_head. cbn [plain_head x_headlen x_body_len length_head h_len h_body
    h_attrs h_layout]. rewrite !length_app, length_header.
  match goal with |- context [?a <? ?b] => destruct (Z.ltb_spec a b) as [H|_] end;
    [unfold PREFIX in H; lia|].
  unfold slice. replace (Z.to_nat (_ - _)) with (length body) by lia.
  rewrite drop_app_length' by done. apply take_app_length.
Qed.

Lemma from_wire_fits langtype body :
  langtype ≠ [] → wire_fits langtype body →
  from_wire (default [] (HeadLenPow.to_wire body langtype)) =
  head_from_wire (plain_head langtype body) body.
Proof.
  intros Hne Hf. destruct (wire_fits_Some _ _ Hf) as [w Hw]. rewrite Hw. cbn [default].
  destruct (proj1 (to_wire_Some _ _ _) Hw) as (a & Ha & Hfit & ->).
  destruct Hf as (_ & Hb & Hu).
  assert (Hhead : from_wire_head (encode_head (length_head body langtype a)) =
                  plain_head langtype body).
  { unfold from_wire_head. rewrite <-(app_nil_r (encode_head _)).
    rewrite from_wire_encode by (by apply wf_length_head). cbn [h_len length_head].
    unfold try_i32. destruct (Z.leb_spec (Z.of_nat (length body)) I32_MAX); [|lia].
    cbn [h_langtype]. by rewrite lossy_valid. }
  unfold id, from_wire. rewrite Hhead. cbn [plain_head x_headlen x_langtype].
  rewrite bool_decide_false by done. cbn [andb]. fold (plain_head langtype body).
  by rewrite body_of_plain_head.
Qed.

Lemma utf8_valid_ascii_app x s : Forall ascii x → utf8_valid (x ++ s) = utf8_valid s.
Proof.
  induction 1 as [|b x Hb Hx IH]; [done|]. rewrite <-IH. unfold utf8_valid.
  cbn [app length utf8_valid_fuel]. unfold ascii in Hb.
  assert (utf8_chunk (b :: x ++ s) = (1%nat, true)) as ->; [|done].
  unfold utf8_chunk. by destruct (Z.ltb_spec (byte_val b) 128); [|lia].
Qed.

Lemma kindexpr_ne kind dims : kind ≠ [] → kindexpr_of kind dims ≠ [].
Proof. by destruct dims. Qed.

Lemma kindexpr_valid kind dims :
  Forall i32 dims → utf8_valid kind = true → utf8_valid (kindexpr_of kind dims) = true.
Proof.
  intros Hd Hk. unfold kindexpr_of. destruct dims as [|d ds]; [done|].
  fold (dims_text (d :: ds)). rewrite !app_assoc, utf8_valid_ascii_app; [done|].
  rewrite !Forall_app. split_and!; [by constructor|by apply dims_text_ascii|by constructor].
Qed.

Lemma reference_plain k :
  starts_with "*"%rs k = false → starts_with "@"%rs k = false → reference_of k = RefNone.
Proof.
  intros H1 H2. destruct k as [|b k]; [done|]. unfold reference_of.
  rewrite decide_False by (intros ->; discriminate H1).
  by rewrite decide_False by (intros ->; discriminate H2).
Qed.

Lemma reference_kindexpr kind dims :
  plain_kind kind → reference_of (kindexpr_of kind dims) = RefNone.
Proof. intros (_ & _ & H1 & H2). destruct dims; [by apply reference_plain|done]. Qed.

(** The part of [head_from_wire] that dispatches on an inline kind. *)
Lemma read_inline kind dims raw :
  scalar_kind kind → Forall i32 dims → wire_fits (kindexpr_of kind dims) raw →
  from_wire (to_wire_head kind 0 dims raw) =
  head_from_wire (mkXHead PREFIX REF_INLINE 0 (kindexpr_of kind dims) dims
    (Z.of_nat (length raw)) (Z.of_nat (length raw))) raw ∧
  snd (parse_kindexpr (kindexpr_of kind dims)) = kind.
Proof.
  intros (Hp & Hne & Hnone) Hd Hf. unfold to_wire_head. rewrite decide_False by done.
  cbn [wrap_u Z.modulo Z.eqb]. change (wrap_u 8 0 =? REF_INLINE) with true. cbv zeta. cbn match.
  rewrite from_wire_fits by (try done; by apply kindexpr_ne). unfold plain_head.
  by rewrite reference_kindexpr, parse_kindexpr_of.
Qed.

Lemma read_arr {A} (elem : A → Prop) kind n (d : Arr A) raw :
  wf_arr elem kind n d → scalar_kind kind → Forall ascii kind →
  length raw = (n * length (a_data d))%nat →
  from_wire (to_wire_head kind 0 (a_dims d) raw) =
  head_from_wire (mkXHead PREFIX REF_INLINE 0 (kindexpr_of kind (a_dims d)) (a_dims d)
    (Z.of_nat (length raw)) (Z.of_nat (length raw))) raw ∧
  snd (parse_kindexpr (kindexpr_of kind (a_dims d))) = kind.
Proof.
  intros (Hel & Hd & Hl & Hb) Hk Ha Hraw. apply read_inline; [done..|].
  split_and!; [done|by rewrite Hraw|]. apply kindexpr_valid; [done|by apply ascii_valid].
Qed.

Lemma known_scalar kind : kind ∈ KNOWN_KINDS → scalar_kind kind ∧ Forall ascii kind.
Proof.
  unfold KNOWN_KINDS. rewrite !elem_of_cons, elem_of_nil.
  intros H. repeat destruct H as [->|H]; [..|done];
    (split; [split_and!; [split_and!; reflexivity|discriminate|discriminate]|]);
    repeat constructor.
Qed.

(** Dispatches [head_from_wire] on a head whose kind is known. *)
Ltac dispatch Hkind :=
  unfold head_from_wire, head_is_ptr, head_kind;
  cbn [x_ref x_langtype x_phys_dims]; rewrite Hkind;
  cbn -[kindexpr_of is_map_langtype decide];
  match goal with
  | |- context [is_map_langtype ?k] => change (is_map_langtype k) with false
  end;
  repeat (rewrite decide_False by discriminate); rewrite decide_True by done.

Ltac read_elems Hwf :=
  let Hr := fresh "Hread" in let Hkind := fresh "Hkind" in
  match type of Hwf with
  | wf_arr _ ?kind ?n ?d =>
      destruct (read_arr _ kind n d (elems_to_bytes n (a_data d)) Hwf) as [Hr Hkind];
      [by apply known_scalar; repeat constructor|by apply known_scalar; repeat constructor
      |apply length_elems|];
      etransitivity; [exact Hr|]; dispatch Hkind
  end.

Lemma wf_arr_elems {A} (elem : A → Prop) kind n (d : Arr A) : wf_arr elem kind n d → Forall elem (a_data d).
Proof. by intros []. Qed.

Lemma read_ptr p : wf_xvalue (XPtr p) → from_wire (to_wire (XPtr p)) = XPtr p.
Proof.
  destruct p as [tk t]. intros (Hf & Hs & Hu). cbn [to_wire p_target_kindexpr p_target] in *.
  unfold xvalue_to_wire_ptr. rewrite Hs, from_wire_fits by done. unfold head_from_wire. cbn.
  by rewrite lossy_valid.
Qed.

Lemma read_map m : wf_xvalue (XMap m) → from_wire (to_wire (XMap m)) = XMap m.
Proof.
  destruct m as [lt]. intros (Hf & Hm & H1 & H2). cbn [to_wire m_langtype] in *.
  assert (Hne : lt ≠ []) by (by intros ->). unfold to_wire_head.
  rewrite decide_False by (intros ->; discriminate Hm).
  cbn [kindexpr_of]. change (wrap_u 8 0 =? REF_INLINE) with true. cbv zeta. cbn match.
  rewrite from_wire_fits by done. unfold head_from_wire, head_is_ptr, head_kind, plain_head.
  rewrite reference_plain by done. cbn [x_ref x_langtype ref_code REF_INLINE Z.eqb].
  unfold parse_kindexpr. unfold is_map_langtype in Hm. rewrite Hm. cbn [snd].
  unfold is_map_langtype. by rewrite Hm.
Qed.

Lemma read_ext e : wf_xvalue (XExt e) → from_wire (to_wire (XExt e)) = XExt e.
Proof.
  destruct e as [lt loc]. intros (Hf & Hn & Hu). cbn [to_wire e_langtype e_locator] in *.
  unfold to_wire_head. rewrite decide_False by done. cbn [kindexpr_of].
  change (wrap_u 8 2) with 2. cbv zeta. cbn [Z.eqb REF_INLINE REF_PTR REF_EXT Pos.eqb].
  rewrite from_wire_fits by done. unfold head_from_wire. cbn. by rewrite lossy_valid.
Qed.

Lemma opaque_dims o :
  wf_opaque o → Forall i32 (array_to_header (o_kind o) (o_array_len o)) ∧
  head_array_len (mkXHead PREFIX REF_INLINE 0 [] (array_to_header (o_kind o) (o_array_len o)) 0 0)
    = o_array_len o.
Proof.
  destruct o as [k b n]. intros (_ & _ & Hi & Hn & _). cbn [o_kind o_array_len o_body] in *.
  unfold array_to_header, head_array_len, i32 in *. cbn [x_phys_dims].
  destruct (starts_with _ k).
  - rewrite Z.max_l by done. split; [by constructor|]. unfold dims_product. cbn [foldl].
    rewrite Z.mul_1_l. by apply wrap_s_id.
  - destruct (Z.ltb_spec 1 n).
    + split; [by constructor|]. unfold dims_product. cbn [foldl].
      rewrite Z.mul_1_l. by apply wrap_s_id.
    + split; [constructor|lia].
Qed.

Lemma unknown_kind kind k : kind ∉ KNOWN_KINDS → k ∈ KNOWN_KINDS → kind ≠ k.
Proof. by intros ? ? ->. Qed.

Lemma read_opaque o : wf_xvalue (XOpaque o) → from_wire (to_wire (XOpaque o)) = XOpaque o.
Proof.
  intros Hwf. destruct (opaque_dims o Hwf) as [Hd Hn].
  destruct o as [k b n], Hwf as (Hs & Hk & _ & _ & Hf).
  cbn [to_wire o_kind o_array_len o_body] in *. unfold xvalue_to_wire.
  destruct (read_inline k _ b Hs Hd Hf) as [-> Hkind].
  unfold head_from_wire, head_is_ptr, head_kind. cbn [x_ref x_langtype x_phys_dims].
  rewrite Hkind. cbn [REF_INLINE REF_PTR REF_EXT Z.eqb].
  destruct Hs as ((Hc & _) & _). unfold is_map_langtype. rewrite Hc.
  repeat (rewrite decide_False by (apply unknown_kind; [done|repeat constructor])).
  do 2 f_equal. exact Hn.
Qed.

Lemma from_to_wire v : wf_xvalue v → from_wire (to_wire v) = v.
Proof.
  destruct v as [|p|d|d|d|d|d|d|d|d|d|d|d|d|d|d|m|e|o]; cbn [wf_xvalue to_wire];
    [done|by apply read_ptr| |..|by apply read_map|by apply read_ext|by apply read_opaque];
    destruct d as [xs dims]; intros Hwf.
  { destruct (read_arr _ _ _ _ ((λ b, if b : bool then Byte.x01 else Byte.x00) <$> xs) Hwf)
      as [Hr Hkind];
      [by apply known_scalar; repeat constructor|by apply known_scalar; repeat constructor
      |rewrite length_fmap; simpl; lia|].
    etransitivity; [exact Hr|]. dispatch Hkind. by rewrite bools_roundtrip. }
  all: read_elems Hwf; apply wf_arr_elems in Hwf; f_equal;
    first [by apply int8_roundtrip | apply ints_roundtrip; [lia|done] | by apply bytes_roundtrip
          | apply uints_roundtrip; [lia|done]].
Qed.

(** What [to_wire] writes is nothing, or exactly one wire of the codec. *)
Lemma to_wire_exact v :
  to_wire v = [] ∨ ∃ raw langtype, HeadLenPow.to_wire raw langtype = Some (to_wire v).
Proof.
  assert (Hd : ∀ raw lt, default [] (HeadLenPow.to_wire raw lt) = [] ∨
    ∃ raw' lt', HeadLenPow.to_wire raw' lt' = Some (default [] (HeadLenPow.to_wire raw lt))).
  { intros raw lt. destruct (HeadLenPow.to_wire raw lt) as [w|] eqn:E; [right|by left].
    exists raw, lt. exact E. }
  assert (Hh : ∀ kind r dims raw, to_wire_head kind r dims raw = [] ∨
    ∃ raw' lt', HeadLenPow.to_wire raw' lt' = Some (to_wire_head kind r dims raw)).
  { intros. unfold to_wire_head. cbv zeta. repeat case_match; try apply Hd; by left. }
  destruct v; cbn [to_wire]; try apply Hh. apply Hd.
Qed.

(** ** Properties *)

(** C6. Every value the wire can hold reads back as itself: for each of the nineteen variants,
    [from_wire] inverts [to_wire] on the values whose langtype and body fit their length
    fields, whose elements and dimensions are in range and whose strings are UTF-8. *)
Theorem xvalue_roundtrip v : wf_xvalue v → from_wire (to_wire v) = v.
Proof. apply from_to_wire. Qed.

Lemma xvalue_roundtrip_witness :
  wf_xvalue (XInt16 (mkArr [-2; 300; 7; 8; 9; 10] [2; 3])) ∧
  from_wire (to_wire (XInt16 (mkArr [-2; 300; 7; 8; 9; 10] [2; 3]))) =
    XInt16 (mkArr [-2; 300; 7; 8; 9; 10] [2; 3]).
Proof.
  assert (H : wf_xvalue (XInt16 (mkArr [-2; 300; 7; 8; 9; 10] [2; 3]))).
  { split_and!; [repeat constructor; discriminate|repeat constructor; discriminate
      |vm_compute; discriminate|vm_compute; discriminate]. }
  split; [exact H|]. apply (xvalue_roundtrip _ H).
Defined.

(** A pointer whose target is itself a pointer loses one level on the wire: what [new_ptr] of a
    starred target kind writes reads back as a pointer to the kind without the star. *)
Lemma ptr_to_ptr_collapses kind target :
  wf_xvalue (new_ptr kind target) →
  from_wire (to_wire (new_ptr ("*"%rs ++ kind) target)) = new_ptr kind target.
Proof.
  intros Hwf. transitivity (from_wire (to_wire (new_ptr kind target))); [|by apply read_ptr].
  f_equal. cbn [to_wire new_ptr p_target_kindexpr p_target]. unfold xvalue_to_wire_ptr.
  destruct Hwf as (_ & Hs & _). cbn [p_target_kindexpr] in Hs. by rewrite starts_with_app, Hs.
Qed.
