(* ===== verification/XText.v ===== *)
(** * Values as text: [src/src/xvalue.rs]

    [value_string], [code_string] and [Display] of a value.  A scalar shows its first element; an
    array without elements has none, and printing it panics. *)

From S2P Require Import Prelude RustInt RustStr RustText RustFloat HeadLenPow KPath XValue.
Local Open Scope Z_scope.
Implicit Types (v : XValue).

(** [d.data[0]] of an empty array *)
Inductive texterr := IndexOutOfBounds.

Definition first_elem {A} (d : Arr A) : res texterr A :=
  match a_data d with x :: _ => Ok x | [] => Panic IndexOutOfBounds end.

(** [fmt_float], of a bit pattern *)
Definition fmt_float (bits : Z) : str :=
  let s := show_f64 bits in
  if contains "."%rs s then s else s ++ ".0"%rs.

Definition bool_string (b : bool) : str := if b then "true"%rs else "false"%rs.

Definition char32_string (data : list Z) : str := concat ((λ c, default REPLACEMENT (char_utf8 c)) <$> data).

Definition value_string v : res texterr str :=
  match v with
  | XNone => Ok KIND_NONE
  | XPtr p => Ok ("→"%rs ++ p_target p)
  | XBool d => b ← first_elem d; Ok (bool_string b)
  | XInt8 d | XInt16 d | XInt32 d | XInt64 d => x ← first_elem d; Ok (show_z x)
  | XUint8 d | XUint16 d | XUint32 d | XUint64 d => x ← first_elem d; Ok (show_u x)
  | XFloat32 d => x ← first_elem d; Ok (fmt_float (f64_of_f32 x))
  | XFloat64 d => x ← first_elem d; Ok (fmt_float x)
  | XCharByte d | XCharAscii d => Ok (from_utf8_lossy (byte_of <$> a_data d))
  | XChar32 d => Ok (char32_string (a_data d))
  | XMap _ => Ok "map"%rs
  | XExt e => Ok (e_locator e)
  | XOpaque o => Ok (from_utf8_lossy (o_body o))
  end.

Definition code_string v : res texterr str :=
  match v with
  | XNone => Ok KIND_NONE
  | XPtr p => Ok ("→"%rs ++ p_target p ++ ":"%rs ++ p_target_kindexpr p)
  | _ => s ← value_string v; Ok (kind_of v ++ ":"%rs ++ s)
  end.

(** [Display] *)
Definition display v : res texterr str := code_string v.

(** ** Lemmas *)

(** Reading [fmt_float] back: a sign, digits, a point, digits. *)
Lemma fmt_float_finite bits d :
  decode bits = FFinite d →
  ∃ i f N, fmt_float bits = (if f64_negative bits then "-"%rs else []) ++ i ++ "."%rs ++ f ∧
    i ≠ [] ∧ f ≠ [] ∧ digits (i ++ f) ∧ parse_digits 0 (i ++ f) = Some N ∧ rounds_to d N (- Z.of_nat (length f)).
Proof.
  intros E. unfold fmt_float, show_f64. rewrite E.
  pose proof (show_finite d (decode_valid bits d E)) as H. cbv zeta in H.
  destruct (format_shortest d) as [r k]. destruct (run_digits r k) as [buf k'].
  set (s := digits_to_dec_str buf k') in *. set (sign := if f64_negative bits then "-"%rs else []).
  destruct H as [(i & f & N & -> & H)|(N & Hne & Hd & Hp & Hr)].
  - assert (contains "."%rs (sign ++ i ++ "."%rs ++ f) = true) as ->.
    { apply contains_true. exists (sign ++ i), f. by rewrite <-app_assoc. }
    by exists i, f, N.
  - assert (contains "."%rs (sign ++ s) = false) as ->.
    { apply contains_false. intros a b Eab. assert (Hin : Byte.x2e ∈ sign ++ s) by (rewrite Eab; set_solver).
      apply elem_of_app in Hin as [Hin|Hin].
      - unfold sign in Hin. destruct (f64_negative bits); set_solver.
      - rewrite Forall_forall in Hd. by apply Hd in Hin. }
    exists s, "0"%rs, (N * 10). split_and!; [by rewrite <-app_assoc|done|done| | |].
    + apply Forall_app. split; [done|]. by constructor.
    + rewrite parse_digits_app, Hp. cbn [mbind option_bind parse_digits]. change (is_digit Byte.x30) with true.
      cbn iota. f_equal. change (digit_val Byte.x30) with 0. ring.
    + apply (rounds_to_shift d N (-1) 1); [done|]. exact Hr.
Qed.

Lemma show_u_reads (x : Z) : in_u 64 x → parse_u 64 (show_u x) = Some x.
Proof. by apply parse_show_u. Qed.
Lemma show_z_reads (x : Z) : in_s 64 x → parse_s 64 (show_z x) = Some x.
Proof. by apply parse_show_s. Qed.

(** The text of a number reads back as the number. *)
Definition float_text (bits : Z) (s : str) : Prop :=
  ∀ d, decode bits = FFinite d →
  ∃ i f N, s = (if f64_negative bits then "-"%rs else []) ++ i ++ "."%rs ++ f ∧
    i ≠ [] ∧ f ≠ [] ∧ digits (i ++ f) ∧ parse_digits 0 (i ++ f) = Some N ∧ rounds_to d N (- Z.of_nat (length f)).

Definition text_of v (s : str) : Prop :=
  match v with
  | XNone => s = KIND_NONE
  | XPtr p => s = "→"%rs ++ p_target p
  | XBool d => ∃ b, head (a_data d) = Some b ∧ (s = "true"%rs ↔ b = true) ∧ (s = "false"%rs ↔ b = false)
  | XInt8 d | XInt16 d | XInt32 d | XInt64 d =>
      ∃ x, head (a_data d) = Some x ∧ (in_s 64 x → parse_s 64 s = Some x)
  | XUint8 d | XUint16 d | XUint32 d | XUint64 d =>
      ∃ x, head (a_data d) = Some x ∧ (in_u 64 x → parse_u 64 s = Some x)
  | XFloat32 d => ∃ x, head (a_data d) = Some x ∧ float_text (f64_of_f32 x) s
  | XFloat64 d => ∃ x, head (a_data d) = Some x ∧ float_text x s
  | XCharByte d | XCharAscii d => utf8_valid (byte_of <$> a_data d) = true → s = byte_of <$> a_data d
  | XChar32 d => ∀ cs, mapM char_utf8 (a_data d) = Some cs → s = concat cs
  | XMap _ => s = "map"%rs
  | XExt e => s = e_locator e
  | XOpaque o => utf8_valid (o_body o) = true → s = o_body o
  end.

(** The arrays whose first element is printed, without elements. *)
Definition empty_scalar v : Prop :=
  match v with
  | XBool d => a_data d = []
  | XInt8 d | XInt16 d | XInt32 d | XInt64 d | XUint8 d | XUint16 d | XUint32 d | XUint64 d
  | XFloat32 d | XFloat64 d => a_data d = []
  | _ => False
  end.

Lemma first_elem_cases {A} (d : Arr A) :
  (a_data d = [] ∧ first_elem d = Panic IndexOutOfBounds) ∨ ∃ x, head (a_data d) = Some x ∧ first_elem d = Ok x.
Proof. unfold first_elem. destruct (a_data d) as [|x l]; [by left|right; by exists x]. Qed.

Lemma char32_string_valid (data : list Z) cs :
  mapM char_utf8 data = Some cs → char32_string data = concat cs.
Proof.
  unfold char32_string. intros H%mapM_Some. induction H as [|c s data cs Hc _ IH]; [done|].
  cbn. by rewrite Hc, IH.
Qed.

(** C7. The text of a value: printing panics exactly on an array of numbers or booleans without
    elements and never fails otherwise.  An integer's text parses back to it; a finite float's is a
    sign, digits, a point and digits, and the decimal number they write rounds to that float and to
    no other; text that is valid UTF-8, and characters that are code points, print as they are. *)
Theorem value_string_faithful v :
  match value_string v with
  | Ok s => text_of v s ∧ ¬ empty_scalar v
  | Panic e => empty_scalar v ∧ e = IndexOutOfBounds
  | Err _ => False
  end.
Proof.
  destruct v as [|p|d|d|d|d|d|d|d|d|d|d|d|d|d|d|m|e|o]; cbn [value_string text_of empty_scalar]; try tauto.
  all: try (destruct (first_elem_cases d) as [[Hd ->]|(x & Hx & ->)]; cbn [mbind res_bind]; [tauto|];
    split; [|intros Hd; by rewrite Hd in Hx]; exists x; split; [done|]).
  - by destruct x.
  - apply show_z_reads.
  - apply show_z_reads.
  - apply show_z_reads.
  - apply show_z_reads.
  - apply show_u_reads.
  - apply show_u_reads.
  - apply show_u_reads.
  - apply show_u_reads.
  - intros dd. apply fmt_float_finite.
  - intros dd. apply fmt_float_finite.
  - split; [apply lossy_valid|tauto].
  - split; [apply lossy_valid|tauto].
  - split; [|tauto]. intros cs. apply char32_string_valid.
  - split; [apply lossy_valid|tauto].
Qed.

(** The wire of an empty array is legal, and its text panics. *)
Example empty_array_panics :
  from_wire (to_wire (XInt8 (mkArr [] [0]))) = XInt8 (mkArr [] [0]) ∧
  display (XInt8 (mkArr [] [0])) = Panic IndexOutOfBounds.
Proof. split; vm_compute; reflexivity. Qed.

(** A number that is not finite gets a fraction too. *)
Example nan_with_fraction :
  fmt_float (Z.shiftl 4095 51) = "NaN.0"%rs ∧ fmt_float (Z.shiftl 2047 52) = "inf.0"%rs.
Proof. split; vm_compute; reflexivity. Qed.

Example float_texts :
  display (XFloat64 (mkArr [4607182418800017408] [])) = Ok "float64:1.0"%rs ∧
  display (XFloat32 (mkArr [1036831949] [])) = Ok "float32:0.10000000149011612"%rs.
Proof. split; vm_compute; reflexivity. Qed.
