(* ===== verification/Store.v ===== *)
(** * The storage interface: [src/src/store.rs]

    The trait [KVStore] as an operational type class over a state [S] (the trait's methods take
    [&self] and mutate through interior state, so every mutating method returns the new state),
    the laws a store promises to [Backend] in terms of an abstract finite map, the trait's
    default methods, and a reference store that shows the laws can hold. *)

From S2P Require Import Prelude RustInt RustStr HeadLenPow KPath.
Local Open Scope Z_scope.

(** ** The trait *)

Class KVStore (S : Type) := {
  kv_get : S → str → option bytes;
  kv_get_many : S → list str → list (option bytes);
  kv_set : str → bytes → S → S;
  kv_del : list str → S → S;
  kv_scan_keys : S → str → list str;
  kv_exists : S → str → bool;
  kv_get_part : S → str → Z → Z → option bytes;
  kv_set_part : str → Z → bytes → S → S;
  kv_flush : S → S;
}.

(** ** Default methods *)

(** [v[s..e]] with [s = min(off, len v)] and [e = min(s + len, len v)]. *)
Definition clamp_part (off len : Z) (v : bytes) : bytes :=
  let n := Z.of_nat (length v) in
  let s := Z.min off n in
  let e := Z.min (s + len) n in
  slice s e v.

Section defaults.
Context {S : Type} (get : S → str → option bytes) (set : str → bytes → S → S).

Definition default_get_many (s : S) (keys : list str) : list (option bytes) :=
  get s <$> keys.

Definition default_exists (s : S) (key : str) : bool :=
  match get s key with Some _ => true | None => false end.

Definition default_get_part (s : S) (key : str) (off len : Z) : option bytes :=
  clamp_part off len <$> get s key.

Definition default_set_part (key : str) (off : Z) (buf : bytes) (s : S) : S :=
  match get s key with
  | None => s
  | Some v =>
      if Z.of_nat (length v) <? off + Z.of_nat (length buf) then s
      else set key (splice (Z.to_nat off) buf v) s
  end.
End defaults.

(** ** The laws *)

(** Deleting a list of keys, in any order. *)
Definition delete_keys (ks : list str) (m : gmap str bytes) : gmap str bytes := foldr delete m ks.

(** What every store promises: its state stands for a finite map and each method acts on that
    map.  A scan may repeat a key (Redis's SCAN may) but returns exactly the live keys of the
    subtree; a part read or write is only specified on a range inside an existing value, which
    is the only way [Backend] uses it for writes. *)
Class KVLaws (S : Type) `{KVStore S} := {
  st_map : S → gmap str bytes;
  law_get s k : kv_get s k = st_map s !! k;
  law_get_many s ks : kv_get_many s ks = (λ k, st_map s !! k) <$> ks;
  law_set k v s : st_map (kv_set k v s) = <[k := v]> (st_map s);
  law_del ks s : st_map (kv_del ks s) = delete_keys ks (st_map s);
  law_scan s p k : k ∈ kv_scan_keys s p ↔ is_subtree_key p k = true ∧ is_Some (st_map s !! k);
  law_exists s k : kv_exists s k = bool_decide (is_Some (st_map s !! k));
  law_get_part s k off len v :
    st_map s !! k = Some v → 0 <= off → 0 < len → off + len <= Z.of_nat (length v) →
    kv_get_part s k off len = Some (slice off (off + len) v);
  law_set_part s k off buf v :
    st_map s !! k = Some v → 0 <= off → off + Z.of_nat (length buf) <= Z.of_nat (length v) →
    st_map (kv_set_part k off buf s) = <[k := splice (Z.to_nat off) buf v]> (st_map s);
  law_flush s : st_map (kv_flush s) = ∅;
}.

Lemma lookup_delete_keys (ks : list str) (m : gmap str bytes) (k : str) :
  delete_keys ks m !! k = if decide (k ∈ ks) then None else m !! k.
Proof.
  induction ks as [|x ks IH]; [done|]. simpl. destruct (decide (x = k)) as [->|Hne].
  - rewrite lookup_delete_eq, decide_True by left. done.
  - rewrite lookup_delete_ne, IH by done.
    rewrite (decide_ext (k ∈ x :: ks) (k ∈ ks)); [done|]. rewrite elem_of_cons.
    split; [by intros [->|?]|by right].
Qed.

(** ** States up to what they store *)

Section equivalence.
Context `{KVLaws St}.
Implicit Types (s : St).

(** Two states of a store with the same contents; the rest (a connection, a scan cursor) is
    not observable through the trait. *)
#[export] Instance store_equiv : Equiv St := λ s1 s2, st_map s1 = st_map s2.

#[export] Instance store_equivalence : Equivalence (≡@{St}).
Proof. split; unfold equiv, store_equiv; [done|by intros ?? ->|by intros ??? -> ->]. Qed.

#[export] Instance kv_get_proper : Proper ((≡) ==> (=) ==> (=)) (kv_get (S:=St)).
Proof. intros s1 s2 Hs k _ <-. by rewrite !law_get, Hs. Qed.

#[export] Instance kv_set_proper : Proper ((=) ==> (=) ==> (≡) ==> (≡)) (kv_set (S:=St)).
Proof.
  intros k _ <- v _ <- s1 s2 Hs. unfold equiv, store_equiv in *. by rewrite !law_set, Hs.
Qed.

#[export] Instance kv_del_proper : Proper ((=) ==> (≡) ==> (≡)) (kv_del (S:=St)).
Proof.
  intros ks _ <- s1 s2 Hs. unfold equiv, store_equiv in *. by rewrite !law_del, Hs.
Qed.

Lemma kv_get_set k v k' s :
  kv_get (kv_set k v s) k' = if decide (k = k') then Some v else kv_get s k'.
Proof.
  rewrite !law_get, law_set. case_decide as E; [subst; apply lookup_insert_eq|].
  by apply lookup_insert_ne.
Qed.

Lemma kv_get_del ks k' s :
  kv_get (kv_del ks s) k' = if decide (k' ∈ ks) then None else kv_get s k'.
Proof. rewrite !law_get, law_del. apply lookup_delete_keys. Qed.

Lemma kv_set_comm k1 v1 k2 v2 s :
  k1 ≠ k2 → kv_set k1 v1 (kv_set k2 v2 s) ≡ kv_set k2 v2 (kv_set k1 v1 s).
Proof. intros Hne. unfold equiv, store_equiv. rewrite !law_set. by apply insert_insert_ne. Qed.

Lemma kv_exists_get s k : kv_exists s k = match kv_get s k with Some _ => true | None => false end.
Proof. rewrite law_exists, law_get. by destruct (st_map s !! k). Qed.

Lemma st_map_ext s1 s2 : (∀ k, kv_get s1 k = kv_get s2 k) → s1 ≡ s2.
Proof. intros Hk. apply map_eq. intros k. rewrite <-!law_get. apply Hk. Qed.
End equivalence.
#[export] Hint Rewrite @kv_get_set @kv_get_del : kvstore.

(** ** A reference store *)

(** The store that is its own abstract map, with the default methods of the trait. *)
Abbreviation mem := (gmap (list Byte.byte) (list Byte.byte)).

#[export] Instance mem_store : KVStore mem := {|
  kv_get m k := m !! k;
  kv_get_many := default_get_many (λ (m : mem) k, m !! k);
  kv_set k v m := <[k := v]> m;
  kv_del := delete_keys;
  kv_scan_keys m p := filter (λ k, is_subtree_key p k = true) (map_to_list (m : gmap str bytes)).*1;
  kv_exists := default_exists (λ (m : mem) k, m !! k);
  kv_get_part := default_get_part (λ (m : mem) k, m !! k);
  kv_set_part := default_set_part (λ (m : mem) k, m !! k) (λ k v m, <[k := v]> m);
  kv_flush _ := ∅;
|}.

Lemma clamp_part_inside off len v :
  0 <= off → 0 <= len → off + len <= Z.of_nat (length v) → clamp_part off len v = slice off (off + len) v.
Proof. intros. unfold clamp_part. cbv zeta. by rewrite !Z.min_l by lia. Qed.

Lemma clamp_part_nothing off v : clamp_part off 0 v = [].
Proof.
  unfold clamp_part, slice. rewrite Z.add_0_r. cbv zeta.
  rewrite Z.min_l by lia. by rewrite Z.sub_diag.
Qed.

#[local] Obligation Tactic := try done.

#[export] Program Instance mem_laws : KVLaws mem := {| st_map m := m |}.
Next Obligation.
  intros m p k. simpl. rewrite list_elem_of_filter. f_equiv.
  rewrite list_elem_of_fmap. split.
  - intros ([k' v] & -> & Hin). apply elem_of_map_to_list in Hin. by exists v.
  - intros [v Hv]. exists (k, v). split; [done|]. apply elem_of_map_to_list. exact Hv.
Qed.
Next Obligation.
  intros m k. simpl. unfold default_exists.
  destruct (m !! k) as [v|] eqn:E; symmetry.
  - apply bool_decide_eq_true. by exists v.
  - apply bool_decide_eq_false. by intros [v Hv].
Qed.
Next Obligation.
  intros m k off len v Hv H1 H2 H3. simpl in *. unfold default_get_part. rewrite Hv. simpl.
  rewrite clamp_part_inside by lia. done.
Qed.
Next Obligation.
  intros m k off buf v Hv H1 H2. simpl in *. unfold default_set_part. rewrite Hv.
  by destruct (Z.ltb_spec (Z.of_nat (length v)) (off + Z.of_nat (length buf))); [lia|].
Qed.

(** ** Slices and splices *)

Lemma length_slice a b v :
  0 <= a <= b → b <= Z.of_nat (length v) → length (slice a b v) = Z.to_nat (b - a).
Proof. intros. unfold slice. rewrite length_take, length_drop. lia. Qed.

(** What was spliced in is what is read back. *)
Lemma slice_splice off buf v :
  0 <= off → off + Z.of_nat (length buf) <= Z.of_nat (length v) →
  slice off (off + Z.of_nat (length buf)) (splice (Z.to_nat off) buf v) = buf.
Proof.
  intros H1 H2. unfold slice, splice.
  rewrite drop_app_length' by (rewrite length_take; lia).
  apply take_app_length'. lia.
Qed.

(** ** Properties *)

(** The trait's default [set_part] and [get_part], over any lawful store: a part write never
    touches another key, never creates the key and never changes the length of its value; it
    changes nothing at all when the range does not fit, and when it fits, reading the same range
    back returns exactly the bytes written. *)
Theorem default_parts_in_place `{KVLaws St} (key : str) (off : Z) (buf : bytes) (s : St) :
  0 <= off →
  let s' := default_set_part kv_get kv_set key off buf s in
  (∀ k, k ≠ key → kv_get s' k = kv_get s k) ∧
  (length <$> kv_get s' key = length <$> kv_get s key) ∧
  (∀ v, kv_get s key = Some v →
     if decide (off + Z.of_nat (length buf) <= Z.of_nat (length v))
     then kv_get s' key = Some (splice (Z.to_nat off) buf v) ∧
          default_get_part kv_get s' key off (Z.of_nat (length buf)) = Some buf
     else kv_get s' key = Some v).
Proof.
  intros Hoff. cbv zeta. unfold default_set_part. destruct (kv_get s key) as [v|] eqn:E;
    [|by rewrite E].
  destruct (Z.ltb_spec (Z.of_nat (length v)) (off + Z.of_nat (length buf))).
  - rewrite E. split_and!; [done..|]. intros v' [= <-]. by rewrite decide_False by lia.
  - split_and!.
    + intros k Hk. rewrite kv_get_set. by rewrite decide_False.
    + rewrite kv_get_set, decide_True by done. simpl. rewrite length_splice by lia. done.
    + intros v' [= <-]. rewrite decide_True by lia.
      unfold default_get_part. rewrite kv_get_set, decide_True by done. split; [done|]. simpl.
      rewrite clamp_part_inside by (rewrite ?length_splice; lia). by rewrite slice_splice by lia.
Qed.

Lemma default_parts_in_place_witness :
  let s : mem := <["/k"%rs := "abcdef"%rs]> ∅ in
  let s' := default_set_part kv_get kv_set "/k"%rs 2 "XY"%rs s in
  kv_get s' "/k"%rs = Some "abXYef"%rs ∧ length <$> kv_get s' "/k"%rs = length <$> kv_get s "/k"%rs.
Proof.
  cbv zeta. split; [vm_compute; reflexivity|].
  apply (default_parts_in_place "/k"%rs 2 "XY"%rs); lia.
Defined.
