(* ===== verification/Remote.v ===== *)
(** * Stores behind a connection

    The [KVStore] implementations of [src/src/redis/store.rs] and [src/src/s3/store.rs] talk to
    a server: every method moves the world (the server, the network, the clock) and may panic.
    This file is the interface the two share: the trait as an operational type class over such
    computations, calls of it as data, and what it means for a store to refine the reference
    store [mem] of [Store]. *)

From S2P Require Import Prelude RustInt RustStr HeadLenPow KPath Store.
Local Open Scope Z_scope.

(** ** The trait, over a world [W] with panics [E] *)

Class RemoteStore (W E : Type) := {
  rs_get : str → stm W E (option bytes);
  rs_get_many : list str → stm W E (list (option bytes));
  rs_set : str → bytes → stm W E unit;
  rs_del : list str → stm W E unit;
  rs_scan_keys : str → stm W E (list str);
  rs_exists : str → stm W E bool;
  rs_get_part : str → Z → Z → stm W E (option bytes);
  rs_set_part : str → Z → bytes → stm W E unit;
  rs_flush : stm W E unit;
}.

(** ** The provided methods of the trait [src/src/store.rs], over such a store *)

Section provided.
Context {W E : Type} (get : str → stm W E (option bytes)) (set : str → bytes → stm W E unit).

Fixpoint provided_get_many (keys : list str) : stm W E (list (option bytes)) :=
  match keys with
  | [] => mret []
  | k :: keys => v ← get k; vs ← provided_get_many keys; mret (v :: vs)
  end.

Definition provided_set_part (key : str) (off : Z) (buf : bytes) : stm W E unit :=
  v ← get key;
  match v with
  | None => mret tt
  | Some v =>
      if Z.of_nat (length v) <? off + Z.of_nat (length buf) then mret tt
      else set key (splice (Z.to_nat off) buf v)
  end.
End provided.

(** ** Calls as data *)

Inductive kvop :=
  | OGet (k : str)
  | OGetMany (ks : list str)
  | OSet (k : str) (v : bytes)
  | ODel (ks : list str)
  | OScan (prefix : str)
  | OExists (k : str)
  | OGetPart (k : str) (off len : Z)
  | OSetPart (k : str) (off : Z) (buf : bytes)
  | OFlush.

Inductive kvreply :=
  | RUnit
  | RValue (v : option bytes)
  | RValues (vs : list (option bytes))
  | RKeys (ks : list str)
  | RBool (b : bool).

Definition run_op `{RemoteStore W E} (o : kvop) : stm W E kvreply :=
  match o with
  | OGet k => v ← rs_get k; mret (RValue v)
  | OGetMany ks => vs ← rs_get_many ks; mret (RValues vs)
  | OSet k v => rs_set k v;; mret RUnit
  | ODel ks => rs_del ks;; mret RUnit
  | OScan p => ks ← rs_scan_keys p; mret (RKeys ks)
  | OExists k => b ← rs_exists k; mret (RBool b)
  | OGetPart k off len => v ← rs_get_part k off len; mret (RValue v)
  | OSetPart k off buf => rs_set_part k off buf;; mret RUnit
  | OFlush => rs_flush;; mret RUnit
  end.

Fixpoint run_ops `{RemoteStore W E} (os : list kvop) : stm W E (list kvreply) :=
  match os with
  | [] => mret []
  | o :: os => r ← run_op o; rs ← run_ops os; mret (r :: rs)
  end.

(** The same call on a store without connection. *)
Definition pure_op `{KVStore St} (o : kvop) (s : St) : kvreply * St :=
  match o with
  | OGet k => (RValue (kv_get s k), s)
  | OGetMany ks => (RValues (kv_get_many s ks), s)
  | OSet k v => (RUnit, kv_set k v s)
  | ODel ks => (RUnit, kv_del ks s)
  | OScan p => (RKeys (kv_scan_keys s p), s)
  | OExists k => (RBool (kv_exists s k), s)
  | OGetPart k off len => (RValue (kv_get_part s k off len), s)
  | OSetPart k off buf => (RUnit, kv_set_part k off buf s)
  | OFlush => (RUnit, kv_flush s)
  end.

Fixpoint pure_ops `{KVStore St} (os : list kvop) (s : St) : list kvreply * St :=
  match os with
  | [] => ([], s)
  | o :: os =>
      let '(r, s) := pure_op o s in
      let '(rs, s) := pure_ops os s in
      (r :: rs, s)
  end.

(** ** Replies up to the order and repetitions of a scan *)

#[export] Instance reply_equiv : Equiv kvreply := λ r1 r2,
  match r1, r2 with
  | RKeys ks1, RKeys ks2 => ∀ k, k ∈ ks1 ↔ k ∈ ks2
  | RKeys _, _ | _, RKeys _ => False
  | _, _ => r1 = r2
  end.

#[export] Instance reply_equivalence : Equivalence (≡@{kvreply}).
Proof.
  split; unfold equiv, reply_equiv.
  - by intros [].
  - intros [] []; naive_solver.
  - intros [] [] []; naive_solver.
Qed.

Lemma reply_keys_equiv ks1 ks2 : (∀ k, k ∈ ks1 ↔ k ∈ ks2) → RKeys ks1 ≡ RKeys ks2.
Proof. done. Qed.

(** ** Refinement

    A family of implementations indexed by the fuel of their loops refines the reference store
    through [R] on the calls [ok] when every such call returns: from some fuel on its result no
    longer depends on the fuel, is the reply of the reference store, and leaves the world
    related to the state the reference store reaches. *)
Section refinement.
Context {W E : Type} (I : nat → RemoteStore W E).
Context (R : mem → W → Prop) (ok : mem → kvop → Prop).

(** The calls are admissible one after the other. *)
Fixpoint admissible (m : mem) (os : list kvop) : Prop :=
  match os with
  | [] => True
  | o :: os => ok m o ∧ admissible (pure_op o m).2 os
  end.

Definition op_refines (o : kvop) : Prop := ∀ m w, ok m o → R m w →
  ∃ (N : nat) r w',
    (∀ n, (N <= n)%nat → run_op (H := I n) o w = (Ok r, w')) ∧
    r ≡ (pure_op o m).1 ∧ R (pure_op o m).2 w'.

Lemma ops_refine (os : list kvop) m w :
  (∀ o, op_refines o) → admissible m os → R m w →
  ∃ (N : nat) rs w',
    (∀ n, (N <= n)%nat → run_ops (H := I n) os w = (Ok rs, w')) ∧
    Forall2 (≡) rs (pure_ops os m).1 ∧ R (pure_ops os m).2 w'.
Proof.
  intros Hop. revert m w. induction os as [|o os IH]; intros m w; cbn [admissible pure_ops].
  - intros _ HR. exists O, [], w. split_and!; [done|constructor|done].
  - intros [Ho Hos] HR. destruct (Hop o m w Ho HR) as (N1 & r & w1 & Hrun & Hr & HR1).
    destruct (pure_op o m) as [r' m1]. cbn [fst snd] in *.
    destruct (IH m1 w1 Hos HR1) as (N2 & rs & w2 & Hruns & Hrs & HR2).
    destruct (pure_ops os m1) as [rs' m2]. cbn [fst snd] in *.
    exists (max N1 N2), (r :: rs), w2. split_and!; [|by constructor|done].
    intros n Hn. cbn [run_ops]. rewrite stm_bind_eq, Hrun by lia. rewrite stm_bind_eq, Hruns by lia.
    done.
Qed.
End refinement.
