(* ===== verification/Backend.v ===== *)
(** * The key-value space over a store: [src/src/backend.rs]

    [Backend<S>] implements the [KVSpace] trait over any [KVStore]: link resolution, directory
    listings, reads with a read-only extension to fall back on, writes with their guards, copies
    and subtree deletion.  A reading operation is a function of the store's state; a writing one
    is a state-and-error computation, in which what was written before an error stays written.
    The provided methods of the trait ([src/src/kvspace.rs]) and the helpers of
    [src/src/kvspace_common.rs] that call it are here too. *)

From S2P Require Import Prelude RustInt RustStr RustText HeadLenPow KPath Coord XValue Store.
Local Open Scope Z_scope.
Implicit Types (key path prefix dir src dst : str).

(** ** Pairs *)

Record KVPair := mkPair {
  pr_key : str;
  pr_val : XValue;
  pr_raw : option bytes;
}.

Section backend.
Context {St : Type} `{KVStore St}.
Implicit Types (s : St).

Definition present s key : bool := match kv_get s key with Some _ => true | None => false end.

Definition assert_dir path : res kverr unit :=
  if negb (bool_decide (path = PATH_SEP)) && negb (is_dir path)
  then Panic (DirMustEndWithSlash path) else Ok tt.

(** ** Links *)

Definition dir_suffix path : option str :=
  if ends_with OBJ_SEP path then Some OBJ_SEP
  else if ends_with DIR_INDEX_SUF path then Some DIR_INDEX_SUF
  else None.

(** The components of a path without its directory suffix. *)
Definition path_parts path : list str :=
  let clean := match dir_suffix path with Some _ => strip_dir_suf path | None => path end in
  let trimmed := trim_byte SLASH clean in
  match trimmed with [] => [] | _ => split_byte SLASH trimmed end.

(** The ancestors of a path, from the root down to the path itself. *)
Fixpoint prefixes_from (cur : str) (parts : list str) : list str :=
  match parts with
  | [] => []
  | p :: ps => let cur := join_path cur p in cur :: prefixes_from cur ps
  end.
Definition path_prefixes path : list str := prefixes_from PATH_SEP (path_parts path).

(** The first value among the ancestors that is a link, with the components after it. *)
Fixpoint first_link (vals : list (option bytes)) (parts : list str) : option (str * list str) :=
  match vals, parts with
  | v :: vals, _ :: rest =>
      match v with
      | Some data =>
          let x := XValue.from_wire data in
          if is_ptr x then Some (ptr_target x, rest) else first_link vals rest
      | None => first_link vals rest
      end
  | _, _ => None
  end.

Definition resolve_one s path : str * bool :=
  if decide (path = PATH_SEP) then (path, false)
  else
    let vals := kv_get_many s (path_prefixes path) in
    match first_link vals (path_parts path) with
    | Some (target, rest) =>
        let next := match rest with [] => target | _ => join_path target (join "/"%rs rest) end in
        let next := match dir_suffix path with
                    | Some suf => if is_dir next then next else next ++ suf
                    | None => next
                    end in
        (next, true)
    | None => (path, false)
    end.

Fixpoint resolve_loop (n : nat) s path : str :=
  match n with
  | O => path
  | S n => let '(resolved, changed) := resolve_one s path in
           if changed : bool then resolve_loop n s resolved else resolved
  end.

Definition resolve_path s path : str := resolve_loop 16 s path.

Definition resolve_parent s path : str :=
  let dir_suf := is_dir path && negb (bool_decide (path = PATH_SEP)) in
  let clean := if dir_suf then strip_dir_suf path else path in
  let '(parent, last) := sep_path clean in
  if decide (parent = clean) then path
  else
    let result := join_path (resolve_path s parent) last in
    if dir_suf then
      result ++ (if ends_with OBJ_SEP path then OBJ_SEP else DIR_INDEX_SUF)
    else result.

(** ** Directory listings *)

(** [rest.find(['/', '·'])] *)
Definition find_sep (rest : str) : option nat :=
  match find "/"%rs rest, find "·"%rs rest with
  | Some i, Some j => Some (Nat.min i j)
  | Some i, None => Some i
  | None, o => o
  end.

(** What one scanned key contributes to the names of [dir]: the first segment below it, and
    whether the key is that segment's own [/] directory key. *)
Definition index_entry dir key : option (str * bool) :=
  rest ← strip_prefix dir key;
  let end_ := default (length rest) (find_sep rest) in
  if (end_ =? 0)%nat then None
  else
    let name := take end_ rest in
    if (negb (bool_decide (dir = PATH_SEP)) || negb (bool_decide (name = META_ROOT_NAME))) &&
       negb (contains RUNTIME_MEMBER_SEP name)
    then Some (name, bool_decide (rest !! end_ = Some SLASH) && (length rest =? end_ + 1)%nat)
    else None.

(** [names.entry(name).and_modify(|v| *v |= direct).or_insert(direct)] *)
Definition add_name (names : gmap str bool) (e : str * bool) : gmap str bool :=
  <[e.1 := default false (names !! e.1) || e.2]> names.

Definition index_names s dir : gmap str bool :=
  let scan_prefix := default dir (match strip_suffix "/"%rs dir with
                                  | Some b => Some b | None => strip_suffix "·"%rs dir end) in
  foldl (λ names key, match index_entry dir key with Some e => add_name names e | None => names end)
    ∅ (kv_scan_keys s scan_prefix).

Definition show_name (e : str * bool) : str := if e.2 then e.1 ++ "/"%rs else e.1.

(** The iteration order of the hash map is the order of [map_to_list]; only names that
    [cmp_coord] cannot tell apart keep it. *)
Definition read_dir_index s dir : list str := sort_names (show_name <$> map_to_list (index_names s dir)).

(** ** Reads *)

Definition get_dir s dir : XValue :=
  match kv_get s dir with None => XNone | Some data => XValue.from_wire data end.

Definition prefix_ext s prefix : str :=
  match kv_get s prefix with
  | Some data =>
      let head := from_wire_head data in
      if x_ref head =? REF_EXT then from_utf8_lossy (head_body head data) else []
  | None => []
  end.

(** The first loop of [get]: the keys answered at once, and the indices and full keys left. *)
Fixpoint get_split s prefix (i : nat) (keys : list str) : list (option XValue) * list (nat * str) :=
  match keys with
  | [] => ([], [])
  | k :: keys =>
      let '(results, full_keys) := get_split s prefix (S i) keys in
      let full := join_path prefix k in
      if is_reserved full then (Some XNone :: results, full_keys)
      else if is_dir full then (Some (get_dir s full) :: results, full_keys)
      else (None :: results, (i, full) :: full_keys)
  end.

(** The second loop: the values found, and the indices missing. *)
Fixpoint get_fill (results : list (option XValue)) (full_keys : list (nat * str))
    (vals : list (option bytes)) : list (option XValue) * list nat :=
  match full_keys, vals with
  | (i, _) :: full_keys, v :: vals =>
      match v with
      | Some data => get_fill (<[i := Some (XValue.from_wire data)]> results) full_keys vals
      | None => let '(results, missing) := get_fill results full_keys vals in (results, i :: missing)
      end
  | _, _ => (results, [])
  end.

(** The third loop: the values of the extension. *)
Fixpoint get_ext (results : list (option XValue)) (ext_keys : list (nat * str))
    (vals : list (option bytes)) : list (option XValue) :=
  match ext_keys, vals with
  | (i, _) :: ext_keys, v :: vals =>
      get_ext (<[i := Some (match v with Some data => XValue.from_wire data | None => XNone end)]> results)
        ext_keys vals
  | _, _ => results
  end.

Definition get s prefix (keys : list str) (resolve : bool) : res kverr (list XValue) :=
  assert_dir prefix;;
  let prefix := if resolve then resolve_path s prefix else prefix in
  let '(results, full_keys) := get_split s prefix 0 keys in
  let '(results, missing) := get_fill results full_keys (kv_get_many s full_keys.*2) in
  let ext_t := match missing with [] => [] | _ => prefix_ext s prefix end in
  let ext_keys := match ext_t with
                  | [] => []
                  | _ => (λ i, (i, join_path ext_t (default [] (keys !! i)))) <$> missing
                  end in
  let results := match ext_keys with
                 | [] => results
                 | _ => get_ext results ext_keys (kv_get_many s ext_keys.*2)
                 end in
  Ok (default XNone <$> results).

(** The parent of a key, resolved, and its last component: the prologue of [get_raw],
    [get_part] and [set_part]. *)
Definition locate s key : str * str :=
  let '(p, l) := sep_path key in
  let p := if decide (p = PATH_SEP) then p else p ++ DIR_INDEX_SUF in
  (resolve_path s p, l).

Definition get_raw s key : bytes :=
  if is_reserved key then []
  else
    let '(p, l) := locate s key in
    let full := join_path p l in
    if is_reserved full then []
    else
      match kv_get s full with
      | Some data => data
      | None =>
          let ext_t := prefix_ext s p in
          match ext_t with
          | [] => []
          | _ => default [] (kv_get s (join_path ext_t l))
          end
      end.

Definition get_part s key (off len : Z) : bytes :=
  if is_reserved key then []
  else
    let '(p, l) := locate s key in
    let full := join_path p l in
    if is_reserved full then []
    else if kv_exists s full then default [] (kv_get_part s full off len)
    else
      let ext_t := prefix_ext s p in
      match ext_t with
      | [] => []
      | _ => let ext_full := join_path ext_t l in
             if kv_exists s ext_full then default [] (kv_get_part s ext_full off len) else []
      end.

Definition langtype_of s key : str :=
  let raw := get_raw s key in
  match HeadLenPow.from_wire raw with
  | None => []
  | Some _ => default [] (from_utf8_lossy <$> langtype_from_wire raw)
  end.

Definition list_ s prefix (expand_ext resolve : bool) : res kverr (list str) :=
  if is_reserved prefix then Ok []
  else
    assert_dir prefix;;
    let resolved := if resolve then resolve_path s prefix else prefix in
    if negb (is_dir resolved) then Ok []
    else if is_reserved resolved then Ok []
    else
      let members := read_dir_index s resolved in
      let ext_members :=
        if expand_ext then
          match prefix_ext s resolved with [] => [] | ext_t => read_dir_index s ext_t end
        else [] in
      Ok (sort_names (members ++ filter (λ m, m ∉ members) ext_members)).

Definition list_len s prefix (expand_ext resolve : bool) : res kverr Z :=
  l ← list_ s prefix expand_ext resolve; Ok (wrap_s 32 (Z.of_nat (length l))).

Definition list_at s prefix (idx : Z) (expand_ext resolve : bool) : res kverr (option str) :=
  if idx <? 0 then Ok None
  else l ← list_ s prefix expand_ext resolve; Ok (l !! Z.to_nat idx).

(** ** Writes *)

Abbreviation update A := (stm St kverr A).

(** One round of the loop of [set] up to the write: the key and the bytes to store. *)
Definition set_plan s (pair : KVPair) : res kverr (str * bytes) :=
  bail_if (is_reserved (pr_key pair)) (ReservedKey (pr_key pair));;
  let key := resolve_parent s (pr_key pair) in
  bail_if (contains "//"%rs key || is_reserved key) (InvalidKey key);;
  let raw := default (XValue.to_wire (pr_val pair)) (pr_raw pair) in
  head ← ok_or (InvalidXValue key) (HeadLenPow.from_wire raw);
  validate_status_wire key raw;;
  attr ← ok_or (InvalidXValue key) (attr_len raw);
  total ← ok_or (InvalidXValue key) (checked_add (h_len head) PREFIX ≫= λ x, checked_add x attr);
  bail_if (Z.of_nat (length raw) <? total) (InvalidXValue key);;
  let raw := take (Z.to_nat total) raw in
  let parent := (split_index key).1.1 in
  let base := strip_dir_suf parent in
  bail_if (ends_with OBJ_SEP parent && negb (starts_with "/lib"%rs base) && negb (present s base))
    (MemheadMissing base);;
  let ext_target := prefix_ext s parent in
  let suffix := default [] (strip_prefix parent key) in
  bail_if
    (negb (bool_decide (ext_target = [])) && negb (present s key) && present s (ext_target ++ suffix)
     && negb (bool_decide (h_reference head = RefPointer) && is_frame_operand_key key))
    (ExtWrite key);;
  Ok (key, raw).

Definition set_one (pair : KVPair) : update unit :=
  plan ← (λ s, (set_plan s pair, s));
  modify (kv_set plan.1 plan.2).

Definition set (pairs : list KVPair) : update unit := for_each pairs set_one.

(** The key [set_part] writes to: the key itself, or the one in the extension. *)
Definition set_part_target s key : res kverr str :=
  bail_if (is_reserved key) (ReservedKey key);;
  let '(p, l) := locate s key in
  let full := join_path p l in
  bail_if (is_reserved full) (ReservedKey full);;
  if kv_exists s full then Ok full
  else
    let ext_t := prefix_ext s p in
    let ext_full := join_path ext_t l in
    if negb (bool_decide (ext_t = [])) && kv_exists s ext_full then Ok ext_full
    else Err (SetPartMissing key).

Definition set_part_plan s key (off : Z) (buf : bytes) : res kverr str :=
  target ← set_part_target s key;
  wire ← ok_or (SetPartCannotRead target) (kv_get s target);
  effective ← ok_or (SetPartMalformed target) (effective_len wire);
  let upper := PREFIX + effective in
  bail_if (upper <? saturating_add_u64 off (Z.of_nat (length buf)))
    (SetPartOutOfRange target off (Z.of_nat (length buf)) upper);;
  Ok target.

Definition set_part key (off : Z) (buf : bytes) : update unit :=
  target ← (λ s, (set_part_plan s key off buf, s));
  modify (kv_set_part target off buf).

(** One round of the loop of [del] up to the deletion: the keys to delete. *)
Definition del_plan s key : res kverr (list str) :=
  bail_if (is_reserved key) (ReservedKey key);;
  let resolved := resolve_parent s key in
  bail_if (is_reserved resolved) (ReservedKey resolved);;
  let parent := (split_index resolved).1.1 in
  let ext_target := prefix_ext s parent in
  let suffix := default [] (strip_prefix parent resolved) in
  bail_if
    (negb (bool_decide (ext_target = [])) && negb (present s resolved) &&
     present s (ext_target ++ suffix)) (ExtDel resolved);;
  Ok (if is_dir resolved then [strip_dir_suf resolved; resolved] else [resolved]).

Definition del_one key : update unit :=
  keys ← (λ s, (del_plan s key, s));
  modify (kv_del keys).

Definition del (keys : list str) : update unit := for_each keys del_one.

Definition is_link s key : bool :=
  match kv_get s key with Some data => head_is_ptr (from_wire_head data) | None => false end.

(** The keys of a subtree, without the reserved ones. *)
Definition scan_unreserved s base : list str :=
  filter (λ k, is_reserved k = false) (kv_scan_keys s base).

Definition del_tree prefix : update unit :=
  err_if (is_reserved prefix) (ReservedKey prefix);;
  resolved ← gets (λ s, resolve_parent s prefix);
  err_if (is_reserved resolved) (ReservedKey resolved);;
  let base := subtree_base resolved in
  link ← gets (λ s, negb (bool_decide (base = [])) && is_link s base);
  if link : bool then del [resolved]
  else
    let scan := if decide (base = []) then PATH_SEP else base in
    keys ← gets (λ s, scan_unreserved s scan);
    if decide (keys = []) then mret tt else modify (kv_del keys).

Definition cp src dst : update unit :=
  err_if (is_reserved src || is_reserved dst) ReservedSrcDst;;
  raw ← gets (λ s, get_raw s src);
  err_if (bool_decide (raw = [])) (CpNotFound src);;
  set [mkPair dst (XValue.from_wire raw) (Some raw)].

(** [if is_dir(p) && p != PATH_SEP { p.pop(); }]: the last character is the one-byte [/] or the
    two-byte [·]. *)
Definition pop_dir path : str :=
  if is_dir path && negb (bool_decide (path = PATH_SEP)) then strip_dir_suf path else path.

(** [if let Some(data) = get(k) { set(new_key, data) }] *)
Definition copy_key (k new_key : str) : update unit :=
  data ← gets (λ s, kv_get s k);
  match data with Some data => modify (kv_set new_key data) | None => mret tt end.

Definition cp_tree src dst : update unit :=
  err_if (is_reserved src || is_reserved dst) ReservedSrcDst;;
  src_res ← gets (λ s, resolve_path s src);
  dst_res ← gets (λ s, resolve_path s dst);
  err_if (is_reserved src_res || is_reserved dst_res) ReservedSrcDst;;
  let src_scan := pop_dir src_res in
  let dst_base := pop_dir dst_res in
  if decide (src_scan = dst_base) then mret tt
  else
    err_if (is_descendant src_scan dst_base) CpTreeInside;;
    keys ← gets (λ s, scan_unreserved s src_scan);
    err_if (bool_decide (keys = [])) (CpTreeNotFound src);;
    ignore (del_tree dst_base);;
    for_each keys (λ k, copy_key k (dst_base ++ drop (length src_scan) k)).

(** The base itself, or a direct [·] member of it (or that member's [/] directory). *)
Definition one_level (suffix : str) : bool :=
  bool_decide (suffix = []) ||
  match strip_prefix OBJ_SEP suffix with
  | Some rest =>
      let member := default rest (strip_suffix PATH_SEP rest) in
      negb (bool_decide (member = [])) && negb (contains OBJ_SEP member) &&
      negb (contains PATH_SEP member)
  | None => false
  end.

Definition cp_list src dst : update unit :=
  err_if (is_reserved src || is_reserved dst) ReservedSrcDst;;
  src_base ← gets (λ s, pop_dir (resolve_path s src));
  dst_res ← gets (λ s, resolve_path s dst);
  err_if (is_reserved src_base || is_reserved dst_res) ReservedSrcDst;;
  let dst_base := pop_dir dst_res in
  if decide (src_base = dst_base) then mret tt
  else
    keys ← gets (λ s, scan_unreserved s src_base);
    err_if (bool_decide (keys = [])) (CpListNotFound src);;
    ignore (del_tree dst_base);;
    for_each keys (λ k,
      let suffix := drop (length src_base) k in
      if one_level suffix then copy_key k (dst_base ++ suffix) else mret tt).

Definition mkindex path (capacity : Z) : update unit :=
  err_if (negb (is_dir path)) (MkindexNotDir path);;
  resolved ← gets (λ s, resolve_path s path);
  value ← lift (ok_or (MkindexInvalid resolved) (HeadLenPow.to_wire [] "lib"%rs));
  found ← gets (λ s, present s resolved);
  if found : bool then mret tt else modify (kv_set resolved value).

Definition ext_index path (ext_path : str) : update unit :=
  err_if (negb (is_dir path) || negb (is_dir ext_path)) (ExtIndexNotDir path ext_path);;
  cascade ← gets (λ s, negb (bool_decide (prefix_ext s ext_path = [])));
  err_if cascade (ExtCascade ext_path);;
  resolved ← gets (λ s, resolve_parent s path);
  found ← gets (λ s, present s ext_path);
  err_if (negb found) (ExtTargetMissing ext_path);;
  langtype ← gets (λ s, langtype_of s ext_path);
  let prefixed := if starts_with "@"%rs langtype then langtype else "@"%rs ++ langtype in
  value ← lift (ok_or (ExtLocatorInvalid ext_path) (HeadLenPow.to_wire ext_path prefixed));
  modify (kv_set resolved value).

Definition del_ext_index path : update unit :=
  resolved ← gets (λ s, resolve_parent s path);
  let link_key := if is_dir resolved then strip_dir_suf resolved else resolved in
  link ← gets (λ s, is_link s link_key);
  if link : bool then modify (kv_del [link_key]) else modify (kv_del [resolved]).

Definition clear : update unit := modify kv_flush.

(** ** Helpers of the trait's users *)

Definition get_one s key : res kverr XValue :=
  let '(p, l) := sep_path key in
  let p := if decide (p = PATH_SEP) then p else p ++ DIR_INDEX_SUF in
  vs ← get s p [l] true;
  match vs with v :: _ => Ok v | [] => Ok XNone end.

Definition validate_ptr s (target target_kindexpr : str) : res kverr unit :=
  if bool_decide (target = []) || bool_decide (target_kindexpr = []) then Ok tt
  else
    v ← get_one s target;
    if is_none v then Ok tt
    else
      let actual := norm_langtype (x_langtype (from_wire_head (XValue.to_wire v))) in
      let expect := norm_langtype target_kindexpr in
      bail_if (negb (bool_decide (actual = expect))) (LinkTypeMismatch target actual expect).

End backend.
