(* ===== verification/BackendRead.v ===== *)
(** * What the reads of [Backend] compute

    Link resolution as bounded rewriting, batch [get] against its one-key reference, and the
    members [list_] returns. *)

From stdpp Require Import relations.
From S2P Require Import Prelude RustInt RustStr RustText HeadLenPow KPath Coord XValue Store Backend.
Local Open Scope Z_scope.
Implicit Types (key path prefix dir : str).

Lemma nsteps_mono {A} (R R' : relation A) n x y :
  (∀ a b, R a b → R' a b) → nsteps R n x y → nsteps R' n x y.
Proof. intros HR. induction 1; [constructor|]. eapply nsteps_l; [by apply HR|done]. Qed.

Section resolution.
Context `{KVLaws St}.
Implicit Types (s : St).

(** ** Links *)

(** The value at [key] is a link. *)
Definition link_at s key : bool :=
  match kv_get s key with Some data => is_ptr (XValue.from_wire data) | None => false end.

(** No ancestor of [path], nor [path] itself, is a link. *)
Definition link_free s path : Prop := Forall (λ p, link_at s p = false) (path_prefixes path).

(** One hop of resolution. *)
Definition link_step s (p q : str) : Prop := resolve_one s p = (q, true).

Lemma length_prefixes_from cur parts : length (prefixes_from cur parts) = length parts.
Proof. revert cur. induction parts as [|p ps IH]; intros cur; [done|]. simpl. by rewrite IH. Qed.

Lemma first_link_None s ps parts :
  length ps = length parts →
  first_link (kv_get_many s ps) parts = None ↔ Forall (λ p, link_at s p = false) ps.
Proof.
  rewrite law_get_many. revert parts. induction ps as [|p ps IH]; intros [|x parts] Hl; try done.
  simpl in Hl. injection Hl as Hl. rewrite fmap_cons. cbn [first_link].
  rewrite Forall_cons. unfold link_at at 1. rewrite law_get.
  destruct (st_map s !! p) as [data|]; [|rewrite IH by done; tauto].
  destruct (is_ptr (XValue.from_wire data)); [split; [done|by intros []]|].
  rewrite IH by done. tauto.
Qed.

Lemma first_link_Some s ps parts t rest :
  length ps = length parts → first_link (kv_get_many s ps) parts = Some (t, rest) →
  ∃ i k data, ps !! i = Some k ∧ kv_get s k = Some data ∧
    Forall (λ p, link_at s p = false) (take i ps) ∧
    is_ptr (XValue.from_wire data) = true ∧ t = ptr_target (XValue.from_wire data) ∧
    rest = drop (S i) parts.
Proof.
  rewrite law_get_many. revert parts. induction ps as [|p ps IH]; intros [|x parts] Hl; try done.
  simpl in Hl. injection Hl as Hl. rewrite fmap_cons. cbn [first_link]. rewrite <-law_get.
  destruct (kv_get s p) as [data|] eqn:E.
  - destruct (is_ptr (XValue.from_wire data)) eqn:Ep.
    + intros [= <- <-]. exists O, p, data. split_and!; [done..|constructor|done|done|done].
    + intros Hf. destruct (IH _ Hl Hf) as (i & k & d & H1 & H2 & H3 & H4 & H5 & H6).
      exists (S i), k, d. split_and!; try done. constructor; [|done]. unfold link_at. by rewrite E.
  - intros Hf. destruct (IH _ Hl Hf) as (i & k & d & H1 & H2 & H3 & H4 & H5 & H6).
    exists (S i), k, d. split_and!; try done. constructor; [|done]. unfold link_at. by rewrite E.
Qed.

(** What a hop does: the first link among the ancestors, root first, is replaced by its target,
    the components after it are appended, and a lost directory suffix is put back. *)
Definition hop s path (q : str) : Prop :=
  ∃ i k data, path_prefixes path !! i = Some k ∧ kv_get s k = Some data ∧
    Forall (λ p, link_at s p = false) (take i (path_prefixes path)) ∧
    let x := XValue.from_wire data in
    is_ptr x = true ∧
    let base := match drop (S i) (path_parts path) with
                | [] => ptr_target x
                | rest => join_path (ptr_target x) (join "/"%rs rest)
                end in
    q = if is_dir base then base else base ++ default [] (dir_suffix path).

Lemma link_step_hop s path q : link_step s path q → hop s path q.
Proof.
  unfold link_step, resolve_one, hop. destruct (decide (path = PATH_SEP)); [done|].
  destruct (first_link _ _) as [[t rest]|] eqn:E; [|done]. intros [= <-].
  apply first_link_Some in E as (i & k & data & H1 & H2 & H3 & H4 & -> & ->);
    [|apply length_prefixes_from].
  exists i, k, data. cbv zeta. split_and!; [done..|].
  destruct (drop (S i) (path_parts path)), (dir_suffix path); cbn [from_option id]; try done;
    rewrite app_nil_r; by destruct (is_dir _).
Qed.

Lemma resolve_one_free s path : link_free s path → resolve_one s path = (path, false).
Proof.
  intros Hf. unfold resolve_one. destruct (decide (path = PATH_SEP)); [done|].
  fold (path_prefixes path). by rewrite (proj2 (first_link_None s (path_prefixes path) _ (length_prefixes_from _ _)) Hf).
Qed.

Lemma resolve_one_false s path q : resolve_one s path = (q, false) → q = path ∧ link_free s path.
Proof.
  unfold resolve_one. destruct (decide (path = PATH_SEP)) as [->|Hne].
  { intros [= <-]. split; [done|]. constructor. }
  destruct (first_link _ _) as [[t r]|] eqn:E; [done|]. intros [= <-]. split; [done|].
  by apply (first_link_None s _ _ (length_prefixes_from _ _)).
Qed.

Lemma resolve_loop_free n s path : link_free s path → resolve_loop n s path = path.
Proof. intros Hf. destruct n; [done|]. cbn [resolve_loop]. by rewrite resolve_one_free. Qed.

Lemma resolve_path_free s path : link_free s path → resolve_path s path = path.
Proof. apply resolve_loop_free. Qed.

Lemma resolve_loop_spec n s path :
  ∃ m, (m <= n)%nat ∧ nsteps (link_step s) m path (resolve_loop n s path) ∧
       ((m < n)%nat → link_free s (resolve_loop n s path)).
Proof.
  revert path. induction n as [|n IH]; intros path.
  - exists O. split_and!; [lia|constructor|lia].
  - cbn [resolve_loop]. destruct (resolve_one s path) as [q []] eqn:E.
    + destruct (IH q) as (m & Hm & Hs & Hf). exists (S m). split_and!; [lia| |auto with lia].
      by apply nsteps_l with q.
    + apply resolve_one_false in E as [-> Hf]. exists O. split_and!; [lia|constructor|done].
Qed.

End resolution.

(** ** Batch reads *)

Section batch.
Context `{KVLaws St}.
Implicit Types (s : St).

(** The value of one key under a resolved directory: the reference [get] is compared with. *)
Definition read_key s prefix (k : str) : XValue :=
  let full := join_path prefix k in
  if is_reserved full then XNone
  else if is_dir full then get_dir s full
  else
    match kv_get s full with
    | Some data => XValue.from_wire data
    | None =>
        match prefix_ext s prefix with
        | [] => XNone
        | ext_t =>
            match kv_get s (join_path ext_t k) with
            | Some data => XValue.from_wire data
            | None => XNone
            end
        end
    end.

(** What the first two loops of [get] know about a key. *)
Definition read_local s prefix (k : str) : option XValue :=
  let full := join_path prefix k in
  if is_reserved full then Some XNone
  else if is_dir full then Some (get_dir s full)
  else XValue.from_wire <$> kv_get s full.

Fixpoint missing_from s prefix (i : nat) (keys : list str) : list nat :=
  match keys with
  | [] => []
  | k :: keys =>
      match read_local s prefix k with
      | None => i :: missing_from s prefix (S i) keys
      | Some _ => missing_from s prefix (S i) keys
      end
  end.

Lemma insert_at_length {A} (l k : list A) x y : <[length l := y]> (l ++ x :: k) = l ++ y :: k.
Proof. replace (length l) with (length l + 0)%nat by lia. by rewrite insert_app_r. Qed.

Lemma get_fill_split s prefix keys (pre : list (option XValue)) :
  let '(rs, fk) := get_split s prefix (length pre) keys in
  get_fill (pre ++ rs) fk (kv_get_many s fk.*2) =
  (pre ++ (read_local s prefix <$> keys), missing_from s prefix (length pre) keys).
Proof.
  revert pre. induction keys as [|k keys IH]; intros pre; [done|].
  cbn [get_split fmap list_fmap missing_from].
  assert (IH' : ∀ x, let '(rs, fk) := get_split s prefix (S (length pre)) keys in
    get_fill (pre ++ x :: rs) fk (kv_get_many s fk.*2) =
    (pre ++ x :: (read_local s prefix <$> keys), missing_from s prefix (S (length pre)) keys)).
  { intros x. specialize (IH (pre ++ [x])). rewrite length_app, Nat.add_1_r in IH.
    destruct (get_split _ _ _ _) as [rs fk]. by rewrite <-!app_assoc in IH. }
  clear IH.
  destruct (get_split s prefix (S (length pre)) keys) as [rs fk].
  rewrite law_get_many in *. cbv zeta.
  destruct (is_reserved (join_path prefix k)) eqn:Er.
  { assert (read_local s prefix k = Some XNone) as -> by (unfold read_local; by rewrite Er).
    rewrite law_get_many. exact (IH' _). }
  destruct (is_dir (join_path prefix k)) eqn:Ed.
  { assert (read_local s prefix k = Some (get_dir s (join_path prefix k))) as ->
      by (unfold read_local; by rewrite Er, Ed).
    rewrite law_get_many. exact (IH' _). }
  assert (read_local s prefix k = XValue.from_wire <$> kv_get s (join_path prefix k)) as ->
    by (unfold read_local; by rewrite Er, Ed).
  rewrite law_get_many, !fmap_cons. cbn [snd get_fill]. rewrite <-law_get.
  destruct (kv_get s (join_path prefix k)) as [data|]; cbn [fmap option_fmap option_map].
  - rewrite insert_at_length. exact (IH' _).
  - specialize (IH' None). by rewrite IH'.
Qed.

(** What the third loop adds for a key that is still missing. *)
Definition read_ext s prefix (ext_t : str) (k : str) : XValue :=
  match read_local s prefix k with
  | Some v => v
  | None => match kv_get s (join_path ext_t k) with Some data => XValue.from_wire data | None => XNone end
  end.

Lemma get_ext_missing s prefix ext_t keys (before : list str) (pre : list (option XValue)) :
  length pre = length before →
  let ext_keys := (λ i, (i, join_path ext_t (default [] ((before ++ keys) !! i)))) <$>
                    missing_from s prefix (length before) keys in
  get_ext (pre ++ (read_local s prefix <$> keys)) ext_keys (kv_get_many s ext_keys.*2) =
  pre ++ (Some <$> (read_ext s prefix ext_t <$> keys)).
Proof.
  cbv zeta. rewrite law_get_many. revert before pre.
  induction keys as [|k keys IH]; intros before pre Hl; [done|].
  assert (IH' : ∀ x,
    let ext_keys := (λ i, (i, join_path ext_t (default [] ((before ++ k :: keys) !! i)))) <$>
                      missing_from s prefix (S (length before)) keys in
    get_ext (pre ++ x :: (read_local s prefix <$> keys)) ext_keys
      ((λ k, st_map s !! k) <$> ext_keys.*2) =
    pre ++ x :: (Some <$> (read_ext s prefix ext_t <$> keys))).
  { intros x. specialize (IH (before ++ [k]) (pre ++ [x])). rewrite !length_app, Hl in IH.
    specialize (IH eq_refl). rewrite Nat.add_1_r, <-!app_assoc in IH. exact IH. }
  clear IH. rewrite !fmap_cons. unfold read_ext at 1.
  assert (Hk : (before ++ k :: keys) !! length before = Some k) by (by apply list_lookup_middle).
  cbn [missing_from]. destruct (read_local s prefix k) as [v|]; [exact (IH' (Some v))|].
  rewrite !fmap_cons. cbn [get_ext snd]. rewrite Hk, <-Hl, insert_at_length, Hl. cbn [from_option id].
  rewrite <-law_get. exact (IH' _).
Qed.

Lemma missing_from_nil s prefix i keys :
  missing_from s prefix i keys = [] →
  default XNone <$> (read_local s prefix <$> keys) = read_key s prefix <$> keys.
Proof.
  revert i. induction keys as [|k keys IH]; intros i; [done|]. cbn [missing_from].
  destruct (read_local s prefix k) as [v|] eqn:E; [|done]. intros Hm.
  rewrite !fmap_cons, (IH _ Hm), E. f_equal. cbn [from_option id].
  unfold read_local, read_key in *. cbv zeta in *.
  destruct (is_reserved _); [by injection E|]. destruct (is_dir _); [by injection E|].
  destruct (kv_get s _); [|done]. by injection E.
Qed.

Lemma read_ext_key s prefix k :
  match prefix_ext s prefix with [] => default XNone (read_local s prefix k)
                               | ext_t => read_ext s prefix ext_t k end = read_key s prefix k.
Proof.
  unfold read_ext, read_local, read_key. cbv zeta.
  destruct (prefix_ext s prefix) as [|c e]; destruct (is_reserved _); try done;
    destruct (is_dir _); try done; by destruct (kv_get s (join_path prefix k)).
Qed.

Lemma get_eq s prefix keys resolve :
  get s prefix keys resolve =
  (assert_dir prefix;;
   Ok (read_key s (if resolve : bool then resolve_path s prefix else prefix) <$> keys)).
Proof.
  unfold get. destruct (assert_dir prefix); [|done..]. unfold mbind, res_bind. cbv zeta.
  set (p := if resolve : bool then _ else _).
  pose proof (get_fill_split s p keys []) as Hf. cbn [length app] in Hf.
  destruct (get_split s p 0 keys) as [rs fk]. rewrite Hf. f_equal.
  destruct (missing_from s p 0 keys) as [|i ms] eqn:Em; [by apply (missing_from_nil _ _ 0)|].
  pose proof (read_ext_key s p) as Hk. destruct (prefix_ext s p) as [|c e] eqn:Ee.
  - rewrite <-list_fmap_compose. apply list_fmap_ext. intros ? x _. apply Hk.
  - pose proof (get_ext_missing s p (c :: e) keys [] [] eq_refl) as Hx. cbn [length app] in Hx.
    cbv zeta in Hx. rewrite Em in Hx. rewrite fmap_cons in *. rewrite Hx.
    rewrite <-list_fmap_compose. etransitivity; [|apply list_fmap_ext; intros ? x _; apply Hk].
    by rewrite list_fmap_id.
Qed.
End batch.

(** ** Listings *)

Section listing.
Context `{KVLaws St}.
Implicit Types (s : St) (name tail rest : str).

(** A name holds no separator. *)
Definition plain_name name : Prop :=
  name ≠ [] ∧ contains "/"%rs name = false ∧ contains "·"%rs name = false.

(** Runtime names, and the reserved area at the root, are hidden from listings. *)
Definition visible dir name : Prop :=
  (dir = PATH_SEP → name ≠ META_ROOT_NAME) ∧ contains RUNTIME_MEMBER_SEP name = false.

(** What may follow the name of a child. *)
Definition child_tail tail : Prop :=
  tail = [] ∨ (∃ t, tail = "/"%rs ++ t) ∨ (∃ t, tail = "·"%rs ++ t).

Lemma occurrence_inside p x y name tail :
  name ++ tail = x ++ p ++ y → (length x + length p <= length name)%nat → contains p name = true.
Proof.
  intros E Hl. apply contains_true. exists x, (take (length name - length x - length p) y).
  apply (f_equal (take (length name))) in E. rewrite take_app_length in E. rewrite E at 1.
  rewrite take_app_ge by lia. f_equal. rewrite take_app_ge by lia. done.
Qed.

(** No separator starts inside a name followed by a child's tail. *)
Lemma find_beyond_name p i name tail :
  p = "/"%rs ∨ p = "·"%rs → plain_name name → child_tail tail →
  find p (name ++ tail) = Some i → (length name <= i)%nat ∧ tail ≠ [].
Proof.
  intros Hp (Hne & H1 & H2) Ht Hf. pose proof (find_Some _ _ _ Hf) as Hs.
  pose proof (occurrence_bound p (name ++ tail) i ltac:(by destruct Hp as [-> | ->]) Hs) as Hb.
  assert (Hx : length (take i (name ++ tail)) = i) by (rewrite length_take; lia).
  assert (Hn : contains p name = false) by (by destruct Hp as [-> | ->]).
  assert (Hout : (length name < i + length p)%nat).
  { destruct (decide (length name < i + length p)%nat); [done|exfalso].
    rewrite (occurrence_inside p _ _ name tail Hs) in Hn by lia. done. }
  split; [|intros ->; rewrite app_nil_r in Hb; lia].
  destruct (decide (length name <= i)%nat) as [|Hlt]; [done|exfalso].
  destruct Hp as [-> | ->]; cbn [length] in Hout; [lia|].
  apply (f_equal (drop (length name))) in Hs. rewrite drop_app_length in Hs.
  replace (length name) with (i + 1)%nat in Hs by (cbn [length] in *; lia).
  rewrite drop_app_ge in Hs by lia. rewrite Hx in Hs.
  replace (i + 1 - i)%nat with 1%nat in Hs by lia. rewrite drop_app_le in Hs by (cbn [length]; lia).
  destruct Ht as [->|[[t ->]|[t ->]]]; discriminate Hs.
Qed.

Lemma find_sep_child name tail :
  plain_name name → child_tail tail →
  default (length (name ++ tail)) (find_sep (name ++ tail)) = length name.
Proof.
  intros Hn Ht.
  assert (Hge : ∀ p i, p = "/"%rs ∨ p = "·"%rs → find p (name ++ tail) = Some i →
    (length name <= i)%nat ∧ tail ≠ []) by eauto using find_beyond_name.
  unfold find_sep.
  assert (Hno : tail = [] → find "/"%rs (name ++ tail) = None ∧ find "·"%rs (name ++ tail) = None).
  { intros E. split.
    - destruct (find "/"%rs _) eqn:F; [|done]. by destruct (Hge _ _ (or_introl eq_refl) F).
    - destruct (find "·"%rs _) eqn:F; [|done]. by destruct (Hge _ _ (or_intror eq_refl) F). }
  destruct Ht as [->|[[t ->]|[t ->]]].
  - destruct Hno as [-> ->]; [done|]. cbn [from_option id]. by rewrite app_nil_r.
  - destruct (find_first "/"%rs _ name t eq_refl) as (i & Hi & Hle).
    destruct (Hge _ _ (or_introl eq_refl) Hi). rewrite Hi.
    destruct (find "·"%rs _) as [j|] eqn:F; cbn [from_option id]; [|lia].
    destruct (Hge _ _ (or_intror eq_refl) F). lia.
  - destruct (find_first "·"%rs _ name t eq_refl) as (i & Hi & Hle).
    destruct (Hge _ _ (or_intror eq_refl) Hi). rewrite Hi.
    destruct (find "/"%rs _) as [j|] eqn:F; cbn [from_option id]; [|lia].
    destruct (Hge _ _ (or_introl eq_refl) F). lia.
Qed.

Lemma take_no_sep p e rest :
  p ≠ [] → (∀ i, find p rest = Some i → (e <= i)%nat) → contains p (take e rest) = false.
Proof.
  intros Hp Hi. destruct (contains p (take e rest)) eqn:E; [|done].
  apply contains_true in E as (a & b & E). exfalso.
  destruct (find_first p rest a (b ++ drop e rest)) as (i & Hf & Hle).
  { rewrite <-(take_drop e rest) at 1. by rewrite E, <-!app_assoc. }
  apply Hi in Hf. apply (f_equal length) in E. rewrite !length_app, length_take in E.
  destruct p; [done|]. cbn [length] in E. lia.
Qed.

Lemma find_drop p rest i : find p rest = Some i → drop i rest = p ++ drop (i + length p) rest.
Proof.
  intros F. apply find_Some in F. apply (app_inv_head (take i rest)). by rewrite take_drop.
Qed.

(** The converse: the segment [find_sep] cuts off is a name, and a child's tail follows. *)
Lemma find_sep_split rest :
  let e := default (length rest) (find_sep rest) in
  e ≠ O → plain_name (take e rest) ∧ child_tail (drop e rest).
Proof.
  cbv zeta. intros He.
  assert (Hb : ∀ p i, p ≠ [] → find p rest = Some i → (i < length rest)%nat).
  { intros p i Hp F. pose proof (occurrence_bound _ _ _ Hp (find_Some _ _ _ F)).
    destruct p; [done|]. cbn [length] in *. lia. }
  assert (Hmin : ∀ p i, p = "/"%rs ∨ p = "·"%rs → find p rest = Some i →
    (default (length rest) (find_sep rest) <= i)%nat).
  { unfold find_sep. intros p i [-> | ->] F; rewrite F; [destruct (find "·"%rs rest)|
      destruct (find "/"%rs rest)]; cbn [from_option id]; lia. }
  split.
  - split_and!; [|apply take_no_sep; [done|]; eauto..].
    intros E. apply (f_equal length) in E. rewrite length_take in E. cbn [length] in E.
    assert (length rest = 0%nat) by lia. destruct rest; [|done]. by destruct He.
  - unfold child_tail, find_sep. destruct (find "/"%rs rest) as [i|] eqn:F1.
    + assert (Hi : ∃ t, drop i rest = "/"%rs ++ t) by (eexists; by apply find_drop).
      destruct (find "·"%rs rest) as [j|] eqn:F2; cbn [from_option id]; [|auto].
      destruct (Nat.min_spec i j) as [[_ ->]|[_ ->]]; [auto|]. right; right.
      eexists. by apply find_drop.
    + destruct (find "·"%rs rest) as [j|] eqn:F2; cbn [from_option id].
      * right; right. eexists. by apply find_drop.
      * left. by apply drop_all.
Qed.

Lemma find_sep_bound rest : (default (length rest) (find_sep rest) <= length rest)%nat.
Proof.
  assert (Hb : ∀ p i, p ≠ [] → find p rest = Some i → (i <= length rest)%nat).
  { intros p i Hp F. pose proof (occurrence_bound _ _ _ Hp (find_Some _ _ _ F)). lia. }
  unfold find_sep. destruct (find "/"%rs rest) eqn:F1, (find "·"%rs rest) eqn:F2;
    cbn [from_option id]; [apply Hb in F1; [lia|done]|by apply Hb in F1|by apply Hb in F2|done].
Qed.

Lemma direct_flag name tail :
  bool_decide ((name ++ tail) !! length name = Some SLASH) &&
    (length (name ++ tail) =? length name + 1)%nat = bool_decide (tail = "/"%rs).
Proof.
  rewrite lookup_app_r, Nat.sub_diag, length_app by lia. destruct tail as [|c t]; [done|]. simpl.
  destruct (Nat.eqb_spec (length name + S (length t)) (length name + 1)) as [E|E].
  - destruct t; [|cbn [length] in E; lia]. rewrite andb_true_r.
    apply bool_decide_ext. split; by intros [= ->].
  - rewrite andb_false_r. symmetry. apply bool_decide_eq_false. intros [= _ ->].
    cbn [length] in E. lia.
Qed.

Lemma visible_true dir name :
  (negb (bool_decide (dir = PATH_SEP)) || negb (bool_decide (name = META_ROOT_NAME))) &&
    negb (contains RUNTIME_MEMBER_SEP name) = true ↔ visible dir name.
Proof.
  unfold visible. rewrite andb_true_iff, orb_true_iff, !negb_true_iff, !bool_decide_eq_false.
  destruct (decide (dir = PATH_SEP)); tauto.
Qed.

(** A key contributes the name of the child of [dir] it lies under, and marks it as a directory
    when the key is exactly the child's [/] key. *)
Lemma index_entry_spec dir key name direct :
  index_entry dir key = Some (name, direct) ↔
  ∃ tail, key = dir ++ name ++ tail ∧ plain_name name ∧ child_tail tail ∧ visible dir name ∧
          direct = bool_decide (tail = "/"%rs).
Proof.
  unfold index_entry. split.
  - destruct (strip_prefix dir key) as [rest|] eqn:Ep; [|done]. cbn [mbind option_bind].
    apply strip_prefix_Some in Ep as ->. pose proof (find_sep_split rest) as Hs.
    pose proof (find_sep_bound rest) as Hle.
    set (e := default (length rest) (find_sep rest)) in *. cbv zeta in *.
    destruct (Nat.eqb_spec e 0) as [|He]; [done|]. destruct (Hs He) as [Hn Ht].
    destruct (_ && negb (contains _ _)) eqn:Ev; [|done]. intros [= <- <-].
    apply visible_true in Ev. exists (drop e rest). rewrite take_drop. split_and!; [done..|].
    pose proof (direct_flag (take e rest) (drop e rest)) as Hd.
    rewrite take_drop, length_take, Nat.min_l in Hd by done. exact Hd.
  - intros (tail & -> & Hn & Ht & Hv & ->). rewrite strip_prefix_app. cbn [mbind option_bind].
    rewrite (find_sep_child _ _ Hn Ht). destruct Hn as (Hne & _).
    destruct (Nat.eqb_spec (length name) 0) as [E|_]; [by destruct name|].
    cbv zeta. rewrite take_app_length. rewrite (proj2 (visible_true dir name) Hv).
    by rewrite direct_flag.
Qed.

(** The names the scan of a directory collects. *)
Definition index_fold dir (names : gmap str bool) key : gmap str bool :=
  match index_entry dir key with Some e => add_name names e | None => names end.

Lemma lookup_index_fold dir (keys : list str) (m : gmap str bool) name :
  (is_Some (foldl (index_fold dir) m keys !! name) ↔
     is_Some (m !! name) ∨ ∃ key direct, key ∈ keys ∧ index_entry dir key = Some (name, direct)) ∧
  (foldl (index_fold dir) m keys !! name = Some true ↔
     m !! name = Some true ∨ ∃ key, key ∈ keys ∧ index_entry dir key = Some (name, true)).
Proof.
  revert m. induction keys as [|key keys IH]; intros m; cbn [foldl].
  { split; (split; [by left|intros [?|Hx]; [done|]]);
      [destruct Hx as (? & ? & Hx & _)|destruct Hx as (? & Hx & _)]; by apply elem_of_nil in Hx. }
  destruct (IH (index_fold dir m key)) as [IH1 IH2]. rewrite IH1, IH2. clear IH IH1 IH2.
  setoid_rewrite elem_of_cons. unfold index_fold.
  destruct (index_entry dir key) as [[n d]|] eqn:E; [|naive_solver].
  unfold add_name. cbn [fst snd]. destruct (decide (n = name)) as [->|Hne].
  - rewrite lookup_insert_eq. split; [naive_solver|].
    destruct (m !! name) as [[]|] eqn:Em, d; cbn [from_option id orb]; naive_solver.
  - rewrite lookup_insert_ne by done. naive_solver.
Qed.

(** A live key that makes [name] show up under [dir]. *)
Definition child s dir name tail : Prop :=
  plain_name name ∧ child_tail tail ∧ visible dir name ∧
  is_subtree_key (strip_dir_suf dir) (dir ++ name ++ tail) = true ∧
  is_Some (kv_get s (dir ++ name ++ tail)).

(** The listing of [dir]: every child once, with a trailing [/] when it is itself a directory
    entry. *)
Definition shown s dir (m : str) : Prop :=
  (∃ name, m = name ++ "/"%rs ∧ child s dir name "/"%rs) ∨
  (∃ tail, child s dir m tail ∧ ¬ child s dir m "/"%rs).

Lemma scan_prefix_strip dir :
  default dir (match strip_suffix "/"%rs dir with
               | Some b => Some b | None => strip_suffix "·"%rs dir end) = strip_dir_suf dir.
Proof.
  unfold strip_dir_suf.
  destruct (strip_suffix "/"%rs dir) as [b|] eqn:E1.
  - apply strip_suffix_Some in E1 as ->. unfold DIR_INDEX_SUF. rewrite ends_with_app, length_app.
    simpl. rewrite Nat.add_sub. symmetry. apply take_app_length.
  - assert (ends_with DIR_INDEX_SUF dir = false) as ->.
    { destruct (ends_with _ _) eqn:E; [|done]. apply ends_with_true in E as [b ->].
      by rewrite strip_suffix_app in E1. }
    destruct (strip_suffix "·"%rs dir) as [b|] eqn:E2.
    + apply strip_suffix_Some in E2 as ->. unfold OBJ_SEP. rewrite ends_with_app, length_app.
      simpl. rewrite Nat.add_sub. symmetry. apply take_app_length.
    + assert (ends_with OBJ_SEP dir = false) as ->; [|done].
      destruct (ends_with _ _) eqn:E; [|done]. apply ends_with_true in E as [b ->].
      by rewrite strip_suffix_app in E2.
Qed.

Lemma index_names_spec s dir name :
  (is_Some (index_names s dir !! name) ↔ ∃ tail, child s dir name tail) ∧
  (index_names s dir !! name = Some true ↔ child s dir name "/"%rs).
Proof.
  unfold index_names. rewrite scan_prefix_strip. fold (index_fold dir).
  destruct (lookup_index_fold dir (kv_scan_keys s (strip_dir_suf dir)) ∅ name) as [-> ->].
  setoid_rewrite law_scan. setoid_rewrite index_entry_spec. setoid_rewrite <-law_get.
  rewrite lookup_empty. unfold child. split.
  - split; [intros [[]|(k & d & [Hs Hl] & tail & -> & ? & ? & ? & _)]; [done|eauto 10]|].
    intros (tail & ? & ? & ? & ? & ?). right. eexists _, _. split; [by split|]. eauto 10.
  - split.
    + intros [?|(k & [Hs Hl] & tail & -> & ? & ? & ? & Hd)]; [done|].
      symmetry in Hd. apply bool_decide_eq_true in Hd as ->. auto.
    + intros (? & ? & ? & ? & ?). right. eexists. split; [by split|]. exists "/"%rs. auto.
Qed.

Lemma plain_name_no_slash name x : plain_name name → name ≠ x ++ "/"%rs.
Proof.
  intros (_ & Hs & _) ->. rewrite (proj2 (contains_true "/"%rs _)) in Hs; [done|].
  exists x, []. by rewrite app_nil_r.
Qed.

Lemma index_plain s dir name d : index_names s dir !! name = Some d → plain_name name.
Proof.
  intros Hd. assert (is_Some (index_names s dir !! name)) as (t & Hp & _)%index_names_spec by eauto.
  done.
Qed.

Lemma show_name_inj s dir n1 d1 n2 d2 :
  index_names s dir !! n1 = Some d1 → index_names s dir !! n2 = Some d2 →
  show_name (n1, d1) = show_name (n2, d2) → n1 = n2.
Proof.
  intros H1%index_plain H2%index_plain. unfold show_name. cbn [fst snd].
  destruct d1, d2; intros E; [by apply app_inj_tail in E as [-> _]| | |done].
  - by destruct (plain_name_no_slash n2 n1 H2).
  - by destruct (plain_name_no_slash n1 n2 H1).
Qed.

Lemma elem_sort_names m l : m ∈ sort_names l ↔ m ∈ l.
Proof. unfold sort_names. by rewrite merge_sort_Permutation. Qed.

Lemma read_dir_index_spec s dir :
  NoDup (read_dir_index s dir) ∧ ∀ m, m ∈ read_dir_index s dir ↔ shown s dir m.
Proof.
  unfold read_dir_index. split.
  - unfold sort_names. rewrite merge_sort_Permutation. apply NoDup_fmap_2_strong.
    + intros [n1 d1] [n2 d2] H1%elem_of_map_to_list H2%elem_of_map_to_list E.
      pose proof (show_name_inj _ _ _ _ _ _ H1 H2 E) as ->. congruence.
    + apply NoDup_map_to_list.
  - intros m. rewrite elem_sort_names, list_elem_of_fmap. split.
    + intros ([n d] & -> & Hin). apply elem_of_map_to_list in Hin as Hd. unfold show_name. cbn [fst snd].
      destruct d; [left; exists n; split; [done|by apply index_names_spec]|right].
      assert (is_Some (index_names s dir !! n)) as (t & Ht)%index_names_spec by eauto.
      exists t. split; [done|]. intros Hc%index_names_spec. congruence.
    + intros [(n & -> & Hc)|(t & Hc & Hn)].
      * exists (n, true). split; [done|]. by apply elem_of_map_to_list, index_names_spec.
      * assert (is_Some (index_names s dir !! m)) as [d Hd] by (apply index_names_spec; eauto).
        exists (m, d). split; [|by apply elem_of_map_to_list]. destruct d; [|done].
        by apply index_names_spec in Hd.
Qed.
End listing.

(** ** Properties *)

(** C8. Link resolution terminates and follows links exactly: [resolve_path] is the end of a
    sequence of at most sixteen hops, each of which replaces the first link on the path from the
    root by its target, and when it made fewer than sixteen no ancestor of the result is a
    link. *)
Theorem resolve_path_follows_links `{KVLaws St} (s : St) path :
  ∃ m, (m <= 16)%nat ∧ nsteps (λ p q, hop s p q ∧ resolve_one s p = (q, true)) m path (resolve_path s path) ∧
       ((m < 16)%nat → link_free s (resolve_path s path)).
Proof.
  destruct (resolve_loop_spec 16 s path) as (m & Hm & Hs & Hf). exists m. split_and!; [done| |done].
  eapply nsteps_mono; [|exact Hs]. intros p q Hpq. split; [by apply link_step_hop|exact Hpq].
Qed.

(** C9. Batch [get] is pointwise: for a directory prefix it returns, in order, for each key
    exactly what a read of that key alone gives (nothing for a reserved key, the directory's own
    value for a directory key, the stored value, else the value in the extension of the prefix,
    else nothing); for any other prefix it panics. *)
Theorem get_pointwise `{KVLaws St} (s : St) prefix keys resolve :
  get s prefix keys resolve =
  if is_dir prefix
  then Ok (read_key s (if resolve : bool then resolve_path s prefix else prefix) <$> keys)
  else Panic (DirMustEndWithSlash prefix).
Proof.
  rewrite get_eq. unfold assert_dir. destruct (is_dir prefix) eqn:E.
  - by rewrite andb_false_r.
  - rewrite bool_decide_false by (intros ->; discriminate E). done.
Qed.

(** C10. [list_] panics exactly on an unreserved path that is no directory and never fails
    otherwise; what it returns is sorted in coordinate order without repetitions, and holds
    exactly the visible children of the resolved directory, together with those of its
    extension when asked to expand; a reserved path or a link to a non-directory lists as
    empty. *)
Theorem list_members `{KVLaws St} (s : St) prefix expand_ext resolve :
  let dir := if resolve : bool then resolve_path s prefix else prefix in
  match list_ s prefix expand_ext resolve with
  | Ok l => Sorted coord_le l ∧ NoDup l ∧
      ∀ m, m ∈ l ↔ is_reserved prefix = false ∧ is_dir dir = true ∧ is_reserved dir = false ∧
        (shown s dir m ∨
         (expand_ext = true ∧ prefix_ext s dir ≠ [] ∧ shown s (prefix_ext s dir) m))
  | Panic e => is_reserved prefix = false ∧ is_dir prefix = false ∧ e = DirMustEndWithSlash prefix
  | Err _ => False
  end.
Proof.
  cbv zeta. unfold list_. set (dir := if resolve : bool then _ else _).
  assert (Hnil : ∀ P : str → Prop, (∀ m, ¬ P m) → Sorted coord_le [] ∧ NoDup (@nil str) ∧ ∀ m, m ∈ (@nil str) ↔ P m).
  { intros P HP. split_and!; [constructor|constructor|]. intros m. rewrite elem_of_nil. naive_solver. }
  destruct (is_reserved prefix) eqn:Er; [apply Hnil; naive_solver|].
  unfold assert_dir. destruct (negb _ && negb (is_dir prefix)) eqn:Ea.
  { apply andb_true_iff in Ea as [_ Ea%negb_true_iff]. done. }
  unfold mbind, res_bind. destruct (is_dir dir) eqn:Ed; cbn [negb]; [|apply Hnil; naive_solver].
  destruct (is_reserved dir) eqn:Erd; [apply Hnil; naive_solver|].
  set (ext := if expand_ext : bool then _ else _).
  assert (Hext : NoDup ext ∧ ∀ m, m ∈ ext ↔
    expand_ext = true ∧ prefix_ext s dir ≠ [] ∧ shown s (prefix_ext s dir) m).
  { unfold ext. destruct expand_ext; [|split; [constructor|]; intros m; rewrite elem_of_nil; naive_solver].
    destruct (prefix_ext s dir) as [|c e] eqn:Ee;
      [split; [constructor|]; intros m; rewrite elem_of_nil; naive_solver|].
    destruct (read_dir_index_spec s (c :: e)) as [Hn Hm]. split; [done|]. intros m. rewrite Hm. naive_solver. }
  destruct (read_dir_index_spec s dir) as [Hn Hm], Hext as [Hne Hme]. split_and!.
  - apply Sorted_merge_sort, _.
  - unfold sort_names. rewrite merge_sort_Permutation. apply NoDup_app. split_and!; [done| |].
    + intros m Hin Hf. by apply list_elem_of_filter in Hf as [? _].
    + by apply NoDup_filter.
  - intros m. rewrite elem_sort_names, elem_of_app, list_elem_of_filter, Hme, Hm.
    destruct (decide (m ∈ read_dir_index s dir)) as [Hin|Hin]; rewrite Hm in Hin; naive_solver.
Qed.
