(* ===== verification/BackendWrite.v ===== *)
(** * What the writes of [Backend] do

    The exact conditions under which [set] writes a pair and what it writes, positional writes,
    deletion, the well-formedness of every stored value as an invariant of all operations, and
    the protection of the reserved area. *)

From stdpp Require Import relations.
From S2P Require Import Prelude RustInt RustStr RustText HeadLenPow KPath Coord XValue Store Backend BackendRead.
Local Open Scope Z_scope.
Implicit Types (key path prefix dir : str).

(** ** Executing state-and-error computations *)

Lemma bail_if_Ok {E} b (e : E) u : bail_if b e = Ok u ↔ b = false.
Proof. destruct b, u; simpl; split; congruence. Qed.

Lemma res_bind_Ok {E A B} (m : res E A) (f : A → res E B) b :
  m ≫= f = Ok b ↔ ∃ a, m = Ok a ∧ f a = Ok b.
Proof. destruct m; simpl; naive_solver. Qed.

Lemma ok_or_Ok {E A} (e : E) (o : option A) a : ok_or e o = Ok a ↔ o = Some a.
Proof. destruct o; simpl; naive_solver. Qed.

(** A computation that cannot panic. *)
Definition no_panic {E A} (r : res E A) : Prop := match r with Panic _ => False | _ => True end.

Lemma no_panic_bind {E A B} (m : res E A) (f : A → res E B) :
  no_panic m → (∀ a, no_panic (f a)) → no_panic (m ≫= f).
Proof. destruct m; simpl; auto. Qed.

Lemma no_panic_bail {E} b (e : E) : no_panic (bail_if b e).
Proof. by destruct b. Qed.

Lemma no_panic_ok_or {E A} (e : E) (o : option A) : no_panic (ok_or e o).
Proof. by destruct o. Qed.

Lemma no_panic_ok {E A} (a : A) : no_panic (E:=E) (Ok a).
Proof. done. Qed.

Create HintDb no_panic discriminated.
#[export] Hint Resolve no_panic_bind no_panic_bail no_panic_ok_or no_panic_ok : no_panic.

(** ** [set] *)

Section set.
Context `{KVLaws St}.
Implicit Types (s : St) (pair : KVPair) (h : Head).

(** The wire a pair carries: its raw bytes, or its value encoded. *)
Definition pair_wire pair : bytes := default (XValue.to_wire (pr_val pair)) (pr_raw pair).

(** The wire contract of a [‥status] slot. *)
Definition status_ok raw h : Prop :=
  (∃ e, effective_len raw = Some e ∧ e <= STATUS_MAX_LEN) ∧
  starts_with "char/"%rs (base_kind (h_langtype h)) = true ∧
  (h_layout h = LAYOUT_CAPACITY → STATUS_MIN_CAP <= h_len h).

(** Everything [set] demands of a pair before it writes [key]. *)
Record set_ok s pair key h : Prop := {
  ok_key : key = resolve_parent s (pr_key pair);
  ok_given : is_reserved (pr_key pair) = false;
  ok_reserved : is_reserved key = false;
  ok_canonical : contains DOUBLE_SEP key = false;
  ok_wire : HeadLenPow.from_wire (pair_wire pair) = Some h;
  ok_status : is_status_key key = true → status_ok (pair_wire pair) h;
  ok_member : let parent := (split_index key).1.1 in
    ends_with OBJ_SEP parent = true →
    starts_with "/lib"%rs (strip_dir_suf parent) = true ∨
    is_Some (kv_get s (strip_dir_suf parent));
  ok_shadow : let parent := (split_index key).1.1 in
    let ext := prefix_ext s parent in
    ext ≠ [] → kv_get s key = None →
    is_Some (kv_get s (ext ++ default [] (strip_prefix parent key))) →
    h_reference h = RefPointer ∧ is_frame_operand_key key = true;
}.

Lemma present_true s k : present s k = true ↔ is_Some (kv_get s k).
Proof. unfold present. by destruct (kv_get s k). Qed.

Lemma present_false s k : present s k = false ↔ kv_get s k = None.
Proof. unfold present. by destruct (kv_get s k). Qed.

Lemma validate_status_wire_Ok key raw h :
  HeadLenPow.from_wire raw = Some h →
  validate_status_wire key raw = Ok tt ↔ (is_status_key key = true → status_ok raw h).
Proof.
  intros Hf. unfold validate_status_wire, status_ok. destruct (is_status_key key); [|done].
  cbn [negb]. rewrite Hf. destruct (effective_len_le _ _ Hf) as (e & He & _). rewrite He.
  cbn [ok_or mbind res_bind]. unfold bail_if.
  destruct (Z.ltb_spec STATUS_MAX_LEN e) as [H1|H1]; cbn [mbind res_bind].
  { split; [done|]. intros Hs. destruct (Hs eq_refl) as [(e' & [= <-] & ?) _]. lia. }
  destruct (starts_with _ _) eqn:Hc; cbn [negb mbind res_bind].
  - destruct (_ && _) eqn:Hl; cbn [mbind res_bind].
    + apply andb_true_iff in Hl as [Hl1 Hl2]. split; [done|].
      intros Hs. destruct (Hs eq_refl) as (_ & _ & Hcap). apply Z.eqb_eq in Hl1. specialize (Hcap Hl1). lia.
    + split; [|done]. intros _ _. split_and!; [eauto|done|]. intros Hl1. rewrite Hl1 in Hl.
      unfold STATUS_MIN_CAP in *. simpl in Hl. lia.
  - split; [done|]. intros Hs. by destruct (Hs eq_refl) as (_ & ? & _).
Qed.

Lemma attr_len_total raw h :
  HeadLenPow.from_wire raw = Some h →
  attr_len raw = Some (Z.of_nat (length (h_attrs h))) ∧
  (checked_add (h_len h) PREFIX ≫= λ x, checked_add x (Z.of_nat (length (h_attrs h)))) =
    Some (Z.of_nat (value_size h)) ∧
  (Z.of_nat (length raw) <? Z.of_nat (value_size h)) = false ∧
  take (Z.to_nat (Z.of_nat (value_size h))) raw = encode_head h.
Proof.
  intros Hf. split; [by apply attr_len_from_wire|].
  destruct (from_wire_take _ _ Hf) as (Ht & Hle & _).
  apply from_wire_spec in Hf as (Hwf & _). pose proof (wf_total h Hwf). pose proof (wf_len h Hwf).
  unfold checked_add, value_size in *. change PREFIX with 16 in *.
  destruct (Z.leb_spec (h_len h + 16) USIZE_MAX); [|lia]. cbn [mbind option_bind].
  destruct (Z.leb_spec (h_len h + 16 + Z.of_nat (length (h_attrs h))) USIZE_MAX); [|lia].
  split_and!; [f_equal; lia|apply Z.ltb_ge; lia|by rewrite Nat2Z.id].
Qed.

Lemma member_guard (o l p : bool) (P : Prop) :
  (p = true ↔ P) → (o && negb l && negb p = false ↔ (o = true → l = true ∨ P)).
Proof. destruct o, l, p; simpl; intuition congruence. Qed.

Lemma shadow_guard (e p x f : bool) (E P X F : Prop) :
  (e = true ↔ ¬ E) → (p = false ↔ P) → (x = true ↔ X) → (f = true ↔ F) →
  (negb e && negb p && x && negb f = false ↔ (E → P → X → F)).
Proof.
  intros He Hp Hx Hf. destruct e, p, x, f; simpl; intuition congruence.
Qed.

Lemma shadow_iff s key ext suffix h :
  negb (bool_decide (ext = [])) && negb (present s key) && present s (ext ++ suffix) &&
    negb (bool_decide (h_reference h = RefPointer) && is_frame_operand_key key) = false ↔
  (ext ≠ [] → kv_get s key = None → is_Some (kv_get s (ext ++ suffix)) →
     h_reference h = RefPointer ∧ is_frame_operand_key key = true).
Proof.
  apply shadow_guard; [|apply present_false|apply present_true|].
  - rewrite bool_decide_eq_true. destruct (decide (ext = [])); tauto.
  - by rewrite andb_true_iff, bool_decide_eq_true.
Qed.

Lemma set_plan_Ok s pair key raw :
  set_plan s pair = Ok (key, raw) ↔ ∃ h, set_ok s pair key h ∧ raw = encode_head h.
Proof.
  unfold set_plan. fold (pair_wire pair) DOUBLE_SEP. cbv zeta.
  repeat setoid_rewrite res_bind_Ok. repeat setoid_rewrite bail_if_Ok.
  setoid_rewrite ok_or_Ok. split.
  - intros (_ & Hg & _ & [Hc Hr]%orb_false_iff & h & Hw & [] & Hst & attr & Ha & tot & Ht & _ & _ & _ &
      Hm & _ & Hx & E).
    exists h. destruct (attr_len_total _ _ Hw) as (Ha' & Ht' & _ & Htake).
    rewrite Ha in Ha'. injection Ha' as ->. rewrite Ht in Ht'. injection Ht' as ->.
    injection E as <- <-. split; [|done]. constructor; try done.
    + by apply validate_status_wire_Ok.
    + cbv zeta. by apply (member_guard _ _ _ _ (present_true _ _)).
    + exact (proj1 (shadow_iff _ _ _ _ _) Hx).
  - intros (h & [-> Hg Hr Hc Hw Hst Hm Hx] & ->). cbv zeta in *.
    destruct (attr_len_total _ _ Hw) as (Ha & Ht & Hl & Htake).
    exists tt. split; [done|]. exists tt. split; [by rewrite Hc, Hr|].
    exists h. split; [done|]. exists tt.
    split; [exact (proj2 (validate_status_wire_Ok _ _ _ Hw) Hst)|].
    eexists. split; [exact Ha|]. eexists. split; [exact Ht|]. exists tt. split; [done|].
    exists tt. split; [by apply (member_guard _ _ _ _ (present_true _ _))|].
    exists tt. split; [exact (proj2 (shadow_iff _ _ _ _ _) Hx)|]. by rewrite Htake.
Qed.

Lemma set_plan_no_panic s pair : no_panic (set_plan s pair).
Proof.
  unfold set_plan. cbv zeta. repeat (apply no_panic_bind; [|intros ?]); auto with no_panic.
  unfold validate_status_wire. destruct (negb _); [done|]. cbv zeta.
  repeat (apply no_panic_bind; [|intros ?]); auto with no_panic.
Qed.
End set.

(** ** Batches, positional writes and deletion *)

Section writes.
Context `{KVLaws St}.
Implicit Types (s : St) (pair : KVPair) (h : Head) (buf v : bytes) (off e : Z).

Lemma set_one_eq pair s :
  set_one pair s = match set_plan s pair with
                   | Ok (k, raw) => (Ok tt, kv_set k raw s)
                   | Err e => (Err e, s)
                   | Panic e => (Panic e, s)
                   end.
Proof. unfold set_one, mbind, stm_bind. by destruct (set_plan s pair) as [[k raw]| |]. Qed.

Lemma set_single pair s : set [pair] s = set_one pair s.
Proof.
  unfold set. cbn [for_each]. rewrite stm_bind_eq, set_one_eq.
  by destruct (set_plan s pair) as [[k raw]| |].
Qed.

Lemma set_one_Ok pair s s' :
  set_one pair s = (Ok tt, s') ↔ ∃ key h, set_ok s pair key h ∧ s' = kv_set key (encode_head h) s.
Proof.
  rewrite set_one_eq. split.
  - destruct (set_plan s pair) as [[k raw]| |] eqn:E; [|done..]. intros [= <-].
    apply set_plan_Ok in E as (h & Hok & ->). eauto.
  - intros (key & h & Hok & ->). by rewrite (proj2 (set_plan_Ok s pair key _) (ex_intro _ h (conj Hok eq_refl))).
Qed.

(** The sequence of writes a batch performs. *)
Inductive set_writes : St → list KVPair → St → Prop :=
  | set_writes_nil s : set_writes s [] s
  | set_writes_cons s pair pairs key h s' :
      set_ok s pair key h → set_writes (kv_set key (encode_head h) s) pairs s' →
      set_writes s (pair :: pairs) s'.

Lemma set_run pairs s :
  let '(r, s') := set pairs s in
  ∃ written rest, pairs = written ++ rest ∧ set_writes s written s' ∧
    match r with
    | Ok _ => rest = []
    | Err _ => ∃ pair rest', rest = pair :: rest' ∧ ∀ key h, ¬ set_ok s' pair key h
    | Panic _ => False
    end.
Proof.
  revert s. unfold set. induction pairs as [|pair pairs IH]; intros s; cbn [for_each].
  { exists [], []. split_and!; [done|constructor|done]. }
  rewrite stm_bind_eq, set_one_eq. destruct (set_plan s pair) as [[k raw]|e|e] eqn:E.
  - specialize (IH (kv_set k raw s)).
    apply set_plan_Ok in E as (h & Hok & ->).
    destruct (for_each pairs set_one _) as [r s'].
    destruct IH as (written & rest & -> & Hw & Hr). exists (pair :: written), rest.
    split_and!; [done| |done]. by econstructor.
  - exists [], (pair :: pairs). split_and!; [done|constructor|]. exists pair, pairs. split; [done|].
    intros key h Hok. pose proof (proj2 (set_plan_Ok s pair key _) (ex_intro _ h (conj Hok eq_refl))).
    congruence.
  - pose proof (set_plan_no_panic s pair) as Hn. by rewrite E in Hn.
Qed.

(** ** Positional writes *)

Lemma set_part_plan_Ok s key off buf target :
  set_part_plan s key off buf = Ok target ↔
  set_part_target s key = Ok target ∧ ∃ v e, kv_get s target = Some v ∧ effective_len v = Some e ∧
    saturating_add_u64 off (Z.of_nat (length buf)) <= PREFIX + e.
Proof.
  unfold set_part_plan. cbv zeta. repeat setoid_rewrite res_bind_Ok.
  setoid_rewrite ok_or_Ok. setoid_rewrite bail_if_Ok. setoid_rewrite Z.ltb_ge. split.
  - intros (t & Ht & v & Hv & e & He & [] & Hle & [= ->]). eauto 10.
  - intros (Ht & v & e & Hv & He & Hle). exists target. split; [done|].
    exists v. split; [done|]. exists e. split; [done|]. by exists tt.
Qed.

Lemma saturating_inside off (n e : Z) :
  0 <= off <= U32_MAX → n <= ISIZE_MAX → saturating_add_u64 off n <= PREFIX + e →
  off + n <= PREFIX + e.
Proof.
  intros Ho Hl Hle. unfold saturating_add_u64 in Hle.
  assert (U32_MAX + ISIZE_MAX < USIZE_MAX) by reflexivity. lia.
Qed.

Lemma body_end_inside h (extra : bytes) (x e : Z) :
  wf_head h → x <= PREFIX + e → e <= h_len h → x <= Z.of_nat (length (encode_head h ++ extra)).
Proof.
  intros Hwf Hx He. rewrite (wf_len h Hwf) in He. rewrite length_app, length_encode_head.
  unfold value_size, PREFIX in *. lia.
Qed.

(** The range lies in the effective part of the value a key leads to. *)
Definition part_fits s key off buf (target : str) v e : Prop :=
  set_part_target s key = Ok target ∧ kv_get s target = Some v ∧ effective_len v = Some e ∧
  off + Z.of_nat (length buf) <= PREFIX + e.

(** A range that passes the bound lies inside the stored value. *)
Lemma set_part_fits off buf v e :
  effective_len v = Some e → 0 <= off <= U32_MAX → Z.of_nat (length buf) <= ISIZE_MAX →
  saturating_add_u64 off (Z.of_nat (length buf)) <= PREFIX + e →
  ∃ h, HeadLenPow.from_wire v = Some h ∧ e <= h_len h ∧
    off + Z.of_nat (length buf) <= PREFIX + e ∧
    off + Z.of_nat (length buf) <= Z.of_nat (length v).
Proof.
  intros He Ho Hl Hle. destruct (effective_len_Some _ _ He) as (h & Hf & Hle').
  pose proof (saturating_inside _ _ _ Ho Hl Hle) as Hb.
  exists h. split; [exact Hf|]. split; [exact Hle'|]. split; [exact Hb|].
  apply from_wire_spec in Hf as (Hwf & extra & ->). by apply (body_end_inside h extra _ e).
Qed.

Lemma set_part_eq key off buf s :
  set_part key off buf s = match set_part_plan s key off buf with
                           | Ok t => (Ok tt, kv_set_part t off buf s)
                           | Err e => (Err e, s)
                           | Panic e => (Panic e, s)
                           end.
Proof. unfold set_part, mbind, stm_bind. by destruct (set_part_plan _ _ _ _). Qed.

Lemma set_part_plan_no_panic s key off buf : no_panic (set_part_plan s key off buf).
Proof.
  unfold set_part_plan, set_part_target. cbv zeta.
  repeat (apply no_panic_bind; [|intros ?]); auto with no_panic.
  destruct (locate s key). apply no_panic_bind; [auto with no_panic|intros _].
  destruct (kv_exists _ _); [done|]. by destruct (_ && _).
Qed.
End writes.

(** ** The invariant: every stored value is exactly one well-formed wire *)

Section invariant.
Context `{KVLaws St}.
Implicit Types (s : St) (pair : KVPair) (h : Head) (buf v : bytes) (off e : Z).

Definition wf_value (v : bytes) : Prop := ∃ h, wf_head h ∧ v = encode_head h.
Definition wf_store s : Prop := ∀ k v, kv_get s k = Some v → wf_value v.

Lemma wf_store_set s k v : wf_store s → wf_value v → wf_store (kv_set k v s).
Proof.
  intros Hs Hv k' v'. rewrite kv_get_set. destruct (decide (k = k')); [by intros [= <-]|apply Hs].
Qed.

Lemma wf_store_del s ks : wf_store s → wf_store (kv_del ks s).
Proof. intros Hs k' v'. rewrite kv_get_del. case_decide; [done|apply Hs]. Qed.

Lemma kv_get_set_part s k off buf v k' :
  kv_get s k = Some v → 0 <= off → off + Z.of_nat (length buf) <= Z.of_nat (length v) →
  kv_get (kv_set_part k off buf s) k' =
    if decide (k = k') then Some (splice (Z.to_nat off) buf v) else kv_get s k'.
Proof.
  rewrite !law_get. intros Hv H1 H2. rewrite (law_set_part s k off buf v) by done.
  case_decide as E; [subst; apply lookup_insert_eq|by apply lookup_insert_ne].
Qed.

Lemma splice_encode h off buf :
  wf_head h → PREFIX <= off → off + Z.of_nat (length buf) <= PREFIX + h_len h →
  splice (Z.to_nat off) buf (encode_head h) =
    encode_head (with_body h (splice (Z.to_nat (off - PREFIX)) buf (h_body h))) ∧
  wf_head (with_body h (splice (Z.to_nat (off - PREFIX)) buf (h_body h))).
Proof.
  intros Hwf Ho Hb. pose proof (wf_len h Hwf) as Hlen.
  assert (Hl : length (splice (Z.to_nat (off - PREFIX)) buf (h_body h)) = length (h_body h)).
  { apply length_splice. unfold PREFIX in *. lia. }
  split; [|by apply wf_with_body]. unfold encode_head. cbn [with_body h_len h_attrs h_layout h_body].
  rewrite splice_inside by (rewrite length_header; unfold PREFIX in *; lia).
  rewrite length_header. do 4 f_equal. unfold PREFIX. lia.
Qed.

Lemma wf_store_set_part key off buf :
  PREFIX <= off <= U32_MAX → Z.of_nat (length buf) <= ISIZE_MAX →
  keeps wf_store (set_part key off buf).
Proof.
  intros Ho Hl s Hs. rewrite set_part_eq. destruct (set_part_plan _ _ _ _) as [t| |] eqn:E; [|done..].
  apply set_part_plan_Ok in E as (_ & v & e & Hv & He & Hle). cbn [snd].
  assert (H0off : 0 <= off <= U32_MAX) by (unfold PREFIX in Ho; lia).
  destruct (set_part_fits off buf v e He H0off Hl Hle) as (h & Hf & Hle' & Hb & Hlen).
  destruct (Hs _ _ Hv) as (h' & Hwf & ->).
  rewrite <-(app_nil_r (encode_head h')), from_wire_encode in Hf by done. injection Hf as <-.
  intros k v'. rewrite (kv_get_set_part s t off buf _ _ Hv) by lia.
  destruct (decide (t = k)); [|apply Hs]. intros [= <-].
  destruct (splice_encode h' off buf Hwf) as [-> Hwf']; [lia|lia|]. by eexists.
Qed.

Lemma wf_store_set_one pair : keeps wf_store (set_one pair).
Proof.
  intros s Hs. rewrite set_one_eq. destruct (set_plan s pair) as [[k raw]| |] eqn:E; [|done..].
  apply set_plan_Ok in E as (h & [_ _ _ _ Hw _ _ _] & ->). apply wf_store_set; [done|].
  exists h. split; [by apply from_wire_spec in Hw as [? _]|done].
Qed.

Lemma wf_store_set_pairs pairs : keeps wf_store (set pairs).
Proof. apply keeps_for_each. intros pair _. apply wf_store_set_one. Qed.

Lemma del_one_eq key s :
  del_one key s = match del_plan s key with
                  | Ok ks => (Ok tt, kv_del ks s) | Err e => (Err e, s) | Panic e => (Panic e, s)
                  end.
Proof. unfold del_one, mbind, stm_bind. by destruct (del_plan s key). Qed.

Lemma wf_store_del_keys keys : keeps wf_store (del keys).
Proof.
  apply keeps_for_each. intros key _ s Hs. rewrite del_one_eq.
  destruct (del_plan s key); [by apply wf_store_del|done..].
Qed.

Lemma wf_store_modify_del ks : keeps (E:=kverr) wf_store (modify (kv_del ks)).
Proof. apply keeps_modify. intros s. apply wf_store_del. Qed.

Lemma wf_store_modify_set k v : wf_value v → keeps (E:=kverr) wf_store (modify (kv_set k v)).
Proof. intros Hv. apply keeps_modify. intros s Hs. by apply wf_store_set. Qed.

Lemma wf_store_copy_key k new_key : keeps wf_store (copy_key k new_key).
Proof.
  intros s Hs. unfold copy_key. rewrite stm_bind_eq. cbn [gets].
  destruct (kv_get s k) as [data|] eqn:E; [|done]. apply wf_store_set; [done|]. by apply (Hs k).
Qed.

Lemma wf_store_del_tree prefix : keeps wf_store (del_tree prefix).
Proof. unfold del_tree. keeps_steps; auto using wf_store_del_keys, wf_store_modify_del. Qed.

Lemma wf_store_cp src dst : keeps wf_store (cp src dst).
Proof. unfold cp. keeps_steps. apply wf_store_set_pairs. Qed.

Lemma wf_store_cp_tree src dst : keeps wf_store (cp_tree src dst).
Proof.
  unfold cp_tree. keeps_steps; [apply wf_store_del_tree|].
  apply keeps_for_each. intros k _. apply wf_store_copy_key.
Qed.

Lemma wf_store_cp_list src dst : keeps wf_store (cp_list src dst).
Proof.
  unfold cp_list. keeps_steps; [apply wf_store_del_tree|].
  apply keeps_for_each. intros k _. cbv zeta. destruct (one_level _); [|apply keeps_ret].
  apply wf_store_copy_key.
Qed.

Lemma to_wire_wf_value body lt w : HeadLenPow.to_wire body lt = Some w → wf_value w.
Proof.
  intros (a & Ha & Hf & ->)%to_wire_Some. eexists. split; [by apply wf_length_head|done].
Qed.

Lemma wf_store_modify_wire body lt w (e : kverr) k :
  ok_or e (HeadLenPow.to_wire body lt) = Ok w → keeps (E:=kverr) wf_store (modify (kv_set k w)).
Proof. intros Hw%ok_or_Ok. eapply wf_store_modify_set, to_wire_wf_value, Hw. Qed.

Lemma wf_store_mkindex path capacity : keeps wf_store (mkindex path capacity).
Proof.
  unfold mkindex. keeps_steps. eauto using wf_store_modify_wire.
Qed.

Lemma wf_store_ext_index path ext_path : keeps wf_store (ext_index path ext_path).
Proof.
  unfold ext_index. keeps_steps; eauto using wf_store_modify_wire.
Qed.

Lemma wf_store_del_ext_index path : keeps wf_store (del_ext_index path).
Proof. unfold del_ext_index. keeps_steps; apply wf_store_modify_del. Qed.

Lemma wf_store_empty s : (∀ k, kv_get s k = None) → wf_store s.
Proof. intros He k v. by rewrite He. Qed.

Lemma wf_store_clear : keeps wf_store clear.
Proof.
  apply keeps_modify. intros s _. apply wf_store_empty. intros k.
  by rewrite law_get, law_flush, lookup_empty.
Qed.
End invariant.

(** ** The key-value space as a transition system *)

(** The calls of the trait that change the store. *)
Inductive op :=
  | OSet (pairs : list KVPair)
  | OSetPart key (off : Z) (buf : bytes)
  | ODel (keys : list str)
  | ODelTree prefix
  | OCp (src dst : str)
  | OCpTree (src dst : str)
  | OCpList (src dst : str)
  | OMkindex path (capacity : Z)
  | OExtIndex path (ext_path : str)
  | ODelExtIndex path
  | OClear.

Definition run_op `{KVStore St} (o : op) : stm St kverr unit :=
  match o with
  | OSet pairs => set pairs
  | OSetPart key off buf => set_part key off buf
  | ODel keys => del keys
  | ODelTree prefix => del_tree prefix
  | OCp src dst => cp src dst
  | OCpTree src dst => cp_tree src dst
  | OCpList src dst => cp_list src dst
  | OMkindex path capacity => mkindex path capacity
  | OExtIndex path ext_path => ext_index path ext_path
  | ODelExtIndex path => del_ext_index path
  | OClear => clear
  end.

(** A positional write that starts in the body, with a [u32] offset and a real slice. *)
Definition in_body (o : op) : Prop :=
  match o with
  | OSetPart _ off buf => PREFIX <= off <= U32_MAX ∧ Z.of_nat (length buf) <= ISIZE_MAX
  | _ => True
  end.

(** The states reached from an empty store; a failed call may still have changed the state. *)
Inductive reachable `{KVLaws St} : St → Prop :=
  | reach_empty s : st_map s = ∅ → reachable s
  | reach_op s o : reachable s → in_body o → reachable (snd (run_op o s)).

Lemma run_op_keeps_wf `{KVLaws St} (o : op) : in_body o → keeps wf_store (run_op (St:=St) o).
Proof.
  destruct o; cbn [run_op in_body]; intros Ho;
    [apply wf_store_set_pairs|apply wf_store_set_part; tauto|apply wf_store_del_keys
    |apply wf_store_del_tree|apply wf_store_cp|apply wf_store_cp_tree|apply wf_store_cp_list
    |apply wf_store_mkindex|apply wf_store_ext_index|apply wf_store_del_ext_index|apply wf_store_clear].
Qed.

Lemma reachable_wf `{KVLaws St} (s : St) : reachable s → wf_store s.
Proof.
  induction 1 as [s Hs|s o _ IH Ho]; [|by apply run_op_keeps_wf].
  apply wf_store_empty. intros k. by rewrite law_get, Hs, lookup_empty.
Qed.

(** ** Properties *)

(** C11. [set] writes a batch pair by pair and never panics: it performs a sequence of writes,
    each of exactly the head, body and attrs of the pair's wire (trailing bytes dropped) under
    the parent-resolved key, each pair satisfying every guard in the state its predecessors
    left; it either reaches the end of the batch, or stops with an error at the first pair that
    violates a guard, keeping the writes made before it and making none after. *)
Theorem set_writes_accepted_prefix `{KVLaws St} (pairs : list KVPair) (s : St) :
  let '(r, s') := set pairs s in
  ∃ written rest, pairs = written ++ rest ∧ set_writes s written s' ∧
    match r with
    | Ok _ => rest = []
    | Err _ => ∃ pair rest', rest = pair :: rest' ∧ ∀ key h, ¬ set_ok s' pair key h
    | Panic _ => False
    end.
Proof. apply set_run. Qed.

(** C12. [set_part] succeeds exactly when a target exists (the key, or the key in its extension)
    whose value decodes and whose effective length, not its capacity, covers the range; it then
    replaces the bytes in place, leaving the value's length and every other key alone.  When the
    range starts in the body the value still decodes, to the same head with the bytes replaced
    in its body and the same effective length.  On failure nothing changes; it never panics. *)
Theorem set_part_in_place `{KVLaws St} (key : str) (off : Z) (buf : bytes) (s : St) :
  0 <= off <= U32_MAX → Z.of_nat (length buf) <= ISIZE_MAX →
  match set_part key off buf s with
  | (Ok _, s') => ∃ target v e h, part_fits s key off buf target v e ∧ HeadLenPow.from_wire v = Some h ∧
      (∀ k, kv_get s' k = if decide (target = k) then Some (splice (Z.to_nat off) buf v) else kv_get s k) ∧
      length (splice (Z.to_nat off) buf v) = length v ∧
      (PREFIX <= off →
       HeadLenPow.from_wire (splice (Z.to_nat off) buf v) =
         Some (with_body h (splice (Z.to_nat (off - PREFIX)) buf (h_body h))) ∧
       effective_len (splice (Z.to_nat off) buf v) = Some e)
  | (Err _, s') => s' = s ∧ ∀ target v e, ¬ part_fits s key off buf target v e
  | (Panic _, _) => False
  end.
Proof.
  unfold part_fits. intros Ho Hl. rewrite set_part_eq.
  destruct (set_part_plan s key off buf) as [t|er|er] eqn:E.
  - apply set_part_plan_Ok in E as (Ht & v & e & Hv & He & Hle).
    destruct (set_part_fits off buf v e He Ho Hl Hle) as (h & Hf & Hle' & Hb & Hlen).
    exists t, v, e, h. split_and!; try done.
    + intros k. by apply kv_get_set_part; [|lia|].
    + apply length_splice. lia.
    + intros Hoff. apply effective_len_splice; [done..|lia].
  - split; [done|]. intros t v e (Ht & Hv & He & Hle).
    assert (set_part_plan s key off buf = Ok t); [|congruence].
    apply set_part_plan_Ok. split; [done|]. exists v, e. split_and!; try done.
    unfold saturating_add_u64. lia.
  - pose proof (set_part_plan_no_panic s key off buf) as Hn. by rewrite E in Hn.
Qed.

(** A space with one value, used by the witnesses. *)
Definition sample_store : mem := snd (set [mkPair "/k"%rs (new_int64 [7]) None] (∅ : mem)).

Lemma set_part_in_place_witness :
  ∃ target, kv_get (snd (set_part "/k"%rs 16 [Byte.x09] sample_store)) target =
    Some (XValue.to_wire (new_int64 [9])).
Proof.
  pose proof (set_part_in_place "/k"%rs 16 [Byte.x09] sample_store
    ltac:(split; vm_compute; discriminate) ltac:(vm_compute; discriminate)) as Hp.
  destruct (set_part "/k"%rs 16 [Byte.x09] sample_store) as [[u|e|e] s'] eqn:E.
  - destruct Hp as (target & v & e & h & (Ht & Hv & He & Hb) & _ & Hk & _).
    vm_compute in Ht. injection Ht as <-. exists "/k"%rs. simpl snd.
    rewrite (Hk "/k"%rs). vm_compute in Hv. injection Hv as <-. vm_compute. reflexivity.
  - apply (f_equal fst) in E. vm_compute in E. discriminate E.
  - destruct Hp.
Defined.

(** C13. After any sequence of calls on an empty store, failed calls included, in which no
    positional write starts below offset 16, every stored value is exactly one well-formed wire:
    head, body and attrs, with nothing after them.  The condition is needed: a positional write at
    a lower offset overwrites the head ([set_part_overwrites_head]). *)
Theorem reachable_values_well_formed `{KVLaws St} (s : St) :
  reachable s → ∀ k v, kv_get s k = Some v →
  ∃ h, wf_head h ∧ v = encode_head h ∧ HeadLenPow.from_wire v = Some h.
Proof.
  intros Hr k v Hv. destruct (reachable_wf s Hr k v Hv) as (h & Hwf & ->).
  exists h. split_and!; [done..|]. rewrite <-(app_nil_r (encode_head h)). by apply from_wire_encode.
Qed.

Lemma reachable_values_well_formed_witness :
  reachable sample_store ∧
  ∃ h, wf_head h ∧ XValue.to_wire (new_int64 [7]) = encode_head h ∧
       HeadLenPow.from_wire (XValue.to_wire (new_int64 [7])) = Some h.
Proof.
  assert (Hr : reachable sample_store).
  { apply (reach_op ∅ (OSet [mkPair "/k"%rs (new_int64 [7]) None])); [by constructor|done]. }
  split; [exact Hr|]. apply (reachable_values_well_formed sample_store Hr "/k"%rs).
  vm_compute. reflexivity.
Defined.

(** A positional write below the body may overwrite the head: the value is lost. *)
Example set_part_overwrites_head :
  let s' := snd (set_part "/k"%rs 12 [Byte.xff] sample_store) in
  fst (set_part "/k"%rs 12 [Byte.xff] sample_store) = Ok tt ∧
  get s' "/"%rs ["k"%rs] true = Ok [XNone].
Proof. split; vm_compute; reflexivity. Qed.
