(* ===== verification/BackendTree.v ===== *)
(** * Subtree operations of [Backend] and the reserved area

    What [del_tree] deletes, what [cp_tree] copies, and which calls leave the reserved area
    alone. *)

From S2P Require Import Prelude RustInt RustStr RustText HeadLenPow KPath Coord XValue Store Backend BackendRead BackendWrite.
Local Open Scope Z_scope.
Implicit Types (key path prefix base : str).

(** ** Subtrees that overlap are nested *)

Lemma subtree_rest_cases rest :
  subtree_rest rest = true ↔
  rest = [] ∨ (∃ t, rest = "/"%rs ++ t) ∨ (∃ t, rest = "·"%rs ++ t) ∨ (∃ t, rest = "‥"%rs ++ t).
Proof.
  destruct rest as [|b r]; [by split; [left|]|]. unfold subtree_rest.
  rewrite !orb_true_iff, !starts_with_true. naive_solver.
Qed.

Lemma subtree_rest_split (x r : str) :
  subtree_rest (x ++ r) = true → subtree_rest r = true → subtree_rest x = true.
Proof.
  rewrite !subtree_rest_cases. intros Hx Hr.
  destruct x as [|b1 x]; [by left|right].
  destruct Hx as [Hx|[[t Hx]|[[t Hx]|[t Hx]]]]; [done| | |]; simpl in Hx; injection Hx as -> Hx.
  - left. by exists x.
  - destruct x as [|b2 x]; simpl in Hx.
    + subst. by destruct Hr as [Hr|[[u Hr]|[[u Hr]|[u Hr]]]].
    + injection Hx as -> Hx. right; left. by exists x.
  - destruct x as [|b2 x]; simpl in Hx.
    + subst. by destruct Hr as [Hr|[[u Hr]|[[u Hr]|[u Hr]]]].
    + injection Hx as -> Hx. destruct x as [|b3 x]; simpl in Hx.
      * subst. by destruct Hr as [Hr|[[u Hr]|[[u Hr]|[u Hr]]]].
      * injection Hx as -> Hx. right; right. by exists x.
Qed.

(** The root of a subtree that is not the whole space. *)
Definition proper_root base : Prop := starts_with "/"%rs base = true ∧ base ≠ "/"%rs.

Lemma proper_subtree base key :
  proper_root base →
  is_subtree_key base key = true ↔ ∃ rest, key = base ++ rest ∧ subtree_rest rest = true.
Proof.
  intros [Ha Hr]. apply is_subtree_key_rest; [|done]. by intros ->.
Qed.

Lemma subtree_overlap p q key :
  proper_root p → proper_root q →
  is_subtree_key p key = true → is_subtree_key q key = true →
  is_subtree_key p q = true ∨ is_subtree_key q p = true.
Proof.
  intros Hp Hq. rewrite !(proper_subtree p), !(proper_subtree q) by done.
  intros (r1 & -> & H1) (r2 & E & H2). apply app_eq_inv in E as [(x & -> & ->)|(x & -> & ->)].
  - right. exists x. split; [done|]. by apply (subtree_rest_split x r1).
  - left. exists x. split; [done|]. by apply (subtree_rest_split x r2).
Qed.

(** ** The reserved area *)

Lemma is_reserved_true key :
  is_reserved key = true ↔ key = META_ROOT ∨ ∃ t, key = META_ROOT ++ "/"%rs ++ t.
Proof.
  unfold is_reserved. rewrite orb_true_iff, bool_decide_eq_true, starts_with_true.
  setoid_rewrite <-app_assoc. done.
Qed.

Lemma reserved_deep t : is_reserved (META_ROOT ++ "/"%rs ++ t) = true.
Proof. apply is_reserved_true. eauto. Qed.

(** The first byte of a separator. *)
Definition sep_byte (b : byte) : bool := bool_decide (b ∈ [Byte.x2f; Byte.xc2; Byte.xe2]).

Lemma subtree_rest_head b (r : str) : subtree_rest (b :: r) = true → sep_byte b = true.
Proof.
  rewrite subtree_rest_cases. intros [?|[[t [= -> _]]|[[t [= -> _]]|[t [= -> _]]]]]; done.
Qed.

(** No separator starts inside the name of the reserved area. *)
Lemma meta_root_no_sep (x r t : str) :
  x ≠ [] → x ++ r = META_ROOT ++ t → subtree_rest r = true → ∃ u, x = META_ROOT ++ u ∨ r = [].
Proof.
  intros Hx E Hs. apply app_eq_inv in E as [(u & -> & _)|(u & Hu & ->)]; [eauto|].
  destruct u as [|d u].
  { exists []. left. by rewrite app_nil_r in *. }
  apply subtree_rest_head in Hs. destruct x as [|c x]; [done|]. exfalso.
  unfold META_ROOT in Hu. simpl in Hu. injection Hu as _ Hu.
  assert (Hall : Forall (λ b, sep_byte b = false) ".kvspace-meta"%rs) by (repeat constructor).
  rewrite Hu in Hall. apply Forall_app in Hall as [_ [Hd _]%Forall_cons]. congruence.
Qed.

(** A subtree whose root is not reserved holds no reserved key. *)
Lemma subtree_unreserved base key :
  proper_root base → is_reserved base = false → is_subtree_key base key = true →
  is_reserved key = false.
Proof.
  intros Hb Hr (r & -> & Hs)%proper_subtree; [|done].
  destruct (is_reserved (base ++ r)) eqn:E; [|done]. rewrite <-Hr. symmetry.
  assert (Hne : base ≠ []) by (intros ->; by destruct Hb). apply is_reserved_true in E as [E|[t E]].
  - rewrite <-(app_nil_r META_ROOT) in E.
    destruct (meta_root_no_sep _ _ _ Hne E Hs) as [u [-> | ->]]; [|by rewrite app_nil_r in *; subst].
    apply (f_equal length) in E. rewrite !length_app in E. destruct u; [by rewrite app_nil_r|].
    cbn [length] in E. lia.
  - destruct (meta_root_no_sep _ _ _ Hne E Hs) as [u [-> | ->]].
    + rewrite <-app_assoc in E. apply app_inv_head in E. destruct u as [|c u].
      * by rewrite app_nil_r.
      * injection E as -> _. apply (reserved_deep u).
    + rewrite app_nil_r in E. subst. apply reserved_deep.
Qed.

(** ** [del_tree] *)

Section trees.
Context `{KVLaws St}.
Implicit Types (s : St).

Lemma elem_scan_unreserved s base k :
  k ∈ scan_unreserved s base ↔
  is_subtree_key base k = true ∧ is_reserved k = false ∧ is_Some (kv_get s k).
Proof.
  unfold scan_unreserved. rewrite list_elem_of_filter, law_scan, law_get. tauto.
Qed.

(** The root whose subtree [del_tree] scans. *)
Definition tree_root s prefix : str :=
  let base := subtree_base (resolve_parent s prefix) in if decide (base = []) then PATH_SEP else base.

Lemma del_tree_scan s prefix :
  is_reserved prefix = false → is_reserved (resolve_parent s prefix) = false →
  let base := subtree_base (resolve_parent s prefix) in
  base = [] ∨ is_link s base = false →
  ∃ s', del_tree prefix s = (Ok tt, s') ∧
    ∀ k, kv_get s' k = if is_subtree_key (tree_root s prefix) k && negb (is_reserved k)
                       then None else kv_get s k.
Proof.
  cbv zeta. intros H1 H2 Hl. unfold del_tree, tree_root.
  rewrite bind_err_if, H1, bind_gets, bind_err_if, H2. cbv zeta. rewrite bind_gets.
  set (base := subtree_base (resolve_parent s prefix)) in *.
  assert (negb (bool_decide (base = [])) && is_link s base = false) as ->.
  { destruct Hl as [-> | ->]; [done|apply andb_false_r]. }
  rewrite bind_gets. set (root := if decide (base = []) then _ else _).
  assert (Hk : ∀ k, is_Some (kv_get s k) →
    (is_subtree_key root k && negb (is_reserved k) = true ↔ k ∈ scan_unreserved s root)).
  { intros k Hs. rewrite elem_scan_unreserved, andb_true_iff, negb_true_iff. tauto. }
  case_decide as Hnil.
  - exists s. split; [done|]. intros k. destruct (_ && _) eqn:E; [|done].
    destruct (kv_get s k) as [v|] eqn:Ev; [|done]. apply Hk in E; [|by exists v].
    rewrite Hnil in E. by apply elem_of_nil in E.
  - eexists. split; [done|]. intros k. rewrite kv_get_del.
    destruct (kv_get s k) as [v|] eqn:Ev; [|by case_decide; case_match].
    specialize (Hk k ltac:(by exists v)).
    case_decide as Hin; destruct (_ && _); try done; [by apply Hk in Hin|].
    by destruct Hin; apply Hk.
Qed.

Lemma del_tree_link s prefix :
  is_reserved prefix = false → is_reserved (resolve_parent s prefix) = false →
  let base := subtree_base (resolve_parent s prefix) in
  base ≠ [] → is_link s base = true →
  del_tree prefix s = del [resolve_parent s prefix] s.
Proof.
  cbv zeta. intros H1 H2 Hb Hl. unfold del_tree.
  rewrite bind_err_if, H1, bind_gets, bind_err_if, H2. cbv zeta.
  rewrite bind_gets, Hl, bool_decide_false by done. done.
Qed.

Lemma del_tree_reserved s prefix :
  is_reserved prefix || is_reserved (resolve_parent s prefix) = true →
  ∃ e, del_tree prefix s = (Err (ReservedKey e), s).
Proof.
  intros Hr. unfold del_tree. rewrite bind_err_if.
  destruct (is_reserved prefix); [by eexists|]. rewrite bind_gets, bind_err_if.
  simpl in Hr. rewrite Hr. by eexists.
Qed.

Lemma del_plan_Ok s key ks :
  del_plan s key = Ok ks →
  let resolved := resolve_parent s key in
  is_reserved resolved = false ∧
  ks = if is_dir resolved then [strip_dir_suf resolved; resolved] else [resolved].
Proof.
  cbv zeta. unfold del_plan. cbv zeta. repeat setoid_rewrite res_bind_Ok.
  repeat setoid_rewrite bail_if_Ok. intros (_ & _ & _ & Hr & _ & _ & [= <-]). done.
Qed.

(** ** [cp_tree] *)

(** The loop of [cp_tree], from a state whose destination subtree is empty. *)
Definition image_of (s0 : St) (src dst : str) (copied : list str) (k : str) : option bytes :=
  if is_subtree_key dst k then
    let from := src ++ drop (length dst) k in
    if bool_decide (from ∈ copied) then kv_get s0 from else None
  else kv_get s0 k.

Definition apart (src dst : str) : Prop :=
  proper_root src ∧ proper_root dst ∧ is_subtree_key src dst = false ∧ is_subtree_key dst src = false.

Lemma apart_source src dst k : apart src dst → is_subtree_key src k = true → is_subtree_key dst k = false.
Proof.
  intros (Hs & Hd & H1 & H2) Hk. destruct (is_subtree_key dst k) eqn:E; [|done].
  destruct (subtree_overlap src dst k Hs Hd Hk E); congruence.
Qed.

Lemma copy_loop s0 src dst keys copied s :
  apart src dst → Forall (λ k, is_subtree_key src k = true) keys →
  Forall (λ k, is_Some (kv_get s0 k)) keys →
  (∀ k, kv_get s k = image_of s0 src dst copied k) →
  ∃ s', for_each keys (λ k, copy_key k (dst ++ drop (length src) k)) s = (Ok tt, s') ∧
        ∀ k, kv_get s' k = image_of s0 src dst (copied ++ keys) k.
Proof.
  intros Ha. revert copied s. induction keys as [|k keys IH]; intros copied s Hk Hl Hs.
  { exists s. split; [done|]. by rewrite app_nil_r. }
  apply Forall_cons in Hk as [Hk Hks]. apply Forall_cons in Hl as [[v Hv] Hls].
  cbn [for_each]. rewrite stm_bind_eq. unfold copy_key at 1. rewrite bind_gets.
  assert (kv_get s k = Some v) as ->.
  { rewrite Hs. unfold image_of. by rewrite (apart_source src dst). }
  cbn [modify]. replace (copied ++ k :: keys) with ((copied ++ [k]) ++ keys) by by rewrite <-app_assoc.
  apply IH; [done..|]. intros k'. rewrite kv_get_set, Hs.
  apply proper_subtree in Hk as (r & -> & Hr); [|apply Ha]. rewrite drop_app_length.
  unfold image_of. case_decide as E.
  - subst k'. rewrite (proj2 (proper_subtree dst (dst ++ r) (proj1 (proj2 Ha)))) by eauto.
    rewrite drop_app_length, bool_decide_true by set_solver. done.
  - destruct (is_subtree_key dst k') eqn:Ek; [|done].
    apply proper_subtree in Ek as (r' & -> & _); [|apply Ha]. rewrite drop_app_length.
    assert (r ≠ r') by congruence.
    rewrite (bool_decide_ext (src ++ r' ∈ copied ++ [src ++ r]) (src ++ r' ∈ copied)); [done|].
    rewrite elem_of_app, list_elem_of_singleton. split; [|by left]. intros [?|Eq]; [done|].
    by apply app_inv_head in Eq.
Qed.

Lemma descendant_subtree base path :
  base ≠ PATH_SEP → is_descendant base path = true → base ≠ [] → is_subtree_key base path = true.
Proof.
  intros Hr Hd Hne. unfold is_descendant in Hd. rewrite decide_False in Hd by done.
  destruct (strip_prefix base path) as [rest|] eqn:E; [|done]. apply strip_prefix_Some in E as ->.
  apply is_subtree_key_rest; [done..|]. exists rest. split; [done|].
  destruct rest as [|b r]; [done|]. unfold subtree_rest. apply orb_true_iff. by left.
Qed.

Lemma cp_tree_run s src dst :
  let S0 := pop_dir (resolve_path s src) in
  let D0 := pop_dir (resolve_path s dst) in
  apart S0 D0 → is_dir D0 = false → resolve_parent s D0 = D0 → is_link s D0 = false →
  is_reserved src || is_reserved dst = false →
  is_reserved (resolve_path s src) || is_reserved (resolve_path s dst) = false →
  is_reserved S0 || is_reserved D0 = false →
  (∃ k, is_subtree_key S0 k = true ∧ is_Some (kv_get s k)) →
  ∃ s', cp_tree src dst s = (Ok tt, s') ∧
    ∀ k, kv_get s' k = if is_subtree_key D0 k then kv_get s (S0 ++ drop (length D0) k) else kv_get s k.
Proof.
  cbv zeta. set (S0 := pop_dir (resolve_path s src)). set (D0 := pop_dir (resolve_path s dst)).
  intros Ha Hdir Hpar Hlink H1 H2 [HS HD]%orb_false_iff (k0 & Hk0 & Hl0).
  pose proof Ha as ([HSa HSr] & [HDa HDr] & Hn1 & Hn2).
  assert (Hbase : subtree_base D0 = D0).
  { unfold subtree_base. rewrite decide_False by done. by apply strip_dir_suf_plain. }
  unfold cp_tree. rewrite bind_err_if, H1, !bind_gets, bind_err_if, H2. cbv zeta. fold S0 D0.
  rewrite decide_False by (intros E; by rewrite E, is_subtree_key_refl in Hn1).
  rewrite bind_err_if. destruct (is_descendant S0 D0) eqn:Ed.
  { rewrite descendant_subtree in Hn1; [done..|by intros E; rewrite E in HSa]. }
  rewrite bind_gets, bind_err_if. set (keys := scan_unreserved s S0).
  assert (Hkeys : ∀ k, k ∈ keys ↔ is_subtree_key S0 k = true ∧ is_Some (kv_get s k)).
  { intros k. unfold keys. rewrite elem_scan_unreserved.
    split; [tauto|]. intros [? ?]. split_and!; [done|by apply (subtree_unreserved S0)|done]. }
  rewrite bool_decide_false by (intros E; by apply (elem_of_nil k0); rewrite <-E; apply Hkeys).
  destruct (del_tree_scan s D0) as (s1 & Hdel & Hs1);
    [done|by rewrite Hpar|rewrite Hpar, Hbase; by right|].
  rewrite stm_bind_eq. unfold ignore. rewrite Hdel. unfold tree_root in Hs1. cbv zeta in Hs1.
  rewrite Hpar, Hbase, decide_False in Hs1 by (intros E; by rewrite E in HDa).
  destruct (copy_loop s S0 D0 keys [] s1) as (s' & Hrun & Hs'); [done| | | |].
  - apply Forall_forall. intros k Hk. by apply Hkeys.
  - apply Forall_forall. intros k Hk. by apply Hkeys.
  - intros k. rewrite Hs1. unfold image_of. destruct (is_subtree_key D0 k) eqn:E; [|done].
    rewrite (subtree_unreserved D0 k) by done. reflexivity.
  - exists s'. split; [exact Hrun|]. intros k. rewrite Hs'. unfold image_of. cbn [app].
    destruct (is_subtree_key D0 k) eqn:E; [|done]. cbv zeta. case_bool_decide as Hin; [done|].
    rewrite Hkeys in Hin. apply proper_subtree in E as (r & -> & Hr); [|done].
    rewrite drop_app_length in *. destruct (kv_get s (S0 ++ r)) eqn:Eg; [|done].
    destruct Hin. split; [|by eexists]. apply proper_subtree; [done|eauto].
Qed.
End trees.

(** ** Which calls leave the reserved area alone *)

Section reserved.
Context `{KVLaws St}.
Implicit Types (s : St).

(** [s] holds what [s0] held at every key of [R]. *)
Definition same_on (R : str → bool) (s0 s : St) : Prop := ∀ k, R k = true → kv_get s k = kv_get s0 k.

(** Strictly inside the reserved area. *)
Definition deep_reserved k : bool := starts_with (META_ROOT ++ "/"%rs) k.

Lemma set_keeps_reserved s0 pairs : keeps (same_on is_reserved s0) (set pairs).
Proof.
  apply keeps_for_each. intros pair _ s Hs. rewrite set_one_eq.
  destruct (set_plan s pair) as [[key raw]| |] eqn:E; [|done..].
  apply set_plan_Ok in E as (h & [_ _ Hr _ _ _ _ _] & _). intros k Hk. cbn [snd].
  rewrite kv_get_set, decide_False by congruence. by apply Hs.
Qed.

Lemma cp_keeps_reserved s0 src dst : keeps (same_on is_reserved s0) (cp src dst).
Proof. unfold cp. keeps_steps. apply set_keeps_reserved. Qed.

(** Neither a key nor what is left of it without its directory suffix lies inside the reserved
    area, when the key itself is not reserved. *)
Lemma deep_reserved_strip key k :
  is_reserved key = false → deep_reserved k = true → k ≠ key ∧ k ≠ strip_dir_suf key.
Proof.
  intros Hr Hk. apply starts_with_true in Hk as [t ->]. rewrite <-app_assoc.
  split; intros E; [by rewrite <-E, reserved_deep in Hr|].
  destruct (strip_dir_suf_spec key) as [[_ Hs]|[Hs|Hs]]; rewrite <-E in Hs.
  - by rewrite <-Hs, reserved_deep in Hr.
  - rewrite Hs, <-!app_assoc, reserved_deep in Hr. done.
  - rewrite Hs, <-!app_assoc, reserved_deep in Hr. done.
Qed.

Lemma del_keeps_reserved s0 keys : keeps (same_on deep_reserved s0) (del keys).
Proof.
  apply keeps_for_each. intros key _ s Hs. rewrite del_one_eq.
  destruct (del_plan s key) as [ks| |] eqn:E; [|done..].
  apply del_plan_Ok in E as [Hr ->]. intros k Hk. cbn [snd].
  destruct (deep_reserved_strip _ _ Hr Hk). rewrite kv_get_del, decide_False; [by apply Hs|].
  destruct (is_dir _); set_solver.
Qed.

Lemma del_tree_keeps_reserved s prefix : same_on deep_reserved s (snd (del_tree prefix s)).
Proof.
  destruct (is_reserved prefix || is_reserved (resolve_parent s prefix)) eqn:Er.
  { destruct (del_tree_reserved s prefix Er) as [e ->]. done. }
  apply orb_false_iff in Er as [H1 H2].
  destruct (decide (subtree_base (resolve_parent s prefix) = [])) as [Hb|Hb];
    [|destruct (is_link s (subtree_base (resolve_parent s prefix))) eqn:El].
  1,3: destruct (del_tree_scan s prefix H1 H2) as (s' & -> & Hs'); [tauto|];
    intros k Hk; cbn [snd]; rewrite Hs'; apply starts_with_true in Hk as [t ->];
    rewrite <-app_assoc, reserved_deep; by rewrite andb_false_r.
  rewrite del_tree_link by done. by apply del_keeps_reserved.
Qed.
End reserved.

(** ** Properties *)

(** C14. [del_tree] refuses a reserved path, given or resolved, without any change; if the path
    names a link it deletes the link like [del], and nothing but the link and its directory key;
    otherwise it succeeds and deletes every unreserved key of the subtree of the (parent-
    resolved) path and nothing else. *)
Theorem del_tree_exact `{KVLaws St} (s : St) prefix :
  let resolved := resolve_parent s prefix in
  let base := subtree_base resolved in
  if is_reserved prefix || is_reserved resolved
  then ∃ e, del_tree prefix s = (Err (ReservedKey e), s)
  else if negb (bool_decide (base = [])) && is_link s base
  then del_tree prefix s = del [resolved] s ∧
       ∀ k, k ≠ resolve_parent s resolved → k ≠ strip_dir_suf (resolve_parent s resolved) →
            kv_get (snd (del_tree prefix s)) k = kv_get s k
  else ∃ s', del_tree prefix s = (Ok tt, s') ∧
       ∀ k, kv_get s' k = if is_subtree_key (tree_root s prefix) k && negb (is_reserved k)
                          then None else kv_get s k.
Proof.
  cbv zeta. destruct (_ || _) eqn:Er; [by apply del_tree_reserved|].
  apply orb_false_iff in Er as [H1 H2]. destruct (_ && _) eqn:El.
  - apply andb_true_iff in El as [Hb%negb_true_iff%bool_decide_eq_false Hl].
    rewrite del_tree_link by done. split; [done|]. intros k Hk1 Hk2.
    unfold del. cbn [for_each]. rewrite stm_bind_eq, del_one_eq.
    destruct (del_plan s _) as [ks| |] eqn:E; [|done..]. apply del_plan_Ok in E as [_ ->].
    cbn [snd mret stm_ret]. rewrite kv_get_del, decide_False; [done|].
    destruct (is_dir _); set_solver.
  - apply del_tree_scan; [done..|]. apply andb_false_iff in El as [El|El]; [|by right].
    left. by apply negb_false_iff, bool_decide_eq_true in El.
Qed.

(** C15. [cp_tree] copies a subtree exactly: when the source holds anything and the resolved
    source and destination are disjoint subtrees outside the reserved area, reached without
    links, it succeeds; afterwards every key of the destination subtree holds what the
    corresponding source key held (nothing that was there before survives), and every other key,
    the source included, is as before. *)
Theorem cp_tree_image `{KVLaws St} (s : St) src dst :
  let S0 := pop_dir (resolve_path s src) in
  let D0 := pop_dir (resolve_path s dst) in
  apart S0 D0 → is_dir D0 = false → resolve_parent s D0 = D0 → is_link s D0 = false →
  is_reserved src || is_reserved dst = false →
  is_reserved (resolve_path s src) || is_reserved (resolve_path s dst) = false →
  is_reserved S0 || is_reserved D0 = false →
  (∃ k, is_subtree_key S0 k = true ∧ is_Some (kv_get s k)) →
  ∃ s', cp_tree src dst s = (Ok tt, s') ∧
    ∀ k, kv_get s' k = if is_subtree_key D0 k then kv_get s (S0 ++ drop (length D0) k) else kv_get s k.
Proof. apply cp_tree_run. Qed.

Lemma cp_tree_image_witness :
  let s : mem := <["/a/b"%rs := "x"%rs]> (<["/c/old"%rs := "y"%rs]> ∅) in
  ∃ s', cp_tree "/a/"%rs "/c"%rs s = (Ok tt, s') ∧
    ∀ k, kv_get s' k = if is_subtree_key "/c"%rs k then kv_get s ("/a"%rs ++ drop 2 k) else kv_get s k.
Proof.
  intros s. pose proof (cp_tree_image s "/a/"%rs "/c"%rs) as Hp. cbv zeta in Hp.
  assert (pop_dir (resolve_path s "/a/"%rs) = "/a"%rs) as E1 by (vm_compute; reflexivity).
  assert (pop_dir (resolve_path s "/c"%rs) = "/c"%rs) as E2 by (vm_compute; reflexivity).
  rewrite E1, E2 in Hp. apply Hp; try (vm_compute; reflexivity).
  - split_and!; [split; [reflexivity|discriminate]|split; [reflexivity|discriminate]| |]; reflexivity.
  - exists "/a/b"%rs. split; [reflexivity|]. by exists "x"%rs.
Defined.

(** C16. [set] and [cp] never change a reserved key, the root [/.kvspace-meta] included; [del] and
    [del_tree] never change a key strictly inside the reserved area, below that root.  Both hold
    whether the calls succeed or fail.  [del] and [del_tree] do reach the root itself
    ([reserved_root_leaks]). *)
Theorem reserved_area_protected `{KVLaws St} (s : St) (k : str) :
  (is_reserved k = true →
     (∀ pairs, kv_get (snd (set pairs s)) k = kv_get s k) ∧
     (∀ src dst, kv_get (snd (cp src dst s)) k = kv_get s k)) ∧
  (deep_reserved k = true →
     (∀ keys, kv_get (snd (del keys s)) k = kv_get s k) ∧
     (∀ prefix, kv_get (snd (del_tree prefix s)) k = kv_get s k)).
Proof.
  split; intros Hk; split.
  - intros pairs. by apply (set_keeps_reserved s pairs s).
  - intros src dst. by apply (cp_keeps_reserved s src dst s).
  - intros keys. by apply (del_keeps_reserved s keys s).
  - intros prefix. by apply del_tree_keeps_reserved.
Qed.

(** ** Where the guards leak *)

(** The root key of the reserved area is reachable through a [·] suffix: the guard sees
    [/.kvspace-meta·], which is not reserved, and the suffix is dropped afterwards. *)
Example reserved_root_leaks :
  let s1 := snd (cp_tree "/k"%rs "/.kvspace-meta·"%rs sample_store) in
  is_reserved META_ROOT = true ∧
  kv_get sample_store META_ROOT = None ∧ is_Some (kv_get s1 META_ROOT) ∧
  kv_get (snd (del ["/.kvspace-meta·"%rs] s1)) META_ROOT = None.
Proof. split_and!; vm_compute; try reflexivity. by eexists. Qed.

(** A destination that is an ancestor of the source destroys the source: the destination subtree
    is deleted first, nothing is left to copy, and the call reports success. *)
Example cp_tree_onto_ancestor :
  let s0 : mem := <["/a/b"%rs := XValue.to_wire (new_int64 [7%Z])]> ∅ in
  fst (cp_tree "/a/b"%rs "/a"%rs s0) = Ok tt ∧ map_to_list (snd (cp_tree "/a/b"%rs "/a"%rs s0)) = [].
Proof. split; vm_compute; reflexivity. Qed.

(** [cp_tree] writes a status slot without the status contract that [set] enforces. *)
Example cp_tree_skips_status :
  let key := "/d/‥status"%rs in
  fst (cp_tree "/k"%rs key sample_store) = Ok tt ∧
  is_Some (kv_get (snd (cp_tree "/k"%rs key sample_store)) key) ∧
  fst (set [mkPair key (new_int64 [7%Z]) None] sample_store) = Err (StatusNotChar "int64"%rs key).
Proof. split_and!; vm_compute; try reflexivity. by eexists. Qed.
