(* ===== verification/BackendSetGet.v ===== *)
(** * Writing and reading back

    Under a canonical key whose directory is reached without links, what [set] stores is what
    [get], [get_raw] and [get_one] return. *)

From S2P Require Import Prelude RustInt RustStr RustText HeadLenPow KPath Coord XValue Store Backend BackendRead BackendWrite.
Local Open Scope Z_scope.
Implicit Types (key path prefix dir parent last : str).

(** ** The ancestors of a path are no longer than the path *)

Lemma length_trim_start c (x : str) : (length (trim_start_byte c x) <= length x)%nat.
Proof. induction x as [|b x IH]; [done|]. simpl. case_decide; simpl; lia. Qed.

Lemma length_trim c (x : str) : (length (trim_byte c x) <= length (trim_start_byte c x))%nat.
Proof.
  unfold trim_byte, trim_end_byte. rewrite length_reverse.
  pose proof (length_trim_start c (reverse (trim_start_byte c x))). by rewrite length_reverse in *.
Qed.

(** What [join_path] puts before the next component. *)
Definition join_base (cur : str) : nat :=
  if decide (cur = PATH_SEP) then 1%nat else S (length cur).

Lemma length_join_path cur p : (length (join_path cur p) <= join_base cur + length p)%nat.
Proof.
  unfold join_path, join_base. case_decide as E; [subst; simpl; lia|].
  destruct (_ || _); rewrite ?length_app; simpl; lia.
Qed.

Lemma join_base_bound cur : (join_base cur <= S (length cur))%nat.
Proof. unfold join_base. case_decide; lia. Qed.

Lemma length_prefixes cur parts k :
  k ∈ prefixes_from cur parts → (length k <= join_base cur + length (join "/"%rs parts))%nat.
Proof.
  revert cur. induction parts as [|p ps IH]; intros cur Hk; [by apply elem_of_nil in Hk|].
  cbn [prefixes_from] in Hk. apply elem_of_cons in Hk as [->|Hk].
  - pose proof (length_join_path cur p). destruct ps; [simpl; lia|].
    rewrite join_cons, length_app by done. lia.
  - destruct ps as [|p' ps]; [by apply elem_of_nil in Hk|].
    apply IH in Hk. pose proof (length_join_path cur p). pose proof (join_base_bound (join_path cur p)).
    rewrite join_cons, !length_app by done. cbn [length]. lia.
Qed.

Lemma length_path_prefix path k :
  starts_with "/"%rs path = true → k ∈ path_prefixes path → (length k <= length path)%nat.
Proof.
  intros Habs Hk. unfold path_prefixes, path_parts in Hk.
  set (clean := match dir_suffix path with Some _ => _ | None => path end) in *.
  assert (Hc : (length clean <= length path)%nat).
  { unfold clean. destruct (dir_suffix path); [|done].
    destruct (strip_dir_suf_spec path) as [[_ Hs]|[Hs|Hs]]; [by rewrite Hs|..];
      rewrite Hs at 2; rewrite length_app; lia. }
  pose proof (length_trim SLASH clean) as Ht. pose proof (length_trim_start SLASH clean) as Hts.
  destruct (trim_byte SLASH clean) as [|c t] eqn:Et; [by apply elem_of_nil in Hk|].
  apply length_prefixes in Hk. rewrite (join_split SLASH) in Hk.
  change (join_base PATH_SEP) with 1%nat in Hk.
  assert (Hlt : (length (trim_start_byte SLASH clean) < length path)%nat).
  { destruct (decide (length clean = length path)) as [El|]; [|lia].
    assert (clean = path) as ->.
    { unfold clean in *. destruct (dir_suffix path); [|done].
      destruct (strip_dir_suf_spec path) as [[_ Hs]|[Hs|Hs]]; [done|..];
        apply (f_equal length) in Hs; rewrite length_app in Hs; cbn [length] in Hs; lia. }
    apply starts_with_true in Habs as [r ->]. simpl.
    pose proof (length_trim_start SLASH r). unfold SLASH in *. simpl in *. lia. }
  cbn [length] in *. lia.
Qed.

(** ** Canonical keys *)

(** An absolute path without empty components, that no component ends in [·] before a [/], and
    that is no directory key. *)
Record canonical_key key : Prop := {
  ck_abs : starts_with "/"%rs key = true;
  ck_dbl : contains DOUBLE_SEP key = false;
  ck_obj : contains "·/"%rs key = false;
  ck_leaf : is_dir key = false;
}.

Lemma canonical_sep key :
  canonical_key key →
  ∃ p dir last, sep_path key = (p, last) ∧ parent_dir key = (dir, last) ∧ last ≠ [] ∧
    key = dir ++ last ∧ starts_with "/"%rs p = true ∧ starts_with "/"%rs dir = true ∧
    ((p = PATH_SEP ∧ dir = PATH_SEP) ∨ (p ≠ PATH_SEP ∧ dir = p ++ "/"%rs ∧ is_dir p = false)).
Proof.
  intros [Habs Hdbl Hobj Hleaf]. destruct (parent_dir key) as [dir last] eqn:E.
  destruct (parent_dir_spec key dir last (conj Habs Hdbl) E) as (Hkey & Hnot & Hend).
  unfold parent_dir in E. destruct (sep_path key) as [p l] eqn:Es. injection E as Hd <-.
  exists p, dir, l. assert (Hl : l ≠ []).
  { intros ->. rewrite app_nil_r in Hkey. subst key. apply ends_with_true in Hend as [b Hb].
    rewrite Hb in Hleaf. unfold DIR_INDEX_SUF in Hleaf. by rewrite is_dir_slash in Hleaf. }
  destruct (decide (p = PATH_SEP)) as [->|Hp]; subst dir; [by auto 10|].
  assert (Hpabs : starts_with "/"%rs p = true).
  { unfold DIR_INDEX_SUF in Hkey. apply starts_with_true in Habs as [r Hr]. destruct p as [|c p].
    - exfalso. rewrite Hkey in Hdbl, Hr. simpl in Hr. unfold sep_path in Es.
      rewrite decide_False in Es by (rewrite Hkey; destruct l; [done|discriminate]).
      destruct (rfind _ key) as [[|i]|] eqn:F; [done| |].
      + injection Es as Ht _. apply (f_equal length) in Ht. rewrite length_take in Ht.
        pose proof (occurrence_bound "/"%rs key (S i) ltac:(done) (rfind_Some _ _ _ F)) as Hb.
        change (length "/"%rs) with 1%nat in Hb. change (length ""%rs) with 0%nat in Ht. lia.
      + destruct (proj1 (rfind_None _ _) F [] l). by rewrite Hkey.
    - rewrite Hkey in Hr. simpl in Hr. injection Hr as -> _. by apply starts_with_true; exists p. }
  split_and!; try done.
  - apply starts_with_true in Hpabs as [r ->]. apply starts_with_true. by exists (r ++ "/"%rs).
  - right. split_and!; [done..|]. destruct (is_dir p) eqn:Ed; [|done]. exfalso.
    apply is_dir_true in Ed as [b [-> | ->]]; rewrite Hkey in *.
    + apply (proj1 (contains_false _ _) Hdbl b l). by rewrite <-!app_assoc.
    + apply (proj1 (contains_false _ _) Hobj b l). by rewrite <-!app_assoc.
Qed.

Lemma join_path_dir p dir last :
  (p = PATH_SEP ∧ dir = PATH_SEP) ∨ (p ≠ PATH_SEP ∧ dir = p ++ "/"%rs ∧ is_dir p = false) →
  join_path p last = dir ++ last ∧ join_path dir last = dir ++ last.
Proof.
  unfold join_path. intros [[-> ->]|(Hp & -> & Hd)]; [done|].
  rewrite decide_False by done. unfold is_dir in Hd. apply orb_false_iff in Hd as [Hd1 Hd2].
  change PATH_SEP with DIR_INDEX_SUF at 1. rewrite Hd1, Hd2. cbn [orb]. split.
  - by rewrite <-app_assoc.
  - case_decide as E.
    + apply (f_equal length) in E. rewrite length_app in E. destruct p; [done|simpl in E; lia].
    + change PATH_SEP with "/"%rs at 1. by rewrite ends_with_app.
Qed.

Lemma path_parts_dir p :
  is_dir p = false → path_parts (p ++ "/"%rs) = path_parts p.
Proof.
  intros Hd. unfold path_parts, dir_suffix.
  assert (ends_with OBJ_SEP (p ++ "/"%rs) = false) as ->.
  { destruct (ends_with _ _) eqn:E; [|done]. apply ends_with_true in E as [r Hr].
    change OBJ_SEP with ([Byte.xc2] ++ [Byte.xb7]) in Hr. rewrite app_assoc in Hr.
    by apply app_inj_tail in Hr as [_ ?]. }
  unfold DIR_INDEX_SUF. rewrite ends_with_app, strip_dir_suf_slash.
  unfold is_dir in Hd. apply orb_false_iff in Hd as [Hd1 Hd2].
  unfold DIR_INDEX_SUF in Hd1. by rewrite Hd1, Hd2.
Qed.

Section roundtrip.
Context `{KVLaws St}.
Implicit Types (s : St) (v : XValue).

Lemma link_free_dir s p dir :
  (p = PATH_SEP ∧ dir = PATH_SEP) ∨ (p ≠ PATH_SEP ∧ dir = p ++ "/"%rs ∧ is_dir p = false) →
  link_free s dir → link_free s p.
Proof.
  intros [[-> ->]|(_ & -> & Hd)]; [done|]. unfold link_free, path_prefixes.
  by rewrite path_parts_dir.
Qed.

(** The parent of a canonical key is resolved to itself when no link is on the way. *)
Lemma resolve_parent_free s key dir last :
  canonical_key key → parent_dir key = (dir, last) → link_free s dir → resolve_parent s key = key.
Proof.
  intros Hck Hpd Hf. destruct (canonical_sep key Hck) as (p & dir' & last' & Hs & Hpd' & Hne & Hkey & _ & _ & Hp).
  rewrite Hpd in Hpd'. injection Hpd' as <- <-. unfold resolve_parent.
  rewrite (ck_leaf key Hck). cbn [andb]. rewrite Hs.
  destruct (join_path_dir p dir last Hp) as [Hj _].
  rewrite (resolve_path_free s p) by (by eapply link_free_dir). rewrite Hj, <-Hkey. by case_decide.
Qed.

Lemma locate_free s key dir last :
  canonical_key key → parent_dir key = (dir, last) → link_free s dir → locate s key = (dir, last).
Proof.
  intros _ Hpd Hf. unfold locate, parent_dir in *. destruct (sep_path key) as [p l].
  injection Hpd as Hd <-. change DIR_INDEX_SUF with "/"%rs in *. rewrite Hd.
  by rewrite resolve_path_free.
Qed.

(** A write does not put a link on the way to its own directory. *)
Lemma link_free_set s key dir last w :
  canonical_key key → parent_dir key = (dir, last) → link_free s dir →
  link_free (kv_set key w s) dir.
Proof.
  intros Hck Hpd Hf. destruct (canonical_sep key Hck) as (p & dir' & last' & Hs & Hpd' & Hne & Hkey & _ & Hd & _).
  rewrite Hpd in Hpd'. injection Hpd' as <- <-. unfold link_free in *. rewrite Forall_forall in *.
  intros k Hk. specialize (Hf k Hk). unfold link_at in *. rewrite kv_get_set, decide_False; [done|].
  intros ->. apply length_path_prefix in Hk; [|done]. rewrite Hkey, length_app in Hk.
  destruct last; [done|]. cbn [length] in Hk. lia.
Qed.

Lemma pair_wire_exact key v h :
  HeadLenPow.from_wire (pair_wire (mkPair key v None)) = Some h → encode_head h = XValue.to_wire v.
Proof.
  unfold pair_wire. cbn [pr_raw pr_val from_option id]. intros Hf.
  destruct (to_wire_exact v) as [E|(raw & lt & E)]; [by rewrite E in Hf|].
  apply to_wire_Some in E as (a & Ha & Hfit & E). rewrite E in *.
  rewrite <-(app_nil_r (encode_head _)), from_wire_encode in Hf by (by apply wf_length_head).
  by injection Hf as <-.
Qed.

Lemma is_dir_parent key dir last : canonical_key key → parent_dir key = (dir, last) → is_dir dir = true.
Proof.
  intros [Ha Hd _ _] Hpd. destruct (parent_dir_spec key dir last (conj Ha Hd) Hpd) as (_ & _ & He).
  unfold is_dir. by rewrite He.
Qed.

Lemma read_key_leaf s dir last v w :
  let key := join_path dir last in
  is_reserved key = false → is_dir key = false → kv_get s key = Some w →
  read_key s dir last = XValue.from_wire w.
Proof. cbv zeta. intros H1 H2 H3. unfold read_key. cbv zeta. by rewrite H1, H2, H3. Qed.

(** What an accepted pair leaves behind, and what [get_raw] returns for it: its wire without what
    may follow it. *)
Lemma set_pair_raw s s' key dir last v r :
  canonical_key key → parent_dir key = (dir, last) → link_free s dir →
  set [mkPair key v r] s = (Ok tt, s') →
  ∃ h, HeadLenPow.from_wire (pair_wire (mkPair key v r)) = Some h ∧
    kv_get s' key = Some (encode_head h) ∧ link_free s' dir ∧ is_reserved key = false ∧
    get_raw s' key = encode_head h.
Proof.
  intros Hck Hpd Hf Hset. rewrite set_single in Hset.
  apply set_one_Ok in Hset as (key' & h & [Hk _ Hr _ Hw _ _ _] & ->).
  cbn [pr_key] in Hk. rewrite (resolve_parent_free s key dir last) in Hk by done. subst key'.
  exists h. set (s' := kv_set key _ s).
  assert (Hf' : link_free s' dir) by by eapply link_free_set.
  assert (Hget : kv_get s' key = Some (encode_head h)).
  { unfold s'. by rewrite kv_get_set, decide_True. }
  split_and!; [done..|]. unfold get_raw. rewrite Hr, (locate_free s' key dir last) by done. cbv zeta.
  destruct (canonical_sep key Hck) as (p & dir' & last' & _ & Hpd' & _ & Hkey & _ & _ & Hp).
  rewrite Hpd in Hpd'. injection Hpd' as <- <-.
  destruct (join_path_dir p dir last Hp) as [_ Hj]. rewrite Hj, <-Hkey, Hr. by rewrite Hget.
Qed.

End roundtrip.

(** ** Properties *)

(** C17. What is written is what is read: when [set] accepts a value that fits the wire under a
    canonical key whose directory is reached without links, the value is then returned by a
    [get] of its name in its directory, by [get_one] of the key and, as bytes, by [get_raw]. *)
Theorem set_then_get `{KVLaws St} (s s' : St) key dir last v :
  canonical_key key → parent_dir key = (dir, last) → link_free s dir → wf_xvalue v →
  set [mkPair key v None] s = (Ok tt, s') →
  get s' dir [last] true = Ok [v] ∧ get_one s' key = Ok v ∧ get_raw s' key = XValue.to_wire v.
Proof.
  intros Hck Hpd Hf Hwf Hset.
  destruct (set_pair_raw s s' key dir last v None) as (h & Hw & Hget & Hf' & Hr & Hraw); try done.
  apply pair_wire_exact in Hw. rewrite Hw in *.
  destruct (canonical_sep key Hck) as (p & dir' & last' & Hs & Hpd' & Hne & Hkey & _ & _ & Hp).
  rewrite Hpd in Hpd'. injection Hpd' as <- <-.
  destruct (join_path_dir p dir last Hp) as [_ Hj]. rewrite <-Hkey in Hj.
  assert (Hgd : get s' dir [last] true = Ok [v]).
  { rewrite get_eq, resolve_path_free by done. unfold assert_dir.
    rewrite (is_dir_parent key dir last), andb_false_r by done. cbn [mbind res_bind fmap list_fmap].
    rewrite (read_key_leaf s' dir last v (XValue.to_wire v)) by (rewrite ?Hj; by destruct Hck).
    by rewrite from_to_wire. }
  split_and!; [done| |done]. unfold get_one. rewrite Hs. unfold parent_dir in Hpd. rewrite Hs in Hpd.
  injection Hpd as Hpd'. by rewrite Hpd', Hgd.
Qed.

Lemma set_then_get_witness :
  let v := new_char_byte [104; 105] in
  let s' := snd (set [mkPair "/a/k"%rs v None] (∅ : mem)) in
  get s' "/a/"%rs ["k"%rs] true = Ok [v] ∧ get_one s' "/a/k"%rs = Ok v ∧
  get_raw s' "/a/k"%rs = XValue.to_wire v.
Proof.
  cbv zeta.
  apply (set_then_get ∅ (snd (set [mkPair "/a/k"%rs (new_char_byte [104; 105]) None] (∅ : mem)))
    "/a/k"%rs "/a/"%rs "k"%rs (new_char_byte [104; 105])).
  - constructor; vm_compute; reflexivity.
  - vm_compute. reflexivity.
  - repeat constructor.
  - split_and!; [repeat constructor; discriminate|repeat constructor; discriminate
      |vm_compute; discriminate|vm_compute; discriminate].
  - apply pair_of_fst. vm_compute. reflexivity.
Defined.
