(* ===== verification/Watch.v ===== *)
(** * Waiting for a value: [watch_value] of [src/src/kvspace_common.rs]

    The polling loop with its spin phase and exponential back-off.  Other writers change the
    store between two polls, so the values read are a stream [obs], the value of the [n]-th
    [get_one]; a duration is a number of nanoseconds. *)

From S2P Require Import Prelude RustInt RustStr HeadLenPow KPath XValue Store Backend.
Local Open Scope Z_scope.

(** ** The loop *)

Definition SPIN_COUNT : Z := 100.
Definition MICROSECOND : Z := 1000.
Definition STEP_CAP : Z := 10000000.

Definition step_cap (tick_duration : Z) : Z := Z.min tick_duration STEP_CAP.

(** The loop variables [cur] and [i]. *)
Record backoff := mkBackoff { b_cur : Z; b_i : Z }.
Definition backoff0 : backoff := mkBackoff 0 0.

(** The end of an iteration that did not see the target: the new loop variables, and how long
    it slept ([None]: it went round without sleeping). *)
Definition backoff_step (cap : Z) (b : backoff) : option Z * backoff :=
  if b_i b <? SPIN_COUNT then (None, mkBackoff (b_cur b) (b_i b + 1))
  else
    let cur := if b_cur b =? 0 then MICROSECOND
               else if b_cur b <? cap then Z.min (b_cur b * 2) cap
               else b_cur b in
    (Some cur, mkBackoff cur (b_i b)).

(** [fuel] bounds the polls; [n] is the number of polls made.  The result is the value returned
    and the sleeps of the polls before it. *)
Fixpoint watch_loop (fuel : nat) (obs : nat → XValue) (target : XValue) (cap : Z)
    (n : nat) (b : backoff) : option (XValue * list (option Z)) :=
  match fuel with
  | O => None
  | S fuel =>
      if equal_xvalue (obs n) target then Some (obs n, [])
      else
        let '(slept, b) := backoff_step cap b in
        '(v, sleeps) ← watch_loop fuel obs target cap (S n) b;
        Some (v, slept :: sleeps)
  end.

Definition watch_value (fuel : nat) (obs : nat → XValue) (target : XValue) (tick_duration : Z) :
  option (XValue * list (option Z)) :=
  watch_loop fuel obs target (step_cap tick_duration) 0 backoff0.

(** The stream a backend provides: the state at each poll is up to the other writers. *)
Definition backend_obs `{KVStore St} (states : nat → St) (key : str) (n : nat) : XValue :=
  match get_one (states n) key with Ok v => v | _ => XNone end.

(** ** The sleeps, in closed form *)

(** How long the loop sleeps after its [n]-th poll. *)
Fixpoint sleep_from (cap : Z) (b : backoff) (n : nat) : option Z :=
  match n with
  | O => fst (backoff_step cap b)
  | S n => sleep_from cap (snd (backoff_step cap b)) n
  end.

(** The longest sleep: the cap, but never below the first sleep. *)
Definition longest (cap : Z) : Z := Z.max MICROSECOND cap.

Definition backoff_ok (cap : Z) (b : backoff) : Prop :=
  0 <= b_i b <= SPIN_COUNT ∧
  ((b_cur b = 0) ∨ (b_i b = SPIN_COUNT ∧ MICROSECOND <= b_cur b <= longest cap)).

Lemma backoff_step_ok cap b : backoff_ok cap b → backoff_ok cap (snd (backoff_step cap b)).
Proof.
  unfold backoff_ok, backoff_step, longest, MICROSECOND, SPIN_COUNT. destruct b as [cur i]. simpl.
  intros [Hi Hc]. destruct (Z.ltb_spec i 100); simpl.
  - split; [lia|]. destruct Hc as [->|[-> _]]; [by left|lia].
  - split; [lia|]. right. split; [lia|].
    destruct (Z.eqb_spec cur 0); [lia|]. destruct (Z.ltb_spec cur cap); lia.
Qed.

(** A sleep is at least a microsecond, at most the longest, and no shorter than the last. *)
Lemma backoff_step_sleep cap b d :
  backoff_ok cap b → fst (backoff_step cap b) = Some d →
  b_i b = SPIN_COUNT ∧ MICROSECOND <= d <= longest cap ∧ b_cur b <= d ∧
  b_cur (snd (backoff_step cap b)) = d.
Proof.
  unfold backoff_ok, backoff_step, longest, MICROSECOND, SPIN_COUNT. destruct b as [cur i]. simpl.
  intros [Hi Hc]. destruct (Z.ltb_spec i 100); simpl; [done|]. intros [= <-].
  split_and!; try lia;
    destruct (Z.eqb_spec cur 0); try lia; destruct (Z.ltb_spec cur cap); lia.
Qed.

Lemma watch_loop_hit fuel obs target cap n b k :
  (∀ i, (n <= i < n + k)%nat → equal_xvalue (obs i) target = false) →
  equal_xvalue (obs (n + k)%nat) target = true → (k < fuel)%nat →
  watch_loop fuel obs target cap n b = Some (obs (n + k)%nat, sleep_from cap b <$> seq 0 k).
Proof.
  revert fuel n b. induction k as [|k IH]; intros fuel n b Hno Hyes Hf.
  - rewrite Nat.add_0_r in *. destruct fuel; [lia|]. simpl. by rewrite Hyes.
  - destruct fuel as [|fuel]; [lia|]. cbn [watch_loop]. rewrite Hno by lia.
    destruct (backoff_step cap b) as [d b'] eqn:E.
    rewrite (IH fuel (S n) b') by
      first [lia|intros i Hi; apply Hno; lia|by replace (S n + k)%nat with (n + S k)%nat by lia].
    cbn [mbind option_bind]. replace (S n + k)%nat with (n + S k)%nat by lia.
    do 2 f_equal. cbn [seq]. rewrite fmap_cons. cbn [sleep_from]. rewrite E. cbn [fst]. f_equal.
    rewrite <-fmap_S_seq, <-list_fmap_compose. apply list_fmap_ext. intros i x _. simpl. by rewrite E.
Qed.

Lemma watch_loop_miss fuel obs target cap n b :
  (∀ i, (n <= i < n + fuel)%nat → equal_xvalue (obs i) target = false) →
  watch_loop fuel obs target cap n b = None.
Proof.
  revert n b. induction fuel as [|fuel IH]; intros n b Hno; [done|]. cbn [watch_loop].
  rewrite Hno by lia. destruct (backoff_step cap b) as [d b'].
  rewrite IH; [done|]. intros i Hi. apply Hno. lia.
Qed.

Lemma sleep_from_spec cap b n :
  backoff_ok cap b →
  (∀ d, sleep_from cap b n = Some d → MICROSECOND <= d <= longest cap ∧ b_cur b <= d) ∧
  (Z.of_nat n < SPIN_COUNT - b_i b → sleep_from cap b n = None) ∧
  (SPIN_COUNT - b_i b <= Z.of_nat n → is_Some (sleep_from cap b n)).
Proof.
  revert b. induction n as [|n IH]; intros b Hb.
  - cbn [sleep_from]. split_and!.
    + intros d Hd. by destruct (backoff_step_sleep cap b d Hb Hd) as (_ & ? & ? & _).
    + unfold backoff_step. intros Hlt. destruct (Z.ltb_spec (b_i b) SPIN_COUNT); [done|lia].
    + unfold backoff_step. intros Hle. destruct (Z.ltb_spec (b_i b) SPIN_COUNT); [lia|by eexists].
  - cbn [sleep_from]. destruct (IH _ (backoff_step_ok cap b Hb)) as (H1 & H2 & H3).
    destruct (fst (backoff_step cap b)) as [d0|] eqn:E0.
    + destruct (backoff_step_sleep cap b d0 Hb E0) as (Hi & _ & Hge & Hcur).
      assert (Hi' : b_i (snd (backoff_step cap b)) = SPIN_COUNT).
      { unfold backoff_step in *. rewrite Hi in *. by rewrite Z.ltb_irrefl in *. }
      split_and!; [|lia|intros; apply H3; lia].
      intros d Hd. destruct (H1 d Hd). rewrite Hcur in *. lia.
    + assert (b_i (snd (backoff_step cap b)) = b_i b + 1 ∧ b_cur (snd (backoff_step cap b)) = b_cur b)
        as [Hi Hc].
      { unfold backoff_step in *. by destruct (b_i b <? SPIN_COUNT). }
      rewrite Hi, Hc in *. split_and!; [done|intros; apply H2; lia|intros; apply H3; lia].
Qed.

Lemma sleep_from_mono cap b n m d e :
  backoff_ok cap b → sleep_from cap b n = Some d → sleep_from cap b (n + m)%nat = Some e → d <= e.
Proof.
  revert b. induction n as [|n IH]; intros b Hb Hd He.
  - cbn [sleep_from Nat.add] in *. destruct m as [|m]; [cbn [sleep_from] in He; simplify_eq; lia|].
    destruct (backoff_step_sleep cap b d Hb Hd) as (_ & _ & _ & Hcur). cbn [sleep_from] in He.
    destruct (sleep_from_spec cap _ m (backoff_step_ok cap b Hb)) as (H1 & _).
    destruct (H1 e He). lia.
  - cbn [sleep_from Nat.add] in *. eapply IH; [by apply backoff_step_ok|done|done].
Qed.

Lemma backoff0_ok cap : backoff_ok cap backoff0.
Proof. unfold backoff_ok, SPIN_COUNT. simpl. lia. Qed.

(** ** Properties *)

(** C18. [watch_value] returns exactly the first polled value that equals the target: whatever
    the other writers do, with fuel for more polls than come before it, and for no fuel when no
    poll ever sees it.  It polls a hundred times without sleeping; from then on it sleeps after
    every poll, at least a microsecond, never less than the time before, and never more than the
    tick duration or ten milliseconds (or the initial microsecond, when the tick is shorter). *)
Theorem watch_returns_first_match obs target tick :
  (∀ k fuel, (∀ i, (i < k)%nat → equal_xvalue (obs i) target = false) →
     equal_xvalue (obs k) target = true → (k < fuel)%nat →
     ∃ sleeps, watch_value fuel obs target tick = Some (obs k, sleeps) ∧ length sleeps = k ∧
       (∀ i, (i < k)%nat → (i < 100)%nat → sleeps !! i = Some None) ∧
       (∀ i, (i < k)%nat → (100 <= i)%nat → ∃ d, sleeps !! i = Some (Some d) ∧
          1000 <= d <= Z.max 1000 (Z.min tick 10000000)) ∧
       (∀ i j d e, (i <= j)%nat → sleeps !! i = Some (Some d) → sleeps !! j = Some (Some e) → d <= e)) ∧
  ((∀ i, equal_xvalue (obs i) target = false) → ∀ fuel, watch_value fuel obs target tick = None).
Proof.
  split.
  - intros k fuel Hno Hyes Hf. unfold watch_value. set (cap := step_cap tick).
    exists (sleep_from cap backoff0 <$> seq 0 k).
    rewrite (watch_loop_hit fuel obs target cap 0 backoff0 k) by (try done; intros i Hi; apply Hno; lia).
    assert (Hl : ∀ i x, (sleep_from cap backoff0 <$> seq 0 k) !! i = Some x →
      (i < k)%nat ∧ x = sleep_from cap backoff0 i).
    { intros i x Hx. apply list_lookup_fmap_Some in Hx as (j & -> & Hj).
      apply lookup_seq in Hj as [-> Hj]. done. }
    assert (Hs : ∀ i, (i < k)%nat → (sleep_from cap backoff0 <$> seq 0 k) !! i = Some (sleep_from cap backoff0 i)).
    { intros i Hi. rewrite list_lookup_fmap, lookup_seq_lt by done. done. }
    pose proof (λ i, sleep_from_spec cap backoff0 i (backoff0_ok cap)) as Hspec.
    split_and!; [done|by rewrite length_fmap, length_seq|..].
    + intros i Hi Hlt. rewrite Hs by done. destruct (Hspec i) as (_ & H2 & _). f_equal. apply H2.
      unfold SPIN_COUNT. simpl. lia.
    + intros i Hi Hle. destruct (Hspec i) as (H1 & _ & H3). rewrite Hs by done.
      destruct H3 as [d Hd]; [unfold SPIN_COUNT; simpl; lia|]. exists d. rewrite Hd.
      split; [done|]. change 1000 with MICROSECOND. change 10000000 with STEP_CAP.
      fold (step_cap tick) cap (longest cap). apply (H1 d Hd).
    + intros i j d e Hij [Hi Hd]%Hl [Hj He]%Hl. symmetry in Hd, He.
      replace j with (i + (j - i))%nat in He by lia.
      by eapply (sleep_from_mono cap backoff0 i (j - i)); [apply backoff0_ok|..].
  - intros Hno fuel. apply watch_loop_miss. auto.
Qed.
