(* ===== verification/SigV4.v ===== *)
(** * Request signing: [src/src/s3/sigv4.rs]

    The encodings, the calendar and the AWS Signature Version 4 of a request.  SHA-256, HMAC
    (crates [sha2] and [hmac]) and the clock are parameters. *)

From S2P Require Import Prelude RustInt RustStr RustText.
Local Open Scope Z_scope.

(** ** Encodings *)

Definition HEX_LOWER : bytes := "0123456789abcdef"%rs.
Definition HEX_UPPER : bytes := "0123456789ABCDEF"%rs.

(** [HEX[n]], for [n < 16]. *)
Definition nibble (digits : bytes) (n : Z) : byte := default Byte.x00 (digits !! Z.to_nat n).

Definition hex_byte (digits : bytes) (b : byte) : bytes :=
  [nibble digits (Z.shiftr (byte_val b) 4); nibble digits (Z.land (byte_val b) 15)].

Definition hex (l : bytes) : str := concat (hex_byte HEX_LOWER <$> l).

Definition is_alphanumeric (b : byte) : bool :=
  let x := byte_val b in
  ((48 <=? x) && (x <=? 57)) || ((65 <=? x) && (x <=? 90)) || ((97 <=? x) && (x <=? 122)).

Definition unreserved (b : byte) : bool :=
  is_alphanumeric b || bool_decide (b ∈ [Byte.x2d; Byte.x5f; Byte.x2e; Byte.x7e]).

Definition encode_byte (keep_slash : bool) (b : byte) : bytes :=
  if unreserved b || (keep_slash && bool_decide (b = Byte.x2f)) then [b]
  else Byte.x25 :: hex_byte HEX_UPPER b.

Definition uri_encode (s : str) (keep_slash : bool) : str := concat (encode_byte keep_slash <$> s).

(** The order of [Vec<(String, String)>::sort]. *)
Definition pair_cmp (a b : str * str) : comparison :=
  match str_cmp a.1 b.1 with Eq => str_cmp a.2 b.2 | c => c end.
Definition pair_le (a b : str * str) : Prop := pair_cmp a b ≠ Gt.
#[export] Instance pair_le_decision : RelDecision pair_le.
Proof. intros a b. unfold pair_le. destruct (pair_cmp a b); [left|left|right]; congruence. Defined.

Definition canonical_query (params : list (str * str)) : str :=
  let v := (λ p, (uri_encode p.1 false, uri_encode p.2 false)) <$> params in
  join "&"%rs ((λ p, p.1 ++ "="%rs ++ p.2) <$> merge_sort pair_le v).

(** ** Dates *)

(** Rust's [/] on [i64] rounds towards zero. *)
Definition civil_from_days (z : Z) : Z * Z * Z :=
  let z := z + 719468 in
  let era := Z.quot (if 0 <=? z then z else z - 146096) 146097 in
  let doe := z - era * 146097 in
  let yoe := Z.quot (doe - Z.quot doe 1460 + Z.quot doe 36524 - Z.quot doe 146096) 365 in
  let y := yoe + era * 400 in
  let doy := doe - (365 * yoe + Z.quot yoe 4 - Z.quot yoe 100) in
  let mp := Z.quot (5 * doy + 2) 153 in
  let d := doy - Z.quot (153 * mp + 2) 5 + 1 in
  let m := if mp <? 10 then mp + 3 else mp - 9 in
  (if m <=? 2 then y + 1 else y, m, d).

(** [{:0w$}] *)
Definition zero_pad (w : nat) (x : Z) : str :=
  let digits := show_u (Z.abs x) in
  let sign := if x <? 0 then "-"%rs else [] in
  sign ++ replicate (w - length sign - length digits) Byte.x30 ++ digits.

Definition amz_dates (unix_secs : Z) : str * str :=
  let secs := wrap_s 64 unix_secs in
  let days := secs / 86400 in
  let rem := secs mod 86400 in
  let '(y, m, d) := civil_from_days days in
  let hh := Z.quot rem 3600 in
  let mm := Z.quot (Z.rem rem 3600) 60 in
  let ss := Z.rem rem 60 in
  let date := zero_pad 4 y ++ zero_pad 2 m ++ zero_pad 2 d in
  (date ++ "T"%rs ++ zero_pad 2 hh ++ zero_pad 2 mm ++ zero_pad 2 ss ++ "Z"%rs, date).

(** ** Signing *)

Definition ALGORITHM : str := "AWS4-HMAC-SHA256"%rs.
Definition SERVICE : str := "s3"%rs.
Definition LF : str := [Byte.x0a].

Record Signed := mkSigned { authorization : str; amz_date : str; payload_hash : str }.

Section sign.
Context (sha256 : bytes → bytes) (hmac : bytes → bytes → bytes).

Definition sha256_hex (data : bytes) : str := hex (sha256 data).

(** [now] is what the clock reads. *)
Definition sign (now : Z) (access_key secret_key region host method canonical_uri : str)
    (params : list (str * str)) (payload : bytes) : Signed :=
  let '(amz_date, date_stamp) := amz_dates now in
  let payload_hash := sha256_hex payload in
  let canonical_headers :=
    "host:"%rs ++ host ++ LF ++ "x-amz-content-sha256:"%rs ++ payload_hash ++ LF ++
    "x-amz-date:"%rs ++ amz_date ++ LF in
  let signed_headers := "host;x-amz-content-sha256;x-amz-date"%rs in
  let canonical_request :=
    join LF [method; canonical_uri; canonical_query params; canonical_headers; signed_headers;
             payload_hash] in
  let scope := date_stamp ++ "/"%rs ++ region ++ "/"%rs ++ SERVICE ++ "/aws4_request"%rs in
  let string_to_sign := join LF [ALGORITHM; amz_date; scope; sha256_hex canonical_request] in
  let k_date := hmac ("AWS4"%rs ++ secret_key) date_stamp in
  let k_region := hmac k_date region in
  let k_service := hmac k_region SERVICE in
  let k_signing := hmac k_service "aws4_request"%rs in
  let signature := hex (hmac k_signing string_to_sign) in
  mkSigned
    (ALGORITHM ++ " Credential="%rs ++ access_key ++ "/"%rs ++ scope ++ ", SignedHeaders="%rs ++
     signed_headers ++ ", Signature="%rs ++ signature)
    amz_date payload_hash.
End sign.
