(* ===== verification/Dsn.v ===== *)
(** * S3 connection strings: [src/src/s3/dsn.rs]

    Parsing, redaction and the object names below the DSN's prefix, with the percent-encoding
    of [src/src/s3/sigv4.rs].  The parser panics on any malformed part. *)

From S2P Require Import Prelude RustInt RustStr RustText SigV4.
Local Open Scope Z_scope.
Implicit Types (dsn : str).

(** ** Data *)

Record S3Dsn := mkDsn {
  access_key : str;
  secret_key : str;
  bucket : str;
  dsn_prefix : str;
  endpoint : str;
  region : str;
}.

(** The reasons [bad] is given, and the panics of [percent_decode]; [bad] shows the redacted
    string. *)
Inductive dsn_why :=
  | NoQuery | NoUserinfo | NoColon | NoAccessKey | NoSecretKey | NoBucket | NoPrefix | PrefixNoSlash
  | QueryNoEq | QueryUnknown | NoEndpoint | NoRegion.

Inductive dsn_panic :=
  | BadDsn (why : dsn_why) (shown : str)
  | PercentIncomplete (s : str)
  | PercentInvalid (s : str)
  | PercentNotUtf8 (out : bytes).

(** ** Redaction *)

(** [rest.find(['/', '?'])] *)
Definition find_authority_end (rest : str) : option nat :=
  match find "/"%rs rest, find "?"%rs rest with
  | Some i, Some j => Some (Nat.min i j)
  | Some i, None => Some i
  | None, o => o
  end.

Definition redact dsn : str :=
  match find "://"%rs dsn with
  | None => dsn
  | Some i =>
      let scheme := take (i + 3) dsn in
      let rest := drop (i + 3) dsn in
      let authority_end := default (length rest) (find_authority_end rest) in
      let authority := take authority_end rest in
      match rfind "@"%rs authority with
      | Some at_ =>
          let userinfo := take at_ authority in
          let host := drop at_ authority in
          let masked := if contains ":"%rs userinfo then "***:***"%rs else "***"%rs in
          scheme ++ masked ++ host ++ drop authority_end rest
      | None => dsn
      end
  end.

Definition bad {A} dsn (why : dsn_why) : res dsn_panic A := Panic (BadDsn why (redact dsn)).

(** [opt.unwrap_or_else(|| bad(dsn, why))] *)
Definition or_bad {A} dsn (why : dsn_why) (o : option A) : res dsn_panic A :=
  match o with Some a => Ok a | None => bad dsn why end.

Definition bad_if (b : bool) dsn (why : dsn_why) : res dsn_panic unit := if b then bad dsn why else Ok tt.

(** ** Percent-encoding *)

(** [(b as char).to_digit(16)] *)
Definition hex_digit (b : byte) : option Z :=
  let x := byte_val b in
  if (48 <=? x) && (x <=? 57) then Some (x - 48)
  else if (97 <=? x) && (x <=? 102) then Some (x - 87)
  else if (65 <=? x) && (x <=? 70) then Some (x - 55)
  else None.

(** The loop of [percent_decode]; [s] is what it was called with. *)
Fixpoint percent_bytes (s : str) (b : bytes) : res dsn_panic bytes :=
  match b with
  | [] => Ok []
  | c :: b' =>
      if decide (c = Byte.x25) then
        match b' with
        | h :: l :: b'' =>
            match hex_digit h, hex_digit l with
            | Some h, Some l => out ← percent_bytes s b''; Ok (byte_of (h * 16 + l) :: out)
            | _, _ => Panic (PercentInvalid s)
            end
        | _ => Panic (PercentIncomplete s)
        end
      else out ← percent_bytes s b'; Ok (c :: out)
  end.

Definition percent_decode (s : str) : res dsn_panic str :=
  out ← percent_bytes s s;
  match from_utf8 out with Some t => Ok t | None => Panic (PercentNotUtf8 out) end.

(** ** Parsing *)

(** One round of the loop over the query's parts: [endpoint] and [region] so far. *)
Definition query_part dsn (acc : option str * option str) (kv : str) :
  res dsn_panic (option str * option str) :=
  '(k, v) ← or_bad dsn QueryNoEq (split_once "="%rs kv);
  v ← percent_decode v;
  if decide (k = "endpoint"%rs) then Ok (Some v, acc.2)
  else if decide (k = "region"%rs) then Ok (acc.1, Some v)
  else bad dsn QueryUnknown.

Fixpoint query_parts dsn (acc : option str * option str) (kvs : list str) :
  res dsn_panic (option str * option str) :=
  match kvs with
  | [] => Ok acc
  | kv :: kvs => acc ← query_part dsn acc kv; query_parts dsn acc kvs
  end.

Definition parse dsn : res dsn_panic S3Dsn :=
  let rest := default dsn (strip_prefix "s3://"%rs dsn) in
  '(head, query) ← or_bad dsn NoQuery (split_once "?"%rs rest);
  at_ ← or_bad dsn NoUserinfo (rfind "@"%rs head);
  let userinfo := take at_ head in
  let hostpath := drop 1 (drop at_ head) in
  '(ak, sk) ← or_bad dsn NoColon (split_once ":"%rs userinfo);
  ak ← percent_decode ak;
  sk ← percent_decode sk;
  bad_if (bool_decide (ak = [])) dsn NoAccessKey;;
  bad_if (bool_decide (sk = [])) dsn NoSecretKey;;
  let '(bucket, prefix) := match split_once "/"%rs hostpath with
                           | Some bp => bp | None => (hostpath, []) end in
  bad_if (bool_decide (bucket = [])) dsn NoBucket;;
  bad_if (bool_decide (prefix = [])) dsn NoPrefix;;
  bad_if (negb (ends_with "/"%rs prefix)) dsn PrefixNoSlash;;
  '(endpoint, region) ← query_parts dsn (None, None)
     (filter (λ kv, kv ≠ []) (split_byte Byte.x26 query));
  endpoint ← or_bad dsn NoEndpoint endpoint;
  region ← or_bad dsn NoRegion region;
  Ok (mkDsn ak sk bucket prefix endpoint region).

(** ** Object names *)

Definition object_key (prefix key : str) : str := prefix ++ default key (strip_prefix "/"%rs key).

(** The inverse [list_all] applies to the names it lists: the part below the prefix, made
    absolute again. *)
Definition key_of_object (prefix k : str) : option str := (λ t, "/"%rs ++ t) <$> strip_prefix prefix k.

(** ** Decoding what [uri_encode] wrote *)

(** One byte of a percent-encoded text decodes to the byte it stands for. *)
Lemma percent_bytes_encode ks s b t :
  percent_bytes s (encode_byte ks b ++ t) = (out ← percent_bytes s t; Ok (b :: out)).
Proof. destruct ks, b; reflexivity. Qed.

Lemma percent_bytes_uri ks s t : percent_bytes s (uri_encode t ks) = Ok t.
Proof.
  induction t as [|b t IH]; [done|]. unfold uri_encode in *. cbn [fmap list_fmap concat].
  rewrite percent_bytes_encode. by rewrite IH.
Qed.

Lemma percent_decode_uri ks t : utf8_valid t = true → percent_decode (uri_encode t ks) = Ok t.
Proof.
  intros Ht. unfold percent_decode. rewrite percent_bytes_uri. cbn [mbind res_bind].
  unfold from_utf8. by rewrite Ht.
Qed.

Lemma uri_encode_inj ks s t : uri_encode s ks = uri_encode t ks → s = t.
Proof.
  intros H. pose proof (percent_bytes_uri ks [] s) as Hs. rewrite H, percent_bytes_uri in Hs.
  congruence.
Qed.

(** The bytes [uri_encode _ false] writes; none of them delimits a part of a DSN. *)
Definition uri_safe (b : byte) : bool := unreserved b || bool_decide (b = Byte.x25).

Lemma encode_byte_safe b : Forall (λ c, uri_safe c = true) (encode_byte false b).
Proof. destruct b; repeat constructor. Qed.

Lemma uri_encode_safe t : Forall (λ c, uri_safe c = true) (uri_encode t false).
Proof. apply Forall_concat, Forall_fmap, Forall_true. intros b. apply encode_byte_safe. Qed.

Lemma uri_encode_notin c t : uri_safe c = false → c ∉ uri_encode t false.
Proof.
  intros Hc Hin. pose proof (uri_encode_safe t) as H. rewrite Forall_forall in H.
  specialize (H c Hin). congruence.
Qed.

Lemma uri_encode_nil ks t : uri_encode t ks = [] → t = [].
Proof. apply (uri_encode_inj ks t []). Qed.

(** ** A DSN as its parts *)

(** The connection string of [d], credentials and query values percent-encoded. *)
Definition userinfo_of (d : S3Dsn) : str :=
  uri_encode (access_key d) false ++ Byte.x3a :: uri_encode (secret_key d) false.

Definition query_of (d : S3Dsn) : str :=
  "endpoint="%rs ++ uri_encode (endpoint d) false ++
  Byte.x26 :: "region="%rs ++ uri_encode (region d) false.

Definition print (d : S3Dsn) : str :=
  "s3://"%rs ++ userinfo_of d ++ Byte.x40 :: bucket d ++ Byte.x2f :: dsn_prefix d ++
  Byte.x3f :: query_of d.

(** What every accepted DSN satisfies, [parse] being what checks it. *)
Record wf_dsn (d : S3Dsn) : Prop := {
  wf_access : access_key d ≠ [];
  wf_secret : secret_key d ≠ [];
  wf_bucket : bucket d ≠ [];
  wf_bucket_chars : (Byte.x2f ∉ bucket d) ∧ (Byte.x40 ∉ bucket d) ∧ (Byte.x3f ∉ bucket d);
  wf_prefix : ends_with "/"%rs (dsn_prefix d) = true;
  wf_prefix_chars : (Byte.x40 ∉ dsn_prefix d) ∧ (Byte.x3f ∉ dsn_prefix d);
  wf_utf8 : utf8_valid (access_key d) = true ∧ utf8_valid (secret_key d) = true ∧
            utf8_valid (endpoint d) = true ∧ utf8_valid (region d) = true;
}.

(** [parse] after the scheme, on a string already cut at its delimiters. *)
Lemma parse_parts dsn rest user bkt pfx query :
  default dsn (strip_prefix "s3://"%rs dsn) = rest →
  rest = (user ++ Byte.x40 :: bkt ++ Byte.x2f :: pfx) ++ Byte.x3f :: query →
  Byte.x3f ∉ user ++ Byte.x40 :: bkt ++ Byte.x2f :: pfx → Byte.x40 ∉ bkt ++ Byte.x2f :: pfx →
  Byte.x2f ∉ bkt → bkt ≠ [] → ends_with "/"%rs pfx = true →
  parse dsn = (
    '(ak, sk) ← or_bad dsn NoColon (split_once ":"%rs user);
    ak ← percent_decode ak;
    sk ← percent_decode sk;
    bad_if (bool_decide (ak = [])) dsn NoAccessKey;;
    bad_if (bool_decide (sk = [])) dsn NoSecretKey;;
    '(endpoint, region) ← query_parts dsn (None, None)
       (filter (λ kv, kv ≠ []) (split_byte Byte.x26 query));
    endpoint ← or_bad dsn NoEndpoint endpoint;
    region ← or_bad dsn NoRegion region;
    Ok (mkDsn ak sk bkt pfx endpoint region)).
Proof.
  intros Hrest -> Hq Hat Hsl Hb Hp. unfold parse. cbv zeta. rewrite Hrest.
  change "?"%rs with [Byte.x3f]. change "@"%rs with [Byte.x40]. change "/"%rs with [Byte.x2f] at 1.
  rewrite split_once_byte by done. cbn [or_bad mbind res_bind].
  rewrite rfind_byte by done. cbn [or_bad mbind res_bind].
  rewrite take_app_length, drop_app_length, skipn_cons, drop_0.
  rewrite split_once_byte by done. rewrite (bool_decide_false (bkt = [])) by done.
  assert (pfx ≠ []) by (intros ->; discriminate Hp).
  rewrite (bool_decide_false (pfx = [])) by done. rewrite Hp. cbn [bad_if negb].
  cbn [mbind res_bind].
  destruct (split_once ":"%rs user) as [[ak sk]|]; [|done]. cbn [or_bad].
  destruct (percent_decode ak) as [ak'| |]; try done.
Qed.

(** ** Printing and parsing *)

Lemma query_part_encoded dsn acc k v :
  Byte.x3d ∉ k → utf8_valid v = true →
  query_part dsn acc (k ++ Byte.x3d :: uri_encode v false) =
    if decide (k = "endpoint"%rs) then Ok (Some v, acc.2)
    else if decide (k = "region"%rs) then Ok (acc.1, Some v)
    else bad dsn QueryUnknown.
Proof.
  intros Hk Hv. unfold query_part. change "="%rs with [Byte.x3d].
  rewrite split_once_byte by done. cbn [or_bad mbind res_bind].
  by rewrite percent_decode_uri by done.
Qed.

Lemma query_parts_print dsn d :
  utf8_valid (endpoint d) = true → utf8_valid (region d) = true →
  query_parts dsn (None, None) (filter (λ kv, kv ≠ []) (split_byte Byte.x26 (query_of d))) =
    Ok (Some (endpoint d), Some (region d)).
Proof.
  intros He Hr. unfold query_of.
  assert (Hk : ∀ k t, Byte.x26 ∉ k → Byte.x26 ∉ k ++ uri_encode t false).
  { intros k t Hk. rewrite elem_of_app. intros [H|H]; [done|]. by apply uri_encode_notin in H. }
  rewrite app_assoc, split_byte_app, split_byte_notin by (apply Hk; decided).
  rewrite !filter_cons_True by done. rewrite filter_nil. cbn [query_parts].
  change ("endpoint="%rs ++ ?v) with ("endpoint"%rs ++ Byte.x3d :: v).
  change ("region="%rs ++ ?v) with ("region"%rs ++ Byte.x3d :: v).
  rewrite query_part_encoded, decide_True by first [done|decided]. cbn [mbind res_bind].
  by rewrite query_part_encoded, decide_False, decide_True by first [done|decided].
Qed.

Lemma print_rest d :
  default (print d) (strip_prefix "s3://"%rs (print d)) =
    (userinfo_of d ++ Byte.x40 :: bucket d ++ Byte.x2f :: dsn_prefix d) ++ Byte.x3f :: query_of d.
Proof.
  unfold print. rewrite strip_prefix_app. cbn [from_option id].
  rewrite <-!app_assoc. cbn [app]. by rewrite <-app_assoc.
Qed.

Lemma userinfo_notin d c : uri_safe c = false → c ≠ Byte.x3a → c ∉ userinfo_of d.
Proof.
  intros Hc Hne. unfold userinfo_of. rewrite elem_of_app, elem_of_cons.
  intros [H|[H|H]]; [|done|]; by apply uri_encode_notin in H.
Qed.

Lemma parse_print d : wf_dsn d → parse (print d) = Ok d.
Proof.
  intros [Ha Hs Hb (Hb1 & Hb2 & Hb3) Hp (Hp1 & Hp2) (Hu1 & Hu2 & Hu3 & Hu4)].
  rewrite (parse_parts _ _ (userinfo_of d) (bucket d) (dsn_prefix d) (query_of d) (print_rest d)); try done.
  - unfold userinfo_of at 1. change ":"%rs with [Byte.x3a].
    rewrite split_once_byte by (by apply uri_encode_notin). cbn [or_bad mbind res_bind].
    rewrite !percent_decode_uri by done. cbn [mbind res_bind].
    rewrite !bool_decide_false by done. cbn [bad_if mbind res_bind]. rewrite query_parts_print by done. by destruct d.
  - rewrite !elem_of_app, !elem_of_cons, !elem_of_app, !elem_of_cons.
    intros [H|[H|[H|[H|H]]]]; try done. by apply userinfo_notin in H.
  - rewrite elem_of_app, elem_of_cons. by intros [H|[H|H]].
Qed.

Lemma percent_decode_utf8 s t : percent_decode s = Ok t → utf8_valid t = true.
Proof.
  unfold percent_decode, from_utf8. destruct (percent_bytes s s) as [out| |]; try done.
  cbn [mbind res_bind]. destruct (utf8_valid out) eqn:E; [|done]. by intros [= <-].
Qed.

Lemma query_parts_utf8 dsn acc kvs e r :
  (∀ v, acc.1 = Some v ∨ acc.2 = Some v → utf8_valid v = true) →
  query_parts dsn acc kvs = Ok (e, r) →
  ∀ v, e = Some v ∨ r = Some v → utf8_valid v = true.
Proof.
  revert acc. induction kvs as [|kv kvs IH]; intros acc Hacc; cbn [query_parts].
  - by intros [= ->].
  - unfold query_part. destruct (split_once _ kv) as [[k v]|]; [|done].
    cbn [or_bad mbind res_bind]. destruct (percent_decode v) as [v'| |] eqn:Ev; try done.
    apply percent_decode_utf8 in Ev. cbn [mbind res_bind].
    destruct (decide (k = _)); [|destruct (decide (k = _)); [|done]]; cbn [mbind res_bind];
      apply IH; simpl; intros w [Hw|Hw]; naive_solver.
Qed.

Lemma parse_wf dsn d : parse dsn = Ok d → wf_dsn d.
Proof.
  unfold parse. cbv zeta. set (rest := default dsn _).
  destruct (split_once "?"%rs rest) as [[head query]|] eqn:Eq; [|done].
  apply split_once_byte_Some in Eq as [Hq _]. cbn [or_bad mbind res_bind].
  destruct (rfind "@"%rs head) as [at_|] eqn:Eat; [|done].
  apply rfind_byte_Some in Eat as [Hat Hhead]. cbn [or_bad mbind res_bind].
  rewrite drop_drop, Nat.add_1_r. set (hostpath := drop (S at_) head) in *.
  destruct (split_once ":"%rs _) as [[ak0 sk0]|]; [|done]. cbn [or_bad mbind res_bind].
  destruct (percent_decode ak0) as [ak| |] eqn:Eak; try done. cbn [mbind res_bind].
  destruct (percent_decode sk0) as [sk| |] eqn:Esk; try done. cbn [mbind res_bind].
  destruct (bool_decide (ak = [])) eqn:Hak; [done|]. apply bool_decide_eq_false in Hak. cbn [bad_if mbind res_bind].
  destruct (bool_decide (sk = [])) eqn:Hsk; [done|]. apply bool_decide_eq_false in Hsk. cbn [bad_if mbind res_bind].
  assert (Hq' : Byte.x3f ∉ hostpath).
  { intros H. apply Hq. rewrite Hhead, elem_of_app, elem_of_cons. auto. }
  destruct (split_once "/"%rs hostpath) as [[bkt pfx]|] eqn:Es; cycle 1.
  { destruct (bool_decide (hostpath = [])); [done|]. cbn [bad_if mbind res_bind]. by rewrite bool_decide_true. }
  apply split_once_byte_Some in Es as [Hsl Hhp]. rewrite Hhp in Hat, Hq'.
  rewrite elem_of_app, elem_of_cons in Hat, Hq'.
  destruct (bool_decide (bkt = [])) eqn:Hb; [done|]. apply bool_decide_eq_false in Hb. cbn [bad_if mbind res_bind].
  destruct (bool_decide (pfx = [])) eqn:Hp; [done|]. cbn [bad_if mbind res_bind].
  destruct (ends_with "/"%rs pfx) eqn:Hend; [|done]. cbn [bad_if negb mbind res_bind].
  destruct (query_parts _ _ _) as [[e r]| |] eqn:Eqp; try done.
  pose proof (λ H, query_parts_utf8 _ _ _ _ _ H Eqp) as Hv. cbn [mbind res_bind].
  specialize (Hv ltac:(simpl; naive_solver)).
  destruct e as [e|]; [|done]. destruct r as [r|]; [|done]. cbn [or_bad mbind res_bind].
  intros [= <-]. apply percent_decode_utf8 in Eak, Esk.
  split; simpl; try done; naive_solver.
Qed.

(** ** What a redacted DSN shows *)

(** The authority that follows the userinfo: up to the first ['/'] or ['?']. *)
Definition authority (tail : str) : str :=
  take (default (length tail) (find_authority_end tail)) tail.

Definition mask (user : str) : str := if contains ":"%rs user then "***:***"%rs else "***"%rs.

Lemma find_byte_shift c a b :
  c ∉ a → find [c] (a ++ b) = (λ i, (length a + i)%nat) <$> find [c] b.
Proof.
  intros Hc. induction a as [|x a IH]; cbn [app length Nat.add].
  - by destruct (find [c] b).
  - apply not_elem_of_cons in Hc as [Hne Hc]. cbn [find].
    rewrite starts_with_byte, bool_decide_false by done. rewrite IH by done.
    by destruct (find [c] b).
Qed.

Lemma find_authority_end_app user tail :
  Byte.x2f ∉ user → Byte.x3f ∉ user →
  find_authority_end (user ++ tail) = (λ i, (length user + i)%nat) <$> find_authority_end tail.
Proof.
  intros H1 H2. unfold find_authority_end.
  change "/"%rs with [Byte.x2f]. change "?"%rs with [Byte.x3f]. rewrite !find_byte_shift by done.
  destruct (find [Byte.x2f] tail), (find [Byte.x3f] tail); simpl; try done. f_equal. lia.
Qed.

Lemma find_scheme scheme t :
  Byte.x3a ∉ scheme → find "://"%rs (scheme ++ "://"%rs ++ t) = Some (length scheme).
Proof.
  intros Hc. induction scheme as [|x scheme IH]; [done|].
  apply not_elem_of_cons in Hc as [Hne Hc]. rewrite <-app_comm_cons. cbn [find length].
  rewrite IH by done. unfold starts_with. cbn [strip_prefix]. by rewrite decide_False.
Qed.

(** Where the authority of [user@tail] ends. *)
Lemma authority_end user tail :
  Byte.x2f ∉ user → Byte.x3f ∉ user →
  default (length (user ++ Byte.x40 :: tail)) (find_authority_end (user ++ Byte.x40 :: tail)) =
    (length user + S (default (length tail) (find_authority_end tail)))%nat.
Proof.
  intros H1 H2. change (Byte.x40 :: tail) with ([Byte.x40] ++ tail). rewrite app_assoc.
  rewrite find_authority_end_app by (rewrite elem_of_app, list_elem_of_singleton; by intros [?|?]).
  rewrite !length_app. destruct (find_authority_end tail); simpl; lia.
Qed.

Lemma redact_eq scheme user tail :
  Byte.x3a ∉ scheme → Byte.x2f ∉ user → Byte.x3f ∉ user → Byte.x40 ∉ authority tail →
  redact (scheme ++ "://"%rs ++ user ++ Byte.x40 :: tail) =
    scheme ++ "://"%rs ++ mask user ++ Byte.x40 :: tail.
Proof.
  intros Hs H1 H2 Hat. unfold redact. rewrite find_scheme by done. cbv zeta.
  rewrite app_assoc, take_app_length', drop_app_length' by (rewrite length_app; done).
  rewrite authority_end by done. unfold authority in Hat.
  set (n := default (length tail) (find_authority_end tail)) in *.
  rewrite take_app_add, drop_app_add. cbn [take drop firstn skipn].
  change "@"%rs with [Byte.x40]. rewrite rfind_byte by done.
  rewrite take_app_length, drop_app_length. fold (mask user).
  rewrite <-!app_assoc, <-(app_comm_cons (take n tail)). by rewrite take_drop.
Qed.

(** A computation of the parser: it never returns an error, and a [bad] panic shows nothing but
    the redacted string. *)
Definition shows_redacted {A} dsn (r : res dsn_panic A) : Prop :=
  match r with
  | Err _ => False
  | Panic (BadDsn _ shown) => shown = redact dsn
  | _ => True
  end.

Lemma shows_bind {A B} dsn (m : res dsn_panic A) (f : A → res dsn_panic B) :
  shows_redacted dsn m → (∀ a, shows_redacted dsn (f a)) → shows_redacted dsn (m ≫= f).
Proof. destruct m; simpl; auto. Qed.

Lemma shows_or_bad {A} dsn why (o : option A) : shows_redacted dsn (or_bad dsn why o).
Proof. by destruct o. Qed.

Lemma shows_bad_if b dsn why : shows_redacted dsn (bad_if b dsn why).
Proof. by destruct b. Qed.

Lemma shows_percent_bytes dsn s : ∀ n b, (length b < n)%nat → shows_redacted dsn (percent_bytes s b).
Proof.
  induction n as [|n IH]; intros [|c b] Hn; simpl in Hn; try done; [lia|]. cbn [percent_bytes].
  destruct (decide (c = Byte.x25)).
  - destruct b as [|h [|l b]]; [done..|]. destruct (hex_digit h), (hex_digit l); try done.
    apply shows_bind; [apply IH; simpl in *; lia|done].
  - apply shows_bind; [apply IH; lia|done].
Qed.

Lemma shows_percent dsn s : shows_redacted dsn (percent_decode s).
Proof.
  unfold percent_decode. apply shows_bind; [eapply shows_percent_bytes; constructor|].
  intros out. by destruct (from_utf8 out).
Qed.

Lemma shows_query dsn acc kvs : shows_redacted dsn (query_parts dsn acc kvs).
Proof.
  revert acc. induction kvs as [|kv kvs IH]; intros acc; [done|]. apply shows_bind; [|apply IH].
  unfold query_part. apply shows_bind; [apply shows_or_bad|]. intros [k v].
  apply shows_bind; [apply shows_percent|]. intros v'. by repeat case_decide.
Qed.

Lemma shows_parse dsn : shows_redacted dsn (parse dsn).
Proof.
  unfold parse. cbv zeta.
  repeat first
    [ apply shows_bind; [first [apply shows_or_bad|apply shows_percent|apply shows_bad_if
                               |apply shows_query]|]
    | done
    | match goal with
      | |- ∀ _ : _ * _, _ => intros [??]
      | |- ∀ _, _ => intros ?
      | |- shows_redacted _ (match split_once ?p ?s with _ => _ end) =>
          destruct (split_once p s) as [[??]|]
      | |- shows_redacted _ (let '(_, _) := ?x in _) => destruct x
      end ].
Qed.

(** ** Object names *)

Lemma object_key_abs prefix t : object_key prefix ("/"%rs ++ t) = prefix ++ t.
Proof. unfold object_key. by rewrite strip_prefix_app. Qed.

Lemma key_of_object_key prefix t :
  key_of_object prefix (object_key prefix ("/"%rs ++ t)) = Some ("/"%rs ++ t).
Proof. unfold key_of_object. by rewrite object_key_abs, strip_prefix_app. Qed.

Lemma starts_with_app_l p a b : starts_with (p ++ a) (p ++ b) = starts_with a b.
Proof.
  apply eq_bool_prop_intro. rewrite !Is_true_true, !starts_with_true. split; intros [r Hr]; exists r.
  - rewrite <-app_assoc in Hr. by apply (inj (app p)) in Hr.
  - by rewrite Hr, app_assoc.
Qed.

(** ** Properties *)

(** C19. The connection strings [parse] accepts denote exactly the well-formed settings: whatever
    it accepts has non-empty credentials and bucket, a non-empty prefix ending in ['/'] (the
    boundary of [flush]) and decoded fields that are UTF-8; and every such setting is accepted
    back, unchanged, from its printed form, whatever bytes its credentials, endpoint and region
    hold. *)
Theorem parse_exact (d : S3Dsn) :
  (∀ dsn, parse dsn = Ok d → wf_dsn d) ∧ (wf_dsn d ↔ parse (print d) = Ok d).
Proof. split; [intros dsn; apply parse_wf|]. split; [apply parse_print|apply (parse_wf (print d))]. Qed.

Lemma parse_exact_witness :
  let d := mkDsn "AK/ID"%rs "se:c@ret+x"%rs "bkt"%rs "pfx/"%rs "e.com"%rs "ap-beijing"%rs in
  parse (print d) = Ok d.
Proof.
  cbv zeta. apply (parse_exact (mkDsn _ _ _ _ _ _)).
  apply (proj1 (parse_exact (mkDsn "AK/ID"%rs "se:c@ret+x"%rs "bkt"%rs "pfx/"%rs "e.com"%rs "ap-beijing"%rs))
    "s3://AK%2FID:se:c@ret%2bx@bkt/pfx/?endpoint=e.com&region=ap-beijing"%rs).
  vm_compute. reflexivity.
Defined.

(** C20. Redaction hides the credentials: a string whose userinfo has no unencoded ['/'] or ['?']
    is shown with only the number of its credentials' parts left, so two strings that differ in
    the credentials alone are shown alike; and a malformed one, when [parse] rejects it with
    [bad], is shown in no other way. *)
Theorem redact_hides_credentials (scheme user tail : str) :
  Byte.x3a ∉ scheme → Byte.x2f ∉ user → Byte.x3f ∉ user → Byte.x40 ∉ authority tail →
  let dsn := scheme ++ "://"%rs ++ user ++ Byte.x40 :: tail in
  redact dsn = scheme ++ "://"%rs ++ mask user ++ Byte.x40 :: tail ∧
  match parse dsn with
  | Ok _ => True
  | Err _ => False
  | Panic (BadDsn _ shown) => shown = scheme ++ "://"%rs ++ mask user ++ Byte.x40 :: tail
  | Panic _ => True
  end.
Proof.
  intros Hs H1 H2 Hat dsn. pose proof (redact_eq scheme user tail Hs H1 H2 Hat) as Hr.
  fold dsn in Hr. split; [done|]. rewrite <-Hr. apply shows_parse.
Qed.

Lemma redact_hides_credentials_witness :
  parse "s3://AKID:SECRET@bkt?endpoint=e.com&region=r"%rs =
    Panic (BadDsn NoPrefix "s3://***:***@bkt?endpoint=e.com&region=r"%rs).
Proof.
  pose proof (redact_hides_credentials "s3"%rs "AKID:SECRET"%rs "bkt?endpoint=e.com&region=r"%rs
    ltac:(decided) ltac:(decided) ltac:(decided) ltac:(decided)) as [_ H].
  revert H. vm_compute. intros H. exact (f_equal (λ s, Panic (BadDsn NoPrefix s)) H).
Defined.

(** Object names and keys: distinct absolute keys have distinct object names, each below the
    DSN's prefix and mapped back to its key, and a key lies under a given absolute prefix exactly
    when its object name lies under that prefix's object name, so a listing by object name is a
    listing by key. *)
Theorem object_names (prefix t u : str) :
  let key := "/"%rs ++ t in
  starts_with prefix (object_key prefix key) = true ∧
  key_of_object prefix (object_key prefix key) = Some key ∧
  (object_key prefix key = object_key prefix ("/"%rs ++ u) ↔ t = u) ∧
  starts_with (object_key prefix ("/"%rs ++ u)) (object_key prefix key) = starts_with ("/"%rs ++ u) key.
Proof.
  cbv zeta. rewrite key_of_object_key, !object_key_abs, !starts_with_app_l.
  split_and!; [apply starts_with_app|done| |done].
  split; [apply (inj (app prefix))|by intros ->].
Qed.

(** ** Where the text escapes *)

(** An unencoded ['/'] in the secret is accepted by [parse] but ends the authority for [redact],
    which then leaves the whole string as it is. *)
Example redact_leaks_slash :
  let dsn := "s3://AKID:sec/ret@bkt/pfx/?endpoint=e.com&region=r"%rs in
  secret_key <$> (match parse dsn with Ok d => Some d | _ => None end) = Some "sec/ret"%rs ∧
  redact dsn = dsn.
Proof. vm_compute. done. Qed.

(** The panic of a malformed percent-encoding shows the credential itself. *)
Example percent_panic_shows_secret :
  parse "s3://AKID:SECRET%zz@bkt/pfx/?endpoint=e.com&region=r"%rs = Panic (PercentInvalid "SECRET%zz"%rs).
Proof. vm_compute. done. Qed.

(** An empty endpoint or region is accepted. *)
Example empty_endpoint_accepted :
  parse "s3://AKID:SECRET@bkt/pfx/?endpoint=&region="%rs =
    Ok (mkDsn "AKID"%rs "SECRET"%rs "bkt"%rs "pfx/"%rs [] []).
Proof. vm_compute. done. Qed.
