(* ===== verification/S3Store.v ===== *)
(** * The S3 store: [src/src/s3/store.rs]

    Requests, their signatures and retries, the paged listing and the [KVStore] methods.  The
    HTTP client (crate [ureq]), the server behind it and the clock are parameters over a world
    [W]; SHA-256 and HMAC too.  Everything that goes wrong is a panic. *)

From S2P Require Import Prelude RustInt RustStr RustText Xml HeadLenPow KPath Store Remote SigV4 Dsn.
Local Open Scope Z_scope.

(** ** Data *)

Definition MAX_ATTEMPTS : Z := 3.

(** The agent carries no state of its own. *)
Record S3Store := mkS3 { s3_dsn : S3Dsn; s3_host : str }.

Record Prepared := mkPrepared {
  p_url : str;
  p_authorization : str;
  p_amz_date : str;
  p_payload_hash : str;
}.

Inductive Outcome :=
  | OutOk (body : bytes)
  | OutNotFound.

(** A request as the client sends it: the three headers, [range] and the body. *)
Record Request := mkRequest {
  req_method : str;
  req_url : str;
  req_authorization : str;
  req_amz_date : str;
  req_content_sha256 : str;
  req_range : option str;
  req_body : option bytes;
}.

(** What the client returns: a response, whose body may fail to arrive, a status error
    ([StatusCode]: 4xx and 5xx), or another error. *)
Inductive Reply :=
  | Response (body : option bytes)
  | StatusCode (code : Z)
  | Failure (message : str).

Inductive s3_panic :=
  | SendMethod (method : str)
  | SendStatus (method shown : str) (code : Z) (snippet : str)
  | EmptyMethod (method : str)
  | EmptyStatus (method shown : str) (code : Z)
  | BodyRead
  | AttemptsExhausted (method : str) (last : option Reply)
  | ListNotUtf8 (body : bytes)
  | ListOutsidePrefix (k : str)
  | ListUnfinished.

(** ** Connecting *)

Definition connect (dsn_str : str) : res dsn_panic S3Store :=
  dsn ← parse dsn_str;
  let prefix := bucket dsn ++ "."%rs in
  Ok (mkS3 dsn (if starts_with prefix (endpoint dsn) then endpoint dsn
                else prefix ++ endpoint dsn)).

Definition snippet (body : bytes) : str := take_chars 200 (from_utf8_lossy body).

(** [Duration::from_millis(100 * 4u64.pow(attempt - 1))] *)
Definition backoff (attempt : Z) : Z := wrap_u 64 (100 * 4 ^ (attempt - 1)).

Section store.
Context (sha256 : bytes → bytes) (hmac : bytes → bytes → bytes).
Context {W : Type} (http : Request → W → Reply * W) (sleep : Z → W → W) (now : W → Z).
Context (st : S3Store).

Definition call_http {E} (r : Request) : stm W E Reply := λ w, let '(rep, w) := http r w in (Ok rep, w).
Definition panic {E A} (e : E) : stm W E A := lift (Panic e).

(** ** One request *)

Definition canonical_uri (key : str) : str :=
  if bool_decide (key = []) then "/"%rs
  else "/"%rs ++ uri_encode (object_key (dsn_prefix (s3_dsn st)) key) true.

Definition prepare (time : Z) (method key : str) (params : list (str * str)) (body : bytes) : Prepared :=
  let canonical_uri := canonical_uri key in
  let query := canonical_query params in
  let url := if bool_decide (query = []) then "https://"%rs ++ s3_host st ++ canonical_uri
             else "https://"%rs ++ s3_host st ++ canonical_uri ++ "?"%rs ++ query in
  let d := s3_dsn st in
  let s := sign sha256 hmac time (Dsn.access_key d) (secret_key d) (region d) (s3_host st) method
             canonical_uri params body in
  mkPrepared url (authorization s) (amz_date s) (payload_hash s).

(** [.header("authorization", ..).header("x-amz-date", ..).header("x-amz-content-sha256", ..)] *)
Definition with_headers (method : str) (p : Prepared) (range : option str) (body : option bytes) : Request :=
  mkRequest method (p_url p) (p_authorization p) (p_amz_date p) (p_payload_hash p) range body.

(** [if attempt < MAX_ATTEMPTS { sleep(..) }] *)
Definition pause (attempt : Z) : stm W s3_panic unit :=
  if attempt <? MAX_ATTEMPTS then modify (sleep (backoff attempt)) else mret tt.

(** ** Retries *)

(** The rounds [attempts] of [send]'s loop; [last] is the last error. *)
Fixpoint send_rounds (method key : str) (params : list (str * str)) (body : bytes)
    (attempts : list Z) (last : option Reply) : stm W s3_panic Outcome :=
  match attempts with
  | [] => panic (AttemptsExhausted method last)
  | attempt :: attempts =>
      t ← gets now;
      let p := prepare t method key params body in
      if bool_decide (method = "PUT"%rs) || bool_decide (method = "POST"%rs) then
        r ← call_http (with_headers method p None (Some body));
        match r with
        | Response _ => mret (OutOk [])
        | StatusCode code => panic (SendStatus method (redact key) code (snippet body))
        | Failure _ => pause attempt;; send_rounds method key params body attempts (Some r)
        end
      else panic (SendMethod method)
  end.

(** [1..=MAX_ATTEMPTS] *)
Definition attempts : list Z := seqZ 1 MAX_ATTEMPTS.

Definition send (method key : str) (params : list (str * str)) (body : bytes) : stm W s3_panic Outcome :=
  send_rounds method key params body attempts None.

Definition bodyless (method : str) : bool :=
  bool_decide (method = "GET"%rs) || bool_decide (method = "HEAD"%rs) ||
  bool_decide (method = "DELETE"%rs).

Fixpoint send_empty_rounds (method key : str) (params : list (str * str)) (range : option str)
    (attempts : list Z) (last : option Reply) : stm W s3_panic Outcome :=
  match attempts with
  | [] => panic (AttemptsExhausted method last)
  | attempt :: attempts =>
      t ← gets now;
      let p := prepare t method key params [] in
      if bodyless method then
        r ← call_http (with_headers method p range None);
        let retry := pause attempt;; send_empty_rounds method key params range attempts (Some r) in
        match r with
        | Response (Some body) => mret (OutOk body)
        | Response None => panic BodyRead
        | StatusCode code =>
            if code =? 404 then mret OutNotFound
            else if (400 <=? code) && (code <? 500) then panic (EmptyStatus method (redact key) code)
            else retry
        | Failure _ => retry
        end
      else panic (EmptyMethod method)
  end.

Definition send_empty (method key : str) (params : list (str * str)) (range : option str) :
  stm W s3_panic Outcome :=
  send_empty_rounds method key params range attempts None.

(** ** Listing *)

Definition list_params (object_prefix : str) (token : option str) : list (str * str) :=
  [("list-type"%rs, "2"%rs); ("prefix"%rs, object_prefix); ("max-keys"%rs, "1000"%rs)] ++
  match token with Some t => [("continuation-token"%rs, t)] | None => [] end.

(** The names of one page as keys. *)
Fixpoint page_keys (names : list str) : res s3_panic (list str) :=
  match names with
  | [] => Ok []
  | k :: names =>
      match key_of_object (dsn_prefix (s3_dsn st)) k with
      | Some key => ks ← page_keys names; Ok (key :: ks)
      | None => Panic (ListOutsidePrefix k)
      end
  end.

(** The loop of [list_all]; [fuel] bounds the pages, which the source does not. *)
Fixpoint list_pages (fuel : nat) (object_prefix : str) (keys : list str) (token : option str) :
  stm W s3_panic (list str) :=
  match fuel with
  | O => panic ListUnfinished
  | S fuel =>
      o ← send_empty "GET"%rs [] (list_params object_prefix token) None;
      match o with
      | OutNotFound => mret keys
      | OutOk body =>
          xml ← lift (match from_utf8 body with Some x => Ok x | None => Panic (ListNotUtf8 body) end);
          ks ← lift (page_keys (xml_tag_values xml "Key"%rs));
          let keys := keys ++ ks in
          if bool_decide (head (xml_tag_values xml "IsTruncated"%rs) = Some "true"%rs) then
            match head (xml_tag_values xml "NextContinuationToken"%rs) with
            | Some t => list_pages fuel object_prefix keys (Some t)
            | None => mret keys
            end
          else mret keys
      end
  end.

Definition list_all (fuel : nat) (kv_prefix : str) : stm W s3_panic (list str) :=
  list_pages fuel (object_key (dsn_prefix (s3_dsn st)) kv_prefix) [] None.

(** ** The [KVStore] methods *)

Definition outcome_body (o : Outcome) : option bytes :=
  match o with OutOk b => Some b | OutNotFound => None end.

Definition s3_get (key : str) : stm W s3_panic (option bytes) :=
  o ← send_empty "GET"%rs key [] None; mret (outcome_body o).

Definition s3_set (key : str) (val : bytes) : stm W s3_panic unit :=
  send "PUT"%rs key [] val;; mret tt.

Definition delete_one (k : str) : stm W s3_panic unit :=
  send_empty "DELETE"%rs k [] None;; mret tt.

Definition s3_del (keys : list str) : stm W s3_panic unit := for_each keys delete_one.

Definition s3_scan_keys (fuel : nat) (prefix : str) : stm W s3_panic (list str) :=
  ks ← list_all fuel prefix; mret (filter (λ k, is_subtree_key prefix k = true) ks).

Definition s3_exists (key : str) : stm W s3_panic bool :=
  o ← send_empty "HEAD"%rs key [] None;
  mret (match o with OutOk _ => true | OutNotFound => false end).

(** [off + len - 1] is a [u32] sum, which wraps in a release build. *)
Definition range_header (off len : Z) : str :=
  "bytes="%rs ++ show_u off ++ "-"%rs ++ show_u (wrap_u 32 (wrap_u 32 (off + len) - 1)).

Definition s3_get_part (key : str) (off len : Z) : stm W s3_panic (option bytes) :=
  if len =? 0 then v ← s3_get key; mret ((λ _, []) <$> v)
  else o ← send_empty "GET"%rs key [] (Some (range_header off len)); mret (outcome_body o).

Definition s3_flush (fuel : nat) : stm W s3_panic unit :=
  keys ← list_all fuel "/"%rs; for_each keys delete_one.

(** [get_many] and [set_part] are the trait's. *)
#[export] Instance s3_store (fuel : nat) : RemoteStore W s3_panic := {|
  rs_get := s3_get;
  rs_get_many := provided_get_many s3_get;
  rs_set := s3_set;
  rs_del := s3_del;
  rs_scan_keys := s3_scan_keys fuel;
  rs_exists := s3_exists;
  rs_get_part := s3_get_part;
  rs_set_part := provided_set_part s3_get s3_set;
  rs_flush := s3_flush fuel;
|}.
End store.
