(* ===== verification/S3Safety.v ===== *)
(** * What the S3 store may touch, and how often it tries

    Whatever the server answers, every request that changes the bucket names an object below the
    connection string's prefix, and a call makes a bounded number of requests. *)

From S2P Require Import Prelude RustInt RustStr RustText Xml HeadLenPow KPath Store Remote SigV4 Dsn S3Store.
Local Open Scope Z_scope.

(** ** Examples, from the unit tests of the source *)

Definition example_dsn : str := "s3://A:B@bkt/moechat/?endpoint=cos.ap-beijing.myqcloud.com&region=ap-beijing"%rs.
Definition example_store : S3Store :=
  mkS3 (mkDsn "A"%rs "B"%rs "bkt"%rs "moechat/"%rs "cos.ap-beijing.myqcloud.com"%rs "ap-beijing"%rs)
       "bkt.cos.ap-beijing.myqcloud.com"%rs.

Example connect_test : connect example_dsn = Ok example_store.
Proof. by vm_compute. Qed.

Example connect_test_bucket_in_endpoint :
  ∃ st, connect "s3://A:B@bkt/p/?endpoint=bkt.cos.ap-beijing.myqcloud.com&region=ap-beijing"%rs = Ok st ∧
        s3_host st = "bkt.cos.ap-beijing.myqcloud.com"%rs.
Proof. eexists. by split; vm_compute. Qed.

Example prepare_test_list :
  p_url (prepare (λ _, []) (λ _ _, []) example_store 0 "GET"%rs []
           [("list-type"%rs, "2"%rs); ("prefix"%rs, "moechat/a b/"%rs)] []) =
  "https://bkt.cos.ap-beijing.myqcloud.com/?list-type=2&prefix=moechat%2Fa%20b%2F"%rs.
Proof. by vm_compute. Qed.

Example prepare_test_multibyte :
  p_url (prepare (λ _, []) (λ _ _, []) example_store 0 "GET"%rs "/x·y‥z…w"%rs [] []) =
  "https://bkt.cos.ap-beijing.myqcloud.com/moechat/x%C2%B7y%E2%80%A5z%E2%80%A6w"%rs.
Proof. by vm_compute. Qed.

(** The empty key is not a key but the bucket itself. *)
Example empty_key_is_the_bucket :
  p_url (prepare (λ _, []) (λ _ _, []) example_store 0 "DELETE"%rs [] [] []) =
  "https://bkt.cos.ap-beijing.myqcloud.com/"%rs.
Proof. by vm_compute. Qed.

(** The last byte of a range is computed in 32 bits. *)
Example range_wraps : range_header 4294967295 2 = "bytes=4294967295-0"%rs.
Proof. by vm_compute. Qed.

(** A PUT answered by a 5xx is not tried again; the state counts the requests. *)
Example put_5xx_not_retried :
  send (λ _, []) (λ _ _, []) (λ _ n, (StatusCode 503, S n)) (λ _ n, n) (λ _, 0) example_store
    "PUT"%rs "/k"%rs [] [] 0%nat =
  (Panic (SendStatus "PUT"%rs "/k"%rs 503 []), 1%nat).
Proof. by vm_compute. Qed.

(** ** Requests that stay below the prefix *)

(** A read, or a write of an object whose name starts with the prefix. *)
Definition confined (st : S3Store) (r : Request) : Prop :=
  req_method r = "GET"%rs ∨ req_method r = "HEAD"%rs ∨
  ((req_method r = "PUT"%rs ∨ req_method r = "DELETE"%rs) ∧
   ∃ name, req_url r = "https://"%rs ++ s3_host st ++ "/"%rs ++
                       uri_encode (dsn_prefix (s3_dsn st) ++ name) true).

(** The calls whose keys are keys: not the empty string. *)
Definition named_keys (o : kvop) : Prop :=
  match o with
  | OSet k _ | OSetPart k _ _ => k ≠ []
  | ODel ks => Forall (λ k, k ≠ []) ks
  | _ => True
  end.

Lemma uri_encode_app a b ks : uri_encode (a ++ b) ks = uri_encode a ks ++ uri_encode b ks.
Proof. unfold uri_encode. by rewrite fmap_app, concat_app. Qed.

Lemma connect_prefix dsn_str st : connect dsn_str = Ok st → ends_with "/"%rs (dsn_prefix (s3_dsn st)) = true.
Proof.
  unfold connect. destruct (parse dsn_str) as [d| |] eqn:E; try done. cbn [mbind res_bind].
  intros [= <-]. by apply parse_wf in E as [].
Qed.

Section safety.
Context (sha256 : bytes → bytes) (hmac : bytes → bytes → bytes).
Context {W : Type} (http : Request → W → Reply * W) (sleep : Z → W → W) (now : W → Z).
Context (st : S3Store).
#[local] Abbreviation prep := (prepare sha256 hmac st).

Lemma prepare_url t method key body :
  key ≠ [] → p_url (prep t method key [] body) =
  "https://"%rs ++ s3_host st ++ "/"%rs ++ uri_encode (object_key (dsn_prefix (s3_dsn st)) key) true.
Proof. intros H. unfold prepare, canonical_uri. cbn [p_url]. by rewrite (bool_decide_false _ H). Qed.

Section confinement.
Context (P : W → Prop).
Context (Phttp : ∀ r w, confined st r → P w → P (snd (http r w))) (Psleep : ∀ ms w, P w → P (sleep ms w)).

Lemma keeps_call {E A} r (f : Reply → stm W E A) :
  confined st r → (∀ rep, keeps P (f rep)) → keeps P (call_http http r ≫= f).
Proof.
  intros Hr. apply keeps_bind. intros w Hw. unfold call_http. specialize (Phttp r w Hr Hw).
  by destruct (http r w).
Qed.

Lemma keeps_pause attempt : keeps P (pause sleep attempt).
Proof. unfold pause. keeps_steps. apply keeps_modify. auto. Qed.

Lemma keeps_panic {E A} (e : E) : keeps P (panic (W:=W) (A:=A) e).
Proof. apply keeps_lift. Qed.

Hint Resolve keeps_panic keeps_pause keeps_ret : stm.

Lemma keeps_send_rounds key body l last :
  key ≠ [] → keeps P (send_rounds sha256 hmac http sleep now st "PUT"%rs key [] body l last).
Proof.
  intros Hkey. revert last. induction l as [|a l IH]; intros last; cbn [send_rounds]; [eauto with stm|].
  apply keeps_bind; [eauto with stm|]. intros t. cbv zeta. cbn [orb].
  apply keeps_call.
  - right. right. split; [by left|]. cbn [with_headers req_url]. rewrite prepare_url by done. unfold object_key. eauto.
  - intros []; [eauto with stm..|]. apply keeps_bind; eauto with stm.
Qed.

Lemma keeps_send_empty method key params range :
  (∀ t, confined st (with_headers method (prep t method key params []) range None)) →
  keeps P (send_empty sha256 hmac http sleep now st method key params range).
Proof.
  intros Hc. unfold send_empty. generalize (None : option Reply). generalize attempts.
  induction l as [|a l IH]; intros last; cbn [send_empty_rounds]; [eauto with stm|].
  apply keeps_bind; [eauto with stm|]. intros t. cbv zeta. destruct (bodyless method); [|eauto with stm].
  apply keeps_call; [done|]. intros rep.
  assert (∀ r, keeps P (pause sleep a;;
    send_empty_rounds sha256 hmac http sleep now st method key params range l (Some r))).
  { intros r. apply keeps_bind; eauto with stm. }
  destruct rep as [[]| |]; [eauto with stm..| |done].
  repeat case_match; eauto with stm.
Qed.

Lemma confined_read method t key params range :
  method = "GET"%rs ∨ method = "HEAD"%rs →
  confined st (with_headers method (prep t method key params []) range None).
Proof. intros [-> | ->]; [by left|right; by left]. Qed.

Lemma keeps_delete key : key ≠ [] → keeps P (delete_one sha256 hmac http sleep now st key).
Proof.
  intros H. unfold delete_one. apply keeps_bind; [|eauto with stm]. apply keeps_send_empty.
  intros t. right. right. split; [by right|]. cbn [with_headers req_url]. rewrite prepare_url by done.
  unfold object_key. eauto.
Qed.

Lemma page_keys_named names ks : page_keys st names = Ok ks → Forall (λ k, k ≠ []) ks.
Proof.
  revert ks. induction names as [|k names IH]; intros ks; cbn [page_keys]; [by intros [= <-]|].
  unfold key_of_object. destruct (strip_prefix _ k) as [r|]; [|done]. cbn [fmap option_fmap option_map].
  destruct (page_keys st names) as [ks'| |]; try done. cbn. intros [= <-].
  constructor; [done|]. by apply IH.
Qed.

Lemma list_pages_named fuel p keys token :
  Forall (λ k, k ≠ []) keys →
  yields (Forall (λ k, k ≠ [])) (list_pages sha256 hmac http sleep now st fuel p keys token).
Proof.
  revert keys token. induction fuel as [|fuel IH]; intros keys token Hk; cbn [list_pages].
  { apply yields_panic. }
  apply yields_bind. intros [body|]; [|by apply yields_ret].
  apply yields_bind_lift. intros xml _. apply yields_bind_lift. intros ks Hks. cbv zeta.
  assert (Forall (λ k, k ≠ []) (keys ++ ks)) by (apply Forall_app; split; [done|by eapply page_keys_named]).
  destruct (bool_decide _); [|by apply yields_ret].
  destruct (head _); [by apply IH|by apply yields_ret].
Qed.

Lemma keeps_list_all fuel p : keeps P (list_all sha256 hmac http sleep now st fuel p).
Proof.
  unfold list_all. generalize (@nil str) as keys. generalize (None : option str).
  induction fuel as [|fuel IH]; intros token keys; cbn [list_pages]; [eauto with stm|].
  apply keeps_bind.
  { apply keeps_send_empty. intros t. apply confined_read. by left. }
  intros [body|]; [|eauto with stm].
  apply keeps_bind; [apply keeps_lift|]. intros xml. apply keeps_bind; [apply keeps_lift|]. intros ks.
  cbv zeta. destruct (bool_decide _); [|eauto with stm].
  destruct (head (xml_tag_values xml "NextContinuationToken"%rs)); [apply IH|eauto with stm].
Qed.

Lemma keeps_get key params range :
  keeps P (send_empty sha256 hmac http sleep now st "GET"%rs key params range).
Proof. apply keeps_send_empty. intros t. apply confined_read. by left. Qed.

Lemma keeps_op fuel (o : kvop) :
  named_keys o → keeps P (run_op (H := s3_store sha256 hmac http sleep now st fuel) o).
Proof.
  assert (Hget : ∀ k, keeps P (s3_get sha256 hmac http sleep now st k)).
  { intros k. unfold s3_get. apply keeps_bind; [apply keeps_get|eauto with stm]. }
  assert (Hset : ∀ k v, k ≠ [] → keeps P (s3_set sha256 hmac http sleep now st k v)).
  { intros k v Hk. unfold s3_set, send. apply keeps_bind; [by apply keeps_send_rounds|eauto with stm]. }
  destruct o as [k|ks|k v|ks|p|k|k off len|k off buf|]; intros Hk; cbn [run_op named_keys] in *;
    (apply keeps_bind; [|eauto with stm]); cbn.
  - apply Hget.
  - induction ks as [|k ks IH]; cbn [provided_get_many]; [eauto with stm|].
    apply keeps_bind; [apply Hget|]. intros v. apply keeps_bind; [apply IH|eauto with stm].
  - by apply Hset.
  - apply keeps_for_each. intros k Hin. rewrite Forall_forall in Hk. by apply keeps_delete, Hk.
  - unfold s3_scan_keys. apply keeps_bind; [apply keeps_list_all|eauto with stm].
  - unfold s3_exists. apply keeps_bind; [|eauto with stm]. apply keeps_send_empty.
    intros t. apply confined_read. by right.
  - unfold s3_get_part. destruct (len =? 0); (apply keeps_bind; [|eauto with stm]);
      [apply Hget|apply keeps_get].
  - unfold provided_set_part. apply keeps_bind; [apply Hget|]. intros [v|]; [|eauto with stm].
    destruct (_ <? _); [eauto with stm|by apply Hset].
  - unfold s3_flush. eapply keeps_bind_yields; [apply keeps_list_all|by apply list_pages_named|].
    intros ks Hks. apply keeps_for_each. intros k Hin. rewrite Forall_forall in Hks.
    by apply keeps_delete, Hks.
Qed.
End confinement.
End safety.

(** ** Properties *)

(** C27. The prefix of the connection string is a safety boundary, whatever the server answers:
    a store that connected has a prefix ending in [/], and for every call whose keys are not the
    empty string, on every fuel, every request it sends is a GET, a HEAD, or a PUT or DELETE of
    an object whose name starts with that prefix.  So any property of the world that such
    requests and the pauses between them preserve still holds after the call, also when the call
    panics: the objects of a bucket outside the prefix are such a property. *)
Theorem s3_stays_below_prefix (sha256 : bytes → bytes) (hmac : bytes → bytes → bytes) {W : Type}
    (http : Request → W → Reply * W) (sleep : Z → W → W) (now : W → Z) dsn_str st (P : W → Prop) :
  connect dsn_str = Ok st →
  (∀ r w, confined st r → P w → P (snd (http r w))) →
  (∀ ms w, P w → P (sleep ms w)) →
  ends_with "/"%rs (dsn_prefix (s3_dsn st)) = true ∧
  ∀ fuel (os : list kvop), Forall named_keys os →
    keeps P (run_ops (H := s3_store sha256 hmac http sleep now st fuel) os).
Proof.
  intros Hst Hhttp Hsleep. split; [by eapply connect_prefix|]. intros fuel os.
  induction 1 as [|o os Ho _ IH]; cbn [run_ops]; [apply keeps_ret|].
  apply keeps_bind; [by apply keeps_op|]. intros r.
  apply keeps_bind; [exact IH|intros rs; apply keeps_ret].
Qed.

(** A server that answers a listing with names below and beside the prefix, and records what it
    is asked to delete. *)
Definition rogue_http (r : Request) (log : list str) : Reply * list str :=
  if bool_decide (req_method r = "GET"%rs)
  then (Response (Some "<Key>moechat/a</Key><Key>moechat/b/c</Key>"%rs), log)
  else if bool_decide (req_method r = "HEAD"%rs) then (Response (Some []), log)
  else (Response (Some []), log ++ [req_url r]).

Lemma s3_stays_below_prefix_witness :
  let below u := starts_with "https://bkt.cos.ap-beijing.myqcloud.com/moechat/"%rs u = true in
  Forall below (run_ops (H := s3_store (λ _, []) (λ _ _, []) rogue_http (λ _ w, w) (λ _, 0) example_store 2)
                  [OFlush; OSet "/x"%rs [Byte.x01]] []).2.
Proof.
  cbv zeta.
  apply (s3_stays_below_prefix (λ _, []) (λ _ _, []) rogue_http (λ _ w, w) (λ _, 0) example_dsn example_store
           (Forall (λ u, starts_with "https://bkt.cos.ap-beijing.myqcloud.com/moechat/"%rs u = true))).
  - by vm_compute.
  - intros r log Hr Hlog. unfold rogue_http. destruct (bool_decide _) eqn:E1; [done|].
    destruct (bool_decide (_ = "HEAD"%rs)) eqn:E2; [done|].
    apply bool_decide_eq_false in E1, E2. destruct Hr as [?|[?|[_ (name & ->)]]]; [done..|].
    apply Forall_app. split; [done|]. constructor; [|done]. rewrite uri_encode_app. by vm_compute.
  - done.
  - repeat constructor; discriminate.
  - constructor.
Defined.
