(* ===== verification/S3Api.v ===== *)
(** * What an S3 server promises

    The requests of the S3 API the store uses, the answers a server may give to them, and the
    laws of a server that may also lose requests: hypotheses on the HTTP parameter of
    [S3Store]. *)

From S2P Require Import Prelude RustInt RustStr RustText Xml HeadLenPow KPath Store Remote SigV4 Dsn S3Store.
Local Open Scope Z_scope.

(** ** The API of the server *)

(** A bucket is a finite map from object names. *)
Abbreviation objs := (gmap (list Byte.byte) (list Byte.byte)).

Inductive s3req :=
  | QGet (name : str)
  | QRange (name : str) (first last : Z)
  | QHead (name : str)
  | QDelete (name : str)
  | QPut (name : str) (val : bytes)
  | QList (prefix : str) (token : option str).

(** Object names are at most 1024 bytes of UTF-8. *)
Definition s3_name (name : str) : Prop := utf8_valid name = true ∧ (length name <= 1024)%nat.
#[export] Instance s3_name_dec name : Decision (s3_name name).
Proof. unfold s3_name. apply _. Defined.

Definition wf_req (q : s3req) : Prop :=
  match q with
  | QGet n | QHead n | QDelete n | QPut n _ => s3_name n
  | QRange n a b => s3_name n ∧ 0 <= a <= b ∧ b <= U32_MAX
  | QList p _ => utf8_valid p = true
  end.

Definition api_method (q : s3req) : str :=
  match q with
  | QGet _ | QRange _ _ _ | QList _ _ => "GET"%rs
  | QHead _ => "HEAD"%rs
  | QDelete _ => "DELETE"%rs
  | QPut _ _ => "PUT"%rs
  end.

Definition api_path (q : s3req) : str :=
  match q with
  | QGet n | QRange n _ _ | QHead n | QDelete n | QPut n _ => "/"%rs ++ uri_encode n true
  | QList _ _ => "/"%rs
  end.

Definition api_params (q : s3req) : list (str * str) :=
  match q with QList p token => list_params p token | _ => [] end.

Definition api_range (q : s3req) : option str :=
  match q with
  | QRange _ a b => Some ("bytes="%rs ++ show_u a ++ "-"%rs ++ show_u b)
  | _ => None
  end.

Definition api_body (q : s3req) : option bytes := match q with QPut _ v => Some v | _ => None end.

(** What a request does to the bucket. *)
Definition effect (q : s3req) (m : objs) : objs :=
  match q with
  | QPut n v => <[n := v]> m
  | QDelete n => delete n m
  | _ => m
  end.

Lemma effect_idemp q m : effect q (effect q m) = effect q m.
Proof. destruct q; cbn; [done..| |by rewrite insert_insert_eq|done]. by rewrite delete_delete_eq. Qed.

Section api.
(** [page m p t]: the names of the page of the listing of [p] that the token [t] stands for, and
    the token of the next page. *)
Context (page : objs → str → option str → list str * option str).

(** The answers a server may give to a request when the bucket is [m]. *)
Inductive answers (m : objs) : s3req → Reply → Prop :=
  | ans_get n v : m !! n = Some v → answers m (QGet n) (Response (Some v))
  | ans_get_none n : m !! n = None → answers m (QGet n) (StatusCode 404)
  | ans_range n a b v :
      m !! n = Some v → a < Z.of_nat (length v) →
      answers m (QRange n a b) (Response (Some (slice a (Z.min (b + 1) (Z.of_nat (length v))) v)))
  | ans_range_end n a b v :
      m !! n = Some v → Z.of_nat (length v) <= a → answers m (QRange n a b) (StatusCode 416)
  | ans_range_none n a b : m !! n = None → answers m (QRange n a b) (StatusCode 404)
  | ans_head n : is_Some (m !! n) → answers m (QHead n) (Response (Some []))
  | ans_head_none n : m !! n = None → answers m (QHead n) (StatusCode 404)
  | ans_delete n body : answers m (QDelete n) (Response (Some body))
  | ans_delete_none n : answers m (QDelete n) (StatusCode 404)
  | ans_put n v body : answers m (QPut n v) (Response body)
  | ans_list p t d names next :
      page m p t = (names, next) → utf8_valid d = true → xml_doc "Key"%rs d names →
      match next with
      | Some t => xml_doc "IsTruncated"%rs d ["true"%rs] ∧ xml_doc "NextContinuationToken"%rs d [t]
      | None => xml_doc "IsTruncated"%rs d ["false"%rs]
      end →
      answers m (QList p t) (Response (Some d)).

(** The pages from a token on: how many they are and the names on them. *)
Inductive listing (m : objs) (p : str) : nat → option str → list str → Prop :=
  | listing_last t names : page m p t = (names, None) → listing m p 1 t names
  | listing_more n t names t' names' :
      page m p t = (names, Some t') → listing m p n (Some t') names' →
      listing m p (S n) t (names ++ names').

Lemma answers_effect q m rep : answers (effect q m) q rep ↔ answers m q rep.
Proof. destruct q; cbn; try done; split; inversion 1; subst; constructor. Qed.

(** ** A lost request

    Either the client reports an error, or (bodyless requests) the server answers with a 5xx; the
    request may or may not have taken effect. *)
Definition lost (q : s3req) (rep : Reply) : Prop :=
  match rep with
  | Failure _ => True
  | StatusCode code => 500 <= code ∧ api_body q = None
  | Response _ => False
  end.

Section server.
Context (sha256 : bytes → bytes) (hmac : bytes → bytes → bytes).
Context {W : Type} (http : Request → W → Reply * W) (sleep : Z → W → W) (now : W → Z).
Context (st : S3Store).

(** The request for [q], signed at [t] with the credentials of the connection string. *)
Definition api_request (t : Z) (q : s3req) : Request :=
  let d := s3_dsn st in
  let s := sign sha256 hmac t (Dsn.access_key d) (secret_key d) (region d) (s3_host st) (api_method q)
             (api_path q) (api_params q) (default [] (api_body q)) in
  let query := canonical_query (api_params q) in
  mkRequest (api_method q)
    ("https://"%rs ++ s3_host st ++ api_path q ++ match query with [] => [] | _ => "?"%rs ++ query end)
    (authorization s) (amz_date s) (payload_hash s) (api_range q) (api_body q).

(** A server that holds [objects w] and loses at most [faults w <= 2] requests before it answers
    one. *)
Record s3_server (objects : W → objs) (faults : W → nat) : Prop := {
  srv_reply q w :
    wf_req q →
    let '(rep, w') := http (api_request (now w) q) w in
    (answers (objects w) q rep ∧ objects w' = effect q (objects w)) ∨
    (lost q rep ∧ (objects w' = objects w ∨ objects w' = effect q (objects w)) ∧
     S (faults w') = faults w);
  srv_sleep ms w : objects (sleep ms w) = objects w ∧ faults (sleep ms w) = faults w;
  srv_faults w : (faults w <= 2)%nat;
  srv_names w n : is_Some (objects w !! n) → s3_name n;
  srv_pages w p : utf8_valid p = true →
    ∃ n names, listing (objects w) p n None names ∧
      ∀ k, k ∈ names ↔ starts_with p k = true ∧ is_Some (objects w !! k);
}.
End server.
End api.
