(* ===== verification/S3Server.v ===== *)
(** * A reference S3 server

    A concrete server that has the laws of [S3Api]: it decodes the request from its method, URL
    and range, serves listings in two pages, and can be told to lose its next two requests.  It
    is not part of the program; it shows that the laws can hold together. *)

From S2P Require Import Prelude RustInt RustStr RustText Xml HeadLenPow KPath Store Remote SigV4 Dsn S3Store S3Api.
Local Open Scope Z_scope.

(** ** The state *)

Record server := mkServer { raw_objs : objs; losing : nat }.

Definition srv_objects (w : server) : objs := filter (λ kv, s3_name kv.1) (raw_objs w).
Definition srv_losing (w : server) : nat := Nat.min 2 (losing w).

(** ** Listings: the first name on the first page, the others on the second *)

Definition names_below (m : objs) (p : str) : list str :=
  filter (λ k, starts_with p k = true) (map_to_list m).*1.

Definition two_pages (m : objs) (p : str) (token : option str) : list str * option str :=
  match token, names_below m p with
  | None, n :: (_ :: _) => ([n], Some "rest"%rs)
  | None, ns => (ns, None)
  | Some _, ns => (drop 1 ns, None)
  end.

Definition esc_byte (b : byte) : str :=
  if bool_decide (b = AMP) then "&amp;"%rs else if bool_decide (b = LT) then "&#60;"%rs else [b].
Definition esc (s : str) : str := concat (esc_byte <$> s).

Definition key_elem (n : str) : str := "<Key>"%rs ++ esc n ++ "</Key>"%rs.

Definition page_doc (names : list str) (next : option str) : str :=
  match next with
  | Some _ => "<IsTruncated>true</IsTruncated><NextContinuationToken>rest</NextContinuationToken>"%rs
  | None => "<IsTruncated>false</IsTruncated>"%rs
  end ++ concat (key_elem <$> names).

(** ** Decoding a request *)

Definition decode_range (s : str) : option (Z * Z) :=
  r ← strip_prefix "bytes="%rs s;
  '(a, b) ← split_once "-"%rs r;
  a ← parse_u 64 a;
  b ← parse_u 64 b;
  Some (a, b).

Definition unescape (s : str) : option str := match percent_bytes s s with Ok n => Some n | _ => None end.

Definition list_query (q : str) : option s3req :=
  let parts := split_byte Byte.x26 q in
  let token := head (omap (strip_prefix "continuation-token="%rs) parts) ≫= unescape in
  p ← head (omap (strip_prefix "prefix="%rs) parts) ≫= unescape;
  Some (QList p token).

Definition decode (host : str) (r : Request) : option s3req :=
  rest ← strip_prefix ("https://"%rs ++ host ++ "/"%rs) (req_url r);
  match strip_prefix "?"%rs rest with
  | Some q => list_query q
  | None =>
      n ← unescape rest;
      if decide (req_method r = "GET"%rs) then
        match req_range r with
        | Some s => '(a, b) ← decode_range s; Some (QRange n a b)
        | None => Some (QGet n)
        end
      else if decide (req_method r = "HEAD"%rs) then Some (QHead n)
      else if decide (req_method r = "DELETE"%rs) then Some (QDelete n)
      else Some (QPut n (default [] (req_body r)))
  end.

(** ** Serving a request *)

Definition or_404 (o : option bytes) : Reply :=
  match o with Some v => Response (Some v) | None => StatusCode 404 end.

Definition serve (q : s3req) (m : objs) : Reply :=
  match q with
  | QGet n => or_404 (m !! n)
  | QRange n a b =>
      match m !! n with
      | Some v => if a <? Z.of_nat (length v)
                  then Response (Some (slice a (Z.min (b + 1) (Z.of_nat (length v))) v))
                  else StatusCode 416
      | None => StatusCode 404
      end
  | QHead n => or_404 ((λ _, []) <$> m !! n)
  | QDelete _ | QPut _ _ => Response (Some [])
  | QList p t => let '(names, next) := two_pages m p t in Response (Some (page_doc names next))
  end.

(** A lost write takes effect all the same. *)
Definition server_http (host : str) (r : Request) (w : server) : Reply * server :=
  match decode host r with
  | None => (StatusCode 400, w)
  | Some q =>
      let m := effect q (raw_objs w) in
      match srv_losing w with
      | S n => (Failure "connection reset"%rs, mkServer m n)
      | O => (serve q (srv_objects w), mkServer m 0)
      end
  end.

(** ** Decoding inverts the requests of the API *)

Lemma unescape_uri n ks : unescape (uri_encode n ks) = Some n.
Proof. unfold unescape. by rewrite percent_bytes_uri. Qed.

Lemma uri_no_query n : strip_prefix "?"%rs (uri_encode n true) = None.
Proof. destruct n as [|b n]; [done|]. by destruct b. Qed.

Lemma decode_range_show a b :
  0 <= a <= b → b <= U32_MAX → decode_range ("bytes="%rs ++ show_u a ++ "-"%rs ++ show_u b) = Some (a, b).
Proof.
  unfold U32_MAX. intros Ha Hb. unfold decode_range. rewrite strip_prefix_app. cbn [mbind option_bind].
  change ("-"%rs ++ show_u b) with (Byte.x2d :: show_u b). change "-"%rs with [Byte.x2d].
  rewrite split_once_byte by (apply show_u_notin; [lia|done]). cbn [mbind option_bind].
  rewrite !parse_show_u by (unfold in_u; lia). done.
Qed.

Definition list_parts (p : str) (t : option str) : list str :=
  match t with Some t => ["continuation-token="%rs ++ uri_encode t false] | None => [] end ++
  ["list-type=2"%rs; "max-keys=1000"%rs; "prefix="%rs ++ uri_encode p false].

Lemma list_params_query p t : canonical_query (list_params p t) = join [Byte.x26] (list_parts p t).
Proof.
  unfold canonical_query, list_parts. destruct t as [t|]; cbn [list_params fmap list_fmap app fst snd].
  - generalize (uri_encode p false), (uri_encode t false). intros a b. vm_compute. reflexivity.
  - generalize (uri_encode p false). intros a. vm_compute. reflexivity.
Qed.

Lemma list_query_params p t : list_query (canonical_query (list_params p t)) = Some (QList p t).
Proof.
  assert (H : ∀ x, Byte.x26 ∉ uri_encode x false) by (intros; by apply uri_encode_notin).
  unfold list_query. rewrite list_params_query, split_join; cycle 1.
  { by destruct t. }
  { unfold list_parts. apply Forall_app. split.
    - destruct t; repeat constructor. rewrite not_elem_of_app. split; [decided|apply H].
    - constructor; [decided|]. constructor; [decided|]. constructor; [|done].
      rewrite not_elem_of_app. split; [decided|apply H]. }
  assert (head (omap (strip_prefix "prefix="%rs) (list_parts p t)) = Some (uri_encode p false)) as ->.
  { unfold list_parts. destruct t as [t|]; [generalize (uri_encode t false)|];
      generalize (uri_encode p false); intros; by vm_compute. }
  assert (head (omap (strip_prefix "continuation-token="%rs) (list_parts p t)) =
          (λ t, uri_encode t false) <$> t) as ->.
  { unfold list_parts. generalize (uri_encode p false). destruct t as [t|]; [|intros; by vm_compute].
    cbn [fmap option_fmap option_map]. generalize (uri_encode t false). intros. by vm_compute. }
  cbn [mbind option_bind]. rewrite unescape_uri. cbn [mbind option_bind].
  destruct t as [t|]; [|done]. cbn. by rewrite unescape_uri.
Qed.

Lemma strip_url host x :
  strip_prefix ("https://"%rs ++ host ++ "/"%rs) ("https://"%rs ++ host ++ "/"%rs ++ x) = Some x.
Proof.
  replace ("https://"%rs ++ host ++ "/"%rs ++ x) with (("https://"%rs ++ host ++ "/"%rs) ++ x)
    by (by rewrite <-!app_assoc).
  apply strip_prefix_app.
Qed.

Lemma decode_api sha256 hmac st t q :
  wf_req q → decode (s3_host st) (api_request sha256 hmac st t q) = Some q.
Proof.
  intros Hq. unfold decode, api_request. cbn [req_url req_method req_range req_body].
  destruct q as [n|n a b|n|n|n v|p tok]; cbn [api_path api_params api_method api_range api_body];
    try (change (canonical_query []) with (@nil byte); rewrite app_nil_r, strip_url;
         cbn [mbind option_bind]; rewrite uri_no_query, unescape_uri; cbn [mbind option_bind]).
  - done.
  - destruct Hq as (_ & H1 & H2). by rewrite decode_range_show.
  - done.
  - done.
  - done.
  - destruct (canonical_query (list_params p tok)) as [|b l] eqn:E; [by destruct tok|].
    rewrite strip_url. cbn [mbind option_bind]. rewrite strip_prefix_app, <-E. apply list_query_params.
Qed.

(** ** The listing documents *)

Lemma esc_text n : xml_text (esc n) n.
Proof.
  induction n as [|b n IH]; [constructor|]. unfold esc. cbn [fmap list_fmap concat]. fold (esc n).
  unfold esc_byte. case_bool_decide as H1; [subst|case_bool_decide as H2; [subst|]].
  - apply (xml_text_named "amp"%rs "&"%rs (esc n) n); [decided|exact IH].
  - apply (xml_text_number 60 "<"%rs (esc n) n); [done|exact IH].
  - by apply xml_text_byte.
Qed.

(** A tag only occurs where a [<] is. *)
Lemma contains_cons p b s : contains p (b :: s) = starts_with p (b :: s) || contains p s.
Proof.
  unfold contains. cbn [find]. destruct (starts_with p (b :: s)); [done|]. by destruct (find p s).
Qed.

Lemma contains_skip q e s : LT ∉ e → contains (LT :: q) (e ++ s) = contains (LT :: q) s.
Proof.
  induction e as [|b e IH]; [done|]. intros [Hb He]%not_elem_of_cons. cbn [app].
  rewrite contains_cons, IH by done. unfold starts_with. cbn [strip_prefix].
  by rewrite decide_False.
Qed.

Lemma contains_lt_cons q s : contains (LT :: q) (LT :: s) = starts_with q s || contains (LT :: q) s.
Proof. rewrite contains_cons. unfold starts_with. cbn [strip_prefix]. by rewrite decide_True. Qed.

(** No other tag opens in the keys of a listing. *)
Lemma keys_no_tag q names :
  (∀ s, starts_with q ("Key>"%rs ++ s) = false) → (∀ s, starts_with q ("/Key>"%rs ++ s) = false) →
  contains (LT :: q) (concat (key_elem <$> names)) = false.
Proof.
  intros H1 H2. induction names as [|n names IH]; [done|]. cbn [fmap list_fmap concat]. unfold key_elem at 1.
  rewrite <-!app_assoc.
  match goal with |- contains _ ("<Key>"%rs ++ ?x) = _ => change ("<Key>"%rs ++ x) with (LT :: "Key>"%rs ++ x) end.
  rewrite contains_lt_cons, H1. cbn [orb].
  rewrite contains_skip by decided. rewrite contains_skip by (eapply xml_text_no_lt, esc_text).
  match goal with |- contains _ ("</Key>"%rs ++ ?x) = _ => change ("</Key>"%rs ++ x) with (LT :: "/Key>"%rs ++ x) end.
  rewrite contains_lt_cons, H2. cbn [orb]. rewrite contains_skip by decided. exact IH.
Qed.

Lemma keys_doc names : xml_doc "Key"%rs (concat (key_elem <$> names)) names.
Proof.
  induction names as [|n names IH]; [by constructor|]. cbn [fmap list_fmap concat].
  unfold key_elem at 1. rewrite <-!app_assoc.
  apply (xml_doc_elem "Key"%rs [] (esc n) n); [done|apply esc_text|exact IH].
Qed.

Lemma page_doc_keys names next : xml_doc "Key"%rs (page_doc names next) names.
Proof.
  unfold page_doc. destruct names as [|n names].
  { apply xml_doc_end. by destruct next. }
  cbn [fmap list_fmap concat]. unfold key_elem at 1. rewrite <-!app_assoc.
  apply (xml_doc_elem "Key"%rs _ (esc n) n); [by destruct next|apply esc_text|apply keys_doc].
Qed.

Lemma page_doc_last names : xml_doc "IsTruncated"%rs (page_doc names None) ["false"%rs].
Proof.
  apply (xml_doc_elem "IsTruncated"%rs [] "false"%rs "false"%rs); [done|apply (esc_text "false"%rs)|].
  apply xml_doc_end. apply (keys_no_tag "IsTruncated>"%rs); done.
Qed.

Lemma page_doc_more names t :
  xml_doc "IsTruncated"%rs (page_doc names (Some t)) ["true"%rs] ∧
  xml_doc "NextContinuationToken"%rs (page_doc names (Some t)) ["rest"%rs].
Proof.
  split.
  - apply (xml_doc_elem "IsTruncated"%rs [] "true"%rs "true"%rs
             ("<NextContinuationToken>rest</NextContinuationToken>"%rs ++ concat (key_elem <$> names)));
      [done|apply (esc_text "true"%rs)|].
    apply xml_doc_end. change (open_tag _) with (LT :: "IsTruncated>"%rs).
    match goal with |- contains _ (_ ++ ?x) = _ =>
      change (contains (LT :: "IsTruncated>"%rs)
        (LT :: "NextContinuationToken>rest"%rs ++ LT :: "/NextContinuationToken>"%rs ++ x) = false)
    end.
    rewrite contains_lt_cons, contains_skip by decided. rewrite contains_lt_cons, contains_skip by decided.
    by rewrite (keys_no_tag "IsTruncated>"%rs).
  - apply (xml_doc_elem "NextContinuationToken"%rs "<IsTruncated>true</IsTruncated>"%rs "rest"%rs "rest"%rs);
      [done|apply (esc_text "rest"%rs)|].
    apply xml_doc_end. apply (keys_no_tag "NextContinuationToken>"%rs); done.
Qed.

(** ** They are UTF-8 *)

Lemma esc_app a b : esc (a ++ b) = esc a ++ esc b.
Proof. unfold esc. by rewrite fmap_app, concat_app. Qed.

Lemma esc_high a : Forall (λ c, 128 <= byte_val c) a → esc a = a.
Proof.
  induction 1 as [|b a Hb _ IH]; [done|]. unfold esc. cbn [fmap list_fmap concat]. fold (esc a).
  rewrite IH. unfold esc_byte.
  rewrite !bool_decide_false by (intros ->; change (128 <= 38) in Hb || change (128 <= 60) in Hb; lia).
  done.
Qed.

Lemma esc_byte_ascii b : byte_val b < 128 → utf8_valid (esc_byte b) = true.
Proof.
  intros Hb. unfold esc_byte. case_bool_decide; [done|]. case_bool_decide; [done|].
  apply utf8_valid_ascii. by constructor.
Qed.

Lemma esc_utf8 n : utf8_valid n = true → utf8_valid (esc n) = true.
Proof.
  remember (length n) as k eqn:Hk. revert n Hk. induction (lt_wf k) as [k _ IH]. intros n -> Hn.
  destruct n as [|b n]; [done|]. rewrite utf8_valid_step in Hn by done.
  pose proof (utf8_chunk_pos (b :: n) ltac:(done)) as Hp.
  destruct (utf8_chunk (b :: n)) as [j [|]] eqn:E; [|done]. cbn [fst andb] in *.
  rewrite <-(take_drop j (b :: n)), esc_app.
  assert (Hrest : utf8_valid (esc (drop j (b :: n))) = true).
  { eapply IH; [|done|exact Hn]. rewrite length_drop. cbn [length]. lia. }
  destruct (decide (128 <= byte_val b)) as [Hb|Hb].
  - rewrite (esc_high (take j (b :: n))) by (by apply (utf8_chunk_high b n)).
    rewrite utf8_valid_step by (destruct j; [lia|done]).
    rewrite (utf8_chunk_take (b :: n)) by done. cbn [andb].
    pose proof (utf8_chunk_bound (b :: n)) as Hl. rewrite E in Hl. cbn [fst] in Hl.
    rewrite drop_app_length' by (rewrite length_take; lia). done.
  - assert (j = 1%nat) as ->.
    { unfold utf8_chunk in E. destruct (byte_val b <? 128) eqn:E1; [by simplify_eq|lia]. }
    apply utf8_valid_app; [|done]. cbn [take]. unfold esc. cbn [fmap list_fmap concat].
    rewrite app_nil_r. apply esc_byte_ascii. lia.
Qed.

Lemma page_doc_utf8 names next :
  Forall (λ n, utf8_valid n = true) names → utf8_valid (page_doc names next) = true.
Proof.
  intros H. unfold page_doc. apply utf8_valid_app; [by destruct next|].
  induction H as [|n names Hn _ IH]; [done|]. cbn [fmap list_fmap concat].
  apply utf8_valid_app; [|done]. unfold key_elem.
  apply utf8_valid_app; [done|]. apply utf8_valid_app; [by apply esc_utf8|done].
Qed.

(** ** The laws *)

Lemma names_below_spec m p k : k ∈ names_below m p ↔ starts_with p k = true ∧ is_Some (m !! k).
Proof.
  unfold names_below. rewrite list_elem_of_filter. f_equiv. rewrite list_elem_of_fmap. split.
  - intros ([k' v] & -> & Hin). apply elem_of_map_to_list in Hin. by exists v.
  - intros [v Hv]. exists (k, v). by rewrite elem_of_map_to_list.
Qed.

Lemma two_pages_listing m p : ∃ n, listing two_pages m p n None (names_below m p).
Proof.
  destruct (names_below m p) as [|x [|y ns]] eqn:E.
  - exists 1%nat. apply listing_last. unfold two_pages. by rewrite E.
  - exists 1%nat. apply listing_last. unfold two_pages. by rewrite E.
  - exists 2%nat. apply (listing_more two_pages m p 1 None [x] "rest"%rs (y :: ns)).
    + unfold two_pages. by rewrite E.
    + apply listing_last. unfold two_pages. by rewrite E.
Qed.

Lemma two_pages_names m p t n : n ∈ (two_pages m p t).1 → n ∈ names_below m p.
Proof.
  unfold two_pages. destruct (names_below m p) as [|x [|y ns]], t; cbn; set_solver.
Qed.

Lemma srv_objects_effect q m n :
  wf_req q → srv_objects (mkServer (effect q m) n) = effect q (filter (λ kv, s3_name kv.1) m).
Proof.
  unfold srv_objects. cbn [raw_objs]. destruct q as [| | |x|x v|]; cbn [effect wf_req]; intros Hx; try done.
  - apply map_eq. intros k. rewrite map_lookup_filter.
    destruct (decide (x = k)) as [->|Hne]; [by rewrite !lookup_delete_eq|].
    by rewrite !lookup_delete_ne, map_lookup_filter.
  - by rewrite map_filter_insert_True.
Qed.

Lemma two_pages_next m p t next : (two_pages m p t).2 = Some next → next = "rest"%rs.
Proof. unfold two_pages. destruct t, (names_below m p) as [|x [|y ns]]; cbn; congruence. Qed.

Lemma serve_answers q w : answers two_pages (srv_objects w) q (serve q (srv_objects w)).
Proof.
  set (m := srv_objects w).
  assert (Hvalid : ∀ k, is_Some (m !! k) → utf8_valid k = true).
  { intros k [v Hv]. unfold m, srv_objects in Hv. apply map_lookup_filter_Some in Hv as [_ [Hu _]]. exact Hu. }
  destruct q as [n|n a b|n|n|n v|p t]; cbn [serve].
  - destruct (m !! n) eqn:E; by constructor.
  - destruct (m !! n) as [v|] eqn:E; [|by constructor]. destruct (Z.ltb_spec a (Z.of_nat (length v)));
      by econstructor.
  - destruct (m !! n) eqn:E; constructor; [by rewrite E|done].
  - constructor.
  - constructor.
  - destruct (two_pages m p t) as [names next] eqn:E.
    apply (ans_list two_pages m p t _ names next); [done| |apply page_doc_keys|].
    + apply page_doc_utf8, Forall_forall. intros k Hk. apply Hvalid.
      assert (k ∈ (two_pages m p t).1) as H by (by rewrite E).
      apply two_pages_names, names_below_spec in H. apply H.
    + destruct next as [next|]; [|apply page_doc_last].
      assert (next = "rest"%rs) as -> by (apply (two_pages_next m p t); by rewrite E).
      apply page_doc_more.
Qed.

Lemma server_laws sha256 hmac st now :
  s3_server two_pages sha256 hmac (server_http (s3_host st)) (λ _ w, w) now st srv_objects srv_losing.
Proof.
  split.
  - intros q w Hq. unfold server_http. rewrite decode_api by done. cbv zeta.
    destruct (srv_losing w) as [|n] eqn:E.
    + left. split; [apply serve_answers|by apply srv_objects_effect].
    + right. split_and!; [done|right; by apply srv_objects_effect|].
      unfold srv_losing in *. cbn [losing]. lia.
  - done.
  - intros w. unfold srv_losing. lia.
  - intros w n [v Hv]. unfold srv_objects in Hv. by apply map_lookup_filter_Some in Hv as [_ Hn].
  - intros w p _. destruct (two_pages_listing (srv_objects w) p) as [n Hn].
    exists n, (names_below (srv_objects w) p). split; [done|apply names_below_spec].
Qed.
