(* ===== verification/S3Refines.v ===== *)
(** * The S3 store refines the reference store

    Over a server with the laws of [S3Api], also when up to two requests in a row are lost, every
    call of the [KVStore] methods returns what the reference store returns. *)

From S2P Require Import Prelude RustInt RustStr RustText Xml HeadLenPow KPath Store Remote SigV4 Dsn S3Store S3Safety S3Api S3Server.
Local Open Scope Z_scope.

(** ** The calls that are covered

    Keys are absolute and name objects; a part read is not empty-handed and its range fits in 32
    bits. *)
Definition s3_key (st : S3Store) (k : str) : Prop :=
  starts_with "/"%rs k = true ∧ s3_name (object_key (dsn_prefix (s3_dsn st)) k).

Definition s3_call (st : S3Store) (m : mem) (o : kvop) : Prop :=
  match o with
  | OGet k | OSet k _ | OExists k => s3_key st k
  | OGetMany ks | ODel ks => Forall (s3_key st) ks
  | OScan p => utf8_valid (object_key (dsn_prefix (s3_dsn st)) p) = true
  | OGetPart k off len =>
      s3_key st k ∧ 0 <= off ∧ 0 <= len ∧ off + len <= U32_MAX ∧
      (∀ v, m !! k = Some v → len = 0 ∨ off < Z.of_nat (length v))
  | OSetPart k off buf => s3_key st k ∧ 0 <= off
  | OFlush => utf8_valid (dsn_prefix (s3_dsn st)) = true
  end.

(** The part of the bucket below the prefix, as keys. *)
Record s3_view (st : S3Store) (m : mem) (b : objs) : Prop := {
  view_keys t : m !! ("/"%rs ++ t) = b !! (dsn_prefix (s3_dsn st) ++ t);
  view_abs k : is_Some (m !! k) → starts_with "/"%rs k = true;
}.

Lemma s3_key_object st k :
  s3_key st k → ∃ t, k = "/"%rs ++ t ∧ object_key (dsn_prefix (s3_dsn st)) k = dsn_prefix (s3_dsn st) ++ t.
Proof. intros [[t ->]%starts_with_true _]. exists t. by rewrite object_key_abs. Qed.

Lemma view_lookup st m b k :
  s3_view st m b → s3_key st k → m !! k = b !! object_key (dsn_prefix (s3_dsn st)) k.
Proof. intros Hv (t & -> & ->)%s3_key_object. apply Hv. Qed.

Lemma view_insert st m b k v :
  s3_view st m b → s3_key st k →
  s3_view st (<[k := v]> m) (<[object_key (dsn_prefix (s3_dsn st)) k := v]> b).
Proof.
  intros Hv (t & -> & ->)%s3_key_object. split.
  - intros u. destruct (decide (t = u)) as [->|Hne]; [by rewrite !lookup_insert_eq|].
    rewrite !lookup_insert_ne by (intros H; by apply (inj (app _)) in H). apply Hv.
  - intros k [<-|[_ Hk]]%lookup_insert_is_Some; [apply starts_with_app|by apply Hv].
Qed.

Lemma view_delete st m b k :
  s3_view st m b → s3_key st k →
  s3_view st (delete k m) (delete (object_key (dsn_prefix (s3_dsn st)) k) b).
Proof.
  intros Hv (t & -> & ->)%s3_key_object. split.
  - intros u. destruct (decide (t = u)) as [->|Hne]; [by rewrite !lookup_delete_eq|].
    rewrite !lookup_delete_ne by (intros H; by apply (inj (app _)) in H). apply Hv.
  - intros k [_ Hk]%lookup_delete_is_Some. by apply Hv.
Qed.

Lemma delete_keys_delete (ks : list str) (k : str) (m : mem) :
  delete_keys ks (delete k m) = delete_keys (k :: ks) m.
Proof.
  apply map_eq. intros x. rewrite !lookup_delete_keys. cbn.
  destruct (decide (x = k)) as [->|Hne].
  - rewrite lookup_delete_eq, (decide_True (P:=k ∈ k :: ks)) by (by left). by destruct (decide _).
  - rewrite lookup_delete_ne by done.
    rewrite (decide_ext (x ∈ k :: ks) (x ∈ ks)); [done|]. rewrite elem_of_cons. naive_solver.
Qed.

(** ** One request *)

Section refines.
Context (page : objs → str → option str → list str * option str).
Context (sha256 : bytes → bytes) (hmac : bytes → bytes → bytes).
Context {W : Type} (http : Request → W → Reply * W) (sleep : Z → W → W) (now : W → Z).
Context (st : S3Store) (objects : W → objs) (faults : W → nat).
Context (Hsrv : s3_server page sha256 hmac http sleep now st objects faults).
#[local] Abbreviation prefix := (dsn_prefix (s3_dsn st)).

Lemma lost_lost q rep w0 w1 w2 :
  lost q rep → (objects w1 = objects w0 ∨ objects w1 = effect q (objects w0)) →
  (objects w2 = objects w1 ∨ objects w2 = effect q (objects w1)) →
  objects w2 = objects w0 ∨ objects w2 = effect q (objects w0).
Proof. intros _ [-> | ->] [-> | ->]; rewrite ?effect_idemp; auto. Qed.

(** A bodyless answer is a body or a 404: the outcome [send_empty] makes of it. *)
Definition outcome_of (rep : Reply) : option Outcome :=
  match rep with
  | Response (Some b) => Some (OutOk b)
  | StatusCode code => if code =? 404 then Some OutNotFound else None
  | _ => None
  end.

Definition empty_request (q : s3req) (method key : str) (params : list (str * str)) (range : option str) : Prop :=
  bodyless method = true ∧
  ∀ t, with_headers method (prepare sha256 hmac st t method key params []) range None =
       api_request sha256 hmac st t q.

Lemma pause_world a w :
  ∃ w', pause sleep a w = (Ok tt, w') ∧ objects w' = objects w ∧ faults w' = faults w.
Proof.
  unfold pause. destruct (a <? MAX_ATTEMPTS).
  - eexists. split; [done|]. apply (srv_sleep _ _ _ _ _ _ _ _ _ Hsrv).
  - by exists w.
Qed.

Lemma send_empty_rounds_answers q method key params range l last w w0 :
  empty_request q method key params range → wf_req q → api_body q = None →
  (∀ rep, answers page (objects w0) q rep → is_Some (outcome_of rep)) →
  (faults w < length l)%nat → (objects w = objects w0 ∨ objects w = effect q (objects w0)) →
  ∃ rep o w', answers page (objects w0) q rep ∧ outcome_of rep = Some o ∧
    objects w' = effect q (objects w0) ∧
    send_empty_rounds sha256 hmac http sleep now st method key params range l last w = (Ok o, w').
Proof.
  intros [Hm Hreq] Hwf Hb Hout. revert w last.
  induction l as [|a l IH]; intros w last Hf Hw; cbn [length] in Hf; [lia|].
  cbn [send_empty_rounds]. rewrite bind_gets. cbv zeta. rewrite Hm, Hreq, stm_bind_eq. unfold call_http.
  pose proof (srv_reply _ _ _ _ _ _ _ _ _ Hsrv q w Hwf) as H.
  destruct (http (api_request sha256 hmac st (now w) q) w) as [rep w'].
  assert (Hans : answers page (objects w) q rep ↔ answers page (objects w0) q rep).
  { destruct Hw as [-> | ->]; [done|apply answers_effect]. }
  destruct H as [[Ha Hw']|(Hl & Hw' & Hf')].
  - apply Hans in Ha. destruct (Hout rep Ha) as [o Ho]. exists rep, o, w'. split_and!; [done..| |].
    + rewrite Hw'. destruct Hw as [-> | ->]; [done|apply effect_idemp].
    + destruct rep as [[b|]|code|]; try done; cbn in Ho |- *; [by simplify_eq|].
      by destruct (code =? 404); simplify_eq.
  - destruct (pause_world a w') as (w1 & Hp & Ho1 & Hf1).
    destruct (IH w1 (Some rep)) as (rep' & o & w2 & Ha & Ho & Hw2 & Hrun);
      [lia|rewrite Ho1; by eapply lost_lost|].
    exists rep', o, w2. split_and!; [done..|].
    destruct rep as [|code|e]; [done| |]; cbn in Hl.
    + destruct (Z.eqb_spec code 404); [lia|].
      destruct ((400 <=? code) && (code <? 500)) eqn:E; [lia|]. by rewrite stm_bind_eq, Hp.
    + by rewrite stm_bind_eq, Hp.
Qed.

Lemma send_empty_answers q method key params range w :
  empty_request q method key params range → wf_req q → api_body q = None →
  (∀ rep, answers page (objects w) q rep → is_Some (outcome_of rep)) →
  ∃ rep o w', answers page (objects w) q rep ∧ outcome_of rep = Some o ∧
    objects w' = effect q (objects w) ∧
    send_empty sha256 hmac http sleep now st method key params range w = (Ok o, w').
Proof.
  intros. apply send_empty_rounds_answers; [done..| |by left].
  pose proof (srv_faults _ _ _ _ _ _ _ _ _ Hsrv w). unfold attempts. simpl. lia.
Qed.

Lemma send_answers name key val l last w w0 :
  (∀ t, with_headers "PUT"%rs (prepare sha256 hmac st t "PUT"%rs key [] val) None (Some val) =
        api_request sha256 hmac st t (QPut name val)) →
  s3_name name → (faults w < length l)%nat →
  (objects w = objects w0 ∨ objects w = <[name := val]> (objects w0)) →
  ∃ o w', objects w' = <[name := val]> (objects w0) ∧
    send_rounds sha256 hmac http sleep now st "PUT"%rs key [] val l last w = (Ok o, w').
Proof.
  intros Hreq Hname. revert w last.
  induction l as [|a l IH]; intros w last Hf Hw; cbn [length] in Hf; [lia|].
  cbn [send_rounds]. rewrite bind_gets. cbv zeta. cbn [orb].
  rewrite bool_decide_true by done. cbn [orb]. rewrite Hreq, stm_bind_eq. unfold call_http.
  pose proof (srv_reply _ _ _ _ _ _ _ _ _ Hsrv (QPut name val) w Hname) as H.
  destruct (http (api_request sha256 hmac st (now w) _) w) as [rep w'].
  destruct H as [[Ha Hw']|(Hl & Hw' & Hf')].
  - inversion Ha; subst. exists (OutOk []), w'. split; [|done].
    rewrite Hw'. cbn. destruct Hw as [-> | ->]; [done|by rewrite insert_insert_eq].
  - destruct rep as [|code|e]; [done|by destruct Hl|].
    destruct (pause_world a w') as (w1 & Hp & Ho1 & Hf1).
    destruct (IH w1 (Some (Failure e))) as (o & w2 & Hw2 & Hrun).
    + lia.
    + rewrite Ho1. cbn in Hw'. destruct Hw as [E|E]; rewrite E in Hw'; destruct Hw' as [-> | ->];
        rewrite ?insert_insert_eq; auto.
    + exists o, w2. split; [done|]. by rewrite stm_bind_eq, Hp.
Qed.

(** ** The requests the methods send *)

Lemma s3_key_nonempty k : s3_key st k → k ≠ [].
Proof. intros [H _] ->. done. Qed.

Lemma prepare_object t method key body range b :
  key ≠ [] →
  with_headers method (prepare sha256 hmac st t method key [] body) range b =
  let d := s3_dsn st in
  let path := "/"%rs ++ uri_encode (object_key prefix key) true in
  let s := sign sha256 hmac t (Dsn.access_key d) (secret_key d) (region d) (s3_host st) method path []
             body in
  mkRequest method ("https://"%rs ++ s3_host st ++ path) (authorization s) (amz_date s)
    (payload_hash s) range b.
Proof.
  intros Hk. unfold with_headers, prepare, canonical_uri. by rewrite (bool_decide_false _ Hk).
Qed.

Lemma object_request q method key range name :
  s3_key st key → name = object_key prefix key →
  bodyless method = true → api_method q = method → api_path q = "/"%rs ++ uri_encode name true →
  api_params q = [] → api_range q = range → api_body q = None →
  empty_request q method key [] range.
Proof.
  intros Hk -> Hm H1 H2 H3 H4 H5. split; [done|]. intros t.
  rewrite prepare_object by (by apply s3_key_nonempty). unfold api_request.
  rewrite H1, H2, H3, H4, H5. cbv zeta. change (canonical_query []) with (@nil byte).
  by rewrite app_nil_r.
Qed.

Lemma list_request p token :
  empty_request (QList p token) "GET"%rs [] (list_params p token) None.
Proof.
  split; [done|]. intros t. unfold with_headers, prepare, api_request, canonical_uri. cbv zeta.
  cbn [api_method api_path api_params api_range api_body default].
  destruct (canonical_query (list_params p token)) eqn:E; [|done].
  apply (f_equal length) in E. by destruct token.
Qed.

Lemma put_request t key val :
  s3_key st key →
  with_headers "PUT"%rs (prepare sha256 hmac st t "PUT"%rs key [] val) None (Some val) =
  api_request sha256 hmac st t (QPut (object_key prefix key) val).
Proof.
  intros Hk. rewrite prepare_object by (by apply s3_key_nonempty). unfold api_request. cbv zeta.
  cbn [api_method api_path api_params api_range api_body]. change (canonical_query []) with (@nil byte).
  by rewrite app_nil_r.
Qed.

(** ** The methods *)

Lemma get_answers key w :
  s3_key st key → ∃ w', objects w' = objects w ∧
    s3_get sha256 hmac http sleep now st key w = (Ok (objects w !! object_key prefix key), w').
Proof.
  intros Hk.
  destruct (send_empty_answers (QGet (object_key prefix key)) "GET"%rs key [] None w)
    as (rep & o & w' & Ha & Ho & Hw & Hrun).
  - by eapply object_request.
  - apply Hk.
  - done.
  - inversion 1; subst; eauto.
  - exists w'. split; [done|]. unfold s3_get. rewrite stm_bind_eq, Hrun.
    inversion Ha as [? v Hl|? Hn| | | | | | | | |]; subst; cbn in Ho; simplify_eq; cbn;
      by rewrite ?Hl, ?Hn.
Qed.

Lemma exists_answers key w :
  s3_key st key → ∃ w', objects w' = objects w ∧
    s3_exists sha256 hmac http sleep now st key w =
    (Ok (bool_decide (is_Some (objects w !! object_key prefix key))), w').
Proof.
  intros Hk.
  destruct (send_empty_answers (QHead (object_key prefix key)) "HEAD"%rs key [] None w)
    as (rep & o & w' & Ha & Ho & Hw & Hrun).
  - by eapply object_request.
  - apply Hk.
  - done.
  - inversion 1; subst; eauto.
  - exists w'. split; [done|]. unfold s3_exists. rewrite stm_bind_eq, Hrun.
    inversion Ha as [| | | | |? Hs|? Hn| | | |]; subst; cbn in Ho; simplify_eq; cbn.
    + by rewrite bool_decide_true.
    + rewrite bool_decide_false; [done|]. rewrite Hn. apply is_Some_None.
Qed.

Lemma delete_answers key w :
  s3_key st key → ∃ w', objects w' = delete (object_key prefix key) (objects w) ∧
    delete_one sha256 hmac http sleep now st key w = (Ok tt, w').
Proof.
  intros Hk.
  destruct (send_empty_answers (QDelete (object_key prefix key)) "DELETE"%rs key [] None w)
    as (rep & o & w' & Ha & Ho & Hw & Hrun).
  - by eapply object_request.
  - apply Hk.
  - done.
  - inversion 1; subst; eauto.
  - exists w'. split; [done|]. unfold delete_one. by rewrite stm_bind_eq, Hrun.
Qed.

Lemma set_answers key val w :
  s3_key st key → ∃ w', objects w' = <[object_key prefix key := val]> (objects w) ∧
    s3_set sha256 hmac http sleep now st key val w = (Ok tt, w').
Proof.
  intros Hk.
  destruct (send_answers (object_key prefix key) key val attempts None w w) as (o & w' & Hw & Hrun).
  - intros t. by apply put_request.
  - apply Hk.
  - pose proof (srv_faults _ _ _ _ _ _ _ _ _ Hsrv w). unfold attempts. simpl. lia.
  - by left.
  - exists w'. split; [done|]. unfold s3_set, send. by rewrite stm_bind_eq, Hrun.
Qed.

Lemma range_header_exact off len :
  0 <= off → 0 < len → off + len <= U32_MAX →
  range_header off len = "bytes="%rs ++ show_u off ++ "-"%rs ++ show_u (off + len - 1).
Proof.
  unfold U32_MAX. intros H1 H2 H3. unfold range_header.
  rewrite !wrap_u_id; [done| |]; unfold in_u; rewrite ?wrap_u_id; unfold in_u; lia.
Qed.

Lemma get_part_answers key off len w :
  s3_key st key → 0 <= off → 0 <= len → off + len <= U32_MAX →
  (∀ v, objects w !! object_key prefix key = Some v → len = 0 ∨ off < Z.of_nat (length v)) →
  ∃ w', objects w' = objects w ∧
    s3_get_part sha256 hmac http sleep now st key off len w =
    (Ok (clamp_part off len <$> objects w !! object_key prefix key), w').
Proof.
  intros Hk Hoff Hlen Hmax Hv. unfold s3_get_part. destruct (Z.eqb_spec len 0) as [->|Hne].
  - destruct (get_answers key w Hk) as (w' & Hw & Hrun). exists w'. split; [done|].
    rewrite stm_bind_eq, Hrun. destruct (objects w !! _) as [v|]; [|done]. cbn. do 3 f_equal.
    by rewrite clamp_part_nothing.
  - rewrite range_header_exact by lia.
    destruct (send_empty_answers (QRange (object_key prefix key) off (off + len - 1)) "GET"%rs key []
                (Some ("bytes="%rs ++ show_u off ++ "-"%rs ++ show_u (off + len - 1))) w)
      as (rep & o & w' & Ha & Ho & Hw & Hrun).
    + by eapply object_request.
    + split; [apply Hk|unfold U32_MAX in *; lia].
    + done.
    + inversion 1; subst; eauto. edestruct Hv; [done|lia..].
    + exists w'. split; [done|]. rewrite stm_bind_eq, Hrun.
      inversion Ha as [| |? ? ? v Hl| |? ? ? Hn| | | | | |]; subst; cbn in Ho; simplify_eq.
      * rewrite Hl. cbn. unfold clamp_part. rewrite (Z.min_l off) by lia.
        by replace (off + len - 1 + 1) with (off + len) by lia.
      * rewrite Hn. done.
Qed.

(** ** Listing *)

Definition key_name (n : str) : str := "/"%rs ++ drop (length prefix) n.

Lemma page_keys_below names :
  (∀ n, n ∈ names → starts_with prefix n = true) → page_keys st names = Ok (key_name <$> names).
Proof.
  induction names as [|n names IH]; intros H; [done|]. cbn [page_keys].
  destruct (proj1 (starts_with_true _ _) (H n ltac:(by left))) as [t ->].
  unfold key_of_object. rewrite strip_prefix_app. cbn [fmap option_fmap option_map].
  rewrite IH by (intros x Hx; apply H; by right). cbn. unfold key_name. by rewrite drop_app_length.
Qed.

Lemma list_pages_listing m p n token names :
  listing page m p n token names → utf8_valid p = true →
  (∀ n, n ∈ names → starts_with prefix n = true) →
  ∀ w keys, objects w = m → ∃ w', objects w' = m ∧ ∀ fuel, (n <= fuel)%nat →
    list_pages sha256 hmac http sleep now st fuel p keys token w = (Ok (keys ++ (key_name <$> names)), w').
Proof.
  intros Hl Hp. induction Hl as [t names Hpage|n t names t' names' Hpage Hl IH];
    intros Hn w keys <-;
    (destruct (send_empty_answers (QList p t) "GET"%rs [] (list_params p t) None w)
       as (rep & o & w1 & Ha & Ho & Hw & Hrun);
     [apply list_request|done|done|inversion 1; subst; cbn; eauto|]);
    inversion Ha as [| | | | | | | | | |? ? d ns next Hpg Hu Hd Hnext]; subst; cbn in Ho; simplify_eq;
    rewrite Hpage in Hpg; injection Hpg as <- <-;
    pose proof (xml_doc_values "Key"%rs d _ ltac:(decided) Hd) as Hkeys.
  - pose proof (xml_doc_values "IsTruncated"%rs d _ ltac:(decided) Hnext) as Htr.
    exists w1. split; [done|]. intros [|fuel] Hf; [lia|]. cbn [list_pages].
    rewrite stm_bind_eq, Hrun. unfold from_utf8. rewrite Hu, bind_lift_ok, Hkeys, page_keys_below, bind_lift_ok by done.
    by rewrite Htr.
  - destruct Hnext as [Htr%xml_doc_values Htok%xml_doc_values]; [|decided..].
    destruct (IH ltac:(intros; apply Hn; set_solver) w1 (keys ++ (key_name <$> names)) Hw) as (w2 & Hw2 & Hrun2).
    exists w2. split; [done|]. intros [|fuel] Hf; [lia|]. cbn [list_pages].
    rewrite stm_bind_eq, Hrun. unfold from_utf8. rewrite Hu, bind_lift_ok, Hkeys, page_keys_below, bind_lift_ok
      by (intros; apply Hn; set_solver). rewrite Htr, Htok. cbn [head].
    rewrite bool_decide_true by done. rewrite Hrun2 by lia. by rewrite fmap_app, app_assoc.
Qed.

(** The listing of a key prefix, as keys. *)
Lemma list_all_view m kp w :
  s3_view st m (objects w) → utf8_valid (object_key prefix kp) = true →
  ∃ N ks w', objects w' = objects w ∧
    (∀ fuel, (N <= fuel)%nat → list_all sha256 hmac http sleep now st fuel kp w = (Ok ks, w')) ∧
    (∀ k, k ∈ ks → s3_key st k ∧ is_Some (m !! k)) ∧
    (∀ k, is_subtree_key kp k = true → is_Some (m !! k) → k ∈ ks).
Proof.
  intros Hv Hu. destruct (srv_pages _ _ _ _ _ _ _ _ _ Hsrv w _ Hu) as (n & names & Hl & Hnames).
  assert (Hpre : ∀ x, x ∈ names → starts_with prefix x = true).
  { intros x [[r ->]%starts_with_true _]%Hnames. unfold object_key. rewrite <-app_assoc. apply starts_with_app. }
  destruct (list_pages_listing _ _ _ _ _ Hl Hu Hpre w [] eq_refl) as (w' & Hw' & Hrun).
  exists n, (key_name <$> names), w'. split_and!; [done|done| |].
  - intros k (x & -> & Hx)%list_elem_of_fmap. destruct (proj1 (starts_with_true _ _) (Hpre x Hx)) as [t ->].
    apply Hnames in Hx as [_ Hx]. unfold key_name. rewrite drop_app_length. split; [split|].
    + apply starts_with_app.
    + rewrite object_key_abs. by eapply srv_names.
    + by rewrite (view_keys _ _ _ Hv).
  - intros k Hsub Hk. destruct (proj1 (starts_with_true _ _) (view_abs _ _ _ Hv k Hk)) as [t ->].
    apply list_elem_of_fmap. exists (prefix ++ t). split; [unfold key_name; by rewrite drop_app_length|].
    apply Hnames. rewrite <-(view_keys _ _ _ Hv). split; [|done].
    unfold object_key. rewrite starts_with_app_l. apply starts_with_true.
    destruct (decide (kp = [])) as [->|H1]; [by exists t|].
    destruct (decide (kp = "/"%rs)) as [->|H2]; [by exists t|].
    apply is_subtree_key_rest in Hsub as (r & Hr & _); [|done..].
    destruct kp as [|b kp]; [done|]. injection Hr as <- ->. exists r. by destruct kp.
Qed.

Lemma del_answers m ks w :
  Forall (s3_key st) ks → s3_view st m (objects w) →
  ∃ w', s3_view st (delete_keys ks m) (objects w') ∧
    for_each ks (delete_one sha256 hmac http sleep now st) w = (Ok tt, w').
Proof.
  intros Hks. revert m w. induction Hks as [|k ks Hk _ IH]; intros m w Hv; [by exists w|].
  destruct (delete_answers k w Hk) as (w1 & Hw1 & Hrun).
  destruct (IH (delete k m) w1) as (w2 & Hv2 & Hrun2).
  { rewrite Hw1. by apply view_delete. }
  exists w2. rewrite <-delete_keys_delete. split; [done|]. cbn [for_each]. by rewrite stm_bind_eq, Hrun.
Qed.

Lemma get_many_answers m ks w :
  Forall (s3_key st) ks → s3_view st m (objects w) →
  ∃ w', objects w' = objects w ∧
    provided_get_many (s3_get sha256 hmac http sleep now st) ks w = (Ok ((λ k, m !! k) <$> ks), w').
Proof.
  intros Hks Hv. revert w Hv. induction Hks as [|k ks Hk _ IH]; intros w Hv; [by exists w|].
  destruct (get_answers k w Hk) as (w1 & Hw1 & Hrun).
  destruct (IH w1) as (w2 & Hw2 & Hrun2); [by rewrite Hw1|].
  exists w2. split; [congruence|]. cbn [provided_get_many].
  rewrite stm_bind_eq, Hrun, stm_bind_eq, Hrun2. by rewrite <-(view_lookup _ _ _ _ Hv Hk).
Qed.

Lemma set_part_answers m key off buf w :
  s3_key st key → s3_view st m (objects w) →
  ∃ w', s3_view st (kv_set_part key off buf m) (objects w') ∧
    provided_set_part (s3_get sha256 hmac http sleep now st) (s3_set sha256 hmac http sleep now st)
      key off buf w = (Ok tt, w').
Proof.
  intros Hk Hv. destruct (get_answers key w Hk) as (w1 & Hw1 & Hrun).
  rewrite <-(view_lookup _ _ _ _ Hv Hk) in Hrun.
  unfold provided_set_part. rewrite stm_bind_eq, Hrun. cbn. unfold default_set_part.
  destruct (m !! key) as [v|]; [|exists w1; by rewrite Hw1].
  destruct (_ <? _); [exists w1; by rewrite Hw1|].
  destruct (set_answers key (splice (Z.to_nat off) buf v) w1 Hk) as (w2 & Hw2 & Hrun2).
  exists w2. split; [|done]. rewrite Hw2, Hw1. by apply view_insert.
Qed.

Lemma s3_op_refines (o : kvop) :
  op_refines (s3_store sha256 hmac http sleep now st) (λ m w, s3_view st m (objects w)) (s3_call st) o.
Proof.
  intros m w Hok Hv. destruct o as [k|ks|k v|ks|p|k|k off len|k off buf|]; cbn [s3_call pure_op] in *.
  - destruct (get_answers k w Hok) as (w' & Hw & Hrun). exists O, (RValue (m !! k)), w'; cbn [fst snd].
    rewrite <-(view_lookup _ _ _ _ Hv Hok) in Hrun. rewrite Hw. split_and!; [|done..].
    intros n _. cbn [run_op]. cbn. by rewrite stm_bind_eq, Hrun.
  - destruct (get_many_answers m ks w Hok Hv) as (w' & Hw & Hrun).
    exists O, (RValues ((λ k, m !! k) <$> ks)), w'; cbn [fst snd]. rewrite Hw. split_and!; [|done..].
    intros n _. cbn [run_op]. cbn. by rewrite stm_bind_eq, Hrun.
  - destruct (set_answers k v w Hok) as (w' & Hw & Hrun). exists O, RUnit, w'; cbn [fst snd].
    rewrite Hw. split_and!; [|done|by apply view_insert].
    intros n _. cbn [run_op]. cbn. by rewrite stm_bind_eq, Hrun.
  - destruct (del_answers m ks w Hok Hv) as (w' & Hw & Hrun). exists O, RUnit, w'; cbn [fst snd].
    split_and!; [|done..]. intros n _. cbn [run_op]. cbn. unfold s3_del. by rewrite stm_bind_eq, Hrun.
  - destruct (list_all_view m p w Hv Hok) as (N & ks & w' & Hw & Hrun & Hin & Hall).
    exists N, (RKeys (filter (λ k, is_subtree_key p k = true) ks)), w'; cbn [fst snd]. rewrite Hw. split_and!; [| |done].
    + intros n Hn. cbn [run_op]. cbn. unfold s3_scan_keys. by rewrite stm_bind_eq, stm_bind_eq, Hrun.
    + apply reply_keys_equiv. intros k. rewrite law_scan, list_elem_of_filter. cbn. naive_solver.
  - destruct (exists_answers k w Hok) as (w' & Hw & Hrun).
    exists O, (RBool (bool_decide (is_Some (m !! k)))), w'; cbn [fst snd].
    rewrite Hw. split_and!; [| |done].
    + intros n _. cbn [run_op]. cbn.
      by rewrite stm_bind_eq, Hrun, (view_lookup _ _ _ _ Hv Hok).
    + by rewrite law_exists.
  - destruct Hok as (Hk & H1 & H2 & H3 & Hr). rewrite (view_lookup _ _ _ _ Hv Hk) in Hr.
    destruct (get_part_answers k off len w Hk H1 H2 H3 Hr) as (w' & Hw & Hrun).
    exists O, (RValue (clamp_part off len <$> m !! k)), w'; cbn [fst snd]. rewrite Hw. split_and!; [|done..].
    intros n _. cbn [run_op]. cbn.
    by rewrite stm_bind_eq, Hrun, (view_lookup _ _ _ _ Hv Hk).
  - destruct Hok as [Hk Hoff]. destruct (set_part_answers m k off buf w Hk Hv) as (w' & Hw & Hrun).
    exists O, RUnit, w'; cbn [fst snd]. split_and!; [|done..]. intros n _. cbn [run_op]. cbn. by rewrite stm_bind_eq, Hrun.
  - destruct (list_all_view m "/"%rs w Hv) as (N & ks & w1 & Hw & Hrun & Hin & Hall).
    { change (object_key _ "/"%rs) with (prefix ++ []). by rewrite app_nil_r. }
    destruct (del_answers m ks w1) as (w2 & Hv2 & Hrun2).
    { apply Forall_forall. intros k Hk. by apply Hin. }
    { by rewrite Hw. }
    exists N, RUnit, w2; cbn [fst snd]. split_and!; [|done|].
    + intros n Hn. cbn [run_op]. cbn. unfold s3_flush. by rewrite stm_bind_eq, stm_bind_eq, Hrun, Hrun2.
    + assert (delete_keys ks m = kv_flush m) as <-; [|done]. apply map_eq. intros k. rewrite lookup_delete_keys.
      destruct (decide (k ∈ ks)) as [|Hk]; [done|]. destruct (m !! k) as [v|] eqn:E; [|done].
      destruct Hk. apply Hall; [|by rewrite E]. apply (view_abs _ _ _ Hv). by rewrite E.
Qed.
End refines.

(** ** Properties *)

(** C28. Against an S3 server that keeps the API's promises, and loses at most two requests in a
    row (whether or not a lost request took effect), any sequence of calls on absolute keys that
    name objects returns, without a panic, exactly the replies of the reference store, a scan's
    keys up to order, and leaves under the prefix exactly the contents the reference store
    reaches.  Part reads have to start inside the value and end below 2^32; from some number of
    pages on, the bound on the pages a listing may follow no longer matters. *)
Theorem s3_refines_reference page (sha256 : bytes → bytes) (hmac : bytes → bytes → bytes) {W : Type}
    (http : Request → W → Reply * W) (sleep : Z → W → W) (now : W → Z) st objects faults
    (os : list kvop) m w :
  s3_server page sha256 hmac http sleep now st objects faults →
  s3_view st m (objects w) → admissible (s3_call st) m os →
  ∃ (N : nat) rs w',
    (∀ n, (N <= n)%nat → run_ops (H := s3_store sha256 hmac http sleep now st n) os w = (Ok rs, w')) ∧
    Forall2 (≡) rs (pure_ops os m).1 ∧ s3_view st (pure_ops os m).2 (objects w').
Proof.
  intros Hsrv Hv Hok.
  apply (ops_refine (s3_store sha256 hmac http sleep now st) (λ m w, s3_view st m (objects w)) (s3_call st));
    [|done..].
  intros o. by eapply s3_op_refines.
Qed.

(** Five calls against the reference server, which loses the first two requests; a third object
    lies beside the prefix. *)
Definition example_calls : list kvop :=
  [OSet "/a"%rs "abc"%rs; OSet "/b"%rs []; OScan "/"%rs; OGetPart "/a"%rs 1 2; ODel ["/b"%rs]; OGetMany ["/a"%rs; "/b"%rs];
   OFlush].

Definition example_server : server := mkServer {["other/x"%rs := "1"%rs]} 2.

Lemma s3_refines_reference_witness :
  ∃ (N : nat) rs w',
    (∀ n, (N <= n)%nat →
       run_ops (H := s3_store (λ _, []) (λ _ _, []) (server_http (s3_host example_store)) (λ _ w, w) (λ _, 0)
                       example_store n) example_calls example_server = (Ok rs, w')) ∧
    Forall2 (≡) rs [RUnit; RUnit; RKeys ["/b"%rs; "/a"%rs]; RValue (Some "bc"%rs); RUnit;
                    RValues [Some "abc"%rs; None]; RUnit] ∧
    s3_view example_store ∅ (srv_objects w').
Proof.
  assert (pure_ops example_calls (∅ : mem) =
    ([RUnit; RUnit; RKeys ["/b"%rs; "/a"%rs]; RValue (Some "bc"%rs); RUnit;
      RValues [Some "abc"%rs; None]; RUnit], ∅)) as E by (vm_compute; reflexivity).
  pose proof (s3_refines_reference two_pages (λ _, []) (λ _ _, []) (server_http (s3_host example_store)) (λ _ w, w)
           (λ _, 0) example_store srv_objects srv_losing example_calls (∅ : mem) example_server) as H.
  rewrite E in H. apply H; clear E H.
  - apply server_laws.
  - split; [|by intros k [v Hv]]. intros t. rewrite lookup_empty. symmetry.
    unfold srv_objects, example_server. cbn [raw_objs].
    rewrite map_lookup_filter, lookup_singleton_ne; [done|]. by destruct t.
  - assert (Ha : s3_key example_store "/a"%rs) by (split; [done|decided]).
    assert (Hb : s3_key example_store "/b"%rs) by (split; [done|decided]).
    cbn [admissible example_calls s3_call]. split_and!; try done.
    + intros v. vm_compute. intros [= <-]. by right.
    + by constructor.
    + by repeat constructor.
Defined.

(** Executed: the replies, and what is left in the bucket. *)
Example example_calls_run :
  let r := run_ops (H := s3_store (λ _, []) (λ _ _, []) (server_http (s3_host example_store)) (λ _ w, w)
                           (λ _, 0) example_store 3) example_calls example_server in
  r.1 = Ok [RUnit; RUnit; RKeys ["/b"%rs; "/a"%rs]; RValue (Some "bc"%rs); RUnit;
            RValues [Some "abc"%rs; None]; RUnit] ∧
  map_to_list (srv_objects r.2) = [("other/x"%rs, "1"%rs)].
Proof. by vm_compute. Qed.
