(* ===== verification/Redis.v ===== *)
(** * The Redis store: [src/src/redis/store.rs]

    A minimal RESP client: one connection, one command at a time.  The network is a parameter
    over a world [W]: opening a connection, writing to it and reading its next byte (what
    [BufReader] shows of a stream is its bytes one after the other, however they arrive).
    Opening a connection forgets the bytes of the one before. *)

From S2P Require Import Prelude RustInt RustStr RustText HeadLenPow KPath Store Remote.
Local Open Scope Z_scope.

(** ** Data *)

#[local] Set Warnings "-register-all".
Inductive Resp :=
  | Simple (text : str)
  | RespError (text : str)
  | Integer (n : Z)
  | Bulk (data : option bytes)
  | Array (items : list Resp).

Inductive sockopt := ReadTimeout (secs : Z) | WriteTimeout (secs : Z) | NoDelay.

Inductive redis_err :=
  | NetError (e : str)
  | ConnectionClosed
  | UnexpectedEof
  | EmptyLine
  | UnexpectedType (kind : byte)
  | ServerError (message : str)
  | Unfinished.

(** [RedisStore]: whether [stream] holds a connection, next to the world. *)
Record rstate (W : Type) := mkR { connected : bool; net : W }.
Arguments mkR {W}.
Arguments connected {W}.
Arguments net {W}.

Definition CR : byte := Byte.x0d.
Definition NL : byte := Byte.x0a.
Definition CRLF : bytes := [CR; NL].

(** ** Reading a reply *)

Section read.
Context {W : Type} (next : W → res redis_err (option byte) * W).

Definition chop (suffix line : bytes) : bytes := default line (strip_suffix suffix line).

(** [read_until(b'\n', ..)] and the two [pop]s; [fuel] bounds the length of the line, which the
    source does not. *)
Fixpoint read_line_loop (fuel : nat) (line : bytes) : stm W redis_err bytes :=
  match fuel with
  | O => lift (Err Unfinished)
  | S fuel =>
      b ← next;
      match b with
      | None =>
          if bool_decide (line = []) then lift (Err ConnectionClosed)
          else mret (chop [CR] (chop [NL] line))
      | Some b =>
          let line := line ++ [b] in
          if decide (b = NL) then mret (chop [CR] (chop [NL] line)) else read_line_loop fuel line
      end
  end.

Definition read_line (fuel : nat) : stm W redis_err bytes := read_line_loop fuel [].

Fixpoint read_exact (n : nat) : stm W redis_err bytes :=
  match n with
  | O => mret []
  | S n =>
      b ← next;
      match b with
      | None => lift (Err UnexpectedEof)
      | Some b => l ← read_exact n; mret (b :: l)
      end
  end.

(** [for _ in 0..n { arr.push(m?) }] *)
Fixpoint repeat_read {A} (n : nat) (m : stm W redis_err A) : stm W redis_err (list A) :=
  match n with
  | O => mret []
  | S n => x ← m; l ← repeat_read n m; mret (x :: l)
  end.

(** [fuel] bounds the length of a line and the nesting of arrays. *)
Fixpoint read_resp (fuel : nat) : stm W redis_err Resp :=
  match fuel with
  | O => lift (Err Unfinished)
  | S deeper =>
      line ← read_line fuel;
      match line with
      | [] => lift (Err EmptyLine)
      | kind :: rest =>
          let text := from_utf8_lossy rest in
          if decide (kind = Byte.x2b) then mret (Simple text)
          else if decide (kind = Byte.x2d) then mret (RespError text)
          else if decide (kind = Byte.x3a) then mret (Integer (default 0 (parse_s 64 text)))
          else if decide (kind = Byte.x24) then
            let len := default (-1) (parse_s 64 text) in
            if len <? 0 then mret (Bulk None)
            else
              data ← read_exact (Z.to_nat len);
              read_exact 2;;
              mret (Bulk (Some data))
          else if decide (kind = Byte.x2a) then
            let n := default (-1) (parse_s 64 text) in
            if n <? 0 then mret (Array [])
            else arr ← repeat_read (Z.to_nat n) (read_resp deeper); mret (Array arr)
          else lift (Err (UnexpectedType kind))
      end
  end.
End read.

(** ** Commands *)

(** [format!("*{}\r\n", ..)] and [format!("${}\r\n", ..)] with the arguments. *)
Definition encode_arg (a : bytes) : bytes :=
  Byte.x24 :: show_u (Z.of_nat (length a)) ++ CRLF ++ a ++ CRLF.
Definition encode_command (args : list bytes) : bytes :=
  Byte.x2a :: show_u (Z.of_nat (length args)) ++ CRLF ++ concat (encode_arg <$> args).

(** The glob of the keys that start with [prefix]. *)
Definition glob_special (b : byte) : bool :=
  bool_decide (b ∈ [Byte.x2a; Byte.x3f; Byte.x5b; Byte.x5d; Byte.x5c]).
Definition glob_escape (b : byte) : bytes := if glob_special b then [Byte.x5c; b] else [b].
Definition scan_pattern (prefix : str) : bytes :=
  let base := if bool_decide (prefix = []) then "/"%rs else prefix in
  concat (glob_escape <$> base) ++ [Byte.x2a].

Section store.
Context {W : Type}.
Context (tcp_connect : str → W → res redis_err unit * W).
Context (tcp_option : sockopt → W → res redis_err unit * W).
Context (tcp_write : bytes → W → res redis_err unit * W).
Context (tcp_next : W → res redis_err (option byte) * W).
Context (addr : str).

(** A call on the network part of the state. *)
Definition on_net {A} (m : stm W redis_err A) : stm (rstate W) redis_err A :=
  λ s, let '(r, w) := m (net s) in (r, mkR (connected s) w).

Definition open_conn : stm W redis_err unit :=
  tcp_connect addr;;
  tcp_option (ReadTimeout 3);;
  tcp_option (WriteTimeout 3);;
  tcp_option NoDelay.

(** [RedisStore::new], on a world; a failure panics. *)
Definition new_store : stm W redis_err (rstate W) := λ w,
  match open_conn w with
  | (Ok _, w) => (Ok (mkR true w), w)
  | (Err e, w) | (Panic e, w) => (Panic e, w)
  end.

Section commands.
Context (fuel : nat).

Definition round_trip (args : list bytes) : stm (rstate W) redis_err Resp :=
  c ← gets connected;
  (if c : bool then mret tt else on_net open_conn;; modify (λ s, mkR true (net s)));;
  on_net (tcp_write (encode_command args));;
  on_net (read_resp tcp_next fuel).

(** An I/O error drops the connection; an error reply does not. *)
Definition cmd (args : list bytes) : stm (rstate W) redis_err Resp := λ s,
  match round_trip args s with
  | (Ok (RespError message), s) => (Panic (ServerError message), s)
  | (Ok r, s) => (Ok r, s)
  | (Err e, s) | (Panic e, s) => (Panic e, mkR false (net s))
  end.

(** ** The [KVStore] methods *)

Definition bulk_of (r : Resp) : option bytes := match r with Bulk b => b | _ => None end.

Definition r_get (key : str) : stm (rstate W) redis_err (option bytes) :=
  r ← cmd ["GET"%rs; key]; mret (bulk_of r).

Definition r_get_many (keys : list str) : stm (rstate W) redis_err (list (option bytes)) :=
  if bool_decide (keys = []) then mret []
  else
    r ← cmd ("MGET"%rs :: keys);
    mret (match r with Array items => bulk_of <$> items | _ => (λ _, None) <$> keys end).

Definition r_set (key : str) (val : bytes) : stm (rstate W) redis_err unit :=
  cmd ["SET"%rs; key; val];; mret tt.

Definition r_exists (key : str) : stm (rstate W) redis_err bool :=
  r ← cmd ["EXISTS"%rs; key];
  mret (match r with Integer n => 0 <? n | _ => false end).

(** [off as u64 + len as u64 - 1] cannot overflow. *)
Definition r_get_part (key : str) (off len : Z) : stm (rstate W) redis_err (option bytes) :=
  if len =? 0 then mret (Some [])
  else r ← cmd ["GETRANGE"%rs; key; show_u off; show_u (off + len - 1)]; mret (bulk_of r).

Definition r_set_part (key : str) (off : Z) (buf : bytes) : stm (rstate W) redis_err unit :=
  cmd ["SETRANGE"%rs; key; show_u off; buf];; mret tt.

Definition r_del (keys : list str) : stm (rstate W) redis_err unit :=
  if bool_decide (keys = []) then mret tt else cmd ("DEL"%rs :: keys);; mret tt.

(** The keys of one page: the UTF-8 ones of the subtree. *)
Definition page_item (prefix : str) (item : Resp) : option str :=
  match item with
  | Bulk (Some bytes) =>
      key ← from_utf8 bytes; if is_subtree_key prefix key then Some key else None
  | _ => None
  end.

Definition page_items (prefix : str) (r : Resp) : list str :=
  match r with Array items => omap (page_item prefix) items | _ => [] end.

Definition cursor_of (r : Resp) : Z :=
  match r with
  | Bulk (Some bytes) => default 0 (parse_s 64 (from_utf8_lossy bytes))
  | _ => 0
  end.

(** The loop of [scan_keys]; [pages] bounds the round trips, which the source does not. *)
Fixpoint scan_pages (pages : nat) (prefix : str) (keys : list str) (cursor : Z) :
  stm (rstate W) redis_err (list str) :=
  match pages with
  | O => lift (Panic Unfinished)
  | S pages =>
      r ← cmd ["SCAN"%rs; show_z cursor; "MATCH"%rs; scan_pattern prefix; "COUNT"%rs; "1000"%rs];
      match r with
      | Array [cur; items] =>
          let cursor := cursor_of cur in
          let keys := keys ++ page_items prefix items in
          if cursor =? 0 then mret keys else scan_pages pages prefix keys cursor
      | _ => mret keys
      end
  end.

Definition r_scan_keys (prefix : str) : stm (rstate W) redis_err (list str) :=
  scan_pages fuel prefix [] 0.

Definition r_flush : stm (rstate W) redis_err unit := cmd ["FLUSHDB"%rs];; mret tt.
End commands.

#[export] Instance redis_store (fuel : nat) : RemoteStore (rstate W) redis_err := {|
  rs_get := r_get fuel;
  rs_get_many := r_get_many fuel;
  rs_set := r_set fuel;
  rs_del := r_del fuel;
  rs_scan_keys := r_scan_keys fuel;
  rs_exists := r_exists fuel;
  rs_get_part := r_get_part fuel;
  rs_set_part := r_set_part fuel;
  rs_flush := r_flush fuel;
|}.
End store.

(** [connect]: the default address. *)
Definition redis_addr (addr : str) : str := if bool_decide (addr = []) then "127.0.0.1:6379"%rs else addr.
