(* ===== verification/RedisCodec.v ===== *)
(** * RESP replies on the wire

    The byte encoding a Redis server gives its replies, and that [read_resp] reads exactly one
    of them off the stream, whatever follows it. *)

From S2P Require Import Prelude RustInt RustStr RustText HeadLenPow KPath Store Remote Redis.
Local Open Scope Z_scope.

(** ** Encoding *)

Definition encode_line (kind : byte) (text : str) : bytes := kind :: text ++ CRLF.

Fixpoint encode_resp (r : Resp) : bytes :=
  match r with
  | Simple t => encode_line Byte.x2b t
  | RespError t => encode_line Byte.x2d t
  | Integer n => encode_line Byte.x3a (show_z n)
  | Bulk None => encode_line Byte.x24 "-1"%rs
  | Bulk (Some d) => encode_line Byte.x24 (show_z (Z.of_nat (length d))) ++ d ++ CRLF
  | Array l => encode_line Byte.x2a (show_z (Z.of_nat (length l))) ++ concat (map encode_resp l)
  end.

(** What a line can carry. *)
Definition line_text (t : str) : bool := utf8_valid t && bool_decide (NL ∉ t).

(** The replies a server can send: texts fit on a line and numbers in their type. *)
Fixpoint resp_ok (r : Resp) : bool :=
  match r with
  | Simple t | RespError t => line_text t
  | Integer n => (- 2 ^ 63 <=? n) && (n <? 2 ^ 63)
  | Bulk None => true
  | Bulk (Some d) => Z.of_nat (length d) <? 2 ^ 63
  | Array l => (Z.of_nat (length l) <? 2 ^ 63) && forallb resp_ok l
  end.

(** The fuel [read_resp] needs: it bounds every line and, at each level, the depth below. *)
Fixpoint resp_fuel (r : Resp) : nat :=
  match r with
  | Simple t | RespError t => length t + 4
  | Integer _ | Bulk _ => 30
  | Array l => S (foldr max 30%nat (map resp_fuel l))
  end.

Section ind.
Context (P : Resp → Prop).
Context (Hs : ∀ t, P (Simple t)) (He : ∀ t, P (RespError t)) (Hi : ∀ n, P (Integer n)).
Context (Hb : ∀ d, P (Bulk d)) (Ha : ∀ l, Forall P l → P (Array l)).

Fixpoint resp_ind' (r : Resp) : P r :=
  match r with
  | Simple t => Hs t
  | RespError t => He t
  | Integer n => Hi n
  | Bulk d => Hb d
  | Array l => Ha l ((fix go l := match l return Forall P l with
                                  | [] => Forall_nil_2 P
                                  | r :: l => Forall_cons_2 P r l (resp_ind' r) (go l)
                                  end) l)
  end.
End ind.

(** ** Numbers on a line *)

Lemma length_show_digits fuel x acc : (length (show_digits fuel x acc) <= fuel + length acc)%nat.
Proof.
  revert x acc. induction fuel as [|fuel IH]; intros x acc; cbn [show_digits]; [done|].
  destruct (x <? 10); [cbn; lia|]. etrans; [apply IH|]. cbn. lia.
Qed.

Lemma digits_ascii s : Forall (λ b, is_digit b = true) s → Forall (λ b, byte_val b < 128) s.
Proof. intros H. eapply Forall_impl; [exact H|]. unfold is_digit. cbv beta. lia. Qed.

Lemma show_z_text n :
  - 2 ^ 63 <= n < 2 ^ 63 → (NL ∉ show_z n) ∧ utf8_valid (show_z n) = true ∧ (length (show_z n) <= 22)%nat.
Proof.
  assert (2 ^ 63 = 9223372036854775808) as H63 by done. intros Hn. unfold show_z.
  assert (H : ∀ x, 0 <= x <= 2 ^ 63 → (NL ∉ show_u x) ∧ Forall (λ b, byte_val b < 128) (show_u x) ∧
                                     (length (show_u x) <= 21)%nat).
  { intros x Hx. split_and!; [apply show_u_notin; [lia|done]| |].
    - apply digits_ascii, show_u_spec. lia.
    - unfold show_u. etrans; [apply length_show_digits|]. done. }
  destruct (Z.ltb_spec n 0).
  - destruct (H (- n)) as (H1 & H2 & H3); [lia|]. split_and!.
    + apply not_elem_of_cons. by split.
    + apply utf8_valid_ascii. by constructor.
    + cbn [length]. lia.
  - destruct (H n) as (H1 & H2 & H3); [lia|]. split_and!; [done| |lia]. by apply utf8_valid_ascii.
Qed.

Lemma foldr_max_le (rs : list Resp) : (30 <= foldr max 30 (map resp_fuel rs))%nat.
Proof. induction rs; cbn; lia. Qed.

(** ** Reading from a stream *)

Section read.
Context {W : Type} (next : W → res redis_err (option byte) * W).

(** [P bs w]: the unread bytes of the world [w] start with [bs]; a read takes the first one. *)
Context (P : bytes → W → Prop).
Context (Pnext : ∀ b l w, P (b :: l) w → ∃ w', next w = (Ok (Some b), w') ∧ P l w').

Lemma read_exact_spec d : ∀ l w, P (d ++ l) w →
  ∃ w', read_exact next (length d) w = (Ok d, w') ∧ P l w'.
Proof.
  induction d as [|b d IH]; intros l w Hw; [by exists w|].
  destruct (Pnext _ _ _ Hw) as (w1 & Hn & Hw1). destruct (IH _ _ Hw1) as (w2 & Hr & Hw2).
  exists w2. split; [|done]. cbn [length read_exact]. by rewrite stm_bind_eq, Hn, stm_bind_eq, Hr.
Qed.

Lemma read_line_loop_spec fuel t : ∀ acc l w,
  NL ∉ t → P (t ++ NL :: l) w → (length t < fuel)%nat →
  ∃ w', read_line_loop next fuel acc w = (Ok (chop [CR] (chop [NL] (acc ++ t ++ [NL]))), w') ∧ P l w'.
Proof.
  revert fuel. induction t as [|b t IH]; intros fuel acc l w Ht Hw Hf;
    (destruct fuel as [|fuel]; [cbn in Hf; lia|]); cbn [app length] in *;
    destruct (Pnext _ _ _ Hw) as (w1 & Hn & Hw1); cbn [read_line_loop];
    rewrite stm_bind_eq, Hn; cbv zeta.
  - rewrite decide_True by done. by exists w1.
  - apply not_elem_of_cons in Ht as [Hb Ht]. rewrite decide_False by done.
    destruct (IH fuel (acc ++ [b]) l w1) as (w2 & Hr & Hw2); [done|done|lia|].
    exists w2. split; [|done]. rewrite Hr. by rewrite <-app_assoc.
Qed.

Lemma chop_suffix s x : chop s (x ++ s) = x.
Proof. unfold chop. by rewrite strip_suffix_app. Qed.

(** The text of a line sent with [\r\n] comes back. *)
Lemma read_line_spec fuel t l w :
  NL ∉ t → P (t ++ CRLF ++ l) w → (length t + 1 < fuel)%nat →
  ∃ w', read_line next fuel w = (Ok t, w') ∧ P l w'.
Proof.
  intros Ht Hw Hf.
  destruct (read_line_loop_spec fuel (t ++ [CR]) [] l w) as (w' & Hr & Hw').
  - rewrite not_elem_of_app. split; [done|decided].
  - rewrite <-app_assoc. exact Hw.
  - rewrite length_app. cbn. lia.
  - exists w'. split; [|done]. unfold read_line. rewrite Hr. cbn [app]. by rewrite !chop_suffix.
Qed.

Lemma resp_line fuel kind t l w :
  kind ≠ NL → NL ∉ t → P (encode_line kind t ++ l) w → (length t + 2 < fuel)%nat →
  ∃ w', read_line next fuel w = (Ok (kind :: t), w') ∧ P l w'.
Proof.
  intros Hk Ht Hw Hf. apply read_line_spec; [|by rewrite <-app_comm_cons, app_assoc|cbn; lia].
  apply not_elem_of_cons. by split.
Qed.

Lemma read_resp_array fuel (rs : list Resp) :
  Forall (λ r, resp_ok r = true → ∀ fuel l w, P (encode_resp r ++ l) w → (resp_fuel r <= fuel)%nat →
               ∃ w', read_resp next fuel w = (Ok r, w') ∧ P l w') rs →
  forallb resp_ok rs = true → ∀ l w, P (concat (map encode_resp rs) ++ l) w →
  (foldr max 30 (map resp_fuel rs) <= fuel)%nat →
  ∃ w', repeat_read (length rs) (read_resp next fuel) w = (Ok rs, w') ∧ P l w'.
Proof.
  induction 1 as [|r rs Hr _ IH]; intros Hok l w Hw Hf; [by exists w|].
  cbn [forallb map concat foldr length] in *. apply andb_true_iff in Hok as [Hok1 Hok2].
  rewrite <-app_assoc in Hw.
  destruct (Hr Hok1 fuel _ w Hw) as (w1 & H1 & Hw1); [lia|].
  destruct (IH Hok2 l w1 Hw1) as (w2 & H2 & Hw2); [lia|].
  exists w2. split; [|done]. cbn [repeat_read]. by rewrite stm_bind_eq, H1, stm_bind_eq, H2.
Qed.

(** One step of [read_resp]: the line, then what its first byte asks for. *)
Lemma read_resp_line fuel kind t l w :
  kind ≠ NL → NL ∉ t → P (encode_line kind t ++ l) w → (length t + 3 < fuel)%nat →
  ∃ w' deeper, fuel = S deeper ∧ P l w' ∧
    read_line next fuel w = (Ok (kind :: t), w').
Proof.
  intros Hk Ht Hw Hf. destruct (resp_line fuel kind t l w) as (w' & Hr & Hw'); [done..|lia|].
  destruct fuel as [|deeper]; [lia|]. by exists w', deeper.
Qed.

Lemma read_resp_spec (r : Resp) :
  resp_ok r = true → ∀ fuel l w, P (encode_resp r ++ l) w → (resp_fuel r <= fuel)%nat →
  ∃ w', read_resp next fuel w = (Ok r, w') ∧ P l w'.
Proof.
  induction r as [t|t|n|d|rs IH] using resp_ind'; intros Hok fuel l w Hw Hf;
    cbn [resp_ok resp_fuel encode_resp] in *.
  - apply andb_true_iff in Hok as [Hu Hnl%bool_decide_eq_true].
    destruct (read_resp_line fuel Byte.x2b t l w) as (w' & deeper & -> & Hw' & Hr); [done..|lia|].
    exists w'. split; [|done]. cbn [read_resp]. rewrite stm_bind_eq, Hr. cbv zeta. by rewrite lossy_valid.
  - apply andb_true_iff in Hok as [Hu Hnl%bool_decide_eq_true].
    destruct (read_resp_line fuel Byte.x2d t l w) as (w' & deeper & -> & Hw' & Hr); [done..|lia|].
    exists w'. split; [|done]. cbn [read_resp]. rewrite stm_bind_eq, Hr. cbv zeta. by rewrite lossy_valid.
  - pose proof (show_z_text n ltac:(lia)) as (Hnl & Hu & Hlen).
    destruct (read_resp_line fuel Byte.x3a (show_z n) l w) as (w' & deeper & -> & Hw' & Hr); [done..|lia|].
    exists w'. split; [|done]. cbn [read_resp]. rewrite stm_bind_eq, Hr. cbv zeta. rewrite lossy_valid by done.
    rewrite parse_show_s by (unfold in_s; lia). done.
  - destruct d as [d|].
    + pose proof (show_z_text (Z.of_nat (length d)) ltac:(lia)) as (Hnl & Hu & Hlen).
      rewrite <-!app_assoc in Hw.
      edestruct (read_resp_line fuel Byte.x24) as (w' & deeper & -> & Hw' & Hr);
        [| |exact Hw|lia|]; [done..|].
      destruct (read_exact_spec _ _ _ Hw') as (w1 & Hr1 & Hw1).
      destruct (read_exact_spec CRLF _ _ Hw1) as (w2 & Hr2 & Hw2).
      exists w2. split; [|done]. cbn [read_resp]. rewrite stm_bind_eq, Hr. cbv zeta.
      rewrite lossy_valid by done. rewrite parse_show_s by (unfold in_s; lia). cbn [from_option id].
      rewrite !decide_False by done. rewrite decide_True by done.
      destruct (Z.ltb_spec (Z.of_nat (length d)) 0); [lia|]. rewrite Nat2Z.id.
      rewrite stm_bind_eq, Hr1. change 2%nat with (length CRLF). by rewrite stm_bind_eq, Hr2.
    + destruct (read_resp_line fuel Byte.x24 "-1"%rs l w) as (w' & deeper & -> & Hw' & Hr);
        [done|decided|done|cbn; lia|].
      exists w'. split; [|done]. cbn [read_resp]. by rewrite stm_bind_eq, Hr.
  - apply andb_true_iff in Hok as [Hn Hok].
    pose proof (show_z_text (Z.of_nat (length rs)) ltac:(lia)) as (Hnl & Hu & Hlen).
    rewrite <-app_assoc in Hw.
    pose proof (foldr_max_le rs).
    edestruct (read_resp_line fuel Byte.x2a) as (w' & deeper & -> & Hw' & Hr);
      [| |exact Hw|lia|]; [done..|].
    destruct (read_resp_array deeper rs IH Hok l w' Hw') as (w1 & Hr1 & Hw1); [lia|].
    exists w1. split; [|done]. cbn [read_resp]. rewrite stm_bind_eq, Hr. cbv zeta.
    rewrite lossy_valid by done. rewrite parse_show_s by (unfold in_s; lia). cbn [from_option id].
    rewrite !decide_False by done. rewrite decide_True by done.
    destruct (Z.ltb_spec (Z.of_nat (length rs)) 0); [lia|]. rewrite Nat2Z.id.
    by rewrite stm_bind_eq, Hr1.
Qed.
End read.

(** ** Commands are replies too: arrays of bulk strings *)

Definition command_resp (args : list bytes) : Resp := Array ((λ a, Bulk (Some a)) <$> args).

Lemma show_z_of_nat n : show_z (Z.of_nat n) = show_u (Z.of_nat n).
Proof. unfold show_z. by destruct (Z.ltb_spec (Z.of_nat n) 0); [lia|]. Qed.

Lemma encode_command_resp args : encode_command args = encode_resp (command_resp args).
Proof.
  unfold encode_command, command_resp. cbn [encode_resp]. rewrite length_fmap, show_z_of_nat.
  unfold encode_line. rewrite <-app_comm_cons, <-app_assoc. do 3 f_equal.
  induction args as [|a args IH]; [done|]. cbn [fmap list_fmap map concat]. f_equal; [|exact IH].
  cbn [encode_resp]. unfold encode_arg, encode_line. rewrite show_z_of_nat. cbn [app].
  by rewrite <-!app_assoc.
Qed.

Lemma command_resp_fuel args : (resp_fuel (command_resp args) <= 31)%nat.
Proof.
  unfold command_resp. cbn [resp_fuel]. apply le_n_S.
  induction args as [|a args IH]; [done|]. cbn [fmap list_fmap map foldr resp_fuel] in *. lia.
Qed.

Definition small_args (args : list bytes) : bool :=
  (Z.of_nat (length args) <? 2 ^ 63) && forallb (λ a, Z.of_nat (length a) <? 2 ^ 63) args.

Lemma command_resp_ok args : resp_ok (command_resp args) = small_args args.
Proof.
  unfold command_resp, small_args. cbn [resp_ok]. rewrite length_fmap. f_equal.
  induction args as [|a args IH]; [done|]. cbn [fmap list_fmap forallb]. by rewrite IH.
Qed.

(** ** Properties *)

(** A stream that holds the bytes [w] and then ends. *)
Definition next_byte (w : bytes) : res redis_err (option byte) * bytes :=
  match w with [] => (Ok None, []) | b :: w => (Ok (Some b), w) end.

(** C29. The client reads exactly one reply: for every reply a server can send, of any nesting,
    with any bytes in its bulk strings, [read_resp] on its encoding followed by anything returns
    that reply and leaves precisely what followed, so the next command starts aligned.  The
    commands the client writes are encodings of this kind themselves, so the same reading
    recovers their arguments, whatever bytes those hold. *)
Theorem read_resp_exact (r : Resp) (args : list bytes) (rest : bytes) :
  (resp_ok r = true → ∀ fuel, (resp_fuel r <= fuel)%nat →
     read_resp next_byte fuel (encode_resp r ++ rest) = (Ok r, rest)) ∧
  (small_args args = true → ∀ fuel, (31 <= fuel)%nat →
     read_resp next_byte fuel (encode_command args ++ rest) =
     (Ok (Array ((λ a, Bulk (Some a)) <$> args)), rest)).
Proof.
  assert (H : ∀ r, resp_ok r = true → ∀ fuel, (resp_fuel r <= fuel)%nat →
    read_resp next_byte fuel (encode_resp r ++ rest) = (Ok r, rest)).
  { intros q Hq fuel Hf.
    destruct (read_resp_spec next_byte (λ bs w, w = bs)) with (r := q) (fuel := fuel) (l := rest)
      (w := encode_resp q ++ rest) as (w' & -> & ->); try done.
    intros b l w ->. by exists l. }
  split; [apply H|]. intros Hargs fuel Hf. rewrite encode_command_resp. apply (H (command_resp args)).
  - by rewrite command_resp_ok.
  - etrans; [apply command_resp_fuel|exact Hf].
Qed.

Lemma read_resp_exact_witness :
  read_resp next_byte 40 (encode_resp (Array [Bulk None; Bulk (Some [NL; CR; NL]); Integer (-7)]) ++ "+next"%rs) =
  (Ok (Array [Bulk None; Bulk (Some [NL; CR; NL]); Integer (-7)]), "+next"%rs).
Proof.
  apply (read_resp_exact (Array [Bulk None; Bulk (Some [NL; CR; NL]); Integer (-7)]) [] "+next"%rs);
    [done|]. by apply Nat.leb_le.
Defined.
