(* ===== verification/RedisApi.v ===== *)
(** * What a Redis server promises

    The commands the store uses, as the Redis documentation describes them, and the laws of a
    server that answers them: hypotheses on the network parameters of [Redis].  With them, a
    reference server that has the laws. *)

From S2P Require Import Prelude RustInt RustStr RustText HeadLenPow KPath Store Remote Redis RedisCodec.
Local Open Scope Z_scope.

(** ** The commands *)

Section exec.
(** [scan m pattern cursor]: the keys and the next cursor of one round of an iteration.  A cursor
    is an unsigned 64-bit number. *)
Context (scan : mem → bytes → Z → list str * Z).

Definition resp_keys (ks : list str) : Resp := Array ((λ k, Bulk (Some k)) <$> ks).

Definition ok : Resp := Simple "OK"%rs.

(** The reply to a command and the database it leaves; nothing is promised of other commands,
    of a range out of order or of a write past the end of a value. *)
Definition redis_exec (m : mem) (args : list bytes) : option (Resp * mem) :=
  match args with
  | [] => None
  | name :: args =>
      if decide (name = "GET"%rs) then
        match args with [k] => Some (Bulk (m !! k), m) | _ => None end
      else if decide (name = "MGET"%rs) then Some (Array ((λ k, Bulk (m !! k)) <$> args), m)
      else if decide (name = "SET"%rs) then
        match args with [k; v] => Some (ok, <[k := v]> m) | _ => None end
      else if decide (name = "EXISTS"%rs) then
        match args with [k] => Some (Integer (if decide (is_Some (m !! k)) then 1 else 0), m) | _ => None end
      else if decide (name = "GETRANGE"%rs) then
        match args with
        | [k; a; b] =>
            a ← parse_s 64 a; b ← parse_s 64 b;
            if (0 <=? a) && (a <=? b) then
              let v := default [] (m !! k) in
              let n := Z.of_nat (length v) in
              Some (Bulk (Some (slice (Z.min a n) (Z.min (b + 1) n) v)), m)
            else None
        | _ => None
        end
      else if decide (name = "SETRANGE"%rs) then
        match args with
        | [k; off; buf] =>
            off ← parse_u 32 off; v ← m !! k;
            if off + Z.of_nat (length buf) <=? Z.of_nat (length v) then
              Some (Integer (Z.of_nat (length v)), <[k := splice (Z.to_nat off) buf v]> m)
            else None
        | _ => None
        end
      else if decide (name = "DEL"%rs) then
        Some (Integer (Z.of_nat (size m) - Z.of_nat (size (delete_keys args m))), delete_keys args m)
      else if decide (name = "SCAN"%rs) then
        match args with
        | [cur; match_; pattern; count; _] =>
            cur ← parse_u 64 cur;
            if decide (match_ = "MATCH"%rs ∧ count = "COUNT"%rs) then
              let '(ks, next) := scan m pattern cur in
              Some (Array [Bulk (Some (show_u next)); resp_keys ks], m)
            else None
        | _ => None
        end
      else if decide (name = "FLUSHDB"%rs) then
        match args with [] => Some (ok, ∅) | _ => None end
      else None
  end.

(** ** Iterations *)

(** [scan_chain m pattern n c ks]: the iteration from the cursor [c] ends after [n] rounds and
    returns [ks]. *)
Inductive scan_chain (m : mem) (pattern : bytes) : nat → Z → list str → Prop :=
  | chain_last c ks :
      scan m pattern c = (ks, 0) → Z.of_nat (length ks) < 2 ^ 63 → scan_chain m pattern 1 c ks
  | chain_more n c ks c' ks' :
      scan m pattern c = (ks, c') → Z.of_nat (length ks) < 2 ^ 63 → 0 < c' < 2 ^ 64 →
      scan_chain m pattern n c' ks' → scan_chain m pattern (S n) c (ks ++ ks').

(** No cursor of the iteration from [c] needs the top bit.  The server promises nothing of the
    kind; the store reads cursors as signed numbers and relies on it. *)
Definition cursors_fit (m : mem) (pattern : bytes) (c : Z) : Prop :=
  ∀ j : nat, Nat.iter j (λ c, (scan m pattern c).2) c < 2 ^ 63.

Lemma cursors_fit_next m pattern c : cursors_fit m pattern c → cursors_fit m pattern (scan m pattern c).2.
Proof. intros Hc j. specialize (Hc (S j)). by rewrite Nat.iter_succ_r in Hc. Qed.

(** [glob_prefix pattern p]: the pattern is the text [p], its special characters escaped,
    followed by a star. *)
Inductive glob_prefix : bytes → bytes → Prop :=
  | glob_star : glob_prefix [Byte.x2a] []
  | glob_plain b pattern p :
      b ∉ [Byte.x2a; Byte.x3f; Byte.x5b; Byte.x5d; Byte.x5c] →
      glob_prefix pattern p → glob_prefix (b :: pattern) (b :: p)
  | glob_escaped b pattern p : glob_prefix pattern p → glob_prefix (Byte.x5c :: b :: pattern) (b :: p).

(** The sizes Redis is built for: strings up to 512 MB, up to 2^32 keys. *)
Record small_db (m : mem) : Prop := {
  small_size : Z.of_nat (size m) < 2 ^ 32;
  small_entry k v : m !! k = Some v → Z.of_nat (length k) <= 2 ^ 29 ∧ Z.of_nat (length v) <= 2 ^ 29;
}.

(** A full iteration returns every key of the database that matches, possibly several times,
    and only keys of the database. *)
Definition scan_complete : Prop := ∀ m pattern p, small_db m → glob_prefix pattern p →
  ∃ n ks, scan_chain m pattern n 0 ks ∧ (∀ k, k ∈ ks → is_Some (m !! k)) ∧
    ∀ k, starts_with p k = true → is_Some (m !! k) → k ∈ ks.

(** ** The server *)

Section server.
Context {W : Type}.
Context (tcp_connect : str → W → res redis_err unit * W).
Context (tcp_option : sockopt → W → res redis_err unit * W).
Context (tcp_write : bytes → W → res redis_err unit * W).
Context (tcp_next : W → res redis_err (option byte) * W).

(** [db w] is the database and [pending w] what the client has not read of the replies. *)
Record redis_server (db : W → mem) (pending : W → bytes) : Prop := {
  rsrv_connect addr w : ∃ w', tcp_connect addr w = (Ok tt, w') ∧ db w' = db w ∧ pending w' = [];
  rsrv_option o w : ∃ w', tcp_option o w = (Ok tt, w') ∧ db w' = db w ∧ pending w' = pending w;
  rsrv_write args r m w :
    pending w = [] → small_args args = true → redis_exec (db w) args = Some (r, m) → resp_ok r = true →
    ∃ w', tcp_write (encode_command args) w = (Ok tt, w') ∧ db w' = m ∧ pending w' = encode_resp r;
  rsrv_next b l w :
    pending w = b :: l → ∃ w', tcp_next w = (Ok (Some b), w') ∧ db w' = db w ∧ pending w' = l;
  rsrv_scan : scan_complete;
}.
End server.
End exec.

(** ** A reference server *)

Module Reference.
Record server := mkServer { s_db : mem; s_pending : bytes }.

(** The first key in the first round, the others in the second, at the cursor [next]; the pattern
    is left to the client, which filters again. *)
Definition rounds_at (next : Z) (m : mem) (pattern : bytes) (cursor : Z) : list str * Z :=
  let ks := (map_to_list m).*1 in
  if cursor =? 0 then (take 1 ks, if bool_decide (length ks <= 1)%nat then 0 else next) else (drop 1 ks, 0).
Definition two_rounds := rounds_at 1.

Definition accept (_ : str) (w : server) : res redis_err unit * server := (Ok tt, mkServer (s_db w) []).
Definition set_option (_ : sockopt) (w : server) : res redis_err unit * server := (Ok tt, w).

(** It reads a command with the same codec and appends its reply. *)
Definition receive_with (scan : mem → bytes → Z → list str * Z) (msg : bytes) (w : server) : res redis_err unit * server :=
  match read_resp next_byte 31 msg with
  | (Ok (Array items), []) =>
      match redis_exec scan (s_db w) (default [] ∘ bulk_of <$> items) with
      | Some (r, m) => (Ok tt, mkServer m (s_pending w ++ encode_resp r))
      | None => (Ok tt, mkServer (s_db w) (s_pending w ++ encode_resp (RespError "ERR"%rs)))
      end
  | _ => (Err (NetError "reset"%rs), w)
  end.

Definition receive := receive_with two_rounds.

Definition send_byte (w : server) : res redis_err (option byte) * server :=
  match s_pending w with
  | [] => (Err (NetError "timed out"%rs), w)
  | b :: l => (Ok (Some b), mkServer (s_db w) l)
  end.

Lemma rounds_at_complete next : 0 < next < 2 ^ 64 → scan_complete (rounds_at next).
Proof.
  intros Hnext m pattern p Hm _. set (ks := (map_to_list m).*1).
  assert (Hks : ∀ k, k ∈ ks ↔ is_Some (m !! k)).
  { intros k. unfold ks. rewrite list_elem_of_fmap. split.
    - intros ([k' v] & -> & Hin). apply elem_of_map_to_list in Hin. by exists v.
    - intros [v Hv]. exists (k, v). by rewrite elem_of_map_to_list. }
  assert (Hlen : Z.of_nat (length ks) < 2 ^ 63).
  { unfold ks. rewrite length_fmap, length_map_to_list. pose proof (small_size m Hm). lia. }
  assert (∃ n, scan_chain (rounds_at next) m pattern n 0 ks) as [n Hn].
  { destruct (decide (length ks <= 1)%nat) as [Hle|Hgt].
    - exists 1%nat. apply chain_last; [|done]. unfold rounds_at. fold ks. cbn.
      rewrite bool_decide_true by done. by rewrite take_ge.
    - exists 2%nat. rewrite <-(take_drop 1 ks). apply (chain_more _ _ _ _ _ _ next).
      + unfold rounds_at. fold ks. cbn. by rewrite bool_decide_false.
      + rewrite length_take. lia.
      + lia.
      + apply chain_last; [|rewrite length_drop; lia]. unfold rounds_at. by destruct (Z.eqb_spec next 0); [lia|]. }
  exists n, ks. split_and!; [done|apply Hks|]. intros k _. apply Hks.
Qed.

Lemma reference_laws_with scan :
  scan_complete scan → redis_server scan accept set_option (receive_with scan) send_byte s_db s_pending.
Proof.
  intros Hscan. split.
  - intros addr w. by eexists.
  - intros o w. by eexists.
  - intros args r m w Hp Hargs Hexec Hr. unfold receive_with.
    assert (read_resp next_byte 31 (encode_command args) = (Ok (command_resp args), [])) as ->.
    { destruct (read_resp_spec next_byte (λ bs w, w = bs)) with (r := command_resp args) (fuel := 31%nat)
        (l := @nil byte) (w := encode_command args) as (w' & -> & ->); try done.
      - intros b l x ->. by exists l.
      - by rewrite command_resp_ok.
      - by rewrite encode_command_resp, app_nil_r.
      - apply command_resp_fuel. }
    unfold command_resp. cbv iota. rewrite <-list_fmap_compose.
    assert (((default [] ∘ bulk_of) ∘ (λ a, Bulk (Some a))) <$> args = args) as ->.
    { clear. induction args as [|a args IH]; [done|]. cbn. f_equal. exact IH. }
    rewrite Hexec, Hp. by eexists.
  - intros b l w Hp. unfold send_byte. rewrite Hp. by eexists.
  - exact Hscan.
Qed.

Lemma reference_laws : redis_server two_rounds accept set_option receive send_byte s_db s_pending.
Proof. by apply reference_laws_with, rounds_at_complete. Qed.

Lemma two_rounds_fit m pattern : cursors_fit two_rounds m pattern 0.
Proof.
  intros j. set (f := λ c, (two_rounds m pattern c).2).
  assert (Nat.iter j f 0 = 0 ∨ Nat.iter j f 0 = 1) as [-> | ->]; [|done..].
  induction j as [|j IH]; [by left|]. cbn [Nat.iter nat_rect]. unfold f at 1 3, two_rounds, rounds_at.
  destruct (_ =? 0); cbn [snd]; [|by left]. destruct (bool_decide _); [by left|by right].
Qed.
End Reference.
