(* ===== verification/RedisRefines.v ===== *)
(** * The Redis store refines the reference store

    Over a server with the laws of [RedisApi], every call of the [KVStore] methods returns what
    the reference store returns, and leaves no byte of a reply unread. *)

From S2P Require Import Prelude RustInt RustStr RustText HeadLenPow KPath Store Remote Redis RedisCodec RedisApi.
Local Open Scope Z_scope.

(** ** The calls that are covered *)

(** The database fits in Redis and its keys are texts. *)
Record text_db (m : mem) : Prop := {
  text_small : small_db m;
  text_keys k : is_Some (m !! k) → utf8_valid k = true;
}.

(** The arguments fit in a command and the call leaves a database that fits; a part lies inside
    an existing value.  A scan is covered when the cursors the server returns for it stay below
    2^63; the other calls do not depend on [scan]. *)
Definition r_call (scan : mem → bytes → Z → list str * Z) (m : mem) (o : kvop) : Prop :=
  text_db m ∧ text_db (pure_op o m).2 ∧
  match o with
  | OGet k | OExists k => Z.of_nat (length k) <= 2 ^ 29
  | OGetMany ks | ODel ks =>
      Z.of_nat (length ks) < 2 ^ 20 ∧ Forall (λ k, Z.of_nat (length k) <= 2 ^ 29) ks
  | OScan p => Z.of_nat (length p) <= 2 ^ 29 ∧ cursors_fit scan m (scan_pattern p) 0
  | OGetPart k off len =>
      ∃ v, m !! k = Some v ∧ 0 <= off ∧ 0 <= len ∧ off < 2 ^ 32 ∧ len < 2 ^ 32
  | OSetPart k off buf =>
      ∃ v, m !! k = Some v ∧ 0 <= off ∧ off < 2 ^ 32 ∧ off + Z.of_nat (length buf) <= Z.of_nat (length v)
  | OSet _ _ | OFlush => True
  end.

Section refines.
Context (scan : mem → bytes → Z → list str * Z) {W : Type}.
Context (tcp_connect : str → W → res redis_err unit * W).
Context (tcp_option : sockopt → W → res redis_err unit * W).
Context (tcp_write : bytes → W → res redis_err unit * W).
Context (tcp_next : W → res redis_err (option byte) * W).
Context (addr : str) (db : W → mem) (pending : W → bytes).
Context (Hsrv : redis_server scan tcp_connect tcp_option tcp_write tcp_next db pending).

(** The store's state against the database: a connection, if there is one, is aligned. *)
Definition r_view (m : mem) (s : rstate W) : Prop :=
  db (net s) = m ∧ (connected s = true → pending (net s) = []).

#[local] Abbreviation command := (cmd tcp_connect tcp_option tcp_write tcp_next addr).

Lemma open_conn_ok w :
  ∃ w', open_conn tcp_connect tcp_option addr w = (Ok tt, w') ∧ db w' = db w ∧ pending w' = [].
Proof.
  destruct (rsrv_connect _ _ _ _ _ _ _ Hsrv addr w) as (w1 & H1 & Hd1 & Hp1).
  destruct (rsrv_option _ _ _ _ _ _ _ Hsrv (ReadTimeout 3) w1) as (w2 & H2 & Hd2 & Hp2).
  destruct (rsrv_option _ _ _ _ _ _ _ Hsrv (WriteTimeout 3) w2) as (w3 & H3 & Hd3 & Hp3).
  destruct (rsrv_option _ _ _ _ _ _ _ Hsrv NoDelay w3) as (w4 & H4 & Hd4 & Hp4).
  exists w4. unfold open_conn. rewrite stm_bind_eq, H1, stm_bind_eq, H2, stm_bind_eq, H3, H4.
  split_and!; congruence.
Qed.

(** The world after the client has read [bs]. *)
Fixpoint drain (bs : bytes) (w : W) : W :=
  match bs with [] => w | _ :: bs => drain bs (snd (tcp_next w)) end.

Lemma drain_app a b w : drain (a ++ b) w = drain b (drain a w).
Proof. revert w. induction a as [|x a IH]; intros w; [done|]. apply IH. Qed.

Lemma drain_next w : ∀ l, pending w = l →
  db (drain l w) = db w ∧ pending (drain l w) = [].
Proof.
  intros l. revert w. induction l as [|b l IH]; intros w Hp; [done|].
  destruct (rsrv_next _ _ _ _ _ _ _ Hsrv b l w Hp) as (w' & Hn & Hd & Hl). cbn [drain]. rewrite Hn.
  cbn [snd]. rewrite <-Hd. by apply IH.
Qed.

(** Reading the reply that is pending. *)
Lemma read_pending r w fuel :
  pending w = encode_resp r → resp_ok r = true → (resp_fuel r <= fuel)%nat →
  read_resp tcp_next fuel w = (Ok r, drain (encode_resp r) w).
Proof.
  intros Hp Hr Hf.
  destruct (read_resp_spec tcp_next (λ l w', pending w' = l ∧ ∃ a, pending w = a ++ l ∧ w' = drain a w))
    with (r := r) (fuel := fuel) (l := @nil byte) (w := w) as (w' & -> & _ & a & Ha & ->); try done.
  - intros b l w' (Hl & a & Ha & ->).
    destruct (rsrv_next _ _ _ _ _ _ _ Hsrv b l _ Hl) as (w2 & Hn & _ & Hl2). exists w2. split; [done|].
    split; [done|]. exists (a ++ [b]). rewrite <-app_assoc. split; [done|].
    rewrite drain_app. cbn [drain]. by rewrite Hn.
  - rewrite app_nil_r. split; [done|]. by exists [].
  - rewrite app_nil_r in Ha. by rewrite <-Hp, Ha.
Qed.

(** ** One command *)

Definition is_error (r : Resp) : bool := match r with RespError _ => true | _ => false end.

Lemma cmd_ok m s args r m' :
  r_view m s → redis_exec scan m args = Some (r, m') → small_args args = true → resp_ok r = true →
  is_error r = false →
  ∃ s', r_view m' s' ∧ ∀ fuel, (resp_fuel r <= fuel)%nat → command fuel args s = (Ok r, s').
Proof.
  intros [Hdb Hal] Hexec Hargs Hr Herr.
  assert (∃ w1, db w1 = m ∧ pending w1 = [] ∧ ∀ (f : unit → stm (rstate W) redis_err Resp),
    ((if connected s then mret tt
      else on_net (open_conn tcp_connect tcp_option addr);; modify (λ s, mkR true (net s))) ≫= f) s =
    f tt (mkR true w1)) as (w1 & Hdb1 & Hp1 & Hopen).
  { destruct s as [[] w]; cbn [connected net] in *.
    - exists w. split_and!; [done|by apply Hal|done].
    - destruct (open_conn_ok w) as (w1 & Ho & Hd & Hp). exists w1. split_and!; [congruence|done|].
      intros f. rewrite !stm_bind_eq. unfold on_net. cbn [net connected]. by rewrite Ho. }
  rewrite <-Hdb1 in Hexec.
  destruct (rsrv_write _ _ _ _ _ _ _ Hsrv args r m' w1 Hp1 Hargs Hexec Hr) as (w2 & Hw & Hdb2 & Hp2).
  destruct (drain_next w2 _ Hp2) as [Hdb3 Hp3].
  exists (mkR true (drain (encode_resp r) w2)). split; [split; [cbn; congruence|done]|].
  intros fuel Hf. unfold cmd, round_trip. rewrite bind_gets, Hopen, stm_bind_eq. unfold on_net.
  cbn [net connected]. rewrite Hw. cbn [net connected]. rewrite (read_pending r) by done.
  by destruct r.
Qed.

(** ** The replies fit on the wire *)

Lemma bulk_ok m k : text_db m → resp_ok (Bulk (m !! k)) = true.
Proof.
  intros Hm. destruct (m !! k) as [v|] eqn:E; [|done]. cbn [resp_ok].
  apply (small_entry m (text_small m Hm)) in E. lia.
Qed.

Lemma bulks_ok m ks : text_db m → forallb resp_ok ((λ k, Bulk (m !! k)) <$> ks) = true.
Proof. intros Hm. induction ks as [|k ks IH]; [done|]. cbn [fmap list_fmap forallb]. by rewrite IH, bulk_ok. Qed.

Lemma small_args_cons a args :
  Z.of_nat (length a) <= 2 ^ 29 → Z.of_nat (length args) < 2 ^ 20 →
  Forall (λ a, Z.of_nat (length a) <= 2 ^ 29) args → small_args (a :: args) = true.
Proof.
  intros Ha Hlen Hargs. unfold small_args. cbn [length forallb].
  apply andb_true_iff. split; [apply Z.ltb_lt; lia|]. apply andb_true_iff. split; [apply Z.ltb_lt; lia|].
  clear Hlen. induction Hargs as [|x l Hx _ IH]; [done|]. cbn [forallb]. rewrite IH, andb_true_r.
  apply Z.ltb_lt. lia.
Qed.

Lemma short_number x : 0 <= x < 10 ^ 20 → Z.of_nat (length (show_u x)) <= 2 ^ 29.
Proof.
  intros Hx. pose proof (length_show_digits 21 x []) as H. unfold show_u. cbn [length] in H. lia.
Qed.

Lemma parse_s_show_u x : 0 <= x < 2 ^ 63 → parse_s 64 (show_u x) = Some x.
Proof.
  intros Hx. rewrite <-(Z2Nat.id x) by lia. rewrite <-show_z_of_nat.
  apply parse_show_s; [lia|]. unfold in_s. lia.
Qed.

(** ** Scanning *)

Lemma scan_pattern_glob p : glob_prefix (scan_pattern p) (if bool_decide (p = []) then "/"%rs else p).
Proof.
  unfold scan_pattern. cbv zeta. generalize (if bool_decide (p = []) then "/"%rs else p). intros l.
  induction l as [|b l IH]; [constructor|]. cbn [fmap list_fmap concat]. rewrite <-app_assoc.
  unfold glob_escape. destruct (glob_special b) eqn:E; cbn [app].
  - by apply glob_escaped.
  - apply glob_plain; [|exact IH]. unfold glob_special in E. by apply bool_decide_eq_false in E.
Qed.

Lemma subtree_starts p k :
  is_subtree_key p k = true → starts_with (if bool_decide (p = []) then "/"%rs else p) k = true.
Proof.
  intros H. case_bool_decide as Hp; [by subst|].
  destruct (decide (p = "/"%rs)) as [->|Hp']; [done|].
  apply is_subtree_key_rest in H as (r & -> & _); [|done..]. apply starts_with_app.
Qed.

Lemma page_items_keys p ks :
  Forall (λ k, utf8_valid k = true) ks →
  page_items p (resp_keys ks) = filter (λ k, is_subtree_key p k = true) ks.
Proof.
  induction 1 as [|k ks Hk _ IH]; [done|]. cbn [resp_keys page_items fmap list_fmap omap list_omap] in *.
  unfold page_item at 1. unfold from_utf8. rewrite Hk. cbn [mbind option_bind].
  rewrite filter_cons. destruct (is_subtree_key p k) eqn:E.
  - rewrite decide_True by done. f_equal. exact IH.
  - rewrite decide_False by done. exact IH.
Qed.

Lemma cursor_of_show c : 0 <= c < 2 ^ 63 → cursor_of (Bulk (Some (show_u c))) = c.
Proof.
  intros Hc. unfold cursor_of. destruct (show_z_text c ltac:(lia)) as (_ & Hu & _).
  assert (show_z c = show_u c) as E by (unfold show_z; by destruct (Z.ltb_spec c 0); [lia|]).
  rewrite E in Hu. rewrite lossy_valid, parse_s_show_u by done. done.
Qed.

Lemma pattern_short p : (length (scan_pattern p) <= 2 * length p + 3)%nat.
Proof.
  unfold scan_pattern. cbv zeta. rewrite length_app. cbn [length].
  assert (∀ l, length (concat (glob_escape <$> l)) <= 2 * length l)%nat as H.
  { induction l as [|b l IH]; [done|]. cbn [fmap list_fmap concat length]. rewrite length_app.
    unfold glob_escape at 1. destruct (glob_special b); cbn [length]; lia. }
  etrans; [apply Nat.add_le_mono_r, H|]. case_bool_decide; subst; cbn; lia.
Qed.

Definition scan_args (p : str) (c : Z) : list bytes :=
  ["SCAN"%rs; show_z c; "MATCH"%rs; scan_pattern p; "COUNT"%rs; "1000"%rs].

Lemma scan_exec m p c ks next :
  0 <= c < 2 ^ 64 → scan m (scan_pattern p) c = (ks, next) →
  redis_exec scan m (scan_args p c) = Some (Array [Bulk (Some (show_u next)); resp_keys ks], m).
Proof.
  intros Hc Hs. unfold redis_exec, scan_args.
  do 7 (rewrite decide_False by discriminate). rewrite decide_True by done.
  assert (show_z c = show_u c) as -> by (unfold show_z; by destruct (Z.ltb_spec c 0); [lia|]).
  rewrite parse_show_u by (unfold in_u; lia). cbn [mbind option_bind]. rewrite decide_True by done.
  by rewrite Hs.
Qed.

Lemma scan_reply_ok m ks next :
  text_db m → (∀ k, k ∈ ks → is_Some (m !! k)) → Z.of_nat (length ks) < 2 ^ 63 → 0 <= next < 2 ^ 63 →
  resp_ok (Array [Bulk (Some (show_u next)); resp_keys ks]) = true.
Proof.
  intros Hm Hks Hlen Hn. cbn [resp_ok forallb length resp_keys]. rewrite length_fmap.
  pose proof (short_number next ltac:(lia)).
  assert (forallb resp_ok ((λ k, Bulk (Some k)) <$> ks) = true) as ->;
    [|rewrite !andb_true_iff, !Z.ltb_lt; split_and!; done || lia].
  induction ks as [|k ks IH]; [done|]. cbn [fmap list_fmap forallb resp_ok].
  destruct (Hks k ltac:(by left)) as [v Hv]. apply (small_entry m (text_small m Hm)) in Hv.
  rewrite IH, andb_true_r, Z.ltb_lt; [lia|set_solver|cbn [length] in Hlen; lia].
Qed.

Lemma scan_small p c : 0 <= c < 2 ^ 63 → Z.of_nat (length p) <= 2 ^ 29 → small_args (scan_args p c) = true.
Proof.
  intros Hc Hp. pose proof (pattern_short p).
  assert (show_z c = show_u c) as E by (unfold show_z; by destruct (Z.ltb_spec c 0); [lia|]).
  pose proof (short_number c ltac:(lia)) as H0. rewrite <-E in H0.
  unfold small_args, scan_args. cbn [length forallb]. rewrite !andb_true_iff.
  rewrite !Z.ltb_lt. split_and!; done || lia.
Qed.

Lemma scan_pages_chain m p n c ks :
  text_db m → Z.of_nat (length p) <= 2 ^ 29 → scan_chain scan m (scan_pattern p) n c ks →
  0 <= c → cursors_fit scan m (scan_pattern p) c → (∀ k, k ∈ ks → is_Some (m !! k)) →
  ∀ s keys, r_view m s → ∃ s' N, r_view m s' ∧ ∀ fuel pages, (N <= fuel)%nat → (n <= pages)%nat →
    scan_pages tcp_connect tcp_option tcp_write tcp_next addr fuel pages p keys c s =
    (Ok (keys ++ filter (λ k, is_subtree_key p k = true) ks), s').
Proof.
  intros Hm Hp Hchain. induction Hchain as [c ks Hs Hlen|n c ks c' ks' Hs Hlen Hc' Hchain IH];
    intros Hc0 Hfit Hks s keys Hv;
    (assert (Hc : 0 <= c < 2 ^ 63) by (split; [done|apply (Hfit O)])).
  - destruct (cmd_ok m s (scan_args p c) _ m Hv (scan_exec m p c ks 0 ltac:(lia) Hs) (scan_small p c Hc Hp))
      as (s1 & Hv1 & Hcmd); [by apply (scan_reply_ok m)|done|].
    exists s1, (resp_fuel (Array [Bulk (Some (show_u 0)); resp_keys ks])). split; [done|].
    intros fuel [|pages] Hf Hpg; [lia|]. cbn [scan_pages]. fold (scan_args p c).
    rewrite stm_bind_eq, Hcmd by done. cbv zeta. rewrite cursor_of_show by lia.
    rewrite page_items_keys; [done|]. apply Forall_forall. intros k Hk. by apply (text_keys m Hm), Hks.
  - pose proof (cursors_fit_next _ _ _ _ Hfit) as Hfit'. rewrite Hs in Hfit'. cbn [snd] in Hfit'.
    pose proof (Hfit' O : c' < 2 ^ 63) as Hlt.
    destruct (cmd_ok m s (scan_args p c) _ m Hv (scan_exec m p c ks c' ltac:(lia) Hs) (scan_small p c Hc Hp))
      as (s1 & Hv1 & Hcmd).
    { apply (scan_reply_ok m); [done| |done|lia]. intros k Hk. apply Hks. set_solver. }
    { done. }
    destruct (IH ltac:(lia) Hfit' ltac:(set_solver) s1 (keys ++ filter (λ k, is_subtree_key p k = true) ks) Hv1)
      as (s2 & N & Hv2 & Hrun).
    exists s2, (max N (resp_fuel (Array [Bulk (Some (show_u c')); resp_keys ks]))). split; [done|].
    intros fuel [|pages] Hf Hpg; [lia|]. cbn [scan_pages]. fold (scan_args p c).
    rewrite stm_bind_eq, Hcmd by lia. cbv zeta. rewrite cursor_of_show by lia.
    destruct (Z.eqb_spec c' 0); [lia|].
    rewrite page_items_keys by (apply Forall_forall; intros k Hk; apply (text_keys m Hm), Hks; set_solver).
    rewrite Hrun by lia. by rewrite filter_app, app_assoc.
Qed.

(** ** The methods *)

#[local] Abbreviation I := (redis_store tcp_connect tcp_option tcp_write tcp_next addr).

(** A method that sends one command and answers with [f] of its reply. *)
Lemma one_command (o : kvop) m s args r m' (f : Resp → kvreply) :
  r_view m s → redis_exec scan m args = Some (r, m') → small_args args = true → resp_ok r = true →
  is_error r = false →
  (∀ n, run_op (H := I n) o s = (x ← command n args; mret (f x)) s) →
  f r ≡ (pure_op o m).1 → m' = (pure_op o m).2 →
  ∃ (N : nat) y s', (∀ n, (N <= n)%nat → run_op (H := I n) o s = (Ok y, s')) ∧
    y ≡ (pure_op o m).1 ∧ r_view (pure_op o m).2 s'.
Proof.
  intros Hv Hexec Hargs Hr Herr Hrun Hf ->.
  destruct (cmd_ok _ _ _ _ _ Hv Hexec Hargs Hr Herr) as (s' & Hv' & Hcmd).
  exists (resp_fuel r), (f r), s'. split_and!; [|done..].
  intros n Hn. rewrite Hrun, stm_bind_eq, Hcmd by done. done.
Qed.

Lemma bind_assoc_ret {S E A B C} (m : stm S E A) (f : A → B) (g : B → C) s :
  ((x ← m; mret (f x)) ≫= λ y, mret (g y)) s = (x ← m; mret (g (f x))) s.
Proof. unfold mbind, stm_bind. by destruct (m s) as [[a|e|e] s']. Qed.

Lemma small_key m k v : text_db m → m !! k = Some v → Z.of_nat (length k) <= 2 ^ 29.
Proof. intros Hm Hv. apply (small_entry m (text_small m Hm) k v Hv). Qed.

Lemma range_exec m k v off len :
  m !! k = Some v → 0 <= off → 0 < len → off < 2 ^ 32 → len < 2 ^ 32 →
  redis_exec scan m ["GETRANGE"%rs; k; show_u off; show_u (off + len - 1)] =
  Some (Bulk (Some (clamp_part off len v)), m).
Proof.
  intros Hv H1 H2 H3 H4. unfold redis_exec.
  do 4 (rewrite decide_False by discriminate). rewrite decide_True by done.
  rewrite !parse_s_show_u by lia. cbn [mbind option_bind].
  destruct ((0 <=? off) && (off <=? off + len - 1)) eqn:E; [|lia].
  rewrite Hv. cbn [from_option id]. cbv zeta. do 4 f_equal. unfold clamp_part. cbv zeta.
  set (n := Z.of_nat (length v)). replace (off + len - 1 + 1) with (off + len) by lia.
  destruct (Z.le_gt_cases off n).
  - by rewrite (Z.min_l off n) by lia.
  - rewrite (Z.min_r off n) by lia. by rewrite !Z.min_r by lia.
Qed.

Lemma clamp_part_length off len v : 0 <= off → (length (clamp_part off len v) <= length v)%nat.
Proof. intros. unfold clamp_part, slice. rewrite length_take, length_drop. lia. Qed.

Lemma refines_get (k : str) : op_refines I r_view (r_call scan) (OGet k).
Proof.
  intros m s (Hm & Hm' & Hok) Hv.
  apply (one_command _ m s ["GET"%rs; k] (Bulk (m !! k)) m (λ x, RValue (bulk_of x))); try done.
  - apply small_args_cons; [done..|]. by repeat constructor.
  - by apply bulk_ok.
  - intros n. apply bind_assoc_ret.
Qed.

Lemma refines_get_many (ks : list str) : op_refines I r_view (r_call scan) (OGetMany ks).
Proof.
  intros m s (Hm & Hm' & Hok) Hv.
  destruct (decide (ks = [])) as [->|Hne].
  { exists O, (RValues []), s. by split_and!. }
  destruct Hok as [Hlen Hks].
  apply (one_command _ m s ("MGET"%rs :: ks) (Array ((λ k, Bulk (m !! k)) <$> ks)) m
    (λ x, RValues (match x with Array l => bulk_of <$> l | _ => (λ _, None) <$> ks end))); try done.
  - by apply small_args_cons.
  - cbn [resp_ok]. rewrite length_fmap, bulks_ok, andb_true_r by done. apply Z.ltb_lt. lia.
  - intros n. cbn [run_op]. cbn. unfold r_get_many. rewrite bool_decide_false by done.
    apply bind_assoc_ret.
  - cbn. unfold default_get_many. by rewrite <-list_fmap_compose.
Qed.

Lemma refines_set (k : str) (v : bytes) : op_refines I r_view (r_call scan) (OSet k v).
Proof.
  intros m s (Hm & Hm' & Hok) Hv.
  pose proof (small_entry _ (text_small _ Hm') k v ltac:(cbn; by rewrite lookup_insert_eq)) as [Hk Hval].
  apply (one_command _ m s ["SET"%rs; k; v] RedisApi.ok (<[k := v]> m) (λ _, RUnit)); try done.
  - apply small_args_cons; [done..|]. by repeat constructor.
  - intros n. apply (bind_assoc_ret _ (λ _, tt)).
Qed.

Lemma refines_del (ks : list str) : op_refines I r_view (r_call scan) (ODel ks).
Proof.
  intros m s (Hm & Hm' & Hok) Hv.
  destruct (decide (ks = [])) as [->|Hne].
  { exists O, RUnit, s. by split_and!. }
  destruct Hok as [Hlen Hks].
  apply (one_command _ m s ("DEL"%rs :: ks)
    (Integer (Z.of_nat (size m) - Z.of_nat (size (delete_keys ks m)))) (delete_keys ks m) (λ _, RUnit)); try done.
  - by apply small_args_cons.
  - cbn [resp_ok]. pose proof (small_size _ (text_small _ Hm)).
    pose proof (small_size _ (text_small _ Hm')) as H2. cbn in H2.
    rewrite andb_true_iff, Z.leb_le, Z.ltb_lt. lia.
  - intros n. cbn [run_op]. cbn. unfold r_del. rewrite bool_decide_false by done.
    apply (bind_assoc_ret _ (λ _, tt)).
Qed.

(** The reply of a scan is one complete iteration of the server, filtered again. *)
Lemma scan_answers (p : str) m s :
  r_call scan m (OScan p) → r_view m s →
  ∃ (N : nat) s' n ks, scan_chain scan m (scan_pattern p) n 0 ks ∧
    let r := RKeys (filter (λ k, is_subtree_key p k = true) ks) in
    (∀ fuel, (N <= fuel)%nat → run_op (H := I fuel) (OScan p) s = (Ok r, s')) ∧
    r ≡ (pure_op (OScan p) m).1 ∧ r_view m s'.
Proof.
  intros (Hm & Hm' & Hok & Hfit) Hv.
  destruct (rsrv_scan _ _ _ _ _ _ _ Hsrv m (scan_pattern p) _ (text_small m Hm) (scan_pattern_glob p))
    as (n & ks & Hchain & Hin & Hall).
  destruct (scan_pages_chain m p n 0 ks Hm Hok Hchain ltac:(lia) Hfit Hin s [] Hv) as (s' & N & Hv' & Hrun).
  exists (max N n), s', n, ks. split; [done|]. cbv zeta. split_and!; [| |done].
  - intros fuel Hf. cbn [run_op]. cbn. unfold r_scan_keys. by rewrite stm_bind_eq, Hrun by lia.
  - apply reply_keys_equiv. intros k. rewrite law_scan, list_elem_of_filter. cbn.
    split; [intros [H1 H2]; by split; [|apply Hin]|].
    intros [H1 H2]. split; [done|]. apply Hall; [by apply subtree_starts|done].
Qed.

Lemma refines_scan (p : str) : op_refines I r_view (r_call scan) (OScan p).
Proof.
  intros m s Hok Hv. destruct (scan_answers p m s Hok Hv) as (N & s' & n & ks & _ & Hrun & Hr & Hv').
  by exists N, (RKeys (filter (λ k, is_subtree_key p k = true) ks)), s'.
Qed.

Lemma refines_exists (k : str) : op_refines I r_view (r_call scan) (OExists k).
Proof.
  intros m s (Hm & Hm' & Hok) Hv.
  apply (one_command _ m s ["EXISTS"%rs; k] (Integer (if decide (is_Some (m !! k)) then 1 else 0)) m
    (λ x, RBool (match x with Integer n => 0 <? n | _ => false end))); try done.
  - apply small_args_cons; [done..|]. by repeat constructor.
  - by destruct (decide _).
  - intros n. apply bind_assoc_ret.
  - cbn [pure_op fst]. rewrite law_exists. cbn. by destruct (decide (is_Some (m !! k))) as [H|H];
      [rewrite bool_decide_true|rewrite bool_decide_false].
Qed.

Lemma refines_get_part (k : str) (off len : Z) : op_refines I r_view (r_call scan) (OGetPart k off len).
Proof.
  intros m s (Hm & Hm' & Hok) Hv.
  destruct Hok as (v & Hl & H1 & H2 & H3 & H4).
  assert (Hpure : pure_op (OGetPart k off len) m = (RValue (Some (clamp_part off len v)), m)).
  { cbn. unfold default_get_part. by rewrite Hl. }
  destruct (decide (len = 0)) as [->|Hne].
  { exists O, (RValue (Some [])), s. rewrite Hpure, clamp_part_nothing. by split_and!. }
  apply (one_command _ m s _ _ m (λ x, RValue (bulk_of x)) Hv (range_exec m k v off len Hl H1 ltac:(lia) H3 H4)).
  - apply small_args_cons; [done..|]. repeat constructor; [|apply short_number; lia..].
    by apply (small_key m k v).
  - cbn [resp_ok]. pose proof (clamp_part_length off len v H1).
    apply (small_entry _ (text_small _ Hm)) in Hl. apply Z.ltb_lt. lia.
  - done.
  - intros n. cbn [run_op]. cbn. unfold r_get_part. destruct (Z.eqb_spec len 0); [done|].
    apply bind_assoc_ret.
  - by rewrite Hpure.
  - by rewrite Hpure.
Qed.

Lemma refines_set_part (k : str) (off : Z) (buf : bytes) : op_refines I r_view (r_call scan) (OSetPart k off buf).
Proof.
  intros m s (Hm & Hm' & Hok) Hv.
  destruct Hok as (v & Hl & H1 & H2 & H3).
  pose proof (small_entry _ (text_small _ Hm) k v Hl) as [Hk Hval].
  apply (one_command _ m s ["SETRANGE"%rs; k; show_u off; buf] (Integer (Z.of_nat (length v)))
    (<[k := splice (Z.to_nat off) buf v]> m) (λ _, RUnit)); try done.
  - unfold redis_exec. do 5 (rewrite decide_False by discriminate). rewrite decide_True by done.
    rewrite parse_show_u by (unfold in_u; lia). cbn [mbind option_bind]. rewrite Hl. cbn [mbind option_bind].
    by destruct (Z.leb_spec (off + Z.of_nat (length buf)) (Z.of_nat (length v))); [|lia].
  - apply small_args_cons; [done..|]. repeat constructor; [lia|apply short_number; lia|lia].
  - cbn [resp_ok]. rewrite andb_true_iff, Z.leb_le, Z.ltb_lt. lia.
  - intros n. apply (bind_assoc_ret _ (λ _, tt)).
  - cbn. unfold default_set_part. rewrite Hl.
    by destruct (Z.ltb_spec (Z.of_nat (length v)) (off + Z.of_nat (length buf))); [lia|].
Qed.

Lemma refines_flush : op_refines I r_view (r_call scan) OFlush.
Proof.
  intros m s (Hm & Hm' & Hok) Hv.
  apply (one_command _ m s ["FLUSHDB"%rs] RedisApi.ok ∅ (λ _, RUnit)); try done.
  intros n. apply (bind_assoc_ret _ (λ _, tt)).
Qed.

Lemma r_op_refines (o : kvop) : op_refines I r_view (r_call scan) o.
Proof.
  destruct o; auto using refines_get, refines_get_many, refines_set, refines_del, refines_scan,
    refines_exists, refines_get_part, refines_set_part, refines_flush.
Qed.
End refines.

(** ** Properties *)

(** C30. Against a Redis server that answers its commands as documented, from a connected or a
    disconnected store, any sequence of calls that the server is built for returns, without a
    panic, exactly the replies of the reference store, a scan's keys up to order and repetition,
    leaves the database the reference store reaches, and leaves no byte of a reply unread on the
    connection.  Scans are covered only where the cursors the server returns stay below 2^63:
    Redis promises unsigned 64-bit cursors, the store reads signed ones and takes a larger one for
    the end of the iteration ([large_cursor_loses_keys]).  Part reads and writes are those
    [Backend] makes, inside an existing value; from some fuel on, the bounds on line length,
    nesting and scan rounds no longer matter. *)
Theorem redis_refines_reference scan {W : Type} (tcp_connect : str → W → res redis_err unit * W) tcp_option
    (tcp_write : bytes → W → res redis_err unit * W) tcp_next addr db pending (os : list kvop) m s :
  redis_server scan tcp_connect tcp_option tcp_write tcp_next db pending →
  r_view db pending m s → admissible (r_call scan) m os →
  ∃ (N : nat) rs s',
    (∀ n, (N <= n)%nat →
       run_ops (H := redis_store tcp_connect tcp_option tcp_write tcp_next addr n) os s = (Ok rs, s')) ∧
    Forall2 (≡) rs (pure_ops os m).1 ∧ r_view db pending (pure_ops os m).2 s'.
Proof.
  intros Hsrv Hv Hok.
  apply (ops_refine (redis_store tcp_connect tcp_option tcp_write tcp_next addr) (r_view db pending) (r_call scan));
    [|done..].
  intros o. by eapply r_op_refines.
Qed.

Definition redis_calls : list kvop :=
  [OSet "/a"%rs [CR; NL]; OSet "/a/b"%rs "xyz"%rs; OScan "/a"%rs; OSetPart "/a/b"%rs 1 "Q"%rs; OGetPart "/a/b"%rs 0 2;
   OGetMany ["/a"%rs; "/c"%rs]; ODel ["/a"%rs]; OExists "/a"%rs; OFlush].

Definition redis_replies : list kvreply :=
  [RUnit; RUnit; RKeys ["/a/b"%rs; "/a"%rs]; RUnit; RValue (Some "xQ"%rs); RValues [Some [CR; NL]; None]; RUnit;
   RBool false; RUnit].

(** The databases of the example, as lists. *)
Definition entries_ok (l : list (str * bytes)) : bool :=
  (Z.of_nat (length l) <? 1000) &&
  forallb (λ kv, utf8_valid kv.1 && (Z.of_nat (length kv.1) <? 1000) && (Z.of_nat (length kv.2) <? 1000)) l.

Lemma entries_text_db (m : mem) : entries_ok (map_to_list m) = true → text_db m.
Proof.
  unfold entries_ok. rewrite andb_true_iff. intros [H1 H2].
  assert (H : ∀ k v, m !! k = Some v → utf8_valid k = true ∧ Z.of_nat (length k) < 1000 ∧ Z.of_nat (length v) < 1000).
  { intros k v Hkv. apply elem_of_map_to_list in Hkv. rewrite forallb_forall in H2.
    apply list_elem_of_In in Hkv. apply H2 in Hkv. cbn in Hkv. rewrite !andb_true_iff, !Z.ltb_lt in Hkv. tauto. }
  split; [split|].
  - rewrite length_map_to_list in H1. lia.
  - intros k v Hkv. destruct (H k v Hkv) as (_ & ? & ?). lia.
  - intros k [v Hkv]. apply (H k v Hkv).
Qed.

Lemma redis_refines_reference_witness :
  ∃ (N : nat) rs s',
    (∀ n, (N <= n)%nat →
       run_ops (H := redis_store Reference.accept Reference.set_option Reference.receive Reference.send_byte
                       "h:1"%rs n) redis_calls (mkR false (Reference.mkServer ∅ "stale"%rs)) = (Ok rs, s')) ∧
    Forall2 (≡) rs redis_replies ∧ r_view Reference.s_db Reference.s_pending ∅ s'.
Proof.
  assert (pure_ops redis_calls (∅ : mem) = (redis_replies, ∅)) as E by (vm_compute; reflexivity).
  pose proof (redis_refines_reference Reference.two_rounds Reference.accept Reference.set_option
    Reference.receive Reference.send_byte "h:1"%rs Reference.s_db Reference.s_pending redis_calls (∅ : mem)
    (mkR false (Reference.mkServer ∅ "stale"%rs))) as H.
  rewrite E in H. apply H; clear E H.
  - apply Reference.reference_laws.
  - by split.
  - unfold redis_calls. cbn [admissible r_call].
    repeat match goal with
      | |- _ ∧ _ => split
      | |- r_call _ _ _ => unfold r_call
      | |- cursors_fit _ _ _ _ => apply Reference.two_rounds_fit
      | |- text_db _ => apply entries_text_db; vm_compute; reflexivity
      | |- True => exact I
      | |- ∃ _, _ => eexists; split; [vm_compute; reflexivity|]
      | |- Forall _ _ => constructor
      | |- Z.le _ _ => vm_compute; discriminate
      | |- Z.lt _ _ => reflexivity
      end.
Defined.

Example redis_calls_run :
  let r := run_ops (H := redis_store Reference.accept Reference.set_option Reference.receive Reference.send_byte
                           "h:1"%rs 40) redis_calls (mkR false (Reference.mkServer ∅ "stale"%rs)) in
  r.1 = Ok redis_replies ∧ Reference.s_pending (net r.2) = [].
Proof. by vm_compute. Qed.

(** A server that keeps its promises, with the cursor 2^63 for the second round: the store takes
    it for the end of the iteration and loses the keys of that round, without an error. *)
Example large_cursor_loses_keys :
  let scan := Reference.rounds_at (2 ^ 63) in
  let m : mem := <["/a"%rs := "x"%rs]> (<["/b"%rs := "y"%rs]> ∅) in
  redis_server scan Reference.accept Reference.set_option (Reference.receive_with scan) Reference.send_byte
    Reference.s_db Reference.s_pending ∧
  (run_ops (H := redis_store Reference.accept Reference.set_option (Reference.receive_with scan)
                   Reference.send_byte "h:1"%rs 40)
     [OScan "/"%rs] (mkR false (Reference.mkServer m [])) ).1 = Ok [RKeys (take 1 (map_to_list m).*1)] ∧
  length (kv_scan_keys m "/"%rs) = 2%nat.
Proof.
  cbv zeta. split; [by apply Reference.reference_laws_with, Reference.rounds_at_complete|].
  split; vm_compute; reflexivity.
Qed.
