(* ===== verification/Client.v ===== *)
(** * Programs over a store behind a connection

    A method of [Backend<S>] seen from the store: the calls it makes one after the other, each
    chosen from the replies before it.  Such a program runs on any [RemoteStore]; what it may do
    on the reference store is a relation, because the order and the repetitions of a scan are the
    store's.  The adequacy theorem: over a store that refines the reference store call by call, a
    program returns, without a panic of the store, one of the outcomes it has there. *)

From S2P Require Import Prelude RustInt RustStr HeadLenPow KPath Store Remote.
Local Open Scope Z_scope.

(** ** Programs *)

Inductive prog (A : Type) : Type :=
  | Done (r : res kverr A)
  | Call (o : kvop) (k : kvreply → prog A).
Arguments Done {A} r.
Arguments Call {A} o k.

#[export] Instance prog_ret : MRet prog := λ A a, Done (Ok a).

Fixpoint prog_bind {A B} (f : A → prog B) (p : prog A) : prog B :=
  match p with
  | Done (Ok a) => f a
  | Done (Err e) => Done (Err e)
  | Done (Panic e) => Done (Panic e)
  | Call o k => Call o (λ r, prog_bind f (k r))
  end.
#[export] Instance prog_mbind : MBind prog := λ A B f p, prog_bind f p.

(** A result without calls, and an early return. *)
Definition pure {A} (r : res kverr A) : prog A := Done r.
Definition guard_err (b : bool) (e : kverr) : prog unit := pure (bail_if b e).

(** [let _ = p;] *)
Fixpoint p_ignore {A} (p : prog A) : prog unit :=
  match p with
  | Done (Panic e) => Done (Panic e)
  | Done _ => Done (Ok tt)
  | Call o k => Call o (λ r, p_ignore (k r))
  end.

Fixpoint p_for_each {A} (l : list A) (f : A → prog unit) : prog unit :=
  match l with
  | [] => mret tt
  | x :: l => f x;; p_for_each l f
  end.

(** One program per method of the trait; a reply has the type of its call. *)
Definition p_get (k : str) : prog (option bytes) :=
  Call (OGet k) (λ r, mret match r with RValue v => v | _ => None end).
Definition p_get_many (ks : list str) : prog (list (option bytes)) :=
  Call (OGetMany ks) (λ r, mret match r with RValues vs => vs | _ => [] end).
Definition p_set (k : str) (v : bytes) : prog unit := Call (OSet k v) (λ _, mret tt).
Definition p_del (ks : list str) : prog unit := Call (ODel ks) (λ _, mret tt).
Definition p_scan_keys (p : str) : prog (list str) :=
  Call (OScan p) (λ r, mret match r with RKeys ks => ks | _ => [] end).
Definition p_exists (k : str) : prog bool :=
  Call (OExists k) (λ r, mret match r with RBool b => b | _ => false end).
Definition p_get_part (k : str) (off len : Z) : prog (option bytes) :=
  Call (OGetPart k off len) (λ r, mret match r with RValue v => v | _ => None end).
Definition p_set_part (k : str) (off : Z) (buf : bytes) : prog unit :=
  Call (OSetPart k off buf) (λ _, mret tt).
Definition p_flush : prog unit := Call OFlush (λ _, mret tt).

(** ** Running *)

(** Over a store behind a connection: the outer result is the store's. *)
Fixpoint run_prog `{RemoteStore W E} {A : Type} (p : prog A) : stm W E (res kverr A) :=
  match p with
  | Done r => mret r
  | Call o k => r ← run_op o; run_prog (k r)
  end.

Section over.
Context {St : Type} `{KVStore St}.

(** Over a store that is a value, whose scans may come in any order and repeat keys. *)
Inductive runs {A : Type} : prog A → St → res kverr A → St → Prop :=
  | runs_done r m : runs (Done r) m r m
  | runs_call o k m reply r m' :
      reply ≡ (pure_op o m).1 → runs (k reply) (pure_op o m).2 r m' → runs (Call o k) m r m'.

(** Every call the program may make is admissible, given replies of the shape [Q] the store
    promises on top of their contents (how often a scan repeats a key). *)
Fixpoint safe {A : Type} (ok : St → kvop → Prop) (Q : St → kvop → kvreply → Prop) (p : prog A) (m : St) : Prop :=
  match p with
  | Done _ => True
  | Call o k => ok m o ∧
      ∀ reply, reply ≡ (pure_op o m).1 → Q m o reply → safe ok Q (k reply) (pure_op o m).2
  end.

(** One of the outcomes: every scan answered by [order] of the live keys. *)
Fixpoint eval {A : Type} (order : list str → list str) (p : prog A) (m : St) : res kverr A * St :=
  match p with
  | Done r => (r, m)
  | Call o k =>
      let '(reply, m) := pure_op o m in
      eval order (k (match reply with RKeys ks => RKeys (order ks) | r => r end)) m
  end.

Lemma eval_runs {A : Type} (order : list str → list str) (p : prog A) (m : St) :
  (∀ ks k, k ∈ order ks ↔ k ∈ ks) → runs p m (eval order p m).1 (eval order p m).2.
Proof.
  intros Hks. revert m. induction p as [r|o k IH]; intros m; [constructor|].
  cbn [eval]. destruct (pure_op o m) as [reply m1] eqn:E. econstructor; rewrite E; [|apply IH].
  cbn [fst]. destruct reply; try done. intros k'. apply Hks.
Qed.


(** ** What a program computes *)

(** On the store [p] has the one outcome of [f]. *)
Definition acts {A} (p : prog A) (f : stm St kverr A) : Prop := ∀ m r m',
  runs p m r m' → f m = (r, m').

(** ... and changes nothing. *)
Definition reads {A} (p : prog A) (f : St → A) : Prop := acts p (gets f).

Lemma runs_done_inv {A} (r0 : res kverr A) m r m' : runs (Done r0) m r m' → r = r0 ∧ m' = m.
Proof. inversion 1; by simplify_eq. Qed.

Lemma runs_call_inv {A : Type} (o : kvop) (k : kvreply → prog A) m r m' :
  runs (Call o k) m r m' → ∃ reply, reply ≡ (pure_op o m).1 ∧ runs (k reply) (pure_op o m).2 r m'.
Proof. inversion 1; simplify_eq. eauto. Qed.

(** A bind splits a run in two. *)
Lemma runs_bind_inv {A B} (p : prog A) (f : A → prog B) m r m' :
  runs (p ≫= f) m r m' →
  ∃ r1 m1, runs p m r1 m1 ∧
    match r1 with
    | Ok a => runs (f a) m1 r m'
    | Err e => r = Err e ∧ m' = m1
    | Panic e => r = Panic e ∧ m' = m1
    end.
Proof.
  revert m. induction p as [r0|o k IH]; intros m Hr.
  - exists r0, m. split; [constructor|]. destruct r0; [done|by apply runs_done_inv in Hr..].
  - apply runs_call_inv in Hr as (reply & Hreply & Hr). apply IH in Hr as (r1 & m1 & Hr1 & Hrest).
    exists r1, m1. split; [by econstructor|done].
Qed.

Lemma runs_ignore_inv {A} (p : prog A) m r m' :
  runs (p_ignore p) m r m' →
  ∃ r1, runs p m r1 m' ∧ r = match r1 with Panic e => Panic e | _ => Ok tt end.
Proof.
  revert m. induction p as [r0|o k IH]; intros m Hr.
  - exists r0. destruct r0; apply runs_done_inv in Hr as [-> ->]; (split; [constructor|done]).
  - apply runs_call_inv in Hr as (reply & Hreply & Hr). apply IH in Hr as (r1 & Hr1 & ->).
    exists r1. split; [by econstructor|done].
Qed.

Section acts.
Context {A B : Type}.

Lemma acts_pure (r : res kverr A) : acts (pure r) (lift r).
Proof. intros m r' m' [-> ->]%runs_done_inv. done. Qed.

Lemma acts_ret (a : A) : acts (mret a) (mret a).
Proof. intros m r m' [-> ->]%runs_done_inv. done. Qed.

Lemma acts_bind (p : prog A) (f : A → prog B) (g : stm St kverr A) (h : A → stm St kverr B) :
  acts p g → (∀ a, acts (f a) (h a)) → acts (p ≫= f) (g ≫= h).
Proof.
  intros Hp Hf m r m' (r1 & m1 & Hr1 & Hr)%runs_bind_inv. rewrite stm_bind_eq, (Hp _ _ _ Hr1).
  destruct r1 as [a|e|e]; [by apply Hf|by destruct Hr as [-> ->]..].
Qed.

Lemma acts_ext (p : prog A) (f g : stm St kverr A) : (∀ m, f m = g m) → acts p f → acts p g.
Proof. intros Hfg Hp m r m' Hr. rewrite <-Hfg. by apply Hp. Qed.

Lemma acts_ignore (p : prog A) (f : stm St kverr A) : acts p f → acts (p_ignore p) (ignore f).
Proof.
  intros Hp m r m' (r1 & Hr1 & ->)%runs_ignore_inv. unfold ignore. rewrite (Hp _ _ _ Hr1).
  by destruct r1.
Qed.

Lemma acts_for_each (l : list A) (f : A → prog unit) (g : A → stm St kverr unit) :
  (∀ x, acts (f x) (g x)) → acts (p_for_each l f) (for_each l g).
Proof.
  intros Hf. induction l as [|x l IH]; intros m r m' Hr.
  - by apply runs_done_inv in Hr as [-> ->].
  - cbn [p_for_each for_each] in *. apply runs_bind_inv in Hr as (r1 & m1 & Hr1 & Hr).
    rewrite stm_bind_eq, (Hf _ _ _ _ Hr1). destruct r1; [by apply IH|by destruct Hr as [-> ->]..].
Qed.

(** After a read the program goes on at what was read. *)
Lemma acts_read (p : prog A) (f : A → prog B) (g : St → A) (h : A → stm St kverr B) :
  reads p g → (∀ a, acts (f a) (h a)) → acts (p ≫= f) (λ m, h (g m) m).
Proof. intros Hp Hf. by apply (acts_bind p f (gets g) h). Qed.

Lemma reads_ret (a : A) : reads (mret a) (λ _, a).
Proof. intros m r m' [-> ->]%runs_done_inv. done. Qed.

Lemma reads_bind (p : prog A) (f : A → prog B) (g : St → A) (h : A → St → B) :
  reads p g → (∀ a, reads (f a) (h a)) → reads (p ≫= f) (λ m, h (g m) m).
Proof. intros Hp Hf. apply (acts_read p f g (λ a, gets (h a)) Hp Hf). Qed.

Lemma reads_ext (p : prog A) (f g : St → A) : (∀ m, f m = g m) → reads p f → reads p g.
Proof. intros Hfg. apply acts_ext. intros m. unfold gets. by rewrite Hfg. Qed.
End acts.

(** ** The calls of the trait *)

Lemma acts_call {A : Type} (o : kvop) (k : kvreply → prog A) (f : stm St kverr A) :
  (∀ (reply : kvreply) (m : St) (r : res kverr A) (m' : St), reply ≡ (pure_op o m).1 → runs (k reply) (pure_op o m).2 r m' → f m = (r, m')) →
  acts (Call o k) f.
Proof. intros Hk m r m' (reply & Hreply & Hr)%runs_call_inv. by eapply Hk. Qed.

Ltac one_call :=
  apply acts_call; intros reply m r m' Hreply [-> ->]%runs_done_inv;
  unfold equiv, reply_equiv in Hreply; destruct reply; cbn in Hreply; simplify_eq; done.

Lemma reads_get k : reads (p_get k) (λ m, kv_get m k).
Proof. one_call. Qed.
Lemma reads_get_many ks : reads (p_get_many ks) (λ m, kv_get_many m ks).
Proof. one_call. Qed.
Lemma reads_exists k : reads (p_exists k) (λ m, kv_exists m k).
Proof. one_call. Qed.
Lemma reads_get_part k off len : reads (p_get_part k off len) (λ m, kv_get_part m k off len).
Proof. one_call. Qed.
Lemma acts_set k v : acts (p_set k v) (modify (kv_set k v)).
Proof. one_call. Qed.
Lemma acts_del ks : acts (p_del ks) (modify (kv_del ks)).
Proof. one_call. Qed.
Lemma acts_set_part k off buf : acts (p_set_part k off buf) (modify (kv_set_part k off buf)).
Proof. one_call. Qed.
Lemma acts_flush : acts p_flush (modify kv_flush).
Proof. one_call. Qed.

(** A scan of a subtree returns its live keys; what follows must not depend on their order. *)
Lemma acts_scan {A : Type} (p : str) (f : list str → prog A) (g : list str → stm St kverr A) :
  (∀ (m : St) ks r m', (∀ k, k ∈ ks ↔ k ∈ kv_scan_keys m p) → runs (f ks) m r m' → g (kv_scan_keys m p) m = (r, m')) →
  acts (p_scan_keys p ≫= f) (λ m, g (kv_scan_keys m p) m).
Proof.
  intros Hf m r m' Hr. apply runs_call_inv in Hr as (reply & Hreply & Hr). cbn [pure_op fst snd] in *.
  destruct reply as [| | |ks|]; try done. by apply (Hf m ks).
Qed.

(** ** Following a run *)

Lemma runs_read {A B : Type} (p : prog A) (g : St → A) (f : A → prog B) m r m' :
  reads p g → runs (p ≫= f) m r m' → runs (f (g m)) m r m'.
Proof.
  intros Hp (r1 & m1 & Hr1 & Hr)%runs_bind_inv. apply Hp in Hr1. unfold gets in Hr1. by simplify_eq.
Qed.

Lemma runs_pure {A B : Type} (r0 : res kverr A) (f : A → prog B) m r m' :
  runs (pure r0 ≫= f) m r m' →
  match r0 with
  | Ok a => runs (f a) m r m'
  | Err e => r = Err e ∧ m' = m
  | Panic e => r = Panic e ∧ m' = m
  end.
Proof. destruct r0; [done|by intros ?%runs_done_inv..]. Qed.

Lemma runs_ret {A B : Type} (a : A) (f : A → prog B) m r m' : runs (mret a ≫= f) m r m' → runs (f a) m r m'.
Proof. done. Qed.

Lemma runs_assoc {A B C : Type} (p : prog A) (f : A → prog B) (g : B → prog C) m r m' :
  runs ((p ≫= f) ≫= g) m r m' → runs (p ≫= λ a, f a ≫= g) m r m'.
Proof.
  revert m. induction p as [[a|e|e]|o k IH]; intros m Hr; [done..|].
  apply runs_call_inv in Hr as (reply & Hreply & Hr). econstructor; [done|]. by apply IH.
Qed.

(** ** Admissibility by computation *)

(** Every call of a program without scans passes the test. *)
Fixpoint check {A : Type} (okb : St → kvop → bool) (p : prog A) (m : St) : bool :=
  match p with
  | Done _ => true
  | Call (OScan _) _ => false
  | Call o k => okb m o && check okb (k (pure_op o m).1) (pure_op o m).2
  end.

Section safe.
Context (ok : St → kvop → Prop) (Q : St → kvop → kvreply → Prop).

Lemma check_safe {A : Type} (okb : St → kvop → bool) (p : prog A) (m : St) :
  (∀ m o, okb m o = true → ok m o) → check okb p m = true → safe ok Q p m.
Proof.
  intros Hok. revert m. induction p as [r|o k IH]; intros m Hc; [done|]. cbn [safe].
  assert (Hs : okb m o = true ∧ check okb (k (pure_op o m).1) (pure_op o m).2 = true ∧
    ∀ p, o ≠ OScan p) by (destruct o; cbn [check] in Hc; try done; by apply andb_true_iff in Hc as [? ?]).
  destruct Hs as (Ho & Hk & Hns). split; [by apply Hok|]. intros reply Hreply _.
  assert (reply = (pure_op o m).1) as ->; [|by apply IH].
  destruct o; try (by destruct reply; unfold equiv, reply_equiv in Hreply; cbn in Hreply; simplify_eq).
Qed.

Lemma safe_bind {A B : Type} (p : prog A) (f : A → prog B) (m : St) :
  safe ok Q p m → (∀ a m', runs p m (Ok a) m' → safe ok Q (f a) m') → safe ok Q (p ≫= f) m.
Proof.
  revert m. induction p as [[a|e|e]|o k IH]; intros m Hp Hf; [|done..|].
  - apply Hf. constructor.
  - destruct Hp as [Ho Hk]. split; [done|]. intros reply Hreply HQ. apply IH; [by apply Hk|].
    intros a m' Hr. apply Hf. by econstructor.
Qed.

Lemma safe_read {A B : Type} (p : prog A) (g : St → A) (f : A → prog B) (m : St) :
  reads p g → safe ok Q p m → safe ok Q (f (g m)) m → safe ok Q (p ≫= f) m.
Proof.
  intros Hp Hs Hf. apply safe_bind; [done|]. intros a m' Hr. apply Hp in Hr. unfold gets in Hr.
  by simplify_eq.
Qed.
Lemma safe_guard {B : Type} (b : bool) (e : kverr) (f : unit → prog B) (m : St) :
  (b = false → safe ok Q (f tt) m) → safe ok Q (guard_err b e ≫= f) m.
Proof. intros Hf. destruct b; [done|by apply Hf]. Qed.
End safe.
End over.

Create HintDb acts discriminated.
#[export] Hint Resolve acts_ret acts_pure acts_set acts_del acts_set_part acts_flush : acts.
#[export] Hint Resolve reads_ret reads_get reads_get_many reads_exists reads_get_part : acts.

(** Follows [H : runs p m r m'] through its reads and results. *)
Ltac follow H :=
  cbv zeta in H;
  repeat first
    [ match type of H with
      | runs (mbind _ (mret _)) _ _ _ => apply runs_ret in H; cbv beta zeta in H
      | runs (mbind _ (mbind _ _)) _ _ _ => apply runs_assoc in H; cbv beta zeta in H
      end
    | eapply runs_read in H; [|solve [eauto with acts]]; cbv beta zeta in H ];
  try (apply runs_done_inv in H as [-> ->]).

(** ** Adequacy *)

Section adequacy.
Context {W E : Type} (I : nat → RemoteStore W E).
Context (R : mem → W → Prop) (ok : mem → kvop → Prop) (Q : mem → kvop → kvreply → Prop).

(** [op_refines] with the shape of the reply. *)
Definition op_answers (o : kvop) : Prop := ∀ m w, ok m o → R m w →
  ∃ (N : nat) r w',
    (∀ n, (N <= n)%nat → run_op (H := I n) o w = (Ok r, w')) ∧
    r ≡ (pure_op o m).1 ∧ Q m o r ∧ R (pure_op o m).2 w'.

Lemma refines_answers o : (∀ m r, Q m o r) → op_refines I R ok o → op_answers o.
Proof.
  intros HQ Hop m w Ho HR. destruct (Hop m w Ho HR) as (N & r & w' & Hrun & Hr & HR').
  exists N, r, w'. auto.
Qed.

Lemma run_prog_adequate {A : Type} (p : prog A) m w :
  (∀ o, op_answers o) → safe ok Q p m → R m w →
  ∃ (N : nat) r w' m',
    (∀ n, (N <= n)%nat → run_prog (H := I n) p w = (Ok r, w')) ∧ runs p m r m' ∧ R m' w'.
Proof.
  intros Hop. revert m w. induction p as [r|o k IH]; intros m w; cbn [safe run_prog].
  - intros _ HR. exists O, r, w, m. split_and!; [done|constructor|done].
  - intros [Ho Hk] HR. destruct (Hop o m w Ho HR) as (N1 & reply & w1 & Hrun & Hreply & HQ & HR1).
    destruct (IH reply _ w1 (Hk reply Hreply HQ) HR1) as (N2 & r & w' & m' & Hruns & Hr & HR').
    exists (max N1 N2), r, w', m'. split_and!; [|by econstructor|done].
    intros n Hn. rewrite stm_bind_eq, Hrun by lia. apply Hruns. lia.
Qed.
End adequacy.
