(* ===== verification/BackendClient.v ===== *)
(** * [Backend<S>] over a store behind a connection: [src/src/backend.rs]

    The methods of [Backend] as the programs of calls they make on their store, in the order and
    with the short circuits of the code; [Backend] has the same methods over a store that is a
    value.  Every program computes, on the reference store, what the method of [Backend] does
    there, whatever the order in which the store returns the keys of a scan. *)

From S2P Require Import Prelude RustInt RustStr RustText HeadLenPow KPath Coord XValue Store Remote Backend BackendRead BackendTree Client.
Local Open Scope Z_scope.
Implicit Types (key path prefix dir src dst : str).

(** ** Links *)

Definition b_present key : prog bool :=
  v ← p_get key; mret match v with Some _ => true | None => false end.

Definition b_resolve_one path : prog (str * bool) :=
  if decide (path = PATH_SEP) then mret (path, false)
  else
    vals ← p_get_many (path_prefixes path);
    mret match first_link vals (path_parts path) with
         | Some (target, rest) =>
             let next := match rest with [] => target | _ => join_path target (join "/"%rs rest) end in
             (match dir_suffix path with
              | Some suf => if is_dir next then next else next ++ suf
              | None => next
              end, true)
         | None => (path, false)
         end.

Fixpoint b_resolve_loop (n : nat) path : prog str :=
  match n with
  | O => mret path
  | S n =>
      r ← b_resolve_one path;
      if r.2 : bool then b_resolve_loop n r.1 else mret r.1
  end.

Definition b_resolve_path path : prog str := b_resolve_loop 16 path.

Definition b_resolve_parent path : prog str :=
  let dir_suf := is_dir path && negb (bool_decide (path = PATH_SEP)) in
  let clean := if dir_suf then strip_dir_suf path else path in
  let '(parent, last) := sep_path clean in
  if decide (parent = clean) then mret path
  else
    resolved ← b_resolve_path parent;
    let result := join_path resolved last in
    mret (if dir_suf then result ++ (if ends_with OBJ_SEP path then OBJ_SEP else DIR_INDEX_SUF) else result).

(** ** Listings and reads *)

Definition b_read_dir_index dir : prog (list str) :=
  let scan_prefix := default dir (match strip_suffix "/"%rs dir with
                                  | Some b => Some b | None => strip_suffix "·"%rs dir end) in
  keys ← p_scan_keys scan_prefix;
  let names := foldl (λ names key, match index_entry dir key with
                                   | Some e => add_name names e | None => names end) ∅ keys in
  mret (sort_names (show_name <$> map_to_list names)).

Definition b_get_dir dir : prog XValue :=
  v ← p_get dir; mret match v with None => XNone | Some data => XValue.from_wire data end.

Definition b_prefix_ext prefix : prog str :=
  v ← p_get prefix;
  mret match v with
       | Some data =>
           let head := from_wire_head data in
           if x_ref head =? REF_EXT then from_utf8_lossy (head_body head data) else []
       | None => []
       end.

(** The first loop of [get], which reads the directory keys as it meets them. *)
Fixpoint b_get_split prefix (i : nat) (keys : list str) : prog (list (option XValue) * list (nat * str)) :=
  match keys with
  | [] => mret ([], [])
  | k :: keys =>
      let full := join_path prefix k in
      first ← (if is_reserved full then mret (Some XNone)
               else if is_dir full then v ← b_get_dir full; mret (Some v) else mret None);
      rest ← b_get_split prefix (S i) keys;
      mret (first :: rest.1, match first with Some _ => rest.2 | None => (i, full) :: rest.2 end)
  end.

Definition b_get prefix (keys : list str) (resolve : bool) : prog (list XValue) :=
  pure (assert_dir prefix);;
  prefix ← (if resolve then b_resolve_path prefix else mret prefix);
  split ← b_get_split prefix 0 keys;
  vals ← p_get_many split.2.*2;
  let '(results, missing) := get_fill split.1 split.2 vals in
  ext_t ← (match missing with [] => mret [] | _ => b_prefix_ext prefix end);
  let ext_keys := match ext_t with
                  | [] => []
                  | _ => (λ i, (i, join_path ext_t (default [] (keys !! i)))) <$> missing
                  end in
  results ← (match ext_keys with
             | [] => mret results
             | _ => ext_vals ← p_get_many ext_keys.*2; mret (get_ext results ext_keys ext_vals)
             end);
  mret (default XNone <$> results).

Definition b_locate key : prog (str * str) :=
  let '(p, l) := sep_path key in
  let p := if decide (p = PATH_SEP) then p else p ++ DIR_INDEX_SUF in
  resolved ← b_resolve_path p;
  mret (resolved, l).

Definition b_get_raw key : prog bytes :=
  if is_reserved key then mret []
  else
    pl ← b_locate key;
    let '(p, l) := pl in
    let full := join_path p l in
    if is_reserved full then mret []
    else
      v ← p_get full;
      match v with
      | Some data => mret data
      | None =>
          ext_t ← b_prefix_ext p;
          match ext_t with
          | [] => mret []
          | _ => v ← p_get (join_path ext_t l); mret (default [] v)
          end
      end.

Definition b_get_part key (off len : Z) : prog bytes :=
  if is_reserved key then mret []
  else
    pl ← b_locate key;
    let '(p, l) := pl in
    let full := join_path p l in
    if is_reserved full then mret []
    else
      found ← p_exists full;
      if found : bool then v ← p_get_part full off len; mret (default [] v)
      else
        ext_t ← b_prefix_ext p;
        match ext_t with
        | [] => mret []
        | _ =>
            let ext_full := join_path ext_t l in
            found ← p_exists ext_full;
            if found : bool then v ← p_get_part ext_full off len; mret (default [] v) else mret []
        end.

Definition b_langtype_of key : prog str :=
  raw ← b_get_raw key;
  mret match HeadLenPow.from_wire raw with
       | None => []
       | Some _ => default [] (from_utf8_lossy <$> langtype_from_wire raw)
       end.

Definition b_list prefix (expand_ext resolve : bool) : prog (list str) :=
  if is_reserved prefix then mret []
  else
    pure (assert_dir prefix);;
    resolved ← (if resolve then b_resolve_path prefix else mret prefix);
    if negb (is_dir resolved) then mret []
    else if is_reserved resolved then mret []
    else
      members ← b_read_dir_index resolved;
      ext_members ← (if expand_ext then
                       ext_t ← b_prefix_ext resolved;
                       match ext_t with [] => mret [] | _ => b_read_dir_index ext_t end
                     else mret []);
      mret (sort_names (members ++ filter (λ m, m ∉ members) ext_members)).

(** [get_one] of [kvspace_common.rs] on such a space. *)
Definition b_get_one key : prog XValue :=
  let '(p, l) := sep_path key in
  let p := if decide (p = PATH_SEP) then p else p ++ DIR_INDEX_SUF in
  vs ← b_get p [l] true;
  mret match vs with v :: _ => v | [] => XNone end.

(** ** Writes *)

(** [!ext_target.is_empty() && get(key).is_none() && get(ext_target + suffix).is_some()] *)
Definition b_shadowed key parent ext_target : prog bool :=
  if bool_decide (ext_target = []) then mret false
  else
    found ← b_present key;
    if found : bool then mret false
    else b_present (ext_target ++ default [] (strip_prefix parent key)).

(** One round of the loop of [set] up to the write: the key and the bytes to store. *)
Definition b_set_plan (pair : KVPair) : prog (str * bytes) :=
  guard_err (is_reserved (pr_key pair)) (ReservedKey (pr_key pair));;
  key ← b_resolve_parent (pr_key pair);
  guard_err (contains "//"%rs key || is_reserved key) (InvalidKey key);;
  let raw := default (XValue.to_wire (pr_val pair)) (pr_raw pair) in
  head ← pure (ok_or (InvalidXValue key) (HeadLenPow.from_wire raw));
  pure (validate_status_wire key raw);;
  attr ← pure (ok_or (InvalidXValue key) (attr_len raw));
  total ← pure (ok_or (InvalidXValue key) (checked_add (h_len head) PREFIX ≫= λ x, checked_add x attr));
  guard_err (Z.of_nat (length raw) <? total) (InvalidXValue key);;
  let raw := take (Z.to_nat total) raw in
  let parent := (split_index key).1.1 in
  let base := strip_dir_suf parent in
  headless ← (if ends_with OBJ_SEP parent && negb (starts_with "/lib"%rs base)
              then found ← b_present base; mret (negb found) else mret false);
  guard_err headless (MemheadMissing base);;
  ext_target ← b_prefix_ext parent;
  shadowed ← b_shadowed key parent ext_target;
  guard_err (shadowed && negb (bool_decide (h_reference head = RefPointer) && is_frame_operand_key key))
    (ExtWrite key);;
  mret (key, raw).

Definition b_set_one (pair : KVPair) : prog unit :=
  plan ← b_set_plan pair;
  p_set plan.1 plan.2.

Definition b_set (pairs : list KVPair) : prog unit := p_for_each pairs b_set_one.

Definition b_set_part_target key : prog str :=
  guard_err (is_reserved key) (ReservedKey key);;
  pl ← b_locate key;
  let '(p, l) := pl in
  let full := join_path p l in
  guard_err (is_reserved full) (ReservedKey full);;
  found ← p_exists full;
  if found : bool then mret full
  else
    ext_t ← b_prefix_ext p;
    let ext_full := join_path ext_t l in
    found ← (if bool_decide (ext_t = []) then mret false else p_exists ext_full);
    if found : bool then mret ext_full else pure (Err (SetPartMissing key)).

Definition b_set_part key (off : Z) (buf : bytes) : prog unit :=
  target ← b_set_part_target key;
  v ← p_get target;
  wire ← pure (ok_or (SetPartCannotRead target) v);
  effective ← pure (ok_or (SetPartMalformed target) (effective_len wire));
  let upper := PREFIX + effective in
  guard_err (upper <? saturating_add_u64 off (Z.of_nat (length buf)))
    (SetPartOutOfRange target off (Z.of_nat (length buf)) upper);;
  p_set_part target off buf.

(** One round of the loop of [del] up to the deletion: the keys to delete. *)
Definition b_del_plan key : prog (list str) :=
  guard_err (is_reserved key) (ReservedKey key);;
  resolved ← b_resolve_parent key;
  guard_err (is_reserved resolved) (ReservedKey resolved);;
  let parent := (split_index resolved).1.1 in
  ext_target ← b_prefix_ext parent;
  shadowed ← b_shadowed resolved parent ext_target;
  guard_err shadowed (ExtDel resolved);;
  mret (if is_dir resolved then [strip_dir_suf resolved; resolved] else [resolved]).

Definition b_del_one key : prog unit :=
  keys ← b_del_plan key;
  p_del keys.

Definition b_del (keys : list str) : prog unit := p_for_each keys b_del_one.

Definition b_is_link key : prog bool :=
  v ← p_get key; mret match v with Some data => head_is_ptr (from_wire_head data) | None => false end.

Definition b_scan_unreserved base : prog (list str) :=
  keys ← p_scan_keys base; mret (filter (λ k, is_reserved k = false) keys).

Definition b_del_tree prefix : prog unit :=
  guard_err (is_reserved prefix) (ReservedKey prefix);;
  resolved ← b_resolve_parent prefix;
  guard_err (is_reserved resolved) (ReservedKey resolved);;
  let base := subtree_base resolved in
  link ← (if bool_decide (base = []) then mret false else b_is_link base);
  if link : bool then b_del [resolved]
  else
    let scan := if decide (base = []) then PATH_SEP else base in
    keys ← b_scan_unreserved scan;
    if decide (keys = []) then mret tt else p_del keys.

Definition b_cp src dst : prog unit :=
  guard_err (is_reserved src || is_reserved dst) ReservedSrcDst;;
  raw ← b_get_raw src;
  guard_err (bool_decide (raw = [])) (CpNotFound src);;
  b_set [mkPair dst (XValue.from_wire raw) (Some raw)].

Definition b_copy_key (k new_key : str) : prog unit :=
  data ← p_get k;
  match data with Some data => p_set new_key data | None => mret tt end.

Definition b_cp_tree src dst : prog unit :=
  guard_err (is_reserved src || is_reserved dst) ReservedSrcDst;;
  src_res ← b_resolve_path src;
  dst_res ← b_resolve_path dst;
  guard_err (is_reserved src_res || is_reserved dst_res) ReservedSrcDst;;
  let src_scan := pop_dir src_res in
  let dst_base := pop_dir dst_res in
  if decide (src_scan = dst_base) then mret tt
  else
    guard_err (is_descendant src_scan dst_base) CpTreeInside;;
    keys ← b_scan_unreserved src_scan;
    guard_err (bool_decide (keys = [])) (CpTreeNotFound src);;
    p_ignore (b_del_tree dst_base);;
    p_for_each keys (λ k, b_copy_key k (dst_base ++ drop (length src_scan) k)).

Definition b_cp_list src dst : prog unit :=
  guard_err (is_reserved src || is_reserved dst) ReservedSrcDst;;
  src_res ← b_resolve_path src;
  let src_base := pop_dir src_res in
  dst_res ← b_resolve_path dst;
  guard_err (is_reserved src_base || is_reserved dst_res) ReservedSrcDst;;
  let dst_base := pop_dir dst_res in
  if decide (src_base = dst_base) then mret tt
  else
    keys ← b_scan_unreserved src_base;
    guard_err (bool_decide (keys = [])) (CpListNotFound src);;
    p_ignore (b_del_tree dst_base);;
    p_for_each keys (λ k,
      let suffix := drop (length src_base) k in
      if one_level suffix then b_copy_key k (dst_base ++ suffix) else mret tt).

Definition b_mkindex path (capacity : Z) : prog unit :=
  guard_err (negb (is_dir path)) (MkindexNotDir path);;
  resolved ← b_resolve_path path;
  value ← pure (ok_or (MkindexInvalid resolved) (HeadLenPow.to_wire [] "lib"%rs));
  found ← b_present resolved;
  if found : bool then mret tt else p_set resolved value.

Definition b_ext_index path (ext_path : str) : prog unit :=
  guard_err (negb (is_dir path) || negb (is_dir ext_path)) (ExtIndexNotDir path ext_path);;
  nested ← b_prefix_ext ext_path;
  guard_err (negb (bool_decide (nested = []))) (ExtCascade ext_path);;
  resolved ← b_resolve_parent path;
  found ← b_present ext_path;
  guard_err (negb found) (ExtTargetMissing ext_path);;
  langtype ← b_langtype_of ext_path;
  let prefixed := if starts_with "@"%rs langtype then langtype else "@"%rs ++ langtype in
  value ← pure (ok_or (ExtLocatorInvalid ext_path) (HeadLenPow.to_wire ext_path prefixed));
  p_set resolved value.

Definition b_del_ext_index path : prog unit :=
  resolved ← b_resolve_parent path;
  let link_key := if is_dir resolved then strip_dir_suf resolved else resolved in
  link ← b_is_link link_key;
  if link : bool then p_del [link_key] else p_del [resolved].

Definition b_clear : prog unit := p_flush.

(** The names of a listing do not depend on the order or the repetitions of the scan. *)
Lemma index_fold_same dir (ks1 ks2 : list str) :
  (∀ k, k ∈ ks1 ↔ k ∈ ks2) → foldl (index_fold dir) ∅ ks1 = foldl (index_fold dir) ∅ ks2.
Proof.
  intros Hks. apply map_eq. intros name.
  destruct (lookup_index_fold dir ks1 ∅ name) as [Hs1 Ht1], (lookup_index_fold dir ks2 ∅ name) as [Hs2 Ht2].
  setoid_rewrite Hks in Hs1. setoid_rewrite Hks in Ht1. rewrite <-Hs2 in Hs1. rewrite <-Ht2 in Ht1.
  destruct (foldl _ ∅ ks1 !! name) as [[]|], (foldl _ ∅ ks2 !! name) as [[]|]; try done; naive_solver.
Qed.

(** Past a result without calls, on both sides. *)
Ltac through H :=
  apply runs_pure in H;
  match type of H with match ?x with _ => _ end =>
    destruct x as [?|?|?]; [|by destruct H as [-> ->]..]
  end;
  cbn [mbind res_bind].

(** Past a guard of a computation on both sides. *)
Ltac past H b := rewrite ?bind_err_if; destruct b eqn:?; [by apply runs_pure in H as [-> ->]|]; cbn [bail_if] in H;
  change (pure (Ok tt)) with (mret tt : prog unit) in H.

Section calls.
Context {St : Type} `{KVStore St}.

(** ** What the reads compute *)

Lemma reads_present key : reads (b_present key) (λ m : St, present m key).
Proof. intros m r m' Hr. unfold b_present in Hr. by follow Hr. Qed.

Lemma reads_is_link key : reads (b_is_link key) (λ m : St, is_link m key).
Proof. intros m r m' Hr. unfold b_is_link in Hr. by follow Hr. Qed.

Lemma reads_get_dir dir : reads (b_get_dir dir) (λ m : St, get_dir m dir).
Proof. intros m r m' Hr. unfold b_get_dir in Hr. by follow Hr. Qed.

Lemma reads_prefix_ext prefix : reads (b_prefix_ext prefix) (λ m : St, prefix_ext m prefix).
Proof. intros m r m' Hr. unfold b_prefix_ext in Hr. by follow Hr. Qed.
#[local] Hint Resolve reads_present reads_is_link reads_get_dir reads_prefix_ext : acts.

Lemma reads_resolve_one path : reads (b_resolve_one path) (λ m : St, resolve_one m path).
Proof.
  intros m r m' Hr. unfold b_resolve_one in Hr. unfold resolve_one, gets. case_decide; follow Hr; [done|].
  by destruct (first_link _ _) as [[target rest]|].
Qed.
#[local] Hint Resolve reads_resolve_one : acts.

Lemma reads_resolve_loop n path : reads (b_resolve_loop n path) (λ m : St, resolve_loop n m path).
Proof.
  revert path. induction n as [|n IH]; intros path m r m' Hr; cbn [b_resolve_loop] in Hr; follow Hr; [done|].
  cbn [resolve_loop]. unfold gets. destruct (resolve_one m path) as [resolved [|]]; cbn [fst snd] in *.
  - by apply IH.
  - by follow Hr.
Qed.

Lemma reads_resolve_path path : reads (b_resolve_path path) (λ m : St, resolve_path m path).
Proof. apply reads_resolve_loop. Qed.
#[local] Hint Resolve reads_resolve_path : acts.

Lemma reads_resolve_parent path : reads (b_resolve_parent path) (λ m : St, resolve_parent m path).
Proof.
  intros m r m' Hr. unfold b_resolve_parent in Hr. unfold resolve_parent, gets. cbv zeta in *.
  destruct (sep_path _) as [parent last]. case_decide; by follow Hr.
Qed.
#[local] Hint Resolve reads_resolve_parent : acts.

Lemma reads_locate key : reads (b_locate key) (λ m : St, locate m key).
Proof.
  intros m r m' Hr. unfold b_locate in Hr. unfold locate, gets. destruct (sep_path key) as [p l]. by follow Hr.
Qed.
#[local] Hint Resolve reads_locate : acts.

Lemma reads_scanned {A : Type} (p : str) (f : list str → prog A) (g : list str → St → A) :
  (∀ ks, reads (f ks) (g ks)) → (∀ (m : St) ks1 ks2, (∀ k, k ∈ ks1 ↔ k ∈ ks2) → g ks1 m = g ks2 m) →
  reads (p_scan_keys p ≫= f) (λ m : St, g (kv_scan_keys m p) m).
Proof.
  intros Hf Hg. apply (acts_scan p f (λ ks, gets (g ks))). intros m ks r m' Hks Hr.
  apply Hf in Hr. rewrite <-Hr. unfold gets. by rewrite (Hg m _ ks) by done.
Qed.

Lemma reads_read_dir_index dir : reads (b_read_dir_index dir) (λ m : St, read_dir_index m dir).
Proof.
  apply (reads_scanned _ _ (λ keys _, sort_names (show_name <$> map_to_list (foldl (index_fold dir) ∅ keys)))).
  - intros ks. apply reads_ret.
  - intros m ks1 ks2 Hks. by rewrite (index_fold_same dir ks1 ks2).
Qed.
#[local] Hint Resolve reads_read_dir_index : acts.

Lemma reads_get_split prefix i keys :
  reads (b_get_split prefix i keys) (λ m : St, get_split m prefix i keys).
Proof.
  revert i. induction keys as [|k keys IH]; intros i m r m' Hr; cbn [b_get_split] in Hr; [by follow Hr|].
  cbn [get_split]. unfold gets. specialize (IH (S i)).
  destruct (get_split m prefix (S i) keys) as [results full_keys] eqn:E.
  destruct (is_reserved _); [|destruct (is_dir _)]; follow Hr; by rewrite E.
Qed.
#[local] Hint Resolve reads_get_split : acts.

Lemma reads_if {A : Type} (b : bool) (p q : prog A) (f g : St → A) :
  reads p f → reads q g → reads (if b then p else q) (λ m : St, if b then f m else g m).
Proof. by destruct b. Qed.
#[local] Hint Resolve reads_if : acts.

Lemma acts_get prefix keys resolve : acts (b_get prefix keys resolve) (λ m : St, (get m prefix keys resolve, m)).
Proof.
  intros m r m' Hr. unfold b_get in Hr. apply runs_pure in Hr. unfold get.
  destruct (assert_dir prefix) as [[]|e|e]; [|by destruct Hr as [-> ->]..].
  cbn [mbind res_bind]. follow Hr. set (at_ := if resolve then _ else _) in *. clearbody at_.
  destruct (get_split m at_ 0 keys) as [results full_keys]. cbn [fst snd] in Hr.
  destruct (get_fill results full_keys _) as [results' missing].
  destruct missing as [|i missing]; follow Hr; [done|].
  destruct (prefix_ext m at_) as [|c ext_t]; [by follow Hr|]. cbn [fmap list_fmap] in Hr. by follow Hr.
Qed.

Lemma reads_get_raw key : reads (b_get_raw key) (λ m : St, get_raw m key).
Proof.
  intros m r m' Hr. unfold b_get_raw in Hr. unfold get_raw, gets.
  destruct (is_reserved key); [by follow Hr|]. follow Hr. destruct (locate m key) as [p l].
  destruct (is_reserved _); [by follow Hr|]. follow Hr.
  destruct (kv_get m _); follow Hr; [done|].
  by destruct (prefix_ext m p); follow Hr.
Qed.
#[local] Hint Resolve reads_get_raw : acts.

Lemma reads_b_get_part key off len : reads (b_get_part key off len) (λ m : St, get_part m key off len).
Proof.
  intros m r m' Hr. unfold b_get_part in Hr. unfold get_part, gets.
  destruct (is_reserved key); [by follow Hr|]. follow Hr. destruct (locate m key) as [p l].
  destruct (is_reserved _); [by follow Hr|]. follow Hr.
  destruct (kv_exists m _); follow Hr; [done|].
  destruct (prefix_ext m p) as [|c ext_t]; follow Hr; [done|].
  by destruct (kv_exists m _); follow Hr.
Qed.

Lemma reads_langtype_of key : reads (b_langtype_of key) (λ m : St, langtype_of m key).
Proof. intros m r m' Hr. unfold b_langtype_of in Hr. by follow Hr. Qed.
#[local] Hint Resolve reads_langtype_of : acts.

Lemma acts_list prefix expand_ext resolve :
  acts (b_list prefix expand_ext resolve) (λ m : St, (list_ m prefix expand_ext resolve, m)).
Proof.
  intros m r m' Hr. unfold b_list in Hr. unfold list_.
  destruct (is_reserved prefix); [by follow Hr|]. apply runs_pure in Hr.
  destruct (assert_dir prefix) as [[]|e|e]; [|by destruct Hr as [-> ->]..].
  cbn [mbind res_bind]. follow Hr. set (at_ := if resolve then _ else _) in *. clearbody at_.
  destruct (negb (is_dir at_)); [by follow Hr|]. destruct (is_reserved at_); [by follow Hr|]. follow Hr.
  destruct expand_ext; follow Hr; [|done]. by destruct (prefix_ext m at_); follow Hr.
Qed.

Lemma acts_get_one key : acts (b_get_one key) (λ m : St, (get_one m key, m)).
Proof.
  intros m r m' Hr. unfold b_get_one in Hr. unfold get_one. destruct (sep_path key) as [p l].
  cbv zeta in *. apply runs_bind_inv in Hr as (r1 & m1 & Hr1 & Hr). apply acts_get in Hr1. simplify_eq.
  destruct (get m1 _ _ _) as [[|v vs]|e|e]; [by follow Hr..|by destruct Hr as [-> ->]|by destruct Hr as [-> ->]].
Qed.

(** ** What the writes compute *)

Lemma reads_shadowed key parent ext_target :
  reads (b_shadowed key parent ext_target) (λ m : St,
    negb (bool_decide (ext_target = [])) && negb (present m key) &&
    present m (ext_target ++ default [] (strip_prefix parent key))).
Proof.
  intros m r m' Hr. unfold b_shadowed in Hr. unfold gets.
  destruct (bool_decide _); [by follow Hr|]. follow Hr. destruct (present m key); [by follow Hr|].
  by apply reads_present in Hr.
Qed.
#[local] Hint Resolve reads_shadowed : acts.

(** A member whose container has no head. *)
Lemma reads_headless (b : bool) base :
  reads (if b then found ← b_present base; mret (negb found) else mret false) (λ m : St, b && negb (present m base)).
Proof. intros m r m' Hr. destruct b; by follow Hr. Qed.
#[local] Hint Resolve reads_headless : acts.

Lemma acts_set_plan pair : acts (b_set_plan pair) (λ m : St, (set_plan m pair, m)).
Proof.
  intros m r m' Hr. unfold b_set_plan in Hr. unfold set_plan.
  cbv zeta in *. through Hr. follow Hr. set (key := resolve_parent m _) in *. clearbody key.
  do 6 through Hr. follow Hr. through Hr. follow Hr. through Hr. by follow Hr.
Qed.

Lemma acts_set_one pair : acts (b_set_one pair) (set_one (St:=St) pair).
Proof. apply acts_bind; [apply acts_set_plan|]. intros plan. apply acts_set. Qed.

Lemma acts_b_set pairs : acts (b_set pairs) (set (St:=St) pairs).
Proof. apply acts_for_each, acts_set_one. Qed.

Lemma acts_set_part_target key : acts (b_set_part_target key) (λ m : St, (set_part_target m key, m)).
Proof.
  intros m r m' Hr. unfold b_set_part_target in Hr. unfold set_part_target.
  through Hr. follow Hr. destruct (locate m key) as [p l]. through Hr. follow Hr.
  destruct (kv_exists m _); follow Hr; [done|].
  destruct (prefix_ext m p) as [|c ext_t]; follow Hr; [done|]. cbn [bool_decide negb] in *.
  rewrite bool_decide_false in Hr |- * by done. follow Hr. cbn [negb andb].
  by destruct (kv_exists m _); follow Hr.
Qed.

Lemma acts_b_set_part key off buf : acts (b_set_part key off buf) (set_part (St:=St) key off buf).
Proof.
  intros m r m' Hr. unfold b_set_part in Hr. unfold set_part. rewrite stm_bind_eq. unfold set_part_plan.
  apply runs_bind_inv in Hr as (r1 & m1 & Hr1 & Hr). apply acts_set_part_target in Hr1. simplify_eq.
  destruct (set_part_target m1 key) as [target|e|e]; [|by destruct Hr as [-> ->]..].
  cbn [mbind res_bind]. follow Hr. do 3 through Hr. by apply acts_set_part in Hr.
Qed.

Lemma acts_del_plan key : acts (b_del_plan key) (λ m : St, (del_plan m key, m)).
Proof.
  intros m r m' Hr. unfold b_del_plan in Hr. unfold del_plan.
  through Hr. follow Hr. through Hr. follow Hr. through Hr. by follow Hr.
Qed.

Lemma acts_del_one key : acts (b_del_one key) (del_one (St:=St) key).
Proof. apply acts_bind; [apply acts_del_plan|]. intros keys. apply acts_del. Qed.

Lemma acts_b_del keys : acts (b_del keys) (del (St:=St) keys).
Proof. apply acts_for_each, acts_del_one. Qed.
End calls.
#[local] Hint Resolve reads_get_raw reads_get_split reads_headless reads_if reads_langtype_of reads_locate reads_present reads_is_link reads_get_dir reads_prefix_ext reads_read_dir_index reads_resolve_one reads_resolve_parent reads_resolve_path reads_shadowed : acts.

Lemma delete_keys_same (ks1 ks2 : list str) (m : mem) :
  (∀ k, k ∈ ks1 ↔ k ∈ ks2) → delete_keys ks1 m = delete_keys ks2 m.
Proof.
  intros Hks. apply map_eq. intros k. rewrite !lookup_delete_keys.
  by rewrite (decide_ext _ _ _ _ (Hks k)).
Qed.

Lemma runs_scan_keys base m r m' :
  runs (b_scan_unreserved base) m r m' →
  ∃ keys, (∀ k, k ∈ keys ↔ k ∈ scan_unreserved m base) ∧ r = Ok keys ∧ m' = m.
Proof.
  intros Hr. apply runs_call_inv in Hr as (reply & Hreply & Hr). cbn [pure_op fst snd] in *.
  destruct reply as [| | |ks|]; try done. apply runs_done_inv in Hr as [-> ->].
  eexists. split; [|by split]. intros k. unfold scan_unreserved. rewrite !list_elem_of_filter.
  by rewrite (Hreply k).
Qed.

Lemma runs_scan_unreserved {B : Type} base (f : list str → prog B) m r m' :
  runs (b_scan_unreserved base ≫= f) m r m' →
  ∃ keys, (∀ k, k ∈ keys ↔ k ∈ scan_unreserved m base) ∧ runs (f keys) m r m'.
Proof.
  intros (r1 & m1 & (keys & Hkeys & -> & ->)%runs_scan_keys & Hr)%runs_bind_inv. by exists keys.
Qed.

Lemma same_nil (ks1 ks2 : list str) : (∀ k, k ∈ ks1 ↔ k ∈ ks2) → (ks1 = [] ↔ ks2 = []).
Proof.
  intros Hks. split; intros ->; [destruct ks2 as [|k ?]|destruct ks1 as [|k ?]]; try done;
    destruct (not_elem_of_nil k); apply Hks; by left.
Qed.

Lemma reads_link_base base :
  reads (if bool_decide (base = []) then mret false else b_is_link base)
    (λ m, negb (bool_decide (base = [])) && is_link m base).
Proof. intros m r m' Hr. destruct (bool_decide _); [by follow Hr|]. by apply reads_is_link in Hr. Qed.
#[local] Hint Resolve reads_link_base : acts.

Lemma acts_b_del_tree prefix : acts (b_del_tree prefix) (del_tree prefix).
Proof.
  intros m r m' Hr. unfold b_del_tree in Hr. unfold del_tree.
  past Hr (is_reserved prefix). follow Hr. rewrite bind_gets. past Hr (is_reserved (resolve_parent m prefix)).
  follow Hr. cbv zeta. rewrite bind_gets.
  destruct (negb _ && is_link m _); [by apply acts_b_del|]. rewrite bind_gets.
  apply runs_scan_unreserved in Hr as (keys & Hkeys & Hr).
  rewrite (decide_ext _ _ _ _ (same_nil _ _ Hkeys)) in Hr.
  case_decide; [by follow Hr|]. apply acts_del in Hr. rewrite <-Hr. unfold modify. cbn.
  by rewrite (delete_keys_same _ _ m Hkeys).
Qed.

Lemma acts_b_cp src dst : acts (b_cp src dst) (cp src dst).
Proof.
  intros m r m' Hr. unfold b_cp in Hr. unfold cp. past Hr (is_reserved src || is_reserved dst).
  follow Hr. rewrite bind_gets. past Hr (bool_decide (get_raw m src = [])). by apply acts_b_set.
Qed.

Lemma acts_b_mkindex path capacity : acts (b_mkindex path capacity) (mkindex path capacity).
Proof.
  intros m r m' Hr. unfold b_mkindex in Hr. unfold mkindex. past Hr (negb (is_dir path)). follow Hr.
  rewrite bind_gets, stm_bind_eq. unfold lift. through Hr. follow Hr. rewrite bind_gets.
  destruct (present m _); [by follow Hr|by apply acts_set].
Qed.

Lemma acts_b_ext_index path ext_path : acts (b_ext_index path ext_path) (ext_index path ext_path).
Proof.
  intros m r m' Hr. unfold b_ext_index in Hr. unfold ext_index.
  past Hr (negb (is_dir path) || negb (is_dir ext_path)). follow Hr.
  rewrite bind_gets. past Hr (negb (bool_decide (prefix_ext m ext_path = []))). follow Hr.
  rewrite !bind_gets. past Hr (negb (present m ext_path)). follow Hr.
  rewrite bind_gets, stm_bind_eq. unfold lift. through Hr. by apply acts_set.
Qed.

Lemma acts_b_del_ext_index path : acts (b_del_ext_index path) (del_ext_index path).
Proof.
  intros m r m' Hr. unfold b_del_ext_index in Hr. unfold del_ext_index. follow Hr.
  rewrite bind_gets. cbv zeta. rewrite bind_gets. by destruct (is_link m _); apply acts_del.
Qed.

(** ** Copies: the order of the scan does not matter apart from the source *)

Section copies.
Context (target : str → option str).

Definition copies (keys : list str) : stm mem kverr unit :=
  for_each keys (λ k, match target k with Some t => copy_key k t | None => mret tt end).

(** No key is the target of another, and no two share a target. *)
Definition separate (keys : list str) : Prop :=
  (∀ k1 k2, k1 ∈ keys → k2 ∈ keys → target k1 ≠ Some k2) ∧
  (∀ k1 k2 t, k1 ∈ keys → k2 ∈ keys → target k1 = Some t → target k2 = Some t → k1 = k2).

(** What [x] holds after the copies. *)
Definition copied (keys : list str) (m : mem) (x : str) (v : bytes) : Prop :=
  (∃ k, k ∈ keys ∧ target k = Some x ∧ m !! k = Some v) ∨
  (m !! x = Some v ∧ ∀ k, k ∈ keys → target k = Some x → m !! k = None).

Lemma separate_tail k (keys : list str) : separate (k :: keys) → separate keys.
Proof. intros [H1 H2]. split; intros; [apply H1|eapply H2]; try done; by right. Qed.

(** One copy: the rest sees its sources as they were. *)
Lemma copied_step (k t : str) (w : bytes) (keys : list str) (m : mem) (x : str) (v : bytes) :
  separate (k :: keys) → target k = Some t → m !! k = Some w →
  copied keys (<[t := w]> m) x v ↔ copied (k :: keys) m x v.
Proof.
  intros [H1 H2] Ht Hw.
  assert (Hsrc : ∀ k', k' ∈ keys → <[t := w]> m !! k' = m !! k').
  { intros k' Hk'. apply lookup_insert_ne. intros ->. apply (H1 k k'); [by left|by right|done]. }
  assert (Hsame : ∀ k', k' ∈ keys → target k' = Some t → k' = k).
  { intros k' Hk' Ht'. apply (H2 k' k t); [by right|by left|done..]. }
  unfold copied. setoid_rewrite elem_of_cons. destruct (decide (x = t)) as [->|Hne].
  - rewrite lookup_insert_eq. split.
    + intros [(k' & Hk' & Ht' & Hv)|[[= <-] _]]; left; [|by eauto].
      rewrite Hsrc in Hv by done. eauto.
    + intros [(k' & [->|Hk'] & Ht' & Hv)|[_ Hnone]]; [| |by rewrite (Hnone k) in Hw; auto].
      * destruct (decide (k ∈ keys)) as [Hk|Hk].
        -- left. exists k. by rewrite Hsrc.
        -- right. split; [congruence|]. intros k' Hk' Ht''. by rewrite (Hsame k' Hk' Ht'') in Hk'.
      * left. exists k'. by rewrite Hsrc.
  - rewrite lookup_insert_ne by done. split.
    + intros [(k' & Hk' & Ht' & Hv)|[Hv Hnone]]; [left|right].
      * rewrite Hsrc in Hv by done. eauto.
      * split; [done|]. intros k' [->|Hk'] Ht'; [congruence|]. rewrite <-Hsrc by done. by apply Hnone.
    + intros [(k' & [->|Hk'] & Ht' & Hv)|[Hv Hnone]]; [congruence|left|right].
      * exists k'. by rewrite Hsrc.
      * split; [done|]. intros k' Hk' Ht'. rewrite Hsrc by done. apply Hnone; auto.
Qed.

Lemma copies_result (keys : list str) (m : mem) :
  separate keys → ∃ m', copies keys m = (Ok tt, m') ∧ ∀ x v, m' !! x = Some v ↔ copied keys m x v.
Proof.
  revert m. induction keys as [|k keys IH]; intros m Hsep.
  { exists m. split; [done|]. intros x v. unfold copied. set_solver. }
  unfold copies. cbn [for_each]. fold (copies keys).
  pose proof (separate_tail _ _ Hsep) as Htail.
  assert (Hskip : target k = None ∨ m !! k = None → ∀ x v, copied keys m x v ↔ copied (k :: keys) m x v).
  { intros Hk x v. unfold copied. setoid_rewrite elem_of_cons. split.
    - intros [(k' & ? & ? & ?)|[? Hn]]; [left; eauto|right]. split; [done|].
      intros k' [->|?] Ht; [|by apply Hn]. by destruct Hk; [congruence|].
    - intros [(k' & [->|?] & ? & ?)|[? Hn]]; [by destruct Hk; congruence|left; eauto|right]. eauto. }
  destruct (target k) as [t|] eqn:Ht.
  - rewrite stm_bind_eq. unfold copy_key. rewrite bind_gets.
    change (kv_get m k) with (m !! k). destruct (m !! k) as [w|] eqn:Hw.
    + destruct (IH (<[t := w]> m) Htail) as (m' & Hrun & Hm'). exists m'. split; [exact Hrun|].
      intros x v. rewrite Hm'. by apply copied_step.
    + destruct (IH m Htail) as (m' & Hrun & Hm'). exists m'. split; [exact Hrun|].
      intros x v. rewrite Hm'. apply Hskip. by right.
  - destruct (IH m Htail) as (m' & Hrun & Hm'). exists m'. split; [exact Hrun|].
    intros x v. rewrite Hm'. apply Hskip. by left.
Qed.

Lemma copies_same (ks1 ks2 : list str) (m : mem) :
  separate ks1 → (∀ k, k ∈ ks1 ↔ k ∈ ks2) → copies ks1 m = copies ks2 m.
Proof.
  intros Hsep Hks.
  assert (Hsep2 : separate ks2).
  { destruct Hsep as [Hne Hinj]. split; intros k1 k2; [|intros t]; rewrite <-!Hks; [apply Hne|apply Hinj]. }
  destruct (copies_result ks1 m Hsep) as (m1 & -> & H1), (copies_result ks2 m Hsep2) as (m2 & -> & H2).
  f_equal. apply map_eq. intros x. apply option_eq. intros v. rewrite H1, H2. unfold copied.
  by setoid_rewrite Hks.
Qed.
End copies.

Lemma acts_copy_key k new_key : acts (b_copy_key k new_key) (copy_key k new_key).
Proof.
  intros m r m' Hr. unfold b_copy_key in Hr. unfold copy_key. follow Hr. rewrite bind_gets.
  destruct (kv_get m k); [by apply acts_set|by follow Hr].
Qed.

(** Where a copy of the subtree [src] to [dst] puts a key, if [pick] lets it through. *)
Definition image (pick : str → bool) src dst (k : str) : option str :=
  let suffix := drop (length src) k in
  if pick suffix then Some (dst ++ suffix) else None.

Lemma separate_image pick src dst (keys : list str) :
  apart src dst → (∀ k, k ∈ keys → is_subtree_key src k = true) → separate (image pick src dst) keys.
Proof.
  intros Ha Hkeys. pose proof Ha as (Hs & Hd & _).
  assert (Hsplit : ∀ k, k ∈ keys → ∃ r, k = src ++ r ∧ drop (length src) k = r ∧ is_subtree_key dst (dst ++ r) = true).
  { intros k Hk. pose proof (Hkeys k Hk) as Hsub. apply proper_subtree in Hsub as (r & -> & Hr); [|done].
    exists r. rewrite drop_app_length. split_and!; [done..|]. apply proper_subtree; eauto. }
  unfold image. split.
  - intros k1 k2 H1 H2. destruct (Hsplit k1 H1) as (r & _ & -> & Hdst). cbv zeta.
    destruct (pick r); [|done]. intros [= <-]. apply Hkeys in H2.
    by rewrite (apart_source src dst) in Hdst.
  - intros k1 k2 t H1 H2. destruct (Hsplit k1 H1) as (r1 & E1 & -> & _), (Hsplit k2 H2) as (r2 & E2 & -> & _).
    cbv zeta. destruct (pick r1), (pick r2); try done. intros [= <-] [= E]. apply app_inv_head in E. congruence.
Qed.

(** A copy loop over the keys of a scan of [src], taken in any order. *)
Lemma copy_loop_same (pick : str → bool) src dst (f : str → prog unit) (g : str → stm mem kverr unit) (keys : list str)
    (m0 m : mem) r m' :
  apart src dst → (∀ k, k ∈ keys ↔ k ∈ scan_unreserved m0 src) →
  (∀ k, acts (f k) (g k)) →
  (∀ k s, g k s = (match image pick src dst k with Some t => copy_key k t | None => mret tt end) s) →
  runs (p_for_each keys f) m r m' → for_each (scan_unreserved m0 src) g m = (r, m').
Proof.
  intros Ha Hkeys Hf Hg Hr. apply (acts_for_each keys f g) in Hr; [|done]. rewrite <-Hr.
  assert (Hcopies : ∀ l s, for_each l g s = copies (image pick src dst) l s).
  { induction l as [|k l IH]; intros s; [done|]. unfold copies. cbn [for_each]. rewrite !stm_bind_eq, Hg.
    destruct (image pick src dst k); [destruct (copy_key k _ s) as [[[]|e|e] s1]; [apply IH|done..]|apply IH]. }
  rewrite !Hcopies. symmetry. apply copies_same; [|done]. apply separate_image; [done|].
  intros k Hk%Hkeys. by apply (elem_scan_unreserved m0) in Hk as [Hk _].
Qed.

Lemma runs_cp_tree src dst m r m' :
  apart (pop_dir (resolve_path m src)) (pop_dir (resolve_path m dst)) →
  runs (b_cp_tree src dst) m r m' → cp_tree src dst m = (r, m').
Proof.
  intros Ha Hr. unfold b_cp_tree in Hr. unfold cp_tree.
  past Hr (is_reserved src || is_reserved dst). follow Hr. rewrite !bind_gets.
  past Hr (is_reserved (resolve_path m src) || is_reserved (resolve_path m dst)). follow Hr.
  cbv zeta. set (S0 := pop_dir (resolve_path m src)) in *. set (D0 := pop_dir (resolve_path m dst)) in *.
  case_decide; [by follow Hr|]. past Hr (is_descendant S0 D0). follow Hr. rewrite bind_gets.
  apply runs_scan_unreserved in Hr as (keys & Hkeys & Hr).
  rewrite (bool_decide_ext _ _ (same_nil _ _ Hkeys)) in Hr.
  past Hr (bool_decide (scan_unreserved m S0 = [])). follow Hr.
  apply runs_bind_inv in Hr as (r1 & m1 & Hr1 & Hr).
  apply (acts_ignore _ _ (acts_b_del_tree D0)) in Hr1. rewrite stm_bind_eq, Hr1.
  destruct r1 as [[]|e|e]; [|by destruct Hr as [-> ->]..].
  eapply (copy_loop_same (λ _, true) S0 D0) with (m0 := m) in Hr; [exact Hr|done|done| |].
  - intros k. apply acts_copy_key.
  - done.
Qed.

Lemma runs_cp_list src dst m r m' :
  apart (pop_dir (resolve_path m src)) (pop_dir (resolve_path m dst)) →
  runs (b_cp_list src dst) m r m' → cp_list src dst m = (r, m').
Proof.
  intros Ha Hr. unfold b_cp_list in Hr. unfold cp_list.
  past Hr (is_reserved src || is_reserved dst). follow Hr. rewrite !bind_gets.
  set (S0 := pop_dir (resolve_path m src)) in *.
  past Hr (is_reserved S0 || is_reserved (resolve_path m dst)). follow Hr.
  cbv zeta. set (D0 := pop_dir (resolve_path m dst)) in *.
  case_decide; [by follow Hr|]. rewrite bind_gets.
  apply runs_scan_unreserved in Hr as (keys & Hkeys & Hr).
  rewrite (bool_decide_ext _ _ (same_nil _ _ Hkeys)) in Hr.
  past Hr (bool_decide (scan_unreserved m S0 = [])). follow Hr.
  apply runs_bind_inv in Hr as (r1 & m1 & Hr1 & Hr).
  apply (acts_ignore _ _ (acts_b_del_tree D0)) in Hr1. rewrite stm_bind_eq, Hr1.
  destruct r1 as [[]|e|e]; [|by destruct Hr as [-> ->]..].
  eapply (copy_loop_same one_level S0 D0) with (m0 := m) in Hr; [exact Hr|done|done| |].
  - intros k. cbv beta zeta. destruct (one_level _); [apply acts_copy_key|apply acts_ret].
  - intros k s. unfold image. cbv zeta. by destruct (one_level _).
Qed.
