(* ===== verification/BackendRemote.v ===== *)
(** * The key-value space over Redis and S3

    [Backend] composed with the stores behind a connection: a program that uses the key-value
    space gets over Redis or S3 what it gets over the reference store. *)

From S2P Require Import Prelude RustInt RustStr RustText HeadLenPow KPath Coord XValue Store Remote Backend BackendRead BackendTree Client BackendClient.
From S2P Require Import Dsn S3Store S3Safety S3Api S3Server S3Refines Redis RedisCodec RedisApi RedisRefines.
Local Open Scope Z_scope.
Implicit Types (key path prefix dir src dst : str).

(** ** The methods as data *)

Inductive space_call : Type → Type :=
  | SGet prefix (keys : list str) (resolve : bool) : space_call (list XValue)
  | SGetOne key : space_call XValue
  | SGetRaw key : space_call bytes
  | SGetPart key (off len : Z) : space_call bytes
  | SList prefix (expand_ext resolve : bool) : space_call (list str)
  | SSet (pairs : list KVPair) : space_call unit
  | SSetPart key (off : Z) (buf : bytes) : space_call unit
  | SDel (keys : list str) : space_call unit
  | SDelTree prefix : space_call unit
  | SCp src dst : space_call unit
  | SCpTree src dst : space_call unit
  | SCpList src dst : space_call unit
  | SMkindex path (capacity : Z) : space_call unit
  | SExtIndex path (ext_path : str) : space_call unit
  | SDelExtIndex path : space_call unit
  | SClear : space_call unit.

(** The calls a method makes on its store ... *)
Definition call_prog {A} (c : space_call A) : prog A :=
  match c with
  | SGet prefix keys resolve => b_get prefix keys resolve
  | SGetOne key => b_get_one key
  | SGetRaw key => b_get_raw key
  | SGetPart key off len => b_get_part key off len
  | SList prefix e r => b_list prefix e r
  | SSet pairs => b_set pairs
  | SSetPart key off buf => b_set_part key off buf
  | SDel keys => b_del keys
  | SDelTree prefix => b_del_tree prefix
  | SCp src dst => b_cp src dst
  | SCpTree src dst => b_cp_tree src dst
  | SCpList src dst => b_cp_list src dst
  | SMkindex path capacity => b_mkindex path capacity
  | SExtIndex path ext_path => b_ext_index path ext_path
  | SDelExtIndex path => b_del_ext_index path
  | SClear => b_clear
  end.

(** ... and what the method of [Backend] does on the reference store. *)
Definition call_backend {A} (c : space_call A) : stm mem kverr A :=
  match c with
  | SGet prefix keys resolve => λ m, (get m prefix keys resolve, m)
  | SGetOne key => λ m, (get_one m key, m)
  | SGetRaw key => gets (λ m, get_raw m key)
  | SGetPart key off len => gets (λ m, get_part m key off len)
  | SList prefix e r => λ m, (list_ m prefix e r, m)
  | SSet pairs => Backend.set pairs
  | SSetPart key off buf => set_part key off buf
  | SDel keys => del keys
  | SDelTree prefix => del_tree prefix
  | SCp src dst => cp src dst
  | SCpTree src dst => cp_tree src dst
  | SCpList src dst => cp_list src dst
  | SMkindex path capacity => mkindex path capacity
  | SExtIndex path ext_path => ext_index path ext_path
  | SDelExtIndex path => del_ext_index path
  | SClear => clear
  end.

(** The two copies of a subtree have one outcome only where source and destination are apart. *)
Definition determined {A} (c : space_call A) (m : mem) : Prop :=
  match c with
  | SCpTree src dst | SCpList src dst =>
      apart (pop_dir (resolve_path m src)) (pop_dir (resolve_path m dst))
  | _ => True
  end.

Lemma call_prog_correct {A} (c : space_call A) (m : mem) r m' :
  determined c m → runs (call_prog c) m r m' → call_backend c m = (r, m').
Proof.
  intros Hd. destruct c; cbn [call_prog call_backend determined] in *.
  - apply acts_get.
  - apply acts_get_one.
  - apply reads_get_raw.
  - apply reads_b_get_part.
  - apply acts_list.
  - apply acts_b_set.
  - apply acts_b_set_part.
  - apply acts_b_del.
  - apply acts_b_del_tree.
  - apply acts_b_cp.
  - by apply runs_cp_tree.
  - by apply runs_cp_list.
  - apply acts_b_mkindex.
  - apply acts_b_ext_index.
  - apply acts_b_del_ext_index.
  - apply acts_flush.
Qed.

(** ** Programs that use the key-value space *)

Inductive client (A : Type) : Type :=
  | CDone (a : A)
  | CCall {B : Type} (c : space_call B) (k : res kverr B → client A).
Arguments CDone {A} a.
Arguments CCall {A B} c k.

(** Over a store behind a connection, and over the reference store. *)
Fixpoint run_client `{RemoteStore W E} {A : Type} (p : client A) : stm W E A :=
  match p with
  | CDone a => mret a
  | CCall c k => r ← run_prog (call_prog c); run_client (k r)
  end.

Fixpoint pure_client {A : Type} (p : client A) (m : mem) : A * mem :=
  match p with
  | CDone a => (a, m)
  | CCall c k => let '(r, m) := call_backend c m in pure_client (k r) m
  end.

Section clients.
Context {W E : Type} (I : nat → RemoteStore W E).
Context (R : mem → W → Prop) (ok : mem → kvop → Prop) (Q : mem → kvop → kvreply → Prop).

(** Every call on the store is within what the store is built for, whichever of the replies [Q]
    the store gets, and every method has one outcome. *)
Fixpoint proper {A : Type} (p : client A) (m : mem) : Prop :=
  match p with
  | CDone _ => True
  | CCall c k => safe ok Q (call_prog c) m ∧ determined c m ∧
      proper (k (call_backend c m).1) (call_backend c m).2
  end.

Lemma call_adequate {A : Type} (c : space_call A) m w :
  (∀ o, op_answers I R ok Q o) → safe ok Q (call_prog c) m → determined c m → R m w →
  ∃ (N : nat) w',
    (∀ n, (N <= n)%nat → run_prog (H := I n) (call_prog c) w = (Ok (call_backend c m).1, w')) ∧
    R (call_backend c m).2 w'.
Proof.
  intros Hop Hs Hd HR.
  destruct (run_prog_adequate I R ok Q (call_prog c) m w Hop Hs HR) as (N & r & w' & m' & Hrun & Hr & HR').
  rewrite (call_prog_correct c m r m' Hd Hr). by exists N, w'.
Qed.

Lemma client_adequate {A : Type} (p : client A) m w :
  (∀ o, op_answers I R ok Q o) → proper p m → R m w →
  ∃ (N : nat) w',
    (∀ n, (N <= n)%nat → run_client (H := I n) p w = (Ok (pure_client p m).1, w')) ∧
    R (pure_client p m).2 w'.
Proof.
  intros Hop. revert m w. induction p as [a|B c k IH]; intros m w; cbn [proper run_client pure_client].
  - intros _ HR. by exists O, w.
  - intros (Hs & Hd & Hk) HR. destruct (call_adequate c m w Hop Hs Hd HR) as (N1 & w1 & Hrun & HR1).
    destruct (call_backend c m) as [r m1]. cbn [fst snd] in *.
    destruct (IH r m1 w1 Hk HR1) as (N2 & w2 & Hruns & HR2).
    exists (max N1 N2), w2. split; [|done]. intros n Hn. rewrite stm_bind_eq, Hrun by lia. apply Hruns. lia.
Qed.
End clients.

(** ** Properties *)

(** The replies to a scan that this server gives: one full iteration, filtered by the client. *)
Definition scan_reply (scan : mem → bytes → Z → list str * Z) (m : mem) (o : kvop) (r : kvreply) : Prop :=
  match o, r with
  | OScan p, RKeys ks => ∃ n all, scan_chain scan m (scan_pattern p) n 0 all ∧
                                  ks = filter (λ k, is_subtree_key p k = true) all
  | _, _ => True
  end.

(** C36. A proper program that uses the key-value space over Redis, from a connected or a
    disconnected store, returns, without a panic of the store, what it returns over the reference
    store, and leaves the database that one reaches, in whatever order and with whatever
    repetitions the server lists its keys.  Proper is a condition on the run: every command is
    within what Redis is built for, the commands made from the keys this server's scans return
    included; the cursors of its scans stay below 2^63 ([large_cursor_loses_keys]); and a subtree
    is copied only to a place apart from it ([cp_list_depends_on_order]). *)
Theorem space_over_redis scan {W A : Type} (tcp_connect : str → W → res redis_err unit * W) tcp_option
    (tcp_write : bytes → W → res redis_err unit * W) tcp_next addr db pending (p : client A) m s :
  redis_server scan tcp_connect tcp_option tcp_write tcp_next db pending →
  r_view db pending m s → proper (r_call scan) (scan_reply scan) p m →
  ∃ (N : nat) s',
    (∀ n, (N <= n)%nat →
       run_client (H := redis_store tcp_connect tcp_option tcp_write tcp_next addr n) p s =
       (Ok (pure_client p m).1, s')) ∧
    r_view db pending (pure_client p m).2 s'.
Proof.
  intros Hsrv Hv Hp.
  apply (client_adequate (redis_store tcp_connect tcp_option tcp_write tcp_next addr) (r_view db pending)
    (r_call scan) (scan_reply scan)); [|done..].
  intros o. destruct o as [k|ks|k v|ks|q|k|k off len|k off buf|]; try (apply refines_answers; [done|by eapply r_op_refines]).
  intros m0 w Hok Hr.
  destruct (scan_answers scan tcp_connect tcp_option tcp_write tcp_next addr db pending Hsrv q m0 w Hok Hr) as (N & s' & n & ks & Hchain & Hrun & Hreply & Hr').
  exists N, (RKeys (filter (λ k, is_subtree_key q k = true) ks)), s'. split_and!; [done|done| |done].
  by exists n, ks.
Qed.

(** C37. A proper program that uses the key-value space over S3, against a server that keeps the
    API's promises and loses at most two requests in a row, returns, without a panic of the store,
    what it returns over the reference store, and leaves the objects that one reaches.  Proper
    means: every key it reads, writes or deletes names an object, a part read starts inside the
    value (S3 refuses a range that does not), and a subtree is copied only to a place apart from
    it ([cp_list_depends_on_order]). *)
Theorem space_over_s3 page (sha256 : bytes → bytes) (hmac : bytes → bytes → bytes) {W A : Type}
    (http : Request → W → Reply * W) (sleep : Z → W → W) (now : W → Z) st objects faults
    (p : client A) m w :
  s3_server page sha256 hmac http sleep now st objects faults →
  s3_view st m (objects w) → proper (s3_call st) (λ _ _ _, True) p m →
  ∃ (N : nat) w',
    (∀ n, (N <= n)%nat →
       run_client (H := s3_store sha256 hmac http sleep now st n) p w = (Ok (pure_client p m).1, w')) ∧
    s3_view st (pure_client p m).2 (objects w').
Proof.
  intros Hsrv Hv Hp.
  apply (client_adequate (s3_store sha256 hmac http sleep now st) (λ m w, s3_view st m (objects w))
    (s3_call st) (λ _ _ _, True)); [|done..].
  intros o. apply refines_answers; [done|]. by eapply s3_op_refines.
Qed.

(** ** At concrete inputs *)

(** The test for [r_call] on a small database. *)
Definition r_callb (m : mem) (o : kvop) : bool :=
  let short (k : str) := Z.of_nat (length k) <? 1000 in
  entries_ok (map_to_list m) && entries_ok (map_to_list (pure_op o m).2) &&
  match o with
  | OGet k | OExists k => short k
  | OGetMany ks | ODel ks => (Z.of_nat (length ks) <? 1000) && forallb short ks
  | OScan p => short p
  | OGetPart k off len =>
      match m !! k with
      | Some v => (0 <=? off) && (0 <=? len) && (off <? 1000) && (len <? 1000)
      | None => false
      end
  | OSetPart k off buf =>
      match m !! k with
      | Some v => (0 <=? off) && (off <? 1000) && (off + Z.of_nat (length buf) <=? Z.of_nat (length v))
      | None => false
      end
  | OSet _ _ | OFlush => true
  end.

Lemma forallb_short (ks : list str) :
  forallb (λ k, Z.of_nat (length k) <? 1000) ks = true → Forall (λ k : str, Z.of_nat (length k) <= 2 ^ 29) ks.
Proof.
  rewrite forallb_forall. intros H. apply Forall_forall. intros k Hk.
  apply list_elem_of_In, H in Hk. lia.
Qed.

Lemma r_callb_sound m o : r_callb m o = true → r_call Reference.two_rounds m o.
Proof.
  unfold r_callb. cbv zeta. rewrite !andb_true_iff. intros [[H1 H2] Ho]. unfold r_call.
  split; [by apply entries_text_db|]. split; [by apply entries_text_db|].
  destruct o as [k|ks|k v|ks|q|k|k off len|k off buf|]; try done; try lia.
  - apply andb_true_iff in Ho as [? Ho]. split; [lia|by apply forallb_short].
  - apply andb_true_iff in Ho as [? Ho]. split; [lia|by apply forallb_short].
  - split; [lia|apply Reference.two_rounds_fit].
  - destruct (m !! k) as [v|]; [|done]. exists v. split; [done|]. lia.
  - destruct (m !! k) as [v|]; [|done]. exists v. split; [done|]. lia.
Qed.

Lemma two_rounds_few m pattern n ks :
  scan_chain Reference.two_rounds m pattern n 0 ks → (length ks <= size m)%nat.
Proof.
  intros Hchain.
  assert (Hsize : size m = length (map_to_list m).*1) by by rewrite length_fmap, length_map_to_list.
  inversion Hchain as [c ks0 Hs Hl|n0 c ks0 c' ks' Hs Hl Hc Hrest]; subst;
    unfold Reference.two_rounds, Reference.rounds_at in Hs; cbn [Z.eqb] in Hs; injection Hs as <- Hnext.
  - rewrite length_take. lia.
  - destruct (bool_decide _); [lia|]. subst c'.
    inversion Hrest as [c ks1 Hs1 _|n1 c ks1 c' ks2 Hs1 _ Hc1 _]; subst;
      unfold Reference.two_rounds, Reference.rounds_at in Hs1; cbn [Z.eqb] in Hs1; injection Hs1 as <-; [|lia].
    rewrite length_app, length_take, length_drop. lia.
Qed.

(** Deleting the keys a scan of the reference server returned. *)
Lemma redis_del_scanned (base : str) (m : mem) (ks : list str) :
  text_db m → (size m < 2 ^ 10)%nat → RKeys ks ≡ (pure_op (OScan base) m).1 →
  scan_reply Reference.two_rounds m (OScan base) (RKeys ks) →
  r_call Reference.two_rounds m (ODel (filter (λ k, is_reserved k = false) ks)).
Proof.
  intros Hm Hsize Hks (n & all & Hchain & ->). apply two_rounds_few in Hchain.
  set (ks := filter (λ k, is_reserved k = false) _).
  assert (Hsub : ∀ k v, delete_keys ks m !! k = Some v → m !! k = Some v).
  { intros k v. rewrite lookup_delete_keys. by case_decide. }
  assert (Hin : ∀ k, k ∈ ks → is_Some (m !! k)).
  { intros k [_ Hk]%list_elem_of_filter. apply (Hks k) in Hk. by apply law_scan in Hk as [_ ?]. }
  split; [done|]. change (pure_op (ODel ks) m).2 with (delete_keys ks m).
  split; [split; [split|]|split].
  - assert (size (delete_keys ks m) <= size m)%nat; [|apply text_small, small_size in Hm; lia].
    apply map_subseteq_size, map_subseteq_spec, Hsub.
  - intros k v Hk. by apply (small_entry m (text_small m Hm)), Hsub.
  - intros k [v Hk]. apply (text_keys m Hm). exists v. by apply Hsub.
  - unfold ks.
    pose proof (length_filter (λ k, is_reserved k = false) (filter (λ k, is_subtree_key base k = true) all)).
    pose proof (length_filter (λ k, is_subtree_key base k = true) all).
    change (2 ^ 10)%nat with 1024%nat in Hsize. lia.
  - apply Forall_forall. intros k [v Hv]%Hin. by apply (small_entry m (text_small m Hm) k v).
Qed.

(** Deleting a subtree: the keys to delete are the ones the scan returned, in any order. *)
Lemma safe_del_tree (ok : mem → kvop → Prop) (Q : mem → kvop → kvreply → Prop) prefix (m : mem) :
  safe ok Q (b_resolve_parent prefix) m →
  let base := subtree_base (resolve_parent m prefix) in
  is_link m base = false → base ≠ [] → ok m (OGet base) → ok m (OScan base) →
  (∀ ks, RKeys ks ≡ (pure_op (OScan base) m).1 → Q m (OScan base) (RKeys ks) →
     ok m (ODel (filter (λ k, is_reserved k = false) ks))) →
  safe ok Q (b_del_tree prefix) m.
Proof.
  intros Hpar base Hlink Hne Hget Hscan Hdel. unfold b_del_tree. apply safe_guard. intros _.
  eapply safe_read; [apply reads_resolve_parent|done|].
  apply safe_guard. intros _. cbv zeta. fold base.
  eapply safe_read; [apply reads_link_base| |].
  { rewrite bool_decide_false by done. split; [done|]. by intros. }
  cbv beta. rewrite Hlink, andb_false_r, decide_False by done.
  split; [exact Hscan|]. intros reply Hr HQ. cbn [pure_op fst snd] in *.
  destruct reply as [| | |ks|]; try done. specialize (Hdel ks Hr HQ). cbn.
  destruct (decide _); [exact I|]. split; [done|]. by intros.
Qed.

(** A value, a directory, a copy of the value into it, a positional write, a read; then the
    directory is deleted with everything below it, which takes a scan, and read again. *)
Definition seven : bytes := XValue.to_wire (new_int64 [7]).
Definition sample_client : client (res kverr unit * res kverr bytes * res kverr bytes) :=
  CCall (SSet [mkPair "/a"%rs XNone (Some seven)]) (λ _,
  CCall (SMkindex "/d/"%rs 0) (λ _,
  CCall (SCp "/a"%rs "/d/x"%rs) (λ r,
  CCall (SSetPart "/d/x"%rs 16 [Byte.x2a]) (λ _,
  CCall (SGetRaw "/d/x"%rs) (λ v,
  CCall (SDelTree "/d"%rs) (λ _,
  CCall (SGetRaw "/d/x"%rs) (λ v', CDone (r, v, v')))))))).

Lemma space_over_redis_witness :
  ∃ (N : nat) s',
    (∀ n, (N <= n)%nat →
       run_client (H := redis_store Reference.accept Reference.set_option Reference.receive Reference.send_byte
                           "h:1"%rs n) sample_client (mkR false (Reference.mkServer ∅ "stale"%rs)) =
       (Ok (Ok tt, Ok (XValue.to_wire (new_int64 [42])), Ok []), s')) ∧
    r_view Reference.s_db Reference.s_pending (pure_client sample_client ∅).2 s'.
Proof.
  assert ((pure_client sample_client ∅).1 = (Ok tt, Ok (XValue.to_wire (new_int64 [42])), Ok [])) as E
    by (vm_compute; reflexivity).
  rewrite <-E. apply (space_over_redis Reference.two_rounds).
  - apply Reference.reference_laws.
  - by split.
  - unfold sample_client. cbn [proper determined].
    assert (Hcheck : ∀ A (p : prog A) m, check r_callb p m = true →
      safe (r_call Reference.two_rounds) (scan_reply Reference.two_rounds) p m)
      by (intros; apply (check_safe _ _ r_callb); [exact r_callb_sound|done]).
    do 5 (split; [apply Hcheck; vm_compute; reflexivity|split; [exact I|]]).
    split; [|split; [exact I|split; [apply Hcheck; vm_compute; reflexivity|by split]]].
    apply safe_del_tree; [apply Hcheck; vm_compute; reflexivity|vm_compute; reflexivity
      |vm_compute; discriminate|apply r_callb_sound; vm_compute; reflexivity..|].
    intros ks Hks HQ. refine (redis_del_scanned _ _ _ _ _ Hks HQ).
    + apply entries_text_db. vm_compute. reflexivity.
    + apply Nat.ltb_lt. vm_compute. reflexivity.
Defined.

(** The test for [s3_call], for the calls on whole values. *)
Definition s3_callb (st : S3Store) (m : mem) (o : kvop) : bool :=
  match o with
  | OGet k | OSet k _ | OExists k => bool_decide (s3_key st k)
  | OGetMany ks | ODel ks => bool_decide (Forall (s3_key st) ks)
  | _ => false
  end.

Lemma s3_callb_sound st m o : s3_callb st m o = true → s3_call st m o.
Proof. by destruct o; cbn [s3_callb s3_call]; try done; rewrite bool_decide_eq_true. Qed.

Lemma s3_del_scanned (st : S3Store) (base : str) (m : mem) (ks : list str) :
  forallb (λ e, bool_decide (s3_key st e.1)) (map_to_list m) = true →
  RKeys ks ≡ (pure_op (OScan base) m).1 →
  s3_call st m (ODel (filter (λ k, is_reserved k = false) ks)).
Proof.
  intros Hkeys Hks. apply Forall_forall. intros k [_ Hk]%list_elem_of_filter.
  apply (Hks k), law_scan in Hk as [_ [v Hv]].
  rewrite forallb_forall in Hkeys. specialize (Hkeys (k, v)). rewrite bool_decide_eq_true in Hkeys.
  apply Hkeys, list_elem_of_In, elem_of_map_to_list, Hv.
Qed.

(** A value is set, read, and deleted with the subtree it is in. *)
Definition tree_client : client (res kverr bytes * res kverr unit * res kverr bytes) :=
  CCall (SSet [mkPair "/d/x"%rs XNone (Some seven)]) (λ _,
  CCall (SGetRaw "/d/x"%rs) (λ v,
  CCall (SDelTree "/d"%rs) (λ r,
  CCall (SGetRaw "/d/x"%rs) (λ v', CDone (v, r, v'))))).

Lemma space_over_s3_witness :
  ∃ (N : nat) w',
    (∀ n, (N <= n)%nat →
       run_client (H := s3_store (λ _, []) (λ _ _, []) (server_http (s3_host example_store)) (λ _ w, w) (λ _, 0)
                          example_store n) tree_client example_server =
       (Ok (Ok seven, Ok tt, Ok []), w')) ∧
    s3_view example_store (pure_client tree_client ∅).2 (srv_objects w').
Proof.
  assert ((pure_client tree_client ∅).1 = (Ok seven, Ok tt, Ok [])) as E by (vm_compute; reflexivity).
  rewrite <-E.
  apply (space_over_s3 two_pages (λ _, []) (λ _ _, []) (server_http (s3_host example_store)) (λ _ w, w)
           (λ _, 0) example_store srv_objects srv_losing tree_client (∅ : mem) example_server).
  - apply server_laws.
  - split; [|by intros k [v Hv]]. intros t. rewrite lookup_empty. symmetry.
    unfold srv_objects, example_server. cbn [raw_objs].
    rewrite map_lookup_filter, lookup_singleton_ne; [done|]. by destruct t.
  - unfold tree_client. cbn [proper determined].
    assert (Hcheck' : ∀ A (p : prog A) m, check (s3_callb example_store) p m = true →
      safe (s3_call example_store) (λ _ _ _, True) p m)
      by (intros; eapply check_safe; [apply s3_callb_sound|done]).
    pose proof (λ A (c : space_call A), Hcheck' A (call_prog c)) as Hcheck.
    do 2 (split; [apply Hcheck; vm_compute; reflexivity|split; [exact I|]]).
    split; [|split; [exact I|split; [apply Hcheck; vm_compute; reflexivity|by split]]].
    assert (Hkey : s3_key example_store "/d"%rs) by (split; [reflexivity|decided]).
    apply safe_del_tree; [apply Hcheck'; vm_compute; reflexivity|vm_compute; reflexivity
      |vm_compute; discriminate|exact Hkey|vm_compute; reflexivity|].
    intros ks Hks _. apply s3_del_scanned with "/d"%rs; [vm_compute; reflexivity|exact Hks].
Defined.

(** Into a member of its own source, [cp_list] has no single outcome: what it copies depends on
    the order in which the store lists the keys. *)
Definition member_space : mem := <["/a"%rs := seven]> (<["/a·m"%rs := seven]> ∅).

Example cp_list_depends_on_order : ∃ m1 m2,
  runs (b_cp_list "/a"%rs "/a·m"%rs) member_space (Ok tt) m1 ∧
  runs (b_cp_list "/a"%rs "/a·m"%rs) member_space (Ok tt) m2 ∧
  m1 !! "/a·m·m"%rs ≠ m2 !! "/a·m·m"%rs.
Proof.
  set (p := b_cp_list "/a"%rs "/a·m"%rs).
  pose proof (eval_runs id p member_space ltac:(done)) as H1.
  pose proof (eval_runs reverse p member_space ltac:(intros ks k; apply elem_of_reverse)) as H2.
  assert ((eval id p member_space).1 = Ok tt) as E1 by (vm_compute; reflexivity).
  assert ((eval reverse p member_space).1 = Ok tt) as E2 by (vm_compute; reflexivity).
  rewrite E1 in H1. rewrite E2 in H2. do 2 eexists. split; [exact H1|]. split; [exact H2|].
  vm_compute. discriminate.
Qed.
