(* ===== verification/KVSpace.v ===== *)
(** * The key-value space as an interface: [src/src/kvspace.rs]

    The trait [KVSpace] as an operational type class, which is what a handle of the C ABI holds
    ([Box<dyn KVSpace>]), with [Backend] as its instance.  A read is a function of the state; it
    may panic (a lost connection, an I/O error), which the interface lets any method do.
    [watch] is not here: it waits for other writers (see [Watch]). *)

From S2P Require Import Prelude RustInt RustStr HeadLenPow KPath XValue Store Backend.
Local Open Scope Z_scope.

Class KVSpace (K : Type) := {
  ks_get_raw : K → str → res kverr bytes;
  ks_list : K → str → bool → bool → res kverr (list str);
  ks_set : list KVPair → stm K kverr unit;
  ks_set_part : str → Z → bytes → stm K kverr unit;
  ks_del : list str → stm K kverr unit;
  ks_del_tree : str → stm K kverr unit;
  ks_cp : str → str → stm K kverr unit;
  ks_cp_tree : str → str → stm K kverr unit;
  ks_cp_list : str → str → stm K kverr unit;
  ks_mkindex : str → Z → stm K kverr unit;
  ks_ext_index : str → str → stm K kverr unit;
  ks_del_ext_index : str → stm K kverr unit;
  ks_clear : stm K kverr unit;
}.

(** The provided method [validate_dir]. *)
Definition validate_dir (path : str) : res kverr unit :=
  if bool_decide (path = PATH_SEP) || ends_with DIR_INDEX_SUF path || ends_with OBJ_SEP path
  then Ok tt else Err (DirMustEndWithSlash path).

#[export] Instance backend_kvspace {St} `{KVStore St} : KVSpace St := {|
  ks_get_raw s key := Ok (get_raw s key);
  ks_list := list_;
  ks_set := Backend.set;
  ks_set_part := set_part;
  ks_del := del;
  ks_del_tree := del_tree;
  ks_cp := cp;
  ks_cp_tree := cp_tree;
  ks_cp_list := cp_list;
  ks_mkindex := mkindex;
  ks_ext_index := ext_index;
  ks_del_ext_index := del_ext_index;
  ks_clear := clear;
|}.
