(* ===== verification/FsTree.v ===== *)
(** * A file tree

    What [src/src/fs/kvspace.rs] uses of [std::fs]: a tree of directories and regular files, as
    a map from locations, with the path resolution of the operating system ([.], [..], empty
    components and a trailing slash included).  There are no symbolic links, no permissions and
    no limits on names, and the disk never fails: an operation fails only because of what the
    tree holds. *)

From S2P Require Import Prelude RustInt RustStr.
Local Open Scope Z_scope.

Inductive node := File (data : bytes) | Dir.

(** A location: the names from the root of the file system. *)
Abbreviation loc := (list (list Byte.byte)) (only parsing).
Abbreviation fstree := (gmap (list (list Byte.byte)) node).

(** A [Path], as its text split at the slashes: empty components stand for repeated or trailing
    slashes. *)
Abbreviation ospath := (list (list Byte.byte)) (only parsing).

Implicit Types (t : fstree) (l : loc) (p : ospath) (c : str).

#[export] Instance node_eq_dec : EqDecision node.
Proof. solve_decision. Defined.

Inductive fserr := NotFound | NotADirectory | IsADirectory | InvalidName.

Definition DOT : str := "."%rs.
Definition DOTDOT : str := ".."%rs.

(** ** Looking up *)

Definition node_at t l : option node := match l with [] => Some Dir | _ => t !! l end.

Definition dir_at t l : bool := bool_decide (node_at t l = Some Dir).

Definition step t l c : res fserr loc :=
  if dir_at t l then
    if decide (c = [] ∨ c = DOT) then Ok l
    else if decide (c = DOTDOT) then Ok (take (length l - 1) l)
    else match node_at t (l ++ [c]) with Some _ => Ok (l ++ [c]) | None => Err NotFound end
  else Err NotADirectory.

Fixpoint walk t l p : res fserr loc :=
  match p with
  | [] => Ok l
  | c :: p => l ← step t l c; walk t l p
  end.

Definition lookup_path t p : res fserr loc := walk t [] p.

Definition stat t p : option node := match lookup_path t p with Ok l => node_at t l | _ => None end.

Definition path_is_dir t p : bool := bool_decide (stat t p = Some Dir).
Definition path_is_file t p : bool := match stat t p with Some (File _) => true | _ => false end.
Definition path_exists t p : bool := bool_decide (is_Some (stat t p)).

(** Where an entry named by the last component of [p] is or would be. *)
Definition entry_at t p : res fserr loc :=
  match last p with
  | None => Err InvalidName
  | Some c =>
      l ← lookup_path t (take (length p - 1) p);
      if dir_at t l then
        if decide (c = [] ∨ c = DOT ∨ c = DOTDOT) then Err InvalidName else Ok (l ++ [c])
      else Err NotADirectory
  end.

(** ** Files *)

(** [fs::read], and opening for reading. *)
Definition read_file t p : res fserr bytes :=
  l ← lookup_path t p;
  match node_at t l with
  | Some (File d) => Ok d
  | Some Dir => Err IsADirectory
  | None => Err NotFound
  end.

(** [fs::write]: creates or truncates. *)
Definition write_file t p (d : bytes) : res fserr fstree :=
  l ← entry_at t p;
  match node_at t l with
  | Some Dir => Err IsADirectory
  | _ => Ok (<[l := File d]> t)
  end.

(** [pwrite] at [off] of a file that is open for writing: past the end it extends the file,
    unless there is nothing to write. *)
Definition write_at (off : nat) (buf d : bytes) : bytes :=
  match buf with
  | [] => d
  | _ => take off d ++ replicate (off - length d) Byte.x00 ++ buf ++ drop (off + length buf) d
  end.

Definition remove_file t p : res fserr fstree :=
  l ← entry_at t p;
  match node_at t l with
  | Some (File _) => Ok (delete l t)
  | Some Dir => Err IsADirectory
  | None => Err NotFound
  end.

(** [fs::rename] of a file. *)
Definition rename_file t (src dst : ospath) : res fserr fstree :=
  d ← read_file t src;
  ls ← entry_at t src;
  ld ← entry_at t dst;
  match node_at t ld with
  | Some Dir => Err IsADirectory
  | _ => Ok (<[ld := File d]> (delete ls t))
  end.

(** [fs::copy]. *)
Definition copy_file t (src dst : ospath) : res fserr fstree := d ← read_file t src; write_file t dst d.

(** ** Directories *)

(** [fs::create_dir_all], from a directory on: the tree it leaves, and whether it succeeds. *)
Fixpoint make_dirs t l p : fstree * bool :=
  match p with
  | [] => (t, true)
  | c :: p =>
      match step t l c with
      | Ok l => if dir_at t l then make_dirs t l p else (t, false)
      | Err NotFound => make_dirs (<[l ++ [c] := Dir]> t) (l ++ [c]) p
      | _ => (t, false)
      end
  end.

Definition create_dir_all t p : fstree * bool := make_dirs t [] p.

(** The entries of the directory at [l]: their names. *)
Definition entry_name l (k : loc) : option str :=
  match last k with
  | Some c => if decide (k = l ++ [c]) then Some c else None
  | None => None
  end.

Definition children t l : list str := omap (entry_name l) (map_to_list t).*1.

(** [fs::read_dir] *)
Definition read_dir t p : option (list str) :=
  match lookup_path t p with
  | Ok l => if dir_at t l then Some (children t l) else None
  | _ => None
  end.

(** [fs::remove_dir_all] *)
Definition below l (k : loc) : Prop := l `prefix_of` k.
#[export] Instance below_dec l k : Decision (below l k).
Proof. unfold below. apply _. Defined.

Definition remove_dir_all t p : res fserr fstree :=
  l ← lookup_path t p;
  match node_at t l with
  | Some Dir => Ok (filter (λ kv, ¬ below l kv.1) t)
  | Some (File _) => Err NotADirectory
  | None => Err NotFound
  end.

(** ** Paths as text *)

(** [Path::components]: without empty and [.] components. *)
Definition normal p : ospath := filter (λ c, c ≠ [] ∧ c ≠ DOT) p.

(** [Path::parent] *)
Definition parent_path p : option ospath :=
  match normal p with [] => None | n => Some (take (length n - 1) n) end.

(** [Path::file_name] *)
Definition file_name p : option str :=
  match last (normal p) with
  | Some c => if decide (c = DOTDOT) then None else Some c
  | None => None
  end.

(** ** Well-formed trees: what is in a directory has that directory *)

Definition wf_tree t : Prop :=
  t !! [] = None ∧ ∀ l c, is_Some (t !! (l ++ [c])) → node_at t l = Some Dir.

Definition proper c : Prop := c ≠ [] ∧ c ≠ DOT ∧ c ≠ DOTDOT.
#[export] Instance proper_dec c : Decision (proper c).
Proof. unfold proper. apply _. Defined.

Lemma wf_empty : wf_tree ∅.
Proof. split; [done|]. intros l c [x Hx]. by rewrite lookup_empty in Hx. Qed.

Lemma node_at_app t l c : node_at t (l ++ [c]) = t !! (l ++ [c]).
Proof. by destruct l. Qed.

Lemma node_at_ne t l : l ≠ [] → node_at t l = t !! l.
Proof. by destruct l. Qed.

Lemma app_not_self l c : l ++ [c] ≠ l.
Proof. intros E. apply (f_equal length) in E. rewrite length_app in E. cbn in E. lia. Qed.

Lemma dir_at_true t l : dir_at t l = true ↔ node_at t l = Some Dir.
Proof. apply bool_decide_eq_true. Qed.

Lemma wf_prefix t l k : wf_tree t → is_Some (node_at t (l ++ k)) → k ≠ [] → node_at t l = Some Dir.
Proof.
  intros [_ Hwf]. induction k as [|c k IH] using rev_ind; intros H Hne; [done|].
  rewrite app_assoc, node_at_app in H. apply Hwf in H.
  destruct (decide (k = [])) as [->|Hk]; [by rewrite app_nil_r in H|]. apply IH; [by rewrite H|done].
Qed.

(** Nothing lies below a file or below what does not exist. *)
Lemma wf_nothing_below t l k : wf_tree t → node_at t l ≠ Some Dir → k ≠ [] → t !! (l ++ k) = None.
Proof.
  intros Hwf Hl Hk. destruct (t !! (l ++ k)) eqn:E; [|done]. destruct Hl.
  apply (wf_prefix t l k Hwf); [|done]. rewrite node_at_ne, E by (by destruct l). done.
Qed.

Lemma wf_insert_dir t l c :
  wf_tree t → node_at t l = Some Dir → t !! (l ++ [c]) = None → wf_tree (<[l ++ [c] := Dir]> t).
Proof.
  intros [H0 Hwf] Hl Hc. split.
  { rewrite lookup_insert_ne; [done|]. by destruct l. }
  intros l' c' H. assert (Hd : ∀ k, node_at t k = Some Dir → node_at (<[l ++ [c] := Dir]> t) k = Some Dir).
  { intros k Hk. destruct k as [|x k]; [done|]. cbn in *.
    destruct (decide (l ++ [c] = x :: k)) as [<-|Hne]; [by rewrite lookup_insert_eq|].
    by rewrite lookup_insert_ne. }
  apply lookup_insert_is_Some in H as [H|[_ H]]; [|by apply Hd, (Hwf _ c')].
  apply app_inj_tail in H as [<- <-]. by apply Hd.
Qed.

Lemma wf_insert_file t l c d :
  wf_tree t → node_at t l = Some Dir → t !! (l ++ [c]) ≠ Some Dir → wf_tree (<[l ++ [c] := File d]> t).
Proof.
  intros Hwf Hl Hc. pose proof Hwf as [H0 Hw]. split.
  { rewrite lookup_insert_ne; [done|]. by destruct l. }
  assert (Hd : ∀ k, node_at t k = Some Dir → node_at (<[l ++ [c] := File d]> t) k = Some Dir).
  { intros k Hk. destruct k as [|x k]; [done|]. cbn in *.
    destruct (decide (l ++ [c] = x :: k)) as [E|Hne]; [rewrite E in Hc; done|].
    by rewrite lookup_insert_ne. }
  intros l' c' [H|[_ H]]%lookup_insert_is_Some; [|by apply Hd, (Hw _ c')].
  apply app_inj_tail in H as [<- <-]. by apply Hd.
Qed.

Lemma wf_delete_file t l d : wf_tree t → t !! l = Some (File d) → wf_tree (delete l t).
Proof.
  intros Hwf Hl. pose proof Hwf as [H0 Hw]. split; [by apply lookup_delete_None; right|].
  intros l' c' [Hne H]%lookup_delete_is_Some. specialize (Hw _ _ H).
  destruct l' as [|x l']; [done|]. cbn in *. rewrite lookup_delete_ne; [done|]. intros ->.
  congruence.
Qed.

Lemma wf_remove_below t l : wf_tree t → wf_tree (filter (λ kv, ¬ below l kv.1) t).
Proof.
  intros [H0 Hw]. split; [by apply map_lookup_filter_None; left|].
  intros l' c [x [Hx Hb]%map_lookup_filter_Some]. specialize (Hw l' c ltac:(by eexists)).
  destruct l' as [|y l']; [done|]. cbn in *. apply map_lookup_filter_Some. split; [done|].
  intros Hb'. apply Hb. cbn in *. unfold below in *. etrans; [exact Hb'|by exists [c]].
Qed.
