(* ===== verification/FsWalk.v ===== *)
(** * Paths of names

    A path whose components are names stands for the location it spells, in a well-formed tree:
    what the operations of [FsTree] do on such paths, as operations on the map, and that they keep
    the tree well formed on every path. *)

From S2P Require Import Prelude RustInt RustStr FsTree.
Local Open Scope Z_scope.
Implicit Types (t : fstree) (l : list (list Byte.byte)) (p : list (list Byte.byte)) (c : str).

(** ** Walking *)

Lemma step_proper t l c :
  proper c →
  step t l c = if dir_at t l
               then match t !! (l ++ [c]) with Some _ => Ok (l ++ [c]) | None => Err NotFound end
               else Err NotADirectory.
Proof.
  intros (H1 & H2 & H3). unfold step. rewrite decide_False by tauto.
  by rewrite decide_False, node_at_app by done.
Qed.

Lemma walk_app t l p q : walk t l (p ++ q) = (l ← walk t l p; walk t l q).
Proof.
  revert l. induction p as [|c p IH]; intros l; [done|]. cbn [app walk].
  destruct (step t l c); [apply IH|done..].
Qed.

Lemma walk_names t l p :
  wf_tree t → Forall proper p → is_Some (node_at t (l ++ p)) → walk t l p = Ok (l ++ p).
Proof.
  intros Hwf. revert l. induction p as [|c p IH]; intros l Hp H; [by rewrite app_nil_r|].
  apply Forall_cons in Hp as [Hc Hp]. cbn [walk].
  assert (Hl : node_at t l = Some Dir) by (by eapply wf_prefix).
  rewrite step_proper by done. apply dir_at_true in Hl as ->.
  rewrite (app_assoc l [c] p : l ++ c :: p = (l ++ [c]) ++ p) in *.
  assert (is_Some (t !! (l ++ [c]))) as [x Hx].
  { destruct p as [|c' p]; [by rewrite app_nil_r, node_at_app in H|].
    rewrite <-node_at_app. eexists. by eapply wf_prefix. }
  rewrite Hx. cbn [mbind res_bind]. by apply IH.
Qed.

Lemma walk_none t l p :
  Forall proper p → p ≠ [] → node_at t (l ++ p) = None → ∃ e, walk t l p = Err e.
Proof.
  revert l. induction p as [|c p IH]; intros l Hp Hne H; [done|].
  apply Forall_cons in Hp as [Hc Hp]. cbn [walk]. rewrite step_proper by done.
  destruct (dir_at t l); [|by eexists].
  rewrite (app_assoc l [c] p : l ++ c :: p = (l ++ [c]) ++ p) in *.
  destruct (t !! (l ++ [c])) eqn:E; [|by eexists]. cbn [mbind res_bind]. apply IH; [done| |done].
  intros ->. by rewrite app_nil_r, node_at_app, E in H.
Qed.

Section names.
Context (t : fstree) (Hwf : wf_tree t).

Lemma lookup_names p : Forall proper p → is_Some (node_at t p) → lookup_path t p = Ok p.
Proof. intros Hp H. by apply (walk_names t []). Qed.

Lemma lookup_none p : Forall proper p → node_at t p = None → ∃ e, lookup_path t p = Err e.
Proof. intros Hp H. apply (walk_none t []); [done| |done]. by intros ->. Qed.

Lemma stat_names p : Forall proper p → stat t p = node_at t p.
Proof.
  intros Hp. unfold stat. destruct (node_at t p) eqn:E.
  - by rewrite lookup_names.
  - by destruct (lookup_none p Hp E) as [e ->].
Qed.

(** With a slash at the end, only a directory is found. *)
Lemma stat_trailing p : Forall proper p → stat t (p ++ [[]]) = if dir_at t p then Some Dir else None.
Proof.
  intros Hp. unfold stat, lookup_path. rewrite walk_app. fold (lookup_path t p).
  destruct (node_at t p) as [x|] eqn:E.
  - rewrite lookup_names by done. cbn [mbind res_bind walk]. unfold step.
    destruct (dir_at t p) eqn:Ed; [|done]. rewrite decide_True by auto. cbn.
    rewrite E. unfold dir_at in Ed. apply bool_decide_eq_true in Ed. congruence.
  - destruct (lookup_none p Hp E) as [e ->]. unfold dir_at. by rewrite E.
Qed.

Lemma path_is_dir_names p : Forall proper p → path_is_dir t p = dir_at t p.
Proof. intros Hp. unfold path_is_dir, dir_at. by rewrite stat_names. Qed.

Lemma path_is_dir_trailing p : Forall proper p → path_is_dir t (p ++ [[]]) = dir_at t p.
Proof. intros Hp. unfold path_is_dir. rewrite stat_trailing by done. by destruct (dir_at t p). Qed.

Lemma read_file_names p d : Forall proper p → read_file t p = Ok d ↔ node_at t p = Some (File d).
Proof.
  intros Hp. unfold read_file. destruct (node_at t p) as [x|] eqn:E.
  - rewrite lookup_names by done. cbn. rewrite E. destruct x; split; by intros [=->].
  - destruct (lookup_none p Hp E) as [e ->]. by split.
Qed.

Lemma read_file_trailing p d : Forall proper p → read_file t (p ++ [[]]) ≠ Ok d.
Proof.
  intros Hp. unfold read_file. pose proof (stat_trailing p Hp) as Hs. unfold stat in Hs.
  destruct (lookup_path t (p ++ [[]])) as [l| |]; [|done..]. cbn. rewrite Hs. by destruct (dir_at t p).
Qed.

(** A name in a directory that is there is found, or is missing. *)
Lemma read_file_missing p c :
  Forall proper p → proper c → node_at t p = Some Dir → t !! (p ++ [c]) = None → read_file t (p ++ [c]) = Err NotFound.
Proof.
  intros Hp Hc Hd Hn. unfold read_file, lookup_path. rewrite walk_app. fold (lookup_path t p).
  rewrite lookup_names by (by rewrite ?Hd). cbn [mbind res_bind walk]. rewrite step_proper by done.
  apply dir_at_true in Hd as ->. by rewrite Hn.
Qed.

Lemma entry_at_names p c l :
  Forall proper p → proper c → entry_at t (p ++ [c]) = Ok l ↔ node_at t p = Some Dir ∧ l = p ++ [c].
Proof.
  intros Hp (H1 & H2 & H3). unfold entry_at. rewrite last_snoc, length_app. cbn [length].
  rewrite Nat.add_sub, take_app_length. destruct (node_at t p) as [x|] eqn:E.
  - rewrite lookup_names by (by rewrite ?E). cbn [mbind res_bind]. destruct (dir_at t p) eqn:Ed.
    + rewrite decide_False by tauto. apply dir_at_true in Ed. split.
      * intros [= <-]. split; [congruence|done].
      * by intros [_ ->].
    + split; [done|]. intros [[= ->] _]. by apply dir_at_true in E; congruence.
  - destruct (lookup_none p Hp E) as [e ->]. split; [done|by intros []].
Qed.

Lemma entry_at_from p c x :
  Forall proper p → proper c → t !! (p ++ [c]) = Some x → entry_at t (p ++ [c]) = Ok (p ++ [c]).
Proof.
  intros Hp Hc Hx. apply entry_at_names; [done..|]. split; [|done].
  apply (wf_prefix t p [c] Hwf); [|done]. by rewrite node_at_app, Hx.
Qed.

Lemma entry_at_slash p l : entry_at t (p ++ [[]]) ≠ Ok l.
Proof. unfold entry_at. rewrite last_snoc. destruct (lookup_path _ _) as [a| |]; [|done..].
  cbn [mbind res_bind]. destruct (dir_at t a); [|done]. by rewrite decide_True by auto.
Qed.

Lemma write_file_names p c d t' :
  Forall proper p → proper c →
  write_file t (p ++ [c]) d = Ok t' ↔
  node_at t p = Some Dir ∧ t !! (p ++ [c]) ≠ Some Dir ∧ t' = <[p ++ [c] := File d]> t.
Proof.
  intros Hp Hc. unfold write_file. destruct (entry_at t (p ++ [c])) as [l|e|e] eqn:E.
  - apply entry_at_names in E as [Hd ->]; [|done..]. cbn [mbind res_bind]. rewrite node_at_app.
    destruct (t !! (p ++ [c])) as [[]|]; split; try (by intros [= <-]); by intros (_ & ? & ->).
  - split; [done|]. intros (Hd & _). by rewrite (proj2 (entry_at_names p c (p ++ [c]) Hp Hc)) in E.
  - split; [done|]. intros (Hd & _). by rewrite (proj2 (entry_at_names p c (p ++ [c]) Hp Hc)) in E.
Qed.

Lemma remove_file_names p c t' :
  Forall proper p → proper c →
  remove_file t (p ++ [c]) = Ok t' ↔ (∃ d, t !! (p ++ [c]) = Some (File d)) ∧ t' = delete (p ++ [c]) t.
Proof.
  intros Hp Hc. unfold remove_file. destruct (entry_at t (p ++ [c])) as [l|e|e] eqn:E.
  - apply entry_at_names in E as [Hd ->]; [|done..]. cbn [mbind res_bind]. rewrite node_at_app.
    destruct (t !! (p ++ [c])) as [[d|]|]; split; try (by intros [= <-]; eauto); try (by intros [[? [=]] _]).
    by intros [_ ->].
  - split; [done|]. intros [[d Hd] _]. apply entry_at_from in Hd; [|done..]. congruence.
  - split; [done|]. intros [[d Hd] _]. apply entry_at_from in Hd; [|done..]. congruence.
Qed.
End names.

(** ** Making directories *)

(** [t'] is [t] with more directories. *)
Definition grown t t' : Prop :=
  (∀ l x, t !! l = Some x → t' !! l = Some x) ∧
  (∀ l x, t !! l = None → t' !! l = Some x → x = Dir).

#[export] Instance grown_preorder : PreOrder grown.
Proof.
  split; [by intros t; split; [|intros l x ->]|]. intros a b c [H1 H1'] [H2 H2']. split; [auto|].
  intros l x Ha Hc. destruct (b !! l) as [y|] eqn:E; [|by eapply H2'].
  rewrite (H2 _ _ E) in Hc. injection Hc as <-. by eapply H1'.
Qed.

Lemma grown_insert t l c : t !! (l ++ [c]) = None → grown t (<[l ++ [c] := Dir]> t).
Proof.
  intros H. split.
  - intros k x Hk. rewrite lookup_insert_ne; [done|]. intros <-. congruence.
  - intros k x Hk. destruct (decide (l ++ [c] = k)) as [<-|Hne].
    + rewrite lookup_insert_eq. by intros [= <-].
    + rewrite lookup_insert_ne, Hk; done.
Qed.

Lemma grown_node t t' l x : grown t t' → node_at t l = Some x → node_at t' l = Some x.
Proof. intros [H _]. destruct l; [done|]. apply H. Qed.

(** What is new is a directory without files. *)
Lemma grown_file t t' l d : grown t t' → t' !! l = Some (File d) → t !! l = Some (File d).
Proof.
  intros [H H'] Hd. destruct (t !! l) as [x|] eqn:E.
  - rewrite (H _ _ E) in Hd. done.
  - by specialize (H' _ _ E Hd).
Qed.

Lemma make_dirs_wf t l p :
  wf_tree t → node_at t l = Some Dir → wf_tree (make_dirs t l p).1 ∧ grown t (make_dirs t l p).1.
Proof.
  revert t l. induction p as [|c p IH]; intros t l Hwf Hl; [done|]. cbn [make_dirs].
  destruct (step t l c) as [l'|[]|] eqn:E; try done.
  - destruct (dir_at t l') eqn:Ed; [|done]. by apply IH, dir_at_true.
  - assert (Hn : t !! (l ++ [c]) = None).
    { unfold step in E. apply dir_at_true in Hl. rewrite Hl in E. rewrite <-node_at_app.
      destruct (decide _); [done|]. destruct (decide _); [done|]. by destruct (node_at t (l ++ [c])). }
    destruct (IH (<[l ++ [c] := Dir]> t) (l ++ [c])) as [Hw Hg].
    + by apply wf_insert_dir.
    + rewrite node_at_app. apply lookup_insert_eq.
    + split; [done|]. etrans; [by apply grown_insert|done].
Qed.

Lemma make_dirs_below t l p k :
  Forall proper p → ¬ k `prefix_of` l ++ p → (make_dirs t l p).1 !! k = t !! k.
Proof.
  intros Hp. revert t l. induction p as [|c p IH]; intros t l Hk; [done|].
  apply Forall_cons in Hp as [Hc Hp]. cbn [make_dirs]. rewrite step_proper by done.
  rewrite (app_assoc l [c] p : l ++ c :: p = (l ++ [c]) ++ p) in Hk.
  destruct (dir_at t l); [|done]. destruct (t !! (l ++ [c])) eqn:E.
  - destruct (dir_at t (l ++ [c])); [|done]. by apply IH.
  - rewrite IH by done. apply lookup_insert_ne. intros <-. apply Hk. by exists p.
Qed.

Lemma make_dirs_slash t l p k :
  Forall proper p → ¬ k `prefix_of` l ++ p → (make_dirs t l (p ++ [[]])).1 !! k = t !! k.
Proof.
  intros Hp. revert t l. induction p as [|c p IH]; intros t l Hk.
  - cbn [app make_dirs]. unfold step. destruct (dir_at t l) eqn:E; [|done]. rewrite decide_True by auto. by rewrite E.
  - apply Forall_cons in Hp as [Hc Hp]. cbn [app make_dirs]. rewrite step_proper by done.
    rewrite (app_assoc l [c] p : l ++ c :: p = (l ++ [c]) ++ p) in Hk.
    destruct (dir_at t l); [|done]. destruct (t !! (l ++ [c])) eqn:E.
    + destruct (dir_at t (l ++ [c])); [|done]. by apply IH.
    + rewrite IH by done. apply lookup_insert_ne. intros <-. apply Hk. by exists p.
Qed.

(** ** Every operation keeps the tree well formed *)

Lemma entry_at_dir t p l : entry_at t p = Ok l → ∃ d c, l = d ++ [c] ∧ node_at t d = Some Dir.
Proof.
  unfold entry_at. destruct (last p) as [c|]; [|done]. destruct (lookup_path _ _) as [d| |]; try done.
  cbn [mbind res_bind]. destruct (dir_at t d) eqn:E; [|done]. destruct (decide _); [done|].
  intros [= <-]. apply dir_at_true in E. by exists d, c.
Qed.

Lemma wf_write_file t p d t' : wf_tree t → write_file t p d = Ok t' → wf_tree t'.
Proof.
  intros Hwf. unfold write_file. destruct (entry_at t p) as [l| |] eqn:E; try done.
  apply entry_at_dir in E as (k & c & -> & Hk). cbn [mbind res_bind]. rewrite node_at_app.
  intros H. assert (t !! (k ++ [c]) ≠ Some Dir) by (by intros E; rewrite E in H).
  assert (t' = <[k ++ [c] := File d]> t) as -> by (by destruct (t !! (k ++ [c])) as [[]|]; simplify_eq).
  by apply wf_insert_file.
Qed.

Lemma wf_remove_file t p t' : wf_tree t → remove_file t p = Ok t' → wf_tree t'.
Proof.
  intros Hwf. unfold remove_file. destruct (entry_at t p) as [l| |] eqn:E; try done.
  apply entry_at_dir in E as (k & c & -> & Hk). cbn [mbind res_bind]. rewrite node_at_app.
  destruct (t !! (k ++ [c])) as [[d|]|] eqn:E; try done. intros [= <-]. by eapply wf_delete_file.
Qed.

Lemma entry_at_lookup t p l :
  entry_at t p = Ok l → lookup_path t p = match node_at t l with Some _ => Ok l | None => Err NotFound end.
Proof.
  unfold entry_at. destruct (last p) as [c|] eqn:El; [|done]. apply last_Some in El as [q ->].
  rewrite length_app. cbn [length]. rewrite Nat.add_sub, take_app_length. unfold lookup_path at 2.
  rewrite walk_app. fold (lookup_path t q). destruct (lookup_path t q) as [d| |]; try done.
  cbn [mbind res_bind walk]. destruct (dir_at t d) eqn:Ed; [|done].
  destruct (decide _) as [|Hc]; [done|]. intros [= <-]. rewrite step_proper by (unfold proper; tauto).
  rewrite Ed, node_at_app. by destruct (t !! (d ++ [c])).
Qed.

Lemma wf_rename_file t p q t' : wf_tree t → rename_file t p q = Ok t' → wf_tree t'.
Proof.
  intros Hwf. unfold rename_file, read_file.
  destruct (entry_at t p) as [ls| |] eqn:Es; [|by do 2 (destruct (lookup_path t p) as [l| |]; cbn; try done;
    destruct (node_at t l) as [[]|]; cbn; try done)..].
  rewrite (entry_at_lookup _ _ _ Es). destruct (node_at t ls) as [[d|]|] eqn:Els; cbn [mbind res_bind];
    rewrite ?Els; try done. cbn [mbind res_bind].
  destruct (entry_at t q) as [ld| |] eqn:Ed; try done. cbn [mbind res_bind].
  apply entry_at_dir in Es as (ks & cs & -> & Hks), Ed as (kd & cd & -> & Hkd).
  rewrite node_at_app in *. intros H.
  assert (Hd : t !! (kd ++ [cd]) ≠ Some Dir) by (by intros E; rewrite E in H).
  assert (t' = <[kd ++ [cd] := File d]> (delete (ks ++ [cs]) t)) as ->
    by (by destruct (t !! (kd ++ [cd])) as [[]|]; simplify_eq).
  apply wf_insert_file.
  - by eapply wf_delete_file.
  - destruct kd as [|x kd]; [done|]. cbn in *. rewrite lookup_delete_ne; [done|]. congruence.
  - rewrite lookup_delete_Some. tauto.
Qed.

Lemma wf_copy_file t p q t' : wf_tree t → copy_file t p q = Ok t' → wf_tree t'.
Proof.
  intros Hwf. unfold copy_file. destruct (read_file t p); [|done..]. by apply wf_write_file.
Qed.

Lemma wf_create_dir_all t p : wf_tree t → wf_tree (create_dir_all t p).1.
Proof. intros Hwf. by apply make_dirs_wf. Qed.

Lemma wf_remove_dir_all t p t' : wf_tree t → remove_dir_all t p = Ok t' → wf_tree t'.
Proof.
  intros Hwf. unfold remove_dir_all. destruct (lookup_path t p) as [l| |]; try done. cbn [mbind res_bind].
  destruct (node_at t l) as [[]|]; try done. intros [= <-]. by apply wf_remove_below.
Qed.

(** Writing into a file that is there. *)
Lemma wf_update_file t l d d' : wf_tree t → node_at t l = Some (File d) → wf_tree (<[l := File d']> t).
Proof.
  intros Hwf Hl. destruct l as [|c l _] using rev_ind; [done|]. rewrite node_at_app in Hl.
  apply wf_insert_file; [done| |congruence].
  apply (wf_prefix t l [c] Hwf); [|done]. by rewrite node_at_app, Hl.
Qed.
