(* ===== verification/FsSpace.v ===== *)
(** * The key-value space over a directory: [src/src/fs/kvspace.rs]

    [FsKVSpace] implements the [KVSpace] trait on files: a key is a path, a container is a
    directory that holds its own value in a marker file.  The state is the tree of [FsTree] and
    the counter of temporary names; the root and the process id do not change. *)

From S2P Require Import Prelude RustInt RustStr RustText HeadLenPow KPath Coord XValue SigV4 Dsn Store Backend KVSpace FsTree.
Local Open Scope Z_scope.
Implicit Types (t : fstree) (key path prefix base : str).

(** ** State and constants *)

Record fsstate := mkFs { tree : fstree; tmp_seq : Z }.

Definition SELF_MARKER : str := "__self__"%rs.
Definition DIR_MARKER : str := "__dir__"%rs.
Definition TMP_PREFIX : str := "~~tmp."%rs.

Definition is_tmp_name (name : str) : bool := utf8_valid name && starts_with TMP_PREFIX name.

(** [let _ = op;] on the tree *)
Definition or_same (r : res fserr fstree) t : fstree := match r with Ok t => t | _ => t end.

(** [.ok()] *)
Definition ok_of {A} (r : res fserr A) : option A := match r with Ok a => Some a | _ => None end.

(** ** Keys as paths *)

(** The loop of [fs_path]: a [/] after every [·] that does not start a component. *)
Fixpoint split_members (prev_slash : bool) (key : str) : str :=
  match key with
  | [] => []
  | c :: rest =>
      match rest with
      | d :: rest' =>
          if decide (c = Byte.xc2 ∧ d = Byte.xb7)
          then c :: d :: (if prev_slash then [] else [SLASH]) ++ split_members false rest'
          else c :: split_members (bool_decide (c = SLASH)) rest
      | [] => [c]
      end
  end.

Definition escape_part (part : str) : str :=
  if bool_decide (part = SELF_MARKER) || bool_decide (part = DIR_MARKER) || starts_with "~"%rs part
  then "~"%rs ++ hex part else part.

(** The components of the path of a key below the root. *)
Definition key_parts key : ospath :=
  escape_part <$> split_byte SLASH (trim_start_byte SLASH (split_members true key)).

(** [u8::from_str_radix(s, 16)] of two bytes *)
Definition hex_pair (a b : byte) : option byte :=
  if decide (a = Byte.x2b) then byte_of <$> hex_digit b
  else x ← hex_digit a; y ← hex_digit b; Some (byte_of (16 * x + y)).

(** The decoding of the pairs; [None] when a pair is not hexadecimal, [Err] when a slice would
    not end at a character boundary. *)
Fixpoint unhex (l : bytes) : res unit (option bytes) :=
  match l with
  | a :: b :: l =>
      if match l with c :: _ => cont c | [] => false end then Err tt
      else match hex_pair a b with
           | None => Ok None
           | Some x => o ← unhex l; Ok (match o with Some l => Some (x :: l) | None => None end)
           end
  | _ => Ok (Some [])
  end.

Definition unescape_name (name : str) : res kverr str :=
  match strip_prefix "~"%rs name with
  | None => Ok name
  | Some h =>
      if Nat.odd (length h) then Ok name
      else match unhex h with
           | Err _ | Panic _ => Panic (FsNameBoundary name)
           | Ok o => Ok (default name (o ≫= from_utf8))
           end
  end.

(** [name.trim_end_matches('·')] *)
Fixpoint trim_end_obj_fuel (fuel : nat) (name : str) : str :=
  match fuel with
  | O => name
  | S fuel => match strip_suffix OBJ_SEP name with
              | Some n => trim_end_obj_fuel fuel n
              | None => name
              end
  end.
Definition trim_end_obj (name : str) : str := trim_end_obj_fuel (length name) name.

Definition leaf_marker key : str :=
  if negb (bool_decide (key = PATH_SEP)) && ends_with DIR_INDEX_SUF key then DIR_MARKER else SELF_MARKER.

Definition parent_name path : str * str :=
  let path := if is_dir path && negb (bool_decide (path = PATH_SEP)) then strip_dir_suf path else path in
  parent_dir path.

(** ** Whole-value writes *)

(** The tree after the body of [path] is overwritten in place; [None] when the size, the head or
    the attributes differ. *)
Definition overwrite_body_in_place t (path : ospath) (val : bytes) : res fserr (option fstree) :=
  match HeadLenPow.from_wire val with
  | None => Ok None
  | Some head =>
      let body := h_body head in
      let attr_off := (Z.to_nat PREFIX + length body)%nat in
      match read_file t path with
      | Err NotFound => Ok None
      | Err e | Panic e => Err e
      | Ok old =>
          if negb (length old =? length val)%nat then Ok None
          else if negb (bool_decide (take (Z.to_nat PREFIX) old = take (Z.to_nat PREFIX) val)) ||
                  negb (bool_decide (drop attr_off old = drop attr_off val)) then Ok None
          else
            l ← lookup_path t path;
            Ok (Some (<[l := File (write_at (Z.to_nat PREFIX) body old)]> t))
      end
  end.

Section space.
Context (root : ospath) (pid : Z).

Definition tmp_name (seq : Z) : str := TMP_PREFIX ++ show_u pid ++ "."%rs ++ show_u seq.

Definition write_atomic (path : ospath) (val : bytes) : stm fsstate fserr unit := λ s,
  match overwrite_body_in_place (tree s) path val with
  | Err e | Panic e => (Err e, s)
  | Ok (Some t) => (Ok tt, mkFs t (tmp_seq s))
  | Ok None =>
      let dir := default [DOT] (parent_path path) in
      let seq := wrap_u 64 (tmp_seq s + 1) in
      let tmp := dir ++ [tmp_name (tmp_seq s)] in
      match write_file (tree s) tmp val with
      | Err e | Panic e => (Err e, mkFs (tree s) seq)
      | Ok t =>
          match rename_file t tmp path with
          | Ok t => (Ok tt, mkFs t seq)
          | Err e | Panic e => (Err e, mkFs (or_same (remove_file t tmp) t) seq)
          end
      end
  end.

(** ** Leaves *)

Definition fs_path key : ospath := root ++ key_parts key.

(** The text of a path without its trailing slashes. *)
Fixpoint drop_empty (p : ospath) : ospath :=
  match p with [] :: p => drop_empty p | _ => p end.
Definition node_path key : ospath := reverse (drop_empty (reverse (fs_path key))).

Definition read_leaf t key : option bytes :=
  if contains "//"%rs key then None
  else
    let p := fs_path key in
    if path_is_dir t p then ok_of (read_file t (p ++ [leaf_marker key])) else ok_of (read_file t p).

Definition leaf_file t key : option ospath :=
  if contains "//"%rs key then None
  else
    let p := fs_path key in
    let f := if path_is_dir t p then p ++ [leaf_marker key] else p in
    if path_is_file t f then Some f else None.

Definition ensure_dir_tree t key : fstree :=
  let node := node_path key in
  if path_is_file t node then
    let content := ok_of (read_file t node) in
    let t := or_same (remove_file t node) t in
    let t := (create_dir_all t node).1 in
    match content with
    | Some c => or_same (write_file t (node ++ [SELF_MARKER]) c) t
    | None => t
    end
  else (create_dir_all t node).1.

Definition ensure_dir key : stm fsstate kverr unit :=
  modify (λ s, mkFs (ensure_dir_tree (tree s) key) (tmp_seq s)).

(** [write_atomic(..).unwrap_or_else(|e| panic!(..))] *)
Definition write_or_panic key (path : ospath) (val : bytes) : stm fsstate kverr unit := λ s,
  match write_atomic path val s with
  | (Ok _, s) => (Ok tt, s)
  | (Err _, s) | (Panic _, s) => (Panic (FsWrite key), s)
  end.

Definition write_leaf key (val : bytes) : stm fsstate kverr unit :=
  (if negb (bool_decide (key = PATH_SEP)) && ends_with DIR_INDEX_SUF key then ensure_dir key else mret tt);;
  let p := fs_path key in
  dir ← gets (λ s, path_is_dir (tree s) p);
  if dir : bool then write_or_panic key (p ++ [leaf_marker key]) val
  else
    modify (λ s, match parent_path p with
                 | Some parent => mkFs (create_dir_all (tree s) parent).1 (tmp_seq s)
                 | None => s
                 end);;
    write_or_panic key p val.

Definition remove_leaf_tree t key : fstree :=
  let p := fs_path key in
  if path_is_dir t p then or_same (remove_file t (p ++ [leaf_marker key])) t
  else or_same (remove_file t p) t.

Definition remove_leaf key : stm fsstate kverr unit :=
  modify (λ s, mkFs (remove_leaf_tree (tree s) key) (tmp_seq s)).

(** ** Links *)

Definition fs_resolve_one t path : str * bool :=
  if decide (path = PATH_SEP) then (path, false)
  else
    match first_link (read_leaf t <$> path_prefixes path) (path_parts path) with
    | Some (target, rest) =>
        let next := match rest with [] => target | _ => join_path target (join "/"%rs rest) end in
        let next := match dir_suffix path with
                    | Some suf => if is_dir next then next else next ++ suf
                    | None => next
                    end in
        (next, true)
    | None => (path, false)
    end.

Fixpoint fs_resolve_loop (n : nat) t path : str :=
  match n with
  | O => path
  | S n => let '(resolved, changed) := fs_resolve_one t path in
           if changed : bool then fs_resolve_loop n t resolved else resolved
  end.

Definition fs_resolve_path t path : str := fs_resolve_loop 16 t path.

Definition fs_resolve_parent t path : str :=
  let dir_suf := is_dir path && negb (bool_decide (path = PATH_SEP)) in
  let clean := if dir_suf then strip_dir_suf path else path in
  let '(parent, last) := sep_path clean in
  if decide (parent = clean) then path
  else
    let result := join_path (fs_resolve_path t parent) last in
    if dir_suf then result ++ (if ends_with OBJ_SEP path then OBJ_SEP else DIR_INDEX_SUF)
    else result.

Definition fs_prefix_ext t prefix : str :=
  match read_leaf t prefix with
  | Some data =>
      let head := from_wire_head data in
      if x_ref head =? REF_EXT then from_utf8_lossy (head_body head data) else []
  | None => []
  end.

(** The parent of a key, resolved, and its last component. *)
Definition fs_locate t key : str * str :=
  let '(p, l) := parent_dir key in (fs_resolve_path t p, l).

Definition physical_file t key : option ospath :=
  if is_reserved key then None
  else
    let '(p, l) := fs_locate t key in
    let full := join_path p l in
    if is_reserved full then None
    else
      match leaf_file t full with
      | Some f => Some f
      | None =>
          match fs_prefix_ext t p with
          | [] => None
          | ext_t => leaf_file t (join_path ext_t l)
          end
      end.

(** ** Listings *)

(** The member an entry of the directory [p] stands for, if it is shown. *)
Definition child_member t (p : ospath) (dir_key fname : str) : res kverr (option str) :=
  if is_tmp_name fname then Ok None
  else
    let text := from_utf8_lossy fname in
    if bool_decide (text = SELF_MARKER) || bool_decide (text = DIR_MARKER) ||
       (bool_decide (dir_key = PATH_SEP) && bool_decide (text = META_ROOT_NAME)) then Ok None
    else
      name ← unescape_name text;
      if contains RUNTIME_MEMBER_SEP name then Ok None
      else if ends_with OBJ_SEP name then Ok (Some (trim_end_obj name))
      else
        let dp := p ++ [fname] in
        if path_is_dir t dp then
          if path_is_file t (dp ++ [SELF_MARKER]) && negb (path_is_file t (dp ++ [DIR_MARKER]))
          then Ok (Some name) else Ok (Some (name ++ "/"%rs))
        else Ok (Some name).

(** [children.dedup()] *)
Fixpoint dedup_names (l : list str) : list str :=
  match l with
  | a :: ((b :: _) as l') => if bool_decide (a = b) then dedup_names l' else a :: dedup_names l'
  | _ => l
  end.

Fixpoint child_members t (p : ospath) (dir_key : str) (names : list str) : res kverr (list str) :=
  match names with
  | [] => Ok []
  | n :: names =>
      m ← child_member t p dir_key n;
      ms ← child_members t p dir_key names;
      Ok (match m with Some m => m :: ms | None => ms end)
  end.

Definition dir_children t (dir_key : str) : res kverr (list str) :=
  if contains "//"%rs dir_key then Ok []
  else
    let p := fs_path dir_key in
    ms ← child_members t p dir_key (default [] (read_dir t p));
    Ok (dedup_names (sort_names ms)).

(** ** Copies *)

Definition make_dir (p : ospath) : stm fstree fserr unit := λ t,
  let '(t, ok) := create_dir_all t p in (if ok : bool then Ok tt else Err NotADirectory, t).

Definition copy_one (src dst : ospath) : stm fstree fserr unit := λ t,
  match copy_file t src dst with Ok t => (Ok tt, t) | Err e | Panic e => (Err e, t) end.

(** [copy_recursive]; the fuel bounds the depth of the source. *)
Fixpoint copy_recursive (fuel : nat) (src dst : ospath) : stm fstree fserr unit :=
  match fuel with
  | O => lift (Err InvalidName)
  | S fuel =>
      dir ← gets (λ t, path_is_dir t src);
      if dir : bool then
        make_dir dst;;
        names ← gets (λ t, default [] (read_dir t src));
        for_each (filter (λ n, is_tmp_name n = false) names)
          (λ n, copy_recursive fuel (src ++ [n]) (dst ++ [n]))
      else
        match parent_path dst with Some p => make_dir p | None => mret tt end;;
        copy_one src dst
  end.

(** No path of the tree is longer. *)
Definition tree_depth t : nat := foldr max 0%nat (length <$> (map_to_list t).*1).

(** ** The [KVSpace] methods *)

Definition fs_get t prefix (keys : list str) (resolve : bool) : res kverr (list XValue) :=
  assert_dir prefix;;
  let prefix := if resolve then fs_resolve_path t prefix else prefix in
  let ext_t := fs_prefix_ext t prefix in
  Ok ((λ k,
    let full := join_path prefix k in
    if is_reserved full then XNone
    else if is_dir full then
      match read_leaf t full with Some raw => XValue.from_wire raw | None => XNone end
    else
      match read_leaf t full with
      | Some data => XValue.from_wire data
      | None =>
          match ext_t with
          | [] => XNone
          | _ => match read_leaf t (join_path ext_t k) with
                 | Some data => XValue.from_wire data
                 | None => XNone
                 end
          end
      end) <$> keys).

Definition fs_get_raw t key : bytes :=
  let plain :=
    let '(p, l) := fs_locate t key in
    let full := join_path p l in
    if is_reserved full then []
    else
      match read_leaf t full with
      | Some data => data
      | None =>
          match fs_prefix_ext t p with
          | [] => []
          | ext_t => default [] (read_leaf t (join_path ext_t l))
          end
      end in
  if is_reserved key then []
  else if is_dir key then
    let resolved := fs_resolve_path t key in
    if is_dir resolved then default [] (read_leaf t resolved) else plain
  else plain.

Definition fs_get_part t key (off len : Z) : bytes :=
  let from_file :=
    match physical_file t key with
    | None => []
    | Some pf =>
        match read_file t pf with
        | Ok d => take (Z.to_nat len) (drop (Z.to_nat off) d)
        | _ => []
        end
    end in
  if is_reserved key then []
  else if is_dir key then
    match read_leaf t (fs_resolve_path t key) with
    | Some v => clamp_part off len v
    | None => from_file
    end
  else from_file.

(** What a part write checks: the file to write. *)
Definition fs_set_part_plan t key (off : Z) (buf : bytes) : res kverr ospath :=
  bail_if (is_reserved key) (ReservedKey key);;
  pf ← ok_or (SetPartMissing key) (physical_file t key);
  current ← ok_or (FsSetPartRead key) (ok_of (read_file t pf));
  effective ← ok_or (SetPartMalformed key) (effective_len current);
  let upper := PREFIX + effective in
  bail_if (upper <? saturating_add_u64 off (Z.of_nat (length buf)))
    (SetPartOutOfRange key off (Z.of_nat (length buf)) upper);;
  Ok pf.

(** [OpenOptions::new().write(true).open(pf)] and [write_at]. *)
Definition write_part (pf : ospath) (off : Z) (buf : bytes) t : fstree :=
  match lookup_path t pf with
  | Ok l => match node_at t l with
            | Some (File d) => <[l := File (write_at (Z.to_nat off) buf d)]> t
            | _ => t
            end
  | _ => t
  end.

Definition fs_set_part key (off : Z) (buf : bytes) : stm fsstate kverr unit :=
  pf ← (λ s, (fs_set_part_plan (tree s) key off buf, s));
  modify (λ s, mkFs (write_part pf off buf (tree s)) (tmp_seq s)).

(** One round of the loop of [set] up to the writes: the key and the bytes. *)
Definition fs_set_plan t (pair : KVPair) : res kverr (str * bytes) :=
  bail_if (is_reserved (pr_key pair)) (ReservedKey (pr_key pair));;
  let key := fs_resolve_parent t (pr_key pair) in
  bail_if (contains "//"%rs key || is_reserved key) (InvalidKey key);;
  let raw := default (XValue.to_wire (pr_val pair)) (pr_raw pair) in
  head ← ok_or (InvalidXValue key) (HeadLenPow.from_wire raw);
  validate_status_wire key raw;;
  attr ← ok_or (InvalidXValue key) (attr_len raw);
  total ← ok_or (InvalidXValue key) (checked_add (h_len head) PREFIX ≫= λ x, checked_add x attr);
  bail_if (Z.of_nat (length raw) <? total) (InvalidXValue key);;
  let raw := take (Z.to_nat total) raw in
  let parent := (split_index key).1.1 in
  let base := strip_dir_suf parent in
  bail_if (ends_with OBJ_SEP parent && negb (starts_with "/lib"%rs base) &&
           bool_decide (read_leaf t base = None)) (MemheadMissing base);;
  let ext_target := fs_prefix_ext t parent in
  let suffix := default [] (strip_prefix parent key) in
  bail_if
    (negb (bool_decide (ext_target = [])) && bool_decide (read_leaf t key = None) &&
     negb (bool_decide (read_leaf t (ext_target ++ suffix) = None)) &&
     negb (bool_decide (h_reference head = RefPointer) && is_frame_operand_key key))
    (ExtWrite key);;
  Ok (key, raw).

(** The writes of one round. *)
Definition fs_put key (raw : bytes) : stm fsstate kverr unit :=
  ensure_dir (split_index key).1.1;;
  (if is_dir key then ensure_dir key else mret tt);;
  write_leaf key raw.

Definition fs_set_one (pair : KVPair) : stm fsstate kverr unit :=
  plan ← (λ s, (fs_set_plan (tree s) pair, s));
  fs_put plan.1 plan.2.

Definition fs_set (pairs : list KVPair) : stm fsstate kverr unit := for_each pairs fs_set_one.

Definition fs_list t prefix (expand_ext resolve : bool) : res kverr (list str) :=
  if is_reserved prefix then Ok []
  else
    assert_dir prefix;;
    let resolved := if resolve then fs_resolve_path t prefix else prefix in
    if negb (is_dir resolved) then Ok []
    else if is_reserved resolved then Ok []
    else
      members ← dir_children t resolved;
      if expand_ext then
        match fs_prefix_ext t resolved with
        | [] => Ok members
        | ext_t =>
            ext_members ← dir_children t ext_t;
            Ok (foldl (λ ms m, if bool_decide (m ∈ ms) then ms else ms ++ [m]) members ext_members)
        end
      else Ok members.

Definition fs_del_one key : stm fsstate kverr unit :=
  err_if (is_reserved key) (ReservedKey key);;
  resolved ← gets (λ s, fs_resolve_parent (tree s) key);
  err_if (is_reserved resolved) (ReservedKey resolved);;
  remove_leaf resolved.

Definition fs_del (keys : list str) : stm fsstate kverr unit := for_each keys fs_del_one.

Definition fs_is_link t key : bool :=
  match read_leaf t key with Some data => head_is_ptr (from_wire_head data) | None => false end.

(** The entries of [p] whose decoded name starts with [stem]. *)
Fixpoint runtime_entries (p : ospath) (stem : str) (names : list str) : res kverr (list ospath) :=
  match names with
  | [] => Ok []
  | n :: names =>
      hit ← (if is_tmp_name n then Ok false
             else name ← unescape_name (from_utf8_lossy n); Ok (starts_with stem name));
      rest ← runtime_entries p stem names;
      Ok (if hit : bool then (p ++ [n]) :: rest else rest)
  end.

(** The paths a subtree covers: the sibling member directory, the runtime entries and the node
    itself; everything but the reserved directory for the root. *)
Definition doomed t base : res kverr (list ospath) :=
  if bool_decide (base = []) then
    Ok ((λ n, root ++ [n]) <$>
        filter (λ n, n ≠ META_ROOT_NAME) (default [] (read_dir t root)))
  else
    let node := node_path base in
    runtime ←
      match parent_path node, file_name node with
      | Some parent, Some name =>
          n ← unescape_name (from_utf8_lossy name);
          let stem := n ++ RUNTIME_MEMBER_SEP in
          runtime_entries parent stem (default [] (read_dir t parent))
      | _, _ => Ok []
      end;
    Ok (node_path (base ++ OBJ_SEP) :: runtime ++ [node]).

(** One round of the loop over [doomed]: a missing path is passed over. *)
Definition remove_node prefix (node : ospath) : stm fsstate kverr unit := λ s,
  let t := tree s in
  let r := if path_is_dir t node then remove_dir_all t node
           else if path_is_file t node then remove_file t node else Err NotFound in
  match r with
  | Ok t => (Ok tt, mkFs t (tmp_seq s))
  | Err NotFound => (Ok tt, s)
  | _ => (Err (FsRemove prefix), s)
  end.

Definition fs_del_tree prefix : stm fsstate kverr unit :=
  err_if (is_reserved prefix) (ReservedKey prefix);;
  resolved ← gets (λ s, fs_resolve_parent (tree s) prefix);
  err_if (is_reserved resolved) (ReservedKey resolved);;
  let base := subtree_base resolved in
  link ← gets (λ s, negb (bool_decide (base = [])) && fs_is_link (tree s) base);
  if link : bool then fs_del [base]
  else
    nodes ← (λ s, (doomed (tree s) base, s));
    for_each nodes (remove_node prefix).

Definition fs_cp src dst : stm fsstate kverr unit :=
  err_if (is_reserved src || is_reserved dst) ReservedSrcDst;;
  raw ← gets (λ s, fs_get_raw (tree s) src);
  err_if (bool_decide (raw = [])) (CpNotFound src);;
  fs_set [mkPair dst (XValue.from_wire raw) (Some raw)].

(** [if src.exists() { copy_recursive(src, dst)?; }] *)
Definition copy_if_exists src dst (s_path d_path : ospath) : stm fsstate kverr unit := λ s,
  if path_exists (tree s) s_path then
    match copy_recursive (S (tree_depth (tree s))) s_path d_path (tree s) with
    | (Ok _, t) => (Ok tt, mkFs t (tmp_seq s))
    | (_, t) => (Err (FsCopyTree src dst), mkFs t (tmp_seq s))
    end
  else (Ok tt, s).

Definition fs_cp_tree src dst : stm fsstate kverr unit :=
  err_if (is_reserved src || is_reserved dst) ReservedSrcDst;;
  src_res ← gets (λ s, fs_resolve_path (tree s) src);
  dst_res ← gets (λ s, fs_resolve_path (tree s) dst);
  err_if (is_reserved src_res || is_reserved dst_res) ReservedSrcDst;;
  let src_base := pop_dir src_res in
  let dst_base := pop_dir dst_res in
  if decide (src_base = dst_base) then mret tt
  else
    err_if (is_descendant src_base dst_base) CpTreeInside;;
    let sb := node_path src_base in
    let smem := node_path (src_base ++ OBJ_SEP) in
    found ← gets (λ s, path_exists (tree s) sb || path_exists (tree s) smem);
    err_if (negb found) (CpTreeNotFound src);;
    ignore (fs_del_tree dst_base);;
    copy_if_exists src dst sb (node_path dst_base);;
    copy_if_exists src dst smem (node_path (dst_base ++ OBJ_SEP));;
    ensure_dir (parent_name dst_base).1.

(** One entry of the member directory: a file, or a directory's own markers. *)
Definition copy_member (smem dmem : ospath) (n : str) t : fstree :=
  let sp := smem ++ [n] in
  let dp := dmem ++ [n] in
  if is_tmp_name n then t
  else if path_is_file t sp then or_same (copy_file t sp dp) t
  else if path_is_dir t sp then
    foldl (λ t marker,
      match read_file t (sp ++ [marker]) with
      | Ok c => let t := (create_dir_all t dp).1 in or_same (write_file t (dp ++ [marker]) c) t
      | _ => t
      end) t [SELF_MARKER; DIR_MARKER]
  else t.

Definition fs_cp_list src dst : stm fsstate kverr unit :=
  err_if (is_reserved src || is_reserved dst) ReservedSrcDst;;
  src_res ← gets (λ s, fs_resolve_path (tree s) src);
  dst_res ← gets (λ s, fs_resolve_path (tree s) dst);
  err_if (is_reserved src_res || is_reserved dst_res) ReservedSrcDst;;
  let src_base := pop_dir src_res in
  let dst_base := pop_dir dst_res in
  if decide (src_base = dst_base) then mret tt
  else
    let sb := node_path src_base in
    let smem := node_path (src_base ++ OBJ_SEP) in
    found ← gets (λ s, path_exists (tree s) sb || path_exists (tree s) smem);
    err_if (negb found) (CpListNotFound src);;
    ignore (fs_del_tree dst_base);;
    data ← gets (λ s, read_leaf (tree s) src_base);
    match data with Some data => write_leaf dst_base data | None => mret tt end;;
    let dmem := node_path (dst_base ++ OBJ_SEP) in
    modify (λ s,
      let t := tree s in
      if path_is_dir t smem then
        let t := (create_dir_all t dmem).1 in
        mkFs (foldl (λ t n, copy_member smem dmem n t) t (default [] (read_dir t smem))) (tmp_seq s)
      else s);;
    ensure_dir (parent_name dst_base).1.

Definition fs_mkindex path (capacity : Z) : stm fsstate kverr unit :=
  err_if (negb (is_dir path)) (MkindexNotDir path);;
  resolved ← gets (λ s, fs_resolve_path (tree s) path);
  ensure_dir resolved;;
  found ← gets (λ s, read_leaf (tree s) resolved);
  match found with
  | Some _ => mret tt
  | None =>
      value ← lift (ok_or (MkindexInvalid resolved) (HeadLenPow.to_wire [] "lib"%rs));
      write_leaf resolved value
  end.

(** [langtype_of] of the trait, on this space. *)
Definition fs_langtype_of t key : str :=
  let raw := fs_get_raw t key in
  match HeadLenPow.from_wire raw with
  | None => []
  | Some _ => default [] (from_utf8_lossy <$> langtype_from_wire raw)
  end.

Definition fs_ext_index path (ext_path : str) : stm fsstate kverr unit :=
  err_if (negb (is_dir path) || negb (is_dir ext_path)) (ExtIndexNotDir path ext_path);;
  resolved ← gets (λ s, fs_resolve_parent (tree s) path);
  cascade ← gets (λ s, negb (bool_decide (fs_prefix_ext (tree s) ext_path = [])));
  err_if cascade (ExtCascade ext_path);;
  missing ← gets (λ s, bool_decide (read_leaf (tree s) ext_path = None));
  err_if missing (ExtTargetMissing ext_path);;
  langtype ← gets (λ s, fs_langtype_of (tree s) ext_path);
  let prefixed := if starts_with "@"%rs langtype then langtype else "@"%rs ++ langtype in
  value ← lift (ok_or (ExtLocatorInvalid ext_path) (HeadLenPow.to_wire ext_path prefixed));
  ensure_dir resolved;;
  write_leaf resolved value.

Definition fs_del_ext_index path : stm fsstate kverr unit :=
  resolved ← gets (λ s, fs_resolve_parent (tree s) path);
  remove_leaf resolved.

Definition fs_clear : stm fsstate kverr unit :=
  modify (λ s, let t := or_same (remove_dir_all (tree s) root) (tree s) in
               mkFs (create_dir_all t root).1 (tmp_seq s)).

#[export] Instance fs_kvspace : KVSpace fsstate := {|
  ks_get_raw s key := Ok (fs_get_raw (tree s) key);
  ks_list s := fs_list (tree s);
  ks_set := fs_set;
  ks_set_part := fs_set_part;
  ks_del := fs_del;
  ks_del_tree := fs_del_tree;
  ks_cp := fs_cp;
  ks_cp_tree := fs_cp_tree;
  ks_cp_list := fs_cp_list;
  ks_mkindex := fs_mkindex;
  ks_ext_index := fs_ext_index;
  ks_del_ext_index := fs_del_ext_index;
  ks_clear := fs_clear;
|}.
End space.

(** [fs::connect]: the default root, as a path from the working directory [cwd]. *)
Definition fs_root (cwd : ospath) (root : str) : ospath :=
  let root := if bool_decide (root = []) then "/tmp/kvspace-fs"%rs else root in
  normal ((if starts_with "/"%rs root then [] else cwd) ++ split_byte SLASH root).

(** [FsKVSpace::new]: the root is created, or the call panics. *)
Definition fs_new (cwd : ospath) (root : str) t : res kverr fstree :=
  let '(t, ok) := create_dir_all t (fs_root cwd root) in
  if ok : bool then Ok t else Panic (FsCreateRoot root).

(** ** Examples *)

Definition ex_root : ospath := ["srv"%rs; "kv"%rs].
Definition ex_empty : fsstate := mkFs (<[ex_root := Dir]> (<[["srv"%rs] := Dir]> ∅)) 0.
Definition ex_wire (body : bytes) : bytes := default [] (HeadLenPow.to_wire body "char/utf8"%rs).
Definition ex_pair (key : str) (body : bytes) : KVPair := mkPair key XNone (Some (ex_wire body)).
Definition ex_set (pairs : list KVPair) : stm fsstate kverr unit := fs_set ex_root 7 pairs.

(** The file holding a container's own value, its [/] marker and its members. *)
Example fs_layout :
  (ex_set [ex_pair "/a"%rs "1"%rs; ex_pair "/a/"%rs "2"%rs; ex_pair "/a/b"%rs "3"%rs; ex_pair "/a·m"%rs "4"%rs;
           ex_pair "/~x"%rs "5"%rs] ex_empty).1 = Ok tt ∧
  let t := tree (ex_set [ex_pair "/a"%rs "1"%rs; ex_pair "/a/"%rs "2"%rs; ex_pair "/a/b"%rs "3"%rs;
                         ex_pair "/a·m"%rs "4"%rs; ex_pair "/~x"%rs "5"%rs] ex_empty).2 in
  t !! (ex_root ++ ["a"%rs; SELF_MARKER]) = Some (File (ex_wire "1"%rs)) ∧
  t !! (ex_root ++ ["a"%rs; DIR_MARKER]) = Some (File (ex_wire "2"%rs)) ∧
  t !! (ex_root ++ ["a"%rs; "b"%rs]) = Some (File (ex_wire "3"%rs)) ∧
  t !! (ex_root ++ ["a·"%rs; "m"%rs]) = Some (File (ex_wire "4"%rs)) ∧
  t !! (ex_root ++ ["~7e78"%rs]) = Some (File (ex_wire "5"%rs)) ∧
  fs_list ex_root t "/"%rs false true = Ok ["a"%rs; "a/"%rs; "~x"%rs] ∧
  fs_get_raw ex_root t "/a"%rs = ex_wire "1"%rs.
Proof. vm_compute. by split_and!. Qed.
