(* ===== verification/FsCases.v ===== *)
(** * Corner cases of the directory space

    Concrete runs of [src/src/fs/kvspace.rs] at the edges of its key mapping: outside the
    canonical keys of [FsNames], and where directories and files meet. *)

From S2P Require Import Prelude RustInt RustStr RustText HeadLenPow KPath Coord XValue SigV4 Dsn Store Backend KVSpace FsTree FsSpace.
Local Open Scope Z_scope.

Definition after (m : stm fsstate kverr unit) : fsstate := (m ex_empty).2.

(** [ensure_dir] turns only the parent itself into a directory: a value two levels above makes
    [set] panic. *)
Example set_below_a_value_panics :
  (ex_set [ex_pair "/a"%rs "1"%rs; ex_pair "/a/b/c"%rs "2"%rs] ex_empty).1 = Panic (FsWrite "/a/b/c"%rs) ∧
  (ex_set [ex_pair "/a"%rs "1"%rs; ex_pair "/a/b"%rs "2"%rs; ex_pair "/a/b/c"%rs "2"%rs] ex_empty).1 = Ok tt.
Proof. split; vm_compute; reflexivity. Qed.

(** A key with [..] writes outside the root. *)
Example dotdot_escapes_the_root :
  (ex_set [ex_pair "/../x"%rs "1"%rs] ex_empty).1 = Ok tt ∧
  tree (after (ex_set [ex_pair "/../x"%rs "1"%rs])) !! ["srv"%rs; "x"%rs] = Some (File (ex_wire "1"%rs)).
Proof. split; vm_compute; reflexivity. Qed.

(** [set] refuses a key with a doubled slash, [del] of one removes the file of another key. *)
Example del_of_a_doubled_slash :
  let s := after (ex_set [ex_pair "/a/b"%rs "1"%rs]) in
  fs_get_raw ex_root (tree s) "/a/b"%rs = ex_wire "1"%rs ∧
  (fs_del ex_root ["/a//b"%rs] s).1 = Ok tt ∧
  fs_get_raw ex_root (tree (fs_del ex_root ["/a//b"%rs] s).2) "/a/b"%rs = [].
Proof. split_and!; vm_compute; reflexivity. Qed.

(** A slash after a member separator makes no difference to the path. *)
Example member_slash_is_an_alias :
  let s := after (ex_set [ex_pair "/a"%rs "0"%rs; ex_pair "/a·x"%rs "1"%rs; ex_pair "/a·/x"%rs "2"%rs]) in
  fs_get_raw ex_root (tree s) "/a·x"%rs = ex_wire "2"%rs.
Proof. vm_compute. reflexivity. Qed.

(** Copying a tree over the directory that holds it deletes it, and succeeds. *)
Example cp_tree_over_its_parent :
  let s := after (ex_set [ex_pair "/a/b/c"%rs "1"%rs]) in
  (fs_cp_tree ex_root "/a/b"%rs "/a"%rs s).1 = Ok tt ∧
  fs_list ex_root (tree (fs_cp_tree ex_root "/a/b"%rs "/a"%rs s).2) "/"%rs false true = Ok [] ∧
  fs_get_raw ex_root (tree (fs_cp_tree ex_root "/a/b"%rs "/a"%rs s).2) "/a/c"%rs = [].
Proof. split_and!; vm_compute; reflexivity. Qed.

(** The members of an extension follow the own members, not in order. *)
Example extension_members_unsorted :
  let s := after (ex_set [ex_pair "/ext/a"%rs "1"%rs; ex_pair "/m/b"%rs "2"%rs]) in
  let s := (fs_mkindex ex_root 7 "/ext/"%rs 0 s).2 in
  let s := (fs_ext_index ex_root 7 "/m/"%rs "/ext/"%rs s).2 in
  fs_list ex_root (tree s) "/m/"%rs true true = Ok ["b"%rs; "a"%rs].
Proof. vm_compute. reflexivity. Qed.

(** A temporary name is never a key: the mapping escapes it. *)
Example tmp_names_are_escaped :
  let s := after (ex_set [ex_pair "/~~tmp.7.0"%rs "1"%rs]) in
  fs_list ex_root (tree s) "/"%rs false true = Ok ["~~tmp.7.0"%rs] ∧
  fs_get_raw ex_root (tree s) "/~~tmp.7.0"%rs = ex_wire "1"%rs.
Proof. split; vm_compute; reflexivity. Qed.

(** Directories outlive the keys stored in them, and are listed. *)
Example empty_directory_is_listed :
  let s := after (ex_set [ex_pair "/a/b"%rs "1"%rs]) in
  fs_list ex_root (tree (fs_del ex_root ["/a/b"%rs] s).2) "/"%rs false true = Ok ["a/"%rs].
Proof. vm_compute. reflexivity. Qed.

(** The same calls on [Backend] list nothing. *)
Example empty_directory_of_backend :
  let s := (Backend.set [mkPair "/a/b"%rs XNone (Some (ex_wire "1"%rs))] (∅ : mem)).2 in
  Backend.list_ (Backend.del ["/a/b"%rs] s).2 "/"%rs false true = Ok [].
Proof. vm_compute. reflexivity. Qed.
