(* ===== verification/FsWf.v ===== *)
(** * The tree stays well formed

    Every operation of [src/src/fs/kvspace.rs], on any key and whatever the tree holds, leaves a
    tree in which what is in a directory has that directory. *)

From S2P Require Import Prelude RustInt RustStr RustText HeadLenPow KPath Coord XValue SigV4 Dsn Store Backend KVSpace FsTree FsWalk FsSpace.
Local Open Scope Z_scope.

(** ** Calls of the interface *)

(** A call of a method that takes [&mut self] and changes the space. *)
Inductive ks_call :=
  | CallSet (pairs : list KVPair)
  | CallSetPart (key : str) (off : Z) (buf : bytes)
  | CallDel (keys : list str)
  | CallDelTree (prefix : str)
  | CallCp (src dst : str)
  | CallCpTree (src dst : str)
  | CallCpList (src dst : str)
  | CallMkindex (path : str) (capacity : Z)
  | CallExtIndex (path ext_path : str)
  | CallDelExtIndex (path : str)
  | CallClear.

Definition ks_run `{KVSpace K} (c : ks_call) : stm K kverr unit :=
  match c with
  | CallSet pairs => ks_set pairs
  | CallSetPart key off buf => ks_set_part key off buf
  | CallDel keys => ks_del keys
  | CallDelTree prefix => ks_del_tree prefix
  | CallCp src dst => ks_cp src dst
  | CallCpTree src dst => ks_cp_tree src dst
  | CallCpList src dst => ks_cp_list src dst
  | CallMkindex path capacity => ks_mkindex path capacity
  | CallExtIndex path ext_path => ks_ext_index path ext_path
  | CallDelExtIndex path => ks_del_ext_index path
  | CallClear => ks_clear
  end.

(** The space after some calls, failed ones included. *)
Definition ks_after `{KVSpace K} (calls : list ks_call) (s : K) : K :=
  foldl (λ s c, (ks_run c s).2) s calls.

(** ** Well-formedness, operation by operation *)

Definition wf_state (s : fsstate) : Prop := wf_tree (tree s).

(** [let _ = op;] *)
Lemma wf_or_same r t : wf_tree t → (∀ t', r = Ok t' → wf_tree t') → wf_tree (or_same r t).
Proof. intros Ht Hr. destruct r; [by apply Hr|done..]. Qed.

Lemma wf_try_write t p d : wf_tree t → wf_tree (or_same (write_file t p d) t).
Proof. intros H. apply wf_or_same; [done|]. intros t'. by apply wf_write_file. Qed.

Lemma wf_try_remove t p : wf_tree t → wf_tree (or_same (remove_file t p) t).
Proof. intros H. apply wf_or_same; [done|]. intros t'. by apply wf_remove_file. Qed.

Lemma wf_try_copy t p q : wf_tree t → wf_tree (or_same (copy_file t p q) t).
Proof. intros H. apply wf_or_same; [done|]. intros t'. by apply wf_copy_file. Qed.

Lemma wf_try_remove_dir t p : wf_tree t → wf_tree (or_same (remove_dir_all t p) t).
Proof. intros H. apply wf_or_same; [done|]. intros t'. by apply wf_remove_dir_all. Qed.

Create HintDb wftree discriminated.
#[export] Hint Resolve wf_create_dir_all wf_try_write wf_try_remove wf_try_copy wf_try_remove_dir : wftree.

Lemma wf_overwrite t path val t' :
  wf_tree t → overwrite_body_in_place t path val = Ok (Some t') → wf_tree t'.
Proof.
  intros Hwf. unfold overwrite_body_in_place, read_file. destruct (HeadLenPow.from_wire val) as [h|]; [|done].
  destruct (lookup_path t path) as [l|e|e]; cbn [mbind res_bind]; [|by destruct e..].
  destruct (node_at t l) as [[d|]|] eqn:E; try done.
  destruct (negb _); [done|]. destruct (negb _ || negb _); [done|]. intros [= <-].
  by eapply wf_update_file.
Qed.

Section wf.
Context (root : list (list Byte.byte)) (pid : Z).

Lemma wf_write_atomic path val : keeps wf_state (write_atomic pid path val).
Proof.
  intros s Hs. unfold write_atomic, wf_state in *.
  destruct (overwrite_body_in_place _ _ _) as [[t|]|e|e] eqn:E; try done.
  - by eapply wf_overwrite.
  - destruct (write_file _ _ _) as [t| |] eqn:Ew; try done. apply wf_write_file in Ew; [|done].
    destruct (rename_file _ _ _) as [t'|e|e] eqn:Er; cbn; [by eapply wf_rename_file|eauto with wftree..].
Qed.

Lemma wf_write_or_panic key path val : keeps wf_state (write_or_panic pid key path val).
Proof.
  intros s Hs. unfold write_or_panic. pose proof (wf_write_atomic path val s Hs).
  by destruct (write_atomic _ _ _ _) as [[[]| |] s'].
Qed.

Lemma wf_ensure_dir_tree t key : wf_tree t → wf_tree (ensure_dir_tree root t key).
Proof.
  intros Hwf. unfold ensure_dir_tree. destruct (path_is_file _ _); [|auto with wftree].
  destruct (ok_of _); eauto 8 with wftree.
Qed.

Lemma wf_remove_leaf_tree t key : wf_tree t → wf_tree (remove_leaf_tree root t key).
Proof. intros Hwf. unfold remove_leaf_tree. destruct (path_is_dir _ _); eauto with wftree. Qed.

Lemma wf_ensure_dir key : keeps wf_state (ensure_dir root key).
Proof. apply keeps_modify. intros s. apply wf_ensure_dir_tree. Qed.

Lemma wf_remove_leaf key : keeps wf_state (remove_leaf root key).
Proof. apply keeps_modify. intros s. apply wf_remove_leaf_tree. Qed.

Lemma wf_write_leaf key val : keeps wf_state (write_leaf root pid key val).
Proof.
  unfold write_leaf. apply keeps_bind; [destruct (_ && _); [apply wf_ensure_dir|apply keeps_ret]|].
  intros _. apply keeps_bind; [apply keeps_gets|]. intros [].
  - apply wf_write_or_panic.
  - apply keeps_bind; [|intros _; apply wf_write_or_panic]. apply keeps_modify. intros s Hs.
    destruct (parent_path _); [|done]. unfold wf_state in *. cbn. auto with wftree.
Qed.

Lemma wf_write_part pf off buf t : wf_tree t → wf_tree (write_part pf off buf t).
Proof.
  intros Hwf. unfold write_part. destruct (lookup_path t pf) as [l| |]; try done.
  destruct (node_at t l) as [[]|] eqn:E; try done. by eapply wf_update_file.
Qed.

Lemma wf_remove_node prefix node : keeps wf_state (remove_node prefix node).
Proof.
  intros s Hs. unfold remove_node, wf_state in *. destruct (path_is_dir _ _).
  - destruct (remove_dir_all _ _) as [|[]|] eqn:E; cbn; try done. by eapply wf_remove_dir_all.
  - destruct (path_is_file _ _); [|done].
    destruct (remove_file _ _) as [|[]|] eqn:E; cbn; try done. by eapply wf_remove_file.
Qed.
#[local] Hint Resolve wf_ensure_dir wf_remove_leaf wf_write_leaf wf_remove_node : stm.

Lemma wf_copy_recursive fuel src dst : keeps wf_tree (copy_recursive fuel src dst).
Proof.
  revert src dst. induction fuel as [|fuel IH]; intros src dst; cbn [copy_recursive]; [apply keeps_lift|].
  assert (Hmk : ∀ p, keeps wf_tree (make_dir p)).
  { intros p t Ht. unfold make_dir. pose proof (wf_create_dir_all t p Ht). by destruct (create_dir_all t p). }
  assert (Hcp : ∀ p q, keeps wf_tree (copy_one p q)).
  { intros p q t Ht. unfold copy_one. destruct (copy_file t p q) eqn:E; try done. by eapply wf_copy_file. }
  apply keeps_bind; [apply keeps_gets|]. intros [].
  - apply keeps_bind; [apply Hmk|]. intros _. apply keeps_bind; [apply keeps_gets|]. intros names.
    apply keeps_for_each. intros n _. apply IH.
  - apply keeps_bind; [destruct (parent_path dst); [apply Hmk|apply keeps_ret]|]. intros _. apply Hcp.
Qed.

Lemma wf_copy_if_exists src dst p q : keeps wf_state (copy_if_exists src dst p q).
Proof.
  intros s Hs. unfold copy_if_exists, wf_state in *. destruct (path_exists _ _); [|done].
  pose proof (wf_copy_recursive (S (tree_depth (tree s))) p q (tree s) Hs).
  by destruct (copy_recursive _ _ _ _) as [[[]| |] t].
Qed.
#[local] Hint Resolve wf_copy_if_exists : stm.

Lemma wf_copy_member smem dmem n t : wf_tree t → wf_tree (copy_member smem dmem n t).
Proof.
  intros Hwf. unfold copy_member. destruct (is_tmp_name n); [done|].
  destruct (path_is_file _ _); [eauto with wftree|]. destruct (path_is_dir _ _); [|done].
  cbn [foldl]. assert (H : ∀ t m, wf_tree t → wf_tree match read_file t (smem ++ [n] ++ [m]) with
    | Ok c => or_same (write_file (create_dir_all t (dmem ++ [n])).1 ((dmem ++ [n]) ++ [m]) c)
                (create_dir_all t (dmem ++ [n])).1
    | _ => t end).
  { intros t' m Ht. destruct (read_file t' _); [|done..]. eauto with wftree. }
  pose proof (H t SELF_MARKER Hwf) as H1. rewrite app_assoc in H1.
  pose proof (H _ DIR_MARKER H1) as H2. rewrite app_assoc in H2. exact H2.
Qed.

Lemma wf_copy_members smem dmem names t :
  wf_tree t → wf_tree (foldl (λ t n, copy_member smem dmem n t) t names).
Proof.
  revert t. induction names as [|n names IH]; intros t Ht; [done|]. cbn [foldl].
  by apply IH, wf_copy_member.
Qed.

Lemma wf_set pairs : keeps wf_state (fs_set root pid pairs).
Proof.
  apply keeps_for_each. intros p _. unfold fs_set_one. apply keeps_bind.
  - by intros s Hs.
  - intros [key raw]. unfold fs_put. cbn. keeps_steps; auto with stm.
Qed.

Lemma wf_del keys : keeps wf_state (fs_del root keys).
Proof. apply keeps_for_each. intros k _. unfold fs_del_one. keeps_steps; auto with stm. Qed.
#[local] Hint Resolve wf_set wf_del : stm.

Lemma wf_del_tree prefix : keeps wf_state (fs_del_tree root prefix).
Proof.
  unfold fs_del_tree. keeps_steps; [apply wf_del|by intros s Hs|].
  apply keeps_for_each. auto with stm.
Qed.
#[local] Hint Resolve wf_del_tree : stm.

Lemma wf_cp src dst : keeps wf_state (fs_cp root pid src dst).
Proof. unfold fs_cp. keeps_steps; auto with stm. Qed.

Lemma wf_cp_tree src dst : keeps wf_state (fs_cp_tree root src dst).
Proof.
  unfold fs_cp_tree. keeps_steps; auto with stm.
Qed.

Lemma wf_cp_list src dst : keeps wf_state (fs_cp_list root pid src dst).
Proof.
  unfold fs_cp_list. keeps_steps; auto with stm.
  - match goal with |- keeps _ (match ?o with _ => _ end) => destruct o end; auto with stm.
  - apply keeps_modify. intros s Hs. destruct (path_is_dir _ _); [|done]. unfold wf_state in *. cbn.
    by apply wf_copy_members, wf_create_dir_all.
Qed.

Lemma wf_mkindex path capacity : keeps wf_state (fs_mkindex root pid path capacity).
Proof.
  unfold fs_mkindex. keeps_steps; auto with stm.
Qed.

Lemma wf_ext_index path ext_path : keeps wf_state (fs_ext_index root pid path ext_path).
Proof. unfold fs_ext_index. keeps_steps; auto with stm. Qed.

Lemma wf_del_ext_index path : keeps wf_state (fs_del_ext_index root path).
Proof. unfold fs_del_ext_index. keeps_steps; auto with stm. Qed.

Lemma wf_clear : keeps wf_state (fs_clear root).
Proof. apply keeps_modify. intros s Hs. unfold wf_state in *. cbn. auto with wftree. Qed.

Lemma wf_set_part key off buf : keeps wf_state (fs_set_part root key off buf).
Proof.
  unfold fs_set_part. apply keeps_bind; [by intros s Hs|]. intros pf. apply keeps_modify.
  intros s. apply wf_write_part.
Qed.
End wf.

Lemma wf_ex_empty : wf_tree (tree ex_empty).
Proof.
  apply (wf_insert_dir (<[["srv"%rs] := Dir]> ∅) ["srv"%rs] "kv"%rs); [|done..].
  apply (wf_insert_dir ∅ [] "srv"%rs); [apply wf_empty|done|apply lookup_empty].
Qed.

(** The space never leaves an orphan in the file system: the root is created in a
    well-formed tree, and after any sequence of calls of the changing methods of the interface, on any keys (with [..]
    components, repeated slashes, links, the names of markers), whether each call succeeds, fails
    or panics half-way, every file and directory of the tree lies in a directory of the tree. *)
Theorem fs_tree_well_formed root pid cwd name t t0 calls seq :
  wf_tree t → fs_new cwd name t = Ok t0 →
  wf_tree t0 ∧
  wf_tree (tree (@ks_after fsstate (fs_kvspace root pid) calls (mkFs t0 seq))).
Proof.
  intros Hwf Hnew.
  assert (wf_tree t0) as H0.
  { unfold fs_new in Hnew. pose proof (wf_create_dir_all t (fs_root cwd name) Hwf) as H.
    destruct (create_dir_all t _) as [t1 []]; [|done]. by injection Hnew as <-. }
  split; [done|]. change (wf_state (mkFs t0 seq)) in H0. revert H0. generalize (mkFs t0 seq).
  unfold ks_after. induction calls as [|c calls IH]; intros s Hs; [done|]. cbn [foldl]. apply IH.
  destruct c; cbn [ks_run fs_kvspace ks_set ks_set_part ks_del ks_del_tree ks_cp ks_cp_tree ks_cp_list
    ks_mkindex ks_ext_index ks_del_ext_index ks_clear].
  - by apply wf_set.
  - by apply wf_set_part.
  - by apply wf_del.
  - by apply wf_del_tree.
  - by apply wf_cp.
  - by apply wf_cp_tree.
  - by apply wf_cp_list.
  - by apply wf_mkindex.
  - by apply wf_ext_index.
  - by apply wf_del_ext_index.
  - by apply wf_clear.
Qed.

Lemma fs_tree_well_formed_witness :
  wf_tree ∅ ∧
  ∃ t0, fs_new [] "/srv/kv"%rs ∅ = Ok t0 ∧
    wf_tree (tree (@ks_after fsstate (fs_kvspace ex_root 7)
      [CallSet [ex_pair "/a"%rs "1"%rs]; CallSet [ex_pair "/a/../../x"%rs "2"%rs]; CallDelTree "/a"%rs] (mkFs t0 0))).
Proof.
  assert (Hok : (create_dir_all ∅ (fs_root [] "/srv/kv"%rs)).2 = true) by (vm_compute; reflexivity).
  assert (Hnew : fs_new [] "/srv/kv"%rs ∅ = Ok (create_dir_all ∅ (fs_root [] "/srv/kv"%rs)).1).
  { unfold fs_new. destruct (create_dir_all _ _) as [t []]; done. }
  split; [apply wf_empty|]. exists (create_dir_all ∅ (fs_root [] "/srv/kv"%rs)).1. split; [done|].
  by apply (fs_tree_well_formed ex_root 7 [] "/srv/kv"%rs ∅); [apply wf_empty|].
Defined.
