(* ===== verification/FsBounds.v ===== *)
(** * Part writes stay inside the value

    [set_part] of [src/src/fs/kvspace.rs]: [pwrite] would extend a file, the check in front of it
    keeps the write within the value. *)

From S2P Require Import Prelude RustInt RustStr RustText HeadLenPow KPath Coord XValue SigV4 Dsn Store Backend BackendWrite KVSpace FsTree FsSpace.
Local Open Scope Z_scope.
Implicit Types (t : fstree) (key : str) (l p : list (list Byte.byte)).

Lemma write_at_inside (off : nat) (buf d : bytes) : (off <= length d)%nat → write_at off buf d = splice off buf d.
Proof.
  intros H. unfold write_at, splice. destruct buf as [|b buf].
  - cbn [length app]. by rewrite Nat.add_0_r, take_drop.
  - by replace (off - length d)%nat with 0%nat by lia.
Qed.

Section bounds.
Context (root : list (list Byte.byte)).

(** The range of a part write is inside the value of the file [p]. *)
Definition fs_part_fits t key (off : Z) (buf : bytes) p (d : bytes) (e : Z) : Prop :=
  is_reserved key = false ∧ physical_file root t key = Some p ∧ read_file t p = Ok d ∧
  effective_len d = Some e ∧ off + Z.of_nat (length buf) <= PREFIX + e.

Lemma saturating_small off (buf : bytes) :
  0 <= off <= U32_MAX → Z.of_nat (length buf) <= ISIZE_MAX →
  saturating_add_u64 off (Z.of_nat (length buf)) = off + Z.of_nat (length buf).
Proof. unfold saturating_add_u64, U32_MAX, ISIZE_MAX, USIZE_MAX. lia. Qed.

Lemma fs_set_part_plan_Ok t key off (buf : bytes) p :
  0 <= off <= U32_MAX → Z.of_nat (length buf) <= ISIZE_MAX →
  fs_set_part_plan root t key off buf = Ok p ↔ ∃ d e, fs_part_fits t key off buf p d e.
Proof.
  intros Ho Hb. unfold fs_set_part_plan, fs_part_fits. rewrite saturating_small by done.
  destruct (is_reserved key); [by split; [|intros (? & ? & ? & _)]|]. cbn [bail_if mbind res_bind].
  destruct (physical_file root t key) as [pf|]; [|by split; [|intros (? & ? & _ & ? & _)]]. cbn [ok_or mbind res_bind].
  destruct (read_file t pf) as [d|err|err] eqn:Er; cbn [ok_of ok_or mbind res_bind].
  2,3: split; [done|]; intros (d & e & _ & [= <-] & Hd & _); congruence.
  destruct (effective_len d) as [e|] eqn:Ee; cbn [ok_or mbind res_bind].
  2: { split; [done|]. intros (d' & e & _ & [= <-] & Hd & He & _). rewrite Er in Hd. injection Hd as <-. congruence. }
  destruct (Z.ltb_spec (PREFIX + e) (off + Z.of_nat (length buf))) as [Hlt|Hle]; cbn [bail_if mbind res_bind].
  - split; [done|]. intros (d' & e' & _ & [= <-] & Hd & He & Hl). rewrite Er in Hd. injection Hd as <-.
    rewrite Ee in He. injection He as <-. lia.
  - split.
    + intros [= <-]. by exists d, e.
    + by intros (d' & e' & _ & [= <-] & _).
Qed.

Lemma write_part_file t p l d off (buf : bytes) :
  lookup_path t p = Ok l → node_at t l = Some (File d) →
  write_part p off buf t = <[l := File (write_at (Z.to_nat off) buf d)]> t.
Proof. intros Hl Hn. unfold write_part. by rewrite Hl, Hn. Qed.

Lemma read_file_at t p d : read_file t p = Ok d → ∃ l, lookup_path t p = Ok l ∧ node_at t l = Some (File d).
Proof.
  unfold read_file. destruct (lookup_path t p) as [l| |]; [|done..]. cbn [mbind res_bind].
  destruct (node_at t l) as [[x|]|] eqn:E; [|done..]. intros [= <-]. eauto.
Qed.
End bounds.

(** A part write never grows a file.  With a u32 offset and a slice no longer than Rust
    allows, [set_part] succeeds exactly when the key has a file (its own or the one of its
    extension), the file decodes, and the range ends within the header and the effective length;
    then exactly one file changes, by the bytes of the range and in nothing else, its length stays
    the same, and a range in the body leaves a value of the same effective length.
    Otherwise it fails and nothing changes; it never panics. *)
Theorem fs_set_part_in_bounds root key off (buf : bytes) s :
  0 <= off <= U32_MAX → Z.of_nat (length buf) <= ISIZE_MAX →
  match fs_set_part root key off buf s with
  | (Ok _, s') => ∃ p l d e, fs_part_fits root (tree s) key off buf p d e ∧
      lookup_path (tree s) p = Ok l ∧ tree s !! l = Some (File d) ∧
      tree s' = <[l := File (splice (Z.to_nat off) buf d)]> (tree s) ∧
      PREFIX + e <= Z.of_nat (length d) ∧
      length (splice (Z.to_nat off) buf d) = length d ∧
      (PREFIX <= off → effective_len (splice (Z.to_nat off) buf d) = Some e)
  | (Err _, s') => s' = s ∧ ∀ p d e, ¬ fs_part_fits root (tree s) key off buf p d e
  | (Panic _, _) => False
  end.
Proof.
  intros Ho Hb. unfold fs_set_part. rewrite stm_bind_eq.
  destruct (fs_set_part_plan root (tree s) key off buf) as [p|er|er] eqn:E.
  - apply fs_set_part_plan_Ok in E as (d & e & Hfit); [|done..].
    pose proof Hfit as (_ & _ & Hread & He & Hle).
    destruct (read_file_at (tree s) p d Hread) as (l & Hl & Hn).
    destruct (set_part_fits off buf d e He Ho Hb) as (h & Hf & Hle' & _ & Hlen);
      [by rewrite saturating_small|].
    assert (Hne : l ≠ []) by (intros ->; done). rewrite node_at_ne in Hn by done.
    exists p, l, d, e. split_and!; try done.
    + cbn [modify snd tree]. rewrite (write_part_file _ _ l d) by (by rewrite ?node_at_ne).
      by rewrite write_at_inside by lia.
    + apply from_wire_spec in Hf as (Hwf & extra & ->). by apply (body_end_inside h extra _ e).
    + apply length_splice. lia.
    + intros Hoff. eapply effective_len_splice; [done..|lia].
  - split; [done|]. intros p d e Hfit.
    assert (fs_set_part_plan root (tree s) key off buf = Ok p) by (apply fs_set_part_plan_Ok; eauto). congruence.
  - revert E. unfold fs_set_part_plan. destruct (is_reserved key); [done|]. cbn [bail_if mbind res_bind].
    destruct (physical_file _ _ _); [|done]. cbn [ok_or mbind res_bind].
    destruct (ok_of _) as [d|]; [|done]. cbn [ok_or mbind res_bind].
    destruct (effective_len d); [|done]. cbn [ok_or mbind res_bind]. by destruct (_ <? _).
Qed.

Definition ex_stored : fsstate := (ex_set [ex_pair "/a"%rs "abc"%rs] ex_empty).2.

Lemma fs_set_part_in_bounds_witness :
  (0 <= 17 <= U32_MAX) ∧ Z.of_nat (length "X"%rs) <= ISIZE_MAX ∧
  tree (fs_set_part ex_root "/a"%rs 17 "X"%rs ex_stored).2 !! (ex_root ++ ["a"%rs]) = Some (File (ex_wire "aXc"%rs)).
Proof.
  assert (H1 : 0 <= 17 <= U32_MAX) by (split; vm_compute; discriminate).
  assert (H2 : Z.of_nat (length "X"%rs) <= ISIZE_MAX) by (vm_compute; discriminate).
  split; [exact H1|]. split; [exact H2|].
  pose proof (fs_set_part_in_bounds ex_root "/a"%rs 17 "X"%rs ex_stored H1 H2) as H.
  assert (Hok : (fs_set_part ex_root "/a"%rs 17 "X"%rs ex_stored).1 = Ok tt) by (vm_compute; reflexivity).
  destruct (fs_set_part _ _ _ _ _) as [r s']. cbn [fst] in Hok. subst r.
  destruct H as (p & l & d & e & (_ & Hp & _) & Hl & Hd & Ht & _). cbn [snd]. rewrite Ht.
  assert (Ep : physical_file ex_root (tree ex_stored) "/a"%rs = Some (ex_root ++ ["a"%rs])) by (vm_compute; reflexivity).
  rewrite Ep in Hp. injection Hp as <-.
  assert (El : lookup_path (tree ex_stored) (ex_root ++ ["a"%rs]) = Ok (ex_root ++ ["a"%rs])) by (vm_compute; reflexivity).
  assert (l = ex_root ++ ["a"%rs]) as -> by (enough (Ok (E:=fserr) l = Ok (ex_root ++ ["a"%rs])) as E by (by injection E); by rewrite <-Hl, <-El).
  assert (Ed : tree ex_stored !! (ex_root ++ ["a"%rs]) = Some (File (ex_wire "abc"%rs))) by (vm_compute; reflexivity).
  rewrite Ed in Hd. injection Hd as <-. rewrite lookup_insert_eq. vm_compute. reflexivity.
Defined.
