(* ===== verification/FsNames.v ===== *)
(** * The names a key is stored under

    Facts about [fs_path] and [unescape_name] of [src/src/fs/kvspace.rs]: which keys the mapping
    separates, that names are never the markers nor the names of temporary files, and that a
    listing recovers the names. *)

From S2P Require Import Prelude RustInt RustStr RustText HeadLenPow KPath Coord XValue SigV4 Dsn Store Backend KVSpace FsTree FsSpace.
Local Open Scope Z_scope.
Implicit Types (key k part name : str).

(** ** Keys the space stores faithfully *)

(** Whether the path of a key ends with a slash. *)
Definition trailing key : bool := bool_decide (last (key_parts key) = Some []).

(** The directories and the node of a key, without that slash. *)
Definition names key : list str :=
  if trailing key then take (length (key_parts key) - 1) (key_parts key) else key_parts key.

(** An absolute key without repeated slashes, whose components are names. *)
Definition canonical key : Prop :=
  starts_with "/"%rs key = true ∧ contains "//"%rs key = false ∧ Forall proper (names key).

#[export] Instance canonical_dec key : Decision (canonical key).
Proof. unfold canonical. apply _. Defined.

Lemma key_parts_names key : key_parts key = names key ++ (if trailing key then [[]] else []).
Proof.
  unfold names, trailing. case_bool_decide as H; [|by rewrite app_nil_r].
  apply last_Some in H as [l ->]. rewrite length_app. cbn [length].
  by rewrite Nat.add_sub, take_app_length.
Qed.

(** ** The slash after a member separator *)

Lemma split_members_obj b k :
  split_members b ("·"%rs ++ k) = "·"%rs ++ (if b then [] else [SLASH]) ++ split_members false k.
Proof. reflexivity. Qed.

Lemma split_members_cons b c k :
  starts_with "·"%rs (c :: k) = false →
  split_members b (c :: k) = c :: split_members (bool_decide (c = SLASH)) k.
Proof.
  intros H. destruct k as [|d k]; [done|]. cbn [split_members].
  case_decide as E; [|done]. destruct E as [-> ->]. done.
Qed.

Lemma members_ind (P : bool → str → Prop) :
  (∀ b, P b []) → (∀ b k, P false k → P b ("·"%rs ++ k)) →
  (∀ b c k, starts_with "·"%rs (c :: k) = false → P (bool_decide (c = SLASH)) k → P b (c :: k)) →
  ∀ b k, P b k.
Proof.
  intros H0 Hobj Hc b k. remember (length k) as n eqn:Hn. revert b k Hn.
  induction (lt_wf n) as [n _ IH]. intros b k ->.
  destruct k as [|c k]; [apply H0|]. destruct (starts_with "·"%rs (c :: k)) eqn:E.
  - apply starts_with_true in E as [r E]. rewrite E. apply Hobj.
    apply (IH (length r)); [rewrite E; cbn; lia|done].
  - apply Hc; [done|]. apply (IH (length k)); [cbn; lia|done].
Qed.

(** What [split_members] inserted is taken out again. *)
Fixpoint unsplit (b : bool) (s : str) : str :=
  match s with
  | [] => []
  | c :: rest =>
      match rest with
      | [] => [c]
      | d :: rest' =>
          if decide (c = Byte.xc2 ∧ d = Byte.xb7)
          then c :: d ::
            (if b then unsplit false rest'
             else match rest' with
                  | [] => []
                  | e :: rest'' => if decide (e = SLASH) then unsplit false rest'' else unsplit false rest'
                  end)
          else c :: unsplit (bool_decide (c = SLASH)) rest
      end
  end.

Lemma unsplit_cons b c k :
  starts_with "·"%rs (c :: k) = false → unsplit b (c :: k) = c :: unsplit (bool_decide (c = SLASH)) k.
Proof.
  intros H. destruct k as [|d k]; [done|]. cbn [unsplit].
  case_decide as E; [|done]. destruct E as [-> ->]. done.
Qed.

Lemma split_members_head b c k : ∃ r, split_members b (c :: k) = c :: r.
Proof.
  destruct (starts_with "·"%rs (c :: k)) eqn:E.
  - apply starts_with_true in E as [r E]. rewrite E, split_members_obj.
    injection E as -> _. by eexists.
  - rewrite split_members_cons by done. by eexists.
Qed.

(** The separator is not started by what follows a lone byte. *)
Lemma starts_with_obj_members b c k t :
  starts_with "·"%rs (c :: k) = false → t = [] ∨ t = [SLASH] →
  starts_with "·"%rs (c :: split_members b k ++ t) = false.
Proof.
  intros H Ht. destruct k as [|d k].
  - cbn [split_members app]. destruct Ht as [-> | ->]; [done|].
    change (starts_with "·"%rs [c; SLASH] = false). unfold starts_with. cbn. by destruct (decide (Byte.xc2 = c)).
  - destruct (split_members_head b d k) as [r ->]. revert H. unfold starts_with. cbn. by repeat case_decide.
Qed.

Lemma unsplit_members b k t :
  t = [] ∨ t = [SLASH] → unsplit b (split_members b k ++ t) = k ++ t.
Proof.
  intros Ht. revert b k. apply members_ind.
  - intros b. by destruct Ht as [-> | ->].
  - intros b k IH. rewrite split_members_obj. destruct b; cbn [app].
    + change (unsplit true _) with ("·"%rs ++ unsplit false (split_members false k ++ t)).
      by rewrite IH.
    + change (unsplit false _) with ("·"%rs ++ unsplit false (split_members false k ++ t)).
      by rewrite IH.
  - intros b c k Hc IH. rewrite split_members_cons by done. cbn [app].
    rewrite unsplit_cons by (by apply starts_with_obj_members). by rewrite IH.
Qed.

Lemma split_members_inj b k1 k2 : split_members b k1 = split_members b k2 → k1 = k2.
Proof.
  intros H. pose proof (unsplit_members b k1 [] ltac:(auto)) as H1.
  pose proof (unsplit_members b k2 [] ltac:(auto)) as H2. rewrite H in H1. rewrite H2 in H1.
  by rewrite !app_nil_r in H1.
Qed.

(** A slash at the end of the path is one of the key. *)
Lemma split_members_slash b k1 k2 : split_members b k1 ++ [SLASH] = split_members b k2 → k2 = k1 ++ [SLASH].
Proof.
  intros H. pose proof (unsplit_members b k1 [SLASH] ltac:(auto)) as H1.
  pose proof (unsplit_members b k2 [] ltac:(auto)) as H2. rewrite app_nil_r in H2.
  by rewrite <-H, H1, app_nil_r in H2.
Qed.

(** ** Escaped names *)

Lemma hex_pair_byte b :
  hex_pair (nibble HEX_LOWER (Z.shiftr (byte_val b) 4)) (nibble HEX_LOWER (Z.land (byte_val b) 15)) = Some b ∧
  cont (nibble HEX_LOWER (Z.shiftr (byte_val b) 4)) = false.
Proof. by destruct b. Qed.

Lemma hex_cons b l :
  hex (b :: l) = nibble HEX_LOWER (Z.shiftr (byte_val b) 4) :: nibble HEX_LOWER (Z.land (byte_val b) 15) :: hex l.
Proof. reflexivity. Qed.

Lemma length_hex l : length (hex l) = (2 * length l)%nat.
Proof. induction l as [|b l IH]; [done|]. rewrite hex_cons. cbn [length]. lia. Qed.

Lemma unhex_hex l : unhex (hex l) = Ok (Some l).
Proof.
  induction l as [|b l IH]; [done|]. rewrite hex_cons. cbn [unhex].
  destruct (hex_pair_byte b) as [-> _].
  replace (match hex l with [] => false | c :: _ => cont c end) with false.
  - by rewrite IH.
  - destruct l as [|b' l]; [done|]. rewrite hex_cons. by destruct (hex_pair_byte b') as [_ ->].
Qed.

Lemma hex_inj l1 l2 : hex l1 = hex l2 → l1 = l2.
Proof. intros H. pose proof (unhex_hex l1) as H1. rewrite H, unhex_hex in H1. by injection H1. Qed.

(** A name as it is, or escaped because it starts with [~] or is a marker. *)
Lemma escape_part_cases part :
  (escape_part part = part ∧ part ≠ SELF_MARKER ∧ part ≠ DIR_MARKER ∧ starts_with "~"%rs part = false) ∨
  escape_part part = "~"%rs ++ hex part.
Proof.
  unfold escape_part. destruct (bool_decide (part = SELF_MARKER)) eqn:H1; [by right|].
  destruct (bool_decide (part = DIR_MARKER)) eqn:H2; [by right|].
  destruct (starts_with "~"%rs part) eqn:H3; [by right|]. left.
  apply bool_decide_eq_false in H1, H2. done.
Qed.

Lemma escape_part_inj p1 p2 : escape_part p1 = escape_part p2 → p1 = p2.
Proof.
  destruct (escape_part_cases p1) as [(-> & _ & _ & H1)| ->], (escape_part_cases p2) as [(-> & _ & _ & H2)| ->].
  - done.
  - intros ->. by rewrite starts_with_app in H1.
  - intros <-. by rewrite starts_with_app in H2.
  - intros H. apply app_inv_head in H. by apply hex_inj.
Qed.

(** What a name of the tree that a key gives is not. *)
Definition key_name (name : str) : Prop :=
  name ≠ SELF_MARKER ∧ name ≠ DIR_MARKER ∧ starts_with TMP_PREFIX name = false.

Lemma escape_part_name part : key_name (escape_part part).
Proof.
  destruct (escape_part_cases part) as [(-> & H1 & H2 & H3)|H].
  - split_and!; [done..|]. destruct (starts_with TMP_PREFIX part) eqn:E; [|done].
    apply starts_with_true in E as [r ->]. done.
  - rewrite H. split_and!; [done..|]. destruct (starts_with _ _) eqn:E; [|done].
    apply starts_with_true in E as [r E]. destruct part as [|b part]; [done|].
    rewrite hex_cons in E. exfalso. injection E as Hb _. revert Hb. by destruct b.
Qed.

Lemma escape_part_nil part : escape_part part = [] ↔ part = [].
Proof. split; [|by intros ->]. intros H. by apply escape_part_inj. Qed.

(** A listing shows the name a key has. *)
Lemma unescape_escape part : utf8_valid part = true → unescape_name (escape_part part) = Ok part.
Proof.
  intros Hp. unfold unescape_name. destruct (escape_part_cases part) as [(-> & _ & _ & H)| ->].
  - apply starts_with_false in H. by rewrite H.
  - rewrite strip_prefix_app, length_hex. rewrite Nat.odd_mul. cbn [Nat.odd andb negb Nat.even].
    rewrite unhex_hex. unfold from_utf8. cbn. by rewrite Hp.
Qed.

(** ** The mapping separates keys *)

Lemma key_split key :
  starts_with "/"%rs key = true → contains "//"%rs key = false →
  ∃ k, key = SLASH :: k ∧ key_parts key = escape_part <$> split_byte SLASH (split_members true k).
Proof.
  intros [k ->]%starts_with_true Hc. exists k. split; [done|]. unfold key_parts.
  change ("/"%rs ++ k) with (SLASH :: k). rewrite split_members_cons by (by destruct k).
  rewrite bool_decide_true by done. cbn [trim_start_byte]. rewrite decide_True by done.
  destruct k as [|c k]; [done|].
  assert (Hne : c ≠ SLASH).
  { intros ->. rewrite contains_false in Hc. by apply (Hc [] k). }
  destruct (split_members_head true c k) as [r ->]. cbn [trim_start_byte]. by rewrite decide_False.
Qed.

Lemma escape_parts_inj (l1 l2 : list str) : escape_part <$> l1 = escape_part <$> l2 → l1 = l2.
Proof.
  revert l2. induction l1 as [|x l1 IH]; intros [|y l2]; try done.
  cbn. intros [= H1 H2]. apply escape_part_inj in H1 as ->. by rewrite (IH l2).
Qed.

Lemma join_snoc sep (l : list str) x : l ≠ [] → join sep (l ++ [x]) = join sep l ++ sep ++ x.
Proof.
  induction l as [|w l IH]; [done|]. intros _. destruct l as [|w' l]; [done|].
  change ((w :: w' :: l) ++ [x]) with (w :: ((w' :: l) ++ [x])).
  rewrite !join_cons by done. rewrite IH by done. by rewrite <-!app_assoc.
Qed.

Lemma key_parts_inj k1 k2 :
  canonical k1 → canonical k2 → key_parts k1 = key_parts k2 → k1 = k2.
Proof.
  intros (H1 & H1' & _) (H2 & H2' & _).
  destruct (key_split k1 H1 H1') as (a & -> & ->), (key_split k2 H2 H2') as (b & -> & ->).
  intros H%escape_parts_inj. apply (f_equal (join [SLASH])) in H. rewrite !join_split in H.
  by apply split_members_inj in H as ->.
Qed.

Lemma key_parts_slash k1 k2 :
  canonical k1 → canonical k2 → key_parts k2 = key_parts k1 ++ [[]] → k2 = k1 ++ "/"%rs.
Proof.
  intros (H1 & H1' & _) (H2 & H2' & _).
  destruct (key_split k1 H1 H1') as (a & -> & ->), (key_split k2 H2 H2') as (b & -> & ->).
  change [[] : str] with (escape_part <$> [[] : str]). rewrite <-fmap_app.
  intros H%escape_parts_inj. apply (f_equal (join [SLASH])) in H.
  rewrite join_snoc, !join_split in H by apply split_byte_ne.
  symmetry in H. cbn [app] in H. by apply split_members_slash in H as ->.
Qed.

(** ** Slots: a node and a marker *)

Lemma leaf_marker_slash k : k ≠ [] → leaf_marker (k ++ "/"%rs) = DIR_MARKER.
Proof.
  intros Hk. unfold leaf_marker. unfold DIR_INDEX_SUF. rewrite ends_with_app.
  rewrite bool_decide_false; [done|]. unfold PATH_SEP. intros E.
  by apply (app_inj_tail k []) in E as [-> _].
Qed.

(** A marker of its own is only for keys with a slash. *)
Lemma leaf_marker_cases key :
  leaf_marker key = SELF_MARKER ∨ (leaf_marker key = DIR_MARKER ∧ ∃ k, key = k ++ "/"%rs ∧ k ≠ []).
Proof.
  unfold leaf_marker. destruct (bool_decide (key = PATH_SEP)) eqn:E; [by left|].
  destruct (ends_with DIR_INDEX_SUF key) eqn:E'; [right|by left]. split; [done|].
  apply ends_with_true in E' as [k ->]. exists k. split; [done|]. intros ->.
  by apply bool_decide_eq_false in E.
Qed.

Lemma slot_inj k1 k2 :
  canonical k1 → canonical k2 → names k1 = names k2 → leaf_marker k1 = leaf_marker k2 → k1 = k2.
Proof.
  assert (Hwlog : ∀ k1 k2, canonical k1 → canonical k2 → names k1 = names k2 →
    trailing k1 = false → trailing k2 = true → leaf_marker k1 = leaf_marker k2 → k1 = k2).
  { clear. intros k1 k2 H1 H2 Hn Ht1 Ht2 Hm.
    assert (k2 = k1 ++ "/"%rs) as ->.
    { apply key_parts_slash; [done..|]. by rewrite (key_parts_names k2), (key_parts_names k1), Ht1, Ht2, Hn, app_nil_r. }
    assert (k1 ≠ []). { destruct H1 as [H1 _]. by intros ->. }
    rewrite leaf_marker_slash in Hm by done. destruct (leaf_marker_cases k1) as [E|[_ (k & -> & _)]]; [by rewrite E in Hm|].
    destruct H2 as (_ & H2 & _). rewrite contains_false in H2. destruct (H2 k []). by rewrite <-app_assoc. }
  intros H1 H2 Hn Hm. destruct (trailing k1) eqn:E1, (trailing k2) eqn:E2.
  - apply key_parts_inj; [done..|]. by rewrite !key_parts_names, E1, E2, Hn.
  - symmetry. by apply Hwlog.
  - by apply Hwlog.
  - apply key_parts_inj; [done..|]. by rewrite !key_parts_names, E1, E2, Hn.
Qed.

(** Names, with or without a trailing slash, for one node. *)
Lemma trailing_slot k1 k2 :
  canonical k1 → canonical k2 → names k1 = names k2 → trailing k1 = false → trailing k2 = true →
  leaf_marker k2 = DIR_MARKER.
Proof.
  intros H1 H2 Hn Ht1 Ht2. destruct (leaf_marker_cases k2) as [E|[E _]]; [|done].
  destruct (leaf_marker_cases k1) as [E1|[E1 (k & -> & Hk)]].
  - assert (k1 = k2) as -> by (apply slot_inj; congruence). congruence.
  - assert (k2 = (k ++ "/"%rs) ++ "/"%rs) as ->.
    { apply key_parts_slash; [done..|].
      by rewrite (key_parts_names k2), (key_parts_names (k ++ _)), Ht1, Ht2, Hn, app_nil_r. }
    apply leaf_marker_slash. by destruct k.
Qed.

Lemma names_key_name key : starts_with "/"%rs key = true → contains "//"%rs key = false → Forall key_name (names key).
Proof.
  intros H1 H2. destruct (key_split key H1 H2) as (k & _ & Hk).
  assert (Forall key_name (key_parts key)) as H.
  { rewrite Hk, Forall_fmap. apply Forall_forall. intros x _. apply escape_part_name. }
  rewrite key_parts_names in H. by apply Forall_app in H as [H _].
Qed.

(** A key that ends with a slash has a path that does. *)
Lemma split_members_snoc b k : split_members b (k ++ [SLASH]) = split_members b k ++ [SLASH].
Proof.
  revert b k. apply members_ind; [done| |].
  - intros b k IH. rewrite <-app_assoc, !split_members_obj, IH. by destruct b.
  - intros b c k H IH. cbn [app]. rewrite (split_members_cons b c k H).
    rewrite split_members_cons; [by rewrite IH|].
    destruct k as [|d k]; revert H; unfold starts_with; cbn; by repeat case_decide.
Qed.

Lemma split_byte_snoc c s : split_byte c (s ++ [c]) = split_byte c s ++ [[]].
Proof.
  induction s as [|b s IH]; cbn; [by rewrite decide_True|]. destruct (decide (b = c)); [by rewrite IH|].
  rewrite IH. pose proof (split_byte_ne c s). by destruct (split_byte c s).
Qed.

Lemma trailing_slash k : canonical (k ++ "/"%rs) → trailing (k ++ "/"%rs) = true.
Proof.
  intros (H1 & H2 & _). destruct (key_split _ H1 H2) as (a & Ha & Hp). unfold trailing. rewrite Hp.
  apply bool_decide_eq_true. destruct k as [|c k].
  - cbn in Ha. injection Ha as <-. done.
  - injection Ha as -> <-. change ("/"%rs) with [SLASH].
    rewrite split_members_snoc, split_byte_snoc, fmap_app.
    change (escape_part <$> [[]]) with [[] : str]. by rewrite last_snoc.
Qed.

Lemma not_trailing_marker key : canonical key → trailing key = false → leaf_marker key = SELF_MARKER.
Proof.
  intros Hk Ht. destruct (leaf_marker_cases key) as [|[_ (k & -> & _)]]; [done|].
  rewrite trailing_slash in Ht; done.
Qed.

(** ** The directory of a key *)

Lemma starts_with_obj_app c k t : k ≠ [] → starts_with "·"%rs (c :: k ++ t) = starts_with "·"%rs (c :: k).
Proof. destruct k as [|d k]; [done|]. intros _. unfold starts_with. cbn. by repeat case_decide. Qed.

Lemma starts_with_obj_two c d t : d ≠ Byte.xb7 → starts_with "·"%rs (c :: d :: t) = false.
Proof. intros H. unfold starts_with. cbn. repeat case_decide; congruence. Qed.

Lemma split_members_at_slash b a m :
  split_members b (a ++ SLASH :: m) = split_members b a ++ SLASH :: split_members true m.
Proof.
  revert b a. apply members_ind.
  - intros b. cbn [app]. by rewrite split_members_cons by (by destruct m).
  - intros b k IH. rewrite <-app_assoc, !split_members_obj, IH. by destruct b.
  - intros b c k H IH. cbn [app]. rewrite (split_members_cons b c k H). rewrite split_members_cons.
    + by rewrite IH.
    + destruct k as [|d k]; [by apply starts_with_obj_two|]. by rewrite starts_with_obj_app.
Qed.

Lemma split_members_at_obj b a m :
  a ≠ [] → last a ≠ Some SLASH →
  split_members b (a ++ "·"%rs ++ m) = (split_members b a ++ "·"%rs) ++ SLASH :: split_members false m.
Proof.
  revert b a. apply (members_ind (λ b a, a ≠ [] → last a ≠ Some SLASH → split_members b (a ++ "·"%rs ++ m) =
    (split_members b a ++ "·"%rs) ++ SLASH :: split_members false m)); [done|..].
  - intros b k IH _ Hl. rewrite <-(app_assoc "·"%rs), !split_members_obj.
    destruct (decide (k = [])) as [->|Hk].
    + cbn [app]. change (Byte.xc2 :: Byte.xb7 :: m) with ("·"%rs ++ m). rewrite split_members_obj. by destruct b.
    + rewrite IH; [by destruct b|done|]. by rewrite last_app in Hl; destruct k using rev_ind;
        [done|rewrite last_snoc in *].
  - intros b c k H IH _ Hl. change ((c :: k) ++ "·"%rs ++ m) with (c :: (k ++ "·"%rs ++ m)).
    rewrite (split_members_cons b c k H). rewrite split_members_cons.
    + destruct (decide (k = [])) as [->|Hk].
      * cbn in Hl. rewrite bool_decide_false by congruence. change ([] ++ "·"%rs ++ m) with ("·"%rs ++ m). by rewrite split_members_obj.
      * rewrite IH; [done..|]. by destruct k.
    + destruct k as [|d k]; [by apply starts_with_obj_two|]. by rewrite starts_with_obj_app.
Qed.

Lemma split_byte_at c x y : split_byte c (x ++ c :: y) = split_byte c x ++ split_byte c y.
Proof.
  induction x as [|b x IH]; cbn [app split_byte]; [by rewrite decide_True|].
  rewrite IH. destruct (decide (b = c)); [done|].
  pose proof (split_byte_ne c x). by destruct (split_byte c x).
Qed.

Lemma canonical_parent_of k k' x y :
  canonical (SLASH :: k) → split_members true k = x ++ SLASH :: y → split_members true k' = x ++ [SLASH] →
  contains "//"%rs (SLASH :: k') = false → canonical (SLASH :: k').
Proof.
  intros (H1 & H2 & H3) Hk Hk' Hc. split_and!; [done..|].
  destruct (key_split _ H1 H2) as (? & [= <-] & Hp).
  destruct (key_split (SLASH :: k') eq_refl Hc) as (? & [= <-] & Hp').
  rewrite Hk, split_byte_at, fmap_app in Hp. rewrite Hk', split_byte_at, fmap_app in Hp'.
  assert (Ht : trailing (SLASH :: k') = true).
  { unfold trailing. rewrite Hp'. apply bool_decide_eq_true. cbn [split_byte fmap list_fmap]. by rewrite last_snoc. }
  assert (Hn : names (SLASH :: k') = escape_part <$> split_byte SLASH x).
  { pose proof (key_parts_names (SLASH :: k')) as E. rewrite Ht, Hp' in E. by apply app_inj_tail in E as [<- _]. }
  rewrite Hn. pose proof (key_parts_names (SLASH :: k)) as E. rewrite Hp in E.
  destruct (trailing (SLASH :: k)).
  - destruct (exists_last (split_byte_ne SLASH y)) as (l & z & Hy). rewrite Hy, fmap_app in E.
    rewrite app_assoc in E. apply app_inj_tail in E as [E _]. rewrite <-E in H3. by apply Forall_app in H3 as [? _].
  - rewrite app_nil_r in E. rewrite <-E in H3. by apply Forall_app in H3 as [? _].
Qed.

Lemma canonical_abs key : canonical key → abs_path key.
Proof. by intros (H1 & H2 & _). Qed.

(** The directory a key is in is as good a key. *)
Lemma canonical_parent key : canonical key → canonical (split_index key).1.1.
Proof.
  intros Hk. destruct (split_index key) as [[parent m] kind] eqn:E. cbn.
  destruct (split_index_spec _ _ _ _ (canonical_abs key Hk) E) as (-> & Hm & Hkind).
  assert (Hc : contains "//"%rs parent = false).
  { destruct Hk as (_ & H & _). rewrite contains_false in *. intros a b ->. apply (H a (b ++ m)).
    by rewrite <-!app_assoc. }
  assert (H1 : starts_with "/"%rs (parent ++ m) = true) by apply Hk.
  destruct parent as [|c k].
  { destruct kind; [done|]. destruct Hkind as (_ & _ & dir & name & Hp & _). by destruct dir, name. }
  assert (c = SLASH) as -> by (apply starts_with_true in H1 as [r H1]; by injection H1).
  destruct kind.
  - apply ends_with_true in Hkind as [r Hr]. destruct r as [|c' r].
    { injection Hr as ->. split_and!; [done..|]. by decided. }
    injection Hr as <- ->. assert (Hk' : canonical (SLASH :: r ++ SLASH :: m)).
    { replace (SLASH :: r ++ SLASH :: m) with ((SLASH :: r ++ DIR_INDEX_SUF) ++ m); [done|].
      cbn [app]. by rewrite <-app_assoc. }
    eapply canonical_parent_of; [exact Hk'|apply split_members_at_slash|apply split_members_snoc|done].
  - destruct Hkind as (_ & _ & dir & name & Hpar & Hne & Hname & Hdir).
    apply ends_with_true in Hdir as [r ->].
    assert (∃ a, k = a ++ "·"%rs ∧ a ≠ [] ∧ last a ≠ Some SLASH) as (a & -> & Ha & Hl).
    { destruct name as [|n name _] using rev_ind; [done|]. exists (drop 1 ((r ++ "/"%rs) ++ name ++ [n])).
      assert (Hlast : n ≠ SLASH) by (intros ->; apply Hname, elem_of_app; right; by left).
      destruct r as [|c' r].
      - cbn in Hpar. injection Hpar as ->. split_and!; [done|by destruct name|].
        change (last (name ++ [n]) ≠ Some SLASH). rewrite last_snoc. congruence.
      - cbn in Hpar. injection Hpar as _ ->. cbn [app]. cbn [drop]; rewrite ?drop_0. split_and!; [by rewrite <-!app_assoc|by destruct r|].
        rewrite (app_assoc _ name).
        rewrite last_snoc. congruence. }
    assert (Hk' : canonical (SLASH :: a ++ "·"%rs ++ m)).
    { replace (SLASH :: a ++ "·"%rs ++ m) with ((SLASH :: a ++ "·"%rs) ++ m); [done|].
      change ((SLASH :: a ++ "·"%rs) ++ m) with (SLASH :: (a ++ "·"%rs) ++ m). by rewrite <-app_assoc. }
    eapply canonical_parent_of; [exact Hk'|by apply split_members_at_obj| |done].
    + rewrite <-(app_nil_r "·"%rs). by apply split_members_at_obj.
Qed.
