(* ===== verification/FsLeaves.v ===== *)
(** * The leaves of the tree

    The abstract view of the space of [src/src/fs/kvspace.rs]: a value per key.  Where the value
    of a key is ([slot]), what keeps values and what changes them, on the locations of the tree. *)

From S2P Require Import Prelude RustInt RustStr RustText HeadLenPow KPath Coord XValue SigV4 Dsn Store Backend KVSpace FsTree FsWalk FsSpace FsNames.
Local Open Scope Z_scope.
Implicit Types (t : fstree) (key k : str) (l p : list (list Byte.byte)).

Lemma marker_proper key : proper (leaf_marker key).
Proof. destruct (leaf_marker_cases key) as [-> | [-> _]]; by split_and!. Qed.

Lemma marker_not_tmp key : starts_with TMP_PREFIX (leaf_marker key) = false.
Proof. by destruct (leaf_marker_cases key) as [-> | [-> _]]. Qed.

Lemma marker_not_name key : ¬ key_name (leaf_marker key).
Proof. intros (H1 & H2 & _). destruct (leaf_marker_cases key) as [E|[E _]]; congruence. Qed.

Definition file_at t l : option bytes :=
  match t !! l with Some (File d) => Some d | _ => None end.

Section leaves.
Context (root : list (list Byte.byte)) (Hroot : Forall proper root).

Definition loc_of key := root ++ names key.

(** The value of a key: in the marker of its directory, or in its file, which a key that ends
    with a slash does not see. *)
Definition leaf t key : option bytes :=
  match node_at t (loc_of key) with
  | Some Dir => file_at t (loc_of key ++ [leaf_marker key])
  | Some (File d) => if trailing key then None else Some d
  | None => None
  end.

Definition slot t key := if dir_at t (loc_of key) then loc_of key ++ [leaf_marker key] else loc_of key.

(** A key that is a directory whatever it holds: the root, or a container. *)
Definition container key : Prop := canonical key ∧ trailing key = true ∧ leaf_marker key = SELF_MARKER.

(** The trees the space works on: containers are no files. *)
Definition space_tree t : Prop :=
  wf_tree t ∧ ∀ key d, container key → node_at t (loc_of key) ≠ Some (File d).

(** The temporary files of the space. *)
Definition hidden l : Prop := ∃ d n, l = root ++ d ++ [n] ∧ starts_with TMP_PREFIX n = true.

(** ** Paths of keys *)

Lemma loc_proper key : canonical key → Forall proper (loc_of key).
Proof. intros (_ & _ & H). by apply Forall_app. Qed.

Lemma fs_path_loc key : fs_path root key = loc_of key ++ (if trailing key then [[]] else []).
Proof. unfold fs_path, loc_of. by rewrite key_parts_names, app_assoc. Qed.

Lemma drop_empty_rev l : Forall proper l → drop_empty (reverse l) = reverse l.
Proof.
  intros H. destruct l as [|c l _] using rev_ind; [done|]. apply Forall_app in H as [_ H].
  apply Forall_singleton in H as (H & _). rewrite reverse_snoc. by destruct c.
Qed.

Lemma node_path_loc key : canonical key → node_path root key = loc_of key.
Proof.
  intros Hk. unfold node_path. rewrite fs_path_loc. pose proof (loc_proper key Hk) as Hp.
  destruct (trailing key).
  - rewrite reverse_snoc. cbn [drop_empty]. by rewrite drop_empty_rev, reverse_involutive.
  - by rewrite app_nil_r, drop_empty_rev, reverse_involutive.
Qed.

(** ** Distinct slots *)

Lemma names_of_key key : canonical key → Forall key_name (names key).
Proof. intros (H1 & H2 & _). by apply names_key_name. Qed.

Lemma loc_not_slot k1 k2 : canonical k1 → loc_of k1 ≠ loc_of k2 ++ [leaf_marker k2].
Proof.
  intros Hk. unfold loc_of. rewrite <-app_assoc. intros E%app_inv_head.
  apply names_of_key in Hk. rewrite E in Hk. apply Forall_app in Hk as [_ Hk].
  rewrite Forall_singleton in Hk. by apply marker_not_name in Hk.
Qed.

Lemma loc_inj k1 k2 : loc_of k1 = loc_of k2 → names k1 = names k2.
Proof. apply app_inv_head. Qed.

Lemma slot_loc_inj k1 k2 :
  canonical k1 → canonical k2 → loc_of k1 ++ [leaf_marker k1] = loc_of k2 ++ [leaf_marker k2] → k1 = k2.
Proof. intros H1 H2 [Hl Hm]%app_inj_tail. apply slot_inj; [done..|by apply loc_inj|done]. Qed.

Lemma loc_not_hidden key : canonical key → ¬ hidden (loc_of key).
Proof.
  intros Hk (d & n & E & Ht). unfold loc_of in E. apply app_inv_head in E.
  apply names_of_key in Hk. rewrite E in Hk. apply Forall_app in Hk as [_ Hk].
  apply Forall_singleton in Hk as (_ & _ & H). congruence.
Qed.

Lemma slot_not_hidden key : ¬ hidden (loc_of key ++ [leaf_marker key]).
Proof.
  intros (d & n & E & Ht). unfold loc_of in E. rewrite <-app_assoc in E. apply app_inv_head in E.
  apply app_inj_tail in E as [_ <-]. by rewrite marker_not_tmp in Ht.
Qed.

(** ** What the value of a key depends on *)

Lemma leaf_ext t t' key :
  node_at t' (loc_of key) = node_at t (loc_of key) →
  t' !! (loc_of key ++ [leaf_marker key]) = t !! (loc_of key ++ [leaf_marker key]) →
  leaf t' key = leaf t key.
Proof. unfold leaf, file_at. by intros -> ->. Qed.

Lemma leaf_grown t t' key : wf_tree t → grown t t' → leaf t' key = leaf t key.
Proof.
  intros Hwf Hg. unfold leaf. destruct (node_at t (loc_of key)) as [x|] eqn:E.
  - rewrite (grown_node _ _ _ _ Hg E). destruct x; [done|]. unfold file_at.
    destruct (t !! (loc_of key ++ [leaf_marker key])) as [y|] eqn:E'; [by rewrite (proj1 Hg _ _ E')|].
    destruct (t' !! _) as [y|] eqn:E''; [|done]. by rewrite (proj2 Hg _ _ E' E'').
  - destruct (node_at t' (loc_of key)) as [[d|]|] eqn:E'; [|unfold file_at|done].
    + rewrite node_at_ne in E' by (by intros Hn; rewrite Hn in E').
      apply (grown_file t) in E'; [|done]. by rewrite node_at_ne, E' in E by (by intros Hn; rewrite Hn in E).
    + destruct (t' !! _) as [[d|]|] eqn:E''; [|done..]. apply (grown_file t) in E''; [|done].
      rewrite (wf_nothing_below t (loc_of key)) in E''; [done..| |done]. by rewrite E.
Qed.

Lemma space_grown t t' : space_tree t → grown t t' → wf_tree t' → space_tree t'.
Proof.
  intros [Hwf Hc] Hg Hwf'. split; [done|]. intros key d Hk E. apply (Hc key d Hk).
  assert (loc_of key ≠ []) as Hne by (intros Hn; by rewrite Hn in E).
  rewrite node_at_ne in * by done. by eapply grown_file.
Qed.

(** [t'] is [t] with [v] at [L], but for the temporary files. *)
Definition put_at l (v : bytes) t t' : Prop := ∀ p, ¬ hidden p → t' !! p = <[l := File v]> t !! p.

Lemma node_at_put L v t t' key :
  canonical key → L ≠ loc_of key → put_at L v t t' → node_at t' (loc_of key) = node_at t (loc_of key).
Proof.
  intros Hk Hne Hp. destruct (decide (loc_of key = [])) as [->|Hn]; [done|].
  by rewrite !node_at_ne, Hp, lookup_insert_ne by (done || by apply loc_not_hidden).
Qed.

Lemma marker_put L v t t' key :
  L ≠ loc_of key ++ [leaf_marker key] → put_at L v t t' →
  t' !! (loc_of key ++ [leaf_marker key]) = t !! (loc_of key ++ [leaf_marker key]).
Proof. intros Hne Hp. by rewrite Hp, lookup_insert_ne by (done || apply slot_not_hidden). Qed.

(** Two keys of one node: one of them sees only a directory. *)
Lemma same_node k1 k2 :
  canonical k1 → canonical k2 → loc_of k1 = loc_of k2 → trailing k1 = false → k1 ≠ k2 → trailing k2 = true.
Proof.
  intros H1 H2 Hl Ht Hne. destruct (trailing k2) eqn:E; [done|]. destruct Hne.
  apply slot_inj; [done..|by apply loc_inj|]. by rewrite !not_trailing_marker.
Qed.

(** ** Putting a value in the slot of a key *)

Lemma leaf_put t t' key v k :
  canonical key → canonical k → (dir_at t (loc_of key) = true ∨ trailing key = false) →
  put_at (slot t key) v t t' → leaf t' k = if decide (k = key) then Some v else leaf t k.
Proof.
  intros Hkey Hk Hcase Hp. unfold slot in Hp. destruct (dir_at t (loc_of key)) eqn:Ed.
  - assert (Hn : node_at t' (loc_of k) = node_at t (loc_of k)).
    { eapply node_at_put; [done| |done]. intros E. symmetry in E. by apply loc_not_slot in E. }
    case_decide as E.
    + subst k. unfold leaf, file_at. apply dir_at_true in Ed.
      by rewrite Hn, Ed, Hp, lookup_insert_eq by apply slot_not_hidden.
    + apply leaf_ext; [done|]. eapply marker_put; [|done]. intros E'.
      apply slot_loc_inj in E'; congruence.
  - destruct Hcase as [|Ht]; [done|].
    assert (Hne : loc_of key ≠ []) by (intros E; by rewrite E in Ed).
    assert (Hv : node_at t' (loc_of key) = Some (File v)).
    { by rewrite node_at_ne, Hp, lookup_insert_eq by (done || by apply loc_not_hidden). }
    case_decide as E; [subst k; unfold leaf; by rewrite Hv, Ht|].
    destruct (decide (loc_of key = loc_of k)) as [El|El].
    + assert (trailing k = true) as Hk' by (by apply (same_node key k); try congruence).
      unfold leaf. rewrite <-El, Hv, Hk'. unfold dir_at in Ed. apply bool_decide_eq_false in Ed.
      by destruct (node_at t (loc_of key)) as [[]|].
    + apply leaf_ext; [by eapply node_at_put|]. eapply marker_put; [|done]. by apply loc_not_slot.
Qed.

Lemma space_put t t' key v :
  canonical key → space_tree t → (dir_at t (loc_of key) = true ∨ trailing key = false) →
  put_at (slot t key) v t t' → wf_tree t' → space_tree t'.
Proof.
  intros Hkey [Hwf Hc] Hcase Hp Hwf'. split; [done|]. intros k d Hk. pose proof Hk as (Hk1 & Hk2 & Hk3).
  unfold slot in Hp. destruct (dir_at t (loc_of key)) eqn:Ed.
  - rewrite (node_at_put (loc_of key ++ [leaf_marker key]) v t t' k Hk1); [by apply Hc| |done].
    intros E. symmetry in E. by apply loc_not_slot in E.
  - destruct Hcase as [|Ht]; [done|]. destruct (decide (loc_of key = loc_of k)) as [El|El].
    + apply loc_inj in El. rewrite (trailing_slot key k) in Hk3; done.
    + rewrite (node_at_put _ _ _ _ _ Hk1 El Hp). by apply Hc.
Qed.

(** ** Removing the slot of a key *)

Lemma leaf_remove t key k d :
  canonical key → canonical k → wf_tree t → t !! slot t key = Some (File d) →
  (dir_at t (loc_of key) = true ∨ trailing key = false) →
  leaf (delete (slot t key) t) k = if decide (k = key) then None else leaf t k.
Proof.
  intros Hkey Hk Hwf Hd Hcase. unfold slot in *. destruct (dir_at t (loc_of key)) eqn:Ed.
  - assert (Hn : ∀ k, canonical k → node_at (delete (loc_of key ++ [leaf_marker key]) t) (loc_of k) = node_at t (loc_of k)).
    { clear k Hk. intros k Hk. destruct (decide (loc_of k = [])) as [->|]; [done|].
      rewrite !node_at_ne by done. apply lookup_delete_ne. intros E. symmetry in E. by apply loc_not_slot in E. }
    case_decide as E.
    + subst k. unfold leaf, file_at. apply dir_at_true in Ed. by rewrite Hn, Ed, lookup_delete_eq.
    + apply leaf_ext; [by apply Hn|]. apply lookup_delete_ne. intros E'. apply slot_loc_inj in E'; congruence.
  - destruct Hcase as [|Ht]; [done|].
    assert (Hne : loc_of key ≠ []) by (intros E; by rewrite E in Ed).
    assert (Hn : node_at (delete (loc_of key) t) (loc_of key) = None) by (by rewrite node_at_ne, lookup_delete_eq).
    case_decide as E; [subst k; unfold leaf; by rewrite Hn|].
    destruct (decide (loc_of key = loc_of k)) as [El|El].
    + assert (trailing k = true) as Hk' by (by apply (same_node key k); try congruence).
      unfold leaf. rewrite <-El, Hn, node_at_ne, Hd, Hk'; done.
    + apply leaf_ext; [|by apply lookup_delete_ne, loc_not_slot].
      destruct (decide (loc_of k = [])) as [->|]; [done|]. rewrite !node_at_ne by done.
      by apply lookup_delete_ne.
Qed.

Lemma space_remove t l : space_tree t → wf_tree (delete l t) → space_tree (delete l t).
Proof.
  intros [Hwf Hc] Hwf'. split; [done|]. intros k d Hk E. apply (Hc k d Hk).
  assert (loc_of k ≠ []) as Hne by (intros Hn; by rewrite Hn in E).
  rewrite node_at_ne in * by done. by apply lookup_delete_Some in E as [_ E].
Qed.

(** ** A file becomes a directory *)

(** The file at a node, moved to the marker of the directory that takes its place. *)
Definition as_dir l (d : bytes) t : fstree := <[l ++ [SELF_MARKER] := File d]> (<[l := Dir]> t).

Lemma self_not_loc key k : canonical k → loc_of k ≠ loc_of key ++ [SELF_MARKER].
Proof.
  intros Hk. unfold loc_of. rewrite <-app_assoc. intros E%app_inv_head.
  apply names_of_key in Hk. rewrite E in Hk. apply Forall_app in Hk as [_ Hk].
  rewrite Forall_singleton in Hk. by destruct Hk.
Qed.

Lemma as_dir_other key d t l :
  l ≠ loc_of key → l ≠ loc_of key ++ [SELF_MARKER] → as_dir (loc_of key) d t !! l = t !! l.
Proof. intros H1 H2. unfold as_dir. by rewrite !lookup_insert_ne. Qed.

Lemma leaf_as_dir t key d k :
  canonical key → canonical k → space_tree t → t !! loc_of key = Some (File d) → loc_of key ≠ [] →
  leaf (as_dir (loc_of key) d t) k = leaf t k.
Proof.
  intros Hkey Hk [Hwf Hc] Hd Hne. destruct (decide (loc_of key = loc_of k)) as [El|El].
  - assert (Hn : node_at (as_dir (loc_of key) d t) (loc_of key) = Some Dir).
    { rewrite node_at_ne by done. unfold as_dir. rewrite lookup_insert_ne by (by apply app_not_self).
      apply lookup_insert_eq. }
    unfold leaf. rewrite <-El, Hn, node_at_ne, Hd by done. destruct (trailing k) eqn:Ht.
    + assert (leaf_marker k ≠ SELF_MARKER) as Hm.
      { intros Hm. apply (Hc k d); [done|]. by rewrite <-El, node_at_ne. }
      unfold file_at. rewrite as_dir_other; [|by apply app_not_self|by intros [_ ?]%app_inj_tail].
      by rewrite (wf_nothing_below t (loc_of key)) by (rewrite ?node_at_ne, ?Hd; done).
    + rewrite not_trailing_marker by done. unfold file_at, as_dir. by rewrite lookup_insert_eq.
  - apply leaf_ext.
    + destruct (decide (loc_of k = [])) as [->|]; [done|]. rewrite !node_at_ne by done.
      apply as_dir_other; [congruence|by apply self_not_loc].
    + apply as_dir_other; [intros E; symmetry in E; by apply loc_not_slot in E|].
      intros [E _]%app_inj_tail. congruence.
Qed.

Lemma space_as_dir t key d :
  canonical key → space_tree t → loc_of key ≠ [] → wf_tree (as_dir (loc_of key) d t) →
  space_tree (as_dir (loc_of key) d t).
Proof.
  intros Hkey [Hwf Hc] Hne Hwf'. split; [done|]. intros k d' Hk E. pose proof Hk as (Hk1 & _).
  destruct (decide (loc_of k = [])) as [E0|Hn]; [by rewrite E0 in E|]. rewrite node_at_ne in E by done.
  destruct (decide (loc_of k = loc_of key)) as [El|El].
  - unfold as_dir in E. rewrite lookup_insert_ne, El, lookup_insert_eq in E; [done|].
    symmetry. by apply self_not_loc.
  - rewrite as_dir_other in E; [|done|by apply self_not_loc]. apply (Hc k d' Hk). by rewrite node_at_ne.
Qed.
End leaves.
