(* ===== verification/FsLaws.v ===== *)
(** * What the leaf operations of the directory space do

    [read_leaf], [write_leaf], [remove_leaf], [ensure_dir] and [write_atomic] of
    [src/src/fs/kvspace.rs] against the view of [FsLeaves]: a value per key. *)

From S2P Require Import Prelude RustInt RustStr RustText HeadLenPow KPath Coord XValue SigV4 Dsn Store Backend KVSpace FsTree FsWalk FsSpace FsWf FsNames FsLeaves.
Local Open Scope Z_scope.
Implicit Types (t : fstree) (key k : str) (l p d : list (list Byte.byte)) (c : str).

(** ** Paths that name a file of a directory *)

(** [Path::join] of a directory that may end with a slash. *)
Definition in_dir t p d c : Prop :=
  p = d ++ [c] ∨ (p = d ++ [[]] ++ [c] ∧ node_at t d = Some Dir).

Lemma normal_names p : Forall proper p → normal p = p.
Proof.
  intros H. apply filter_all. eapply Forall_impl; [done|]. by intros c (? & ? & _).
Qed.

Lemma in_dir_parent t p d c : Forall proper d → proper c → in_dir t p d c → parent_path p = Some d.
Proof.
  intros Hd Hc H. unfold parent_path. assert (normal p = d ++ [c]) as ->.
  { assert (normal (d ++ [c]) = d ++ [c]) by (apply normal_names, Forall_app; auto).
    destruct H as [-> | [-> _]]; [done|]. unfold normal in *. rewrite !filter_app in *. done. }
  transitivity (Some (take (length (d ++ [c]) - 1) (d ++ [c]))); [by destruct d|].
  rewrite length_app. cbn [length]. by rewrite Nat.add_sub, take_app_length.
Qed.

Lemma tmp_proper pid seq : proper (tmp_name pid seq).
Proof. by split_and!. Qed.

Section tree.
Context (t : fstree) (Hwf : wf_tree t) (d : list (list Byte.byte)) (Hd : Forall proper d).

Lemma lookup_slash q : node_at t d = Some Dir → lookup_path t (d ++ [[]] ++ q) = lookup_path t (d ++ q).
Proof.
  intros Hn. unfold lookup_path. rewrite !walk_app. fold (lookup_path t d).
  rewrite (lookup_names t Hwf d) by (by rewrite ?Hn). cbn [mbind res_bind]. rewrite walk_app.
  cbn [walk]. unfold step. apply dir_at_true in Hn as ->. by rewrite decide_True by auto.
Qed.

Lemma entry_slash c : node_at t d = Some Dir → entry_at t (d ++ [[]] ++ [c]) = entry_at t (d ++ [c]).
Proof.
  intros Hn. unfold entry_at. rewrite app_assoc, !last_snoc, !length_app. cbn [length].
  rewrite !Nat.add_sub, take_app_length. replace (length d + 1)%nat with (length (d ++ [[]])).
  - rewrite take_app_length. pose proof (lookup_slash [] Hn) as H. rewrite !app_nil_r in H. by rewrite H.
  - by rewrite length_app.
Qed.

Lemma in_dir_lookup p c : in_dir t p d c → lookup_path t p = lookup_path t (d ++ [c]).
Proof. intros [-> | [-> Hn]]; [done|by apply lookup_slash]. Qed.

Lemma in_dir_entry p c : in_dir t p d c → entry_at t p = entry_at t (d ++ [c]).
Proof. intros [-> | [-> Hn]]; [done|by apply entry_slash]. Qed.

Lemma in_dir_read p c : in_dir t p d c → read_file t p = read_file t (d ++ [c]).
Proof. intros H. unfold read_file. by rewrite (in_dir_lookup _ _ H). Qed.

Lemma in_dir_remove p c : in_dir t p d c → remove_file t p = remove_file t (d ++ [c]).
Proof. intros H. unfold remove_file. by rewrite (in_dir_entry _ _ H). Qed.
End tree.

(** ** Replacing a whole file *)

(** Same length, same first bytes and same attributes: only the body is different. *)
Lemma overwrite_exact val h old :
  HeadLenPow.from_wire val = Some h →
  length old = length val → take (Z.to_nat PREFIX) old = take (Z.to_nat PREFIX) val →
  drop (Z.to_nat PREFIX + length (h_body h)) old = drop (Z.to_nat PREFIX + length (h_body h)) val →
  write_at (Z.to_nat PREFIX) (h_body h) old = val.
Proof.
  intros (Hwf & extra & ->)%from_wire_spec Hlen Htake Hdrop. unfold encode_head, PREFIX in *.
  change (Z.to_nat 16) with 16%nat in *. set (hd := header _ _ _) in *.
  assert (Hhd : length hd = 16%nat) by apply length_header.
  rewrite <-!app_assoc in *. set (rest := h_attrs h ++ extra) in *. rewrite !length_app in Hlen.
  assert (Ht : take 16 old = hd) by (by rewrite Htake, take_app_le, <-Hhd, firstn_all by lia).
  assert (Hr : drop (16 + length (h_body h)) old = rest).
  { rewrite Hdrop, app_assoc. rewrite <-Hhd, <-length_app. apply drop_app_length. }
  unfold write_at. destruct (h_body h) as [|b body] eqn:Eb.
  - cbn [length] in Hr. rewrite Nat.add_0_r in Hr. by rewrite <-(take_drop 16 old), Ht, Hr.
  - rewrite Ht, Hr. by replace (16 - length old)%nat with 0%nat by lia.
Qed.

Lemma overwrite_spec t p d c val o :
  wf_tree t → Forall proper d → proper c → in_dir t p d c → overwrite_body_in_place t p val = Ok o →
  match o with
  | Some t' => (∃ old, t !! (d ++ [c]) = Some (File old)) ∧ t' = <[d ++ [c] := File val]> t
  | None => True
  end.
Proof.
  intros Hwf Hd Hc Hp. unfold overwrite_body_in_place.
  destruct (HeadLenPow.from_wire val) as [h|] eqn:Eh; [|by intros [= <-]].
  rewrite (in_dir_read t Hwf d Hd p c Hp), (in_dir_lookup t Hwf d Hd p c Hp).
  destruct (read_file t (d ++ [c])) as [old|e|e] eqn:Er; [|by destruct e; intros [= <-]..].
  assert (Hdc : Forall proper (d ++ [c])) by (apply Forall_app; auto).
  apply (read_file_names t Hwf) in Er; [|done].
  rewrite (lookup_names t Hwf) by (by rewrite ?Er). cbn [mbind res_bind].
  destruct (negb (_ =? _)%nat) eqn:E1; [by intros [= <-]|].
  destruct (negb _ || negb _) eqn:E2; [by intros [= <-]|]. intros [= <-].
  apply orb_false_iff in E2 as [E2 E3]. apply negb_false_iff in E1, E2, E3.
  apply bool_decide_eq_true in E2, E3. apply Nat.eqb_eq in E1. rewrite node_at_app in Er.
  split; [by eexists|]. by rewrite (overwrite_exact val h old).
Qed.

(** A successful [write_atomic] leaves exactly [val] in the file, and but for a temporary file of
    its directory nothing else changes. *)
Lemma write_atomic_spec pid s s' p d c val :
  wf_tree (tree s) → Forall proper d → proper c → starts_with TMP_PREFIX c = false →
  in_dir (tree s) p d c → write_atomic pid p val s = (Ok tt, s') →
  (∀ l, (∀ n, l = d ++ [n] → starts_with TMP_PREFIX n = false) →
        tree s' !! l = <[d ++ [c] := File val]> (tree s) !! l) ∧
  node_at (tree s) d = Some Dir ∧ tree s !! (d ++ [c]) ≠ Some Dir.
Proof.
  intros Hwf Hd Hc Htmp Hp. unfold write_atomic.
  destruct (overwrite_body_in_place (tree s) p val) as [[t'|]|e|e] eqn:Eo; try done.
  - apply (overwrite_spec _ _ d c) in Eo as [(old & Hold) ->]; [|done..]. intros [= <-]. cbn [tree].
    split_and!; [done| |congruence]. apply (wf_prefix _ d [c] Hwf); [|done]. by rewrite node_at_app, Hold.
  - rewrite (in_dir_parent _ _ _ _ Hd Hc Hp). change (default [DOT] (Some d)) with d.
    set (n := tmp_name pid (tmp_seq s)). pose proof (tmp_proper pid (tmp_seq s)) as Hn. fold n in Hn.
    assert (Hn' : starts_with TMP_PREFIX n = true) by apply starts_with_app.
    destruct (write_file (tree s) (d ++ [n]) val) as [t1| |] eqn:Ew; try done.
    apply (write_file_names _ Hwf) in Ew as (Hdir & Hnd & ->); [|done..].
    set (t1 := <[d ++ [n] := File val]> (tree s)).
    assert (Hwf1 : wf_tree t1) by (by apply wf_insert_file).
    assert (Hk : ∀ l, l ≠ d ++ [n] → node_at t1 l = node_at (tree s) l).
    { intros l Hl. destruct l as [|x l]; [done|]. cbn. by apply lookup_insert_ne. }
    assert (Hdir1 : node_at t1 d = Some Dir) by (rewrite Hk; [done|]; intros E; by eapply app_not_self).
    assert (Hcn : d ++ [c] ≠ d ++ [n]) by (intros [_ E]%app_inj_tail; congruence).
    destruct (rename_file t1 (d ++ [n]) p) as [t2| |] eqn:Er; try done. intros [= <-]. cbn [tree].
    assert (Hp1 : in_dir t1 p d c) by (destruct Hp as [-> | [-> _]]; [by left|by right]).
    unfold rename_file in Er. rewrite (in_dir_entry t1 Hwf1 d Hd p c Hp1) in Er.
    assert (Hdn : Forall proper (d ++ [n])) by (apply Forall_app; auto).
    assert (E1 : read_file t1 (d ++ [n]) = Ok val).
    { apply (read_file_names t1 Hwf1); [done|]. rewrite node_at_app. apply lookup_insert_eq. }
    assert (E2 : entry_at t1 (d ++ [n]) = Ok (d ++ [n])) by (by apply entry_at_names).
    assert (E3 : entry_at t1 (d ++ [c]) = Ok (d ++ [c])) by (by apply entry_at_names).
    rewrite E1, E2, E3 in Er. cbn [mbind res_bind] in Er. rewrite Hk, node_at_app in Er by done.
    assert (Hnc : tree s !! (d ++ [c]) ≠ Some Dir) by (intros E; by rewrite E in Er).
    split_and!; [|done..]. intros l Hl.
    assert (t2 = <[d ++ [c] := File val]> (delete (d ++ [n]) t1)) as ->
      by (by destruct (tree s !! (d ++ [c])) as [[]|]; simplify_eq).
    assert (Hln : l ≠ d ++ [n]) by (intros ->; rewrite Hl in Hn'; done).
    destruct (decide (l = d ++ [c])) as [->|Hlc]; [by rewrite !lookup_insert_eq|].
    unfold t1. by rewrite lookup_insert_ne, lookup_delete_ne, !lookup_insert_ne.
Qed.

Section laws.
Context (root : list (list Byte.byte)) (Hroot : Forall proper root) (pid : Z).
Abbreviation loc_of := (loc_of root).
Abbreviation leaf := (leaf root).
Abbreviation slot := (slot root).
Abbreviation space_tree := (space_tree root).

#[local] Hint Resolve loc_proper marker_proper : core.

Lemma key_is_dir t key : wf_tree t → canonical key → path_is_dir t (fs_path root key) = dir_at t (loc_of key).
Proof.
  intros Hwf Hk. rewrite fs_path_loc. destruct (trailing key).
  - apply path_is_dir_trailing; auto.
  - rewrite app_nil_r. apply path_is_dir_names; auto.
Qed.

Lemma key_in_dir t key :
  node_at t (loc_of key) = Some Dir → in_dir t (fs_path root key ++ [leaf_marker key]) (loc_of key) (leaf_marker key).
Proof.
  intros H. rewrite fs_path_loc. destruct (trailing key); [right|left; by rewrite app_nil_r].
  by rewrite <-app_assoc.
Qed.

(** ** Reading *)

Lemma ok_of_read t p :
  wf_tree t → Forall proper p →
  ok_of (read_file t p) = match node_at t p with Some (File d) => Some d | _ => None end.
Proof.
  intros Hwf Hp. destruct (read_file t p) as [d|e|e] eqn:Er.
  - apply (read_file_names t Hwf) in Er; [|done]. by rewrite Er.
  - destruct (node_at t p) as [[d|]|] eqn:En; [|done..].
    apply (read_file_names t Hwf) in En; [congruence|done].
  - destruct (node_at t p) as [[d|]|] eqn:En; [|done..].
    apply (read_file_names t Hwf) in En; [congruence|done].
Qed.

Lemma read_leaf_spec t key : wf_tree t → canonical key → read_leaf root t key = leaf t key.
Proof.
  intros Hwf Hk. unfold read_leaf, leaf. pose proof Hk as (_ & -> & _). rewrite key_is_dir by done.
  destruct (dir_at t (loc_of key)) eqn:Ed.
  - apply dir_at_true in Ed. rewrite (in_dir_read t Hwf (loc_of key)) with (c := leaf_marker key); auto using key_in_dir.
    rewrite Ed, ok_of_read, node_at_app; [done..|]. apply Forall_app; auto.
  - rewrite fs_path_loc. unfold dir_at in Ed. apply bool_decide_eq_false in Ed. destruct (trailing key).
    + transitivity (None : option bytes); [|by destruct (node_at t (loc_of key)) as [[]|]].
      destruct (read_file _ _) as [x|e|e] eqn:Er; [|done..]. by apply read_file_trailing in Er; auto.
    + rewrite app_nil_r, ok_of_read by auto. by destruct (node_at t (loc_of key)) as [[]|].
Qed.

(** ** Directories *)

Lemma not_dir_split t key : dir_at t (loc_of key) = false → ∃ d c, loc_of key = d ++ [c].
Proof.
  intros H. destruct (loc_of key) as [|c d _] using rev_ind; [done|]. eauto.
Qed.

Lemma make_dirs_new t l d c :
  wf_tree t → Forall proper d → proper c → node_at t (l ++ d) = Some Dir → t !! (l ++ d ++ [c]) = None →
  make_dirs t l (d ++ [c]) = (<[l ++ d ++ [c] := Dir]> t, true).
Proof.
  intros Hwf Hd Hc. revert l. induction d as [|x d IH]; intros l Hl Hn.
  - rewrite app_nil_r in Hl. cbn [app make_dirs] in *. rewrite step_proper by done.
    apply dir_at_true in Hl as ->. by rewrite Hn.
  - apply Forall_cons in Hd as [Hx Hd]. cbn [app make_dirs]. rewrite step_proper by done.
    assert (Hl0 : node_at t l = Some Dir) by (apply (wf_prefix t l (x :: d)); [done|by rewrite Hl|done]).
    apply dir_at_true in Hl0 as ->.
    rewrite (app_assoc l [x] d : l ++ x :: d = (l ++ [x]) ++ d) in Hl.
    rewrite (app_assoc l [x] (d ++ [c]) : l ++ x :: d ++ [c] = (l ++ [x]) ++ d ++ [c]) in *.
    assert (Hx' : node_at t (l ++ [x]) = Some Dir).
    { destruct d as [|y d]; [by rewrite app_nil_r in Hl|]. apply (wf_prefix t (l ++ [x]) (y :: d)); [done|by rewrite Hl|done]. }
    pose proof (proj2 (dir_at_true _ _) Hx') as Hb. rewrite node_at_app in Hx'. rewrite Hx', Hb.
    apply IH; [done..|]. by rewrite <-app_assoc.
Qed.

(** The steps that turn a file into a directory with the file's content in its marker. *)
Lemma file_to_dir t p c x :
  wf_tree t → Forall proper p → proper c → t !! (p ++ [c]) = Some (File x) →
  let t1 := (create_dir_all (or_same (remove_file t (p ++ [c])) t) (p ++ [c])).1 in
  or_same (write_file t1 ((p ++ [c]) ++ [SELF_MARKER]) x) t1 = as_dir (p ++ [c]) x t.
Proof.
  intros Hwf Hp Hc Hx.
  assert (Hdir : node_at t p = Some Dir).
  { apply (wf_prefix t p [c] Hwf); [|done]. by rewrite node_at_app, Hx. }
  assert (Hrm : remove_file t (p ++ [c]) = Ok (delete (p ++ [c]) t)) by (apply (remove_file_names t Hwf); eauto).
  rewrite Hrm. cbn [or_same]. set (t0 := delete (p ++ [c]) t).
  assert (Hwf0 : wf_tree t0) by (by eapply wf_delete_file).
  assert (Hdir0 : node_at t0 p = Some Dir).
  { destruct (decide (p = [])) as [->|Hne]; [done|]. rewrite node_at_ne in * by done.
    unfold t0. rewrite lookup_delete_ne; [done|by apply app_not_self]. }
  assert (Hmk : create_dir_all t0 (p ++ [c]) = (<[p ++ [c] := Dir]> t0, true)).
  { apply (make_dirs_new t0 []); [done..|]. apply lookup_delete_eq. }
  rewrite Hmk. cbn [fst]. set (t1 := <[p ++ [c] := Dir]> t0).
  assert (Hwf1 : wf_tree t1) by (apply wf_insert_dir; [done..|apply lookup_delete_eq]).
  assert (Hw : write_file t1 ((p ++ [c]) ++ [SELF_MARKER]) x = Ok (<[(p ++ [c]) ++ [SELF_MARKER] := File x]> t1)).
  { apply (write_file_names t1 Hwf1); [apply Forall_app; auto|by split_and!|]. split_and!; [| |done].
    - rewrite node_at_app. apply lookup_insert_eq.
    - unfold t1, t0. rewrite lookup_insert_ne, lookup_delete_ne by (intros E'; symmetry in E'; by apply app_not_self in E').
      rewrite (wf_nothing_below t (p ++ [c])); [done..| |done]. by rewrite node_at_app, Hx. }
  rewrite Hw. cbn [or_same]. unfold as_dir, t1, t0. by rewrite insert_delete_eq.
Qed.

(** A location as its directory and its name. *)
Lemma loc_split t key :
  canonical key → dir_at t (loc_of key) = false →
  ∃ d c, loc_of key = d ++ [c] ∧ Forall proper d ∧ proper c.
Proof.
  intros Hk Hn. destruct (not_dir_split t key Hn) as (d & c & Hdc). exists d, c. split; [done|].
  pose proof (loc_proper root Hroot key Hk) as H. rewrite Hdc in H. apply Forall_app in H as [H1 H2].
  by rewrite Forall_singleton in H2.
Qed.

(** [ensure_dir]: a file at the node becomes a directory that holds it; otherwise the directories
    on the way are made, as far as nothing is in the way. *)
Lemma ensure_dir_eq t key :
  wf_tree t → canonical key →
  ensure_dir_tree root t key =
  match node_at t (loc_of key) with
  | Some (File x) => as_dir (loc_of key) x t
  | _ => (make_dirs t [] (loc_of key)).1
  end.
Proof.
  intros Hwf Hk. unfold ensure_dir_tree. rewrite node_path_loc by done.
  unfold path_is_file. rewrite (stat_names t Hwf) by auto.
  destruct (node_at t (loc_of key)) as [[x|]|] eqn:E; [|done..].
  destruct (loc_split t key Hk) as (p & c & Hpc & Hp & Hc). { unfold dir_at. by rewrite E. }
  assert (Hne : loc_of key ≠ []) by (rewrite Hpc; by destruct p).
  assert (Hx : t !! loc_of key = Some (File x)) by (by rewrite <-node_at_ne).
  assert (Hread : read_file t (loc_of key) = Ok x) by (apply (read_file_names t Hwf); auto).
  rewrite Hread. cbn [ok_of]. rewrite Hpc in *. by apply file_to_dir.
Qed.

Lemma ensure_dir_spec t key :
  canonical key → space_tree t →
  space_tree (ensure_dir_tree root t key) ∧
  ∀ k, canonical k → leaf (ensure_dir_tree root t key) k = leaf t k.
Proof.
  intros Hk Hs. pose proof Hs as [Hwf _]. pose proof (wf_ensure_dir_tree root t key Hwf) as Hwf'.
  rewrite ensure_dir_eq in * by done. destruct (node_at t (loc_of key)) as [[x|]|] eqn:E.
  2,3: destruct (make_dirs_wf t [] (loc_of key) Hwf eq_refl) as [Hw Hg];
    split; [by eapply space_grown|intros k _; by apply leaf_grown].
  assert (Hne : loc_of key ≠ []) by (intros En; by rewrite En in E).
  assert (Hx : t !! loc_of key = Some (File x)) by (by rewrite <-node_at_ne).
  split; [by apply space_as_dir|]. intros k Hk'. by apply leaf_as_dir.
Qed.

(** ** Writing *)

Lemma names_not_nil key : canonical key → trailing key = false → names key ≠ [].
Proof.
  intros (H1 & H2 & _) Ht Hn. destruct (key_split key H1 H2) as (k & _ & Hk).
  pose proof (key_parts_names key) as E. rewrite Hn, Ht, Hk in E. apply (f_equal length) in E.
  rewrite length_fmap in E. pose proof (split_byte_ne SLASH (split_members true k)).
  by destruct (split_byte SLASH (split_members true k)).
Qed.

(** A file that [write_atomic] can put in place of the value of a key. *)
Lemma write_slot_spec s s' key p v d c :
  space_tree (tree s) → canonical key → (dir_at (tree s) (loc_of key) = true ∨ trailing key = false) →
  slot (tree s) key = d ++ [c] → root `prefix_of` d → in_dir (tree s) p d c →
  write_or_panic pid key p v s = (Ok tt, s') →
  space_tree (tree s') ∧
  ∀ k, canonical k → leaf (tree s') k = if decide (k = key) then Some v else leaf (tree s) k.
Proof.
  intros Hs Hk Hcase Hslot [q ->] Hp Hw. pose proof Hs as [Hwf _].
  pose proof (wf_write_or_panic pid key p v s Hwf) as Hwf'. rewrite Hw in Hwf'. unfold wf_state in Hwf'. cbn [snd] in Hwf'.
  assert (Hok : write_atomic pid p v s = (Ok tt, s')).
  { unfold write_or_panic in Hw. by destruct (write_atomic pid p v s) as [[[]| |] ?]; simplify_eq. }
  assert (Hproper : Forall proper (slot (tree s) key)).
  { unfold FsLeaves.slot. destruct (dir_at _ _); [apply Forall_app|]; auto. }
  rewrite Hslot in Hproper. apply Forall_app in Hproper as [Hd Hc]. rewrite Forall_singleton in Hc.
  assert (Htmp : starts_with TMP_PREFIX c = false).
  { unfold FsLeaves.slot in Hslot. destruct (dir_at _ _).
    - apply app_inj_tail in Hslot as [_ <-]. apply marker_not_tmp.
    - destruct Hcase as [|Ht]; [done|]. destruct (starts_with TMP_PREFIX c) eqn:E; [|done].
      destruct (loc_not_hidden root key Hk). exists q, c. by rewrite Hslot, <-app_assoc. }
  apply (write_atomic_spec pid s s' p (root ++ q) c v Hwf Hd Hc Htmp Hp) in Hok as (Hok & _).
  assert (Hput : put_at root (slot (tree s) key) v (tree s) (tree s')).
  { intros l Hl. rewrite Hslot. apply Hok. intros n ->. destruct (starts_with TMP_PREFIX n) eqn:E; [|done].
    destruct Hl. exists q, n. by rewrite <-app_assoc. }
  split; [by eapply space_put|]. intros k Hk'. by eapply leaf_put.
Qed.

(** A file is not made at a path that ends with a slash. *)
Lemma write_atomic_slash s s' l v :
  wf_tree (tree s) → Forall proper l → write_atomic pid (l ++ [[]]) v s ≠ (Ok tt, s').
Proof.
  intros Hwf Hl. unfold write_atomic.
  destruct (overwrite_body_in_place _ _ _) as [[t|]|e|e] eqn:Eo; [|..|done|done].
  - unfold overwrite_body_in_place in Eo. destruct (HeadLenPow.from_wire v); [|done].
    destruct (read_file _ _) as [old|[]|[]] eqn:Er; try done. by apply read_file_trailing in Er.
  - destruct (write_file _ _ _) as [t| |]; [|done..].
    destruct (rename_file _ _ _) as [t'| |] eqn:Er; [|done..]. unfold rename_file in Er.
    destruct (read_file t _); [|done..]. cbn [mbind res_bind] in Er.
    destruct (entry_at t (_ ++ [tmp_name _ _])); [|done..]. cbn [mbind res_bind] in Er.
    destruct (entry_at t (l ++ [[]])) eqn:Ee; [|done..]. by apply entry_at_slash in Ee.
Qed.

Lemma ends_with_trailing key :
  canonical key → ends_with DIR_INDEX_SUF key = true → trailing key = true.
Proof. intros Hk [r ->]%ends_with_true. by apply trailing_slash. Qed.

Lemma write_leaf_spec s s' key v :
  space_tree (tree s) → canonical key → write_leaf root pid key v s = (Ok tt, s') →
  space_tree (tree s') ∧
  ∀ k, canonical k → leaf (tree s') k = if decide (k = key) then Some v else leaf (tree s) k.
Proof.
  intros Hs Hk. unfold write_leaf.
  assert (Hpre : ∃ s1, (if negb (bool_decide (key = PATH_SEP)) && ends_with DIR_INDEX_SUF key then ensure_dir root key else mret tt) s
                 = (Ok tt, s1) ∧ space_tree (tree s1) ∧ ∀ k, canonical k → leaf (tree s1) k = leaf (tree s) k).
  { destruct (_ && _); [|by exists s]. destruct (ensure_dir_spec (tree s) key Hk Hs).
    by exists (mkFs (ensure_dir_tree root (tree s) key) (tmp_seq s)). }
  destruct Hpre as (s1 & E1 & Hs1 & Hl1). rewrite stm_bind_eq, E1, bind_gets. pose proof Hs1 as [Hwf1 _].
  rewrite key_is_dir by done. destruct (dir_at (tree s1) (loc_of key)) eqn:Ed.
  - intros Hw. apply (write_slot_spec _ _ _ _ _ (loc_of key) (leaf_marker key)) in Hw as [H1 H2]; auto.
    + split; [done|]. intros k Hk'. rewrite H2, Hl1; done.
    + unfold FsLeaves.slot. by rewrite Ed.
    + by exists (names key).
    + by apply key_in_dir, dir_at_true.
  - rewrite bind_modify. set (s2 := match parent_path _ with Some _ => _ | None => _ end).
    assert (Hg : grown (tree s1) (tree s2) ∧ wf_tree (tree s2)).
    { unfold s2. destruct (parent_path _) as [q|]; [|by split].
      by destruct (make_dirs_wf (tree s1) [] q Hwf1 eq_refl). }
    destruct Hg as [Hg Hwf2]. pose proof (space_grown root _ _ Hs1 Hg Hwf2) as Hs2.
    pose proof (fs_path_loc root key) as Hpath. destruct (trailing key) eqn:Ht; [|rewrite app_nil_r in Hpath].
    + rewrite Hpath. intros Hw. exfalso. unfold write_or_panic in Hw.
      destruct (write_atomic pid _ v s2) as [[[]| |] ?] eqn:Ew; simplify_eq.
      by apply write_atomic_slash in Ew; auto.
    + destruct (loc_split (tree s1) key Hk Ed) as (d & c & Hdc & Hpd & Hpc).
      assert (Hpar : parent_path (loc_of key) = Some d).
      { rewrite Hdc. apply (in_dir_parent (tree s1) _ d c); [done..|by left]. }
      assert (Hnd : dir_at (tree s2) (loc_of key) = false).
      { unfold s2. rewrite Hpath, Hpar, Hdc in *. unfold dir_at in *. cbn [tree]. rewrite node_at_app in *.
        unfold create_dir_all. rewrite make_dirs_below; [done..|].
        cbn [app]. intros H%prefix_length. rewrite length_app in H. cbn in H. lia. }
      rewrite Hpath. intros Hw. apply (write_slot_spec _ _ _ _ _ d c) in Hw as [H1 H2]; auto.
      * split; [done|]. intros k Hk'. rewrite H2 by done. destruct (decide (k = key)); [done|].
        rewrite (leaf_grown root (tree s1)); auto.
      * unfold FsLeaves.slot. by rewrite Hnd.
      * pose proof (names_not_nil key Hk Ht) as Hne. unfold FsLeaves.loc_of in Hdc.
        destruct (names key) as [|x ns _] using rev_ind; [done|]. rewrite app_assoc in Hdc.
        apply app_inj_tail in Hdc as [<- _]. by exists ns.
      * by left.
Qed.

(** ** Removing *)

Lemma try_remove t d c :
  wf_tree t → Forall proper d → proper c →
  or_same (remove_file t (d ++ [c])) t =
    match t !! (d ++ [c]) with Some (File _) => delete (d ++ [c]) t | _ => t end.
Proof.
  intros Hwf Hd Hc. destruct (t !! (d ++ [c])) as [[x|]|] eqn:E.
  - by rewrite (proj2 (remove_file_names t Hwf d c _ Hd Hc) (conj (ex_intro _ x E) eq_refl)).
  - destruct (remove_file _ _) eqn:Er; [|done..]. apply (remove_file_names t Hwf) in Er as [[y Hy] _]; [congruence|done..].
  - destruct (remove_file _ _) eqn:Er; [|done..]. apply (remove_file_names t Hwf) in Er as [[y Hy] _]; [congruence|done..].
Qed.

Lemma remove_leaf_eq t key :
  wf_tree t → canonical key →
  remove_leaf_tree root t key =
    if dir_at t (loc_of key) || negb (trailing key)
    then match t !! slot t key with Some (File _) => delete (slot t key) t | _ => t end else t.
Proof.
  intros Hwf Hk. unfold remove_leaf_tree, FsLeaves.slot. rewrite key_is_dir by done.
  destruct (dir_at t (loc_of key)) eqn:Ed.
  - rewrite (in_dir_remove t Hwf (loc_of key) (loc_proper root Hroot key Hk) _ (leaf_marker key)).
    + apply try_remove; auto.
    + by apply key_in_dir, dir_at_true.
  - rewrite fs_path_loc. destruct (trailing key) eqn:Ht; cbn [orb negb].
    + unfold remove_file. destruct (entry_at _ _) eqn:Ee; [|done..]. by apply entry_at_slash in Ee.
    + rewrite app_nil_r. destruct (loc_split t key Hk Ed) as (d & c & -> & Hd & Hc). by apply try_remove.
Qed.

Lemma slot_none t key : (∀ x, t !! slot t key ≠ Some (File x)) → leaf t key = None.
Proof.
  unfold FsLeaves.leaf, FsLeaves.slot, file_at, dir_at. intros H.
  destruct (node_at t (loc_of key)) as [[d|]|] eqn:E; [|cbn in H|done].
  - rewrite bool_decide_false in H by done. destruct (H d). by rewrite <-node_at_ne by (intros En; by rewrite En in E).
  - rewrite bool_decide_true in H by done. destruct (t !! _) as [[d|]|] eqn:E'; [by destruct (H d)|done..].
Qed.

Lemma slash_none t key : dir_at t (loc_of key) = false → trailing key = true → leaf t key = None.
Proof.
  unfold FsLeaves.leaf, dir_at. intros Ed ->. apply bool_decide_eq_false in Ed.
  by destruct (node_at t (loc_of key)) as [[]|].
Qed.

Lemma remove_leaf_spec t key :
  canonical key → space_tree t →
  space_tree (remove_leaf_tree root t key) ∧
  ∀ k, canonical k → leaf (remove_leaf_tree root t key) k = if decide (k = key) then None else leaf t k.
Proof.
  intros Hk Hs. pose proof Hs as [Hwf _]. pose proof (wf_remove_leaf_tree root t key Hwf) as Hwf'.
  assert (Hsame : leaf t key = None →
    space_tree t ∧ ∀ k, canonical k → leaf t k = if decide (k = key) then None else leaf t k).
  { intros Hn. split; [done|]. intros k _. case_decide; [by subst|done]. }
  rewrite remove_leaf_eq in * by done. destruct (dir_at t (loc_of key)) eqn:Ed, (trailing key) eqn:Ht; cbn [orb negb] in *.
  3: by apply Hsame, slash_none.
  all: destruct (t !! slot t key) as [[d|]|] eqn:E;
    [|apply Hsame, slot_none; intros x; by rewrite E..];
    (split; [by apply space_remove|]); intros k Hk'; eapply leaf_remove; eauto.
Qed.
End laws.
