(* ===== verification/FsCopy.v ===== *)
(** * Copying a directory

    [copy_recursive] of [src/src/fs/kvspace.rs]: the copy is complete, and the fuel the model
    gives it, the depth of the tree, is enough. *)

From S2P Require Import Prelude RustInt RustStr RustText HeadLenPow KPath Coord XValue SigV4 Dsn Store Backend KVSpace FsTree FsWalk FsSpace FsWf FsLaws.
Local Open Scope Z_scope.
Implicit Types (t : fstree) (l p d k src dst : list (list Byte.byte)) (c n : list Byte.byte).

(** ** Entries of a directory *)

Lemma entry_name_Some l k c : entry_name l k = Some c ↔ k = l ++ [c].
Proof.
  unfold entry_name. destruct (last k) as [x|] eqn:E.
  - case_decide as H; split.
    + by intros [= <-].
    + intros ->. by apply app_inj_tail in H as [_ ->].
    + done.
    + intros ->. rewrite last_snoc in E. injection E as <-. done.
  - split; [done|]. intros ->. by rewrite last_snoc in E.
Qed.

Lemma elem_of_children t l c : c ∈ children t l ↔ is_Some (t !! (l ++ [c])).
Proof.
  unfold children. rewrite list_elem_of_omap. split.
  - intros (k & Hk & ->%entry_name_Some). apply list_elem_of_fmap in Hk as ([? x] & -> & Hx).
    apply elem_of_map_to_list in Hx. by exists x.
  - intros [x Hx]. exists (l ++ [c]). split; [|by apply entry_name_Some].
    apply list_elem_of_fmap. exists (l ++ [c], x). split; [done|]. by apply elem_of_map_to_list.
Qed.

Lemma NoDup_children t l : NoDup (children t l).
Proof.
  unfold children. pose proof (NoDup_fst_map_to_list t) as H. revert H. generalize (map_to_list t).*1.
  induction l0 as [|k ks IH]; intros H; [constructor|]. apply NoDup_cons in H as [Hk H].
  cbn. destruct (entry_name l k) as [c|] eqn:E; [|by apply IH]. apply NoDup_cons. split; [|by apply IH].
  rewrite list_elem_of_omap. intros (k' & Hk' & E'). apply entry_name_Some in E as ->, E' as ->. done.
Qed.

Lemma tree_depth_le t l : is_Some (t !! l) → (length l <= tree_depth t)%nat.
Proof.
  intros [x Hx]. unfold tree_depth.
  assert (H : l ∈ (map_to_list t).*1).
  { apply list_elem_of_fmap. exists (l, x). split; [done|]. by apply elem_of_map_to_list. }
  revert H. generalize (map_to_list t).*1. induction l0 as [|k ks IH]; [intros H; by apply not_elem_of_nil in H|].
  rewrite elem_of_cons. cbn. intros [->|H]; [lia|]. specialize (IH H). lia.
Qed.

(** ** One copy *)

(** What is copied: everything but temporary files and what is below them. *)
Definition clean k : Prop := Forall (λ n, is_tmp_name n = false) k.
#[export] Instance clean_dec k : Decision (clean k).
Proof. unfold clean. apply _. Defined.

(** [t'] is [t] with a copy of what is at [src] at [dst]. *)
Definition copied t src dst t' : Prop :=
  (∀ k, t' !! (dst ++ k) = if decide (clean k) then t !! (src ++ k) else None) ∧
  (∀ l, ¬ dst `prefix_of` l → t' !! l = t !! l).

(** A copy that can start: [src] is there, [dst] is not, in a directory that is no part of [src]. *)
Record copyable (fuel : nat) t src d c : Prop := {
  cp_wf : wf_tree t;
  cp_src : Forall proper src;
  cp_names : ∀ k, is_Some (t !! (src ++ k)) → Forall proper k;
  cp_there : is_Some (t !! src);
  cp_parent : Forall proper d;
  cp_name : proper c;
  cp_dir : node_at t d = Some Dir;
  cp_free : t !! (d ++ [c]) = None;
  cp_apart : ¬ src `prefix_of` d ++ [c];
  cp_fuel : ∀ k, is_Some (t !! (src ++ k)) → (length k < fuel)%nat;
}.

Lemma copyable_disjoint fuel t src d c k : copyable fuel t src d c → ¬ d ++ [c] `prefix_of` src ++ k.
Proof.
  intros H Hp. destruct (prefix_weak_total (d ++ [c]) src (src ++ k)) as [[q ->]|Ha];
    [done|by exists k| |by apply (cp_apart _ _ _ _ _ H)].
  destruct (decide (q = [])) as [->|Hq]; [apply (cp_apart _ _ _ _ _ H); by rewrite app_nil_r|].
  pose proof (cp_there _ _ _ _ _ H) as Ht.
  assert (node_at t (d ++ [c]) = Some Dir) as E.
  { eapply (wf_prefix t (d ++ [c]) q (cp_wf _ _ _ _ _ H)); [|done]. by rewrite node_at_ne by (by destruct d). }
  rewrite node_at_app, (cp_free _ _ _ _ _ H) in E. done.
Qed.

(** The copies of the entries [done] of a directory. *)
Record copying t src dst (done : list (list Byte.byte)) (t' : fstree) : Prop := {
  cg_wf : wf_tree t';
  cg_dir : t' !! dst = Some Dir;
  cg_done : ∀ n k, t' !! (dst ++ n :: k) = if decide (n ∈ done ∧ clean (n :: k)) then t !! (src ++ n :: k) else None;
  cg_rest : ∀ l, ¬ dst `prefix_of` l → t' !! l = t !! l;
}.

Lemma app_cons_snoc l n k : l ++ n :: k = (l ++ [n]) ++ k.
Proof. by rewrite <-app_assoc. Qed.

Section copy.
Context (fuel : nat).
Context (IH : ∀ t src d c, copyable fuel t src d c →
  ∃ t', copy_recursive fuel src (d ++ [c]) t = (Ok tt, t') ∧ copied t src (d ++ [c]) t').
Context (t : fstree) (src d : list (list Byte.byte)) (c : list Byte.byte).
Context (H : copyable (S fuel) t src d c).
Abbreviation dst := (d ++ [c]).

Lemma copy_entry done t1 n :
  copying t src dst done t1 → n ∉ done → is_tmp_name n = false → is_Some (t !! (src ++ [n])) →
  ∃ t2, copy_recursive fuel (src ++ [n]) (dst ++ [n]) t1 = (Ok tt, t2) ∧ copying t src dst (n :: done) t2.
Proof.
  intros [Hwf Hdir Hdone Hrest] Hn Htmp Hin.
  assert (Hsrc : ∀ k, t1 !! ((src ++ [n]) ++ k) = t !! (src ++ n :: k)).
  { intros k. rewrite <-app_cons_snoc. apply Hrest. by eapply copyable_disjoint. }
  assert (Hp : proper n).
  { pose proof (cp_names _ _ _ _ _ H [n] Hin) as Hf. by rewrite Forall_singleton in Hf. }
  destruct (IH t1 (src ++ [n]) dst n) as (t2 & E & Hc1 & Hc2).
  { split.
    - done.
    - apply Forall_app. split; [apply (cp_src _ _ _ _ _ H)|by constructor].
    - intros k. rewrite Hsrc. intros Hk. apply (cp_names _ _ _ _ _ H) in Hk. by apply Forall_cons in Hk as [_ ?].
    - rewrite <-(app_nil_r (src ++ [n])), Hsrc. done.
    - apply Forall_app. split; [apply (cp_parent _ _ _ _ _ H)|]. constructor; [apply (cp_name _ _ _ _ _ H)|done].
    - done.
    - by rewrite node_at_app.
    - rewrite Hdone, decide_False; [done|]. tauto.
    - intros [q Hq]. rewrite <-(app_assoc src) in Hq. destruct (cp_apart _ _ _ _ _ H).
      destruct (prefix_weak_total src dst (dst ++ [n])) as [|[q' Hq']]; [by rewrite Hq; eexists|by eexists|done|].
      destruct (copyable_disjoint _ _ _ _ _ [] H). rewrite app_nil_r. by exists q'.
    - intros k. rewrite Hsrc. intros Hk. apply (cp_fuel _ _ _ _ _ H) in Hk. cbn in Hk. lia. }
  exists t2. split; [done|]. split.
  - pose proof (wf_copy_recursive fuel (src ++ [n]) (dst ++ [n]) t1 Hwf) as Hw. by rewrite E in Hw.
  - rewrite Hc2; [done|]. intros Hq%prefix_length. rewrite length_app in Hq. cbn in Hq. lia.
  - intros n' k. destruct (decide (n' = n)) as [->|Hne].
    + rewrite app_cons_snoc, Hc1, Hsrc. assert (Hcl : clean (n :: k) ↔ clean k) by (unfold clean; rewrite Forall_cons; tauto).
      destruct (decide (clean k)); [rewrite decide_True|rewrite decide_False]; try done.
      * split; [by left|tauto].
      * tauto.
    + rewrite Hc2, Hdone.
      * destruct (decide (n' ∈ done ∧ clean (n' :: k))); [rewrite decide_True|rewrite decide_False]; try done.
        -- split; [right|]; tauto.
        -- rewrite elem_of_cons. tauto.
      * rewrite (app_cons_snoc dst n' k). intros [q Hq]. apply (app_inj_1 (dst ++ [n'])) in Hq as [Hq _]; [|by rewrite !length_app].
        apply app_inj_tail in Hq as [_ ?]. done.
  - intros l Hl. rewrite Hc2; [by apply Hrest|]. intros Hp'. apply Hl. etrans; [|exact Hp']. by eexists.
Qed.

Lemma copy_entries names done t1 :
  copying t src dst done t1 → NoDup names → (∀ n, n ∈ names → n ∉ done) →
  (∀ n, n ∈ names → is_tmp_name n = false ∧ is_Some (t !! (src ++ [n]))) →
  ∃ t2, for_each names (λ n, copy_recursive fuel (src ++ [n]) (dst ++ [n])) t1 = (Ok tt, t2) ∧
    copying t src dst (reverse names ++ done) t2.
Proof.
  revert done t1. induction names as [|n names IHn]; intros done t1 Hc Hnd Hnew Hok.
  - by exists t1.
  - apply NoDup_cons in Hnd as [Hn Hnd]. destruct (Hok n) as [Htmp Hin]; [by left|].
    destruct (copy_entry done t1 n Hc) as (t2 & E2 & Hc2); [apply Hnew; by left|done..|].
    destruct (IHn (n :: done) t2 Hc2 Hnd) as (t3 & E3 & Hc3).
    + intros x Hx. rewrite elem_of_cons. intros [->|Hd]; [done|]. apply (Hnew x); [by right|done].
    + intros x Hx. apply Hok. by right.
    + exists t3. split.
      * cbn [for_each]. by rewrite stm_bind_eq, E2.
      * by rewrite reverse_cons, <-app_assoc.
Qed.
End copy.

(** ** The whole copy *)

Lemma make_dir_there t p : wf_tree t → Forall proper p → node_at t p = Some Dir → make_dir p t = (Ok tt, t).
Proof.
  intros Hwf Hp Hd. unfold make_dir, create_dir_all.
  assert (E : ∀ q l, Forall proper q → node_at t (l ++ q) = Some Dir → make_dirs t l q = (t, true)).
  { clear p Hp Hd. induction q as [|c q IHq]; intros l Hq Hd; [done|]. apply Forall_cons in Hq as [Hc Hq].
    cbn [make_dirs]. rewrite step_proper by done. rewrite (app_cons_snoc l c q) in Hd.
    assert (Hl : node_at t (l ++ [c]) = Some Dir).
    { destruct q as [|x q]; [by rewrite app_nil_r in Hd|].
      apply (wf_prefix t _ (x :: q) Hwf); [by rewrite Hd|done]. }
    assert (Hl0 : node_at t l = Some Dir) by (apply (wf_prefix t l [c] Hwf); [by rewrite Hl|done]).
    pose proof (proj2 (dir_at_true _ _) Hl) as Hb. apply dir_at_true in Hl0 as ->.
    rewrite node_at_app in Hl. rewrite Hl, Hb. by apply IHq. }
  by rewrite (E p []).
Qed.

Lemma copyable_ne fuel t src d c : copyable fuel t src d c → src ≠ [].
Proof. intros H ->. destruct (cp_apart _ _ _ _ _ H). by exists (d ++ [c]). Qed.

(** The new entry and what is below it. *)
Lemma lookup_entry_below t d c n k x : <[d ++ [c] := x]> t !! ((d ++ [c]) ++ n :: k) = t !! ((d ++ [c]) ++ n :: k).
Proof.
  apply lookup_insert_ne. intros E. rewrite <-(app_nil_r (d ++ [c])) in E at 1. by apply app_inv_head in E.
Qed.

Lemma lookup_apart t l k (x : node) : ¬ l `prefix_of` k → <[l := x]> t !! k = t !! k.
Proof. intros Hl. apply lookup_insert_ne. intros <-. by apply Hl. Qed.

Lemma copy_file_spec fuel t src d c x :
  copyable fuel t src d c → t !! src = Some (File x) →
  ∃ t', (match parent_path (d ++ [c]) with Some p => make_dir p | None => mret tt end;; copy_one src (d ++ [c])) t =
    (Ok tt, t') ∧ copied t src (d ++ [c]) t'.
Proof.
  intros H Ex. pose proof (copyable_ne _ _ _ _ _ H) as Hne.
  destruct H as [Hwf Hsrc Hnames Hin Hd Hc Hdir Hfree Hapart Hfuel].
  rewrite (in_dir_parent t (d ++ [c]) d c) by (done || by left).
  rewrite stm_bind_eq, make_dir_there by done. unfold copy_one, copy_file.
  rewrite (proj2 (read_file_names t Hwf src x Hsrc)) by (by rewrite node_at_ne). cbn [mbind res_bind].
  assert (Hnd : t !! (d ++ [c]) ≠ Some Dir) by (by rewrite Hfree).
  rewrite (proj2 (write_file_names t Hwf d c x _ Hd Hc) (conj Hdir (conj Hnd eq_refl))).
  eexists. split; [done|]. split.
  - intros [|n k]; [by rewrite !app_nil_r, lookup_insert_eq, Ex|].
    rewrite lookup_entry_below. assert (E1 : t !! ((d ++ [c]) ++ n :: k) = None).
    { apply wf_nothing_below; [done| |done]. rewrite node_at_app. congruence. }
    assert (E2 : t !! (src ++ n :: k) = None).
    { apply wf_nothing_below; [done| |done]. rewrite node_at_ne by done. congruence. }
    rewrite E1, E2. by case_decide.
  - intros l Hl. by apply lookup_apart.
Qed.

Lemma copy_dir_spec fuel t src d c :
  (∀ t src d c, copyable fuel t src d c →
    ∃ t', copy_recursive fuel src (d ++ [c]) t = (Ok tt, t') ∧ copied t src (d ++ [c]) t') →
  copyable (S fuel) t src d c → t !! src = Some Dir →
  ∃ t', (make_dir (d ++ [c]);;
         names ← gets (λ t, default [] (read_dir t src));
         for_each (filter (λ n, is_tmp_name n = false) names)
           (λ n, copy_recursive fuel (src ++ [n]) ((d ++ [c]) ++ [n]))) t = (Ok tt, t') ∧
    copied t src (d ++ [c]) t'.
Proof.
  intros IH H Ex. pose proof (copyable_ne _ _ _ _ _ H) as Hne.
  pose proof H as [Hwf Hsrc Hnames Hin Hd Hc Hdir Hfree Hapart Hfuel].
  set (t1 := <[d ++ [c] := Dir]> t).
  assert (Hmk : make_dir (d ++ [c]) t = (Ok tt, t1)).
  { unfold make_dir, create_dir_all. by rewrite make_dirs_new. }
  assert (Hrest : ∀ l, ¬ d ++ [c] `prefix_of` l → t1 !! l = t !! l) by (intros l Hl; by apply lookup_apart).
  assert (Hsrc1 : ∀ k, t1 !! (src ++ k) = t !! (src ++ k)) by (intros k; by eapply Hrest, copyable_disjoint).
  assert (Hwf1 : wf_tree t1) by (by apply wf_insert_dir).
  assert (Hlist : read_dir t1 src = Some (children t1 src)).
  { assert (Hn : node_at t1 src = Some Dir).
    { rewrite node_at_ne by done. pose proof (Hsrc1 []) as E. by rewrite app_nil_r, Ex in E. }
    unfold read_dir. rewrite (lookup_names t1 Hwf1 src Hsrc) by (by rewrite Hn).
    by rewrite (proj2 (dir_at_true _ _) Hn). }
  rewrite stm_bind_eq, Hmk, bind_gets, Hlist. cbn [default].
  set (names := filter _ _). destruct (copy_entries fuel IH t src d c H names [] t1) as (t2 & E2 & [_ H2 H3 H4]).
  - split; [done|apply lookup_insert_eq| |done]. intros n k. rewrite decide_False by (by intros [?%not_elem_of_nil _]).
    unfold t1. rewrite lookup_entry_below. apply wf_nothing_below; [done|rewrite node_at_app; congruence|done].
  - apply NoDup_filter, NoDup_children.
  - intros n _. apply not_elem_of_nil.
  - intros n [Hn Hx]%list_elem_of_filter. apply elem_of_children in Hx. by rewrite Hsrc1 in Hx.
  - exists t2. split; [done|]. split; [|done]. intros [|n k]; [by rewrite !app_nil_r, H2, Ex|].
    rewrite H3, app_nil_r. destruct (decide (clean (n :: k))) as [Hcl|Hcl]; [|by rewrite decide_False by tauto].
    case_decide as Hx; [done|]. symmetry. destruct (t !! (src ++ n :: k)) eqn:E; [|done]. destruct Hx.
    split; [|done]. apply elem_of_reverse, list_elem_of_filter. apply Forall_cons in Hcl as [Hn _]. split; [done|].
    apply elem_of_children. rewrite Hsrc1. rewrite app_cons_snoc in E. destruct k as [|y k]; [by rewrite app_nil_r in E; eexists|].
    rewrite <-node_at_app. eexists. apply (wf_prefix t _ (y :: k) Hwf); [|done]. rewrite node_at_ne, E; [done|by destruct src].
Qed.

Lemma copy_recursive_spec fuel t src d c :
  copyable fuel t src d c → ∃ t', copy_recursive fuel src (d ++ [c]) t = (Ok tt, t') ∧ copied t src (d ++ [c]) t'.
Proof.
  revert t src d c. induction fuel as [|fuel IH]; intros t src d c H.
  { pose proof (cp_fuel _ _ _ _ _ H []) as Hf. rewrite app_nil_r in Hf.
    specialize (Hf (cp_there _ _ _ _ _ H)). lia. }
  cbn [copy_recursive]. rewrite bind_gets, path_is_dir_names by apply H.
  unfold dir_at. rewrite node_at_ne by (by eapply copyable_ne).
  destruct (cp_there _ _ _ _ _ H) as [[x|] Ex]; rewrite Ex.
  - rewrite bool_decide_false by done. by eapply copy_file_spec.
  - rewrite bool_decide_true by done. by apply copy_dir_spec.
Qed.

Lemma copied_unique t src dst t1 t2 : copied t src dst t1 → copied t src dst t2 → t1 = t2.
Proof.
  intros [H1 H1'] [H2 H2']. apply map_eq. intros l. destruct (decide (dst `prefix_of` l)) as [[k ->]|Hl].
  - by rewrite H1, H2.
  - by rewrite H1', H2'.
Qed.

(** C40. The recursive copy of [cp_tree] ends and is complete.  When the source exists, the
    destination does not but its directory does, and the destination is not inside the source,
    the copy succeeds; the destination then holds exactly what the source holds, at every depth,
    but for temporary files, and nothing else in the file system has changed.  The depth of the tree bounds the
    recursion: more fuel gives the same result. *)
Theorem fs_copy_complete s (src_key dst_key : str) sp d c :
  wf_tree (tree s) → Forall proper sp → (∀ k, is_Some (tree s !! (sp ++ k)) → Forall proper k) →
  Forall proper d → proper c → is_Some (tree s !! sp) → node_at (tree s) d = Some Dir →
  tree s !! (d ++ [c]) = None → ¬ sp `prefix_of` d ++ [c] →
  ∃ t', copy_if_exists src_key dst_key sp (d ++ [c]) s = (Ok tt, mkFs t' (tmp_seq s)) ∧
    (∀ k, t' !! (d ++ [c] ++ k) =
            if decide (clean k) then tree s !! (sp ++ k) else None) ∧
    (∀ l, ¬ d ++ [c] `prefix_of` l → t' !! l = tree s !! l) ∧
    (∀ fuel, (tree_depth (tree s) < fuel)%nat → copy_recursive fuel sp (d ++ [c]) (tree s) = (Ok tt, t')).
Proof.
  intros Hwf Hsp Hnames Hd Hc Hin Hdir Hfree Hapart.
  assert (Hcp : ∀ fuel, (tree_depth (tree s) < fuel)%nat → copyable fuel (tree s) sp d c).
  { intros fuel Hf. split; try done. intros k Hk. apply tree_depth_le in Hk. rewrite length_app in Hk. lia. }
  destruct (copy_recursive_spec _ _ _ _ _ (Hcp (S (tree_depth (tree s))) ltac:(lia))) as (t' & E & Hcopied).
  exists t'. split_and!.
  - unfold copy_if_exists, path_exists. rewrite stat_names, bool_decide_true, E; [done| |done..].
    rewrite node_at_ne; [done|]. intros ->. destruct Hapart. by eexists.
  - intros k. rewrite app_assoc. destruct Hcopied as [Hk _]. by rewrite Hk.
  - apply Hcopied.
  - intros fuel Hf. destruct (copy_recursive_spec _ _ _ _ _ (Hcp fuel Hf)) as (t2 & E2 & Hc2).
    by rewrite E2, (copied_unique _ _ _ _ _ Hc2 Hcopied).
Qed.

Definition ex_copy : fsstate := (ex_set [ex_pair "/a/b"%rs "1"%rs; ex_pair "/a"%rs "2"%rs] ex_empty).2.

Lemma fs_copy_complete_witness :
  ∃ t', copy_if_exists "/a"%rs "/c"%rs (ex_root ++ ["a"%rs]) (ex_root ++ ["c"%rs]) ex_copy = (Ok tt, mkFs t' (tmp_seq ex_copy)) ∧
    t' !! (ex_root ++ ["c"%rs] ++ ["b"%rs]) = Some (File (ex_wire "1"%rs)).
Proof.
  assert (Hwf : wf_tree (tree ex_copy)).
  { apply (wf_set ex_root 7 [ex_pair "/a/b"%rs "1"%rs; ex_pair "/a"%rs "2"%rs] ex_empty).
    apply wf_ex_empty. }
  assert (Hall : map_Forall (λ l (_ : node), Forall proper l) (tree ex_copy)) by decided.
  destruct (fs_copy_complete ex_copy "/a"%rs "/c"%rs (ex_root ++ ["a"%rs]) ex_root "c"%rs) as (t' & H1 & H2 & _).
  - exact Hwf.
  - by decided.
  - intros k [x Hx]. apply Hall in Hx. by apply Forall_app in Hx as [_ ?].
  - by decided.
  - by decided.
  - by decided.
  - vm_compute; reflexivity.
  - vm_compute; reflexivity.
  - by decided.
  - exists t'. split; [exact H1|]. rewrite H2. vm_compute. reflexivity.
Defined.
