(* ===== verification/FsWrites.v ===== *)
(** * When the directory space can write

    [set] of [src/src/fs/kvspace.rs] makes the parent of a key a directory, not the directories
    above it: a write succeeds exactly when no file is in the way higher up.  What is in the way,
    in terms of the tree and of the keys, and that nothing else ever is. *)

From S2P Require Import Prelude RustInt RustStr RustText HeadLenPow KPath Coord XValue SigV4 Dsn Store Backend KVSpace FsTree FsWalk FsSpace FsWf FsNames FsLeaves FsLaws.
Local Open Scope Z_scope.
Implicit Types (t : fstree) (key k : str) (c : str).

(** ** The names above a key *)

Definition parent_key key : str := (split_index key).1.1.

Lemma split_members_plain b m : contains OBJ_SEP m = false → split_members b m = m.
Proof.
  revert b m. apply (members_ind (λ b m, contains OBJ_SEP m = false → split_members b m = m)); [done|..].
  - intros b k _ H. rewrite contains_false in H. by destruct (H [] k).
  - intros b c k Hc IH H. rewrite split_members_cons by done. f_equal. apply IH.
    rewrite contains_false in *. intros x y ->. by apply (H (c :: x) y).
Qed.

(** A component that [split_index] does not split. *)
Lemma split_members_last m :
  (∀ name m', ¬ member_split m name m') → is_dir m = false → split_members true m = m.
Proof.
  intros Hno Hd. destruct (contains OBJ_SEP m) eqn:Hc; [|by apply split_members_plain].
  destruct (rfind OBJ_SEP m) as [i|] eqn:E;
    [|apply contains_true in Hc as (a & b & ->); by destruct (proj1 (rfind_None _ _) E a b)].
  pose proof (rfind_Some _ _ _ E) as Hm. set (m' := drop (i + length OBJ_SEP) m) in *.
  assert (Hm' : contains OBJ_SEP m' = false).
  { apply contains_false. intros a b Hab.
    destruct (rfind_last OBJ_SEP (take i m ++ OBJ_SEP ++ a) b) as (j & Hj & Hle).
    rewrite <-!app_assoc in Hj. change (OBJ_SEP ++ a ++ OBJ_SEP ++ b) with (OBJ_SEP ++ (a ++ OBJ_SEP ++ b)) in Hj.
    rewrite <-Hab, <-Hm, E in Hj. injection Hj as <-.
    pose proof (occurrence_bound OBJ_SEP m i ltac:(done) Hm) as Hb.
    rewrite !length_app, length_take in Hle. change (length OBJ_SEP) with 2%nat in *. lia. }
  destruct (decide (m' = [])) as [Hn|Hn].
  { rewrite Hn in Hm. change (OBJ_SEP ++ []) with "·"%rs in Hm. rewrite Hm, is_dir_obj in Hd. done. }
  destruct (decide (take i m = [])) as [Ht|Ht]; [|by destruct (Hno (take i m) m')].
  rewrite Hm, Ht. cbn [app]. change (OBJ_SEP ++ m') with ("·"%rs ++ m'). rewrite split_members_obj.
  by rewrite split_members_plain.
Qed.

(** The path of a key whose text is cut at a slash of the path. *)
Lemma key_parts_at k x y :
  canonical (SLASH :: k) → split_members true k = x ++ SLASH :: y →
  key_parts (SLASH :: k) = (escape_part <$> split_byte SLASH x) ++ (escape_part <$> split_byte SLASH y).
Proof.
  intros (H1 & H2 & _) Hk. destruct (key_split _ H1 H2) as (? & [= <-] & ->).
  by rewrite Hk, split_byte_at, fmap_app.
Qed.

Lemma names_slash k x :
  contains "//"%rs (SLASH :: k) = false → split_members true k = x ++ [SLASH] →
  trailing (SLASH :: k) = true ∧ names (SLASH :: k) = escape_part <$> split_byte SLASH x.
Proof.
  intros Hc Hk. destruct (key_split (SLASH :: k) eq_refl Hc) as (? & [= <-] & Hp).
  rewrite Hk, split_byte_snoc, fmap_app in Hp.
  change (escape_part <$> [[]]) with [[] : str] in Hp.
  assert (Ht : trailing (SLASH :: k) = true)
    by (unfold trailing; rewrite Hp; apply bool_decide_eq_true; by rewrite last_snoc).
  split; [done|]. pose proof (key_parts_names (SLASH :: k)) as E. rewrite Ht, Hp in E.
  by apply app_inj_tail in E as [<- _].
Qed.

Lemma contains_prefix p a b : contains p (a ++ b) = false → contains p a = false.
Proof.
  rewrite !contains_false. intros H x y ->. apply (H x (y ++ b)). by rewrite <-!app_assoc.
Qed.

Lemma split_plain (m : str) : (SLASH ∉ m) → split_byte SLASH m = [m].
Proof.
  induction m as [|b m IH]; [done|]. rewrite not_elem_of_cons. intros [Hb Hm]. cbn.
  rewrite IH by done. by rewrite decide_False.
Qed.

(** The parent of a key, as text before a slash of its path. *)
Lemma parent_cut key :
  canonical key → ∃ k k' x y m,
    key = SLASH :: k ∧ parent_key key = SLASH :: k' ∧ key = parent_key key ++ m ∧
    ((k' = [] ∧ y = split_members true k ∧ m = k) ∨
     (split_members true k = x ++ SLASH :: y ∧ split_members true k' = x ++ [SLASH])) ∧
    (is_dir key = false → y = m ∧ m ≠ [] ∧ (SLASH ∉ m)).
Proof.
  intros Hk. pose proof (canonical_abs _ Hk) as Habs. unfold parent_key.
  destruct (split_index key) as [[parent m] kind] eqn:E. cbn [fst].
  pose proof (split_index_spec _ _ _ _ Habs E) as (-> & Hm & Hkind).
  apply split_index_exact in E as (dir & last & Hkey & Hdir & Hlast & Hexact); [|done].
  assert (Hne : is_dir (parent ++ m) = false → m ≠ []).
  { intros Hd ->. rewrite app_nil_r in Hd. destruct kind.
    - apply ends_with_true in Hkind as [r ->]. by rewrite is_dir_slash in Hd.
    - destruct Hkind as (_ & _ & d & n & -> & _). by rewrite app_assoc, is_dir_obj in Hd. }
  assert (Hstart : starts_with "/"%rs (parent ++ m) = true) by apply Hk.
  assert (Hpd : ∀ m', m = m' → is_dir (parent ++ m) = false → m' ≠ [] → is_dir m' = false).
  { intros m' <- Hd _. destruct (is_dir m) eqn:Ed; [|done]. apply is_dir_true in Ed as [b [-> | ->]];
      rewrite app_assoc in Hd; by rewrite ?is_dir_slash, ?is_dir_obj in Hd. }
  destruct kind.
  - destruct Hexact as (-> & <- & Hno).
    apply ends_with_true in Hkind as [r ->]. destruct r as [|c r].
    + exists m, [], [], (split_members true m), m. split_and!; [done..| |].
      * left. done.
      * intros Hd. split_and!; [|by apply Hne|done]. by apply split_members_last; [|apply (Hpd m); auto].
    + assert (c = SLASH) as -> by (apply starts_with_true in Hstart as [? Hs]; by injection Hs).
      exists (r ++ SLASH :: m), (r ++ [SLASH]), (split_members true r), (split_members true m), m.
      split_and!; [by cbn; rewrite <-app_assoc|done|done| |].
      * right. split; [apply split_members_at_slash|apply split_members_snoc].
      * intros Hd. split_and!; [|by apply Hne|done]. by apply split_members_last; [|apply (Hpd m); auto].
  - destruct Hkind as (Hne' & Hc & dir' & name & -> & Hn & Hns & Hd').
    apply ends_with_true in Hd' as [r ->].
    assert (∃ a, (r ++ DIR_INDEX_SUF) ++ name ++ OBJ_SEP = SLASH :: a ++ "·"%rs ∧ a ≠ [] ∧ list.last a ≠ Some SLASH)
      as (a & Ha & Hane & Hal).
    { destruct name as [|n name _] using rev_ind; [done|]. exists (drop 1 ((r ++ "/"%rs) ++ name ++ [n])).
      assert (Hl : n ≠ SLASH) by (intros ->; apply Hns, elem_of_app; right; by left).
      destruct r as [|c' r].
      - split_and!; [done|by destruct name|]. change (list.last (name ++ [n]) ≠ Some SLASH).
        rewrite last_snoc. congruence.
      - assert (c' = SLASH) as -> by (apply starts_with_true in Hstart as [? Hs]; by injection Hs).
        cbn [app drop]. rewrite ?drop_0. split_and!; [by rewrite <-!app_assoc|by destruct r|].
        rewrite (app_assoc _ name), last_snoc. congruence. }
    exists (a ++ "·"%rs ++ m), (a ++ "·"%rs), (split_members true a ++ "·"%rs), (split_members false m), m.
    split_and!.
    + rewrite Ha. cbn [app]. by rewrite <-app_assoc.
    + done.
    + done.
    + right. split; [by apply split_members_at_obj|].
      rewrite <-(app_nil_r "·"%rs) at 1. by apply split_members_at_obj.
    + intros _. split_and!; [by apply split_members_plain|done|done].
Qed.

(** The names of the parent are the first names of the key, all but one of them for a key that is
    no directory. *)
Lemma parent_names key :
  canonical key →
  names (parent_key key) `prefix_of` names key ∧
  (is_dir key = false → trailing key = false ∧ ∃ c, names key = names (parent_key key) ++ [c]).
Proof.
  intros Hk. destruct (parent_cut key Hk) as (k & k' & x & y & m & -> & Hpar & Hm & Hcut & Hplain).
  assert (Hparts : key_parts (SLASH :: k) = names (parent_key (SLASH :: k)) ++ (escape_part <$> split_byte SLASH y)).
  { rewrite Hpar. destruct Hcut as [(-> & -> & _)|[Hx Hx']].
    - destruct Hk as (H1 & H2 & _). by destruct (key_split _ H1 H2) as (? & [= <-] & ->).
    - rewrite (key_parts_at k x y Hk Hx). f_equal. symmetry. apply names_slash; [|done].
      destruct Hk as (_ & Hc & _). rewrite Hm, Hpar in Hc. by eapply contains_prefix. }
  pose proof (key_parts_names (SLASH :: k)) as E. rewrite Hparts in E.
  set (P := names (parent_key _)) in *. split.
  - destruct (trailing (SLASH :: k)); [|rewrite app_nil_r in E; by eexists].
    destruct (exists_last (split_byte_ne SLASH y)) as (l & z & Hy). rewrite Hy, fmap_app, app_assoc in E.
    apply app_inj_tail in E as [<- _]. by eexists.
  - intros Hd. destruct (Hplain Hd) as (-> & Hne & Hns). rewrite split_plain in * by done.
    assert (Ht : trailing (SLASH :: k) = false).
    { unfold trailing. rewrite Hparts. apply bool_decide_eq_false. cbn [fmap list_fmap].
      rewrite last_snoc. intros Hm'%(inj Some). by apply (proj1 (escape_part_nil m)) in Hm'. }
    split; [done|]. rewrite Ht, app_nil_r in E. by exists (escape_part m).
Qed.

(** Every directory on the way to a key is the node of a canonical key: of a container or of a
    key without a trailing slash. *)
Lemma members_prefix b k x y :
  split_members b k = x ++ SLASH :: y →
  (∃ k1 k2, k = k1 ++ SLASH :: k2 ∧ split_members b k1 = x) ∨
  (∃ k1 k2, k = k1 ++ "·"%rs ++ k2 ∧ split_members b (k1 ++ "·"%rs) = x ++ [SLASH]).
Proof.
  revert b k x y. apply (members_ind (λ b k, ∀ x y, split_members b k = x ++ SLASH :: y →
    (∃ k1 k2, k = k1 ++ SLASH :: k2 ∧ split_members b k1 = x) ∨
    (∃ k1 k2, k = k1 ++ "·"%rs ++ k2 ∧ split_members b (k1 ++ "·"%rs) = x ++ [SLASH]))).
  - intros b x y H. by destruct x.
  - intros b k IH x y. rewrite split_members_obj.
    assert (Hrest : ∀ x', split_members false k = x' ++ SLASH :: y →
      (∃ k1 k2, "·"%rs ++ k = k1 ++ SLASH :: k2 ∧ split_members b k1 = "·"%rs ++ (if b then [] else [SLASH]) ++ x') ∨
      (∃ k1 k2, "·"%rs ++ k = k1 ++ "·"%rs ++ k2 ∧
         split_members b (k1 ++ "·"%rs) = ("·"%rs ++ (if b then [] else [SLASH]) ++ x') ++ [SLASH])).
    { intros x' [(k1 & k2 & -> & H)|(k1 & k2 & -> & H)]%IH; [left|right]; exists ("·"%rs ++ k1), k2.
      - split; [by rewrite <-app_assoc|]. by rewrite split_members_obj, H.
      - split; [by rewrite <-app_assoc|]. rewrite <-app_assoc, split_members_obj, H. by rewrite <-!app_assoc. }
    destruct x as [|c0 [|c1 x]]; [done|done|]. intros [= <- <- H].
    destruct b; [by apply (Hrest x)|]. destruct x as [|c2 x].
    + right. by exists [], k.
    + injection H as <- H. by apply (Hrest x).
  - intros b c k Hc IH x y. rewrite split_members_cons by done. destruct x as [|c' x].
    + intros [= -> _]. left. by exists [], k.
    + intros [= -> H]. apply IH in H as [(k1 & k2 & -> & H)|(k1 & k2 & -> & H)]; [left|right];
        exists (c' :: k1), k2; (split; [done|]); cbn [app]; rewrite split_members_cons.
      * by rewrite H.
      * destruct k1 as [|d k1]; [done|]. by rewrite starts_with_obj_app in Hc.
      * by rewrite H.
      * destruct k1 as [|d k1]; [by apply starts_with_obj_two|].
        rewrite starts_with_obj_app in Hc by done. by rewrite starts_with_obj_app.
Qed.

Lemma split_byte_cut (c : byte) s u w :
  split_byte c s = u ++ w → u ≠ [] → w ≠ [] → ∃ x y, s = x ++ c :: y ∧ split_byte c x = u.
Proof.
  revert u. induction s as [|b s IH]; intros u; cbn.
  { intros H Hu Hw. destruct u as [|? [|]]; [done| |done]. by destruct w. }
  destruct (decide (b = c)) as [->|Hne].
  - intros H Hu Hw. destruct u as [|u0 u]; [done|]. injection H as <- H. destruct u as [|u1 u].
    + by exists [], s.
    + destruct (IH (u1 :: u) H ltac:(done) Hw) as (x & y & -> & Hx). exists (c :: x), y. split; [done|].
      cbn. by rewrite decide_True, Hx.
  - intros H Hu Hw. destruct u as [|u0 u]; [done|].
    destruct (split_byte c s) as [|p ps] eqn:E; [by apply split_byte_ne in E|].
    injection H as <- H. destruct (IH (p :: u) ltac:(by rewrite H) ltac:(done) Hw) as (x & y & -> & Hx).
    exists (b :: x), y. split; [done|]. cbn. by rewrite decide_False, Hx.
Qed.

(** [q] is a directory strictly above the node of [key]. *)
Definition above (q : list str) key : Prop := q `prefix_of` names key ∧ q ≠ names key.
#[export] Instance above_dec q key : Decision (above q key).
Proof. unfold above. apply _. Defined.

Lemma canonical_root : canonical "/"%rs.
Proof. by decided. Qed.

Lemma names_above key q :
  canonical key → above q key →
  ∃ k, canonical k ∧ names k = q ∧ (trailing k = false ∨ container k).
Proof.
  intros Hk [[w Hw] Hne]. pose proof Hk as (H1 & H2 & H3).
  assert (Hq : Forall proper q) by (rewrite Hw in H3; by apply Forall_app in H3 as [? _]).
  destruct (decide (q = [])) as [->|Hqne].
  { exists "/"%rs. split_and!; [apply canonical_root|done|]. right. by split; [apply canonical_root|]. }
  assert (w ≠ []) as Hwne by (intros ->; rewrite app_nil_r in Hw; congruence).
  destruct (key_split key H1 H2) as (k & -> & Hparts). rewrite key_parts_names, Hw, <-app_assoc in Hparts.
  symmetry in Hparts. apply fmap_app_inv in Hparts as (u & v & -> & Hv & Hs).
  assert (u ≠ []) as Hu by (by intros ->).
  assert (v ≠ []) as Hvne by (intros ->; by destruct w).
  apply split_byte_cut in Hs as (x & y & Hs & <-); [|done..].
  apply members_prefix in Hs as [(k1 & k2 & -> & Hx)|(k1 & k2 & -> & Hx)].
  - exists (SLASH :: k1). change (SLASH :: k1 ++ SLASH :: k2) with ((SLASH :: k1) ++ SLASH :: k2) in H2.
    apply contains_prefix in H2. destruct (key_split (SLASH :: k1) eq_refl H2) as (? & [= <-] & Hp).
    rewrite Hx in Hp.
    assert (Ht : trailing (SLASH :: k1) = false).
    { unfold trailing. rewrite Hp. apply bool_decide_eq_false. intros Hl. apply last_Some in Hl as [l Hl].
      rewrite Hl in Hq. apply Forall_app in Hq as [_ Hq]. rewrite Forall_singleton in Hq. by destruct Hq. }
    pose proof (key_parts_names (SLASH :: k1)) as E. rewrite Ht, app_nil_r, Hp in E.
    split_and!; [by split_and!; [done..|rewrite <-E]|done|by left].
  - exists (SLASH :: k1 ++ "·"%rs).
    assert (Hc : contains "//"%rs (SLASH :: k1 ++ "·"%rs) = false).
    { apply (contains_prefix _ _ k2). cbn [app]. by rewrite <-app_assoc. }
    destruct (names_slash (k1 ++ "·"%rs) x Hc Hx) as [Ht Hn].
    assert (Hcan : canonical (SLASH :: k1 ++ "·"%rs)) by (by split_and!; [done..|rewrite Hn]).
    split_and!; [done..|]. right. split_and!; [done..|]. unfold leaf_marker.
    change (SLASH :: k1 ++ "·"%rs) with ((SLASH :: k1) ++ "·"%rs).
    by rewrite ends_with_slash_obj, andb_false_r.
Qed.

(** ** Making directories *)

Lemma make_dirs_reach t l p :
  wf_tree t → node_at t l = Some Dir → Forall proper p →
  (∀ q x, q `prefix_of` p → node_at t (l ++ q) ≠ Some (File x)) →
  node_at (make_dirs t l p).1 (l ++ p) = Some Dir.
Proof.
  revert t l. induction p as [|c p IH]; intros t l Hwf Hl Hp Hfree; [by rewrite app_nil_r|].
  apply Forall_cons in Hp as [Hc Hp]. cbn [make_dirs]. rewrite step_proper by done.
  rewrite (proj2 (dir_at_true t l) Hl). rewrite (app_assoc l [c] p : l ++ c :: p = (l ++ [c]) ++ p).
  assert (Hfree' : ∀ q x, q `prefix_of` p → node_at t ((l ++ [c]) ++ q) ≠ Some (File x)).
  { intros q x Hq. rewrite <-app_assoc. apply Hfree. by apply prefix_cons. }
  destruct (t !! (l ++ [c])) as [n|] eqn:E.
  - assert (Hn : node_at t (l ++ [c]) = Some Dir).
    { rewrite node_at_app, E. destruct n as [x|]; [|done].
      destruct (Hfree [c] x); [by exists p|by rewrite node_at_app]. }
    rewrite (proj2 (dir_at_true _ _) Hn). by apply IH.
  - apply IH; [by apply wf_insert_dir|rewrite node_at_app; apply lookup_insert_eq|done|].
    intros q x Hq. destruct (decide (q = [])) as [->|Hqn].
    + rewrite app_nil_r, node_at_app, lookup_insert_eq. done.
    + rewrite node_at_ne by (by destruct l). rewrite lookup_insert_ne.
      * rewrite (wf_nothing_below t (l ++ [c]) q Hwf); [done| |done]. by rewrite node_at_app, E.
      * intros H. apply Hqn. apply (app_inv_head (l ++ [c])). by rewrite app_nil_r.
Qed.

Lemma make_dirs_same t l p :
  wf_tree t → Forall proper p → node_at t (l ++ p) = Some Dir → make_dirs t l p = (t, true).
Proof.
  intros Hwf. revert l. induction p as [|c p IH]; intros l Hp Hd; [done|].
  apply Forall_cons in Hp as [Hc Hp]. cbn [make_dirs]. rewrite step_proper by done.
  assert (Hl : node_at t l = Some Dir) by (apply (wf_prefix t l (c :: p) Hwf); [by rewrite Hd|done]).
  rewrite (proj2 (dir_at_true _ _) Hl).
  rewrite (app_assoc l [c] p : l ++ c :: p = (l ++ [c]) ++ p) in Hd.
  assert (Hn : node_at t (l ++ [c]) = Some Dir).
  { destruct (decide (p = [])) as [->|Hne]; [by rewrite app_nil_r in Hd|].
    apply (wf_prefix t (l ++ [c]) p Hwf); [by rewrite Hd|done]. }
  pose proof Hn as Hx. rewrite node_at_app in Hx. rewrite Hx, (proj2 (dir_at_true _ _) Hn). by apply IH.
Qed.

Section writes.
Context (root : list (list Byte.byte)) (Hroot : Forall proper root) (pid : Z).
Abbreviation loc_of := (loc_of root).
Abbreviation leaf := (leaf root).
Abbreviation slot := (slot root).
Abbreviation space_tree := (space_tree root).

#[local] Hint Resolve loc_proper marker_proper : core.

(** What [FsKVSpace::new] and the calls establish: the root is there, and every directory below
    it was made for a key, so none has the name of a marker or of a temporary file. *)
Definition tidy t : Prop :=
  node_at t root = Some Dir ∧ ∀ d c, t !! (root ++ d ++ [c]) = Some Dir → key_name c.

(** A file where the way to [key] needs a directory. *)
Definition in_the_way t key (q : list str) : Prop := above q key ∧ ∃ x, node_at t (root ++ q) = Some (File x).

(** [set] puts up with a file at the parent of the key, and with no other. *)
Definition set_blocked t key : Prop := ∃ q, in_the_way t key q ∧ q ≠ names (parent_key key).
Definition dir_blocked t key : Prop := ∃ q, in_the_way t key q.

(** ** The directories stay tidy *)

Lemma tidy_same t t' :
  (∀ l, t' !! l = Some Dir ↔ t !! l = Some Dir) → tidy t → tidy t'.
Proof.
  intros H [Hr Hd]. split; [|by intros d c Hc%H; apply (Hd d)].
  destruct root as [|c r]; [done|]. by apply H.
Qed.

Lemma tidy_make t key : tidy t → canonical key → wf_tree t → tidy (make_dirs t [] (loc_of key)).1.
Proof.
  intros [Hr Hd] Hk Hwf. destruct (make_dirs_wf t [] (loc_of key) Hwf eq_refl) as [_ Hg].
  split; [by eapply grown_node|]. intros d c Hc.
  destruct (decide (root ++ d ++ [c] `prefix_of` loc_of key)) as [[r Hpre]|Hpre].
  - unfold FsLeaves.loc_of in Hpre. rewrite <-!app_assoc in Hpre. apply app_inv_head in Hpre.
    pose proof (names_of_key key Hk) as Hn. rewrite Hpre in Hn.
    apply Forall_app in Hn as [_ Hn]. by apply Forall_cons in Hn as [Hn _].
  - rewrite (make_dirs_below t [] (loc_of key)) in Hc by auto. by apply (Hd d).
Qed.

Lemma tidy_as_dir t key x :
  tidy t → canonical key → node_at t (loc_of key) = Some (File x) → tidy (as_dir (loc_of key) x t).
Proof.
  intros [Hr Hd] Hk Hx.
  assert (Hne : names key ≠ []).
  { intros En. unfold FsLeaves.loc_of in Hx. by rewrite En, app_nil_r, Hr in Hx. }
  assert (Hout : ∀ l, l ≠ loc_of key ++ [SELF_MARKER] → l ≠ loc_of key → as_dir (loc_of key) x t !! l = t !! l).
  { intros l H1 H2. by apply as_dir_other. }
  split.
  - destruct (decide (root = [])) as [->|Hrn]; [done|]. rewrite node_at_ne in * by done.
    rewrite Hout; [done| |]; unfold FsLeaves.loc_of.
    + rewrite <-app_assoc. intros E. rewrite <-(app_nil_r root) in E at 1. apply app_inv_head in E. by destruct (names key).
    + intros E. rewrite <-(app_nil_r root) in E at 1. apply app_inv_head in E. congruence.
  - intros d c. unfold as_dir. destruct (decide (root ++ d ++ [c] = loc_of key ++ [SELF_MARKER])) as [->|H1].
    { by rewrite lookup_insert_eq. }
    rewrite lookup_insert_ne by done. destruct (decide (root ++ d ++ [c] = loc_of key)) as [H2|H2].
    + intros _. unfold FsLeaves.loc_of in H2. apply app_inv_head in H2.
      pose proof (names_of_key key Hk) as Hn. rewrite <-H2 in Hn.
      apply Forall_app in Hn as [_ Hn]. by rewrite Forall_singleton in Hn.
    + rewrite lookup_insert_ne by done. apply Hd.
Qed.

Lemma tidy_ensure t key : tidy t → canonical key → space_tree t → tidy (ensure_dir_tree root t key).
Proof.
  intros Ht Hk [Hwf _]. rewrite ensure_dir_eq by done.
  destruct (node_at t (loc_of key)) as [[x|]|] eqn:E; [by apply tidy_as_dir|by apply tidy_make..].
Qed.

(** [ensure_dir] makes its key a directory, unless a file is in the way. *)
Lemma names_proper key : canonical key → Forall proper (names key).
Proof. by intros (_ & _ & ?). Qed.

Lemma node_above t key q x :
  wf_tree t → tidy t → q `prefix_of` loc_of key → node_at t q = Some (File x) →
  ∃ q', q = root ++ q' ∧ q' `prefix_of` names key.
Proof.
  intros Hwf [Hr _] Hq Hx. unfold FsLeaves.loc_of in Hq.
  destruct (prefix_weak_total q root (root ++ names key)) as [[r Hqr]|[r Hqr]]; [done|by eexists| |].
  - destruct (decide (r = [])) as [->|Hne].
    + rewrite app_nil_r in Hqr. subst q. congruence.
    + assert (node_at t q = Some Dir); [|congruence].
      apply (wf_prefix t q r Hwf); [|done]. by rewrite <-Hqr, Hr.
  - exists r. split; [done|]. rewrite Hqr in Hq. by apply prefix_app_inv in Hq.
Qed.

Lemma above_key_name key q : canonical key → above q key → Forall key_name q.
Proof. intros Hk [[r Hr] _]. pose proof (names_of_key key Hk) as H. rewrite Hr in H. by apply Forall_app in H as [? _]. Qed.

Lemma ensure_reach t key :
  space_tree t → tidy t → canonical key → ¬ dir_blocked t key →
  node_at (ensure_dir_tree root t key) (loc_of key) = Some Dir.
Proof.
  intros [Hwf _] Ht Hk Hb. rewrite ensure_dir_eq by done.
  destruct (node_at t (loc_of key)) as [n|] eqn:E.
  - destruct n as [x|].
    + assert (Hne : loc_of key ≠ []) by (intros En; by rewrite En in E).
      rewrite node_at_ne by done. unfold as_dir.
      rewrite lookup_insert_ne by (by apply app_not_self). apply lookup_insert_eq.
    + destruct (make_dirs_wf t [] (loc_of key) Hwf eq_refl) as [_ Hg]. by eapply grown_node.
  - apply (make_dirs_reach t [] (loc_of key)); [done..|by auto|]. cbn [app].
    intros q x Hq Hx. destruct (node_above t key q x) as (q' & -> & Hq'); [done..|].
    apply Hb. exists q'. split; [|by exists x]. split; [done|]. intros ->.
    fold (loc_of key) in Hx. congruence.
Qed.

Lemma ensure_file_old t key q x :
  wf_tree t → canonical key → Forall key_name q →
  node_at (ensure_dir_tree root t key) (root ++ q) = Some (File x) → node_at t (root ++ q) = Some (File x).
Proof.
  intros Hwf Hk Hq. rewrite ensure_dir_eq by done.
  assert (Hmk : node_at (make_dirs t [] (loc_of key)).1 (root ++ q) = Some (File x) →
    node_at t (root ++ q) = Some (File x)).
  { destruct (make_dirs_wf t [] (loc_of key) Hwf eq_refl) as [_ Hg]. intros H.
    destruct (decide (root ++ q = [])) as [E|Hne]; [by rewrite E in H|]. rewrite node_at_ne in * by done.
    by eapply grown_file. }
  destruct (node_at t (loc_of key)) as [[y|]|] eqn:E; [|done..]. clear Hmk. intros H.
  destruct (decide (root ++ q = [])) as [En|Hne]; [by rewrite En in H|].
  rewrite node_at_ne in H by done. unfold as_dir in H.
  assert (root ++ q ≠ loc_of key ++ [SELF_MARKER]).
  { unfold FsLeaves.loc_of. rewrite <-app_assoc. intros ->%app_inv_head.
    apply Forall_app in Hq as [_ Hq]. rewrite Forall_singleton in Hq. by destruct Hq. }
  rewrite lookup_insert_ne in H by done.
  destruct (decide (root ++ q = loc_of key)) as [E'|Hne']; [by rewrite E', lookup_insert_eq in H|].
  by rewrite node_at_ne, <-H, lookup_insert_ne.
Qed.

Lemma ensure_file_keeps t key q x :
  wf_tree t → canonical key → Forall key_name q → q ≠ names key →
  node_at t (root ++ q) = Some (File x) → node_at (ensure_dir_tree root t key) (root ++ q) = Some (File x).
Proof.
  intros Hwf Hk Hq Hne Hx. rewrite ensure_dir_eq by done.
  destruct (node_at t (loc_of key)) as [[y|]|] eqn:E.
  2,3: destruct (make_dirs_wf t [] (loc_of key) Hwf eq_refl) as [_ Hg]; by eapply grown_node.
  destruct (decide (root ++ q = [])) as [En|Hn]; [by rewrite En in Hx|]. rewrite node_at_ne in * by done.
  rewrite as_dir_other; [done| |].
  - unfold FsLeaves.loc_of. by intros ?%app_inv_head.
  - unfold FsLeaves.loc_of. rewrite <-app_assoc. intros ->%app_inv_head.
    apply Forall_app in Hq as [_ Hq]. rewrite Forall_singleton in Hq. by destruct Hq.
Qed.

(** ** Putting a file in place *)

(** [write_atomic] succeeds in a directory where neither the file nor the temporary file is one,
    and changes no directory. *)
Lemma write_atomic_ok s p d c v :
  wf_tree (tree s) → Forall proper d → proper c → in_dir (tree s) p d c →
  node_at (tree s) d = Some Dir → tree s !! (d ++ [c]) ≠ Some Dir →
  tree s !! (d ++ [tmp_name pid (tmp_seq s)]) ≠ Some Dir → c ≠ tmp_name pid (tmp_seq s) →
  ∃ s', write_atomic pid p v s = (Ok tt, s') ∧ ∀ l, tree s' !! l = Some Dir ↔ tree s !! l = Some Dir.
Proof.
  intros Hwf Hd Hc Hp Hdir Hnd Hnt Hct. unfold write_atomic.
  pose proof (tmp_proper pid (tmp_seq s)) as Hn. set (n := tmp_name pid (tmp_seq s)) in *.
  assert (Hdc : Forall proper (d ++ [c])) by (apply Forall_app; auto).
  assert (Ho : overwrite_body_in_place (tree s) p v = Ok None ∨
    ∃ x, overwrite_body_in_place (tree s) p v = Ok (Some (<[d ++ [c] := File x]> (tree s)))).
  { unfold overwrite_body_in_place. destruct (HeadLenPow.from_wire v) as [h|]; [|by left].
    rewrite (in_dir_read _ Hwf d Hd p c Hp), (in_dir_lookup _ Hwf d Hd p c Hp).
    destruct (tree s !! (d ++ [c])) as [[old|]|] eqn:E; [|done|].
    - assert (Hr : read_file (tree s) (d ++ [c]) = Ok old).
      { apply (read_file_names _ Hwf); [done|]. by rewrite node_at_app. }
      rewrite Hr, (lookup_names _ Hwf) by (rewrite ?node_at_app, ?E; done).
      destruct (negb _); [by left|]. destruct (_ || _); [by left|]. right. by eexists.
    - left. by rewrite (read_file_missing _ Hwf d c). }
  destruct Ho as [-> |[x ->]]; cbv iota.
  2: { eexists. split; [done|]. intros l. cbn [tree]. destruct (decide (d ++ [c] = l)) as [<-|Hl].
       - rewrite lookup_insert_eq. by split.
       - by rewrite lookup_insert_ne. }
  rewrite (in_dir_parent _ _ _ _ Hd Hc Hp). change (default [DOT] (Some d)) with d.
  set (t1 := <[d ++ [n] := File v]> (tree s)).
  assert (write_file (tree s) (d ++ [n]) v = Ok t1) as -> by (by apply (write_file_names _ Hwf)).
  assert (Hwf1 : wf_tree t1) by (by apply wf_insert_file).
  assert (Hcn : d ++ [c] ≠ d ++ [n]) by (by intros [_ ?]%app_inj_tail).
  assert (Hk : ∀ l, l ≠ d ++ [n] → node_at t1 l = node_at (tree s) l).
  { intros l Hl. destruct l as [|y l]; [done|]. cbn. by apply lookup_insert_ne. }
  assert (Hdir1 : node_at t1 d = Some Dir) by (rewrite Hk; [done|]; intros E; by eapply app_not_self).
  assert (Hp1 : in_dir t1 p d c) by (destruct Hp as [-> | [-> _]]; [by left|by right]).
  assert (E1 : read_file t1 (d ++ [n]) = Ok v).
  { apply (read_file_names t1 Hwf1); [apply Forall_app; auto|]. rewrite node_at_app. apply lookup_insert_eq. }
  assert (E2 : entry_at t1 (d ++ [n]) = Ok (d ++ [n])) by (by apply entry_at_names).
  assert (E3 : entry_at t1 (d ++ [c]) = Ok (d ++ [c])) by (by apply entry_at_names).
  assert (Hr : rename_file t1 (d ++ [n]) p = Ok (<[d ++ [c] := File v]> (delete (d ++ [n]) t1))).
  { unfold rename_file. rewrite (in_dir_entry t1 Hwf1 d Hd p c Hp1), E1, E2, E3. cbn [mbind res_bind].
    rewrite Hk, node_at_app by done. by destruct (tree s !! (d ++ [c])) as [[]|]. }
  rewrite Hr. eexists. split; [done|]. intros l. cbn [tree]. unfold t1.
  destruct (decide (d ++ [c] = l)) as [<-|Hl]; [rewrite lookup_insert_eq; by split|].
  rewrite lookup_insert_ne by done.
  destruct (decide (d ++ [n] = l)) as [<-|Hl2]; [rewrite lookup_delete_eq; by split|].
  by rewrite lookup_delete_ne, lookup_insert_ne.
Qed.

Lemma tmp_not_key seq : ¬ key_name (tmp_name pid seq).
Proof. intros (_ & _ & H). unfold tmp_name in H. by rewrite starts_with_app in H. Qed.

Lemma tidy_not_dir t d c : tidy t → ¬ key_name c → t !! (root ++ d ++ [c]) ≠ Some Dir.
Proof. intros [_ H] Hc E. by apply H in E. Qed.

(** A file of the space is put in place. *)
Lemma write_or_panic_ok s key p d c v :
  space_tree (tree s) → tidy (tree s) → Forall proper d → proper c →
  in_dir (tree s) p (root ++ d) c → node_at (tree s) (root ++ d) = Some Dir →
  tree s !! (root ++ d ++ [c]) ≠ Some Dir → starts_with TMP_PREFIX c = false →
  ∃ s', write_or_panic pid key p v s = (Ok tt, s') ∧ tidy (tree s').
Proof.
  intros [Hwf _] Ht Hd Hc Hp Hdir Hnd Htmp.
  assert (Hct : c ≠ tmp_name pid (tmp_seq s)).
  { intros ->. unfold tmp_name in Htmp. by rewrite starts_with_app in Htmp. }
  destruct (write_atomic_ok s p (root ++ d) c v) as (s' & Hw & Hdirs); try done.
  - by apply Forall_app.
  - by rewrite <-app_assoc.
  - rewrite <-app_assoc. apply tidy_not_dir; [done|apply tmp_not_key].
  - exists s'. unfold write_or_panic. rewrite Hw. split; [done|]. by eapply tidy_same.
Qed.

(** Where [write_leaf] can put the value of a key. *)
Definition ready t key : Prop :=
  node_at t (loc_of key) = Some Dir ∨
  (trailing key = false ∧ ∃ d c, names key = d ++ [c] ∧ node_at t (root ++ d) = Some Dir).

Lemma ensure_same t key : wf_tree t → canonical key → node_at t (loc_of key) = Some Dir →
  node_at (ensure_dir_tree root t key) (loc_of key) = Some Dir.
Proof.
  intros Hwf Hk Hn. rewrite ensure_dir_eq, Hn by done.
  destruct (make_dirs_wf t [] (loc_of key) Hwf eq_refl) as [_ Hg]. by eapply grown_node.
Qed.

Lemma write_leaf_ok s key v :
  space_tree (tree s) → tidy (tree s) → canonical key → ready (tree s) key →
  ∃ s', write_leaf root pid key v s = (Ok tt, s') ∧ tidy (tree s').
Proof.
  intros Hs Ht Hk Hr. unfold write_leaf.
  assert (Hpre : ∃ s1, (if negb (bool_decide (key = PATH_SEP)) && ends_with DIR_INDEX_SUF key
      then ensure_dir root key else mret tt) s = (Ok tt, s1) ∧
    space_tree (tree s1) ∧ tidy (tree s1) ∧ ready (tree s1) key).
  { destruct (negb _ && _) eqn:E; [|by exists s]. apply andb_true_iff in E as [_ E].
    destruct (ensure_dir_spec root Hroot (tree s) key Hk Hs) as [H1 _].
    exists (mkFs (ensure_dir_tree root (tree s) key) (tmp_seq s)). split_and!; [done..| |].
    - by apply tidy_ensure.
    - left. apply ensure_same; [apply Hs|done|]. destruct Hr as [?|[Htr _]]; [done|].
      by rewrite (ends_with_trailing key Hk E) in Htr. }
  destruct Hpre as (s1 & E1 & Hs1 & Ht1 & Hr1). rewrite stm_bind_eq, E1, bind_gets. pose proof Hs1 as [Hwf1 _].
  rewrite key_is_dir by done. destruct (dir_at (tree s1) (loc_of key)) eqn:Ed.
  - apply dir_at_true in Ed. apply (write_or_panic_ok s1 key _ (names key) (leaf_marker key) v); try done.
    + by apply names_proper.
    + by apply key_in_dir.
    + apply tidy_not_dir; [done|apply marker_not_name].
    + apply marker_not_tmp.
  - destruct Hr1 as [Hd|(Htr & d & c & Hn & Hd)]; [by apply dir_at_true in Hd; congruence|].
    assert (Hloc : loc_of key = (root ++ d) ++ [c]) by (unfold FsLeaves.loc_of; by rewrite Hn, app_assoc).
    pose proof (names_proper key Hk) as Hpr. rewrite Hn in Hpr. apply Forall_app in Hpr as [Hpd Hpc].
    rewrite Forall_singleton in Hpc. pose proof (names_of_key key Hk) as Hkn. rewrite Hn in Hkn.
    apply Forall_app in Hkn as [_ Hkn]. rewrite Forall_singleton in Hkn. destruct Hkn as (_ & _ & Hkn).
    assert (Hprd : Forall proper (root ++ d)) by (by apply Forall_app).
    pose proof (fs_path_loc root key) as Hpath. rewrite Htr, app_nil_r in Hpath. rewrite bind_modify, Hpath.
    assert (parent_path (loc_of key) = Some (root ++ d)) as ->.
    { rewrite Hloc. apply (in_dir_parent (tree s1) _ (root ++ d) c); [done..|by left]. }
    unfold create_dir_all. rewrite (make_dirs_same (tree s1) []) by done. cbn [fst].
    apply (write_or_panic_ok (mkFs (tree s1) (tmp_seq s1)) key _ d c v); cbn [tree]; try done.
    + left. by rewrite <-Hloc.
    + unfold dir_at in Ed. apply bool_decide_eq_false in Ed. by rewrite Hloc, node_at_app, <-app_assoc in Ed.
Qed.

(** ** What is in the way stops the write *)

Lemma write_atomic_no_dir s p d c v :
  wf_tree (tree s) → Forall proper d → proper c → p = d ++ [c] ∨ p = (d ++ [c]) ++ [[]] →
  node_at (tree s) d ≠ Some Dir →
  ∃ e s', write_atomic pid p v s = (Err e, s') ∧ tree s' = tree s.
Proof.
  intros Hwf Hd Hc Hp Hn. assert (Hdc : Forall proper (d ++ [c])) by (apply Forall_app; auto).
  assert (Hread : ∀ x, read_file (tree s) p ≠ Ok x).
  { intros x Hx. destruct Hp as [-> | ->]; [|by apply read_file_trailing in Hx].
    apply (read_file_names _ Hwf) in Hx; [|done]. apply Hn. apply (wf_prefix _ d [c] Hwf); [by rewrite Hx|done]. }
  assert (Hpar : parent_path p = Some d).
  { destruct Hp as [-> | ->]; [apply (in_dir_parent (tree s) _ d c); [done..|by left]|].
    unfold parent_path, normal. rewrite filter_app. change (filter _ [[]]) with ([] : list (list byte)).
    rewrite app_nil_r. apply (in_dir_parent (tree s) (d ++ [c]) d c); [done..|by left]. }
  unfold write_atomic.
  assert (Ho : overwrite_body_in_place (tree s) p v = Ok None ∨ ∃ e, overwrite_body_in_place (tree s) p v = Err e).
  { unfold overwrite_body_in_place. destruct (HeadLenPow.from_wire v); [|by left].
    destruct (read_file (tree s) p) as [x|[]|e] eqn:E; [by destruct (Hread x)|by left|by right; eexists..]. }
  destruct Ho as [-> |[e ->]]; cbv iota; [|by eexists _, _].
  rewrite Hpar. change (default [DOT] (Some d)) with d.
  destruct (write_file (tree s) (d ++ [tmp_name pid (tmp_seq s)]) v) as [t'|e|e] eqn:E;
    [|by eexists _, _..].
  apply (write_file_names _ Hwf) in E as (Hdir & _); [done..|apply tmp_proper].
Qed.

Lemma write_leaf_blocked s key v q x :
  space_tree (tree s) → canonical key → above q key → node_at (tree s) (root ++ q) = Some (File x) →
  ∃ s', write_leaf root pid key v s = (Panic (FsWrite key), s') ∧ grown (tree s) (tree s') ∧ wf_tree (tree s').
Proof.
  intros Hs Hk [[r Hr] Hne] Hx. pose proof Hs as [Hwf _].
  assert (Hrne : r ≠ []) by (intros ->; rewrite app_nil_r in Hr; congruence).
  assert (Hloc : loc_of key = (root ++ q) ++ r) by (unfold FsLeaves.loc_of; by rewrite Hr, app_assoc).
  assert (Hno : ∀ t, wf_tree t → grown (tree s) t → ∀ l, l ≠ [] → node_at t ((root ++ q) ++ l) = None).
  { intros t Hwft Hg l Hl. rewrite node_at_ne by (by destruct l; destruct (root ++ q)).
    apply (wf_nothing_below t (root ++ q) l Hwft); [|done]. by rewrite (grown_node _ _ _ _ Hg Hx). }
  unfold write_leaf.
  assert (Hpre : ∃ s1, (if negb (bool_decide (key = PATH_SEP)) && ends_with DIR_INDEX_SUF key
      then ensure_dir root key else mret tt) s = (Ok tt, s1) ∧ grown (tree s) (tree s1) ∧ wf_tree (tree s1)).
  { destruct (_ && _); [|by exists s]. exists (mkFs (ensure_dir_tree root (tree s) key) (tmp_seq s)).
    split; [done|]. cbn [tree]. rewrite ensure_dir_eq by done.
    rewrite Hloc, (Hno (tree s)) by done.
    by destruct (make_dirs_wf (tree s) [] ((root ++ q) ++ r) Hwf eq_refl). }
  destruct Hpre as (s1 & E1 & Hg1 & Hwf1). rewrite stm_bind_eq, E1, bind_gets, key_is_dir by done.
  assert (dir_at (tree s1) (loc_of key) = false) as ->.
  { unfold dir_at. apply bool_decide_eq_false. by rewrite Hloc, (Hno (tree s1)). }
  destruct (exists_last Hrne) as (r' & c & ->). rewrite app_assoc in Hloc. set (d := (root ++ q) ++ r') in *.
  pose proof (loc_proper root Hroot key Hk) as Hpr. rewrite Hloc in Hpr. apply Forall_app in Hpr as [Hd Hc].
  rewrite Forall_singleton in Hc.
  assert (Hp : fs_path root key = d ++ [c] ∨ fs_path root key = (d ++ [c]) ++ [[]]).
  { rewrite fs_path_loc, Hloc. destruct (trailing key); [by right|left; by rewrite app_nil_r]. }
  rewrite bind_modify. set (s2 := match parent_path _ with Some _ => _ | None => _ end).
  assert (Hg2 : grown (tree s) (tree s2) ∧ wf_tree (tree s2)).
  { unfold s2. destruct (parent_path _) as [p|]; [|done]. cbn [tree].
    destruct (make_dirs_wf (tree s1) [] p Hwf1 eq_refl) as [Hwf2 Hg]. split; [by etrans|done]. }
  destruct Hg2 as [Hg2 Hwf2].
  assert (Hnd : node_at (tree s2) d ≠ Some Dir).
  { unfold d. destruct (decide (r' = [])) as [->|Hr'].
    - rewrite app_nil_r, (grown_node _ _ _ _ Hg2 Hx). done.
    - by rewrite (Hno (tree s2)). }
  destruct (write_atomic_no_dir s2 (fs_path root key) d c v Hwf2 Hd Hc Hp Hnd) as (e & s3 & Hw & Ht3).
  exists s3. unfold write_or_panic. rewrite Hw, Ht3. done.
Qed.

(** ** One write of [set] *)

Lemma fs_put_ok s key raw :
  space_tree (tree s) → tidy (tree s) → canonical key → ¬ set_blocked (tree s) key →
  ∃ s', fs_put root pid key raw s = (Ok tt, s') ∧ tidy (tree s').
Proof.
  intros Hs Ht Hk Hb. pose proof (canonical_parent key Hk) as Hpk. fold (parent_key key) in Hpk.
  destruct (parent_names key Hk) as [[rest Hrest] Hplain].
  assert (Habove : ∀ q, above q (parent_key key) → above q key ∧ q ≠ names (parent_key key)).
  { intros q [[w Hw] Hne]. split; [|done]. split; [exists (w ++ rest); by rewrite Hrest, Hw, app_assoc|].
    intros ->. rewrite Hrest, <-app_assoc in Hw. apply (f_equal length) in Hw. rewrite !length_app in Hw.
    destruct rest; [|cbn in Hw; lia]. rewrite app_nil_r in Hrest. congruence. }
  unfold fs_put, ensure_dir. rewrite bind_modify. fold (parent_key key).
  set (t1 := ensure_dir_tree root (tree s) (parent_key key)).
  assert (Hd1 : node_at t1 (loc_of (parent_key key)) = Some Dir).
  { apply ensure_reach; [done..|]. intros (q & Hq & Hx). destruct (Habove q Hq) as [H1 H2].
    apply Hb. by exists q. }
  destruct (ensure_dir_spec root Hroot (tree s) (parent_key key) Hpk Hs) as [Hs1 _]. fold t1 in Hs1.
  assert (Ht1 : tidy t1) by (by apply tidy_ensure).
  destruct (is_dir key) eqn:Ed.
  - rewrite bind_modify. cbn [tree tmp_seq].
    destruct (ensure_dir_spec root Hroot t1 key Hk Hs1) as [Hs2 _].
    apply write_leaf_ok; [done|by apply tidy_ensure|done|]. left.
    apply ensure_reach; [done..|]. intros (q & Hq & x & Hx).
    destruct (decide (q = names (parent_key key))) as [->|Hne].
    + unfold FsLeaves.loc_of in Hd1. congruence.
    + apply Hb. exists q. split; [|done]. split; [done|]. exists x.
      apply (ensure_file_old _ (parent_key key)); [apply Hs|done| |done]. exact (above_key_name key q Hk Hq).
  - destruct (Hplain eq_refl) as [Htr (c & Hc)].
    apply write_leaf_ok; [done..|]. right. split; [done|]. by exists (names (parent_key key)), c.
Qed.

Lemma fs_put_blocked s key raw :
  space_tree (tree s) → canonical key → set_blocked (tree s) key →
  ∃ s', fs_put root pid key raw s = (Panic (FsWrite key), s') ∧ space_tree (tree s') ∧
    ∀ k, canonical k → leaf (tree s') k = leaf (tree s) k.
Proof.
  intros Hs Hk (q & [Hq [x Hx]] & Hne). pose proof (canonical_parent key Hk) as Hpk. fold (parent_key key) in Hpk.
  pose proof (above_key_name key q Hk Hq) as Hkn.
  unfold fs_put, ensure_dir. rewrite bind_modify. fold (parent_key key).
  set (t1 := ensure_dir_tree root (tree s) (parent_key key)).
  destruct (ensure_dir_spec root Hroot (tree s) (parent_key key) Hpk Hs) as [Hs1 Hl1]. fold t1 in Hs1, Hl1.
  assert (Hx1 : node_at t1 (root ++ q) = Some (File x)) by (apply ensure_file_keeps; [apply Hs|done..]).
  assert (Hend : ∀ t2 seq, space_tree t2 → node_at t2 (root ++ q) = Some (File x) →
    (∀ k, canonical k → leaf t2 k = leaf (tree s) k) →
    ∃ s', write_leaf root pid key raw (mkFs t2 seq) = (Panic (FsWrite key), s') ∧ space_tree (tree s') ∧
      ∀ k, canonical k → leaf (tree s') k = leaf (tree s) k).
  { intros t2 seq Hs2 Hx2 Hl2. destruct (write_leaf_blocked (mkFs t2 seq) key raw q x) as (s' & Hw & Hg & Hwf'); [done..|].
    exists s'. split_and!; [done|by eapply space_grown|]. intros k Hk'.
    rewrite <-Hl2 by done. apply leaf_grown; [apply Hs2|done]. }
  destruct (is_dir key); [|by apply Hend].
  rewrite bind_modify. cbn [tree tmp_seq]. destruct (ensure_dir_spec root Hroot t1 key Hk Hs1) as [Hs2 Hl2].
  apply Hend; [done| |intros k Hk'; by rewrite Hl2, Hl1].
  apply ensure_file_keeps; [apply Hs1|done..| |done]. by destruct Hq.
Qed.

(** ** In terms of the values *)

(** Something else is stored at the node of [k] or below it: the node is a directory. *)
Definition holds_more (m : gmap str bytes) k : Prop :=
  ¬ map_Forall (λ k' _, ¬ (canonical k' ∧ k' ≠ k ∧ names k `prefix_of` names k')) m.
#[export] Instance holds_more_dec m k : Decision (holds_more m k).
Proof. unfold holds_more. apply _. Defined.

(** No key strictly above [key] has a value and nothing else below it, but for the key of the
    directory [key] is in. *)
Definition set_room (m : gmap str bytes) key : Prop :=
  map_Forall (λ k _, canonical k → trailing k = false → above (names k) key →
                     names k = names (parent_key key) ∨ holds_more m k) m.
Definition dir_room (m : gmap str bytes) key : Prop :=
  map_Forall (λ k _, canonical k → trailing k = false → above (names k) key → holds_more m k) m.

#[export] Instance set_room_dec m key : Decision (set_room m key).
Proof. unfold set_room. apply _. Defined.
#[export] Instance dir_room_dec m key : Decision (dir_room m key).
Proof. unfold dir_room. apply _. Defined.

(** A file in the way is the value of a key that has nothing else below it. *)
Lemma in_the_way_value t (m : gmap str bytes) key q :
  space_tree t → (∀ k, canonical k → leaf t k = m !! k) → canonical key → in_the_way t key q →
  ∃ k x, canonical k ∧ trailing k = false ∧ names k = q ∧ m !! k = Some x ∧ ¬ holds_more m k.
Proof.
  intros [Hwf Hc] Hm Hk [Hq [x Hx]]. destruct (names_above key q Hk Hq) as (k & Hck & <- & Hcase).
  fold (loc_of k) in Hx. destruct Hcase as [Ht|Hcon]; [|by destruct (Hc k x Hcon)].
  assert (Hl : leaf t k = Some x) by (unfold FsLeaves.leaf; by rewrite Hx, Ht).
  exists k, x. split_and!; [done..|by rewrite <-Hm|]. intros Hmore. apply Hmore.
  intros k' v Hv (Hck' & Hne & [r Hr]). rewrite <-Hm in Hv by done. unfold FsLeaves.leaf in Hv.
  assert (Hloc : loc_of k' = loc_of k ++ r) by (unfold FsLeaves.loc_of; by rewrite Hr, app_assoc).
  destruct (decide (r = [])) as [->|Hrne].
  - rewrite app_nil_r in *. rewrite Hloc, Hx in Hv.
    rewrite (same_node root k k') in Hv; [done|done|done|done|done|by apply not_eq_sym].
  - assert (node_at t (loc_of k) = Some Dir); [|congruence].
    apply (wf_prefix t (loc_of k) r Hwf); [|done]. rewrite <-Hloc. by destruct (node_at t (loc_of k')).
Qed.

Lemma set_room_free t (m : gmap str bytes) key :
  space_tree t → (∀ k, canonical k → leaf t k = m !! k) → canonical key → set_room m key →
  ¬ set_blocked t key.
Proof.
  intros Hs Hm Hk Hroom (q & Hq & Hne).
  destruct (in_the_way_value t m key q Hs Hm Hk Hq) as (k & x & Hck & Ht & <- & Hl & Hmore).
  by destruct (Hroom k x Hl Hck Ht (proj1 Hq)).
Qed.

Lemma dir_room_free t (m : gmap str bytes) key :
  space_tree t → (∀ k, canonical k → leaf t k = m !! k) → canonical key → dir_room m key →
  ¬ dir_blocked t key.
Proof.
  intros Hs Hm Hk Hroom (q & Hq).
  destruct (in_the_way_value t m key q Hs Hm Hk Hq) as (k & x & Hck & Ht & <- & Hl & Hmore).
  apply Hmore, (Hroom k x Hl Hck Ht (proj1 Hq)).
Qed.

(** ** Removing *)

Lemma tidy_remove t key : tidy t → canonical key → wf_tree t → tidy (remove_leaf_tree root t key).
Proof.
  intros Ht Hk Hwf. rewrite (remove_leaf_eq root Hroot) by done. destruct (_ || _); [|done].
  destruct (t !! slot t key) as [[x|]|] eqn:E; [|done..]. eapply tidy_same; [|exact Ht].
  intros l. destruct (decide (slot t key = l)) as [<-|Hne].
  - rewrite lookup_delete_eq, E. by split.
  - by rewrite lookup_delete_ne.
Qed.
End writes.
