(* ===== verification/FsRefines.v ===== *)
(** * The directory space as a map

    The refinement: on canonical keys the methods of [src/src/fs/kvspace.rs] act on the tree as
    the operations of a map from keys to values. *)

From S2P Require Import Prelude RustInt RustStr RustText HeadLenPow KPath Coord XValue SigV4 Dsn Store Backend KVSpace FsTree FsWalk FsSpace FsWf FsNames FsLeaves FsLaws FsWrites.
Local Open Scope Z_scope.
Implicit Types (t : fstree) (key k path : str) (m : gmap str bytes).

Section refines.
Context (root : list (list Byte.byte)) (Hroot : Forall proper root) (pid : Z).

(** The tree holds the map: a canonical key reads as its value. *)
Definition represents (s : fsstate) m : Prop :=
  space_tree root (tree s) ∧ ∀ k, canonical k → read_leaf root (tree s) k = m !! k.

Lemma represents_leaf s m :
  represents s m ↔ space_tree root (tree s) ∧ ∀ k, canonical k → leaf root (tree s) k = m !! k.
Proof.
  split; intros [Hs H]; pose proof Hs as [Hwf _]; (split; [done|]); intros k Hk.
  - by rewrite <-read_leaf_spec, H.
  - by rewrite read_leaf_spec, H.
Qed.

Lemma represents_ensure s m key seq :
  canonical key → represents s m → represents (mkFs (ensure_dir_tree root (tree s) key) seq) m.
Proof.
  rewrite !represents_leaf. intros Hk [Hs H]. destruct (ensure_dir_spec root Hroot (tree s) key Hk Hs) as [H1 H2].
  split; [done|]. intros k Hk'. cbn [tree]. by rewrite H2, H.
Qed.

Lemma represents_write s s' m key v :
  canonical key → represents s m → write_leaf root pid key v s = (Ok tt, s') → represents s' (<[key := v]> m).
Proof.
  rewrite !represents_leaf. intros Hk [Hs H] Hw.
  apply (write_leaf_spec root Hroot pid) in Hw as [H1 H2]; [|done..].
  split; [done|]. intros k Hk'. rewrite H2 by done. destruct (decide (k = key)) as [->|Hne].
  - by rewrite lookup_insert_eq.
  - rewrite lookup_insert_ne by done. by apply H.
Qed.

Lemma represents_remove s m key seq :
  canonical key → represents s m → represents (mkFs (remove_leaf_tree root (tree s) key) seq) (delete key m).
Proof.
  rewrite !represents_leaf. intros Hk [Hs H]. destruct (remove_leaf_spec root Hroot (tree s) key Hk Hs) as [H1 H2].
  split; [done|]. intros k Hk'. cbn [tree]. rewrite H2 by done. destruct (decide (k = key)) as [->|Hne].
  - by rewrite lookup_delete_eq.
  - rewrite lookup_delete_ne by done. by apply H.
Qed.

(** ** The methods *)

Lemma represents_put s s' m key raw :
  canonical key → represents s m → fs_put root pid key raw s = (Ok tt, s') → represents s' (<[key := raw]> m).
Proof.
  intros Hk Hm. unfold fs_put, ensure_dir. rewrite bind_modify.
  pose proof (represents_ensure s m (split_index key).1.1 (tmp_seq s) (canonical_parent key Hk) Hm) as H1.
  destruct (is_dir key).
  - rewrite bind_modify. apply represents_write; [done|]. by apply (represents_ensure (mkFs _ _)).
  - by apply represents_write.
Qed.

(** One write of [set], both ways. *)
Lemma put_succeeds s m key raw :
  canonical key → represents s m → tidy root (tree s) → ¬ set_blocked root (tree s) key →
  ∃ s', fs_put root pid key raw s = (Ok tt, s') ∧ represents s' (<[key := raw]> m) ∧ tidy root (tree s').
Proof.
  intros Hk Hm Ht Hb. destruct (fs_put_ok root Hroot pid s key raw (proj1 Hm) Ht Hk Hb) as (s' & Hp & Ht').
  exists s'. split_and!; [done| |done]. by eapply represents_put.
Qed.

Lemma put_blocked s m key raw :
  canonical key → represents s m → set_blocked root (tree s) key →
  ∃ s', fs_put root pid key raw s = (Panic (FsWrite key), s') ∧ represents s' m.
Proof.
  rewrite represents_leaf. intros Hk [Hs Hm] Hb.
  destruct (fs_put_blocked root Hroot pid s key raw Hs Hk Hb) as (s' & Hp & Hs' & Hl).
  exists s'. split; [done|]. apply represents_leaf. split; [done|]. intros k Hk'. by rewrite Hl, Hm.
Qed.

Lemma room_free s m key :
  canonical key → represents s m → (set_room m key → ¬ set_blocked root (tree s) key) ∧
                                   (dir_room m key → ¬ dir_blocked root (tree s) key).
Proof.
  rewrite represents_leaf. intros Hk [Hs Hm].
  split; intros; by eapply set_room_free || by eapply dir_room_free.
Qed.

(** [mkindex] after its path has been resolved. *)
Definition index_map m key (w : bytes) : gmap str bytes := match m !! key with Some _ => m | None => <[key := w]> m end.

Lemma mkindex_steps path capacity s m :
  let key := fs_resolve_path root (tree s) path in
  is_dir path = true → canonical key → represents s m →
  ∃ w, HeadLenPow.to_wire [] "lib"%rs = Some w ∧
    fs_mkindex root pid path capacity s =
      (match m !! key with Some _ => mret tt | None => write_leaf root pid key w end)
        (mkFs (ensure_dir_tree root (tree s) key) (tmp_seq s)).
Proof.
  intros key Hd Hk Hm. unfold fs_mkindex, ensure_dir. rewrite bind_err_if, Hd. cbn [negb].
  rewrite bind_gets, bind_modify, bind_gets. fold key. cbn [tree].
  pose proof (represents_ensure s m key (tmp_seq s) Hk Hm) as H1.
  rewrite (proj2 H1 key Hk : read_leaf root (ensure_dir_tree root (tree s) key) key = m !! key).
  destruct (HeadLenPow.to_wire [] "lib"%rs) as [w|] eqn:Ew; [|by vm_compute in Ew].
  exists w. split; [done|]. destruct (m !! key); [done|]. cbn [ok_or]. by rewrite bind_lift_ok.
Qed.

Lemma mkindex_succeeds path capacity s m w :
  let key := fs_resolve_path root (tree s) path in
  is_dir path = true → canonical key → represents s m → tidy root (tree s) → ¬ dir_blocked root (tree s) key →
  HeadLenPow.to_wire [] "lib"%rs = Some w →
  ∃ s', fs_mkindex root pid path capacity s = (Ok tt, s') ∧ represents s' (index_map m key w) ∧ tidy root (tree s').
Proof.
  intros key Hd Hk Hm Ht Hb Hw. destruct (mkindex_steps path capacity s m Hd Hk Hm) as (w' & Hw' & ->).
  fold key. assert (w' = w) as -> by congruence.
  set (s1 := mkFs (ensure_dir_tree root (tree s) key) (tmp_seq s)).
  pose proof (represents_ensure s m key (tmp_seq s) Hk Hm) as H1. fold s1 in H1.
  assert (Ht1 : tidy root (tree s1)) by (apply tidy_ensure; [done..|apply Hm]).
  unfold index_map. destruct (m !! key); [by exists s1|].
  destruct (write_leaf_ok root Hroot pid s1 key w (proj1 H1) Ht1 Hk) as (s' & Hwr & Ht').
  { left. by apply ensure_reach; [|apply Hm|..]. }
  exists s'. split_and!; [done| |done]. by eapply represents_write.
Qed.

Lemma mkindex_blocked path capacity s m :
  let key := fs_resolve_path root (tree s) path in
  is_dir path = true → canonical key → represents s m → dir_blocked root (tree s) key →
  ∃ s', fs_mkindex root pid path capacity s = (Panic (FsWrite key), s') ∧ represents s' m.
Proof.
  intros key Hd Hk Hm (q & Hq & x & Hx). destruct (mkindex_steps path capacity s m Hd Hk Hm) as (w & _ & ->).
  fold key. set (s1 := mkFs (ensure_dir_tree root (tree s) key) (tmp_seq s)).
  pose proof Hm as [[Hwf _] _]. pose proof (represents_ensure s m key (tmp_seq s) Hk Hm) as H1. fold s1 in H1.
  assert (Hnone : m !! key = None).
  { apply represents_leaf in Hm as [_ Hm]. rewrite <-Hm by done. unfold leaf.
    destruct Hq as [[r Hr] Hne]. assert (r ≠ []) by (intros ->; rewrite app_nil_r in Hr; congruence).
    unfold loc_of. rewrite Hr, app_assoc, node_at_ne by (by destruct r; destruct (root ++ q)).
    by rewrite (wf_nothing_below (tree s) (root ++ q)) by (rewrite ?Hx; done). }
  rewrite Hnone.
  assert (Hx1 : node_at (tree s1) (root ++ q) = Some (File x)).
  { apply ensure_file_keeps; [done..|by eapply above_key_name| |done]. by destruct Hq. }
  destruct (write_leaf_blocked root Hroot pid s1 key w q x (proj1 H1) Hk Hq Hx1) as (s' & Hw & Hg & Hwf').
  exists s'. split; [done|]. apply represents_leaf in H1 as [Hs1 H1]. apply represents_leaf.
  split; [by eapply space_grown|]. intros k Hk'. rewrite <-H1 by done. apply leaf_grown; [apply Hs1|done].
Qed.

Lemma get_raw_plain t key p l v :
  is_reserved key = false → is_dir key = false → parent_dir key = (p, l) →
  fs_resolve_path root t p = p → join_path p l = key → read_leaf root t key = Some v →
  fs_get_raw root t key = v.
Proof.
  intros Hr Hd Hp Hres Hj Hv. unfold fs_get_raw, fs_locate. rewrite Hr, Hd, Hp, Hres, Hj, Hr, Hv. done.
Qed.

Lemma join_parent_dir key p l : abs_path key → parent_dir key = (p, l) → join_path p l = key.
Proof.
  intros Habs H. destruct (parent_dir_spec key p l Habs H) as (-> & _ & He). unfold join_path.
  case_decide as E; [by rewrite E|]. by rewrite (He : ends_with PATH_SEP p = true).
Qed.
End refines.

(** C31. Under canonical keys the directory space acts as a map from keys to wire values, as far as
    its writes go through, and when they do is exact.  In a state that represents a map, with the
    root there and no foreign directory under a marker's or a temporary name: a round of [set]
    whose checks fail changes nothing; one whose checks pass succeeds, and represents the map with
    that key set and every other value untouched, unless some directory above the key other than
    its parent is a file, in which case it panics and the map is as before, and for that a value,
    with nothing else below it, must be stored at such an ancestor; [del] of an unreserved key
    succeeds and removes that key only; [mkindex] of a directory path succeeds unless any directory
    above is a file (and then panics, changing no value), keeps every value and stores the empty
    index where there was none; and a stored value is what [get_raw] returns, whole, for an
    unreserved key that is no directory and whose own directory is no link. *)
Theorem fs_refines_map root pid s m :
  Forall proper root → represents root s m → tidy root (tree s) →
  (∀ pair e, fs_set_plan root (tree s) pair = Err e → fs_set_one root pid pair s = (Err e, s)) ∧
  (∀ pair key raw, fs_set_plan root (tree s) pair = Ok (key, raw) → canonical key →
     (¬ set_blocked root (tree s) key → ∃ s', fs_set_one root pid pair s = (Ok tt, s') ∧
        represents root s' (<[key := raw]> m) ∧ tidy root (tree s')) ∧
     (set_blocked root (tree s) key → ∃ s', fs_set_one root pid pair s = (Panic (FsWrite key), s') ∧
        represents root s' m) ∧
     (set_room m key → ¬ set_blocked root (tree s) key)) ∧
  (∀ k, let key := fs_resolve_parent root (tree s) k in
     is_reserved k = false → is_reserved key = false → canonical key →
     ∃ s', fs_del_one root k s = (Ok tt, s') ∧ represents root s' (delete key m) ∧ tidy root (tree s')) ∧
  (∀ path capacity, let key := fs_resolve_path root (tree s) path in
     is_dir path = true → canonical key →
     ∃ w, HeadLenPow.to_wire [] "lib"%rs = Some w ∧
       (¬ dir_blocked root (tree s) key → ∃ s', fs_mkindex root pid path capacity s = (Ok tt, s') ∧
          represents root s' (index_map m key w) ∧ tidy root (tree s')) ∧
       (dir_blocked root (tree s) key → ∃ s', fs_mkindex root pid path capacity s = (Panic (FsWrite key), s') ∧
          represents root s' m) ∧
       (dir_room m key → ¬ dir_blocked root (tree s) key)) ∧
  (∀ k v, canonical k → is_reserved k = false → is_dir k = false →
     fs_resolve_path root (tree s) (parent_dir k).1 = (parent_dir k).1 →
     m !! k = Some v → fs_get_raw root (tree s) k = v).
Proof.
  intros Hroot Hm Ht. split_and!.
  - intros pair e He. unfold fs_set_one. by rewrite stm_bind_eq, He.
  - intros pair key raw Hp Hk. unfold fs_set_one. rewrite stm_bind_eq, Hp. cbn [fst snd]. split_and!.
    + by apply put_succeeds.
    + by apply put_blocked.
    + by apply room_free.
  - intros k key Hr1 Hr2 Hk. unfold fs_del_one, remove_leaf. rewrite bind_err_if, Hr1, bind_gets, bind_err_if.
    fold key. rewrite Hr2. eexists. split; [done|]. split; [by apply represents_remove|].
    apply tidy_remove; [done..|apply Hm].
  - intros path capacity key Hd Hk. destruct (mkindex_steps root Hroot pid path capacity s m Hd Hk Hm) as (w & Hw & _).
    exists w. split_and!; [done| | |by apply room_free].
    + intros Hb. by apply mkindex_succeeds.
    + by apply mkindex_blocked.
  - intros k v Hk Hr Hd Hres Hv. destruct (parent_dir k) as [p l] eqn:Ep. cbn [fst] in Hres.
    eapply get_raw_plain; [done..|exact (join_parent_dir _ _ _ (canonical_abs _ Hk) Ep)|]. by rewrite (proj2 Hm).
Qed.

(** ** A space that represents a map *)

Lemma represents_new root t :
  Forall proper root → wf_tree t → node_at t root = Some Dir → (∀ l, root `prefix_of` l → l ≠ root → t !! l = None) →
  represents root (mkFs t 0) ∅.
Proof.
  intros Hroot Hwf Hdir Hnone. apply represents_leaf; [done|].
  assert (Hn : ∀ k, canonical k → node_at t (loc_of root k) = if decide (names k = []) then Some Dir else None).
  { intros k Hk. unfold loc_of. case_decide as E; [by rewrite E, app_nil_r|].
    rewrite node_at_ne by (by intros [_ ?]%app_nil). apply Hnone; [by eexists|].
    intros E'. rewrite <-(app_nil_r root) in E' at 2. by apply app_inv_head in E'. }
  split; [split; [done|]|].
  - intros k d (Hk & _). cbn [tree]. rewrite Hn by done. by case_decide.
  - intros k Hk. cbn [tree]. unfold leaf. rewrite Hn, lookup_empty by done. case_decide as E; [|done].
    unfold file_at, loc_of. rewrite E, app_nil_r, Hnone; [done|by eexists|apply app_not_self].
Qed.

Lemma ex_represents : represents ex_root ex_empty ∅.
Proof.
  apply represents_new; [by repeat constructor|..].
  - apply wf_ex_empty.
  - done.
  - intros l [q ->] Hne. cbn [ex_empty tree]. destruct q as [|c q]; [by rewrite app_nil_r in Hne|].
    by rewrite !lookup_insert_ne, lookup_empty.
Qed.

Lemma tidy_new root t :
  node_at t root = Some Dir → (∀ l, root `prefix_of` l → l ≠ root → t !! l = None) → tidy root t.
Proof.
  intros Hr Hn. split; [done|]. intros d c. rewrite Hn; [done|by eexists|].
  intros E. rewrite <-(app_nil_r root) in E at 2. apply app_inv_head in E. by destruct d.
Qed.

Lemma ex_tidy : tidy ex_root (tree ex_empty).
Proof.
  apply tidy_new; [done|]. intros l [q ->] Hne. cbn [ex_empty tree].
  destruct q as [|c q]; [by rewrite app_nil_r in Hne|]. by rewrite !lookup_insert_ne, lookup_empty.
Qed.

(** A value at ["/a"], and one below it: the file turns into a directory and keeps its value. *)
Definition ex_pair_a : KVPair := ex_pair "/a"%rs "1"%rs.
Definition ex_pair_ab : KVPair := ex_pair "/a/b"%rs "2"%rs.
Definition ex_state_a : fsstate := (fs_set_one ex_root 7 ex_pair_a ex_empty).2.

Lemma fs_refines_map_witness :
  ∃ s', fs_set_one ex_root 7 ex_pair_ab ex_state_a = (Ok tt, s') ∧
    represents ex_root s' (<["/a/b"%rs := ex_wire "2"%rs]> (<["/a"%rs := ex_wire "1"%rs]> ∅)) ∧
    tidy ex_root (tree s').
Proof.
  assert (Hroot : Forall proper ex_root) by (by repeat constructor).
  destruct (fs_refines_map ex_root 7 ex_empty ∅ Hroot ex_represents ex_tidy) as (_ & Hset & _).
  destruct (Hset ex_pair_a "/a"%rs (ex_wire "1"%rs)) as (Hok & _ & Hroom);
    [vm_compute; reflexivity|by decided|].
  destruct (Hok (Hroom ltac:(by decided))) as (s1 & Hs1 & Hm1 & Ht1).
  assert (s1 = ex_state_a) as -> by (unfold ex_state_a; by rewrite Hs1).
  destruct (fs_refines_map ex_root 7 ex_state_a _ Hroot Hm1 Ht1) as (_ & Hset' & _).
  destruct (Hset' ex_pair_ab "/a/b"%rs (ex_wire "2"%rs)) as (Hok' & _ & Hroom');
    [vm_compute; reflexivity|by decided|].
  exact (Hok' (Hroom' ltac:(by decided))).
Defined.
