(* ===== verification/FsBackend.v ===== *)
(** * The directory space against [Backend]: [src/src/fs/kvspace.rs] and [src/src/backend.rs]

    The two implementations of [KVSpace] side by side.  A tree read key by key is a store, and the
    checks and the link resolution of the directory space are those of [Backend] over it; on a
    tree that represents a map, [set], [cp], [mkindex], [del], [get] and [get_raw] do what [Backend] does
    over the map, as long as the keys [Backend] reads are canonical. *)

From S2P Require Import Prelude RustInt RustStr RustText HeadLenPow KPath Coord XValue Store Remote Backend BackendRead Client BackendClient KVSpace FsTree FsWalk FsSpace FsWf FsNames FsLeaves FsLaws FsWrites FsRefines.
Local Open Scope Z_scope.
Implicit Types (t : fstree) (key k path prefix src dst : str) (m : gmap str bytes).

Section fsbackend.
Context (root : list (list Byte.byte)) (Hroot : Forall proper root) (pid : Z).

(** ** A tree as a store to read from *)

#[local] Instance leaf_store : KVStore fstree := {|
  kv_get t k := read_leaf root t k;
  kv_get_many := default_get_many (λ t k, read_leaf root t k);
  kv_set _ _ t := t;
  kv_del _ t := t;
  kv_scan_keys _ _ := [];
  kv_exists := default_exists (λ t k, read_leaf root t k);
  kv_get_part := default_get_part (λ t k, read_leaf root t k);
  kv_set_part _ _ _ t := t;
  kv_flush t := t;
|}.

Lemma fs_resolve_path_leaf t path : fs_resolve_path root t path = resolve_path t path.
Proof.
  unfold fs_resolve_path, resolve_path. generalize 16%nat. intros n. revert path.
  induction n as [|n IH]; intros path; [done|]. cbn [fs_resolve_loop resolve_loop].
  change (fs_resolve_one root t path) with (resolve_one t path).
  destruct (resolve_one t path) as [resolved []]; [apply IH|done].
Qed.

Lemma fs_resolve_parent_leaf t path : fs_resolve_parent root t path = resolve_parent t path.
Proof.
  unfold fs_resolve_parent, resolve_parent. cbv zeta. destruct (sep_path _) as [parent last].
  by rewrite fs_resolve_path_leaf.
Qed.

Lemma fs_prefix_ext_leaf t prefix : fs_prefix_ext root t prefix = prefix_ext t prefix.
Proof. done. Qed.

Lemma leaf_present t key : present t key = negb (bool_decide (read_leaf root t key = None)).
Proof. unfold present. cbn. by destruct (read_leaf root t key). Qed.

Lemma fs_set_plan_leaf t pair : fs_set_plan root t pair = set_plan t pair.
Proof.
  unfold fs_set_plan, set_plan. rewrite fs_resolve_parent_leaf. cbv zeta.
  set (key := resolve_parent t _). clearbody key. rewrite !leaf_present, !negb_involutive. done.
Qed.

Lemma fs_get_raw_leaf t key : is_dir key = false → fs_get_raw root t key = get_raw t key.
Proof.
  intros Hd. unfold fs_get_raw, get_raw, fs_locate, locate. rewrite Hd. destruct (is_reserved key); [done|].
  unfold parent_dir. destruct (sep_path key) as [p l]. cbv zeta. rewrite fs_resolve_path_leaf.
  set (dir := resolve_path t _). clearbody dir. destruct (is_reserved _); [done|].
  change (kv_get t ?k) with (read_leaf root t k). destruct (read_leaf root t _); [done|].
  rewrite fs_prefix_ext_leaf. by destruct (prefix_ext t dir).
Qed.

(** ** From the tree to the map *)

(** The call reads canonical keys only. *)
Definition reading_op (o : kvop) : bool :=
  match o with
  | OGet k | OExists k => bool_decide (canonical k)
  | OGetMany ks => forallb (λ k, bool_decide (canonical k)) ks
  | _ => false
  end.

(** The program reads canonical keys of the map, and writes nothing. *)
Definition reads_canonical {A : Type} (p : prog A) m : bool := check (λ _, reading_op) p m.

Lemma same_reply s m o :
  represents root s m → reading_op o = true →
  (pure_op o (tree s)).1 = (pure_op o m).1 ∧ (pure_op o (tree s)).2 = tree s ∧ (pure_op o m).2 = m.
Proof.
  intros [_ Hm]. destruct o as [k|ks|k v|ks|q|k|k off len|k off buf|]; cbn [reading_op]; try done.
  - intros Hk%bool_decide_eq_true. cbn. by rewrite Hm.
  - intros Hks. cbn. split_and!; [|done..]. f_equal. unfold default_get_many.
    rewrite forallb_forall in Hks. apply list_fmap_ext. intros i k Hi. apply Hm.
    specialize (Hks k (proj1 (list_elem_of_In _ _) (list_elem_of_lookup_2 _ _ _ Hi))).
    by apply bool_decide_eq_true in Hks.
  - intros Hk%bool_decide_eq_true. cbn. unfold default_exists. by rewrite Hm.
Qed.

Lemma same_run {A : Type} (p : prog A) s m :
  represents root s m → reads_canonical p m = true →
  ∃ r, runs p m r m ∧ runs p (tree s) r (tree s).
Proof.
  intros Hm. unfold reads_canonical. induction p as [r|o k IH]; intros Hc.
  - exists r. split; constructor.
  - assert (Ho : reading_op o = true ∧ check (λ _, reading_op) (k (pure_op o m).1) (pure_op o m).2 = true)
      by (destruct o; cbn [check] in Hc; try done; by apply andb_true_iff in Hc as [? ?]).
    destruct Ho as [Ho Hk]. destruct (same_reply s m o Hm Ho) as (E1 & E2 & E3).
    rewrite E3 in Hk. destruct (IH _ Hk) as (r & Hr1 & Hr2). exists r. split.
    + apply (runs_call o k m (pure_op o m).1); [done|]. by rewrite E3.
    + apply (runs_call o k (tree s) (pure_op o m).1); [by rewrite E1|]. by rewrite E2.
Qed.

(** A method that reads gives the same on both. *)
Lemma acts_same {A : Type} (p : prog A) (f : fstree → res kverr A) (g : mem → res kverr A) s m :
  represents root s m → reads_canonical p m = true →
  acts p (λ t, (f t, t)) → acts p (λ m, (g m, m)) → f (tree s) = g m.
Proof.
  intros Hm Hc Hf Hg. destruct (same_run p s m Hm Hc) as (r & Hr1 & Hr2).
  apply Hf in Hr2. apply Hg in Hr1. congruence.
Qed.

Lemma reads_same {A : Type} (p : prog A) (f : fstree → A) (g : mem → A) s m :
  represents root s m → reads_canonical p m = true → reads p f → reads p g → f (tree s) = g m.
Proof.
  intros Hm Hc Hf Hg. destruct (same_run p s m Hm Hc) as (r & Hr1 & Hr2).
  apply Hf in Hr2. apply Hg in Hr1. unfold gets in *. congruence.
Qed.

(** ** The writes *)

(** The directory space does what [g] does on the map.  Without [room] for the keys that are
    written, and only then, it may panic because the file system refused a write. *)
Definition follows (room : bool) (f : stm fsstate kverr unit) (g : stm mem kverr unit) s m : Prop :=
  match f s with
  | (Panic e, _) => (g m).1 = Panic e ∨ (room = false ∧ ∃ key, e = FsWrite key)
  | (r, s') => (g m).1 = r ∧ represents root s' (g m).2 ∧ tidy root (tree s')
  end.

Abbreviation refused := (λ e, ∃ key, e = FsWrite key).

Lemma refused_write key v : fails (λ _, False) refused (write_leaf root pid key v).
Proof.
  unfold write_leaf, ensure_dir. fails_steps; intros s; unfold write_or_panic;
    destruct (write_atomic _ _ _ s) as [[]]; cbn; eauto.
Qed.

Lemma refused_put key raw : fails (λ _, False) refused (fs_put root pid key raw).
Proof. unfold fs_put, ensure_dir. fails_steps. apply refused_write. Qed.

(** A check equal on both sides, then writes. *)
Lemma follows_bind {A} (room : bool) (plan_t : fstree → res kverr A) (plan_m : mem → res kverr A)
    (f : A → stm fsstate kverr unit) (g : A → stm mem kverr unit) s m :
  represents root s m → tidy root (tree s) → plan_t (tree s) = plan_m m →
  (∀ a, plan_m m = Ok a → follows room (f a) (g a) s m) →
  follows room ((λ s, (plan_t (tree s), s)) ≫= f) ((λ m, (plan_m m, m)) ≫= g) s m.
Proof.
  intros Hm Ht Hp Hf. unfold follows. rewrite !stm_bind_eq, Hp.
  destruct (plan_m m) as [a|e|e] eqn:E; [by apply Hf|by split|by left].
Qed.

Lemma follows_put key raw s m :
  canonical key → represents root s m → tidy root (tree s) →
  follows (bool_decide (set_room m key)) (fs_put root pid key raw) (modify (kv_set key raw)) s m.
Proof.
  intros Hk Hm Ht. unfold follows. pose proof (refused_put key raw s) as Hr.
  destruct (fs_put root pid key raw s) as [[[]|e|e] s'] eqn:E; [|done|].
  - destruct (put_succeeds root Hroot pid s m key raw Hk Hm Ht) as (s2 & E2 & Hm' & Ht').
    { intros Hb. destruct (put_blocked root Hroot pid s m key raw Hk Hm Hb) as (? & E2 & _). congruence. }
    assert (s2 = s') as -> by congruence. done.
  - right. split; [|exact Hr]. apply bool_decide_eq_false. intros Hroom.
    destruct (put_succeeds root Hroot pid s m key raw Hk Hm Ht) as (s2 & E2 & _); [by eapply room_free|congruence].
Qed.

(** What a round of [set] needs of the keys. *)
Definition set_canonical (pair : KVPair) m : bool :=
  reads_canonical (b_set_plan pair) m &&
  match set_plan m pair with Ok (key, _) => bool_decide (canonical key) | _ => true end.

Lemma set_plan_same pair s m :
  represents root s m → reads_canonical (b_set_plan pair) m = true →
  fs_set_plan root (tree s) pair = set_plan m pair.
Proof.
  intros Hm Hc. rewrite fs_set_plan_leaf.
  apply (acts_same (b_set_plan pair) (λ t, set_plan t pair) (λ m, set_plan m pair) s m Hm Hc);
    apply acts_set_plan.
Qed.

(** There is room for the key of a round, and for those of a batch. *)
Definition pair_room (pair : KVPair) m : bool :=
  match set_plan m pair with Ok (key, _) => bool_decide (set_room m key) | _ => true end.

Fixpoint batch_room (pairs : list KVPair) m : bool :=
  match pairs with
  | [] => true
  | p :: pairs => pair_room p m &&
      match (set_one p m).1 with Ok _ => batch_room pairs (set_one p m).2 | _ => true end
  end.

Lemma follows_set_one pair s m :
  represents root s m → tidy root (tree s) → set_canonical pair m = true →
  follows (pair_room pair m) (fs_set_one root pid pair) (set_one pair) s m.
Proof.
  intros Hm Ht [Hc Hk]%andb_true_iff. unfold pair_room.
  apply (follows_bind _ (λ t, fs_set_plan root t pair) (λ m, set_plan m pair)); [done..|by apply set_plan_same|].
  intros [key raw] E. rewrite E in *. apply bool_decide_eq_true in Hk. by apply follows_put.
Qed.

Fixpoint batch_canonical (pairs : list KVPair) m : bool :=
  match pairs with
  | [] => true
  | p :: pairs => set_canonical p m && batch_canonical pairs (set_one p m).2
  end.

Lemma follows_set pairs s m :
  represents root s m → tidy root (tree s) → batch_canonical pairs m = true →
  follows (batch_room pairs m) (fs_set root pid pairs) (set pairs) s m.
Proof.
  revert s m. induction pairs as [|p pairs IH]; intros s m Hm Ht Hc; [by split|].
  apply andb_true_iff in Hc as [Hc Hcs]. pose proof (follows_set_one p s m Hm Ht Hc) as H1.
  cbn [batch_room]. unfold follows in *. unfold fs_set, set. cbn [for_each]. rewrite !stm_bind_eq.
  destruct (fs_set_one root pid p s) as [[[]|e|e] s1], (set_one p m) as [r1 m1]; cbn [fst snd] in *.
  - destruct H1 as (-> & Hm1 & Ht1). destruct (pair_room p m); cbn [andb]; [by apply IH|].
    specialize (IH s1 m1 Hm1 Ht1 Hcs). fold (fs_set root pid pairs) (set pairs).
    destruct (fs_set root pid pairs s1) as [[[]|e|e] s2]; [done|done|].
    destruct IH as [?|[_ ?]]; [by left|by right].
  - by destruct H1 as (-> & ? & ?).
  - destruct H1 as [-> | [-> H1]]; [by left|by right].
Qed.

(** [get_raw] of a key that is no directory, and [cp]. *)
Lemma get_raw_same key s m :
  represents root s m → is_dir key = false → reads_canonical (b_get_raw key) m = true →
  fs_get_raw root (tree s) key = get_raw m key.
Proof.
  intros Hm Hd Hc. rewrite fs_get_raw_leaf by done.
  apply (reads_same (b_get_raw key) (λ t, get_raw t key) (λ m, get_raw m key) s m Hm Hc); apply reads_get_raw.
Qed.

Definition copy_pair m src dst : KVPair := mkPair dst (XValue.from_wire (get_raw m src)) (Some (get_raw m src)).

Lemma follows_cp src dst s m :
  represents root s m → tidy root (tree s) → is_dir src = false →
  reads_canonical (b_get_raw src) m = true → set_canonical (copy_pair m src dst) m = true →
  follows (batch_room [copy_pair m src dst] m) (fs_cp root pid src dst) (cp src dst) s m.
Proof.
  intros Hm Ht Hd Hr Hc. unfold follows, fs_cp, cp. rewrite !bind_err_if. destruct (_ || _); [by split|].
  rewrite !bind_gets, (get_raw_same src s m) by done. rewrite !bind_err_if.
  destruct (bool_decide _); [by split|]. apply (follows_set [copy_pair m src dst]); [done..|].
  cbn [batch_canonical]. by rewrite Hc.
Qed.

(** [get]: the keys it reads under the resolved directory and its extension. *)
Definition get_canonical (dir : str) (keys : list str) m : Prop :=
  canonical dir ∧ ∀ k, k ∈ keys →
    canonical (join_path dir k) ∧ (prefix_ext m dir ≠ [] → canonical (join_path (prefix_ext m dir) k)).

Lemma resolve_path_same path s m :
  represents root s m → reads_canonical (b_resolve_path path) m = true →
  fs_resolve_path root (tree s) path = resolve_path m path.
Proof.
  intros Hm Hc. rewrite fs_resolve_path_leaf.
  apply (reads_same (b_resolve_path path) (λ t, resolve_path t path) (λ m, resolve_path m path) s m Hm Hc);
    apply reads_resolve_path.
Qed.

Lemma get_same prefix keys (resolve : bool) s m :
  represents root s m → (resolve = true → reads_canonical (b_resolve_path prefix) m = true) →
  get_canonical (if resolve then resolve_path m prefix else prefix) keys m →
  fs_get root (tree s) prefix keys resolve = get m prefix keys resolve.
Proof.
  intros Hm Hr [Hd Hk]. rewrite get_eq. unfold fs_get. destruct (assert_dir prefix) as [[]|e|e]; [|done..].
  cbn [mbind res_bind].
  assert (Hp : (if resolve then fs_resolve_path root (tree s) prefix else prefix) =
    if resolve then resolve_path m prefix else prefix) by (destruct resolve; [by apply resolve_path_same; auto|done]).
  rewrite Hp. set (dir := if resolve then resolve_path m prefix else prefix) in *. f_equal.
  assert (Hx : fs_prefix_ext root (tree s) dir = prefix_ext m dir).
  { unfold fs_prefix_ext, prefix_ext. rewrite (proj2 Hm dir Hd). done. }
  rewrite Hx. apply list_fmap_ext. intros i k Hi. apply list_elem_of_lookup_2, Hk in Hi as [H1 H2].
  unfold read_key, get_dir. cbv zeta. change (kv_get m ?k) with (m !! k).
  rewrite (proj2 Hm _ H1). destruct (is_reserved _); [done|]. destruct (is_dir _); [by destruct (m !! _)|].
  destruct (m !! join_path dir k); [done|]. destruct (prefix_ext m dir) as [|c e]; [done|].
  by rewrite (proj2 Hm _ (H2 ltac:(done))).
Qed.

(** [mkindex]. *)
Lemma follows_mkindex path capacity s m :
  represents root s m → tidy root (tree s) → reads_canonical (b_resolve_path path) m = true →
  canonical (resolve_path m path) →
  follows (bool_decide (dir_room m (resolve_path m path))) (fs_mkindex root pid path capacity)
    (mkindex path capacity) s m.
Proof.
  intros Hm Ht Hc Hk. pose proof (resolve_path_same path s m Hm Hc) as Hres.
  unfold follows. destruct (is_dir path) eqn:Hd.
  2: { unfold fs_mkindex, mkindex. rewrite !bind_err_if, Hd. by split. }
  rewrite <-Hres in *. set (key := fs_resolve_path root (tree s) path) in *.
  destruct (mkindex_steps root Hroot pid path capacity s m Hd Hk Hm) as (w & Ew & Hsteps). fold key in Hsteps.
  assert (Hg : mkindex path capacity m = (Ok tt, index_map m key w)).
  { unfold mkindex. rewrite bind_err_if, Hd. cbn [negb]. rewrite bind_gets, <-Hres, Ew. cbn [ok_or].
    rewrite bind_lift_ok, bind_gets. unfold present, index_map. change (kv_get m key) with (m !! key).
    by destruct (m !! key). }
  rewrite Hg. cbn [fst snd].
  assert (Hr : match (fs_mkindex root pid path capacity s).1 with Ok _ => True | Err _ => False | Panic e => refused e end).
  { rewrite Hsteps. destruct (m !! key); [done|]. apply refused_write. }
  destruct (fs_mkindex root pid path capacity s) as [[[]|e|e] s'] eqn:E; [| |].
  - destruct (mkindex_succeeds root Hroot pid path capacity s m w Hd Hk Hm Ht) as (s2 & E2 & Hm' & Ht'); [|done|].
    { intros Hb. destruct (mkindex_blocked root Hroot pid path capacity s m Hd Hk Hm Hb) as (? & E2 & _). congruence. }
    assert (s2 = s') as -> by congruence. done.
  - done.
  - right. split; [|exact Hr]. apply bool_decide_eq_false. intros Hroom.
    destruct (mkindex_succeeds root Hroot pid path capacity s m w Hd Hk Hm Ht) as (s2 & E2 & _); [|done|congruence].
    by eapply room_free.
Qed.

(** [del] of a key that is no directory and not only in the extension. *)
Lemma follows_del_one k s m :
  let key := resolve_parent m k in
  represents root s m → tidy root (tree s) → reads_canonical (b_resolve_parent k) m = true →
  canonical key → is_dir key = false → del_plan m k ≠ Err (ExtDel key) →
  follows true (fs_del_one root k) (del_one k) s m.
Proof.
  intros key Hm Ht Hc Hk Hd He.
  assert (Hres : fs_resolve_parent root (tree s) k = key).
  { rewrite fs_resolve_parent_leaf.
    apply (reads_same (b_resolve_parent k) (λ t, resolve_parent t k) (λ m, resolve_parent m k) s m Hm Hc);
      apply reads_resolve_parent. }
  assert (Hdel : del_one k m = match del_plan m k with
                               | Ok ks => (Ok tt, kv_del ks m)
                               | Err e => (Err e, m)
                               | Panic e => (Panic e, m)
                               end) by (unfold del_one; rewrite stm_bind_eq; by destruct (del_plan m k)).
  unfold follows, fs_del_one. rewrite Hdel, bind_err_if. clear Hdel. revert He. unfold del_plan.
  destruct (is_reserved k); [by split|]. cbn [bail_if mbind res_bind]. fold key.
  rewrite bind_gets, bind_err_if, Hres. destruct (is_reserved key); [by split|]. cbn [bail_if mbind res_bind].
  cbv zeta. destruct (_ && _ && _); [done|]. intros _. cbn [bail_if mbind res_bind]. rewrite Hd.
  split; [done|]. split; [apply (represents_remove root Hroot s m key (tmp_seq s) Hk Hm)|].
  apply tidy_remove; [done..|apply Hm].
Qed.
End fsbackend.

(** ** The property *)

(** C32. The directory space and [Backend] agree.  On a tidy tree that represents a map, when the
    keys that [Backend] reads on that map are canonical: [get], and [get_raw] of a key that is no
    directory, return the same values; [set] of a batch, [cp] of a source that is no directory and
    [mkindex] return what [Backend] returns, errors included, and leave a tidy tree that represents
    the map [Backend] leaves, a batch that stops half-way too; so does [del] of a key that is no
    directory, unless the key is only in the extension, which [Backend] refuses
    ([del_in_the_extension]).  The one other outcome is a panic because the file system refused the
    write of a key, and only where there is no room: where a value, with nothing else stored
    below it, is at a strict ancestor of a key to be written, other than the parent directory of a
    key that is set. *)
Theorem fs_agrees_with_backend root pid s m :
  Forall proper root → represents root s m → tidy root (tree s) →
  (∀ key, is_dir key = false → reads_canonical (b_get_raw key) m = true →
     fs_get_raw root (tree s) key = get_raw m key) ∧
  (∀ prefix keys resolve, (resolve = true → reads_canonical (b_resolve_path prefix) m = true) →
     get_canonical (if resolve : bool then resolve_path m prefix else prefix) keys m →
     fs_get root (tree s) prefix keys resolve = get m prefix keys resolve) ∧
  (∀ pairs, batch_canonical pairs m = true →
     follows root (batch_room pairs m) (fs_set root pid pairs) (set pairs) s m) ∧
  (∀ src dst, is_dir src = false → reads_canonical (b_get_raw src) m = true →
     set_canonical (copy_pair m src dst) m = true →
     follows root (batch_room [copy_pair m src dst] m) (fs_cp root pid src dst) (cp src dst) s m) ∧
  (∀ path capacity, reads_canonical (b_resolve_path path) m = true → canonical (resolve_path m path) →
     follows root (bool_decide (dir_room m (resolve_path m path))) (fs_mkindex root pid path capacity)
       (mkindex path capacity) s m) ∧
  (∀ k, let key := resolve_parent m k in
     reads_canonical (b_resolve_parent k) m = true → canonical key → is_dir key = false →
     del_plan m k ≠ Err (ExtDel key) → follows root true (fs_del_one root k) (del_one k) s m).
Proof.
  intros Hroot Hm Ht. split_and!.
  - intros. by apply get_raw_same.
  - intros. by apply get_same.
  - intros. by apply follows_set.
  - intros. by apply follows_cp.
  - intros. by apply follows_mkindex.
  - intros k key Hc Hk Hd He. by apply follows_del_one.
Qed.

(** Three values set on an empty tree, the second below the first, and one copied below the
    second: both sides do the same. *)
Definition three_pairs : list KVPair :=
  [ex_pair "/a"%rs "1"%rs; ex_pair "/a/b"%rs "2"%rs; ex_pair "/a/b/c"%rs "3"%rs].

Lemma fs_agrees_with_backend_witness :
  represents ex_root ex_empty ∅ ∧
  let s' := (fs_set ex_root 7 three_pairs ex_empty).2 in
  (fs_set ex_root 7 three_pairs ex_empty).1 = Ok tt ∧ represents ex_root s' (set three_pairs ∅).2.
Proof.
  pose proof ex_represents as Hm. split; [done|]. cbv zeta.
  assert (Hroot : Forall proper ex_root) by (by repeat constructor).
  destruct (fs_agrees_with_backend ex_root 7 ex_empty ∅ Hroot Hm ex_tidy) as (_ & _ & Hset & _).
  specialize (Hset three_pairs ltac:(vm_compute; reflexivity)).
  assert (batch_room three_pairs (∅ : mem) = true) as Hroom by (vm_compute; reflexivity).
  assert ((set three_pairs (∅ : mem)).1 = Ok tt) as Hok by (vm_compute; reflexivity).
  rewrite Hroom in Hset. unfold follows in Hset. rewrite Hok in Hset.
  destruct (fs_set ex_root 7 three_pairs ex_empty) as [[r|e|e] s'].
  - destruct Hset as (Hr & Hs & _). split; [by injection Hr as <-|exact Hs].
  - destruct Hset as [Hr _]. discriminate Hr.
  - destruct Hset as [Hs|[Hs _]]; discriminate Hs.
Defined.

(** Without room: [Backend] sets the key, the directory space panics. *)
Example no_room_no_write :
  let pairs := [ex_pair "/a"%rs "1"%rs; ex_pair "/a/b/c"%rs "2"%rs] in
  batch_room pairs (∅ : mem) = false ∧ (set pairs (∅ : mem)).1 = Ok tt ∧
  (fs_set ex_root 7 pairs ex_empty).1 = Panic (FsWrite "/a/b/c"%rs).
Proof. cbv zeta. split_and!; vm_compute; reflexivity. Qed.

(** ** Where they differ *)

(** A value that is only in the extension: [Backend] refuses to delete it, the directory space
    returns [Ok] and leaves it. *)
Definition ext_pairs : list KVPair := [ex_pair "/e/x"%rs "1"%rs].
Definition ext_setup_fs : fsstate :=
  ((fs_set ex_root 7 ext_pairs;; fs_mkindex ex_root 7 "/e/"%rs 0;; fs_ext_index ex_root 7 "/d/"%rs "/e/"%rs) ex_empty).2.
Definition ext_setup : mem :=
  ((set ext_pairs;; mkindex "/e/"%rs 0;; ext_index "/d/"%rs "/e/"%rs) (∅ : mem)).2.

Example del_in_the_extension :
  fs_get_raw ex_root (tree ext_setup_fs) "/d/x"%rs = ex_wire "1"%rs ∧
  get_raw ext_setup "/d/x"%rs = ex_wire "1"%rs ∧
  (fs_del ex_root ["/d/x"%rs] ext_setup_fs).1 = Ok tt ∧
  (del ["/d/x"%rs] ext_setup).1 = Err (ExtDel "/d/x"%rs).
Proof. split_and!; vm_compute; reflexivity. Qed.
