(* ===== verification/FsParts.v ===== *)
(** * Part writes of the directory space against [Backend]

    [set_part] of [src/src/fs/kvspace.rs] writes into the file of the value with [write_at],
    without a temporary file; [set_part] of [src/src/backend.rs] asks the store to do it.  On a
    tree that represents a map both do the same. *)

From S2P Require Import Prelude RustInt RustStr RustText HeadLenPow KPath Coord XValue Store Remote Backend BackendWrite Client BackendClient KVSpace FsTree FsWalk FsSpace FsWf FsBounds FsNames FsLeaves FsLaws FsWrites FsRefines FsBackend.
Local Open Scope Z_scope.
Implicit Types (t : fstree) (key k path : str) (m : gmap str bytes).

Section parts.
Context (root : list (list Byte.byte)) (Hroot : Forall proper root).

Abbreviation loc_of := (loc_of root).
Abbreviation leaf := (leaf root).
Abbreviation slot := (slot root).

#[local] Hint Resolve loc_proper marker_proper : core.

(** ** The file of a value *)

(** [f] is the path of the file that holds [d], the value of [key]. *)
Definition leaf_path t key (f : ospath) (d : bytes) : Prop :=
  leaf_file root t key = Some f ∧ read_file t f = Ok d ∧ lookup_path t f = Ok (slot t key) ∧
  t !! slot t key = Some (File d) ∧ (dir_at t (loc_of key) = true ∨ trailing key = false).

Lemma is_file_read t p : path_is_file t p = match read_file t p with Ok _ => true | _ => false end.
Proof.
  unfold path_is_file, stat, read_file. destruct (lookup_path t p); [|done..]. cbn.
  by destruct (node_at t _) as [[]|].
Qed.

Lemma slot_proper t key : canonical key → Forall proper (slot t key).
Proof. intros Hk. unfold FsLeaves.slot. destruct (dir_at _ _); [apply Forall_app|]; auto. Qed.

Lemma leaf_slot t key d :
  leaf t key = Some d →
  t !! slot t key = Some (File d) ∧ (dir_at t (loc_of key) = true ∨ trailing key = false).
Proof.
  unfold FsLeaves.leaf, FsLeaves.slot, file_at. destruct (node_at t (loc_of key)) as [[x|]|] eqn:En; [| |done].
  - destruct (trailing key) eqn:Et; [done|]. intros [= ->].
    assert (dir_at t (loc_of key) = false) as Hd by (unfold dir_at; by rewrite En).
    rewrite Hd. split; [|by right]. destruct (loc_of key); [done|exact En].
  - assert (dir_at t (loc_of key) = true) as Hd by (by apply dir_at_true).
    rewrite Hd. destruct (t !! _) as [[x|]|] eqn:E; [|done..]. intros [= ->]. split; [done|by left].
Qed.

Lemma leaf_file_spec t key :
  wf_tree t → canonical key →
  match leaf t key with Some d => ∃ f, leaf_path t key f d | None => leaf_file root t key = None end.
Proof.
  intros Hwf Hk. pose proof (read_leaf_spec root Hroot t key Hwf Hk) as Hr.
  destruct (leaf t key) as [d|] eqn:El.
  - destruct (leaf_slot t key d El) as [Hs Hc].
    assert (Hl : lookup_path t (slot t key) = Ok (slot t key)).
    { apply lookup_names; [done|by apply slot_proper|]. rewrite node_at_ne; [by rewrite Hs|].
      intros E. rewrite E in Hs. by rewrite (proj1 Hwf) in Hs. }
    set (f := if dir_at t (loc_of key) then fs_path root key ++ [leaf_marker key] else fs_path root key).
    assert (Hf : ok_of (read_file t f) = Some d).
    { rewrite <-Hr. unfold read_leaf, f. pose proof Hk as (_ & -> & _). rewrite key_is_dir by done.
      by destruct (dir_at _ _). }
    exists f. unfold leaf_path, leaf_file. pose proof Hk as (_ & -> & _). rewrite key_is_dir by done. cbv zeta.
    fold f. rewrite is_file_read. destruct (read_file t f) as [x|e|e] eqn:Er; [|done..].
    injection Hf as ->. split_and!; [done..| |done|done].
    rewrite <-Hl. unfold f, FsLeaves.slot. destruct (dir_at t (loc_of key)) eqn:Ed.
    + apply in_dir_lookup; auto. apply key_in_dir. by apply dir_at_true in Ed.
    + destruct Hc as [|Ht]; [done|]. by rewrite fs_path_loc, Ht, app_nil_r.
  - revert Hr. unfold read_leaf, leaf_file. pose proof Hk as (_ & -> & _). cbv zeta.
    destruct (path_is_dir _ _); rewrite is_file_read; by destruct (read_file _ _).
Qed.

(** ** One write *)

Lemma part_represents s m key f d off (buf : bytes) :
  represents root s m → tidy root (tree s) → canonical key → leaf_path (tree s) key f d →
  (Z.to_nat off <= length d)%nat →
  let s' := mkFs (write_part f off buf (tree s)) (tmp_seq s) in
  represents root s' (<[key := splice (Z.to_nat off) buf d]> m) ∧ tidy root (tree s').
Proof.
  intros Hm Ht Hk (_ & _ & Hl & Hs & Hc) Hoff s'. apply represents_leaf in Hm as [Hsp Hm]; [|done].
  pose proof Hsp as [Hwf _]. pose proof (wf_write_part f off buf (tree s) Hwf) as Hwf'.
  assert (Hne : slot (tree s) key ≠ []) by (intros E; by rewrite E, (proj1 Hwf) in Hs).
  assert (Ht' : tree s' = <[slot (tree s) key := File (splice (Z.to_nat off) buf d)]> (tree s)).
  { cbn [s' tree]. rewrite (write_part_file _ _ (slot (tree s) key) d), write_at_inside;
      rewrite ?node_at_ne by done; done. }
  assert (Hput : put_at root (slot (tree s) key) (splice (Z.to_nat off) buf d) (tree s) (tree s'))
    by (intros l _; by rewrite Ht').
  split.
  - apply represents_leaf; [done|]. split; [by eapply space_put|]. intros k Hk'.
    rewrite (leaf_put root (tree s) (tree s') key _ k Hk Hk' Hc Hput). case_decide as E; [subst k|].
    + by rewrite lookup_insert_eq.
    + rewrite lookup_insert_ne by done. by apply Hm.
  - apply (tidy_same root Hroot (tree s)); [|done]. intros l. rewrite Ht'.
    destruct (decide (l = slot (tree s) key)) as [->|Hn]; [|by rewrite lookup_insert_ne].
    rewrite lookup_insert_eq, Hs. by split.
Qed.
(** ** Where the part goes *)

(** The keys [Backend] reads to find the place of the value are canonical. *)
Definition part_canonical key m : Prop :=
  reads_canonical (b_locate key) m = true ∧ get_canonical (locate m key).1 [(locate m key).2] m.

Lemma locate_same key s m :
  represents root s m → reads_canonical (b_locate key) m = true → fs_locate root (tree s) key = locate m key.
Proof.
  intros Hm Hc. transitivity (@locate fstree (leaf_store root) (tree s) key).
  - unfold fs_locate, parent_dir, locate. destruct (sep_path key) as [p l]. by rewrite fs_resolve_path_leaf.
  - apply (reads_same root (b_locate key) (λ t, @locate fstree (leaf_store root) t key) (λ m, locate m key) s m Hm Hc);
      apply reads_locate.
Qed.

Lemma part_target s m key :
  represents root s m → part_canonical key m →
  match set_part_target m key with
  | Ok target => ∃ f d, canonical target ∧ m !! target = Some d ∧
      physical_file root (tree s) key = Some f ∧ leaf_path (tree s) target f d
  | Err _ => physical_file root (tree s) key = None
  | Panic _ => False
  end.
Proof.
  intros Hm [Hl [Hp Hk]]. unfold set_part_target, physical_file. rewrite (locate_same key s m Hm Hl).
  destruct (locate m key) as [p l]. cbn [fst snd] in *. destruct (Hk l) as [Hfull Hext]; [by left|].
  destruct (is_reserved key); [done|]. cbn [bail_if mbind res_bind]. destruct (is_reserved (join_path p l)); [done|].
  cbn [bail_if mbind res_bind]. pose proof Hm as Hlf. apply represents_leaf in Hlf as [[Hwf _] Hlf]; [|done].
  assert (Hx : fs_prefix_ext root (tree s) p = prefix_ext m p)
    by (unfold fs_prefix_ext, prefix_ext; by rewrite (proj2 Hm p Hp)).
  pose proof (leaf_file_spec (tree s) (join_path p l) Hwf Hfull) as H1. rewrite Hlf in H1 by done.
  change (kv_exists m ?k) with (match m !! k with Some _ => true | None => false end).
  destruct (m !! join_path p l) as [d|] eqn:E1; cbv iota.
  - destruct H1 as (f & Hf). exists f, d. pose proof Hf as (-> & _). done.
  - rewrite H1, Hx. destruct (prefix_ext m p) as [|c e] eqn:Ee; [done|].
    specialize (Hext ltac:(done)). rewrite bool_decide_false by done. cbn [negb andb].
    pose proof (leaf_file_spec (tree s) (join_path (c :: e) l) Hwf Hext) as H2. rewrite Hlf in H2 by done.
    destruct (m !! join_path (c :: e) l) as [d|] eqn:E2; cbv iota; [|done].
    destruct H2 as (f & Hf). exists f, d. pose proof Hf as (-> & _). done.
Qed.

Lemma part_write s m key off (buf : bytes) :
  represents root s m → 0 <= off <= U32_MAX → Z.of_nat (length buf) <= ISIZE_MAX → part_canonical key m →
  match fs_set_part_plan root (tree s) key off buf with
  | Ok f => ∃ target v, canonical target ∧ m !! target = Some v ∧ leaf_path (tree s) target f v ∧
      set_part_plan m key off buf = Ok target ∧ off + Z.of_nat (length buf) <= Z.of_nat (length v)
  | Err _ => ∃ e, set_part_plan m key off buf = Err e
  | Panic _ => False
  end.
Proof.
  intros Hm Ho Hb Hc. pose proof (part_target s m key Hm Hc) as Htarget.
  unfold fs_set_part_plan, set_part_plan. destruct (is_reserved key) eqn:Er.
  { unfold set_part_target. rewrite Er. by eexists. }
  cbn [bail_if mbind res_bind]. destruct (set_part_target m key) as [target|e|e]; [| |done].
  2: { rewrite Htarget. by eexists. }
  destruct Htarget as (f & v & Hk & Hv & -> & Hf). cbn [ok_or mbind res_bind]. pose proof Hf as (_ & -> & _).
  change (kv_get m target) with (m !! target). rewrite Hv. cbn [ok_of ok_or mbind res_bind].
  destruct (effective_len v) as [e|] eqn:Ee; cbn [ok_or mbind res_bind]; [|by eexists]. cbv zeta.
  destruct (_ <? _) eqn:Elt; cbn [bail_if mbind res_bind]; [by eexists|].
  apply Z.ltb_ge in Elt. destruct (set_part_fits off buf v e Ee Ho Hb Elt) as (h & _ & _ & _ & Hlen).
  exists target, v. done.
Qed.
End parts.

(** C35. A part write in place.  On a tidy tree that represents a map, for a u32 offset, a slice no
    longer than Rust allows and a key whose places (its own under the resolved directory, and the
    one in the extension) are canonical, the directory space's [set_part] succeeds exactly where
    [Backend]'s does, and never panics.  Then one value of the map changes, the one [Backend]
    changes: the range, which lies inside it, now holds the slice, and the tree represents the new
    map.  Where it fails, [Backend] fails too, and nothing changes on either side. *)
Theorem fs_set_part_agrees root key off (buf : bytes) s m :
  Forall proper root → represents root s m → tidy root (tree s) →
  0 <= off <= U32_MAX → Z.of_nat (length buf) <= ISIZE_MAX → part_canonical key m →
  match fs_set_part root key off buf s with
  | (Ok _, s') => ∃ target v, m !! target = Some v ∧ off + Z.of_nat (length buf) <= Z.of_nat (length v) ∧
      set_part key off buf m = (Ok tt, <[target := splice (Z.to_nat off) buf v]> m) ∧
      represents root s' (<[target := splice (Z.to_nat off) buf v]> m) ∧ tidy root (tree s')
  | (Err _, s') => s' = s ∧ ∃ e, set_part key off buf m = (Err e, m)
  | (Panic _, _) => False
  end.
Proof.
  intros Hroot Hm Ht Ho Hb Hc. pose proof (part_write root Hroot s m key off buf Hm Ho Hb Hc) as Hp.
  unfold fs_set_part, set_part. rewrite !stm_bind_eq.
  destruct (fs_set_part_plan root (tree s) key off buf) as [f|e|e]; [| |done].
  - destruct Hp as (target & v & Hk & Hv & Hf & -> & Hlen). exists target, v. split_and!; [done..| | |].
    + unfold modify. f_equal. cbn. unfold default_set_part. rewrite Hv.
      by rewrite (proj2 (Z.ltb_ge _ _) Hlen).
    + apply part_represents; [done..|lia].
    + by apply (part_represents root Hroot s m target f v); [..|lia].
  - destruct Hp as [e' ->]. split; [done|by exists e'].
Qed.

(** A value set on an empty tree, and its second byte overwritten. *)
Definition one_pair : list KVPair := [ex_pair "/a"%rs "abc"%rs].
Definition one_value : mem := (set one_pair (∅ : mem)).2.

Lemma one_represents : represents ex_root ex_stored one_value ∧ tidy ex_root (tree ex_stored).
Proof.
  assert (Hroot : Forall proper ex_root) by (by repeat constructor).
  pose proof (follows_set ex_root Hroot 7 one_pair ex_empty ∅ ex_represents ex_tidy
    ltac:(vm_compute; reflexivity)) as H.
  assert ((fs_set ex_root 7 one_pair ex_empty).1 = Ok tt) as Hok by (vm_compute; reflexivity).
  change ex_stored with (fs_set ex_root 7 one_pair ex_empty).2. unfold follows in H.
  destruct (fs_set ex_root 7 one_pair ex_empty) as [[r|e|e] s']; [|done..]. by destruct H.
Qed.

Lemma fs_set_part_agrees_witness :
  (0 <= 17 <= U32_MAX) ∧ Z.of_nat (length "X"%rs) <= ISIZE_MAX ∧ part_canonical "/a"%rs one_value ∧
  let s' := (fs_set_part ex_root "/a"%rs 17 "X"%rs ex_stored).2 in
  (fs_set_part ex_root "/a"%rs 17 "X"%rs ex_stored).1 = Ok tt ∧
  read_leaf ex_root (tree s') "/a"%rs = Some (ex_wire "aXc"%rs) ∧
  represents ex_root s' (set_part "/a"%rs 17 "X"%rs one_value).2.
Proof.
  assert (H1 : 0 <= 17 <= U32_MAX) by (split; vm_compute; discriminate).
  assert (H2 : Z.of_nat (length "X"%rs) <= ISIZE_MAX) by (vm_compute; discriminate).
  assert (H3 : part_canonical "/a"%rs one_value).
  { split; [vm_compute; reflexivity|]. split; [by match goal with |- ?P => apply (bool_decide_unpack P); vm_compute end|].
    intros k ->%list_elem_of_singleton. split; [by match goal with |- ?P => apply (bool_decide_unpack P); vm_compute end|].
    intros H. exfalso. apply H. vm_compute. reflexivity. }
  split; [exact H1|]. split; [exact H2|]. split; [exact H3|]. cbv zeta.
  split; [vm_compute; reflexivity|]. split; [vm_compute; reflexivity|].
  assert (Hroot : Forall proper ex_root) by (by repeat constructor).
  destruct one_represents as [Hm Ht].
  pose proof (fs_set_part_agrees ex_root "/a"%rs 17 "X"%rs ex_stored one_value Hroot Hm Ht H1 H2 H3) as H.
  assert ((fs_set_part ex_root "/a"%rs 17 "X"%rs ex_stored).1 = Ok tt) as Hok by (vm_compute; reflexivity).
  destruct (fs_set_part _ _ _ _ _) as [r s']. cbn [fst] in Hok. subst r.
  destruct H as (target & v & _ & _ & -> & H & _). exact H.
Defined.

(** A part write reaches the value in the extension, on both sides. *)
Example part_write_in_the_extension :
  let fs := fs_set_part ex_root "/d/x"%rs 16 "9"%rs ext_setup_fs in
  let b := set_part "/d/x"%rs 16 "9"%rs ext_setup in
  fs.1 = Ok tt ∧ b.1 = Ok tt ∧
  read_leaf ex_root (tree fs.2) "/e/x"%rs = Some (ex_wire "9"%rs) ∧ b.2 !! "/e/x"%rs = Some (ex_wire "9"%rs).
Proof. cbv zeta. split_and!; vm_compute; reflexivity. Qed.
