(* ===== verification/FsListing.v ===== *)
(** * The listings of the directory space: [src/src/fs/kvspace.rs]

    [list] against the map of [FsRefines]: every key stored below a directory shows up in its
    listing, under the name its component has, with a slash exactly when the code adds one.  The
    runs at the end are where the listing differs from that of [Backend]. *)

From S2P Require Import Prelude RustInt RustStr RustText HeadLenPow KPath Coord XValue SigV4 Dsn Store Backend BackendRead KVSpace FsTree FsWalk FsSpace FsWf FsNames FsLeaves FsLaws FsWrites FsRefines FsCopy.
Local Open Scope Z_scope.
Implicit Types (t : fstree) (key k : str) (l p : list (list Byte.byte)).

(** ** The names below a directory *)

Lemma is_dir_suffix (x r : str) : is_dir r = true → is_dir (x ++ r) = true.
Proof.
  unfold is_dir. intros [H|H]%orb_true_iff; apply ends_with_true in H as [y ->]; rewrite app_assoc, ends_with_app;
    [done|apply orb_true_r].
Qed.

(** After the slash at the end of a path the next component starts. *)
Lemma split_members_ends b k :
  last (split_members b k) = Some SLASH →
  is_dir k = true ∧ ∃ b', ∀ m, split_members b (k ++ m) = split_members b k ++ split_members b' m.
Proof.
  revert b k. apply (members_ind (λ b k, last (split_members b k) = Some SLASH → is_dir k = true ∧
    ∃ b1, ∀ m, split_members b (k ++ m) = split_members b k ++ split_members b1 m)); [done| |].
  - intros b k IH. destruct (decide (k = [])) as [->|Hk].
    + intros _. split; [done|]. exists false. intros m. rewrite <-app_assoc, !split_members_obj. by destruct b.
    + rewrite split_members_obj. destruct k as [|c k]; [done|]. destruct (split_members_head false c k) as [r Hr].
      rewrite Hr, app_assoc, last_app_cons, <-Hr. intros [H1 [b' H2]]%IH. split; [by apply is_dir_suffix|].
      exists b'. intros m. by rewrite <-app_assoc, !split_members_obj, H2, <-!app_assoc.
  - intros b c k H IH. rewrite split_members_cons by done. destruct k as [|d k].
    + intros [= ->]. split; [done|]. exists true. intros m. cbn [app]. by rewrite split_members_cons by (by destruct m).
    + destruct (split_members_head (bool_decide (c = SLASH)) d k) as [r Hr]. rewrite Hr, last_cons_cons, <-Hr.
      intros [H1 [b' H2]]%IH. split; [by apply (is_dir_suffix [c])|]. exists b'. intros m.
      change ((c :: d :: k) ++ m) with (c :: ((d :: k) ++ m)).
      rewrite split_members_cons by (by rewrite starts_with_obj_app). by rewrite H2.
Qed.

Lemma split_byte_last c s : last (split_byte c s) = Some [] → s = [] ∨ last s = Some c.
Proof.
  intros [l H]%last_Some. pose proof (join_split c s) as E. rewrite H in E.
  destruct (decide (l = [])) as [->|Hl]; [by left|]. right.
  rewrite join_snoc, app_nil_r in E by done. rewrite <-E. apply last_snoc.
Qed.

Lemma key_parts_inside dir :
  canonical dir → trailing dir = true →
  is_dir dir = true ∧
  ∃ b, ∀ m, contains "//"%rs (dir ++ m) = false →
    key_parts (dir ++ m) = names dir ++ (escape_part <$> split_byte SLASH (split_members b m)).
Proof.
  intros (H1 & H2 & _) Ht. destruct (key_split dir H1 H2) as (k & -> & Hp).
  pose proof (key_parts_names (SLASH :: k)) as Hn. rewrite Ht, Hp in Hn.
  assert (Hl : last (split_byte SLASH (split_members true k)) = Some []).
  { apply (f_equal last) in Hn. rewrite last_snoc, fmap_last in Hn.
    destruct (last _) as [x|]; [|done]. injection Hn as Hn. by apply escape_part_nil in Hn as ->. }
  assert (Hb : is_dir (SLASH :: k) = true ∧ ∃ b, ∀ m, split_members true (k ++ m) = split_members true k ++ split_members b m).
  { apply split_byte_last in Hl as [E|E].
    - destruct k as [|c k]; [split; [done|by exists true]|].
      destruct (split_members_head true c k) as [r Hr]. by rewrite Hr in E.
    - apply split_members_ends in E as [E Hb]. split; [|done].
      by apply (is_dir_suffix [SLASH]). }
  destruct Hb as [Hd [b Hb]]. split; [done|]. exists b. intros m Hm.
  change ((SLASH :: k) ++ m) with (SLASH :: k ++ m) in *.
  destruct (key_split (SLASH :: k ++ m) eq_refl Hm) as (k' & [= <-] & ->).
  rewrite Hb. apply last_Some in Hl as [x Hx]. rewrite Hx, fmap_app in Hn. apply app_inj_tail in Hn as [<- _].
  clear - Hx. pose proof (join_split SLASH (split_members true k)) as E. rewrite Hx in E.
  destruct (decide (x = [])) as [->|Hne]; [cbn in E; by rewrite <-E|].
  rewrite join_snoc, app_nil_r in E by done. rewrite <-E, <-app_assoc. cbn [app].
  rewrite split_byte_at, fmap_app. f_equal. f_equal.
  rewrite <-E, split_byte_snoc in Hx. by apply app_inj_tail in Hx as [Hx _].
Qed.

Lemma plain_no_slash name : contains "/"%rs name = false → SLASH ∉ name.
Proof.
  rewrite contains_false. intros H [x [y ->]]%list_elem_of_split. by apply (H x y).
Qed.

(** The component of a child: members share a directory that ends with the separator. *)
Definition entry_of (name tail : str) : str :=
  if starts_with "·"%rs tail then name ++ "·"%rs else name.

Lemma plain_component (b : bool) (name tail : str) :
  plain_name name → child_tail tail →
  ∃ rest, split_byte SLASH (split_members b (name ++ tail)) = entry_of name tail :: rest ∧
    (tail = [] → rest = []) ∧ (tail = "/"%rs → rest = [[]]).
Proof.
  intros (Hne & Hs%plain_no_slash & Ho) Ht. unfold entry_of.
  destruct Ht as [-> | [[u ->] | [u ->]]].
  - exists []. rewrite app_nil_r, split_members_plain, split_byte_notin by done. by split_and!.
  - exists (split_byte SLASH (split_members true u)). change ("/"%rs ++ u) with (SLASH :: u).
    rewrite split_members_at_slash, split_members_plain, split_byte_app by done.
    assert (starts_with "·"%rs (SLASH :: u) = false) as -> by (by destruct u).
    split_and!; [done..|]. by intros [= ->].
  - exists (split_byte SLASH (split_members false u)). rewrite starts_with_app.
    rewrite split_members_at_obj, split_members_plain; [|done..|].
    + rewrite split_byte_app; [|rewrite not_elem_of_app; split; [done|apply plain_no_slash; reflexivity]].
      split_and!; [done|intros [=]|intros [=]].
    + intros [y ->]%last_Some. apply Hs. set_solver.
Qed.

(** The location of a child, below that of its directory. *)
Lemma names_child dir (name tail : str) :
  canonical dir → trailing dir = true → plain_name name → child_tail tail →
  contains "//"%rs (dir ++ name ++ tail) = false →
  ∃ rest, names (dir ++ name ++ tail) = names dir ++ escape_part (entry_of name tail) :: rest ∧
    (tail = [] ∨ tail = "/"%rs → rest = []).
Proof.
  intros Hd Ht Hn Htl Hc. destruct (key_parts_inside dir Hd Ht) as [_ [b Hb]].
  destruct (plain_component b name tail Hn Htl) as (rest & Hr & H1 & H2).
  assert (He : escape_part (entry_of name tail) ≠ []).
  { rewrite escape_part_nil. destruct Hn as [Hn _]. unfold entry_of. destruct (starts_with _ tail); [|done].
    by destruct name. }
  specialize (Hb _ Hc). rewrite Hr in Hb. cbn [fmap list_fmap] in Hb. fold (escape_part <$> rest) in Hb.
  pose proof (key_parts_names (dir ++ name ++ tail)) as E. rewrite Hb in E.
  destruct (trailing (dir ++ name ++ tail)) eqn:Etr.
  - destruct rest as [|x rest _] using rev_ind.
    + exfalso. apply app_inj_tail in E as [_ E]. done.
    + rewrite fmap_app, app_comm_cons, app_assoc in E. apply app_inj_tail in E as [<- Ex].
      exists (escape_part <$> rest). split; [done|].
      intros [H| H]; [by destruct (app_cons_not_nil rest [] x); rewrite H1|].
      specialize (H2 H). by apply (app_inj_tail rest []) in H2 as [-> _].
  - rewrite app_nil_r in E. exists (escape_part <$> rest). split; [done|].
    intros [->| ->]; [by rewrite H1|]. exfalso. rewrite (H2 eq_refl) in Hb.
    revert Etr. unfold trailing. rewrite Hb. cbn. intros Etr%bool_decide_eq_false. apply Etr.
    by rewrite app_cons_snoc, last_snoc.
Qed.

Lemma contains_prefix_of (p x y : str) : contains p (x ++ y) = false → contains p x = false.
Proof. rewrite !contains_false. intros H a b ->. apply (H a (b ++ y)). by rewrite <-!app_assoc. Qed.

Lemma no_slashes_snoc (x : str) :
  contains "//"%rs x = false → last x ≠ Some SLASH → contains "//"%rs (x ++ "/"%rs) = false.
Proof.
  rewrite !contains_false. intros H Hl a b E. destruct b as [|y b _] using rev_ind.
  - change ("//"%rs ++ []) with ([SLASH] ++ [SLASH]) in E. rewrite app_assoc in E.
    apply app_inj_tail in E as [-> _]. by rewrite last_snoc in Hl.
  - rewrite !app_assoc in E. apply app_inj_tail in E as [-> _]. apply (H a b). by rewrite <-app_assoc.
Qed.

(** The keys of the child itself, the plain one and the one with a slash. *)
Lemma canonical_child dir (name tail own : str) :
  canonical dir → trailing dir = true → plain_name name → child_tail tail → starts_with "·"%rs tail = false →
  canonical (dir ++ name ++ tail) → own = [] ∨ own = "/"%rs →
  canonical (dir ++ name ++ own) ∧ names (dir ++ name ++ own) = names dir ++ [escape_part name].
Proof.
  intros Hd Ht Hn Htl Ho Hk Hown. pose proof Hk as (_ & Hc & Hp).
  destruct (names_child dir name tail Hd Ht Hn Htl Hc) as (rest & E & _).
  assert (Hc' : contains "//"%rs (dir ++ name ++ own) = false).
  { rewrite app_assoc in Hc |- *. apply contains_prefix_of in Hc.
    destruct Hown as [-> | ->]; [by rewrite app_nil_r|]. apply no_slashes_snoc; [done|].
    destruct Hn as (Hne & Hs%plain_no_slash & _). destruct name as [|z name _] using rev_ind; [done|].
    rewrite app_assoc, last_snoc. intros [= ->]. set_solver. }
  destruct (names_child dir name own Hd Ht Hn) as (rest' & E' & Hr); [|done|].
  { destruct Hown as [-> | ->]; [by left|right; left; by exists []]. }
  rewrite Hr in E' by tauto. rewrite E'. unfold entry_of in *. rewrite Ho in E.
  assert (Hw : starts_with "·"%rs own = false) by (by destruct Hown as [-> | ->]).
  rewrite Hw in *. split; [|done]. split_and!; [|done|].
  - destruct Hd as [[d ->]%starts_with_true _]. by rewrite <-app_assoc, starts_with_app.
  - rewrite E in Hp. rewrite E'. apply Forall_app in Hp as [H1 [H2 _]%Forall_cons]. apply Forall_app. by split; [|constructor].
Qed.

(** ** Reading a directory *)

Section listing.
Context (root : list (list Byte.byte)) (Hroot : Forall proper root).

Lemma lookup_inside t key q :
  wf_tree t → canonical key → dir_at t (loc_of root key) = true → lookup_path t (fs_path root key ++ q) = walk t (loc_of root key) q.
Proof.
  intros Hwf Hk Hd. unfold lookup_path. rewrite fs_path_loc, walk_app. apply dir_at_true in Hd as Hn.
  destruct (trailing key).
  - rewrite walk_app. fold (lookup_path t (loc_of root key)). rewrite lookup_names by (try apply loc_proper; eauto).
    cbn [mbind res_bind walk]. unfold step. rewrite Hd. by rewrite decide_True by auto.
  - rewrite app_nil_r. fold (lookup_path t (loc_of root key)). by rewrite lookup_names by (try apply loc_proper; eauto).
Qed.

Lemma stat_inside t key q :
  wf_tree t → canonical key → Forall proper q → dir_at t (loc_of root key) = true →
  stat t (fs_path root key ++ q) = node_at t (loc_of root key ++ q).
Proof.
  intros Hwf Hk Hq Hd. unfold stat. rewrite lookup_inside by done.
  assert (Hp : Forall proper (loc_of root key ++ q)) by (apply Forall_app; split; [by apply loc_proper|done]).
  rewrite <-(stat_names t Hwf _ Hp).
  unfold stat, lookup_path. rewrite walk_app. fold (lookup_path t (loc_of root key)).
  apply dir_at_true in Hd. by rewrite lookup_names by (try apply loc_proper; eauto).
Qed.

Lemma read_dir_loc t key :
  wf_tree t → canonical key → dir_at t (loc_of root key) = true →
  read_dir t (fs_path root key) = Some (children t (loc_of root key)).
Proof.
  intros Hwf Hk Hd. unfold read_dir. pose proof (lookup_inside t key [] Hwf Hk Hd) as E. rewrite app_nil_r in E.
  rewrite E. cbn [walk]. by rewrite Hd.
Qed.

(** A stored value is in its directory, in an entry with the name of its component. *)
Lemma child_entry t dir (name tail : str) :
  wf_tree t → canonical dir → trailing dir = true → plain_name name → child_tail tail →
  canonical (dir ++ name ++ tail) → is_Some (leaf root t (dir ++ name ++ tail)) →
  dir_at t (loc_of root dir) = true ∧ escape_part (entry_of name tail) ∈ children t (loc_of root dir) ∧
  proper (escape_part (entry_of name tail)).
Proof.
  intros Hwf Hd Ht Hn Htl Hk Hl.
  destruct (names_child dir name tail Hd Ht Hn Htl) as (rest & E & _); [apply Hk|].
  set (c := escape_part _) in *.
  assert (Hloc : loc_of root (dir ++ name ++ tail) = (loc_of root dir ++ [c]) ++ rest).
  { unfold loc_of. by rewrite E, <-!app_assoc. }
  assert (Hnode : is_Some (node_at t ((loc_of root dir ++ [c]) ++ rest))).
  { rewrite <-Hloc. unfold leaf in Hl. destruct (node_at _ _); [done|by destruct Hl]. }
  assert (Hc : is_Some (node_at t (loc_of root dir ++ [c]))).
  { destruct rest as [|x rest]; [by rewrite app_nil_r in Hnode|].
    eexists. by eapply wf_prefix. }
  split_and!.
  - apply dir_at_true. by apply (wf_prefix t _ [c]).
  - apply elem_of_children. by rewrite <-node_at_app.
  - destruct Hk as (_ & _ & Hp). rewrite E in Hp. by apply Forall_app in Hp as [_ [? _]%Forall_cons].
Qed.

(** ** One member *)

Lemma hex_ascii (s : str) : Forall (λ b, byte_val b < 128) (hex s).
Proof.
  induction s as [|b s IH]; [constructor|]. rewrite hex_cons. repeat constructor; [| |done]; by destruct b.
Qed.

Lemma escape_part_valid (part : str) : utf8_valid part = true → utf8_valid (escape_part part) = true.
Proof.
  intros H. destruct (escape_part_cases part) as [[-> _]| ->]; [done|].
  apply utf8_valid_ascii. constructor; [done|apply hex_ascii].
Qed.

(** The part of [child_member] that does not look at the tree. *)
Lemma child_member_shown t p dir (part : str) :
  utf8_valid part = true → (dir = PATH_SEP → part ≠ META_ROOT_NAME) → contains RUNTIME_MEMBER_SEP part = false →
  child_member t p dir (escape_part part) =
    if ends_with OBJ_SEP part then Ok (Some (trim_end_obj part))
    else if path_is_dir t (p ++ [escape_part part]) then
      if path_is_file t (p ++ [escape_part part; SELF_MARKER]) &&
         negb (path_is_file t (p ++ [escape_part part; DIR_MARKER]))
      then Ok (Some part) else Ok (Some (part ++ "/"%rs))
    else Ok (Some part).
Proof.
  intros Hv Hm Hr. unfold child_member. destruct (escape_part_name part) as (H1 & H2 & H3).
  unfold is_tmp_name. rewrite H3, andb_false_r, lossy_valid by (by apply escape_part_valid).
  rewrite (bool_decide_false _ H1), (bool_decide_false _ H2). cbn [orb].
  assert (bool_decide (dir = PATH_SEP) && bool_decide (escape_part part = META_ROOT_NAME) = false) as ->.
  { apply andb_false_iff. destruct (decide (dir = PATH_SEP)) as [E|E]; [right|left; by apply bool_decide_false].
    apply bool_decide_false. intros He. apply (Hm E).
    destruct (escape_part_cases part) as [[<- _]|Ee]; [done|]. by rewrite Ee in He. }
  rewrite unescape_escape by done. cbn [mbind res_bind]. by rewrite Hr, <-!app_assoc.
Qed.

Lemma trim_end_obj_plain name : contains "·"%rs name = false → trim_end_obj (name ++ "·"%rs) = name.
Proof.
  intros H. unfold trim_end_obj. rewrite length_app, Nat.add_comm. cbn [length Nat.add trim_end_obj_fuel].
  change OBJ_SEP with ("·"%rs : str). rewrite strip_suffix_app.
  destruct (strip_suffix "·"%rs name) as [n|] eqn:E; [|done]. apply strip_suffix_Some in E as ->.
  rewrite contains_false in H. destruct (H n []). by rewrite app_nil_r.
Qed.

(** ** What is listed *)

(** How a stored key below [dir] shows: a component with members by its name, a plain value by
    its name unless the key with a slash holds a value too, anything else with a slash. *)
Definition shown_as (m : gmap str bytes) dir (name tail : str) : str :=
  if starts_with "·"%rs tail || (bool_decide (is_Some (m !! (dir ++ name))) && bool_decide (m !! (dir ++ name ++ "/"%rs) = None))
  then name else name ++ "/"%rs.

Lemma component_shown (dir name tail : str) :
  plain_name name → visible dir name → utf8_valid name = true →
  utf8_valid (entry_of name tail) = true ∧ (dir = PATH_SEP → entry_of name tail ≠ META_ROOT_NAME) ∧
  contains RUNTIME_MEMBER_SEP (entry_of name tail) = false.
Proof.
  intros Hn [Hm Hr] Hv. unfold entry_of. destruct (starts_with _ tail); [|done]. split_and!.
  - by apply utf8_valid_app.
  - intros _ E. apply (f_equal last) in E. rewrite last_app in E. discriminate E.
  - rewrite contains_false in Hr |- *. intros a b E. destruct b as [|y b _] using rev_ind.
    + apply (f_equal last) in E. rewrite app_nil_r, !last_app in E. discriminate E.
    + change ("·"%rs : str) with ([Byte.xc2] ++ [Byte.xb7] : str) in E. rewrite !app_assoc in E.
      apply app_inj_tail in E as [E _]. destruct b as [|z b _] using rev_ind.
      * apply (f_equal last) in E. rewrite app_nil_r, !last_app in E. discriminate E.
      * rewrite !app_assoc in E. apply app_inj_tail in E as [E _]. apply (Hr a b). by rewrite E, <-app_assoc.
Qed.

Lemma child_leaves t dir (name tail own : str) :
  wf_tree t → canonical dir → trailing dir = true → plain_name name → child_tail tail →
  starts_with "·"%rs tail = false → canonical (dir ++ name ++ tail) → own = [] ∨ own = "/"%rs →
  let L := loc_of root dir ++ [escape_part name] in
  leaf root t (dir ++ name ++ own) =
    match node_at t L with
    | Some Dir => file_at t (L ++ [if decide (own = []) then SELF_MARKER else DIR_MARKER])
    | Some (File d) => if decide (own = []) then Some d else None
    | None => None
    end.
Proof.
  intros Hwf Hd Ht Hn Htl Ho Hk Hown L.
  destruct (canonical_child dir name tail own Hd Ht Hn Htl Ho Hk Hown) as [Hk' Hnames].
  assert (HL : loc_of root (dir ++ name ++ own) = L) by (unfold loc_of, L; by rewrite Hnames, app_assoc).
  assert (Htr : trailing (dir ++ name ++ own) = if decide (own = []) then false else true).
  { destruct Hown as [-> | ->]; cbn [decide].
    - destruct (trailing (dir ++ name ++ [])) eqn:E; [|done]. exfalso.
      destruct (key_parts_inside dir Hd Ht) as [_ [b Hb]]. specialize (Hb _ (proj1 (proj2 Hk'))).
      destruct (plain_component b name [] Hn ltac:(by left)) as (rest & Hr & H1 & _). rewrite Hr, H1 in Hb by done.
      revert E. unfold trailing. rewrite Hb. cbn. rewrite last_snoc. intros E%bool_decide_eq_true.
      injection E as E. apply (escape_part_nil name) in E as ->. by destruct Hn.
    - rewrite app_assoc in Hk' |- *. by apply trailing_slash. }
  unfold leaf. rewrite HL, Htr. destruct (node_at t L) as [[d|]|]; [by destruct (decide (own = []))| |done].
  do 3 f_equal. destruct Hown as [-> | ->]; cbn [decide].
  - by apply not_trailing_marker.
  - rewrite app_assoc. apply leaf_marker_slash. destruct Hn as [Hn _]. by destruct dir, name.
Qed.

Lemma child_member_listed t (m : gmap str bytes) dir (name tail : str) :
  wf_tree t → (∀ k, canonical k → leaf root t k = m !! k) →
  canonical dir → trailing dir = true → child (m : mem) dir name tail → canonical (dir ++ name ++ tail) →
  utf8_valid name = true →
  escape_part (entry_of name tail) ∈ children t (loc_of root dir) ∧ dir_at t (loc_of root dir) = true ∧
  child_member t (fs_path root dir) dir (escape_part (entry_of name tail)) = Ok (Some (shown_as m dir name tail)).
Proof.
  intros Hwf Hm Hd Ht (Hn & Htl & Hv & _ & Hs) Hk Hu. change (kv_get (m : mem)) with (λ k, m !! k) in Hs. cbn beta in Hs.
  rewrite <-Hm in Hs by done.
  destruct (child_entry t dir name tail Hwf Hd Ht Hn Htl Hk Hs) as (Hdir & Hin & Hp).
  split_and!; [done..|].
  destruct (component_shown dir name tail Hn Hv Hu) as (H1 & H2 & H3).
  rewrite child_member_shown by done. unfold shown_as.
  unfold entry_of in *. destruct (starts_with "·"%rs tail) eqn:Ho; cbn [orb].
  { change OBJ_SEP with ("·"%rs : str). by rewrite ends_with_app, trim_end_obj_plain by apply Hn. }
  assert (ends_with OBJ_SEP name = false) as ->.
  { destruct (ends_with OBJ_SEP name) eqn:E; [|done]. apply ends_with_true in E as [y ->].
    destruct Hn as (_ & _ & Hn). rewrite contains_false in Hn. destruct (Hn y []). by rewrite app_nil_r. }
  pose proof (λ own, child_leaves t dir name tail own Hwf Hd Ht Hn Htl Ho Hk) as Hl.
  pose proof (λ own, canonical_child dir name tail own Hd Ht Hn Htl Ho Hk) as Hc.
  rewrite <-(Hm (dir ++ name)), <-(Hm (dir ++ name ++ "/"%rs)).
  2: by apply (Hc "/"%rs); auto.
  2: rewrite <-(app_nil_r name); apply Hc; auto.
  assert (E0 := Hl [] ltac:(auto)). assert (E1 := Hl "/"%rs ltac:(auto)). rewrite app_nil_r in E0.
  rewrite ?(decide_True _ _ (eq_refl : [] = [] :> str)) in E0. rewrite decide_False in E1 by done.
  rewrite E0, E1.
  unfold path_is_dir, path_is_file, file_at.
  rewrite !stat_inside by (try done; repeat (apply Forall_cons; split); try done; by apply Forall_nil).
  assert (Hn1 : is_Some (node_at t (loc_of root dir ++ [escape_part name]))).
  { rewrite node_at_app. by apply elem_of_children. }
  set (L := loc_of root dir ++ [escape_part name]) in *.
  assert (HL : ∀ c, node_at t (loc_of root dir ++ [escape_part name; c]) = t !! (L ++ [c])).
  { intros c. rewrite app_cons_snoc. apply node_at_app. }
  rewrite !HL. destruct (node_at t L) as [[d|]|]; [done| |by destruct Hn1].
  rewrite bool_decide_true by done.
  destruct (t !! (L ++ [SELF_MARKER])) as [[]|], (t !! (L ++ [DIR_MARKER])) as [[]|]; done.
Qed.

(** ** The listing *)

Lemma child_members_exact t p dir (ns : list str) :
  match child_members t p dir ns with
  | Ok l => ∀ x, x ∈ l ↔ ∃ c, c ∈ ns ∧ child_member t p dir c = Ok (Some x)
  | Panic e => ∃ c, c ∈ ns ∧ unescape_name (from_utf8_lossy c) = Panic e
  | Err _ => False
  end.
Proof.
  induction ns as [|n ns IH]; cbn [child_members]; [intros x; rewrite elem_of_nil; split; [done|intros (c & []%not_elem_of_nil & _)]|].
  assert (Hn : match child_member t p dir n with
               | Ok _ => True | Panic e => unescape_name (from_utf8_lossy n) = Panic e | Err _ => False end).
  { unfold child_member. destruct (is_tmp_name n); [done|]. destruct (_ || _); [done|].
    assert (Hu : ∀ e, unescape_name (from_utf8_lossy n) ≠ Err e).
    { intros e. unfold unescape_name. destruct (strip_prefix _ _) as [h|]; [|done].
      destruct (Nat.odd _); [done|]. by destruct (unhex h). }
    destruct (unescape_name _) as [name|e|e]; [|by destruct (Hu e)|done]. cbn [mbind res_bind].
    by repeat case_match. }
  destruct (child_member t p dir n) as [o|e|e] eqn:E; [|done|]; cbn [mbind res_bind]; [|exists n; split; [left|done]].
  destruct (child_members t p dir ns) as [l|e|e]; [|done|]; cbn [mbind res_bind].
  - intros x. setoid_rewrite elem_of_cons. split.
    + intros Hx. assert (o = Some x ∨ x ∈ l) as [->|Hl].
      { destruct o as [y|]; [apply elem_of_cons in Hx as [->|Hx]|]; auto. }
      * exists n. auto.
      * apply IH in Hl as (c & Hc & H). eauto.
    + intros (c & [->|Hc] & Hx).
      * rewrite E in Hx. injection Hx as ->. left.
      * assert (x ∈ l) by (apply IH; eauto). destruct o; [by right|done].
  - destruct IH as (c & Hc & H). exists c. split; [by right|done].
Qed.

Lemma dedup_names_cons (a b : str) (l : list str) :
  dedup_names (a :: b :: l) = if bool_decide (a = b) then dedup_names (b :: l) else a :: dedup_names (b :: l).
Proof. reflexivity. Qed.

Lemma elem_dedup_names (x : str) (l : list str) : x ∈ dedup_names l ↔ x ∈ l.
Proof.
  induction l as [|a [|b l] IH]; [done..|]. rewrite dedup_names_cons.
  case_bool_decide as E; [|by rewrite !(elem_of_cons _ x a), IH].
  rewrite IH, E, !elem_of_cons. tauto.
Qed.

Lemma dedup_names_sorted (l : list str) : Sorted coord_le l → Sorted coord_le (dedup_names l).
Proof.
  intros Hs%Sorted_StronglySorted; [|apply _]. apply StronglySorted_Sorted.
  induction Hs as [|a l Hs IH Ha]; [constructor|]. destruct l as [|b l]; [by repeat constructor|].
  rewrite dedup_names_cons. case_bool_decide; [done|]. constructor; [done|].
  rewrite Forall_forall in *. intros x Hx. apply Ha. by rewrite elem_dedup_names in Hx.
Qed.

(** What the entries of [dir] show as. *)
Definition shows t dir (x : str) : Prop :=
  ∃ c, c ∈ default [] (read_dir t (fs_path root dir)) ∧ child_member t (fs_path root dir) dir c = Ok (Some x).

Lemma dir_children_ok t dir :
  match dir_children root t dir with
  | Ok l => Sorted coord_le l ∧ ∀ x, x ∈ l ↔ contains "//"%rs dir = false ∧ shows t dir x
  | Panic e => ∃ c, unescape_name (from_utf8_lossy c) = Panic e
  | Err _ => False
  end.
Proof.
  unfold dir_children. destruct (contains _ dir).
  { split; [constructor|]. intros x. rewrite elem_of_nil. naive_solver. }
  pose proof (child_members_exact t (fs_path root dir) dir (default [] (read_dir t (fs_path root dir)))) as H.
  destruct (child_members _ _ _ _) as [l|e|e]; cbn [mbind res_bind]; [|done|destruct H as (c & _ & H); by exists c].
  split; [apply dedup_names_sorted, Sorted_merge_sort, _|]. intros x. rewrite elem_dedup_names, elem_sort_names, H.
  unfold shows. naive_solver.
Qed.

Lemma dir_children_complete t (m : gmap str bytes) dir l (name tail : str) :
  wf_tree t → (∀ k, canonical k → leaf root t k = m !! k) → canonical dir → trailing dir = true →
  dir_children root t dir = Ok l → child (m : mem) dir name tail → canonical (dir ++ name ++ tail) →
  utf8_valid name = true → shown_as m dir name tail ∈ l.
Proof.
  intros Hwf Hm Hd Ht Hl Hc Hk Hu.
  destruct (child_member_listed t m dir name tail Hwf Hm Hd Ht Hc Hk Hu) as (Hin & Hdir & Hmem).
  pose proof (dir_children_ok t dir) as H. rewrite Hl in H. apply H. split; [by destruct Hd as (_ & ? & _)|].
  exists (escape_part (entry_of name tail)). by rewrite read_dir_loc.
Qed.

(** A name with the runtime separator never shows. *)
Lemma shows_no_runtime t dir (x : str) : shows t dir x → contains RUNTIME_MEMBER_SEP x = false.
Proof.
  intros (c & _ & H). revert H. unfold child_member. destruct (is_tmp_name c); [done|]. destruct (_ || _); [done|].
  destruct (unescape_name _) as [name|e|e]; [|done..]. cbn [mbind res_bind].
  destruct (contains RUNTIME_MEMBER_SEP name) eqn:Hr; [done|].
  assert (Hs : contains RUNTIME_MEMBER_SEP (name ++ "/"%rs) = false).
  { rewrite contains_false in Hr |- *. intros a b E. destruct b as [|y b _] using rev_ind.
    - apply (f_equal last) in E. rewrite app_nil_r, !last_app in E. discriminate E.
    - rewrite !app_assoc in E. apply app_inj_tail in E as [E _]. apply (Hr a b). by rewrite E, <-app_assoc. }
  assert (Ht : ∀ n r, contains RUNTIME_MEMBER_SEP r = false → contains RUNTIME_MEMBER_SEP (trim_end_obj_fuel n r) = false).
  { induction n as [|n IH]; intros r E; [done|]. cbn [trim_end_obj_fuel].
    destruct (strip_suffix OBJ_SEP r) as [q|] eqn:Eq; [|done]. apply strip_suffix_Some in Eq as ->.
    apply IH. by eapply contains_prefix_of. }
  destruct (ends_with OBJ_SEP name); [intros [= <-]; by apply Ht|].
  repeat case_match; by intros [= <-].
Qed.

Lemma elem_merge (x : str) (l l' : list str) :
  x ∈ foldl (λ ms m, if bool_decide (m ∈ ms) then ms else ms ++ [m]) l l' ↔ x ∈ l ∨ x ∈ l'.
Proof.
  revert l. induction l' as [|a l' IH]; intros l; cbn [foldl]; [rewrite elem_of_nil; tauto|].
  rewrite IH. case_bool_decide; set_solver.
Qed.

(** The directories a listing shows: the resolved one, and its extension when asked to expand. *)
Definition listed_dir t (resolved : str) (expand_ext : bool) dir : Prop :=
  dir = resolved ∨ (expand_ext = true ∧ dir = fs_prefix_ext root t resolved).

(** C33. A listing is complete: on a tree that represents a map, every visible key stored below the
    resolved directory, or below its extension when asked to expand, shows up, with the slash
    exactly when it holds a value of its own there or is only a directory; what is listed besides
    comes from an entry of the directory, and no runtime name ever is.  A listing without
    expansion is in coordinate order; one with expansion need not be
    ([FsCases.extension_members_unsorted]).  The one failure is a panic on a foreign file name. *)
Theorem fs_list_complete (s : fsstate) (m : gmap str bytes) prefix (expand_ext resolve : bool) :
  represents root s m →
  let t := tree s in
  let resolved := if resolve then fs_resolve_path root t prefix else prefix in
  is_reserved prefix = false → is_dir prefix = true → is_reserved resolved = false →
  canonical resolved → trailing resolved = true →
  match fs_list root t prefix expand_ext resolve with
  | Ok l =>
      (expand_ext = false → Sorted coord_le l) ∧
      (∀ x, x ∈ l → contains RUNTIME_MEMBER_SEP x = false ∧ ∃ dir, listed_dir t resolved expand_ext dir ∧ shows t dir x) ∧
      (∀ dir name tail, listed_dir t resolved expand_ext dir → canonical dir → trailing dir = true →
         child (m : mem) dir name tail → canonical (dir ++ name ++ tail) → utf8_valid name = true →
         shown_as m dir name tail ∈ l)
  | Panic e => ∃ c, unescape_name (from_utf8_lossy c) = Panic e
  | Err _ => False
  end.
Proof.
  intros [[Hwf _] Hm]%(represents_leaf root Hroot) t resolved Hr Hp Hrr Hc Ht.
  unfold fs_list. rewrite Hr. unfold assert_dir. rewrite Hp, andb_false_r. cbn [mbind res_bind].
  fold t resolved. destruct (key_parts_inside resolved Hc Ht) as [-> _]. cbn [negb]. rewrite Hrr.
  pose proof (dir_children_ok t resolved) as H1. pose proof (dir_children_complete t m resolved) as C1.
  destruct (dir_children root t resolved) as [l|e|e]; [|done..]. cbn [mbind res_bind].
  destruct H1 as [Hs H1].
  assert (Hown : ∀ x, x ∈ l → contains RUNTIME_MEMBER_SEP x = false ∧ ∃ dir, listed_dir t resolved expand_ext dir ∧ shows t dir x).
  { intros x [_ Hx]%H1. split; [by eapply shows_no_runtime|]. exists resolved. by split; [left|]. }
  destruct expand_ext; [|split_and!; [done..|intros dir name tail [->|[[=] _]] Hd Htr; by apply C1]].
  pose proof (dir_children_ok t (fs_prefix_ext root t resolved)) as H2.
  pose proof (dir_children_complete t m (fs_prefix_ext root t resolved)) as C2.
  assert (Hmerge : ∀ l2, dir_children root t (fs_prefix_ext root t resolved) = Ok l2 →
    (∀ x, x ∈ l ∨ x ∈ l2 → contains RUNTIME_MEMBER_SEP x = false ∧ ∃ dir, listed_dir t resolved true dir ∧ shows t dir x) ∧
    (∀ dir name tail, listed_dir t resolved true dir → canonical dir → trailing dir = true →
       child (m : mem) dir name tail → canonical (dir ++ name ++ tail) → utf8_valid name = true →
       shown_as m dir name tail ∈ l ∨ shown_as m dir name tail ∈ l2)).
  { intros l2 E. rewrite E in H2. destruct H2 as [_ H2]. split.
    - intros x [Hx|Hx]; [by apply Hown|]. apply H2 in Hx as [_ Hx]. split; [by eapply shows_no_runtime|].
      eexists. split; [by right|done].
    - intros dir name tail [->|[_ ->]] Hd Htr Hch Hk Hu; [left; by apply C1|right; by apply C2]. }
  destruct (fs_prefix_ext root t resolved) as [|c ext] eqn:Ex.
  - split_and!; [done..|]. intros dir name tail [->|[_ ->]] Hd Htr; [by apply C1|]. by rewrite Ex in Hd; destruct Hd.
  - destruct (dir_children root t (c :: ext)) as [l2|e|e]; [|done..]. cbn [mbind res_bind].
    destruct (Hmerge l2 eq_refl) as [M1 M2]. split_and!; [done| |].
    + intros x Hx. apply M1. by apply elem_merge.
    + intros dir name tail. rewrite elem_merge. apply M2.
Qed.
End listing.

(** ** Runs *)

Definition ls_put key (s : fsstate) : fsstate := (fs_put ex_root 7 key (ex_wire "1"%rs) s).2.
Definition ls_state : fsstate := ls_put "/a/‥e"%rs (ls_put "/a/d"%rs (ls_put "/a/b/c"%rs ex_empty)).
Definition ls_map : gmap str bytes :=
  <["/a/‥e"%rs := ex_wire "1"%rs]> (<["/a/d"%rs := ex_wire "1"%rs]> (<["/a/b/c"%rs := ex_wire "1"%rs]> ∅)).

Lemma ls_represents : represents ex_root ls_state ls_map.
Proof.
  assert (Hroot : Forall proper ex_root) by (by repeat constructor).
  unfold ls_state, ls_map.
  do 3 (eapply (represents_put ex_root Hroot 7); [by decided| |apply pair_of_fst; vm_compute; reflexivity]).
  apply ex_represents.
Qed.

Lemma fs_list_complete_witness :
  Forall proper ex_root ∧ represents ex_root ls_state ls_map ∧
  ∃ l, fs_list ex_root (tree ls_state) "/a/"%rs false true = Ok l ∧
    shown_as ls_map "/a/"%rs "b"%rs "/c"%rs ∈ l ∧ shown_as ls_map "/a/"%rs "b"%rs "/c"%rs = "b/"%rs.
Proof.
  assert (Hroot : Forall proper ex_root) by (by repeat constructor).
  split_and!; [done|apply ls_represents|].
  pose proof (fs_list_complete ex_root Hroot ls_state ls_map "/a/"%rs false true ls_represents) as H.
  cbv zeta in H. specialize (H eq_refl eq_refl).
  assert (E : fs_resolve_path ex_root (tree ls_state) "/a/"%rs = "/a/"%rs) by (vm_compute; reflexivity).
  cbv iota in H. rewrite E in H.
  specialize (H eq_refl ltac:(by decided) ltac:(vm_compute; reflexivity)).
  assert (El : fs_list ex_root (tree ls_state) "/a/"%rs false true = Ok ["b/"%rs; "d"%rs]) by (vm_compute; reflexivity).
  rewrite El in H. exists ["b/"%rs; "d"%rs]. destruct H as (_ & _ & H). split_and!; [done| |vm_compute; reflexivity].
  apply H; [by left|by decided|vm_compute; reflexivity| |by decided|vm_compute; reflexivity].
  split_and!; [split_and!; [done|vm_compute; reflexivity..]|right; left; by exists "c"%rs|split; [done|vm_compute; reflexivity]|
    vm_compute; reflexivity|by eexists].
Defined.

(** A directory without a key of its own: a name with a slash here, without one in [Backend]. *)
Example implicit_directory_listed :
  fs_list ex_root (tree ls_state) "/a/"%rs false true = Ok ["b/"%rs; "d"%rs] ∧
  Backend.list_ (ls_map : mem) "/a/"%rs false true = Ok ["b"%rs; "d"%rs].
Proof. split; vm_compute; reflexivity. Qed.

(** A key with members and with a key with a slash: two entries here, one in [Backend]. *)
Definition ls_three : list str := ["/a/b"%rs; "/a/b·x"%rs; "/a/b/"%rs].
Example members_listed_twice :
  let r := fs_set ex_root 7 ((λ k, ex_pair k "1"%rs) <$> ls_three) ex_empty in
  let m := (Backend.set ((λ k, mkPair k XNone (Some (ex_wire "1"%rs))) <$> ls_three) (∅ : mem)).2 in
  r.1 = Ok tt ∧
  fs_list ex_root (tree r.2) "/a/"%rs false true = Ok ["b"%rs; "b/"%rs] ∧
  Backend.list_ m "/a/"%rs false true = Ok ["b/"%rs].
Proof. split_and!; vm_compute; reflexivity. Qed.

(** A name that starts with [~] and is no escape panics when it is cut inside a character. *)
Example foreign_name_panics :
  fs_list ex_root (<[ex_root ++ ["~1é2"%rs] := File []]> (tree ex_empty)) "/"%rs false true =
  Panic (FsNameBoundary "~1é2"%rs).
Proof. vm_compute. reflexivity. Qed.
