(* ===== verification/FsSubtree.v ===== *)
(** * Deleting a subtree of the directory space: [src/src/fs/kvspace.rs]

    [del_tree] against the keys it is to delete: which entries of the tree it removes, and that
    the keys stored in them are exactly those of the subtree. *)

From S2P Require Import Prelude RustInt RustStr RustText HeadLenPow KPath Coord XValue SigV4 Dsn Store Backend KVSpace FsTree FsWalk FsSpace FsWf FsNames FsLeaves FsLaws FsRefines FsCopy FsListing.
Local Open Scope Z_scope.
Implicit Types (t : fstree) (key k : str) (l p : list (list Byte.byte)).

(** ** Paths that begin like the path of a key *)

Lemma split_members_two b (r : str) : take 2 (split_members b r) = take 2 r.
Proof.
  destruct r as [|c [|d r]]; [done..|]. destruct (starts_with "·"%rs (c :: d :: r)) eqn:E.
  - apply starts_with_true in E as [x E]. rewrite E. by rewrite split_members_obj.
  - rewrite split_members_cons by done. by destruct (split_members_head (bool_decide (c = SLASH)) d r) as [x ->].
Qed.

Lemma starts_with_two (r : str) : starts_with "·"%rs r = true ↔ take 2 r = "·"%rs.
Proof.
  rewrite starts_with_true. split; [intros [x ->]; done|]. intros H. exists (drop 2 r).
  by rewrite <-H, take_drop.
Qed.

Lemma starts_with_members b (r : str) : starts_with "·"%rs (split_members b r) = starts_with "·"%rs r.
Proof. apply eq_bool_prop_intro. rewrite !Is_true_true, !starts_with_two. by rewrite split_members_two. Qed.

(** What follows a key in a path follows it in the key. *)
Lemma split_members_prefix b k k' (x : str) :
  head x ≠ Some Byte.xb7 → split_members b k' = split_members b k ++ x →
  ∃ r b', k' = k ++ r ∧ x = split_members b' r.
Proof.
  intros Hx. revert b k k'. apply (members_ind (λ b k, ∀ k', split_members b k' = split_members b k ++ x →
    ∃ r b', k' = k ++ r ∧ x = split_members b' r)).
  - intros b k' H. by exists k', b.
  - intros b k IH k' H.
    assert (Hs : starts_with "·"%rs k' = true).
    { rewrite <-(starts_with_members b), H, split_members_obj, <-!app_assoc. apply starts_with_app. }
    apply starts_with_true in Hs as [k1 ->]. rewrite !split_members_obj, <-!app_assoc in H.
    apply app_inv_head, app_inv_head in H. destruct (IH k1 H) as (r & b' & -> & ->).
    exists r, b'. by rewrite <-app_assoc.
  - intros b c k Hc IH k' H. rewrite split_members_cons in H by done.
    destruct k' as [|c' k']; [done|]. destruct (split_members_head b c' k') as [y Hy].
    assert (c' = c) as -> by (rewrite Hy in H; by injection H).
    destruct (starts_with "·"%rs (c :: k')) eqn:Es.
    + exfalso. rewrite <-(starts_with_members b), H in Es. apply starts_with_two in Es. cbn in Es.
      destruct k as [|d k].
      * cbn in Es. destruct x as [|z x]; [done|]. injection Es as -> ->. by apply Hx.
      * destruct (split_members_head (bool_decide (c = SLASH)) d k) as [w Hw]. rewrite Hw in Es.
        injection Es as -> ->. done.
    + rewrite split_members_cons in H by done. injection H as H.
      destruct (IH k' H) as (r & b' & -> & ->). by exists r, b'.
Qed.

(** ** Components *)

(** The components of a key, before they are escaped. *)
Definition components key : list str := split_byte SLASH (split_members true (drop 1 key)).

Lemma key_components key :
  starts_with "/"%rs key = true → contains "//"%rs key = false → key_parts key = escape_part <$> components key.
Proof. intros H1 H2. destruct (key_split key H1 H2) as (k & -> & ->). done. Qed.

(** The path of a key up to a component that is there. *)
Lemma names_of_parts key (ps : list str) (c : str) (q : list str) :
  key_parts key = ps ++ c :: q → c ≠ [] → ∃ q', names key = ps ++ c :: q'.
Proof.
  intros H Hc. pose proof (key_parts_names key) as E. rewrite H in E. destruct (trailing key).
  - destruct q as [|z q _] using rev_ind.
    + by apply app_inj_tail in E as [_ E].
    + rewrite app_comm_cons, app_assoc in E. apply app_inj_tail in E as [<- _]. by exists q.
  - rewrite app_nil_r in E. by exists q.
Qed.

Lemma parts_of_names key l : l `prefix_of` names key → ∃ q, key_parts key = l ++ q.
Proof. intros [q E]. rewrite key_parts_names, E, <-app_assoc. by eexists. Qed.

(** ** The subtree of a key, by components *)

Lemma split_byte_extend (c : byte) (s v : str) (ds q : list str) (x y : str) :
  split_byte c s = ds ++ [x] → split_byte c v = y :: q → split_byte c (s ++ v) = ds ++ (x ++ y) :: q.
Proof.
  intros Hs Hv. revert ds x Hs. induction s as [|b s IH]; intros ds x Hs.
  - destruct ds as [|d [|]]; simplify_eq/=; done.
  - cbn [split_byte app] in *. destruct (decide (b = c)).
    + destruct ds as [|d ds]; injection Hs as H1 H2; [by apply split_byte_ne in H2|].
      by rewrite (IH ds x H2), <-H1.
    + destruct (split_byte c s) as [|w ws] eqn:E; [by apply split_byte_ne in E|].
      destruct ds as [|d ds]; simplify_eq/=.
      * by rewrite (IH [] w eq_refl).
      * by rewrite (IH (w :: ds) x eq_refl).
Qed.

Lemma split_members_app b k (m : str) :
  head m ≠ Some Byte.xb7 → ∃ b', split_members b (k ++ m) = split_members b k ++ split_members b' m.
Proof.
  intros Hm. revert b k. apply (members_ind (λ b k, ∃ b', split_members b (k ++ m) = split_members b k ++ split_members b' m)).
  - intros b. by exists b.
  - intros b k [b' IH]. exists b'. by rewrite <-app_assoc, !split_members_obj, IH, <-!app_assoc.
  - intros b c k Hc [b' IH]. exists b'. rewrite split_members_cons by done. change ((c :: k) ++ m) with (c :: (k ++ m)).
    rewrite split_members_cons; [by rewrite IH|]. destruct k as [|d k]; [|by rewrite starts_with_obj_app].
    destruct m as [|z m]; [done|]. apply starts_with_obj_two. by intros ->.
Qed.

Lemma split_members_runtime b (u : str) : split_members b ("‥"%rs ++ u) = "‥"%rs ++ split_members false u.
Proof. change ("‥"%rs ++ u) with (Byte.xe2 :: Byte.x80 :: Byte.xa5 :: u). rewrite !split_members_cons; [done|by destruct u|done..]. Qed.

Lemma starts_with_runtime b (r w : str) : split_members b r = "‥"%rs ++ w → starts_with "‥"%rs r = true.
Proof.
  assert (Hstep : ∀ b c d (r v : str), c ≠ Byte.xc2 → split_members b r = c :: d :: v →
    ∃ r', r = c :: r' ∧ split_members (bool_decide (c = SLASH)) r' = d :: v).
  { intros b0 c d r0 v Hc H. destruct r0 as [|c' r0]; [done|]. destruct (split_members_head b0 c' r0) as [y Hy].
    assert (c' = c) as -> by (rewrite Hy in H; by injection H). exists r0. split; [done|].
    rewrite split_members_cons in H; [by injection H|]. unfold starts_with. cbn. by rewrite decide_False. }
  intros H. apply Hstep in H as (r1 & -> & H); [|done]. apply Hstep in H as (r2 & -> & H); [|done].
  destruct r2 as [|c r2]; [done|]. destruct (split_members_head (bool_decide (Byte.x80 = SLASH)) c r2) as [y Hy].
  rewrite Hy in H. injection H as -> _. apply starts_with_true. by exists r2.
Qed.

Lemma join_extend (sep : str) (ds q : list str) (x e : str) :
  join sep (ds ++ (x ++ e) :: q) = join sep (ds ++ [x]) ++ e ++ match q with [] => [] | _ => sep ++ join sep q end.
Proof.
  induction ds as [|d ds IH]; cbn [app].
  - destruct q; [by rewrite app_nil_r|]. rewrite join_cons by done. by rewrite <-!app_assoc.
  - rewrite !join_cons by (by destruct ds). by rewrite IH, <-!app_assoc.
Qed.

Lemma base_components base :
  canonical base → trailing base = false →
  ∃ ds x, components base = ds ++ [x] ∧ x ≠ [] ∧ names base = (escape_part <$> ds) ++ [escape_part x].
Proof.
  intros (H1 & H2 & _) Ht. destruct (exists_last (split_byte_ne SLASH (split_members true (drop 1 base)))) as (ds & x & E).
  fold (components base) in E. exists ds, x.
  pose proof (key_parts_names base) as Hn. rewrite Ht, app_nil_r, key_components, E, fmap_app in Hn by done.
  split_and!; [done| |done]. intros ->. revert Ht. unfold trailing.
  rewrite key_components, E, fmap_app by done. cbn. rewrite last_snoc. by rewrite bool_decide_true.
Qed.

(** What a component is like whose entry [del_tree] removes. *)
Definition doomed_component (x y : str) : Prop := y = x ∨ y = x ++ "·"%rs ∨ ∃ z, y = x ++ "‥"%rs ++ z.

Lemma subtree_components base key (ds : list str) (x : str) :
  starts_with "/"%rs base = true → components base = ds ++ [x] → x ≠ [] → starts_with "/"%rs key = true →
  is_subtree_key base key = true ↔ ∃ y q, components key = ds ++ y :: q ∧ doomed_component x y.
Proof.
  intros [kb ->]%starts_with_true Hb Hx [kk ->]%starts_with_true.
  change ("/"%rs ++ kb) with (SLASH :: kb) in *. change ("/"%rs ++ kk) with (SLASH :: kk) in *.
  unfold components in *. cbn [drop] in *. rewrite drop_0 in *.
  assert (Hk0 : kb ≠ []) by (intros ->; cbn in Hb; destruct ds as [|? [|]]; by simplify_eq/=).
  assert (Hl : last kb ≠ Some SLASH).
  { intros [k0 ->]%last_Some. rewrite split_members_snoc, split_byte_snoc in Hb. by apply app_inj_tail in Hb as [_ <-]. }
  assert (Hsub : is_subtree_key (SLASH :: kb) (SLASH :: kk) = true ↔
    ∃ r, kk = kb ++ r ∧ (r = [] ∨ starts_with "/"%rs r = true ∨ starts_with "·"%rs r = true ∨ starts_with "‥"%rs r = true)).
  { unfold is_subtree_key. rewrite decide_False by (by intros [= ->]). destruct (strip_prefix _ _) as [r|] eqn:E.
    - apply strip_prefix_Some in E. injection E as ->. split.
      + intros H. exists r. split; [done|]. destruct r as [|z r]; [by left|right].
        apply orb_true_iff in H as [H|H]; [|by auto]. apply orb_true_iff in H as [H|H]; auto.
      + intros (r' & H & Hr). apply app_inv_head in H as <-. destruct r as [|z r]; [done|].
        destruct Hr as [|[->|[->| ->]]]; rewrite ?orb_true_r; done.
    - split; [done|]. intros (r & -> & _). pose proof (strip_prefix_app (SLASH :: kb) r) as E'. cbn [app] in E'. congruence. }
  rewrite Hsub. split.
  - intros (r & -> & [->|[H|[H|H]]]).
    + exists x, []. rewrite app_nil_r. by split; [|left].
    + apply starts_with_true in H as [u ->]. change ("/"%rs ++ u) with (SLASH :: u).
      rewrite split_members_at_slash, split_byte_at, Hb, <-app_assoc. eexists _, _. by split; [|left].
    + apply starts_with_true in H as [u ->]. rewrite split_members_at_obj, <-app_assoc by done.
      change ("·"%rs ++ SLASH :: ?w) with ("·"%rs ++ SLASH :: w).
      erewrite split_byte_extend; [|done|by apply (split_byte_app SLASH "·"%rs); set_solver].
      eexists _, _. split; [done|]. right; by left.
    + apply starts_with_true in H as [u ->]. destruct (split_members_app true kb ("‥"%rs ++ u)) as [b' ->]; [done|].
      rewrite split_members_runtime. destruct (split_byte SLASH (split_members false u)) as [|y q] eqn:E; [by apply split_byte_ne in E|].
      assert (E' : split_byte SLASH ("‥"%rs ++ split_members false u) = ("‥"%rs ++ y) :: q).
      { by rewrite (split_byte_extend SLASH "‥"%rs _ [] q "‥"%rs y). }
      rewrite (split_byte_extend _ _ _ ds q x _ Hb E'). eexists _, _. split; [done|]. right; right. by exists y.
  - intros (y & q & Hy & Hd).
    assert (∃ e, y = x ++ e ∧ (e = [] ∨ e = "·"%rs ∨ ∃ z, e = "‥"%rs ++ z)) as (e & -> & He).
    { destruct Hd as [->|[->|[z ->]]]; [exists []|exists "·"%rs|exists ("‥"%rs ++ z)]; rewrite ?app_nil_r; split; eauto. }
    pose proof (join_split SLASH (split_members true kk)) as Ek. pose proof (join_split SLASH (split_members true kb)) as Eb.
    rewrite Hy, join_extend in Ek. rewrite Hb in Eb. rewrite Eb in Ek.
    destruct (split_members_prefix true kb kk (e ++ match q with [] => [] | _ => [SLASH] ++ join [SLASH] q end)) as (r & b' & -> & E).
    { destruct He as [->|[->|[z ->]]]; [by destruct q|done|done]. }
    { done. }
    exists r. split; [done|]. destruct r as [|c r]; [by left|right].
    destruct He as [->|[->|[z ->]]].
    + left. destruct (split_members_head b' c r) as [w Hw]. rewrite Hw in E. destruct q; [done|].
      injection E as <- _. apply starts_with_true. by exists r.
    + right; left. rewrite <-(starts_with_members b'), <-E. apply starts_with_app.
    + right; right. apply (starts_with_runtime b' _ (z ++ match q with [] => [] | _ => [SLASH] ++ join [SLASH] q end)).
      by rewrite <-E, <-app_assoc.
Qed.

(** ** The components of a string are strings *)

Lemma split_members_char b (w k : str) c (v : str) :
  w = c :: v → starts_with "·"%rs (w ++ k) = false → Forall (λ d, cont d = true) v →
  ∃ b', split_members b (w ++ k) = w ++ split_members b' k.
Proof.
  intros -> Hs Hv. cbn [app] in *. rewrite split_members_cons by done.
  assert (∃ b', split_members (bool_decide (c = SLASH)) (v ++ k) = v ++ split_members b' k) as [b' ->]; [|by exists b'].
  clear Hs. generalize (bool_decide (c = SLASH)) as b0. induction Hv as [|d v Hd Hv IH]; intros b0; [by exists b0|].
  cbn [app]. rewrite split_members_cons; [destruct (IH (bool_decide (d = SLASH))) as [b' ->]; by exists b'|].
  unfold starts_with. cbn. rewrite decide_False; [done|]. by intros <-.
Qed.

Lemma valid_split_members b k : utf8_valid k = true → utf8_valid (split_members b k) = true.
Proof.
  remember (length k) as n eqn:Hn. revert b k Hn. induction (lt_wf n) as [n _ IH]. intros b k -> H.
  destruct k as [|c k]; [done|]. destruct (starts_with "·"%rs (c :: k)) eqn:Es.
  - apply starts_with_true in Es as [r Er]. rewrite Er in *. rewrite split_members_obj.
    assert (Hr : utf8_valid r = true) by (rewrite utf8_valid_step in H by done; by apply andb_true_iff in H as [_ H]).
    repeat apply utf8_valid_app; [done|by destruct b|]. apply (IH (length r)); [|done..].
    apply (f_equal length) in Er. cbn in *. lia.
  - pose proof H as H0. rewrite utf8_valid_step in H by done. destruct (utf8_chunk (c :: k)) as [m [|]] eqn:E; [|done].
    cbn [andb] in H. pose proof (utf8_chunk_tail c k m E) as Ht. pose proof (utf8_chunk_pos (c :: k) ltac:(done)) as Hp.
    rewrite E in Hp. cbn [fst] in Hp.
    assert (Hw : take m (c :: k) = c :: take (m - 1) k) by (destruct m; [lia|]; cbn; by rewrite Nat.sub_0_r).
    destruct (split_members_char b (take m (c :: k)) (drop m (c :: k)) c (take (m - 1) k)) as [b' Hb'];
      [done|by rewrite take_drop|done|]. rewrite take_drop in Hb'. rewrite Hb'.
    apply utf8_valid_app; [by apply utf8_valid_take|]. apply (IH (length (drop m (c :: k)))); [|done..].
    rewrite length_drop. cbn [length]. lia.
Qed.

Lemma valid_split_byte (s : str) : utf8_valid s = true → Forall (λ w, utf8_valid w = true) (split_byte SLASH s).
Proof.
  remember (length s) as n eqn:Hn. revert s Hn. induction (lt_wf n) as [n _ IH]. intros s -> H.
  destruct (decide (SLASH ∈ s)) as [Hin|Hin]; [|rewrite split_byte_notin by done; by constructor].
  apply list_elem_of_split_l in Hin as (w & r & -> & Hw). rewrite split_byte_app by done.
  apply utf8_valid_cut in H as [H1 H2]; [|done]. rewrite utf8_valid_step in H2 by done.
  constructor; [done|]. apply (IH (length r)); [rewrite length_app; cbn; lia|done|done].
Qed.

Lemma components_valid key :
  starts_with "/"%rs key = true → utf8_valid key = true → Forall (λ w, utf8_valid w = true) (components key).
Proof.
  intros [k ->]%starts_with_true H. apply valid_split_byte, valid_split_members.
  change ("/"%rs ++ k) with (SLASH :: k) in *. rewrite utf8_valid_step in H by done. exact H.
Qed.

(** ** Removing locations *)

(** The tree without what is at or below the locations [ls]. *)
Definition prune (ls : list (list (list Byte.byte))) t : fstree :=
  filter (λ kv, Forall (λ l, ¬ below l kv.1) ls) t.

Lemma lookup_prune ls t p : prune ls t !! p = if decide (Forall (λ l, ¬ below l p) ls) then t !! p else None.
Proof. unfold prune. rewrite map_lookup_filter. destruct (t !! p); cbn; repeat case_guard; by repeat case_decide. Qed.

Lemma prune_cons l ls t : prune (l :: ls) t = prune ls (prune [l] t).
Proof.
  apply map_eq. intros p. rewrite !lookup_prune. repeat case_decide; try done.
  all: rewrite ?Forall_cons, ?Forall_nil in *; naive_solver.
Qed.

Lemma wf_prune ls t : wf_tree t → wf_tree (prune ls t).
Proof.
  intros [H0 Hwf]. split; [rewrite lookup_prune; by case_decide|]. intros l c H.
  rewrite lookup_prune in H. case_decide as Hd; [|by destruct H]. specialize (Hwf l c H).
  destruct l as [|x l]; [done|]. cbn [node_at] in *. rewrite lookup_prune, decide_True; [done|].
  eapply Forall_impl; [exact Hd|]. cbn beta. intros d Hn Hb. apply Hn. unfold below in *. by apply prefix_app_r.
Qed.

(** A location with nothing below it. *)
Lemma prune_bare t l : wf_tree t → node_at t l ≠ Some Dir → l ≠ [] → prune [l] t = delete l t.
Proof.
  intros Hwf Hl Hne. apply map_eq. intros p. rewrite lookup_prune. destruct (decide (p = l)) as [->|Hk].
  - rewrite lookup_delete_eq. case_decide as H; [|done]. rewrite Forall_singleton in H. by destruct H.
  - rewrite lookup_delete_ne by done. case_decide as H; [done|].
    rewrite Forall_singleton in H. destruct (decide (below l p)) as [[q ->]|]; [|done].
    symmetry. apply (wf_nothing_below t l q Hwf Hl). intros ->. by rewrite app_nil_r in Hk.
Qed.

Lemma remove_node_prune prefix l s :
  wf_tree (tree s) → Forall proper l → l ≠ [] →
  remove_node prefix l s = (Ok tt, mkFs (prune [l] (tree s)) (tmp_seq s)).
Proof.
  intros Hwf Hp Hne. unfold remove_node. rewrite path_is_dir_names by done. unfold path_is_file.
  rewrite stat_names by done. destruct (dir_at (tree s) l) eqn:Ed.
  - apply dir_at_true in Ed. unfold remove_dir_all. rewrite lookup_names by (done || by rewrite Ed). cbn [mbind res_bind].
    rewrite Ed. do 2 f_equal. apply map_eq. intros p. rewrite lookup_prune, map_lookup_filter.
    destruct (tree s !! p); cbn; repeat case_guard; repeat case_decide; rewrite ?Forall_singleton in *; done.
  - assert (Hn : node_at (tree s) l ≠ Some Dir) by (intros E; unfold dir_at in Ed; by rewrite bool_decide_true in Ed).
    rewrite prune_bare by done. destruct (node_at (tree s) l) as [[d|]|] eqn:E; [|done|].
    + assert (remove_file (tree s) l = Ok (delete l (tree s))) as ->; [|done].
      destruct (exists_last Hne) as (q & c & ->). pose proof Hp as [Hq Hc]%Forall_app. rewrite Forall_singleton in Hc.
      apply (remove_file_names (tree s) Hwf q c _ Hq Hc). rewrite node_at_app in E. eauto.
    + rewrite delete_id; [by destruct s|]. by destruct l.
Qed.

Section subtree.
Context (root : list (list Byte.byte)) (Hroot : Forall proper root).

Lemma remove_nodes prefix ls s :
  wf_tree (tree s) → Forall (λ l, Forall proper l ∧ l ≠ []) ls →
  for_each ls (remove_node prefix) s = (Ok tt, mkFs (prune ls (tree s)) (tmp_seq s)).
Proof.
  intros Hwf Hls. revert s Hwf. induction Hls as [|l ls [Hp Hne] _ IH]; intros s Hwf.
  - cbn. do 2 f_equal. destruct s as [t n]. f_equal. apply map_eq. intros p. by rewrite lookup_prune, decide_True.
  - cbn [for_each]. rewrite stm_bind_eq, remove_node_prune by done. rewrite IH by (by apply wf_prune). cbn [tree tmp_seq].
    by rewrite (prune_cons l ls).
Qed.

Lemma node_at_prune ls t p :
  Forall (λ l, l ≠ []) ls → node_at (prune ls t) p = if decide (Forall (λ l, ¬ below l p) ls) then node_at t p else None.
Proof.
  intros Hne. destruct p as [|c p]; [|apply lookup_prune]. cbn [node_at]. rewrite decide_True; [done|].
  eapply Forall_impl; [exact Hne|]. cbn beta. intros l Hl Hb. by apply prefix_nil_inv in Hb.
Qed.

Lemma leaf_prune ls t key :
  Forall (λ l, l ≠ []) ls → (∀ l, l ∈ ls → l ≠ loc_of root key ++ [leaf_marker key]) →
  leaf root (prune ls t) key = if decide (Forall (λ l, ¬ below l (loc_of root key)) ls) then leaf root t key else None.
Proof.
  intros Hne Hm. unfold leaf. rewrite node_at_prune by done. case_decide as Hb; [|done].
  destruct (node_at t (loc_of root key)) as [[d|]|]; try done. unfold file_at. rewrite lookup_prune, decide_True; [done|].
  rewrite Forall_forall in *. intros l Hl Hbl. apply (Hb l Hl).
  unfold below in *. destruct Hbl as [q Hq]. destruct q as [|c q _] using rev_ind.
  - rewrite app_nil_r in Hq. by destruct (Hm l Hl).
  - rewrite app_assoc in Hq. apply app_inj_tail in Hq as [-> _]. by exists q.
Qed.

Lemma space_prune ls t : Forall (λ l, l ≠ []) ls → space_tree root t → space_tree root (prune ls t).
Proof.
  intros Hne [Hwf Hc]. split; [by apply wf_prune|]. intros k d Hk. rewrite node_at_prune by done.
  case_decide; [by apply Hc|done].
Qed.

(** ** The entries removed *)

Lemma runtime_entries_spec p (stem : str) (ns : list str) :
  match runtime_entries p stem ns with
  | Ok ls => ∀ l, l ∈ ls ↔ ∃ n, n ∈ ns ∧ l = p ++ [n] ∧ is_tmp_name n = false ∧
      ∃ name, unescape_name (from_utf8_lossy n) = Ok name ∧ starts_with stem name = true
  | Panic e => ∃ n, n ∈ ns ∧ unescape_name (from_utf8_lossy n) = Panic e
  | Err _ => False
  end.
Proof.
  induction ns as [|n ns IH]; cbn [runtime_entries].
  { intros l. rewrite elem_of_nil. split; [done|]. by intros (n & ?%not_elem_of_nil & _). }
  assert (Hu : ∀ e, unescape_name (from_utf8_lossy n) ≠ Err e).
  { intros e. unfold unescape_name. destruct (strip_prefix _ _) as [h|]; [|done].
    destruct (Nat.odd _); [done|]. by destruct (unhex h). }
  set (hit := if is_tmp_name n then _ else _).
  assert (Hhit : match hit with
    | Ok b => b = true ↔ is_tmp_name n = false ∧ ∃ name, unescape_name (from_utf8_lossy n) = Ok name ∧ starts_with stem name = true
    | Panic e => unescape_name (from_utf8_lossy n) = Panic e | Err _ => False end).
  { unfold hit. destruct (is_tmp_name n); [naive_solver|].
    destruct (unescape_name _) as [name|e|e]; [|by destruct (Hu e)|done]. cbn [mbind res_bind]. naive_solver. }
  destruct hit as [b|e|e]; [|done|]; cbn [mbind res_bind]; [|exists n; split; [left|done]].
  destruct (runtime_entries p stem ns) as [ls|e|e]; [|done|]; cbn [mbind res_bind];
    [|destruct IH as (c & Hc & H); exists c; split; [by right|done]].
  intros l. setoid_rewrite elem_of_cons. destruct b.
  - rewrite elem_of_cons, IH. naive_solver.
  - rewrite IH. split; [naive_solver|]. intros (c & [->|Hc] & -> & Ht & H); [|eauto 10]. discriminate (proj2 Hhit (conj Ht H)).
Qed.

(** An entry whose name decodes to a runtime name is neither special nor a marker. *)
Lemma decoded_proper (n name x : str) :
  unescape_name (from_utf8_lossy n) = Ok name → starts_with (x ++ RUNTIME_MEMBER_SEP) name = true →
  proper n ∧ n ≠ SELF_MARKER ∧ n ≠ DIR_MARKER.
Proof.
  intros H [y ->]%starts_with_true.
  assert (Hl : ∀ c : str, unescape_name (from_utf8_lossy c) = Ok c → contains RUNTIME_MEMBER_SEP c = false → n ≠ c).
  { intros c Hc Hf ->. rewrite Hc in H. injection H as E. rewrite contains_false in Hf. apply (Hf x y).
    by rewrite E, <-app_assoc. }
  repeat split; apply Hl; vm_compute; reflexivity.
Qed.

(** ** The names of a subtree *)

Lemma no_slashes_obj (x : str) : contains "//"%rs x = false → contains "//"%rs (x ++ "·"%rs) = false.
Proof.
  rewrite !contains_false. intros H u v E. change ("·"%rs : str) with ([Byte.xc2] ++ [Byte.xb7]) in E.
  rewrite !app_assoc in E. destruct v as [|y v _] using rev_ind.
  - rewrite app_nil_r in E. change ("//"%rs : str) with ([SLASH] ++ [SLASH]) in E. rewrite app_assoc in E.
    by apply app_inj_tail in E as [_ E].
  - rewrite !app_assoc in E. apply app_inj_tail in E as [E _]. destruct v as [|z v _] using rev_ind.
    + rewrite app_nil_r in E. change ("//"%rs : str) with ([SLASH] ++ [SLASH]) in E. rewrite app_assoc in E.
      by apply app_inj_tail in E as [_ E].
    + rewrite !app_assoc in E. apply app_inj_tail in E as [E _]. apply (H u v). by rewrite E, <-app_assoc.
Qed.

Abbreviation escaped := (fmap (M := list) escape_part).

Lemma names_components key (ds : list str) (y : str) (q : list str) :
  canonical key → components key = ds ++ y :: q → y ≠ [] →
  ∃ q', names key = escaped ds ++ escape_part y :: q'.
Proof.
  intros (H1 & H2 & _) E Hy. apply (names_of_parts _ _ _ (escaped q)); [|by rewrite escape_part_nil].
  by rewrite key_components, E, fmap_app by done.
Qed.

Lemma components_names key (ds : list str) (c : str) (q : list str) :
  canonical key → names key = escaped ds ++ c :: q →
  ∃ y q', components key = ds ++ y :: q' ∧ c = escape_part y.
Proof.
  intros (H1 & H2 & _) E. destruct (parts_of_names key (escaped ds ++ [c])) as [z Hz].
  { exists q. by rewrite E, <-app_assoc. }
  rewrite key_components, <-app_assoc in Hz by done. apply fmap_app_inv in Hz as (l1 & l2 & Hl1 & Hl2 & E').
  destruct l2 as [|y l2]; [done|]. injection Hl2 as -> _. symmetry in Hl1. apply escape_parts_inj in Hl1 as ->.
  by exists y, l2.
Qed.

(** The directory of members next to a node. *)
Lemma names_members base (ds : list str) (x : str) :
  canonical base → components base = ds ++ [x] → x ≠ [] →
  canonical (base ++ "·"%rs) ∧ names (base ++ "·"%rs) = escaped ds ++ [escape_part (x ++ "·"%rs)].
Proof.
  intros Hb Hc Hx. pose proof Hb as (H1 & H2 & H3).
  assert (H1' : starts_with "/"%rs (base ++ "·"%rs) = true).
  { apply starts_with_true in H1 as [r ->]. by rewrite <-app_assoc, starts_with_app. }
  assert (H2' := no_slashes_obj base H2).
  assert (Hcm : components (base ++ "·"%rs) = ds ++ [x ++ "·"%rs; []]).
  { apply starts_with_true in H1 as [k ->]. change ("/"%rs ++ k) with (SLASH :: k) in *. unfold components in *.
    cbn [drop app] in *. rewrite drop_0 in *. rewrite <-(app_nil_r "·"%rs). rewrite split_members_at_obj, <-app_assoc.
    - cbn [split_members]. apply (split_byte_extend SLASH _ _ ds [[]] x "·"%rs Hc). done.
    - intros ->. destruct ds as [|? [|]]; by simplify_eq/=.
    - intros [k0 ->]%last_Some. rewrite split_members_snoc, split_byte_snoc in Hc. by apply app_inj_tail in Hc as [_ <-]. }
  assert (Hn : names (base ++ "·"%rs) = escaped ds ++ [escape_part (x ++ "·"%rs)]).
  { unfold names, trailing. rewrite key_components, Hcm, fmap_app by done. cbn [fmap list_fmap].
    rewrite bool_decide_true by (rewrite last_app; done). change (escape_part []) with ([] : str).
    change ([escape_part (x ++ "·"%rs); []]) with ([escape_part (x ++ "·"%rs)] ++ [[] : str]).
    rewrite app_assoc, length_app. cbn [length]. by rewrite Nat.add_sub, take_app_length. }
  split; [|done]. split_and!; [done..|]. rewrite Hn. apply Forall_app. split.
  - destruct (names_components base ds x [] Hb Hc Hx) as [q' E]. rewrite E in H3. by apply Forall_app in H3 as [? _].
  - rewrite Forall_singleton.
    assert (Hl : last (x ++ "·"%rs) = Some Byte.xb7) by (by rewrite last_app).
    destruct (escape_part_cases (x ++ "·"%rs)) as [[-> _]| ->]; split_and!; try done;
      intros E; rewrite E in Hl; discriminate Hl.
Qed.

(** What [del_tree] needs of the key it is given, after resolution. *)
Definition subtree_key base : Prop := canonical base ∧ trailing base = false ∧ utf8_valid base = true.

Section base.
Context (t : fstree) (Hwf : wf_tree t) (base : str) (ds : list str) (x : str).
Context (Hb : canonical base) (Ht : trailing base = false) (Hc : components base = ds ++ [x]) (Hx : x ≠ []).
Context (Hxv : utf8_valid x = true).

Let P : list (list Byte.byte) := root ++ escaped ds.

Lemma base_loc :
  loc_of root base = P ++ [escape_part x] ∧ loc_of root (base ++ "·"%rs) = P ++ [escape_part (x ++ "·"%rs)] ∧
  Forall proper P ∧ proper (escape_part x) ∧ proper (escape_part (x ++ "·"%rs)).
Proof using All.
  destruct (base_components base Hb Ht) as (ds' & x' & Hc' & _ & Hn).
  rewrite Hc in Hc'. apply app_inj_tail in Hc' as [<- <-].
  destruct (names_members base ds x Hb Hc Hx) as [Hm Hmn].
  assert (H1 : loc_of root base = P ++ [escape_part x]) by (unfold loc_of, P; by rewrite Hn, app_assoc).
  assert (H2 : loc_of root (base ++ "·"%rs) = P ++ [escape_part (x ++ "·"%rs)]) by (unfold loc_of, P; by rewrite Hmn, app_assoc).
  pose proof (loc_proper root Hroot _ Hb) as Hp. rewrite H1, Forall_app, Forall_singleton in Hp.
  pose proof (loc_proper root Hroot _ Hm) as Hpm. rewrite H2, Forall_app, Forall_singleton in Hpm. tauto.
Qed.

(** The name of an entry that is removed. *)
Definition doomed_name (c : str) : Prop :=
  c = escape_part x ∨ c = escape_part (x ++ "·"%rs) ∨
  (c ∈ default [] (read_dir t P) ∧ is_tmp_name c = false ∧
   ∃ name, unescape_name (from_utf8_lossy c) = Ok name ∧ starts_with (x ++ RUNTIME_MEMBER_SEP) name = true).

Lemma decode_escaped (y : str) : utf8_valid y = true → unescape_name (from_utf8_lossy (escape_part y)) = Ok y.
Proof. intros Hy. rewrite lossy_valid by (by apply escape_part_valid). by apply unescape_escape. Qed.

Lemma doomed_names :
  match doomed root t base with
  | Ok ls => ∀ l, l ∈ ls ↔ ∃ c, l = P ++ [c] ∧ doomed_name c
  | Panic e => ∃ c, unescape_name (from_utf8_lossy c) = Panic e
  | Err _ => False
  end.
Proof using All.
  destruct base_loc as (H1 & H2 & HP & Hpx & _). destruct (names_members base ds x Hb Hc Hx) as [Hm _].
  unfold doomed. rewrite bool_decide_false by (intros E; rewrite E in Hb; by destruct Hb).
  change OBJ_SEP with ("·"%rs : str). rewrite (node_path_loc root Hroot _ Hm), (node_path_loc root Hroot _ Hb), H1, H2.
  assert (parent_path (P ++ [escape_part x]) = Some P) as ->.
  { apply (in_dir_parent t (P ++ [escape_part x]) P (escape_part x) HP Hpx). by left. }
  assert (file_name (P ++ [escape_part x]) = Some (escape_part x)) as ->.
  { unfold file_name. rewrite normal_names by (apply Forall_app; by rewrite Forall_singleton).
    rewrite last_snoc, decide_False; [done|]. by destruct Hpx as (_ & _ & ?). }
  rewrite (decode_escaped x Hxv). cbn [mbind res_bind].
  pose proof (runtime_entries_spec P (x ++ RUNTIME_MEMBER_SEP) (default [] (read_dir t P))) as Hrt.
  destruct (runtime_entries _ _ _) as [rs|e|e]; [|done|destruct Hrt as (n & _ & H); by exists n].
  cbn [mbind res_bind]. intros l. rewrite elem_of_cons, elem_of_app, list_elem_of_singleton, Hrt.
  unfold doomed_name. naive_solver.
Qed.

Lemma doomed_name_proper (c : str) : doomed_name c → proper c ∧ c ≠ SELF_MARKER ∧ c ≠ DIR_MARKER.
Proof using All.
  destruct base_loc as (_ & _ & _ & Hpx & Hpm).
  intros [->|[->|(_ & _ & name & H1 & H2)]]; [..|by eapply decoded_proper];
    destruct (escape_part_name x) as (? & ? & _), (escape_part_name (x ++ "·"%rs)) as (? & ? & _); done.
Qed.

Lemma doomed_name_component (y : str) :
  utf8_valid y = true → doomed_name (escape_part y) → doomed_component x y.
Proof using All.
  intros Hy [H%escape_part_inj|[H%escape_part_inj|(_ & _ & name & H1 & H2)]]; [by left|by right; left|].
  rewrite (decode_escaped y Hy) in H1. injection H1 as <-. apply starts_with_true in H2 as [z ->].
  right; right. exists z. by rewrite <-app_assoc.
Qed.

(** A doomed component of a stored key is the name of an entry. *)
Lemma doomed_component_name (y : str) (q : list (list Byte.byte)) :
  utf8_valid y = true → doomed_component x y → is_Some (node_at t (P ++ escape_part y :: q)) →
  doomed_name (escape_part y).
Proof using All.
  intros Hy [->|[->|[z ->]]] Hn; [by left|by right; left|right; right].
  destruct base_loc as (_ & _ & HP & _). destruct (escape_part_name (x ++ "‥"%rs ++ z)) as (_ & _ & Htmp).
  assert (Hc1 : is_Some (node_at t (P ++ [escape_part (x ++ "‥"%rs ++ z)]))).
  { destruct q as [|w q]; [done|]. eexists. apply (wf_prefix t _ (w :: q) Hwf); [|done]. by rewrite <-app_assoc. }
  split_and!.
  - assert (Hd : node_at t P = Some Dir) by (by apply (wf_prefix t P [escape_part (x ++ "‥"%rs ++ z)] Hwf)).
    unfold read_dir. rewrite lookup_names by (done || by rewrite Hd). unfold dir_at. rewrite bool_decide_true by done.
    cbn [default from_option]. apply elem_of_children. by rewrite <-node_at_app.
  - unfold is_tmp_name. by rewrite Htmp, andb_false_r.
  - exists (x ++ "‥"%rs ++ z). split; [by apply decode_escaped|]. rewrite app_assoc. apply starts_with_app.
Qed.

(** The removed entries hold exactly the stored keys of the subtree. *)
Lemma doomed_keys ls key :
  (∀ l, l ∈ ls ↔ ∃ c, l = P ++ [c] ∧ doomed_name c) → canonical key → utf8_valid key = true →
  (is_subtree_key base key = false → Forall (λ l, ¬ below l (loc_of root key)) ls) ∧
  (is_subtree_key base key = true → is_Some (leaf root t key) → ¬ Forall (λ l, ¬ below l (loc_of root key)) ls).
Proof using All.
  intros Hls Hk Hkv. pose proof (components_valid key (proj1 Hk) Hkv) as Hv.
  pose proof (subtree_components base key ds x (proj1 Hb) Hc Hx (proj1 Hk)) as Hsub. split.
  - intros Hf. apply Forall_forall. intros l (c & -> & Hd)%Hls [q Hq]. unfold loc_of, P in Hq.
    rewrite <-!app_assoc in Hq. apply app_inv_head in Hq.
    destruct (components_names key ds c q Hk Hq) as (y & q' & Hy & ->). rewrite Hy in Hv.
    apply Forall_app in Hv as [_ [Hyv _]%Forall_cons_1].
    assert (is_subtree_key base key = true) by (apply Hsub; exists y, q'; split; [done|by apply doomed_name_component]).
    congruence.
  - intros (y & q & Hy & Hd)%Hsub Hl Hall. assert (Hy0 : y ≠ []) by (destruct Hd as [->|[->|[z ->]]]; by destruct x).
    destruct (names_components key ds y q Hk Hy Hy0) as [q' Hn].
    assert (Hloc : loc_of root key = P ++ escape_part y :: q') by (unfold loc_of, P; by rewrite Hn, app_assoc).
    rewrite Hy in Hv. apply Forall_app in Hv as [_ [Hyv _]%Forall_cons_1].
    rewrite Forall_forall in Hall. apply (Hall (P ++ [escape_part y])).
    + apply Hls. exists (escape_part y). split; [done|]. apply (doomed_component_name y q' Hyv Hd).
      rewrite <-Hloc. unfold leaf in Hl. destruct (node_at t _); [done|by destruct Hl].
    + exists q'. by rewrite Hloc, <-app_assoc.
Qed.
End base.

(** C34. [del_tree] of a path that is no link and not the whole space, whose resolved base is a
    canonical string: it succeeds, or panics on a foreign file name before any change; after it
    exactly the keys of the subtree (the base, what is below it, its members, its runtime names)
    have lost their values, and the tree is again one the space works on. *)
Theorem fs_del_tree_exact prefix s :
  let base := subtree_base (fs_resolve_parent root (tree s) prefix) in
  space_tree root (tree s) → is_reserved prefix = false →
  is_reserved (fs_resolve_parent root (tree s) prefix) = false →
  canonical base → trailing base = false → utf8_valid base = true → fs_is_link root (tree s) base = false →
  match fs_del_tree root prefix s with
  | (Ok _, s') => space_tree root (tree s') ∧
      ∀ key, canonical key → utf8_valid key = true →
        read_leaf root (tree s') key = if is_subtree_key base key then None else read_leaf root (tree s) key
  | (Panic e, s') => s' = s ∧ ∃ c, unescape_name (from_utf8_lossy c) = Panic e
  | (Err _, _) => False
  end.
Proof.
  intros base Hs Hr Hrr Hb Ht Hv Hlink. pose proof Hs as [Hwf _].
  destruct (base_components base Hb Ht) as (ds & x & Hc & Hx & _).
  assert (Hxv : utf8_valid x = true).
  { pose proof (components_valid base (proj1 Hb) Hv) as H. rewrite Hc in H. by apply Forall_app in H as [_ [H _]%Forall_cons_1]. }
  unfold fs_del_tree. rewrite bind_err_if, Hr, bind_gets, bind_err_if, Hrr. cbv zeta. fold base.
  rewrite bind_gets, Hlink, andb_false_r, stm_bind_eq.
  pose proof (doomed_names (tree s) Hwf base ds x Hb Ht Hc Hx Hxv) as Hls.
  destruct (doomed root (tree s) base) as [ls|e|e]; [|done|by split].
  assert (Hne : Forall (λ l, Forall proper l ∧ l ≠ []) ls).
  { destruct (base_loc (tree s) Hwf base ds x Hb Ht Hc Hx Hxv) as (_ & _ & HP & _).
    apply Forall_forall. intros l (c & -> & Hd)%Hls. apply (doomed_name_proper (tree s) Hwf base ds x Hb Ht Hc Hx Hxv) in Hd as (Hp & _).
    split; [|by intros []%app_eq_nil]. apply Forall_app. by rewrite Forall_singleton. }
  rewrite remove_nodes by done. cbn [tree].
  assert (Hne' : Forall (λ l, l ≠ []) ls) by (eapply Forall_impl; [exact Hne|]; by intros l [_ ?]).
  split; [by apply space_prune|]. intros key Hk Hkv.
  rewrite !read_leaf_spec by (try done; by apply wf_prune). rewrite leaf_prune; [|done|].
  - destruct (doomed_keys (tree s) Hwf base ds x Hb Ht Hc Hx Hxv ls key Hls Hk Hkv) as [H1 H2].
    destruct (is_subtree_key base key); [|by rewrite decide_True by auto].
    case_decide as Hf; [|done]. destruct (leaf root (tree s) key) eqn:El; [|done]. destruct (H2 eq_refl); eauto.
  - intros l (c & -> & Hd)%Hls E. apply app_inj_tail in E as [_ ->].
    apply (doomed_name_proper (tree s) Hwf base ds x Hb Ht Hc Hx Hxv) in Hd as (_ & H1 & H2).
    by destruct (leaf_marker_cases key) as [E|[E _]]; rewrite E in *.
Qed.
End subtree.

(** ** Runs *)

(** A value, a key below it, a member, a runtime key, and a neighbour. *)
Definition sub_keys : list str := ["/a/b"%rs; "/a/b/c"%rs; "/a/b·x"%rs; "/a/b‥r"%rs; "/a/bc"%rs].
Definition sub_state : fsstate := foldl (λ s k, ls_put k s) ex_empty sub_keys.

Lemma sub_space : space_tree ex_root (tree sub_state).
Proof.
  assert (Hroot : Forall proper ex_root) by (by repeat constructor).
  assert (Hr : represents ex_root sub_state (foldl (λ m k, <[k := ex_wire "1"%rs]> m) ∅ sub_keys)).
  { unfold sub_state, sub_keys. cbn [foldl].
    do 5 (eapply (represents_put ex_root Hroot 7); [by decided| |apply pair_of_fst; vm_compute; reflexivity]).
    apply ex_represents. }
  apply Hr.
Qed.

Lemma fs_del_tree_exact_witness :
  Forall proper ex_root ∧ space_tree ex_root (tree sub_state) ∧
  let r := fs_del_tree ex_root "/a/b/"%rs sub_state in
  r.1 = Ok tt ∧ (λ k, read_leaf ex_root (tree r.2) k) <$> sub_keys = [None; None; None; None; Some (ex_wire "1"%rs)].
Proof.
  assert (Hroot : Forall proper ex_root) by (by repeat constructor).
  pose proof sub_space as Hs. split_and!; [done..|]. cbv zeta.
  pose proof (fs_del_tree_exact ex_root Hroot "/a/b/"%rs sub_state) as H. cbv zeta in H. specialize (H Hs eq_refl).
  assert (E : fs_resolve_parent ex_root (tree sub_state) "/a/b/"%rs = "/a/b/"%rs) by (vm_compute; reflexivity).
  rewrite E in H. change (subtree_base "/a/b/"%rs) with ("/a/b"%rs : str) in H.
  specialize (H eq_refl ltac:(by decided) ltac:(vm_compute; reflexivity) ltac:(vm_compute; reflexivity)
    ltac:(vm_compute; reflexivity)).
  assert (Hok : (fs_del_tree ex_root "/a/b/"%rs sub_state).1 = Ok tt) by (vm_compute; reflexivity).
  split; [exact Hok|]. destruct (fs_del_tree ex_root "/a/b/"%rs sub_state) as [[u|e|e] s']; try discriminate Hok.
  destruct H as [_ H]. cbn [snd sub_keys fmap list_fmap].
  rewrite !H by (by decided || by vm_compute). vm_compute. reflexivity.
Defined.
