(* ===== verification/Conn.v ===== *)
(** * Choosing a backend: [src/src/conn.rs]

    [conn] picks the backend by the scheme of a DSN and connects it.  Connecting to Redis goes
    through the network, the directory space creates its root; the environment variable, the
    working directory, the tree and the network are what the call starts from. *)

From S2P Require Import Prelude RustInt RustStr RustText KPath Dsn Store Backend KVSpace S3Store Redis FsTree FsSpace.
Local Open Scope Z_scope.
Implicit Types (dsn scheme addr : str).

Definition ENV_DSN : str := "KVSPACE"%rs.

(** The panics of [conn] and of the constructors it calls. *)
Inductive conn_panic :=
  | NoDsn (var : str)
  | UnknownScheme (scheme shown : str)
  | RedisConnect (addr : str) (e : redis_err)
  | FsConnect (e : kverr)
  | S3Connect (e : dsn_panic).

(** [Box<dyn KVSpace>]: what is behind it. *)
Inductive space (W : Type) :=
  | SpaceRedis (addr : str) (store : rstate W)
  | SpaceFs (root : list (list Byte.byte))
  | SpaceS3 (store : S3Store).
Arguments SpaceRedis {W} addr store.
Arguments SpaceFs {W} root.
Arguments SpaceS3 {W} store.

(** The scheme and the rest; without a scheme it is Redis. *)
Definition split_dsn dsn : str * str :=
  match find "://"%rs dsn with
  | Some i => (take i dsn, drop (i + 3) dsn)
  | None => ("redis"%rs, dsn)
  end.

Section conn.
Context {W : Type}.
Context (tcp_connect : str → W → res redis_err unit * W).
Context (tcp_option : sockopt → W → res redis_err unit * W).
Context (cwd : list (list Byte.byte)).

Definition conn_redis addr : stm (fstree * W) conn_panic (space W) := λ '(t, w),
  match new_store tcp_connect tcp_option (redis_addr addr) w with
  | (Ok r, w) => (Ok (SpaceRedis (redis_addr addr) r), (t, w))
  | (Err e, w) | (Panic e, w) => (Panic (RedisConnect (redis_addr addr) e), (t, w))
  end.

Definition conn_fs addr : stm (fstree * W) conn_panic (space W) := λ '(t, w),
  match fs_new cwd addr t with
  | Ok t => (Ok (SpaceFs (fs_root cwd addr)), (t, w))
  | Err e | Panic e => (Panic (FsConnect e), ((create_dir_all t (fs_root cwd addr)).1, w))
  end.

Definition conn_s3 dsn : res conn_panic (space W) :=
  match S3Store.connect dsn with
  | Ok s => Ok (SpaceS3 s)
  | Err e | Panic e => Panic (S3Connect e)
  end.

(** [env]: the value of [$KVSPACE], when it is set and is UTF-8. *)
Definition conn (env : option str) dsn : stm (fstree * W) conn_panic (space W) :=
  dsn ← lift (if bool_decide (dsn = [])
              then match env with Some d => Ok d | None => Panic (NoDsn ENV_DSN) end else Ok dsn);
  let '(scheme, addr) := split_dsn dsn in
  if decide (scheme = "redis"%rs) then conn_redis addr
  else if decide (scheme = "fs"%rs) then conn_fs addr
  else if decide (scheme = "s3"%rs) then lift (conn_s3 dsn)
  else lift (Panic (UnknownScheme scheme (redact dsn))).
End conn.

(** ** Lemmas *)

Lemma starts_with_take p s t n :
  (length p <= n)%nat → (n <= length s)%nat → starts_with p (take n s ++ t) = starts_with p s.
Proof.
  intros Hp Hn. destruct (starts_with p s) eqn:E.
  - apply starts_with_true in E as [r ->]. apply starts_with_true.
    rewrite take_app_ge by done. exists (take (n - length p) r ++ t). by rewrite app_assoc.
  - destruct (starts_with p (take n s ++ t)) eqn:E'; [|done]. apply starts_with_true in E' as [r Hr].
    assert (Hs : starts_with p s = true); [|congruence].
    apply (f_equal (take (length p))) in Hr. rewrite take_app_length, take_app_le in Hr
      by (rewrite length_take; lia).
    rewrite take_take, Nat.min_l in Hr by lia. apply starts_with_true.
    exists (drop (length p) s). by rewrite <-Hr at 1; rewrite take_drop.
Qed.

(** What follows the first occurrence does not move it. *)
Lemma find_take p s t i :
  p ≠ [] → find p s = Some i → find p (take (i + length p) s ++ t) = Some i.
Proof.
  intros Hp. revert i. induction s as [|c s IH]; intros i.
  - cbn [find]. destruct p; [done|]. done.
  - cbn [find]. destruct (starts_with p (c :: s)) eqn:E.
    + intros [= <-]. cbn [Nat.add]. apply starts_with_true in E as [r Hr]. rewrite Hr, take_app_length.
      destruct p as [|b p]; [done|]. cbn [app find]. by rewrite (starts_with_app (b :: p) t : starts_with (b :: p) (b :: p ++ t) = true).
    + intros (j & Hj & ->)%fmap_Some. cbn [Nat.add take app find].
      pose proof (find_Some _ _ _ Hj) as Hs. pose proof (occurrence_bound _ _ _ Hp Hs) as Hb.
      change (c :: take (j + length p) s ++ t) with (take (S (j + length p)) (c :: s) ++ t).
      rewrite starts_with_take, E by (cbn [length]; lia). by rewrite IH.
Qed.

Lemma find_redact dsn : find "://"%rs (redact dsn) = find "://"%rs dsn.
Proof.
  unfold redact. destruct (find "://"%rs dsn) as [i|] eqn:E; [|done]. cbv zeta.
  destruct (rfind _ _); [|done]. by apply (find_take "://"%rs).
Qed.

Lemma take_redact dsn i : find "://"%rs dsn = Some i → take i (redact dsn) = take i dsn.
Proof.
  intros E. unfold redact. rewrite E. cbv zeta. destruct (rfind _ _); [|done].
  pose proof (find_Some _ _ _ E) as Hs. pose proof (occurrence_bound "://"%rs _ _ ltac:(done) Hs) as Hb.
  cbn [length] in Hb. rewrite take_app_le by (rewrite length_take; lia). rewrite take_take. f_equal. lia.
Qed.

(** Only the scheme is refused as unknown. *)
Lemma connected_known {W} (tcp_connect : str → W → res redis_err unit * W)
    (tcp_option : sockopt → W → res redis_err unit * W) cwd (addr dsn s shown : str) w w' :
  conn_redis tcp_connect tcp_option addr w ≠ (Panic (UnknownScheme s shown), w') ∧
  conn_fs (W:=W) cwd addr w ≠ (Panic (UnknownScheme s shown), w') ∧
  conn_s3 (W:=W) dsn ≠ Panic (UnknownScheme s shown).
Proof.
  destruct w as [t w]. unfold conn_redis, conn_fs, conn_s3. split_and!.
  - by destruct (new_store tcp_connect tcp_option (redis_addr addr) w) as [[| |] ?].
  - by destruct (fs_new cwd addr t).
  - by destruct (S3Store.connect dsn).
Qed.

(** Which backend a DSN opens, and what a refusal shows.  An empty DSN stands for the
    environment variable, and without it the call panics; a DSN without [://] is a Redis address
    as a whole; the scheme before the first [://] selects Redis, the file system or S3 (which gets
    the whole DSN); any other scheme panics, and the panic is the same for all DSNs with the same
    redaction: it shows nothing of the credentials [redact] masks. *)
Theorem conn_dispatch {W} (tcp_connect : str → W → res redis_err unit * W)
    (tcp_option : sockopt → W → res redis_err unit * W) cwd w :
  let conn := conn tcp_connect tcp_option cwd in
  conn None [] w = (Panic (NoDsn ENV_DSN), w) ∧
  (∀ env d, d ≠ [] → conn (Some d) [] w = conn env d w) ∧
  (∀ env dsn, dsn ≠ [] → find "://"%rs dsn = None → conn env dsn w = conn_redis tcp_connect tcp_option dsn w) ∧
  (∀ env scheme addr, Byte.x3a ∉ scheme →
     conn env (scheme ++ "://"%rs ++ addr) w =
       if decide (scheme = "redis"%rs) then conn_redis tcp_connect tcp_option addr w
       else if decide (scheme = "fs"%rs) then conn_fs cwd addr w
       else if decide (scheme = "s3"%rs) then (conn_s3 (scheme ++ "://"%rs ++ addr), w)
       else (Panic (UnknownScheme scheme (redact (scheme ++ "://"%rs ++ addr))), w)) ∧
  (∀ env dsn dsn' s shown, dsn ≠ [] → redact dsn' = redact dsn →
     conn env dsn w = (Panic (UnknownScheme s shown), w) →
     conn env dsn' w = (Panic (UnknownScheme s shown), w) ∧ shown = redact dsn).
Proof.
  intros conn0. subst conn0. unfold conn. split_and!.
  - done.
  - intros env d Hd. by rewrite bool_decide_true, bool_decide_false by done.
  - intros env dsn Hd Hf. rewrite bool_decide_false by done. unfold split_dsn. rewrite bind_lift_ok, Hf. done.
  - intros env scheme addr Hs. rewrite bool_decide_false by (by destruct scheme). rewrite bind_lift_ok.
    unfold split_dsn. rewrite find_scheme by done.
    rewrite take_app_length, app_assoc, drop_app_length' by (rewrite length_app; done).
    rewrite <-app_assoc. by repeat case_decide.
  - intros env dsn dsn' s shown Hd Hr. rewrite bool_decide_false by done. rewrite bind_lift_ok.
    unfold split_dsn at 1. destruct (find "://"%rs dsn) as [i|] eqn:E; [|].
    2: { cbn. intros H. by apply (connected_known tcp_connect tcp_option cwd) in H. }
    assert (E' : find "://"%rs dsn' = Some i) by (by rewrite <-find_redact, Hr, find_redact).
    assert (Ht : take i dsn' = take i dsn) by (rewrite <-(take_redact dsn' i E'), Hr; by apply take_redact).
    assert (Hd' : dsn' ≠ []) by (intros E0; rewrite E0 in E'; discriminate E').
    rewrite (bool_decide_false (dsn' = [])) by done. rewrite bind_lift_ok. unfold split_dsn. rewrite E', Ht.
    destruct (connected_known tcp_connect tcp_option cwd (drop (i + 3) dsn) dsn s shown w w) as (H1 & H2 & H3).
    case_decide; [done|]. case_decide; [done|]. case_decide; [by intros [= ?]|].
    intros [= <- <-]. by rewrite Hr.
Qed.

(** A refused DSN with a password, and the same refusal without it. *)
Lemma conn_dispatch_witness :
  let net := λ (a : str) (u : unit), (Ok tt, u) : res redis_err unit * unit in
  let opt := λ (o : sockopt) (u : unit), (Ok tt, u) : res redis_err unit * unit in
  redact "weird://AK:SECRET@h/p"%rs = redact "weird://u:v@h/p"%rs ∧
  conn net opt [] None "weird://AK:SECRET@h/p"%rs (∅, tt) =
    (Panic (UnknownScheme "weird"%rs "weird://***:***@h/p"%rs), (∅, tt)).
Proof.
  intros net opt. split; [vm_compute; reflexivity|].
  destruct (conn_dispatch net opt [] (∅, tt)) as (_ & _ & _ & Hs & Hsame).
  apply (Hsame None "weird://u:v@h/p"%rs); [done|vm_compute; reflexivity|].
  change "weird://u:v@h/p"%rs with ("weird"%rs ++ "://"%rs ++ "u:v@h/p"%rs).
  rewrite Hs by decided. vm_compute. reflexivity.
Defined.
