(* ===== verification/Calendar.v ===== *)
(** * The calendar of the request dates

    [civil_from_days] of [src/src/s3/sigv4.rs] against the Gregorian calendar given by its
    day-to-day successor. *)

From S2P Require Import Prelude RustInt RustStr RustText SigV4.
Local Open Scope Z_scope.

(** Linear arithmetic with divisions by constants. *)
Ltac zdiv := Z.to_euclidean_division_equations; lia.

(** ** Specification: one day after another *)

Definition leap_year (y : Z) : bool := (y mod 4 =? 0) && (negb (y mod 100 =? 0) || (y mod 400 =? 0)).

Definition month_days (y m : Z) : Z :=
  if m =? 2 then (if leap_year y then 29 else 28)
  else if (m =? 4) || (m =? 6) || (m =? 9) || (m =? 11) then 30 else 31.

Definition next_day (date : Z * Z * Z) : Z * Z * Z :=
  let '(y, m, d) := date in
  if d <? month_days y m then (y, m, d + 1)
  else if m <? 12 then (y, m + 1, 1)
  else (y + 1, 1, 1).

(** ** The algorithm, split into the 400-year era, the year and the day of the year

    Years start in March; day numbers are those of [doe] and [doy]. *)

Definition year_start (y : Z) : Z := 365 * y + y / 4 - y / 100.
Definition year_of (doe : Z) : Z := (doe - doe / 1460 + doe / 36524 - doe / 146096) / 365.
Definition year_length (y : Z) : Z := if leap_year (y + 1) then 366 else 365.

(** Month and day of a day of the March year, and whether it falls after the new year. *)
Definition of_doy (doy : Z) : Z * Z * Z :=
  let mp := (5 * doy + 2) / 153 in
  let d := doy - (153 * mp + 2) / 5 + 1 in
  let m := if mp <? 10 then mp + 3 else mp - 9 in
  (if m <=? 2 then 1 else 0, m, d).

Definition in_year (y : Z) (date : Z * Z * Z) : Z * Z * Z :=
  let '(dy, m, d) := date in (y + dy, m, d).

Lemma quot_div a b : 0 <= a → 0 < b → Z.quot a b = a / b.
Proof. intros. by apply Z.quot_div_nonneg. Qed.

Lemma era_floor z : Z.quot (if 0 <=? z then z else z - 146096) 146097 = z / 146097.
Proof.
  destruct (Z.leb_spec 0 z); [by apply quot_div|].
  apply (Z.div_unique z 146097 _ (Z.rem (z - 146096) 146097 + 146096)).
  - left. pose proof (Z.rem_bound_pos_neg (z - 146096) 146097 ltac:(lia) ltac:(lia)). lia.
  - pose proof (Z.quot_rem' (z - 146096) 146097). lia.
Qed.

Lemma year_quot doe :
  0 <= doe < 146097 →
  Z.quot (doe - doe / 1460 + doe / 36524 - doe / 146096) 365 = year_of doe.
Proof.
  intros Hd. apply quot_div; [|lia].
  assert (doe / 1460 <= doe) by (apply Z.div_le_upper_bound; lia).
  assert (0 <= doe / 36524) by (apply Z.div_pos; lia).
  destruct (decide (doe = 0)) as [->|]; [done|].
  assert (doe / 1460 + doe / 146096 <= doe); [|lia].
  assert (doe / 1460 <= doe / 2) by (apply Z.div_le_compat_l; lia).
  assert (doe / 146096 <= doe / 2) by (apply Z.div_le_compat_l; lia).
  pose proof (Z.mul_div_le doe 2 ltac:(lia)). lia.
Qed.

Lemma civil_split z :
  let era := (z + 719468) / 146097 in
  let doe := (z + 719468) mod 146097 in
  0 <= doe - year_start (year_of doe) → 0 <= year_of doe →
  civil_from_days z = in_year (year_of doe + era * 400) (of_doy (doe - year_start (year_of doe))).
Proof.
  cbv zeta. intros H1 H2. unfold civil_from_days. cbv zeta. rewrite era_floor.
  set (era := (z + 719468) / 146097). pose proof (Z.div_mod (z + 719468) 146097 ltac:(lia)) as Hd.
  fold era in Hd. replace (z + 719468 - era * 146097) with ((z + 719468) mod 146097) by lia.
  set (doe := (z + 719468) mod 146097) in *.
  pose proof (Z.mod_pos_bound (z + 719468) 146097 ltac:(lia)) as Hb. fold doe in Hb.
  rewrite !(quot_div doe) by lia.
  rewrite !(year_quot doe Hb), !(quot_div (year_of doe)) by lia.
  fold (year_start (year_of doe)). set (doy := doe - year_start (year_of doe)) in *.
  assert (Hmp : 0 <= (5 * doy + 2) / 153) by (apply Z.div_pos; lia).
  rewrite !(quot_div (5 * doy + 2)) by lia. rewrite !quot_div by lia.
  unfold of_doy, in_year. cbv zeta. destruct (_ <=? 2); do 2 f_equal; lia.
Qed.

(** ** The year of a day *)

Lemma year_of_mono a b : 0 <= a <= b → b <= 146095 → year_of a <= year_of b.
Proof.
  intros Hab Hb. unfold year_of. rewrite (Z.div_small a 146096), (Z.div_small b 146096) by lia.
  apply Z.div_le_mono; [lia|]. zdiv.
Qed.

Definition years : list Z := seqZ 0 400.

(** The formula is right at both ends of each of the 400 years. *)
Lemma year_ends y :
  0 <= y < 400 →
  year_of (year_start y) = y ∧ year_of (year_start y + 364) = y ∧
  year_of (year_start y + year_length y - 1) = y.
Proof.
  intros Hy.
  assert (Hall : forallb (λ y, (year_of (year_start y) =? y) && (year_of (year_start y + 364) =? y) &&
    (year_of (year_start y + year_length y - 1) =? y)) years = true) by (vm_compute; reflexivity).
  rewrite forallb_forall in Hall.
  assert (Hin : In y years) by (apply list_elem_of_In, elem_of_seqZ; lia).
  specialize (Hall y Hin). lia.
Qed.

Lemma year_start_bound y : 0 <= y < 400 → 0 <= year_start y ∧ year_start y + 364 <= 146095.
Proof. unfold year_start. intros. split; zdiv. Qed.

Lemma year_length_cases y : year_length y = 365 ∨ year_length y = 366.
Proof. unfold year_length. destruct (leap_year _); auto. Qed.

Lemma year_of_spec y doe :
  0 <= y < 400 → year_start y <= doe < year_start y + year_length y → year_of doe = y.
Proof.
  intros Hy Hd. destruct (year_ends y Hy) as (H1 & H2 & H3).
  pose proof (year_start_bound y Hy) as [Hs1 Hs2]. pose proof (year_length_cases y) as Hl.
  destruct (decide (doe = year_start y + year_length y - 1)) as [->|Hne]; [done|].
  pose proof (year_of_mono (year_start y) doe ltac:(lia) ltac:(lia)).
  pose proof (year_of_mono doe (year_start y + 364) ltac:(lia) ltac:(lia)). lia.
Qed.

(** Each year ends where the next one starts, and the last one ends the era. *)
Lemma year_next y :
  0 <= y < 400 →
  year_start y + year_length y = if y =? 399 then 146097 else year_start (y + 1).
Proof.
  intros Hy.
  assert (Hall : forallb (λ y, year_start y + year_length y =?
    (if y =? 399 then 146097 else year_start (y + 1))) years = true) by (vm_compute; reflexivity).
  rewrite forallb_forall in Hall. apply Z.eqb_eq, Hall, list_elem_of_In, elem_of_seqZ. lia.
Qed.

Lemma year_exists doe :
  0 <= doe < 146097 →
  ∃ y, 0 <= y < 400 ∧ year_start y <= doe < year_start y + year_length y.
Proof.
  intros Hd.
  assert (Hn : ∀ n : nat, (n <= 400)%nat → doe < (if decide (n = 400)%nat then 146097 else year_start (Z.of_nat n)) →
    ∃ y, 0 <= y < 400 ∧ year_start y <= doe < year_start y + year_length y).
  { induction n as [|n IH]; intros Hn Hlt.
    - rewrite decide_False in Hlt by lia. change (year_start (Z.of_nat 0)) with 0 in Hlt. lia.
    - destruct (Z.ltb_spec doe (year_start (Z.of_nat n))) as [H1|H1].
      + apply IH; [lia|]. rewrite decide_False by lia. done.
      + exists (Z.of_nat n). split; [lia|]. rewrite year_next by lia.
        destruct (Z.eqb_spec (Z.of_nat n) 399).
        * destruct (decide (S n = 400)%nat); lia.
        * destruct (decide (S n = 400)%nat); [lia|].
          replace (Z.of_nat n + 1) with (Z.of_nat (S n)) by lia. lia. }
  apply (Hn 400%nat); [lia|]. destruct (decide (400 = 400)%nat); lia.
Qed.

(** ** The day of the year *)

(** [next_day] on a date relative to its March year, [leap] telling about its February. *)
Definition next_rel (leap : bool) (date : Z * Z * Z) : Z * Z * Z :=
  let '(dy, m, d) := date in
  let days := if m =? 2 then (if leap then 29 else 28)
              else if (m =? 4) || (m =? 6) || (m =? 9) || (m =? 11) then 30 else 31 in
  if d <? days then (dy, m, d + 1) else if m <? 12 then (dy, m + 1, 1) else (dy + 1, 1, 1).

Definition date_eqb (a b : Z * Z * Z) : bool := (a.1.1 =? b.1.1) && (a.1.2 =? b.1.2) && (a.2 =? b.2).

Lemma date_eqb_eq a b : date_eqb a b = true → a = b.
Proof. destruct a as [[? ?] ?], b as [[? ?] ?]. unfold date_eqb. simpl. intros. do 2 f_equal; lia. Qed.

(** February lies in the second half of the March year. *)
Lemma of_doy_february doy :
  0 <= doy < 366 → let '(dy, m, _) := of_doy doy in m = 2 → dy = 1.
Proof. intros _. unfold of_doy. cbv zeta. intros ->. done. Qed.

Lemma doy_step (leap : bool) doy :
  0 <= doy < (if leap then 365 else 364) → of_doy (doy + 1) = next_rel leap (of_doy doy).
Proof.
  intros Hd.
  assert (Hall : ∀ b : bool, forallb (λ x, date_eqb (of_doy (x + 1)) (next_rel b (of_doy x)))
    (seqZ 0 (if b then 365 else 364)) = true) by (intros []; vm_compute; reflexivity).
  specialize (Hall leap). rewrite forallb_forall in Hall.
  apply date_eqb_eq, Hall, list_elem_of_In, elem_of_seqZ. destruct leap; lia.
Qed.

Lemma doy_last (leap : bool) : next_rel leap (of_doy (if leap then 365 else 364)) = (1, 3, 1).
Proof. by destruct leap. Qed.

Lemma next_day_rel y leap doy :
  0 <= doy < 366 → leap_year (y + 1) = leap →
  next_day (in_year y (of_doy doy)) = in_year y (next_rel leap (of_doy doy)).
Proof.
  intros Hd <-. pose proof (of_doy_february doy Hd) as Hf. destruct (of_doy doy) as [[dy m] d].
  unfold next_day, in_year, next_rel, month_days. destruct (Z.eqb_spec m 2) as [E|E].
  - rewrite (Hf E). destruct (d <? _); [done|]. destruct (m <? 12); [done|]. by rewrite Z.add_assoc.
  - destruct (d <? _); [done|]. destruct (m <? 12); [done|]. by rewrite Z.add_assoc.
Qed.

Lemma leap_year_era y era : leap_year (y + era * 400) = leap_year y.
Proof.
  unfold leap_year. replace (y + era * 400) with (y + (era * 100) * 4) at 1 by lia.
  rewrite Z_mod_plus_full. replace (y + era * 400) with (y + (era * 4) * 100) at 1 by lia.
  by rewrite !Z_mod_plus_full.
Qed.

(** The date of day [doy] of year [y] of an era. *)
Lemma civil_at z era y doy :
  0 <= y < 400 → 0 <= doy < year_length y → z + 719468 = era * 146097 + (year_start y + doy) →
  civil_from_days z = in_year (y + era * 400) (of_doy doy).
Proof.
  intros Hy Hd Hz. pose proof (year_start_bound y Hy) as [Hs _].
  assert (Hend : year_start y + doy < 146097).
  { pose proof (year_next y Hy) as Hn. destruct (Z.eqb_spec y 399); [lia|].
    pose proof (year_start_bound (y + 1) ltac:(lia)). lia. }
  assert (He : (z + 719468) / 146097 = era) by (symmetry; apply (Z.div_unique _ _ _ (year_start y + doy)); lia).
  assert (Hm : (z + 719468) mod 146097 = year_start y + doy) by (symmetry; apply (Z.mod_unique _ _ era); lia).
  pose proof (year_of_spec y (year_start y + doy) Hy ltac:(lia)) as Hyo.
  rewrite civil_split; rewrite ?He, ?Hm, Hyo; [|lia..].
  by replace (year_start y + doy - year_start y) with doy by lia.
Qed.

Lemma civil_step z : civil_from_days (z + 1) = next_day (civil_from_days z).
Proof.
  set (era := (z + 719468) / 146097). set (doe := (z + 719468) mod 146097).
  pose proof (Z.div_mod (z + 719468) 146097 ltac:(lia)) as Hz. fold era doe in Hz.
  destruct (year_exists doe) as (y & Hy & Hd); [apply Z.mod_pos_bound; lia|].
  set (doy := doe - year_start y).
  pose proof (year_length_cases y) as Hl.
  assert (Hdoy : 0 <= doy < year_length y) by lia.
  rewrite (civil_at z era y doy) by lia.
  rewrite (next_day_rel _ (leap_year (y + 1))); [|lia|].
  2: { replace (y + era * 400 + 1) with (y + 1 + era * 400) by lia. apply leap_year_era. }
  unfold year_length in *. destruct (decide (doy + 1 = year_length y)) as [E|E]; unfold year_length in E.
  - replace doy with (if leap_year (y + 1) then 365 else 364) at 1 by (destruct (leap_year _); lia).
    rewrite doy_last. pose proof (year_next y Hy) as Hn. unfold year_length in Hn.
    destruct (Z.eqb_spec y 399) as [E9|E9].
    + rewrite (civil_at (z + 1) (era + 1) 0 0); [|lia|done|change (year_start 0) with 0; lia].
      change (of_doy 0) with (0, 3, 1). unfold in_year. do 2 f_equal. lia.
    + rewrite (civil_at (z + 1) era (y + 1) 0); [|lia|pose proof (year_length_cases (y + 1)); lia|lia].
      change (of_doy 0) with (0, 3, 1). unfold in_year. do 2 f_equal. lia.
  - rewrite (civil_at (z + 1) era y (doy + 1)); [|lia|unfold year_length; lia|lia].
    f_equal. apply doy_step. destruct (leap_year (y + 1)); lia.
Qed.

(** Month and day of every date are in range. *)
Lemma of_doy_bounds doy : 0 <= doy < 366 → let '(_, m, d) := of_doy doy in 1 <= m <= 12 ∧ 1 <= d <= 31.
Proof. intros Hd. unfold of_doy. cbv zeta. destruct (_ <? 10) eqn:E; split; zdiv. Qed.

Lemma civil_doy z : ∃ y doy, 0 <= doy < 366 ∧ civil_from_days z = in_year y (of_doy doy).
Proof.
  pose proof (Z.div_mod (z + 719468) 146097 ltac:(lia)) as Hz.
  destruct (year_exists ((z + 719468) mod 146097)) as (y & Hy & Hd); [apply Z.mod_pos_bound; lia|].
  pose proof (year_length_cases y). eexists _, ((z + 719468) mod 146097 - year_start y).
  split; [|apply (civil_at z ((z + 719468) / 146097) y); [done| |]]; lia.
Qed.

Lemma civil_bounds z : let '(_, m, d) := civil_from_days z in 1 <= m <= 12 ∧ 1 <= d <= 31.
Proof.
  destruct (civil_doy z) as (y & doy & Hd & ->). pose proof (of_doy_bounds doy Hd) as Hb.
  unfold in_year. by destruct (of_doy doy) as [[??]?].
Qed.

(** The dates of the signed requests are those of the calendar: day 0 is 1 January 1970 and
    every next day number is the next day of the (proleptic) Gregorian calendar, before and
    after 1970 alike, with the length of February decided by the 4/100/400 rule. *)
Theorem civil_from_days_calendar :
  civil_from_days 0 = (1970, 1, 1) ∧
  (∀ z, civil_from_days (z + 1) = next_day (civil_from_days z)) ∧
  (∀ z, let '(_, m, d) := civil_from_days z in 1 <= m <= 12 ∧ 1 <= d <= 31).
Proof.
  split_and!; [reflexivity|exact civil_step|exact civil_bounds].
Qed.
