(* ===== verification/Signing.v ===== *)
(** * The canonical query of a signed request

    [canonical_query] of [src/src/s3/sigv4.rs] as a canonical form of its parameters. *)

From S2P Require Import Prelude RustInt RustStr RustText SigV4 Dsn.
Local Open Scope Z_scope.
Implicit Types (params : list (str * str)).

(** ** The order of the encoded parameters *)

#[export] Instance pair_cmp_strict : StrictCmp pair_cmp.
Proof.
  split; [split|].
  - intros [a1 a2] [b1 b2]. unfold pair_cmp. simpl. rewrite (cmp_opp a1 b1).
    destruct (str_cmp a1 b1); simpl; [apply cmp_opp|done..].
  - intros [a1 a2] [b1 b2] [c1 c2]. unfold pair_cmp. simpl.
    destruct (str_cmp a1 b1) eqn:Eab, (str_cmp b1 c1) eqn:Ebc; try done.
    + apply cmp_eq in Eab, Ebc. subst. rewrite cmp_refl. apply cmp_trans.
    + apply cmp_eq in Eab. subst. by rewrite Ebc.
    + apply cmp_eq in Ebc. subst. by rewrite Eab.
    + intros _ _. pose proof (cmp_trans a1 b1 c1) as Ht. rewrite Eab, Ebc in Ht.
      destruct (str_cmp a1 c1) eqn:Eac; [|done|by destruct Ht].
      apply cmp_eq in Eac. subst. pose proof (cmp_opp c1 b1) as Ho. by rewrite Eab, Ebc in Ho.
  - intros [a1 a2] [b1 b2]. unfold pair_cmp. simpl. destruct (str_cmp a1 b1) eqn:E; try done.
    apply cmp_eq in E as ->. intros E. by apply cmp_eq in E as ->.
Qed.

#[export] Instance pair_le_trans : Transitive pair_le.
Proof. intros a b c. apply (cmp_trans (cmp:=pair_cmp)). Qed.

#[export] Instance pair_le_total : Total pair_le.
Proof.
  intros a b. unfold pair_le. rewrite (cmp_opp (cmp:=pair_cmp) a b).
  destruct (pair_cmp a b); simpl; auto.
Qed.

#[export] Instance pair_le_antisymm : AntiSymm (=) pair_le.
Proof.
  intros a b H1 H2. unfold pair_le in *. rewrite (cmp_opp (cmp:=pair_cmp) a b) in H2.
  destruct (pair_cmp a b) eqn:E; simpl in *; [by apply cmp_eq|done..].
Qed.

(** ** Reading a canonical query back *)

Definition encode_pair (p : str * str) : str * str := (uri_encode p.1 false, uri_encode p.2 false).
Definition show_pair (p : str * str) : str := p.1 ++ "="%rs ++ p.2.

Lemma canonical_query_eq params :
  canonical_query params = join "&"%rs (show_pair <$> merge_sort pair_le (encode_pair <$> params)).
Proof. done. Qed.

#[export] Instance encode_pair_inj : Inj (=) (=) encode_pair.
Proof.
  intros [a b] [c d]. unfold encode_pair. simpl.
  intros [= ->%uri_encode_inj ->%uri_encode_inj]. done.
Qed.

Lemma show_encoded_inj p q : show_pair (encode_pair p) = show_pair (encode_pair q) → p = q.
Proof.
  destruct p as [a b], q as [c d]. unfold show_pair, encode_pair. simpl. intros H.
  assert (Hs : ∀ x y, split_once [Byte.x3d] (uri_encode x false ++ Byte.x3d :: y) =
    Some (uri_encode x false, y)).
  { intros. apply split_once_byte. by apply uri_encode_notin. }
  pose proof (Hs a (uri_encode b false)) as H1. rewrite H, Hs in H1.
  injection H1 as E1 E2. apply uri_encode_inj in E1, E2. by subst.
Qed.

Lemma shown_notin p : Byte.x26 ∉ show_pair (encode_pair p).
Proof.
  unfold show_pair, encode_pair. simpl. rewrite elem_of_app, elem_of_cons.
  intros [H|[H|H]]; [|done|]; by apply uri_encode_notin in H.
Qed.

Lemma sorted_encoded params :
  ∃ l, l ≡ₚ params ∧ merge_sort pair_le (encode_pair <$> params) = encode_pair <$> l.
Proof.
  pose proof (merge_sort_Permutation pair_le (encode_pair <$> params)) as H.
  apply Permutation_map_inv in H as (l & Hl & Hp). exists l. split; [by symmetry|].
  exact Hl.
Qed.

(** The parameters can be read back from their canonical query, in sorted order. *)
Lemma split_canonical_query params l :
  merge_sort pair_le (encode_pair <$> params) = encode_pair <$> l → l ≠ [] →
  split_byte Byte.x26 (canonical_query params) = (λ p, show_pair (encode_pair p)) <$> l.
Proof.
  intros Hl Hne. rewrite canonical_query_eq, Hl, <-list_fmap_compose.
  apply split_join; [by destruct l|]. apply Forall_fmap, Forall_true. intros p. apply shown_notin.
Qed.

Lemma canonical_query_nil params : canonical_query params = [] → params = [].
Proof.
  destruct (sorted_encoded params) as (l & Hp & Hl). intros H.
  destruct (decide (l = [])) as [->|Hne]; [by apply Permutation_nil|].
  pose proof (split_canonical_query params l Hl Hne) as Hs. rewrite H in Hs.
  destruct l as [|[a b] l]; [done|]. injection Hs as E _. unfold show_pair, encode_pair in E.
  simpl in E. by destruct (uri_encode a false).
Qed.

Lemma canonical_query_perm params params' :
  params ≡ₚ params' → canonical_query params = canonical_query params'.
Proof.
  intros H. rewrite !canonical_query_eq. do 2 f_equal.
  apply (Sorted_unique pair_le); [apply Sorted_merge_sort, _..|].
  by rewrite !merge_sort_Permutation, H.
Qed.

Lemma canonical_query_inj params params' :
  canonical_query params = canonical_query params' → params ≡ₚ params'.
Proof.
  intros H. destruct (decide (params = [])) as [->|Hne].
  { symmetry in H. by apply canonical_query_nil in H as ->. }
  destruct (decide (params' = [])) as [->|Hne']; [by apply canonical_query_nil in H|].
  destruct (sorted_encoded params) as (l & Hp & Hl), (sorted_encoded params') as (l' & Hp' & Hl').
  rewrite <-Hp, <-Hp'.
  assert (l ≠ []) by (intros ->; by apply Permutation_nil in Hp).
  assert (l' ≠ []) by (intros ->; by apply Permutation_nil in Hp').
  pose proof (split_canonical_query params l Hl ltac:(done)) as Hs.
  rewrite H, (split_canonical_query params' l' Hl' ltac:(done)) in Hs.
  assert (Inj (=) (=) (λ p, show_pair (encode_pair p))) by (intros ??; apply show_encoded_inj).
  by apply (inj (fmap (λ p, show_pair (encode_pair p)))) in Hs as ->.
Qed.

(** ** Properties *)

(** The canonical query is a canonical form: it lists the encoded parameters in sorted order,
    and two parameter lists have the same query exactly when they hold the same parameters, each
    as often, in whatever order and whatever bytes the names and values are made of.  So neither
    the order a request builds its parameters in nor a delimiter inside a value can make the
    signed query differ from, or coincide with, another. *)
Theorem canonical_query_canonical params params' :
  (∃ l, l ≡ₚ params ∧ Sorted pair_le (encode_pair <$> l) ∧
        canonical_query params = join "&"%rs (show_pair <$> (encode_pair <$> l))) ∧
  (canonical_query params = canonical_query params' ↔ params ≡ₚ params').
Proof.
  split; [|split; [apply canonical_query_inj|apply canonical_query_perm]].
  destruct (sorted_encoded params) as (l & Hp & Hl). exists l. rewrite <-Hl.
  split_and!; [done|apply Sorted_merge_sort, _|apply canonical_query_eq].
Qed.

Example canonical_query_listing :
  canonical_query [("prefix"%rs, "/a b/"%rs); ("list-type"%rs, "2"%rs); ("continuation-token"%rs, "x/y="%rs)] =
    "continuation-token=x%2Fy%3D&list-type=2&prefix=%2Fa%20b%2F"%rs.
Proof. vm_compute. done. Qed.
