(* ===== verification/Ffi.v ===== *)
(** * The handle of the C ABI: [src/src/ffi.rs]

    A handle owns a [KVSpace] and adds a per-key read cache whose entries the callers borrow,
    a re-read ring for control keys, a write that is only stored at the next call, and a list
    snapshot for traversals.  Every buffer a caller can hold a pointer into carries the identity
    of its allocation.  A call is a state-and-error computation: [Err] is the return code 1,
    [Ok] the code 0; the null-handle returns are in [FfiAbi].  A panic of the key-value space is
    caught and becomes an error, the state it left behind stays. *)

From S2P Require Import Prelude RustInt RustStr RustText HeadLenPow KPath XValue Store Backend KVSpace.
Local Open Scope Z_scope.
Implicit Types (key prefix : str).

(** ** Data *)

(** A [Vec<u8>] with the identity of its allocation. *)
Abbreviation buf := (nat * list Byte.byte)%type.
Definition empty_buf : buf := (0%nat, []).

Record VolatileBuf := mkVolatile { slots : list buf; which : nat }.

Record ListCache := mkListCache {
  lc_prefix : str;
  lc_expand_ext : bool;
  lc_resolve : bool;
  lc_names : list str;
  lc_cursor : Z;
}.

Record Handle (K : Type) := mkHandle {
  kv : K;
  read_cache : gmap str buf;
  volatile_cache : gmap str VolatileBuf;
  retired : list buf;
  write_buf : buf;
  pending_key : option str;
  list_cache : option ListCache;
  heap_next : nat;
}.
Arguments mkHandle {K}.
Arguments kv {K}.
Arguments read_cache {K}.
Arguments volatile_cache {K}.
Arguments retired {K}.
Arguments write_buf {K}.
Arguments pending_key {K}.
Arguments list_cache {K}.
Arguments heap_next {K}.

(** The pointer a call hands out: into which allocation, from which offset, which bytes. *)
Record view := mkView { v_buf : nat; v_off : Z; v_bytes : bytes }.

(** What a failed call writes to the error buffer; [Failed] where it writes nothing. *)
Inductive fferr :=
  | FBackend (e : kverr)
  | FPanic (e : kverr)
  | FInvalidSetValueInput
  | FInvalidXValue
  | FSetValuePanic
  | FInvalidSetPartBuffer
  | FSetPartMissing (key : str)
  | FSetPartPtr (key : str)
  | FNullBody
  | FInPlaceMissing
  | FInPlacePtr
  | FInPlaceLength
  | FCapacity
  | FGeometry
  | FNameLength (len : Z)
  | Failed.

(** The head across the boundary. *)
Record kvspaceHead_t := mkHeadT {
  ht_headlen : Z;
  ht_ref : Z;
  ht_storetype : Z;
  ht_body_len : Z;
  ht_ndim : Z;
  ht_dims : list Z;
  ht_langtype : bytes;
  ht_langtype_len : Z;
  ht_body_offset : Z;
  ht_body_cap : Z;
}.

Definition fill_head (head : XValueHead) : kvspaceHead_t :=
  let lt := x_langtype head in
  let n := Nat.min (length lt) 255 in
  let dims := x_phys_dims head in
  mkHeadT (x_headlen head) (x_ref head) (x_storetype head) (x_body_len head)
    (Z.of_nat (Nat.min (length dims) 8))
    (take 8 dims ++ replicate (8 - length dims) 0)
    (take n lt ++ replicate (256 - n) Byte.x00) (Z.of_nat n)
    (x_headlen head) (x_body_cap head).

(** ** Arguments *)

(** [cstr]: null and ill-formed strings read as the empty one. *)
Definition cstr (p : option bytes) : str :=
  match p with Some b => default [] (from_utf8 b) | None => [] end.

(** The bytes [write_err] puts into a buffer of [err_cap] bytes. *)
Definition write_err (err_cap : Z) (msg : str) : option bytes :=
  if err_cap =? 0 then None
  else Some (take (Z.to_nat (Z.min (Z.of_nat (length msg)) (err_cap - 1))) msg ++ [Byte.x00]).

Definition is_volatile key : bool :=
  (starts_with "/vthread/"%rs key && contains "‥"%rs key) ||
  (starts_with "/lib/"%rs key && (ends_with "/‥ctime"%rs key || contains "/vids/"%rs key)).

Definition under_prefix key prefix : bool :=
  if bool_decide (key = prefix) then true
  else if ends_with RUNTIME_MEMBER_SEP prefix then starts_with prefix key
  else
    let base := if decide (prefix = PATH_SEP) then []
                else match strip_suffix DIR_INDEX_SUF prefix with
                     | Some b => b
                     | None => default prefix (strip_suffix OBJ_SEP prefix)
                     end in
    if decide (base = []) then starts_with PATH_SEP key
    else
      match strip_prefix base key with
      | Some rest =>
          bool_decide (rest = []) || starts_with PATH_SEP rest || starts_with OBJ_SEP rest ||
          starts_with RUNTIME_MEMBER_SEP rest
      | None => false
      end.

Section handle.
Context {K : Type} `{KVSpace K}.
Implicit Types (h : Handle K).

Abbreviation call A := (stm (Handle K) fferr A).

(** ** Field updates *)

Definition set_kv (k : K) h : Handle K :=
  mkHandle k (read_cache h) (volatile_cache h) (retired h) (write_buf h) (pending_key h) (list_cache h)
    (heap_next h).
Definition set_read_cache (c : gmap str buf) h : Handle K :=
  mkHandle (kv h) c (volatile_cache h) (retired h) (write_buf h) (pending_key h) (list_cache h)
    (heap_next h).
Definition set_volatile_cache (c : gmap str VolatileBuf) h : Handle K :=
  mkHandle (kv h) (read_cache h) c (retired h) (write_buf h) (pending_key h) (list_cache h)
    (heap_next h).
Definition set_retired (l : list buf) h : Handle K :=
  mkHandle (kv h) (read_cache h) (volatile_cache h) l (write_buf h) (pending_key h) (list_cache h)
    (heap_next h).
Definition set_pending (b : buf) (k : option str) h : Handle K :=
  mkHandle (kv h) (read_cache h) (volatile_cache h) (retired h) b k (list_cache h) (heap_next h).
Definition set_list_cache (c : option ListCache) h : Handle K :=
  mkHandle (kv h) (read_cache h) (volatile_cache h) (retired h) (write_buf h) (pending_key h) c
    (heap_next h).
Definition set_heap_next (n : nat) h : Handle K :=
  mkHandle (kv h) (read_cache h) (volatile_cache h) (retired h) (write_buf h) (pending_key h)
    (list_cache h) n.

(** A fresh allocation holding [b]. *)
Definition alloc_buf (b : bytes) : call buf := λ h,
  (Ok (heap_next h, b), set_heap_next (S (heap_next h)) h).

(** [catch_unwind] around a method of the key-value space. *)
Definition catch {A} (on_panic : kverr → fferr) (m : stm K kverr A) : call A := λ h,
  let '(r, k) := m (kv h) in
  (match r with Ok a => Ok a | Err e => Err (FBackend e) | Panic e => Err (on_panic e) end, set_kv k h).

Definition catch_read {A} (on_panic : kverr → fferr) (f : K → res kverr A) : call A := λ h,
  (match f (kv h) with Ok a => Ok a | Err e => Err (FBackend e) | Panic e => Err (on_panic e) end, h).

Definition cache_invalidate key h : Handle K :=
  set_volatile_cache (delete key (volatile_cache h)) (set_read_cache (delete key (read_cache h)) h).

Definition cache_invalidate_tree prefix h : Handle K :=
  set_volatile_cache (filter (λ e, under_prefix e.1 prefix = false) (volatile_cache h))
    (set_read_cache (filter (λ e, under_prefix e.1 prefix = false) (read_cache h)) h).

(** [for (_, old) in hd.read_cache.drain() { hd.retired.push(old) }] *)
Definition retire_all h : Handle K :=
  set_read_cache ∅ (set_retired (retired h ++ (map_to_list (read_cache h)).*2) h).

(** ** The lazy write *)

(** [self.pending_key.take()] with the write buffer. *)
Definition take_pending : call bytes := λ h,
  (Ok (write_buf h).2, set_list_cache None (set_pending empty_buf None h)).

(** [m], then [cleanup] on the handle whatever the result. *)
Definition and_cleanup {A} (m : call A) (cleanup : Handle K → Handle K) : call A := λ h,
  let '(r, h) := m h in (r, cleanup h).

(** Stores the pending write and forgets the key's cache entries. *)
Definition store_pending key (xv : bytes) : call unit :=
  and_cleanup (catch FPanic (ks_set [mkPair key (XValue.from_wire xv) (Some xv)])) (cache_invalidate key).

Definition flush : call unit :=
  pending ← gets pending_key;
  match pending with
  | Some key => xv ← take_pending; store_pending key xv
  | None => mret tt
  end.

(** [?] on a flush whose error text is dropped. *)
Definition flush_quiet : call unit := λ h,
  let '(r, h) := flush h in (match r with Ok tt => Ok tt | _ => Err Failed end, h).

Definition kv_flush : call unit := modify (set_list_cache None);; flush.

(** ** Listings *)

(** [self.list_cache.as_mut().expect(..)], moving the cursor. *)
Definition cached_names (at_ : option Z) : call (list str) := λ h,
  match list_cache h with
  | Some c =>
      (Ok (lc_names c),
       set_list_cache (Some (mkListCache (lc_prefix c) (lc_expand_ext c) (lc_resolve c) (lc_names c)
                               (default (lc_cursor c) at_))) h)
  | None => (Panic Failed, h)
  end.

Definition list_names prefix (expand_ext resolve : bool) (at_ : option Z) : call (list str) :=
  cached ← gets list_cache;
  let reuse :=
    match at_, cached with
    | Some idx, Some c =>
        bool_decide (lc_prefix c = prefix) && Bool.eqb (lc_expand_ext c) expand_ext &&
        Bool.eqb (lc_resolve c) resolve && (lc_cursor c <? idx)
    | _, _ => false
    end in
  (if reuse then mret tt
   else
     modify (set_list_cache None);;
     names ← catch_read FPanic (λ k, ks_list k prefix expand_ext resolve);
     modify (set_list_cache (Some (mkListCache prefix expand_ext resolve names (-1)))));;
  cached_names at_.

(** ** Reading through the caches *)

Definition empty_volatile : VolatileBuf := mkVolatile [empty_buf; empty_buf; empty_buf; empty_buf] 0.

(** The slot last written. *)
Definition current (vb : VolatileBuf) : buf := default empty_buf (slots vb !! which vb).

(** The [<func>] directory whose [‥ctime] this key is. *)
Definition ctime_dir key : option str :=
  match strip_suffix "/‥ctime"%rs key with
  | Some func_dir =>
      if starts_with "/lib/"%rs func_dir && (length "/lib/"%rs <? length func_dir)%nat
      then Some func_dir else None
  | None => None
  end.

(** Moves the cached entries under a directory to [retired]. *)
Definition retire_under dir h : Handle K :=
  let stale := filter (λ e, under_prefix e.1 dir = true) (read_cache h) in
  set_list_cache None
    (set_read_cache (filter (λ e, under_prefix e.1 dir = false) (read_cache h))
      (set_retired (retired h ++ (map_to_list stale).*2) h)).

(** The block that writes the next slot; the result is the directory whose [‥ctime] changed. *)
Definition volatile_store key (raw : bytes) : call (option str) :=
  old ← gets (λ h, default empty_volatile (volatile_cache h !! key));
  let prev := (current old).2 in
  modify (λ h, set_volatile_cache (<[key := old]> (volatile_cache h)) h);;
  if decide (prev = raw) then mret None
  else
    slot ← alloc_buf raw;
    let w := ((which old + 1) mod 4)%nat in
    modify (λ h, set_volatile_cache (<[key := mkVolatile (<[w := slot]> (slots old)) w]> (volatile_cache h)) h);;
    mret (if bool_decide (prev = []) then None else ctime_dir key).

Definition volatile_refresh key : call unit :=
  raw ← catch_read (λ _, Failed) (λ k, ks_get_raw k key);
  changed ← volatile_store key raw;
  match changed with
  | Some dir => modify (retire_under dir)
  | None => mret tt
  end.

Definition fetch_raw_one key : call bool :=
  if is_volatile key then
    volatile_refresh key;;
    gets (λ h, match volatile_cache h !! key with
               | Some vb => negb (bool_decide ((current vb).2 = []))
               | None => false
               end)
  else
    cached ← gets (λ h, bool_decide (is_Some (read_cache h !! key)));
    if cached : bool then mret true
    else
      raw ← catch_read (λ _, Failed) (λ k, ks_get_raw k key);
      if decide (raw = []) then mret false
      else
        b ← alloc_buf raw;
        modify (λ h, set_read_cache (<[key := b]> (read_cache h)) h);;
        mret true.

Definition cached_slice h key : option buf :=
  if is_volatile key then
    vb ← volatile_cache h !! key;
    if decide ((current vb).2 = []) then None else Some (current vb)
  else read_cache h !! key.

Definition MAX_PTR_HOPS : nat := 16.

(** One hop of the loop of [resolve_cached_key]: [None] if the key has no value, otherwise the
    target if it is a pointer. *)
Definition hop_target key (last_hop : bool) : call (option (option str)) :=
  if decide (key = []) then mret None
  else
    found ← fetch_raw_one key;
    if negb found then mret None
    else
      slice ← gets (λ h, cached_slice h key);
      b ← lift (ok_or Failed slice);
      w ← lift (ok_or Failed (HeadLenPow.from_wire b.2));
      if negb (bool_decide (h_reference w = RefPointer)) then mret (Some None)
      else
        err_if last_hop Failed;;
        t ← lift (ok_or Failed (from_utf8 (h_body w)));
        mret (Some (Some t)).

Fixpoint resolve_hops (n : nat) key : call (option str) :=
  next ← hop_target key (n =? 0)%nat;
  match next with
  | None => mret None
  | Some None => mret (Some key)
  | Some (Some t) => match n with
                     | O => lift (Err Failed)
                     | S n => resolve_hops n t
                     end
  end.

Definition resolve_cached_key key (resolve : bool) : call (option str) :=
  if negb resolve then
    found ← fetch_raw_one key;
    mret (if found : bool then Some key else None)
  else resolve_hops MAX_PTR_HOPS key.

(** ** Reads *)

(** The pointer to [len] bytes of a cached buffer, from [off]. *)
Definition view_of (b : buf) : view := mkView b.1 0 b.2.

Definition kvspaceGet key (resolve : bool) : call (option view) :=
  flush_quiet;;
  final ← resolve_cached_key key resolve;
  match final with
  | Some final_key => gets (λ h, view_of <$> cached_slice h final_key)
  | None => mret None
  end.

(** [usize] sums here stay below [2^33]. *)
Definition part_view (b : buf) (offset len : Z) : option view :=
  let n := Z.of_nat (length b.2) in
  let s := Z.min offset n in
  let e := Z.min (s + len) n in
  if e <=? s then None else Some (mkView b.1 s (slice s e b.2)).

Definition kvspaceGetPart key (offset len : Z) : call (option view) :=
  flush_quiet;;
  final ← resolve_cached_key key true;
  match final with
  | Some final_key => gets (λ h, b ← cached_slice h final_key; part_view b offset len)
  | None => mret None
  end.

Definition kvspaceGetHead key : call kvspaceHead_t :=
  flush_quiet;;
  final ← resolve_cached_key key true;
  final_key ← lift (ok_or Failed final);
  slice ← gets (λ h, cached_slice h final_key);
  value ← lift (ok_or Failed slice);
  let head := from_wire_head value.2 in
  err_if (x_headlen head =? 0) Failed;;
  mret (fill_head head).

(** ** Writes *)

(** [value] is null or the caller's bytes. *)
Definition kvspaceSetValue (key : option bytes) (value : option bytes) : call unit :=
  value ← lift (match key, value with
                | Some _, Some (b :: l) => Ok (b :: l)
                | _, _ => Err FInvalidSetValueInput
                end);
  flush;;
  let key := cstr key in
  whead ← lift (ok_or FInvalidXValue (HeadLenPow.from_wire value));
  attr ← lift (ok_or FInvalidXValue (attr_len value));
  total ← lift (ok_or FInvalidXValue (checked_add (h_len whead) PREFIX ≫= λ x, checked_add x attr));
  err_if (Z.of_nat (length value) <? total) FInvalidXValue;;
  let raw := take (Z.to_nat total) value in
  modify (set_list_cache None);;
  catch (λ _, FSetValuePanic) (ks_set [mkPair key (XValue.from_wire raw) (Some raw)]);;
  modify (cache_invalidate key).

(** What the two positional writes make of the pointer resolution. *)
Definition resolve_target (missing failed : fferr) key (resolve : bool) : call str := λ h,
  let '(r, h) := resolve_cached_key key resolve h in
  (match r with
   | Ok (Some k) => Ok k
   | Ok None => Err missing
   | Err _ => Err failed
   | Panic e => Panic e
   end, h).

(** [buf] is null or the memory of which the call reads [buf_len] bytes. *)
Definition kvspaceSetPart key (offset : Z) (buf : option bytes) (buf_len : Z) : call unit :=
  err_if ((0 <? buf_len) && match buf with Some _ => false | None => true end) FInvalidSetPartBuffer;;
  flush;;
  target ← resolve_target (FSetPartMissing key) (FSetPartPtr key) key true;
  let data := take (Z.to_nat buf_len) (default [] buf) in
  modify (set_list_cache None);;
  catch FPanic (ks_set_part target offset data);;
  modify (cache_invalidate target).

(** The buffer it takes over: the cached one moves out of the cache, a control key's is copied. *)
Definition take_existing key : call buf :=
  cached ← gets (λ h, read_cache h !! key);
  match cached with
  | Some b => modify (λ h, set_read_cache (delete key (read_cache h)) h);; mret b
  | None =>
      slice ← gets (λ h, cached_slice h key);
      match slice with
      | Some v =>
          b ← alloc_buf v.2;
          modify (λ h, set_volatile_cache (delete key (volatile_cache h)) h);;
          mret b
      | None => lift (Err FInPlaceMissing)
      end
  end.

(** [head.headlen == 0 || head.body_len < 0 || head.body_len as u32 != body_len || ..] *)
Definition in_place_mismatch (existing : bytes) (body_len : Z) : bool :=
  let head := from_wire_head existing in
  let head_len := x_headlen head in
  let blen := Z.max (x_body_len head) 0 in
  let attr := default 0 (attr_len existing) in
  (x_headlen head =? 0) || (x_body_len head <? 0) || negb (x_body_len head =? body_len) ||
  negb (bool_decide (checked_add head_len blen ≫= (λ x, checked_add x attr) =
                     Some (Z.of_nat (length existing)))).

(** The result is where the body starts in the write buffer. *)
Definition kvspaceWriteInPlace key (resolve : bool) (body_len : Z) (body_null : bool) : call view :=
  err_if body_null FNullBody;;
  flush;;
  target ← resolve_target FInPlaceMissing FInPlacePtr key resolve;
  existing ← take_existing target;
  err_if (in_place_mismatch existing.2 body_len) FInPlaceLength;;
  modify (λ h, set_pending existing (Some target) (cache_invalidate target h));;
  let head_len := x_headlen (from_wire_head existing.2) in
  mret (mkView existing.1 head_len (drop (Z.to_nat head_len) existing.2)).

Definition build_xvalue_head (ref body_len body_cap : Z) (langtype : str) : option bytes :=
  if body_cap <? body_len then None
  else
    prefixed ←
      (let starred := starts_with "*"%rs langtype || starts_with "@"%rs langtype in
       if ref =? 0 then if starred then None else Some langtype
       else if ref =? 1 then if starred then None else Some ("*"%rs ++ langtype)
       else if ref =? 2 then if starred then None else Some ("@"%rs ++ langtype)
       else None);
    if body_len <? body_cap then to_wire_varlen body_cap body_len prefixed
    else reserve body_len prefixed.

Definition kvspaceWriteNewPlace key (ref body_len body_cap : Z) (langtype : str) : call view :=
  flush;;
  cap ← lift (ok_or FCapacity (try_usize body_cap));
  xv ← lift (ok_or FGeometry (build_xvalue_head ref body_len cap langtype));
  modify (cache_invalidate key);;
  b ← alloc_buf xv;
  modify (set_pending b (Some key));;
  mret (mkView b.1 PREFIX (drop (Z.to_nat PREFIX) xv)).

(** ** Listings *)

(** [names.len() as i32] *)
Definition kvspaceListLen prefix (expand_ext resolve : bool) : call Z :=
  flush_quiet;;
  lift (match validate_dir prefix with Ok _ => Ok tt | _ => Err Failed end);;
  names ← list_names prefix expand_ext resolve None;
  mret (wrap_s 32 (Z.of_nat (length names))).

(** [FNameLength]: the return code is 1 and the length needed is reported. *)
Definition kvspaceListAt prefix (expand_ext resolve : bool) (idx : Z) (buf_null : bool) (buf_cap : Z) :
    call str :=
  err_if (idx <? 0) Failed;;
  flush_quiet;;
  lift (match validate_dir prefix with Ok _ => Ok tt | _ => Err Failed end);;
  names ← list_names prefix expand_ext resolve (Some idx);
  name ← lift (ok_or Failed (names !! Z.to_nat idx));
  let len := wrap_u 32 (Z.of_nat (length name)) in
  err_if (buf_null || (buf_cap <? len)) (FNameLength len);;
  mret name.

(** ** Structure *)

(** A mutating call: the cache is cleaned up whatever the result. *)
Definition mutate (m : stm K kverr unit) (cleanup : Handle K → Handle K) : call unit :=
  kv_flush;; and_cleanup (catch FPanic m) cleanup.

Definition is_handoff key : bool :=
  (starts_with "/lib/"%rs key && contains "/vids/"%rs key) || starts_with "/vthread/‥vids/"%rs key.

Definition del_cleanup (keys : list str) h : Handle K :=
  let h := foldl (λ h k, cache_invalidate k h) h keys in
  if existsb is_handoff keys then set_list_cache None (retire_all h) else h.

Definition kvspaceDel (keys : list str) : call unit := mutate (ks_del keys) (del_cleanup keys).
Definition kvspaceDelTree prefix : call unit :=
  mutate (ks_del_tree prefix) (cache_invalidate_tree prefix).
Definition kvspaceCp (src dst : str) : call unit := mutate (ks_cp src dst) (cache_invalidate dst).
Definition kvspaceCpTree (src dst : str) : call unit :=
  mutate (ks_cp_tree src dst) (cache_invalidate_tree dst).
Definition kvspaceCpList (src dst : str) : call unit :=
  mutate (ks_cp_list src dst) (cache_invalidate_tree dst).
Definition kvspaceMkindex (path : str) (capacity : Z) : call unit :=
  mutate (ks_mkindex path capacity) id.
Definition kvspaceMkindexExt (path ext_path : str) : call unit :=
  mutate (ks_ext_index path ext_path) id.
Definition kvspaceRmindexExt (path : str) : call unit := mutate (ks_del_ext_index path) id.

Definition kvspaceClear : call unit :=
  kv_flush;;
  catch FPanic ks_clear;;
  modify (set_read_cache ∅).

(** [watch] is the method of the key-value space, which returns when another writer has stored
    the target. *)
Definition kvspaceWatch (watch : str → XValue → Z → stm K kverr XValue) key (target : bytes)
    (tick_ns : Z) : call (option view) :=
  flush_quiet;;
  let target_v := XValue.from_wire target in
  v ← catch (λ _, Failed) (watch key target_v tick_ns);
  modify (λ h, set_list_cache None (retire_all h));;
  b ← alloc_buf (XValue.to_wire v);
  modify (λ h, set_read_cache (<[key := b]> (read_cache h)) h);;
  gets (λ h, view_of <$> read_cache h !! key).

(** [kvspaceConnect] once the key-value space is there, and what [kvspaceClose] does before the
    handle is dropped. *)
Definition new_handle (k : K) : Handle K := mkHandle k ∅ ∅ [] empty_buf None None 1.
Definition kvspaceClose : call unit := flush.

End handle.

(** ** Constructors *)

(** [emit]: the wire handed to the caller, if it exists and its length fits [u32]. *)
Definition emit (wire : option bytes) : option bytes :=
  w ← wire; _ ← try_u32 (Z.of_nat (length w)); Some w.

Definition new_scalar (raw : bytes) (langtype : option bytes) : option bytes :=
  emit (HeadLenPow.to_wire raw (cstr langtype)).

Definition kvspaceNewPtr (target_kindexpr target : option bytes) : option bytes :=
  match target_kindexpr, target with
  | Some _, Some path =>
      let kindexpr := cstr target_kindexpr in
      if decide (kindexpr = "any"%rs) then None
      else if decide (path = []) then None
      else
        let prefixed := if starts_with "*"%rs kindexpr then kindexpr else "*"%rs ++ kindexpr in
        emit (HeadLenPow.to_wire path prefixed)
  | _, _ => None
  end.

(** [chars] is null or the memory of which the call reads [len] bytes. *)
Definition kvspaceNewChar (chars : option bytes) (len : Z) (langtype : option bytes) : option bytes :=
  if negb (len =? 0) && match chars with Some _ => false | None => true end then None
  else emit (HeadLenPow.to_wire (take (Z.to_nat len) (default [] chars)) (cstr langtype)).

Definition kvspaceNewBool (v : Z) (langtype : option bytes) : option bytes :=
  new_scalar [if v =? 0 then Byte.x00 else Byte.x01] langtype.
Definition kvspaceNewInt64 (v : Z) (langtype : option bytes) : option bytes :=
  new_scalar (le_bytes 8 v) langtype.
(** [v] is the float's bit pattern. *)
Definition kvspaceNewFloat64 (v : Z) (langtype : option bytes) : option bytes :=
  new_scalar (le_bytes 8 v) langtype.
