(* ===== verification/FfiCache.v ===== *)
(** * Caching, borrowing and lazy writes of a handle

    What a read through the caches returns, how long the pointers it hands out live, and when a
    write becomes visible. *)

From S2P Require Import Prelude RustInt RustStr RustText HeadLenPow KPath XValue Store Backend BackendRead BackendWrite BackendSetGet KVSpace Ffi.
Local Open Scope Z_scope.
Implicit Types (key prefix : str) (b : nat * list byte).

Section cache.
Context {K : Type} `{KVSpace K}.
Implicit Types (h : Handle K).

(** ** Executing a call *)

(** What a read of the key-value space gives the layer above. *)
Definition raw_of (k : K) key : option bytes :=
  match ks_get_raw k key with Ok raw => Some raw | _ => None end.

Lemma fetch_plain key h :
  is_volatile key = false →
  fetch_raw_one key h =
    match read_cache h !! key with
    | Some _ => (Ok true, h)
    | None =>
        match ks_get_raw (kv h) key with
        | Ok [] => (Ok false, h)
        | Ok raw =>
            (Ok true, set_read_cache (<[key := (heap_next h, raw)]> (read_cache h))
                        (set_heap_next (S (heap_next h)) h))
        | Err e => (Err (FBackend e), h)
        | Panic e => (Err Failed, h)
        end
    end.
Proof.
  intros Hv. unfold fetch_raw_one. rewrite Hv, bind_gets.
  destruct (read_cache h !! key) as [b|] eqn:E.
  - by rewrite bool_decide_true by done.
  - rewrite bool_decide_false by (by intros []). rewrite stm_bind_eq. unfold catch_read.
    by destruct (ks_get_raw (kv h) key) as [[|c raw]|e|e].
Qed.

(** ** Borrowed buffers *)

(** The buffer is where a pointer handed out for [key] expects it. *)
Definition live key b h : Prop := read_cache h !! key = Some b ∨ b ∈ retired h.

(** ... and no write to [key] is waiting. *)
Definition borrowed key b h : Prop := live key b h ∧ pending_key h ≠ Some key.

Lemma live_insert key b key' b' h :
  live key b h → read_cache h !! key' = None →
  live key b (set_read_cache (<[key' := b']> (read_cache h)) h).
Proof.
  intros [Hl|Hl] Hn; [|by right]. left. simpl. rewrite lookup_insert_ne; [done|]. congruence.
Qed.

Lemma live_invalidate key b key' h : key' ≠ key → live key b h → live key b (cache_invalidate key' h).
Proof. intros Hne [Hl|Hl]; [left|by right]. simpl. by rewrite lookup_delete_ne. Qed.

Lemma live_invalidate_tree key b prefix h :
  under_prefix key prefix = false → live key b h → live key b (cache_invalidate_tree prefix h).
Proof.
  intros Hu [Hl|Hl]; [left|by right]. simpl. apply map_lookup_filter_Some_2; done.
Qed.

Lemma live_retire_all key b h : live key b h → b ∈ retired (retire_all h).
Proof.
  intros [Hl|Hl]; simpl; rewrite elem_of_app; [right|by left].
  apply list_elem_of_fmap. exists (key, b). split; [done|]. by apply elem_of_map_to_list.
Qed.

Lemma live_retire_under key b dir h : live key b h → live key b (retire_under dir h).
Proof.
  intros [Hl|Hl]; unfold live; simpl; [|right; rewrite elem_of_app; by left].
  destruct (under_prefix key dir) eqn:E.
  - right. rewrite elem_of_app. right. apply list_elem_of_fmap. exists (key, b). split; [done|].
    apply elem_of_map_to_list. by apply map_lookup_filter_Some_2.
  - left. by apply map_lookup_filter_Some_2.
Qed.

(** A call that leaves the plain cache, the retired buffers and the pending write alone. *)
Definition quiet (f : Handle K → Handle K) : Prop := ∀ h,
  read_cache (f h) = read_cache h ∧ retired (f h) = retired h ∧ pending_key (f h) = pending_key h.

Lemma keeps_quiet key b f : quiet f → keeps (E:=fferr) (borrowed key b) (modify f).
Proof.
  intros Hf. apply keeps_modify. intros h Hb. destruct (Hf h) as (H1 & H2 & H3).
  unfold borrowed, live in *. by rewrite H1, H2, H3.
Qed.

Lemma keeps_catch {A} key b p (m : stm K kverr A) : keeps (borrowed key b) (catch p m).
Proof. intros h Hb. unfold catch. destruct (m (kv h)) as [r k]. exact Hb. Qed.

Lemma keeps_catch_read {A} key b p (f : K → res kverr A) : keeps (borrowed key b) (catch_read p f).
Proof. by intros h Hb. Qed.

Lemma keeps_alloc key b raw : keeps (borrowed key b) (alloc_buf (K:=K) raw).
Proof. by intros h Hb. Qed.

Hint Resolve keeps_catch keeps_catch_read keeps_alloc : stm.

Lemma keeps_invalidate key b key' : key' ≠ key → keeps (E:=fferr) (borrowed key b) (modify (cache_invalidate key')).
Proof.
  intros Hne. apply keeps_modify. intros h [Hl Hp]. split; [by apply live_invalidate|done].
Qed.

Lemma keeps_and_cleanup {A} key b (m : stm (Handle K) fferr A) f :
  keeps (borrowed key b) m → (∀ h, borrowed key b h → borrowed key b (f h)) →
  keeps (borrowed key b) (and_cleanup m f).
Proof.
  intros Hm Hf h Hb. unfold and_cleanup. specialize (Hm h Hb). destruct (m h) as [r h'].
  by apply Hf.
Qed.

(** A pending write of another key goes through without touching the buffer. *)
Lemma flush_keeps key b h : borrowed key b h → borrowed key b (snd (flush h)).
Proof.
  intros [Hl Hp]. unfold flush. rewrite bind_gets. destruct (pending_key h) as [key'|] eqn:E; [|by rewrite <-E in Hp].
  rewrite stm_bind_eq. unfold take_pending, store_pending, and_cleanup, catch. cbv zeta.
  match goal with |- context [ks_set ?l ?s] => destruct (ks_set l s) as [r k'] end. split; [|done].
  apply live_invalidate; [congruence|exact Hl].
Qed.

Lemma keeps_flush key b : keeps (borrowed key b) (flush (K:=K)).
Proof. intros h. apply flush_keeps. Qed.

Lemma keeps_flush_quiet key b : keeps (borrowed key b) (flush_quiet (K:=K)).
Proof.
  intros h Hb. unfold flush_quiet. pose proof (flush_keeps key b h Hb) as Hf.
  by destruct (flush h) as [r h'].
Qed.

Lemma keeps_kv_flush key b : keeps (borrowed key b) (kv_flush (K:=K)).
Proof. apply keeps_bind; [by apply keeps_quiet|]. intros _. apply keeps_flush. Qed.

(** ** What reads leave alone *)

(** A property of the handle that no step of a read disturbs. *)
Class ReadStable (P : Handle K → Prop) : Prop := {
  stable_volatile c h : P h → P (set_volatile_cache c h);
  stable_list c h : P h → P (set_list_cache c h);
  stable_heap n h : P h → P (set_heap_next n h);
  stable_insert key b h : read_cache h !! key = None → P h → P (set_read_cache (<[key := b]> (read_cache h)) h);
  stable_retire dir h : P h → P (retire_under dir h);
}.

#[export] Instance borrowed_stable key b : ReadStable (borrowed key b).
Proof.
  split; try done.
  - intros key' b' h Hn [Hl Hp]. split; [by apply live_insert|done].
  - intros dir h [Hl Hp]. split; [by apply live_retire_under|done].
Qed.

(** The key-value space and the pending write are those of [h0]. *)
Definition same_write h0 h : Prop :=
  kv h = kv h0 ∧ pending_key h = pending_key h0 ∧ write_buf h = write_buf h0.

#[export] Instance same_write_stable h0 : ReadStable (same_write h0).
Proof. by split. Qed.

Section reads.
Context (P : Handle K → Prop) `{!ReadStable P}.

Lemma keeps_volatile key' : keeps P (volatile_refresh (K:=K) key').
Proof.
  unfold volatile_refresh, volatile_store. apply keeps_bind; [by intros h Hh|]. intros raw.
  apply keeps_bind.
  - keeps_steps; try (apply keeps_modify; intros h; apply stable_volatile).
    intros h. apply stable_heap.
  - intros [dir|]; keeps_steps. apply keeps_modify. intros h. apply stable_retire.
Qed.

Lemma keeps_fetch key' : keeps P (fetch_raw_one (K:=K) key').
Proof.
  destruct (is_volatile key') eqn:Hv.
  - unfold fetch_raw_one. rewrite Hv. apply keeps_bind; [apply keeps_volatile|]. intros _.
    apply keeps_gets.
  - intros h Hh. rewrite fetch_plain by done.
    destruct (read_cache h !! key') as [b'|] eqn:E; [done|].
    destruct (ks_get_raw (kv h) key') as [[|c raw]|e|e]; try done.
    apply (stable_insert key' _ (set_heap_next _ h)); [done|]. by apply stable_heap.
Qed.

Lemma keeps_hop key' last : keeps P (hop_target (K:=K) key' last).
Proof. unfold hop_target. case_decide; keeps_steps; try apply keeps_fetch; keeps_steps. Qed.

Lemma keeps_hops n key' : keeps P (resolve_hops (K:=K) n key').
Proof.
  revert key'. induction n as [|n IH]; intros key'; cbn [resolve_hops];
    (apply keeps_bind; [apply keeps_hop|]; intros [[t|]|]; [|apply keeps_ret..]).
  - apply keeps_lift.
  - apply IH.
Qed.

Lemma keeps_resolve key' r : keeps P (resolve_cached_key (K:=K) key' r).
Proof.
  unfold resolve_cached_key. destruct r; cbn [negb]; [apply keeps_hops|].
  apply keeps_bind; [apply keeps_fetch|]. intros []; keeps_steps.
Qed.
End reads.

Lemma keeps_list_names key b prefix e r at_ : keeps (borrowed key b) (list_names (K:=K) prefix e r at_).
Proof.
  unfold list_names. apply keeps_bind; [apply keeps_gets|]. intros c. cbv zeta.
  apply keeps_bind.
  - match goal with |- keeps _ (if ?x then _ else _) => destruct x end; keeps_steps;
      auto with stm; by apply keeps_quiet.
  - intros _ h Hb. unfold cached_names. by destruct (list_cache h).
Qed.

(** ** Calls on a handle *)

(** What can happen to a handle between two calls of its owner is a step too: the owner fills in
    the body of the pending write, other processes write to the store. *)
Inductive op :=
  | OGet (key : str) (resolve : bool)
  | OGetPart (key : str) (offset len : Z)
  | OGetHead (key : str)
  | OSetValue (key value : option bytes)
  | OSetPart (key : str) (offset : Z) (buf : option bytes) (buf_len : Z)
  | OWriteInPlace (key : str) (resolve : bool) (body_len : Z) (body_null : bool)
  | OWriteNewPlace (key : str) (ref body_len body_cap : Z) (langtype : str)
  | OFill (off : Z) (buf : bytes)
  | OListLen (prefix : str) (expand_ext resolve : bool)
  | OListAt (prefix : str) (expand_ext resolve : bool) (idx : Z) (buf_null : bool) (buf_cap : Z)
  | ODel (keys : list str)
  | ODelTree (prefix : str)
  | OCp (src dst : str)
  | OCpTree (src dst : str)
  | OCpList (src dst : str)
  | OMkindex (path : str) (capacity : Z)
  | OMkindexExt (path ext_path : str)
  | ORmindexExt (path : str)
  | OWatch (watch : str → XValue → Z → stm K kverr XValue) (key : str) (target : bytes) (tick_ns : Z)
  | OClear
  | OEnv (f : K → K).

(** The owner writes through the pointer [WriteInPlace] or [WriteNewPlace] gave it. *)
Definition fill (off : Z) (buf : bytes) h : Handle K :=
  match pending_key h with
  | Some _ => set_pending ((write_buf h).1, splice (Z.to_nat off) buf (write_buf h).2) (pending_key h) h
  | None => h
  end.

(** Whether the return code is 0, and the handle afterwards. *)
Definition code {A} (r : res fferr A * Handle K) : bool * Handle K :=
  (match fst r with Ok _ => true | _ => false end, snd r).

Definition run (o : op) h : bool * Handle K :=
  match o with
  | OGet k r => code (kvspaceGet k r h)
  | OGetPart k off len => code (kvspaceGetPart k off len h)
  | OGetHead k => code (kvspaceGetHead k h)
  | OSetValue k v => code (kvspaceSetValue k v h)
  | OSetPart k off buf len => code (kvspaceSetPart k off buf len h)
  | OWriteInPlace k r len null => code (kvspaceWriteInPlace k r len null h)
  | OWriteNewPlace k ref len cap lt => code (kvspaceWriteNewPlace k ref len cap lt h)
  | OFill off buf => (true, fill off buf h)
  | OListLen p e r => code (kvspaceListLen p e r h)
  | OListAt p e r idx null cap => code (kvspaceListAt p e r idx null cap h)
  | ODel ks => code (kvspaceDel ks h)
  | ODelTree p => code (kvspaceDelTree p h)
  | OCp src dst => code (kvspaceCp src dst h)
  | OCpTree src dst => code (kvspaceCpTree src dst h)
  | OCpList src dst => code (kvspaceCpList src dst h)
  | OMkindex p c => code (kvspaceMkindex p c h)
  | OMkindexExt p e => code (kvspaceMkindexExt p e h)
  | ORmindexExt p => code (kvspaceRmindexExt p h)
  | OWatch w k t tick => code (kvspaceWatch w k t tick h)
  | OClear => code (kvspaceClear h)
  | OEnv f => (true, set_kv (f (kv h)) h)
  end.

Definition run_op (o : op) h : Handle K := snd (run o h).

(** The key a positional write ends up at. *)
Definition final_key key' (resolve : bool) h : option str :=
  match fst ((flush;; resolve_cached_key key' resolve) h) with Ok o => o | _ => None end.

(** The keys a call is asked to write or delete, as the handle knows them. *)
Definition touches (o : op) h key : Prop :=
  match o with
  | OSetValue (Some k) _ => cstr (Some k) = key
  | OSetPart k _ _ _ => final_key k true h = Some key
  | OWriteInPlace k r _ _ => final_key k r h = Some key
  | OWriteNewPlace k _ _ _ _ => k = key
  | ODel ks => key ∈ ks
  | ODelTree p => under_prefix key p = true
  | OCp _ dst => dst = key
  | OCpTree _ dst | OCpList _ dst => under_prefix key dst = true
  | OClear => True
  | _ => False
  end.

(** The call succeeds: it has written or deleted the key. *)
Definition writes (o : op) h key : Prop := touches o h key ∧ fst (run o h) = true.

(** The calls that drop what the cache holds for their key although they fail: [WriteInPlace]
    takes the value out of the cache before it checks the length, and the deletions and copies
    forget their keys whatever the outcome, since a failed one may have stopped half way. *)
Definition drops_on_failure (o : op) : bool :=
  match o with
  | OWriteInPlace _ _ _ body_null => negb body_null
  | ODel _ | ODelTree _ | OCp _ _ | OCpTree _ _ | OCpList _ _ => true
  | _ => false
  end.
Definition fails_dropping (o : op) h key : Prop :=
  touches o h key ∧ fst (run o h) = false ∧ drops_on_failure o = true.

Ltac keeps_calls :=
  keeps_steps;
  repeat first
    [ apply keeps_flush | apply keeps_flush_quiet | apply keeps_kv_flush | apply (keeps_resolve _)
    | apply keeps_catch | apply keeps_catch_read | apply keeps_alloc | apply keeps_list_names
    | apply keeps_quiet; done
    | match goal with |- keeps _ (match ?x with _ => _ end) => destruct x end
    | progress keeps_steps ].

Lemma keeps_resolve_target key b m f key' r : keeps (borrowed key b) (resolve_target (K:=K) m f key' r).
Proof.
  intros h Hb. unfold resolve_target. pose proof (keeps_resolve (borrowed key b) key' r h Hb) as Hr.
  by destruct (resolve_cached_key key' r h).
Qed.

Lemma final_key_target key' r h m f target h' :
  (flush;; resolve_target m f key' r) h = (Ok target, h') → final_key key' r h = Some target.
Proof.
  unfold final_key. rewrite !stm_bind_eq. destruct (flush h) as [[u|e|e] h1]; try done.
  unfold resolve_target. destruct (resolve_cached_key key' r h1) as [[[k|]|e|e] h2]; try done.
  simpl. congruence.
Qed.

(** A step by step account of a call that starts by resolving its target. *)
Lemma keeps_target {B} key b m f key' r (g : str → stm (Handle K) fferr B) h :
  final_key key' r h ≠ Some key →
  (∀ target, target ≠ key → keeps (borrowed key b) (g target)) →
  borrowed key b h → borrowed key b (snd ((flush;; target ← resolve_target m f key' r; g target) h)).
Proof.
  intros Hf Hg Hb.
  pose proof (flush_keeps key b h Hb) as Hb1.
  rewrite stm_bind_eq. destruct (flush h) as [[u|e|e] h1] eqn:E1; try done.
  pose proof (keeps_resolve_target key b m f key' r h1 Hb1) as Hb2.
  rewrite stm_bind_eq. destruct (resolve_target m f key' r h1) as [[t|e|e] h2] eqn:E2; try done.
  apply Hg; [|done]. intros ->. apply Hf. apply (final_key_target key' r h m f key h2).
  by rewrite stm_bind_eq, E1.
Qed.

(** [m] keeps [P] whenever it fails. *)
Definition keeps_failing {A} (P : Handle K → Prop) (m : stm (Handle K) fferr A) : Prop :=
  ∀ h, P h → match m h with (Ok _, _) => True | (_, h') => P h' end.

Lemma failing_bind {A B} P (m : stm (Handle K) fferr A) (g : A → stm (Handle K) fferr B) :
  keeps P m → (∀ a, keeps_failing P (g a)) → keeps_failing P (m ≫= g).
Proof.
  intros Hm Hg h Hh. specialize (Hm h Hh). rewrite stm_bind_eq.
  destruct (m h) as [[a|e|e] h1]; [by apply Hg|done..].
Qed.

Lemma failing_modify P f : keeps_failing P (modify f).
Proof. by intros h Hh. Qed.

Lemma failing_code {A} P (m : stm (Handle K) fferr A) h :
  keeps_failing P m → P h → fst (code (m h)) ≠ true → P (snd (code (m h))).
Proof. intros Hm Hh. specialize (Hm h Hh). unfold code. by destruct (m h) as [[a|e|e] h']. Qed.

Lemma not_writes o h key : ¬ writes o h key → touches o h key → fst (run o h) ≠ true.
Proof. unfold writes. tauto. Qed.

(** The guarded call: [key] is not named, or the call failed. *)
Definition spared (o : op) h key : Prop := ¬ touches o h key ∨ fst (run o h) ≠ true.

Lemma borrowed_set_value key b k v h :
  spared (OSetValue k v) h key → borrowed key b h → borrowed key b (snd (kvspaceSetValue k v h)).
Proof.
  intros [Ht|Hf] Hb.
  - revert Hb. unfold kvspaceSetValue. destruct k as [k|]; [|done]. simpl in Ht.
    apply keeps_bind; [apply keeps_lift|]. intros value. keeps_calls. by apply keeps_invalidate.
  - revert Hf. apply (failing_code (borrowed key b)); [|done]. unfold kvspaceSetValue.
    repeat (apply failing_bind; [by keeps_calls|intros ?]). apply failing_modify.
Qed.

Lemma failing_set_part key b k off buf len :
  keeps_failing (borrowed key b) (kvspaceSetPart (K:=K) k off buf len).
Proof.
  unfold kvspaceSetPart. apply failing_bind; [by keeps_calls|intros ?].
  apply failing_bind; [by keeps_calls|intros ?].
  apply failing_bind; [apply keeps_resolve_target|intros ?].
  repeat (apply failing_bind; [by keeps_calls|intros ?]). apply failing_modify.
Qed.

Lemma borrowed_set_part key b k off buf len h :
  spared (OSetPart k off buf len) h key → borrowed key b h →
  borrowed key b (snd (kvspaceSetPart k off buf len h)).
Proof.
  intros [Ht|Hf] Hb; [|revert Hf; by apply (failing_code _ _ _ (failing_set_part key b k off buf len))].
  unfold kvspaceSetPart. rewrite bind_err_if. destruct (_ && _); [done|].
  apply keeps_target; [done| |done]. intros target Hne. keeps_calls. by apply keeps_invalidate.
Qed.

Lemma keeps_take_existing key b target :
  target ≠ key → keeps (borrowed key b) (take_existing (K:=K) target).
Proof.
  intros Hne. unfold take_existing. keeps_calls.
  apply keeps_modify. intros h [Hl Hp]. split; [|done].
  destruct Hl as [Hl|Hl]; [left|by right]. simpl. by rewrite lookup_delete_ne.
Qed.

Lemma borrowed_write_in_place key b k r len null h :
  null = true ∨ ¬ touches (OWriteInPlace k r len null) h key → borrowed key b h →
  borrowed key b (snd (kvspaceWriteInPlace k r len null h)).
Proof.
  intros Ht Hb. unfold kvspaceWriteInPlace. rewrite bind_err_if. destruct null; [done|].
  destruct Ht as [[=]|Ht].
  apply keeps_target; [done| |done]. intros target Hne. keeps_calls.
  - by apply keeps_take_existing.
  - apply keeps_modify. intros h' [Hl Hp]. split; [|simpl; congruence].
    by apply live_invalidate.
Qed.

Lemma failing_write_new key b k ref len cap lt :
  keeps_failing (borrowed key b) (kvspaceWriteNewPlace (K:=K) k ref len cap lt).
Proof.
  unfold kvspaceWriteNewPlace. do 3 (apply failing_bind; [by keeps_calls|intros ?]).
  intros h Hh. rewrite bind_modify, stm_bind_eq. unfold alloc_buf. by rewrite bind_modify.
Qed.

Lemma borrowed_write_new key b k ref len cap lt h :
  spared (OWriteNewPlace k ref len cap lt) h key → borrowed key b h →
  borrowed key b (snd (kvspaceWriteNewPlace k ref len cap lt h)).
Proof.
  intros [Ht|Hf] Hb;
    [|revert Hf; by apply (failing_code _ _ _ (failing_write_new key b k ref len cap lt))].
  revert Hb. unfold kvspaceWriteNewPlace. simpl in Ht.
  apply keeps_bind; [apply keeps_flush|]. intros _. keeps_calls.
  - by apply keeps_invalidate.
  - apply keeps_modify. intros h' [Hl Hp]. split; [done|]. simpl. congruence.
Qed.

Lemma failing_clear key b : keeps_failing (borrowed key b) (kvspaceClear (K:=K)).
Proof.
  unfold kvspaceClear. repeat (apply failing_bind; [by keeps_calls|intros ?]). apply failing_modify.
Qed.

Lemma borrowed_watch key b w k t tick h :
  borrowed key b h → borrowed key b (snd (kvspaceWatch w k t tick h)).
Proof.
  intros Hb. unfold kvspaceWatch.
  apply keeps_bind; [apply keeps_flush_quiet| |done]. intros _. cbv zeta.
  apply keeps_bind; [apply keeps_catch|]. intros v h' [Hl Hp].
  rewrite bind_modify. rewrite stm_bind_eq. unfold alloc_buf. rewrite bind_modify.
  split; [|done]. right. by apply (live_retire_all key b).
Qed.

Lemma keeps_mutate key b m f :
  (∀ h, borrowed key b h → borrowed key b (f h)) → keeps (borrowed key b) (mutate (K:=K) m f).
Proof.
  intros Hf. apply keeps_bind; [apply keeps_kv_flush|]. intros _.
  apply keeps_and_cleanup; [apply keeps_catch|done].
Qed.

Lemma borrowed_del_cleanup key b ks h : key ∉ ks → borrowed key b h → borrowed key b (del_cleanup ks h).
Proof.
  intros Hin Hb. unfold del_cleanup.
  assert (Hf : borrowed key b (foldl (λ h k, cache_invalidate k h) h ks)).
  { revert h Hb. induction ks as [|k ks IH]; intros h Hb; [done|]. apply not_elem_of_cons in Hin as [Hne Hin].
    apply IH; [done|]. destruct Hb as [Hl Hp]. split; [by apply live_invalidate|done]. }
  destruct (existsb _ ks); [|done]. destruct Hf as [Hl Hp]. split; [|done].
  right. by apply (live_retire_all key b).
Qed.

Lemma borrowed_tree key b prefix h :
  under_prefix key prefix ≠ true → borrowed key b h → borrowed key b (cache_invalidate_tree prefix h).
Proof.
  intros Hu%not_true_is_false [Hl Hp]. split; [by apply live_invalidate_tree|done].
Qed.

(** What a call must do to take a borrow: succeed in writing the key, or fail dropping it. *)
Lemma not_taken o h key :
  ¬ writes o h key → ¬ fails_dropping o h key →
  if drops_on_failure o then ¬ touches o h key else spared o h key.
Proof.
  unfold writes, fails_dropping, spared. destruct (fst (run o h)), (drops_on_failure o); naive_solver.
Qed.

(** One call. *)
Lemma borrowed_op o key b h :
  ¬ writes o h key → ¬ fails_dropping o h key → borrowed key b h → borrowed key b (run_op o h).
Proof.
  intros Hw Hd Hb. pose proof (not_taken o h key Hw Hd) as Ht. clear Hw Hd.
  unfold run_op. destruct o; cbn [drops_on_failure] in Ht; cbn [run code snd].
  - revert Hb. unfold kvspaceGet. apply keeps_bind; [apply keeps_flush_quiet|]. intros _. keeps_calls.
  - revert Hb. unfold kvspaceGetPart. apply keeps_bind; [apply keeps_flush_quiet|]. intros _. keeps_calls.
  - revert Hb. unfold kvspaceGetHead. apply keeps_bind; [apply keeps_flush_quiet|]. intros _. keeps_calls.
  - by apply borrowed_set_value.
  - by apply borrowed_set_part.
  - apply borrowed_write_in_place; [|done]. destruct body_null; [by left|by right].
  - by apply borrowed_write_new.
  - unfold fill. destruct (pending_key h) eqn:E; [|done]. destruct Hb as [Hl Hp]. by split; [|rewrite <-E].
  - revert Hb. unfold kvspaceListLen. apply keeps_bind; [apply keeps_flush_quiet|]. intros _. keeps_calls.
  - revert Hb. unfold kvspaceListAt. apply keeps_bind; [apply keeps_err_if|]. intros _. keeps_calls.
  - apply keeps_mutate; [|done]. intros h'. by apply borrowed_del_cleanup.
  - apply keeps_mutate; [|done]. intros h'. by apply borrowed_tree.
  - apply keeps_mutate; [|done]. intros h' [Hl Hp]. split; [by apply live_invalidate|done].
  - apply keeps_mutate; [|done]. intros h'. by apply borrowed_tree.
  - apply keeps_mutate; [|done]. intros h'. by apply borrowed_tree.
  - by apply keeps_mutate.
  - by apply keeps_mutate.
  - by apply keeps_mutate.
  - by apply borrowed_watch.
  - destruct Ht as [[]|Hf]; [done|]. revert Hf. by apply (failing_code _ _ _ (failing_clear key b)).
  - done.
Qed.
(** ** Calls in sequence *)

Definition run_ops (ops : list op) h : Handle K := foldl (λ h o, run_op o h) h ops.

(** No call of the sequence takes a borrow of [key]. *)
Fixpoint untouched (ops : list op) h key : Prop :=
  match ops with
  | [] => True
  | o :: ops => ¬ writes o h key ∧ ¬ fails_dropping o h key ∧ untouched ops (run_op o h) key
  end.

Lemma borrowed_ops ops key b h : untouched ops h key → borrowed key b h → borrowed key b (run_ops ops h).
Proof.
  revert h. induction ops as [|o ops IH]; intros h Hu Hb; [done|]. destruct Hu as (Ho & Hd & Hu).
  apply IH; [done|]. by apply borrowed_op.
Qed.

Lemma flush_pending h : pending_key (snd (flush h)) = None.
Proof.
  unfold flush. rewrite bind_gets. destruct (pending_key h) as [key'|] eqn:E; [|done].
  rewrite stm_bind_eq. unfold take_pending, store_pending, and_cleanup, catch. cbv zeta.
  match goal with |- context [ks_set ?l ?s] => by destruct (ks_set l s) as [r k'] end.
Qed.

(** A successful [Get], taken apart. *)
Lemma get_inv key r h o h' :
  kvspaceGet key r h = (Ok o, h') →
  ∃ h1 final, flush h = (Ok tt, h1) ∧ resolve_cached_key key r h1 = (Ok final, h') ∧
    o = match final with Some fk => view_of <$> cached_slice h' fk | None => None end.
Proof.
  unfold kvspaceGet. rewrite stm_bind_eq. unfold flush_quiet.
  destruct (flush h) as [[[]|e|e] h1]; try done. rewrite stm_bind_eq.
  destruct (resolve_cached_key key r h1) as [[final|e|e] h2] eqn:E; try done.
  intros Ho. exists h1, final. destruct final as [fk|]; injection Ho as <- <-; done.
Qed.

Lemma get_borrowed key r h v h' :
  kvspaceGet key r h = (Ok (Some v), h') →
  ∃ fk b, final_key key r h = Some fk ∧ cached_slice h' fk = Some b ∧ v = view_of b ∧ pending_key h' = None.
Proof.
  intros (h1 & final & Hf & Hr & Ho)%get_inv. destruct final as [fk|]; [|done].
  destruct (cached_slice h' fk) as [b|] eqn:Eb; [|done]. injection Ho as ->.
  exists fk, b. split_and!; try done.
  - unfold final_key. rewrite stm_bind_eq, Hf, Hr. done.
  - pose proof (keeps_resolve (same_write h1) key r h1 (conj eq_refl (conj eq_refl eq_refl))) as Hs.
    rewrite Hr in Hs. destruct Hs as (_ & Hp & _). simpl in Hp. rewrite Hp.
    pose proof (flush_pending h) as Hn. by rewrite Hf in Hn.
Qed.

(** ** Writes forget what was cached *)

Lemma flush_forgets key h : read_cache h !! key = None → read_cache (snd (flush h)) !! key = None.
Proof.
  intros Hn. unfold flush. rewrite bind_gets. destruct (pending_key h) as [key'|] eqn:E; [|done].
  rewrite stm_bind_eq. unfold take_pending, store_pending, and_cleanup, catch. cbv zeta.
  match goal with |- context [ks_set ?l ?s] => destruct (ks_set l s) as [r k'] end. simpl.
  rewrite lookup_delete_None. by right.
Qed.

Lemma catch_same {A} p (m : stm K kverr A) h :
  read_cache (snd (catch p m h)) = read_cache h.
Proof. unfold catch. by destruct (m (kv h)). Qed.

(** A computation that, when it succeeds, leaves [key] out of the plain cache. *)
Definition forgets {A} key (m : stm (Handle K) fferr A) : Prop :=
  ∀ h a h', m h = (Ok a, h') → read_cache h' !! key = None.

Lemma forgets_bind {A B} key (m : stm (Handle K) fferr A) (g : A → stm (Handle K) fferr B) :
  (∀ a, forgets key (g a)) → forgets key (m ≫= g).
Proof.
  intros Hg h b h'. rewrite stm_bind_eq. destruct (m h) as [[a|e|e] h1]; try done. apply Hg.
Qed.

Lemma forgets_invalidate key : forgets key (modify (cache_invalidate key)).
Proof. intros h a h' [= _ <-]. apply lookup_delete_eq. Qed.

Lemma forgets_mutate key m f : (∀ h, read_cache (f h) !! key = None) → forgets key (mutate m f).
Proof.
  intros Hf. apply forgets_bind. intros _ h a h'. unfold and_cleanup.
  destruct (catch FPanic m h) as [r h1]. intros [= _ <-]. apply Hf.
Qed.

Lemma forgets_code {A} key (m : stm (Handle K) fferr A) h :
  forgets key m → fst (code (m h)) = true → read_cache (snd (code (m h))) !! key = None.
Proof.
  intros Hm. unfold code. destruct (m h) as [[a|e|e] h'] eqn:E; try done. intros _. by apply (Hm h a).
Qed.

Lemma del_cleanup_forgets ks key h : key ∈ ks → read_cache (del_cleanup ks h) !! key = None.
Proof.
  intros Hin. unfold del_cleanup.
  assert (Hf : read_cache (foldl (λ h k, cache_invalidate k h) h ks) !! key = None).
  { assert (Hkeep : ∀ ks h, read_cache h !! key = None →
      read_cache (foldl (λ h k, cache_invalidate k h) h ks) !! key = None).
    { clear. induction ks as [|k ks IH]; intros h Hn; [done|]. apply IH. simpl.
      rewrite lookup_delete_None. by right. }
    revert h. induction ks as [|k ks IH]; intros h; [by apply not_elem_of_nil in Hin|].
    apply elem_of_cons in Hin as [<-|Hin]; [|by apply IH].
    apply (Hkeep ks). apply lookup_delete_eq. }
  destruct (existsb _ ks); [done|exact Hf].
Qed.

Lemma tree_forgets key prefix h :
  under_prefix key prefix = true → read_cache (cache_invalidate_tree prefix h) !! key = None.
Proof.
  intros Hu. simpl. apply map_lookup_filter_None. right. intros b _. simpl. by rewrite Hu.
Qed.

Lemma forgets_target {B} key m f key' r (g : str → stm (Handle K) fferr B) h x h' :
  final_key key' r h = Some key → forgets key (g key) →
  (flush;; target ← resolve_target m f key' r; g target) h = (Ok x, h') → read_cache h' !! key = None.
Proof.
  intros Hf Hg. rewrite stm_bind_eq. destruct (flush h) as [[u|e|e] h1] eqn:E1; try done.
  rewrite stm_bind_eq. destruct (resolve_target m f key' r h1) as [[t|e|e] h2] eqn:E2; try done.
  assert (Ht : final_key key' r h = Some t).
  { apply (final_key_target key' r h m f t h2). by rewrite stm_bind_eq, E1. }
  rewrite Hf in Ht. injection Ht as <-. apply Hg.
Qed.

Lemma forgets_op o h key :
  touches o h key → fst (run o h) = true → read_cache (snd (run o h)) !! key = None.
Proof.
  intros Ht. destruct o; cbn [run]; try done; simpl in Ht.
  - destruct key0 as [k|]; [|done]. subst key. apply forgets_code. unfold kvspaceSetValue.
    repeat (apply forgets_bind; intros ?). apply forgets_invalidate.
  - unfold code. destruct (kvspaceSetPart key0 offset buf buf_len h) as [[u|e|e] h'] eqn:E; try done.
    intros _. revert E. unfold kvspaceSetPart. rewrite bind_err_if. destruct (_ && _); [done|].
    apply forgets_target; [done|]. repeat (apply forgets_bind; intros ?). apply forgets_invalidate.
  - unfold code. destruct (kvspaceWriteInPlace key0 resolve body_len body_null h) as [[u|e|e] h'] eqn:E;
      try done.
    intros _. revert E. unfold kvspaceWriteInPlace. rewrite bind_err_if. destruct body_null; [done|].
    apply forgets_target; [done|]. do 2 (apply forgets_bind; intros ?).
    intros h1 v h2. rewrite bind_modify. intros [= _ <-]. apply lookup_delete_eq.
  - subst key0. apply forgets_code. unfold kvspaceWriteNewPlace.
    do 3 (apply forgets_bind; intros ?). intros h1 v h2.
    rewrite bind_modify, stm_bind_eq. unfold alloc_buf. rewrite bind_modify. intros [= _ <-].
    apply lookup_delete_eq.
  - apply forgets_code, forgets_mutate. intros h'. by apply del_cleanup_forgets.
  - apply forgets_code, forgets_mutate. intros h'. by apply tree_forgets.
  - subst. apply forgets_code, forgets_mutate. intros h'. apply lookup_delete_eq.
  - apply forgets_code, forgets_mutate. intros h'. by apply tree_forgets.
  - apply forgets_code, forgets_mutate. intros h'. by apply tree_forgets.
  - apply forgets_code. unfold kvspaceClear. repeat (apply forgets_bind; intros ?).
    by intros h1 u h2 [= _ <-].
Qed.

(** ** The rings of the control keys *)

Definition ring_ok (vb : VolatileBuf) : Prop := length (slots vb) = 4%nat ∧ (which vb < 4)%nat.
Definition rings_ok h : Prop := map_Forall (λ _, ring_ok) (volatile_cache h).

Lemma rings_delete key h : rings_ok h → map_Forall (λ _, ring_ok) (delete key (volatile_cache h)).
Proof. apply map_Forall_delete. Qed.

Lemma keeps_rings_same f :
  (∀ h, volatile_cache (f h) = volatile_cache h) → keeps (E:=fferr) rings_ok (modify f).
Proof. intros Hf. apply keeps_modify. intros h. unfold rings_ok. by rewrite Hf. Qed.

Lemma keeps_rings_invalidate key : keeps (E:=fferr) rings_ok (modify (cache_invalidate key)).
Proof. apply keeps_modify. intros h. apply rings_delete. Qed.

Lemma rings_tree prefix h : rings_ok h → rings_ok (cache_invalidate_tree prefix h).
Proof. intros Hr key vb [Hl _]%map_lookup_filter_Some. by apply (Hr key). Qed.

Lemma keeps_rings_catch {A} p (m : stm K kverr A) : keeps rings_ok (catch p m).
Proof. intros h Hr. unfold catch. by destruct (m (kv h)). Qed.

Lemma keeps_rings_cleanup {A} (m : stm (Handle K) fferr A) f :
  keeps rings_ok m → (∀ h, rings_ok h → rings_ok (f h)) → keeps rings_ok (and_cleanup m f).
Proof.
  intros Hm Hf h Hr. unfold and_cleanup. specialize (Hm h Hr). destruct (m h). by apply Hf.
Qed.

Lemma keeps_rings_flush : keeps rings_ok (flush (K:=K)).
Proof.
  apply keeps_bind; [apply keeps_gets|]. intros [key|]; keeps_steps.
  - by intros h Hr.
  - apply keeps_rings_cleanup; [apply keeps_rings_catch|]. intros h. apply rings_delete.
Qed.

Lemma keeps_rings_flush_quiet : keeps rings_ok (flush_quiet (K:=K)).
Proof.
  intros h Hr. unfold flush_quiet. pose proof (keeps_rings_flush h Hr) as Hf. by destruct (flush h).
Qed.

(** The ring after a refresh holds what the store returned, and keeps the buffers of the three
    changes before. *)
Lemma volatile_store_spec key raw h :
  rings_ok h →
  let old := default empty_volatile (volatile_cache h !! key) in
  ∃ d vb,
    fst (volatile_store key raw h) = Ok d ∧
    volatile_cache (snd (volatile_store key raw h)) = <[key := vb]> (volatile_cache h) ∧
    read_cache (snd (volatile_store key raw h)) = read_cache h ∧
    kv (snd (volatile_store key raw h)) = kv h ∧
    ring_ok vb ∧ (current vb).2 = raw ∧
    (current vb = current old ∨
     ∀ i, (i < 3)%nat →
       slots vb !! ((which vb + 4 - S i) mod 4)%nat = slots old !! ((which old + 4 - i) mod 4)%nat).
Proof.
  intros Hr. cbv zeta. set (old := default empty_volatile (volatile_cache h !! key)).
  assert (Hold : ring_ok old).
  { unfold old. destruct (volatile_cache h !! key) as [vb|] eqn:E; [by apply (Hr key)|].
    split; simpl; lia. }
  destruct Hold as [Hlen Hw].
  unfold volatile_store. rewrite bind_gets. fold old. cbv zeta. rewrite bind_modify.
  destruct (decide ((current old).2 = raw)) as [<-|Hne].
  - eexists None, old. split_and!; try done. by left.
  - set (w := ((which old + 1) mod 4)%nat).
    assert (Hwlt : (w < 4)%nat) by (apply Nat.mod_upper_bound; lia).
    rewrite stm_bind_eq. unfold alloc_buf. rewrite bind_modify. simpl.
    eexists _, _. split_and!; [done| |done|done|..].
    + by rewrite insert_insert_eq.
    + split; simpl; [by rewrite length_insert|done].
    + unfold current. simpl. by rewrite list_lookup_insert_eq by lia.
    + right. intros i Hi. simpl. rewrite list_lookup_insert_ne.
      * f_equal. unfold w. destruct (which old) as [|[|[|[|]]]]; [| | | |lia];
          destruct i as [|[|[|]]]; try lia; reflexivity.
      * unfold w. destruct (which old) as [|[|[|[|]]]]; [| | | |lia];
          destruct i as [|[|[|]]]; try lia; vm_compute; lia.
Qed.

Lemma keeps_rings_volatile key : keeps rings_ok (volatile_refresh (K:=K) key).
Proof.
  unfold volatile_refresh. apply keeps_bind; [by intros h Hr|]. intros raw.
  apply keeps_bind.
  - intros h Hr. destruct (volatile_store_spec key raw h Hr) as (d & vb & _ & Hv & _ & _ & Hok & _).
    unfold rings_ok. rewrite Hv. by apply map_Forall_insert_2.
  - intros [dir|]; keeps_steps. by apply keeps_rings_same.
Qed.

Lemma keeps_rings_fetch key : keeps rings_ok (fetch_raw_one (K:=K) key).
Proof.
  unfold fetch_raw_one. destruct (is_volatile key); keeps_steps; try apply keeps_rings_volatile;
    keeps_steps; try (by apply keeps_rings_same); by intros h Hr.
Qed.

Lemma keeps_rings_hop key last : keeps rings_ok (hop_target (K:=K) key last).
Proof. unfold hop_target. case_decide; keeps_steps; try apply keeps_rings_fetch; keeps_steps. Qed.

Lemma keeps_rings_resolve key r : keeps rings_ok (resolve_cached_key (K:=K) key r).
Proof.
  unfold resolve_cached_key. destruct r; cbn [negb].
  - generalize MAX_PTR_HOPS as n. intros n. revert key. induction n as [|n IH]; intros key; cbn [resolve_hops];
      (apply keeps_bind; [apply keeps_rings_hop|]; intros [[t|]|]; [|apply keeps_ret..]);
      [apply keeps_lift|apply IH].
  - apply keeps_bind; [apply keeps_rings_fetch|]. intros []; keeps_steps.
Qed.

Lemma keeps_rings_target m f key r : keeps rings_ok (resolve_target (K:=K) m f key r).
Proof.
  intros h Hr. unfold resolve_target. pose proof (keeps_rings_resolve key r h Hr) as Hs.
  by destruct (resolve_cached_key key r h).
Qed.

Lemma keeps_rings_list prefix e r at_ : keeps rings_ok (list_names (K:=K) prefix e r at_).
Proof.
  unfold list_names. apply keeps_bind; [apply keeps_gets|]. intros c. cbv zeta. apply keeps_bind.
  - match goal with |- keeps _ (if ?x then _ else _) => destruct x end; keeps_steps;
      try (by apply keeps_rings_same).
  - intros _ h Hr. unfold cached_names. by destruct (list_cache h).
Qed.

Lemma keeps_rings_mutate m f :
  (∀ h, rings_ok h → rings_ok (f h)) → keeps rings_ok (mutate (K:=K) m f).
Proof.
  intros Hf. unfold mutate, kv_flush. keeps_steps; [by apply keeps_rings_same|apply keeps_rings_flush|].
  apply keeps_rings_cleanup; [apply keeps_rings_catch|done].
Qed.

Lemma rings_del_cleanup ks h : rings_ok h → rings_ok (del_cleanup ks h).
Proof.
  intros Hr. unfold del_cleanup.
  assert (Hf : rings_ok (foldl (λ h k, cache_invalidate k h) h ks)).
  { revert h Hr. induction ks as [|k ks IH]; intros h Hr; [done|]. by apply IH, rings_delete. }
  by destruct (existsb _ ks).
Qed.

Ltac rings_calls :=
  keeps_steps;
  repeat first
    [ apply keeps_rings_flush | apply keeps_rings_flush_quiet | apply keeps_rings_resolve
    | apply keeps_rings_target | apply keeps_rings_catch | apply keeps_rings_list
    | apply keeps_rings_invalidate | by apply keeps_rings_same | (by intros h Hr)
    | match goal with |- keeps _ (match ?x with _ => _ end) => destruct x end
    | progress keeps_steps ].

Lemma rings_op o h : rings_ok h → rings_ok (run_op o h).
Proof.
  revert h. unfold run_op.
  destruct o; cbn [run code snd].
  - change (keeps rings_ok (kvspaceGet key resolve)). unfold kvspaceGet. rings_calls.
  - change (keeps rings_ok (kvspaceGetPart key offset len)). unfold kvspaceGetPart. rings_calls.
  - change (keeps rings_ok (kvspaceGetHead key)). unfold kvspaceGetHead. rings_calls.
  - change (keeps rings_ok (kvspaceSetValue key value)). unfold kvspaceSetValue. rings_calls.
  - change (keeps rings_ok (kvspaceSetPart key offset buf buf_len)). unfold kvspaceSetPart. rings_calls.
  - change (keeps rings_ok (kvspaceWriteInPlace key resolve body_len body_null)).
    unfold kvspaceWriteInPlace, take_existing. rings_calls; apply keeps_modify; intros h; apply rings_delete.
  - change (keeps rings_ok (kvspaceWriteNewPlace key ref body_len body_cap langtype)).
    unfold kvspaceWriteNewPlace. rings_calls.
  - intros h Hr. unfold fill. by destruct (pending_key h).
  - change (keeps rings_ok (kvspaceListLen prefix0 expand_ext resolve)). unfold kvspaceListLen. rings_calls.
  - change (keeps rings_ok (kvspaceListAt prefix0 expand_ext resolve idx buf_null buf_cap)).
    unfold kvspaceListAt. rings_calls.
  - apply keeps_rings_mutate, rings_del_cleanup.
  - apply keeps_rings_mutate, rings_tree.
  - apply keeps_rings_mutate. intros h. apply rings_delete.
  - apply keeps_rings_mutate, rings_tree.
  - apply keeps_rings_mutate, rings_tree.
  - by apply keeps_rings_mutate.
  - by apply keeps_rings_mutate.
  - by apply keeps_rings_mutate.
  - change (keeps rings_ok (kvspaceWatch watch key target tick_ns)). unfold kvspaceWatch. rings_calls.
  - change (keeps rings_ok (kvspaceClear (K:=K))). unfold kvspaceClear, kv_flush. rings_calls.
  - by intros h Hr.
Qed.

(** ** What a read returns *)

(** The handle has no entry for [key] that a read would return without asking the store. *)
Definition fresh key h : Prop := is_volatile key = true ∨ read_cache h !! key = None.

Lemma fetch_fresh key raw h :
  rings_ok h → fresh key h → ks_get_raw (kv h) key = Ok raw →
  ∃ h', fetch_raw_one key h = (Ok (negb (bool_decide (raw = []))), h') ∧ kv h' = kv h ∧
    snd <$> cached_slice h' key = if decide (raw = []) then None else Some raw.
Proof.
  intros Hr Hf Hraw. destruct (is_volatile key) eqn:Hv.
  - unfold fetch_raw_one. rewrite Hv, stm_bind_eq. unfold volatile_refresh.
    rewrite stm_bind_eq. unfold catch_read. rewrite Hraw, stm_bind_eq.
    destruct (volatile_store_spec key raw h Hr) as (d & vb & Hd & Hvc & _ & Hkv & _ & Hcur & _).
    destruct (volatile_store key raw h) as [r h1]. simpl in Hd, Hvc, Hkv. subst r.
    assert (Hany : ∀ h2, volatile_cache h2 = volatile_cache h1 → kv h2 = kv h1 →
      ∃ h', gets (λ h, match volatile_cache h !! key with
                       | Some vb => negb (bool_decide ((current vb).2 = [])) | None => false end) h2 =
        (Ok (E:=fferr) (negb (bool_decide (raw = []))), h') ∧ kv h' = kv h ∧
        snd <$> cached_slice h' key = if decide (raw = []) then None else Some raw).
    { intros h2 H2 H3. exists h2. unfold gets, cached_slice.
      rewrite H2, H3, Hvc, Hv, lookup_insert_eq, Hcur. simpl. rewrite Hcur.
      split_and!; [done..|]. case_decide; simpl; congruence. }
    destruct d as [dir|]; [apply (Hany (retire_under dir h1))|apply (Hany h1)]; done.
  - destruct Hf as [Hf|Hf]; [congruence|]. rewrite fetch_plain by done. rewrite Hf, Hraw.
    destruct raw as [|c raw]; (eexists; split_and!; [reflexivity|done|]);
      unfold cached_slice; rewrite Hv; simpl; [by rewrite Hf|by rewrite lookup_insert_eq].
Qed.

Lemma get_fresh key raw h h1 :
  flush h = (Ok tt, h1) → rings_ok h1 → fresh key h1 → ks_get_raw (kv h1) key = Ok raw →
  ∃ v h2, kvspaceGet key false h = (Ok v, h2) ∧ kv h2 = kv h1 ∧
    v_bytes <$> v = if decide (raw = []) then None else Some raw.
Proof.
  intros Hfl Hr Hf Hraw. destruct (fetch_fresh key raw h1 Hr Hf Hraw) as (h2 & Hfe & Hkv & Hs).
  unfold kvspaceGet, flush_quiet. rewrite stm_bind_eq, Hfl, stm_bind_eq.
  unfold resolve_cached_key. cbn [negb]. rewrite stm_bind_eq, Hfe.
  destruct (decide (raw = [])) as [->|Hne]; simpl.
  - by eexists _, _.
  - rewrite bool_decide_false by done. simpl. eexists _, _. split_and!; [reflexivity|done|].
    rewrite <-Hs. by destruct (cached_slice h2 key).
Qed.

Lemma forgets_flush o h key h1 :
  touches o h key → fst (run o h) = true → flush (run_op o h) = (Ok tt, h1) → fresh key h1.
Proof.
  intros Ht Hok Hf. right. pose proof (flush_forgets key (run_op o h)) as Hn. rewrite Hf in Hn.
  apply Hn. by apply forgets_op.
Qed.

Lemma rings_flush h r h1 : rings_ok h → flush h = (r, h1) → rings_ok h1.
Proof. intros Hr Hf. pose proof (keeps_rings_flush h Hr) as Hk. by rewrite Hf in Hk. Qed.

(** ** Properties of the caches *)

(** C21. A borrowed pointer stays good: the buffer [Get] hands out for an ordinary key, one that
    is not a control key (after following pointers to it, if asked to), is still allocated, with
    the same bytes, after any sequence of further calls, fills and writes of other processes, as
    long as none of the calls succeeds in writing or deleting that key or its subtree or in
    clearing the space, and none of [WriteInPlace], [Del], [DelTree], [Cp], [CpTree] and [CpList]
    is asked to write or delete it and fails.  Failing [SetValue], [SetPart], [WriteNewPlace] and
    [Clear] calls on the key do no harm.  The last condition is needed, against the documented
    lifetime: [refused_write_frees_borrowed], [refused_copy_frees_borrowed]. *)
Theorem borrowed_views_live key resolve v final (ops : list op) h h' :
  kvspaceGet key resolve h = (Ok (Some v), h') →
  final_key key resolve h = Some final → is_volatile final = false → untouched ops h' final →
  ∃ b, v = view_of b ∧ live final b (run_ops ops h').
Proof.
  intros (fk & b & Hfk & Hb & -> & Hp)%get_borrowed Hfinal Hv Hu.
  rewrite Hfk in Hfinal. injection Hfinal as ->. exists b. split; [done|].
  unfold cached_slice in Hb. rewrite Hv in Hb.
  apply (borrowed_ops ops final b h'); [done|]. split; [by left|]. by rewrite Hp.
Qed.

(** C22. Read your writes: once a call that writes or deletes [key] has succeeded, and what it
    left to be written lazily has been stored, the next [Get] of [key] returns what the store
    holds then, never a cached value. *)
Theorem get_after_write (o : op) key raw h h1 :
  rings_ok h → touches o h key → fst (run o h) = true → flush (run_op o h) = (Ok tt, h1) →
  ks_get_raw (kv h1) key = Ok raw →
  ∃ v h2, kvspaceGet key false (run_op o h) = (Ok v, h2) ∧
    v_bytes <$> v = if decide (raw = []) then None else Some raw.
Proof.
  intros Hr Ht Hok Hf Hraw.
  destruct (get_fresh key raw (run_op o h) h1 Hf) as (v & h2 & Hg & _ & Hv); eauto using forgets_flush.
  eapply rings_flush; [|done]. by apply rings_op.
Qed.
End cache.

(** ** Witnesses, on a handle over a space with one value *)

Definition int64_wire (n : Z) : bytes := XValue.to_wire (new_int64 [n]).
Definition sample_handle : Handle mem := new_handle sample_store.
(** ... whose value has been read. *)
Definition read_handle : Handle mem := snd (kvspaceGet "/k"%rs false sample_handle).

Lemma borrowed_views_live_witness :
  let ops := [OSetValue (Some "/a"%rs) (Some (int64_wire 1)); OSetValue (Some "/k"%rs) (Some []); OMkindex "/d/"%rs 0; OGet "/a"%rs true;
              OEnv (kv_del ["/k"%rs])] in
  ∃ b, mkView 1 0 (int64_wire 7) = view_of b ∧ live "/k"%rs b (run_ops ops read_handle).
Proof.
  cbv zeta. apply (borrowed_views_live "/k"%rs false _ "/k"%rs _ sample_handle).
  - apply pair_of_fst. vm_compute. reflexivity.
  - vm_compute. reflexivity.
  - vm_compute. reflexivity.
  - repeat (split; [intros [E Hok]; first [discriminate E|exact E|vm_compute in Hok; discriminate Hok]|];
      split; [intros (E & _ & D); first [discriminate D|exact E|vm_compute in E; discriminate E]|]).
    exact I.
Defined.

Lemma get_after_write_witness :
  ∃ v h2, kvspaceGet "/k"%rs false (run_op (OSetValue (Some "/k"%rs) (Some (int64_wire 9))) read_handle) =
      (Ok v, h2) ∧ v_bytes <$> v = Some (int64_wire 9).
Proof.
  apply (get_after_write (OSetValue (Some "/k"%rs) (Some (int64_wire 9))) "/k"%rs (int64_wire 9) read_handle
    (snd (flush (run_op (OSetValue (Some "/k"%rs) (Some (int64_wire 9))) read_handle)))).
  - apply (rings_op (OGet "/k"%rs false) sample_handle). apply map_Forall_empty.
  - vm_compute. reflexivity.
  - vm_compute. reflexivity.
  - apply pair_of_fst. vm_compute. reflexivity.
  - vm_compute. reflexivity.
Defined.

(** ** Where the caches fall short *)

(** Deleting a directory key deletes the value without the suffix too, but only the key as given
    is forgotten: the handle goes on returning the deleted value. *)
Example del_dir_leaves_value_cached :
  let h := snd (kvspaceDel ["/k/"%rs] read_handle) in
  fst (kvspaceDel ["/k/"%rs] read_handle) = Ok tt ∧ kv_get (kv h) "/k"%rs = None ∧
  fst (kvspaceGet "/k"%rs false h) = Ok (Some (mkView 1 0 (int64_wire 7))).
Proof. split_and!; vm_compute; reflexivity. Qed.

(** A refused in-place write has already taken the value out of the cache: nothing is written,
    but the buffer the caller still points into is gone. *)
Example refused_write_frees_borrowed :
  let r := kvspaceWriteInPlace "/k"%rs false 99 false read_handle in
  fst r = Err FInPlaceLength ∧ read_cache read_handle !! "/k"%rs = Some (1%nat, int64_wire 7) ∧
  read_cache (snd r) !! "/k"%rs = None ∧ retired (snd r) = [] ∧
  kv_get (kv (snd r)) "/k"%rs = Some (int64_wire 7).
Proof. split_and!; vm_compute; reflexivity. Qed.

(** So does a copy that fails because its source is missing: the destination keeps its value. *)
Example refused_copy_frees_borrowed :
  let r := kvspaceCp "/missing"%rs "/k"%rs read_handle in
  (∃ e, fst r = Err e) ∧ read_cache read_handle !! "/k"%rs = Some (1%nat, int64_wire 7) ∧
  read_cache (snd r) !! "/k"%rs = None ∧ retired (snd r) = [] ∧
  kv_get (kv (snd r)) "/k"%rs = Some (int64_wire 7).
Proof. cbv zeta. split_and!; try (vm_compute; reflexivity). eexists. vm_compute. reflexivity. Qed.

(** [Watch] leaves an entry for a control key in the plain cache, which later reads ignore but
    [WriteInPlace] takes its head and attributes from, whatever the space holds by then. *)
Example watched_control_key_written_stale :
  let key := "/vthread/1‥x"%rs in
  let wire lt := default [] (HeadLenPow.to_wire "12345678"%rs lt) in
  let watch := λ _ _ _, λ s, (Ok (XValue.from_wire (int64_wire 7)), s) in
  let h := snd (kvspaceWatch watch key (int64_wire 7) 0 (new_handle (kv_set key (int64_wire 7) sample_store))) in
  let h := set_kv (kv_set key (wire "uint64"%rs) (kv h)) h in
  let r := code (kvspaceWriteInPlace key false 8 false h) in
  langtype_of (kv h) key = "uint64"%rs ∧ fst r = true ∧
  langtype_of (kv (snd (flush (snd r)))) key = "int64"%rs.
Proof. split_and!; vm_compute; reflexivity. Qed.
