(* ===== verification/FfiSpace.v ===== *)
(** * A handle over a space: transparent reads, traversals, lazy writes

    The cached read against the uncached one, the traversal of a listing while other processes
    write, and what a value written in place by its owner reads back as. *)

From S2P Require Import Prelude RustInt RustStr RustText HeadLenPow KPath XValue Store Backend BackendRead BackendWrite BackendSetGet KVSpace Ffi FfiCache.
Local Open Scope Z_scope.
Implicit Types (key prefix : str).

(** ** The read without a cache *)

Inductive deref_result := Found (key : str) | Missing | Broken.

(** Follows the pointers stored in the space, at most [n] of them. *)
Fixpoint deref {K} `{KVSpace K} (k : K) (n : nat) (key : str) : deref_result :=
  if decide (key = []) then Missing
  else
    match ks_get_raw k key with
    | Ok [] => Missing
    | Ok raw =>
        match HeadLenPow.from_wire raw with
        | None => Broken
        | Some w =>
            if bool_decide (h_reference w = RefPointer) then
              match n, from_utf8 (h_body w) with
              | S n, Some t => deref k n t
              | _, _ => Broken
              end
            else Found key
        end
    | _ => Broken
    end.

Section transparent.
Context {K : Type} `{KVSpace K}.
Implicit Types (h : Handle K).

(** Every cached value is the one in the space. *)
Definition coherent h : Prop := ∀ key b,
  read_cache h !! key = Some b → ks_get_raw (kv h) key = Ok b.2 ∧ b.2 ≠ [].

(** A read of [key] that found [raw] leaves a coherent handle over the same space. *)
Definition read_ok h h' key raw : Prop :=
  coherent h' ∧ rings_ok h' ∧ kv h' = kv h ∧
  snd <$> cached_slice h' key = if decide (raw = []) then None else Some raw.

Lemma coherent_same_cache h h' :
  coherent h → kv h' = kv h → (∀ key b, read_cache h' !! key = Some b → read_cache h !! key = Some b) →
  coherent h'.
Proof. intros Hc Hk Hr key b Hb. rewrite Hk. by apply Hc, Hr. Qed.

Lemma fetch_coherent key raw h :
  coherent h → rings_ok h → ks_get_raw (kv h) key = Ok raw →
  ∃ h', fetch_raw_one key h = (Ok (negb (bool_decide (raw = []))), h') ∧ read_ok h h' key raw.
Proof.
  intros Hc Hr Hraw.
  destruct (is_volatile key) eqn:Hv.
  - destruct (fetch_fresh key raw h Hr) as (h' & Hf & Hkv & Hs); [by left|done|].
    exists h'. split; [done|]. pose proof (keeps_rings_fetch key h Hr) as Hr'. rewrite Hf in Hr'.
    split_and!; [|done..]. apply (coherent_same_cache h h' Hc Hkv). intros k b.
    revert Hf. unfold fetch_raw_one. rewrite Hv, stm_bind_eq. unfold volatile_refresh.
    rewrite stm_bind_eq. unfold catch_read. rewrite Hraw, stm_bind_eq.
    destruct (volatile_store_spec key raw h Hr) as (d & vb & Hd & _ & Hrc & _).
    destruct (volatile_store key raw h) as [r h1]. simpl in Hd, Hrc. subst r.
    destruct d as [dir|]; intros [= _ <-]; simpl; rewrite Hrc; [|done].
    by intros [Hb _]%map_lookup_filter_Some.
  - rewrite fetch_plain by done. destruct (read_cache h !! key) as [b|] eqn:E.
    + destruct (Hc key b E) as [Hb Hne]. rewrite Hraw in Hb. injection Hb as ->.
      exists h. rewrite bool_decide_false by done. split; [done|].
      split_and!; [done..|]. unfold cached_slice. rewrite Hv, E, decide_False by done. done.
    + rewrite Hraw. destruct raw as [|c raw].
      * exists h. split; [done|]. split_and!; [done..|]. unfold cached_slice. by rewrite Hv, E.
      * eexists. split; [reflexivity|]. split_and!; [|done|done|].
        -- intros k b Hb. simpl in Hb. destruct (decide (key = k)) as [<-|Hne].
           ++ rewrite lookup_insert_eq in Hb. injection Hb as <-. done.
           ++ rewrite lookup_insert_ne in Hb by done. by apply Hc.
        -- unfold cached_slice. rewrite Hv. simpl. by rewrite lookup_insert_eq.
Qed.

Lemma fetch_fails key h :
  coherent h → (∀ raw, ks_get_raw (kv h) key ≠ Ok raw) → ∃ e h', fetch_raw_one key h = (Err e, h').
Proof.
  intros Hc Hno. destruct (is_volatile key) eqn:Hv.
  - unfold fetch_raw_one. rewrite Hv, stm_bind_eq. unfold volatile_refresh. rewrite stm_bind_eq.
    unfold catch_read. destruct (ks_get_raw (kv h) key) as [raw|e|e]; [by destruct (Hno raw)|by eauto..].
  - rewrite fetch_plain by done. destruct (read_cache h !! key) as [b|] eqn:E.
    { destruct (Hc key b E) as [Hb _]. by destruct (Hno b.2). }
    destruct (ks_get_raw (kv h) key) as [raw|e|e]; [by destruct (Hno raw)|by eauto..].
Qed.

(** What one hop of the pointer loop makes of the value in the space. *)
Definition hop_agrees h key (last_hop : bool) (r : res fferr (option (option str)) * Handle K) : Prop :=
  match ks_get_raw (kv h) key with
  | Ok [] => ∃ h', r = (Ok None, h') ∧ read_ok h h' key []
  | Ok raw =>
      match HeadLenPow.from_wire raw with
      | None => ∃ e h', r = (Err e, h')
      | Some w =>
          if bool_decide (h_reference w = RefPointer) then
            match last_hop, from_utf8 (h_body w) with
            | false, Some t => ∃ h', r = (Ok (Some (Some t)), h') ∧ read_ok h h' key raw
            | _, _ => ∃ e h', r = (Err e, h')
            end
          else ∃ h', r = (Ok (Some None), h') ∧ read_ok h h' key raw
      end
  | _ => ∃ e h', r = (Err e, h')
  end.

Lemma hop_spec key last_hop h :
  coherent h → rings_ok h → key ≠ [] → hop_agrees h key last_hop (hop_target key last_hop h).
Proof.
  intros Hc Hr Hne. unfold hop_agrees, hop_target. rewrite decide_False by done. rewrite stm_bind_eq.
  destruct (ks_get_raw (kv h) key) as [raw|e|e] eqn:Hraw.
  2,3: destruct (fetch_fails key h Hc ltac:(by rewrite Hraw)) as (e' & h' & ->); by eauto.
  destruct (fetch_coherent key raw h Hc Hr Hraw) as (h' & -> & Hok).
  destruct raw as [|c raw]; [by exists h'|]. rewrite bool_decide_false by done. cbn [negb].
  destruct Hok as (H1 & H2 & H3 & Hs). rewrite decide_False in Hs by done.
  rewrite bind_gets, stm_bind_eq. destruct (cached_slice h' key) as [[id' v]|] eqn:Eb; [|done].
  simpl in Hs. injection Hs as ->. cbn [lift ok_or snd]. rewrite stm_bind_eq.
  destruct (HeadLenPow.from_wire (c :: raw)) as [w|]; cbn [lift ok_or]; [|by eauto].
  assert (Hok : read_ok h h' key (c :: raw)).
  { split_and!; try done. by rewrite Eb. }
  destruct (bool_decide (h_reference w = RefPointer)); cbn [negb]; [|by eauto].
  rewrite bind_err_if. destruct last_hop; [by eauto|]. rewrite stm_bind_eq.
  destruct (from_utf8 (h_body w)) as [t|]; cbn [lift ok_or]; by eauto.
Qed.

(** What the pointer loop makes of each outcome of the uncached one. *)
Definition agrees h (r : res fferr (option str) * Handle K) (d : deref_result) : Prop :=
  match d with
  | Found key => ∃ h' raw, r = (Ok (Some key), h') ∧ ks_get_raw (kv h) key = Ok raw ∧ raw ≠ [] ∧
                   read_ok h h' key raw
  | Missing => ∃ h', r = (Ok None, h') ∧ coherent h' ∧ rings_ok h' ∧ kv h' = kv h
  | Broken => ∃ e h', r = (Err e, h')
  end.

Lemma resolve_hops_agrees n key h :
  coherent h → rings_ok h → agrees h (resolve_hops n key h) (deref (kv h) n key).
Proof.
  revert key h. induction n as [|n IH]; intros key h Hc Hr; cbn [resolve_hops deref];
    rewrite stm_bind_eq;
    (destruct (decide (key = [])) as [->|Hne]; [by exists h|]);
    pose proof (λ b, hop_spec key b h Hc Hr Hne) as Hh; unfold hop_agrees in Hh;
    [specialize (Hh true)|specialize (Hh false)]; cbn [Nat.eqb];
    (destruct (ks_get_raw (kv h) key) as [[|c raw]|e|e] eqn:Hraw;
      [destruct Hh as (h' & -> & H1 & H2 & H3 & _); by exists h'
      |
      |destruct Hh as (e' & h' & ->); by exists e', h'..]);
    (destruct (HeadLenPow.from_wire (c :: raw)) as [w|]; [|destruct Hh as (e' & h' & ->); by exists e', h']);
    (destruct (bool_decide (h_reference w = RefPointer));
      [|destruct Hh as (h' & -> & Hok); by exists h', (c :: raw)]).
  - destruct Hh as (e' & h' & ->). by exists e', h'.
  - destruct (from_utf8 (h_body w)) as [t|]; [|destruct Hh as (e' & h' & ->); by exists e', h'].
    destruct Hh as (h1 & -> & H1 & H2 & H3 & _). pose proof (IH t h1 H1 H2) as Ha. rewrite H3 in Ha.
    destruct (deref (kv h) n t) as [k| |]; cbn [agrees] in *; [|by rewrite H3 in Ha|done].
    destruct Ha as (h2 & raw2 & -> & Hraw2 & Hne2 & Hc2 & Hr2 & Hk2 & Hs2). rewrite H3 in *.
    by exists h2, raw2.
Qed.

(** The uncached read. *)
Definition plain_get (k : K) key (resolve : bool) : deref_result :=
  if resolve then deref k MAX_PTR_HOPS key
  else match ks_get_raw k key with Ok [] => Missing | Ok _ => Found key | _ => Broken end.

Lemma resolve_agrees key resolve h :
  coherent h → rings_ok h →
  agrees h (resolve_cached_key key resolve h) (plain_get (kv h) key resolve).
Proof.
  intros Hc Hr. unfold resolve_cached_key, plain_get. destruct resolve; cbn [negb];
    [by apply resolve_hops_agrees|].
  rewrite stm_bind_eq. destruct (ks_get_raw (kv h) key) as [raw|e|e] eqn:Hraw.
  2,3: destruct (fetch_fails key h Hc ltac:(by rewrite Hraw)) as (e' & h' & ->); by exists e', h'.
  destruct (fetch_coherent key raw h Hc Hr Hraw) as (h' & -> & Hok).
  destruct raw as [|c raw]; [destruct Hok as (H1 & H2 & H3 & _); by exists h'|].
  rewrite bool_decide_false by done. by exists h', (c :: raw).
Qed.

(** ** Traversals *)

(** [ListAt] for every index from [i] on; before each call another process may have changed the
    space. *)
Fixpoint list_from (envs : list (K → K)) prefix (expand_ext resolve : bool) (i : Z) h : list (res fferr str) :=
  match envs with
  | [] => []
  | f :: envs =>
      let '(x, h) := kvspaceListAt prefix expand_ext resolve i false U32_MAX (set_kv (f (kv h)) h) in
      x :: list_from envs prefix expand_ext resolve (i + 1) h
  end.

(** The snapshot a traversal works on, with the index last yielded. *)
Definition snapshot prefix (expand_ext resolve : bool) (names : list str) (cursor : Z) h : Prop :=
  list_cache h = Some (mkListCache prefix expand_ext resolve names cursor) ∧ pending_key h = None.

Lemma flush_none h : pending_key h = None → flush h = (Ok tt, h).
Proof. intros Hp. unfold flush. rewrite bind_gets. by rewrite Hp. Qed.

Lemma list_at_snapshot prefix e r names (i : nat) name cursor h :
  snapshot prefix e r names cursor h → validate_dir prefix = Ok tt → cursor < Z.of_nat i →
  names !! i = Some name →
  ∃ h', kvspaceListAt prefix e r (Z.of_nat i) false U32_MAX h = (Ok name, h') ∧
    snapshot prefix e r names (Z.of_nat i) h'.
Proof.
  intros [Hl Hp] Hv Hlt Hn. unfold kvspaceListAt. rewrite bind_err_if.
  destruct (Z.ltb_spec (Z.of_nat i) 0); [lia|]. rewrite stm_bind_eq. unfold flush_quiet.
  rewrite flush_none by done. rewrite Hv, stm_bind_eq. cbn [lift]. rewrite stm_bind_eq.
  unfold list_names. rewrite bind_gets, Hl. cbv zeta. cbn [lc_prefix lc_expand_ext lc_resolve lc_cursor].
  rewrite bool_decide_true, !eqb_reflx by done.
  destruct (Z.ltb_spec cursor (Z.of_nat i)); [|lia]. cbn [andb].
  change ((mret tt;; cached_names (Some (Z.of_nat i))) h) with (cached_names (K:=K) (Some (Z.of_nat i)) h).
  unfold cached_names. rewrite Hl. cbn [lc_prefix lc_expand_ext lc_resolve lc_names from_option id].
  rewrite stm_bind_eq, Nat2Z.id, Hn. cbn [lift ok_or].
  rewrite bind_err_if. cbn [orb].
  pose proof (in_u_wrap_u 32 (Z.of_nat (length name)) ltac:(lia)) as [_ Hw].
  assert (U32_MAX = 2 ^ 32 - 1) as HU by reflexivity.
  destruct (Z.ltb_spec U32_MAX (wrap_u 32 (Z.of_nat (length name)))); [lia|].
  eexists. split; [reflexivity|]. done.
Qed.

Lemma list_from_snapshot prefix e r names envs (i : nat) cursor h :
  snapshot prefix e r names cursor h → validate_dir prefix = Ok tt → cursor < Z.of_nat i →
  (i + length envs = length names)%nat →
  list_from envs prefix e r (Z.of_nat i) h = Ok <$> drop i names.
Proof.
  revert i cursor h. induction envs as [|f envs IH]; intros i cursor h Hs Hv Hlt Hlen.
  - simpl in *. by rewrite drop_ge by lia.
  - cbn [list_from length] in *.
    destruct (lookup_lt_is_Some_2 names i ltac:(lia)) as [name Hn].
    destruct (list_at_snapshot prefix e r names i name cursor (set_kv (f (kv h)) h)) as (h' & -> & Hs');
      [done..|].
    replace (Z.of_nat i + 1) with (Z.of_nat (S i)) by lia.
    rewrite (IH (S i) (Z.of_nat i) h' Hs' Hv) by lia.
    by rewrite (drop_S _ _ _ Hn).
Qed.

Lemma list_len_snapshot prefix e r n h h1 :
  kvspaceListLen prefix e r h = (Ok n, h1) →
  ∃ names, ks_list (kv h1) prefix e r = Ok names ∧ n = wrap_s 32 (Z.of_nat (length names)) ∧
    snapshot prefix e r names (-1) h1 ∧ validate_dir prefix = Ok tt.
Proof.
  unfold kvspaceListLen. rewrite stm_bind_eq. unfold flush_quiet.
  pose proof (flush_pending h) as Hp. destruct (flush h) as [[[]|e'|e'] h2]; try done. simpl in Hp.
  rewrite stm_bind_eq. destruct (validate_dir prefix) as [[]|e'|e'] eqn:Hv; try done. cbn [lift].
  rewrite stm_bind_eq. unfold list_names. rewrite bind_gets. cbv zeta. rewrite stm_bind_eq, bind_modify.
  rewrite stm_bind_eq. unfold catch_read. simpl kv.
  destruct (ks_list (kv h2) prefix e r) as [names|e'|e'] eqn:El; try done.
  intros [= <- <-]. exists names. done.
Qed.
End transparent.

(** ** Writes filled in by their owner *)

(** The head [build_xvalue_head] prepares: zeroed, with [n] as its effective length whatever the
    body becomes. *)
Record prepared (n cap : Z) (hd : Head) : Prop := {
  prep_wf : wf_head hd;
  prep_cap : h_len hd = cap;
  prep_zero : h_body hd = replicate (Z.to_nat cap) Byte.x00;
  prep_len b : length b = length (h_body hd) → effective_len (encode_head (with_body hd b)) = Some n;
}.

Lemma effective_len_with_body hd b e :
  wf_head hd → length b = length (h_body hd) →
  (h_layout hd = LAYOUT_LENGTH ∧ e = h_len hd ∨
   h_layout hd = LAYOUT_CAPACITY ∧ scan_reallen (h_attrs hd) = Some (true, e)) →
  effective_len (encode_head (with_body hd b)) = Some e.
Proof.
  intros Hwf Hb He. pose proof (wf_with_body hd b Hwf Hb) as Hwf'.
  rewrite <-(app_nil_r (encode_head _)). unfold effective_len, reallen_from_wire.
  rewrite from_wire_encode by done. cbn [mbind option_bind with_body h_layout h_attrs h_len].
  destruct He as [[-> ->]|[-> ->]]; done.
Qed.

Lemma build_head_Some ref n cap lt xv :
  0 <= n → build_xvalue_head ref n cap lt = Some xv →
  n <= cap ∧ ∃ hd, xv = encode_head hd ∧ prepared n cap hd.
Proof.
  intros Hn. unfold build_xvalue_head. destruct (Z.ltb_spec cap n); [done|].
  destruct (if ref =? 0 then _ else _) as [prefixed|]; [|done]. cbn [mbind option_bind].
  intros Hx. split; [done|]. revert Hx.
  assert (Hl : Z.of_nat (length (replicate (Z.to_nat cap) Byte.x00)) = cap) by (rewrite length_replicate; lia).
  destruct (Z.ltb_spec n cap) as [Hlt|Hge].
  - intros (a & Ha & Hle & Hf & ->)%to_wire_varlen_Some; [|lia].
    eexists. split; [reflexivity|].
    assert (Hwf : wf_head (capacity_head (replicate (Z.to_nat cap) Byte.x00) prefixed a n)).
    { apply wf_capacity_head; by rewrite ?Hl. }
    split; [done|exact Hl|done|]. intros b Hb. apply effective_len_with_body; [done..|]. right.
    split; [done|]. simpl. apply (scan_attr_reallen prefixed); [done|].
    unfold fits, PREFIX, ISIZE_MAX, in_u in *. lia.
  - assert (cap = n) as -> by lia. rewrite reserve_eq by done.
    destruct (attr_bytes prefixed) as [a|] eqn:Ha; [|done]. cbn [mbind option_bind].
    case_decide as Hf; [|done]. intros [= <-].
    exists (length_head (replicate (Z.to_nat n) Byte.x00) prefixed a).
    assert (Hwf : wf_head (length_head (replicate (Z.to_nat n) Byte.x00) prefixed a)).
    { apply wf_length_head; by rewrite ?Hl. }
    split; [unfold encode_head; simpl; by rewrite Hl|].
    split; [done|exact Hl|done|]. intros b Hb. apply effective_len_with_body; [done..|]. left.
    split; [done|]. simpl. by rewrite Hl.
Qed.

Lemma encode_head_ne hd : encode_head hd ≠ [].
Proof.
  intros E%(f_equal length). unfold encode_head in E. rewrite length_app, length_header in E. simpl in E. lia.
Qed.

Lemma encode_splice hd buf :
  wf_head hd → Z.of_nat (length buf) <= h_len hd →
  splice (Z.to_nat PREFIX) buf (encode_head hd) = encode_head (with_body hd (splice 0 buf (h_body hd))).
Proof.
  intros Hwf Hle.
  assert (Hf : HeadLenPow.from_wire (encode_head hd) = Some hd).
  { rewrite <-(app_nil_r (encode_head hd)). by apply from_wire_encode. }
  pose proof (from_wire_splice (encode_head hd) hd PREFIX buf Hf ltac:(lia) ltac:(lia)) as Hs.
  rewrite Z.sub_diag in Hs. change (Z.to_nat 0) with 0%nat in Hs.
  apply from_wire_spec in Hs as (Hwf' & extra & E).
  assert (extra = []) as ->; [|by rewrite app_nil_r in E].
  apply (f_equal length) in E. rewrite length_app in E.
  pose proof (wf_len hd Hwf) as Hl. unfold PREFIX in *. change (Z.to_nat 16) with 16%nat in *.
  assert (Hlen : ∀ x, length (encode_head x) = (16 + length (h_body x) + length (h_attrs x))%nat).
  { intros x. unfold encode_head. rewrite !length_app, length_header. lia. }
  rewrite length_splice in E by (rewrite Hlen; lia). rewrite !Hlen in E. simpl in E.
  rewrite length_splice in E by lia. apply length_zero_iff_nil. lia.
Qed.

Section lazy.
Context `{KVLaws St}.
Implicit Types (h : Handle St).

Lemma write_new_pending key ref n cap lt h v h1 :
  pending_key h = None → kvspaceWriteNewPlace key ref n cap lt h = (Ok v, h1) →
  ∃ xv, build_xvalue_head ref n cap lt = Some xv ∧ pending_key h1 = Some key ∧ (write_buf h1).2 = xv ∧
    kv h1 = kv h.
Proof.
  intros Hp. unfold kvspaceWriteNewPlace. rewrite stm_bind_eq, flush_none by done.
  rewrite stm_bind_eq. unfold try_usize. destruct (Z.leb_spec cap USIZE_MAX); [|done]. cbn [lift ok_or].
  rewrite stm_bind_eq. destruct (build_xvalue_head ref n cap lt) as [xv|]; [|done]. cbn [lift ok_or].
  rewrite bind_modify, stm_bind_eq. unfold alloc_buf. rewrite bind_modify. intros [= _ <-].
  by exists xv.
Qed.

(** The next flush is one [set] of what is in the write buffer. *)
Lemma flush_set key xv h h2 :
  pending_key h = Some key → (write_buf h).2 = xv → flush h = (Ok tt, h2) →
  Backend.set [mkPair key (XValue.from_wire xv) (Some xv)] (kv h) = (Ok tt, kv h2) ∧ fresh key h2.
Proof.
  intros Hp <-. unfold flush. rewrite bind_gets, Hp, stm_bind_eq.
  unfold take_pending, store_pending, and_cleanup, catch. cbv zeta. cbn [kv set_list_cache set_pending].
  change (ks_set ?l ?s) with (Backend.set l s).
  destruct (Backend.set _ (kv h)) as [[[]|e|e] k]; try done.
  intros [= <-]. split; [done|]. right. simpl. apply lookup_delete_eq.
Qed.

(** A value completed by its owner, when it is stored. *)
Lemma lazy_write key dir last ref n cap lt buf v h h1 h2 :
  canonical_key key → parent_dir key = (dir, last) → link_free (kv h) dir → rings_ok h →
  pending_key h = None → 0 <= n → Z.of_nat (length buf) = n →
  kvspaceWriteNewPlace key ref n cap lt h = (Ok v, h1) →
  flush (fill PREFIX buf h1) = (Ok tt, h2) →
  ∃ hd vw h3, build_xvalue_head ref n cap lt = Some (encode_head hd) ∧ n <= cap ∧ prepared n cap hd ∧
    kvspaceGet key false (fill PREFIX buf h1) = (Ok (Some vw), h3) ∧
    v_bytes vw = encode_head (with_body hd (splice 0 buf (h_body hd))) ∧
    kv_get (kv h2) key = Some (v_bytes vw).
Proof.
  intros Hck Hpd Hlf Hr Hp Hn Hlen Hw Hfl.
  destruct (write_new_pending key ref n cap lt h v h1 Hp Hw) as (xv & Hb & Hp1 & Hwb & Hkv).
  destruct (build_head_Some ref n cap lt xv Hn Hb) as (Hle & hd & -> & Hprep).
  destruct (Hprep) as [Hwf Hcap _ _]. pose proof (wf_len hd Hwf) as Hl.
  assert (Hpf : pending_key (fill PREFIX buf h1) = Some key) by (unfold fill; by rewrite Hp1).
  assert (Hwf1 : (write_buf (fill PREFIX buf h1)).2 = splice (Z.to_nat PREFIX) buf (encode_head hd)).
  { unfold fill. rewrite Hp1. simpl. by rewrite Hwb. }
  assert (Hkv1 : kv (fill PREFIX buf h1) = kv h) by (unfold fill; by rewrite Hp1, <-Hkv).
  destruct (flush_set key _ _ h2 Hpf Hwf1 Hfl) as [Hset Hfr]. rewrite Hkv1 in Hset.
  destruct (set_pair_raw _ _ key dir last _ _ Hck Hpd Hlf Hset) as (h' & Hf & Hget & _ & _ & Hraw).
  unfold pair_wire in Hf. cbn [pr_raw pr_val from_option id] in Hf.
  rewrite (encode_splice hd buf Hwf) in Hf by lia.
  assert (Hwf' : wf_head (with_body hd (splice 0 buf (h_body hd)))).
  { apply wf_with_body; [done|]. apply length_splice. lia. }
  rewrite <-(app_nil_r (encode_head _)), from_wire_encode in Hf by done. injection Hf as <-.
  assert (Hr2 : rings_ok h2).
  { eapply rings_flush; [|done]. apply (rings_op (OFill PREFIX buf)).
    pose proof (rings_op (OWriteNewPlace key ref n cap lt) h Hr) as Hro.
    unfold run_op in Hro. cbn [run code snd] in Hro. by rewrite Hw in Hro. }
  destruct (get_fresh key _ (fill PREFIX buf h1) h2 Hfl Hr2 Hfr (f_equal Ok Hraw)) as (vo & h3 & Hg & _ & Hv).
  rewrite decide_False in Hv by apply encode_head_ne.
  destruct vo as [vw|]; [|done]. injection Hv as Hv.
  exists hd, vw, h3. by rewrite Hv.
Qed.
End lazy.

(** ** Properties *)

(** C23. The cache is transparent: on a handle whose cached values are those of the space, [Get]
    returns exactly what a read without any cache returns, following up to sixteen pointers and
    failing on a longer chain, a cycle, a malformed value or an unreadable target; it changes
    nothing in the space and leaves the handle coherent. *)
Theorem cached_get_transparent `{KVSpace K} key (resolve : bool) (h h1 : Handle K) :
  flush h = (Ok tt, h1) → coherent h1 → rings_ok h1 →
  match plain_get (kv h1) key resolve with
  | Found k => ∃ v h2, kvspaceGet key resolve h = (Ok (Some v), h2) ∧
      ks_get_raw (kv h1) k = Ok (v_bytes v) ∧ coherent h2 ∧ kv h2 = kv h1
  | Missing => ∃ h2, kvspaceGet key resolve h = (Ok None, h2) ∧ coherent h2 ∧ kv h2 = kv h1
  | Broken => ∃ e h2, kvspaceGet key resolve h = (Err e, h2)
  end.
Proof.
  intros Hf Hc Hr. pose proof (resolve_agrees key resolve h1 Hc Hr) as Ha.
  unfold kvspaceGet, flush_quiet. rewrite stm_bind_eq, Hf, stm_bind_eq.
  destruct (plain_get (kv h1) key resolve) as [k| |]; cbn [agrees] in Ha.
  - destruct Ha as (h2 & raw & -> & Hraw & Hne & H1 & _ & H3 & Hs). rewrite decide_False in Hs by done.
    unfold gets. destruct (cached_slice h2 k) as [[id' v]|] eqn:E; [|done]. injection Hs as <-.
    by eexists _, _.
  - destruct Ha as (h2 & -> & H1 & _ & H3). by exists h2.
  - destruct Ha as (e & h2 & ->). by exists e, h2.
Qed.

(** C24. A traversal sees one listing: after [ListLen] has returned [n], calling [ListAt] for 0,
    1, .. yields the names of the listing [ListLen] counted, in order and without repetition or
    gap, whatever other processes write to the space between the calls. *)
Theorem traversal_stable `{KVSpace K} prefix (expand_ext resolve : bool) n (h h1 : Handle K) :
  kvspaceListLen prefix expand_ext resolve h = (Ok n, h1) →
  ∃ names, ks_list (kv h1) prefix expand_ext resolve = Ok names ∧ n = wrap_s 32 (Z.of_nat (length names)) ∧
    ∀ envs : list (K → K), length envs = length names →
      list_from envs prefix expand_ext resolve 0 h1 = Ok <$> names.
Proof.
  intros (names & Hl & Hn & Hs & Hv)%list_len_snapshot. exists names. split_and!; [done..|].
  intros envs Hlen. change 0 with (Z.of_nat 0).
  rewrite (list_from_snapshot prefix expand_ext resolve names envs 0 (-1)) by (done || lia). done.
Qed.

(** A value of capacity [cap] that declares [n] bytes, [buf], and is zero after them. *)
Definition filled (n cap : Z) (buf : bytes) (hd : Head) : Prop :=
  HeadLenPow.from_wire (encode_head hd) = Some hd ∧ h_len hd = cap ∧
  h_body hd = buf ++ replicate (Z.to_nat (cap - n)) Byte.x00 ∧
  effective_len (encode_head hd) = Some n.

(** C25. Writing in place of a new value is writing it: what [WriteNewPlace] prepared and the
    owner filled in is stored by the next call, and a [Get] returns it at once: a well-formed
    value with the declared capacity, the bytes the owner wrote first and zeros after them, and
    the declared length, not the capacity, as its effective length. *)
Theorem lazy_write_reads_back `{KVLaws St} key dir last ref n cap lt buf v (h h1 h2 : Handle St) :
  canonical_key key → parent_dir key = (dir, last) → link_free (kv h) dir → rings_ok h →
  pending_key h = None → 0 <= n → Z.of_nat (length buf) = n →
  kvspaceWriteNewPlace key ref n cap lt h = (Ok v, h1) →
  flush (fill PREFIX buf h1) = (Ok tt, h2) →
  ∃ hd vw h3, kvspaceGet key false (fill PREFIX buf h1) = (Ok (Some vw), h3) ∧
    v_bytes vw = encode_head hd ∧ kv_get (kv h2) key = Some (encode_head hd) ∧ filled n cap buf hd.
Proof.
  intros Hck Hpd Hlf Hr Hp Hn Hlen Hw Hfl.
  destruct (lazy_write key dir last ref n cap lt buf v h h1 h2 Hck Hpd Hlf Hr Hp Hn Hlen Hw Hfl)
    as (hd & vw & h3 & _ & Hle & [Hwf Hcap Hz Heff] & Hg & Hv & Hk).
  pose proof (wf_len hd Hwf) as Hl.
  assert (Hlen' : length (splice 0 buf (h_body hd)) = length (h_body hd)) by (apply length_splice; lia).
  exists (with_body hd (splice 0 buf (h_body hd))), vw, h3. unfold filled. rewrite <-Hv at 2. split_and!; try done.
  - rewrite <-(app_nil_r (encode_head _)). by apply from_wire_encode, wf_with_body.
  - simpl. rewrite Hz. unfold splice. simpl. by rewrite drop_replicate, <-Hlen, Z2Nat.inj_sub, Nat2Z.id by lia.
  - by apply Heff.
Qed.

(** ** Witnesses *)

(** A space with a value and a pointer to it. *)
Definition pointer_store : mem :=
  snd (Backend.set [mkPair "/p"%rs (XPtr (mkPtr "int64"%rs "/k"%rs)) None] sample_store).

Lemma cached_get_transparent_witness :
  ∃ v h2, kvspaceGet "/p"%rs true (new_handle pointer_store) = (Ok (Some v), h2) ∧
    v_bytes v = int64_wire 7.
Proof.
  pose proof (cached_get_transparent "/p"%rs true (new_handle pointer_store) (new_handle pointer_store)
    eq_refl ltac:(intros k b Hb; discriminate Hb) ltac:(apply map_Forall_empty)) as Ht.
  assert (Hd : plain_get pointer_store "/p"%rs true = Found "/k"%rs) by (vm_compute; reflexivity).
  assert (Hk : ks_get_raw pointer_store "/k"%rs = Ok (int64_wire 7)) by (vm_compute; reflexivity).
  cbn [kv new_handle] in Ht. rewrite Hd in Ht. destruct Ht as (v & h2 & Hg & Hv & _).
  exists v, h2. split; [exact Hg|]. rewrite Hk in Hv. by injection Hv as ->.
Defined.

Lemma traversal_stable_witness :
  ∃ h1, kvspaceListLen "/"%rs true false (new_handle pointer_store) = (Ok 2, h1) ∧
    list_from [kv_set "/z"%rs (int64_wire 1); kv_del ["/k"%rs]] "/"%rs true false 0 h1 = [Ok "k"%rs; Ok "p"%rs].
Proof.
  exists (snd (kvspaceListLen "/"%rs true false (new_handle pointer_store))).
  assert (Hl : kvspaceListLen "/"%rs true false (new_handle pointer_store) =
    (Ok 2, snd (kvspaceListLen "/"%rs true false (new_handle pointer_store)))).
  { apply pair_of_fst. vm_compute. reflexivity. }
  split; [exact Hl|].
  destruct (traversal_stable "/"%rs true false 2 _ _ Hl) as (names & Hn & _ & Ht).
  vm_compute in Hn. injection Hn as <-. by apply Ht.
Defined.

Lemma lazy_write_reads_back_witness :
  let h1 := snd (kvspaceWriteNewPlace "/x"%rs 0 3 8 "char/utf8"%rs (new_handle sample_store)) in
  ∃ hd vw h3, kvspaceGet "/x"%rs false (fill PREFIX "abc"%rs h1) = (Ok (Some vw), h3) ∧
    v_bytes vw = encode_head hd ∧ filled 3 8 "abc"%rs hd.
Proof.
  cbv zeta. set (h := new_handle sample_store).
  destruct (lazy_write_reads_back "/x"%rs "/"%rs "x"%rs 0 3 8 "char/utf8"%rs "abc"%rs
    (mkView 1 16 (drop 16 (default [] (build_xvalue_head 0 3 8 "char/utf8"%rs))))
    h (snd (kvspaceWriteNewPlace "/x"%rs 0 3 8 "char/utf8"%rs h))
    (snd (flush (fill PREFIX "abc"%rs (snd (kvspaceWriteNewPlace "/x"%rs 0 3 8 "char/utf8"%rs h))))))
    as (hd & vw & h3 & Hg & Hv & _ & He).
  - constructor; vm_compute; reflexivity.
  - vm_compute. reflexivity.
  - repeat constructor.
  - apply map_Forall_empty.
  - reflexivity.
  - lia.
  - reflexivity.
  - apply pair_of_fst. vm_compute. reflexivity.
  - apply pair_of_fst. vm_compute. reflexivity.
  - by exists hd, vw, h3.
Defined.
