(* ===== verification/FfiAbi.v ===== *)
(** * The exported functions as C sees them: [src/src/ffi.rs]

    The shell around the calls of [Ffi]: null handles, null and written out-parameters, the error
    buffer and the return code; the constructors with their out-pointers; the calls for a mapped
    store, which this library does not have.  A handle pointer is an [option]; an out-parameter is
    what its memory holds before and after the call; the memory behind [err] is the caller's from
    there on, of which [err_cap] bytes may be written.  What a null pointer to a required
    out-parameter does is undefined and left out. *)

From S2P Require Import Prelude RustInt RustStr RustText HeadLenPow KPath XValue Store Backend KVSpace Ffi.
Local Open Scope Z_scope.
Implicit Types (msg : str).

(** ** Error text *)

Record errbuf := mkErrbuf { eb_mem : option bytes; eb_cap : Z }.

Definition write_err_to (err : errbuf) msg : errbuf :=
  match eb_mem err, write_err (eb_cap err) msg with
  | Some mem, Some w => mkErrbuf (Some (w ++ drop (length w) mem)) (eb_cap err)
  | _, _ => err
  end.

(** What a panic carries: a literal, a formatted message, or anything else. *)
Inductive payload := PayloadStr (s : str) | PayloadString (s : str) | PayloadOther.

Definition panic_msg (p : payload) : str :=
  match p with
  | PayloadStr s => s
  | PayloadString s => s
  | PayloadOther => "kvspace: panic across C ABI boundary"%rs
  end.

Definition set_value_text (e : fferr) : option str :=
  match e with
  | FInvalidSetValueInput => Some "invalid SetValue input"%rs
  | FInvalidXValue => Some "invalid XValue"%rs
  | FSetValuePanic => Some "SetValue backend panic"%rs
  | _ => None
  end.

Definition set_part_text (e : fferr) : option str :=
  match e with
  | FInvalidSetPartBuffer => Some "invalid SetPart buffer"%rs
  | FSetPartMissing key => Some ("set_part: missing key "%rs ++ key)
  | FSetPartPtr key => Some ("set_part: ptr resolve failed at "%rs ++ key)
  | _ => None
  end.

Definition in_place_text (e : fferr) : option str :=
  match e with
  | FNullBody => Some "kvspace: null body out-pointer"%rs
  | FInPlaceMissing => Some "kvspace: write-in-place on missing key"%rs
  | FInPlacePtr => Some "kvspace: write-in-place ptr resolve failed"%rs
  | FInPlaceLength => Some "kvspace: write-in-place body_len mismatch"%rs
  | _ => None
  end.

Definition new_place_text (e : fferr) : option str :=
  match e with
  | FCapacity => Some "capacity exceeds platform size"%rs
  | FGeometry => Some "invalid XValue geometry"%rs
  | _ => None
  end.

Definition null_handle_text : str := "kvspace: null handle"%rs.

(** ** The value constructors *)

(** [alloc]: the buffer, now the caller's, and its length as [u32]. *)
Definition alloc (v : bytes) : bytes * Z := (v, wrap_u 32 (Z.of_nat (length v))).

(** [emit] with its out-pointers; nothing is written when the code is 1. *)
Definition emit_to (wire : option bytes) (out_null out_len_null : bool) : Z * option (bytes * Z) :=
  if out_null || out_len_null then (1, None)
  else match emit wire with Some w => (0, Some (alloc w)) | None => (1, None) end.

(** ** The calls for a mapped store *)

Record KvspaceXvalueBodyView := mkBodyView {
  bv_head : option view;
  bv_headlen : Z;
  bv_body : option view;
  bv_body_cap : Z;
  bv_cap : Z;
}.

Record KvspaceViewToken := mkToken {
  tk_head : option view;
  tk_body : option view;
  tk_headlen : Z;
  tk_value_len : Z;
  tk_cap : Z;
  tk_body_cap : Z;
  tk_struct_gen : Z;
  tk_value_gen : Z;
  tk_store_id : Z;
  tk_node_id : Z;
  tk_pad : Z;
}.

Inductive view_call :=
  | XvalueBodyView (r key : option bytes) (out : option KvspaceXvalueBodyView)
  | ViewSweep
  | ViewResolvePrefix (path ref : option bytes)
  | ViewResolve (key : option bytes) (tok : option KvspaceViewToken)
  | ViewFromRef (r key : option bytes) (tok : option KvspaceViewToken)
  | ViewResolveFrom (parent rel : option bytes) (tok : option KvspaceViewToken)
  | ViewCheck (tok : option KvspaceViewToken)
  | ViewWrite (tok : option KvspaceViewToken) (data : option bytes) (len : Z)
  | ViewDel (tok : option KvspaceViewToken) (key : option bytes)
  | ViewRefresh (tok : option KvspaceViewToken) (key : option bytes)
  | ViewAck (epoch : option Z)
  | ViewQuiesce (on : Z).

Definition kvspaceXvalueBodyView : Z := -2.
(** The eleven functions from [kvspaceViewSweep] to [kvspaceViewQuiesce]. *)
Definition kvspaceView (c : view_call) : Z :=
  match c with
  | XvalueBodyView _ _ _ => kvspaceXvalueBodyView
  | ViewSweep => -2
  | ViewResolvePrefix _ _ => -2
  | ViewResolve _ _ => -2
  | ViewFromRef _ _ _ => -2
  | ViewResolveFrom _ _ _ => -2
  | ViewCheck _ => -2
  | ViewWrite _ _ _ => -2
  | ViewDel _ _ => -2
  | ViewRefresh _ _ => -2
  | ViewAck _ => -2
  | ViewQuiesce _ => -2
  end.

(** ** Connecting *)

(** [conn] panics on a DSN it refuses; no panic leaves the call. *)
Definition kvspaceConnect {K E} (conn : str → res E K) (dsn : option bytes) : option (Handle K) :=
  match conn (cstr dsn) with Ok kv => Some (new_handle kv) | _ => None end.

(** [*out] and [*out_len]. *)
Abbreviation slice_out := (option view * Z)%type.

Section abi.
Context {K : Type} `{KVSpace K}.
Context (watch : str → XValue → Z → stm K kverr XValue).
(** The text of an error of the key-value space, and what a panic of it carries. *)
Context (text : kverr → str) (payload_of : kverr → payload).
Implicit Types (h : option (Handle K)) (err : errbuf).

Definition fferr_text (e : fferr) : option str :=
  match e with
  | FBackend e => Some (text e)
  | FPanic e => Some (panic_msg (payload_of e))
  | _ => set_value_text e ∪ set_part_text e ∪ in_place_text e ∪ new_place_text e
  end.

(** ** Leaving a call *)

(** The return code ([None]: a panic unwinds into the caller, which aborts the process), what the
    out-parameters hold, the error buffer and the handle. *)
Record exit (O : Type) := mkExit {
  e_code : option Z;
  e_out : O;
  e_err : errbuf;
  e_handle : option (Handle K);
}.
Arguments mkExit {O}.
Arguments e_code {O}.
Arguments e_out {O}.
Arguments e_err {O}.
Arguments e_handle {O}.

Definition result_to_code {A} (r : res fferr A) err : option Z * errbuf :=
  match r with
  | Ok _ => (Some 0, err)
  | Err e => (Some 1, default err (write_err_to err <$> fferr_text e))
  | Panic _ => (None, err)
  end.

(** The body of an exported function: the call, then the out-parameters. *)
Definition finish {A O} (m : stm (Handle K) fferr A) (put : res fferr A → O → O) (hd : Handle K)
    (out : O) err : exit O :=
  let '(r, hd) := m hd in
  let '(code, err) := result_to_code r err in
  mkExit code (put r out) err (Some hd).

(** [None => return 1] *)
Definition on_handle {O} (body : Handle K → O → errbuf → exit O) h (out : O) err : exit O :=
  match h with Some hd => body hd out err | None => mkExit (Some 1) out err None end.

(** The null handle of [kv_flush] is reported in the error buffer. *)
Definition structural (m : stm (Handle K) fferr unit) h (out : unit) err : exit unit :=
  match h with
  | Some hd => finish m (λ _ _, tt) hd out err
  | None => mkExit (Some 1) out (write_err_to err null_handle_text) None
  end.

(** A function without an error buffer. *)
Definition no_err : errbuf := mkErrbuf None 0.

(** ** Out-parameters *)

Definition put_slice (r : res fferr (option view)) (out : slice_out) : slice_out :=
  match r with
  | Ok (Some v) => (Some v, wrap_u 32 (Z.of_nat (length (v_bytes v))))
  | Ok None | Err _ => (None, 0)
  | Panic _ => out
  end.

(** A pointer written only on success. *)
Definition put_body (r : res fferr view) (out : option view) : option view :=
  match r with Ok v => Some v | _ => out end.

Definition put_count (r : res fferr Z) (out : Z) : Z :=
  match r with Ok n => n | Err _ => 0 | Panic _ => out end.

(** [*out_len] and the caller's name buffer. *)
Definition put_name (r : res fferr str) (out : Z * option bytes) : Z * option bytes :=
  match r with
  | Ok name => (wrap_u 32 (Z.of_nat (length name)), (λ mem, name ++ drop (length name) mem) <$> out.2)
  | Err (FNameLength len) => (len, out.2)
  | Err _ | Panic _ => (0, out.2)
  end.

(** ** The exported functions *)

Inductive abi_call : Type → Type :=
  | CGet (key : option bytes) (resolve : Z) : abi_call slice_out
  | CSetValue (key value : option bytes) : abi_call unit
  | CGetPart (key : option bytes) (offset len : Z) : abi_call slice_out
  | CSetPart (key : option bytes) (offset : Z) (buf : option bytes) (buf_len : Z) : abi_call unit
  | CGetHead (key : option bytes) : abi_call (option kvspaceHead_t)
  | CWriteInPlace (key : option bytes) (resolve body_len : Z) : abi_call (option (option view))
  | CWriteNewPlace (key : option bytes) (ref storetype body_len body_cap : Z) (langtype : option bytes) :
      abi_call (option view)
  | CListLen (prefix : option bytes) (expand_ext resolve : Z) : abi_call Z
  | CListAt (prefix : option bytes) (expand_ext resolve idx buf_cap : Z) : abi_call (Z * option bytes)
  | CDel (keys : list (option bytes)) : abi_call unit
  | CDelTree (prefix : option bytes) : abi_call unit
  | CCp (src dst : option bytes) : abi_call unit
  | CCpTree (src dst : option bytes) : abi_call unit
  | CCpList (src dst : option bytes) : abi_call unit
  | CMkindex (path : option bytes) (capacity : Z) : abi_call unit
  | CMkindexExt (path ext_path : option bytes) : abi_call unit
  | CRmindexExt (path : option bytes) : abi_call unit
  | CWatch (key : option bytes) (target : bytes) (tick_ns : Z) : abi_call slice_out
  | CClear : abi_call unit.

Definition flag (x : Z) : bool := negb (x =? 0).

(** [kvspaceGet] *)
Definition c_get key resolve := on_handle (finish (kvspaceGet (cstr key) (flag resolve)) put_slice).
(** [kvspaceGetPart] *)
Definition c_get_part key offset len := on_handle (finish (kvspaceGetPart (cstr key) offset len) put_slice).
(** [kvspaceWatch] *)
Definition c_watch key target tick_ns :=
  on_handle (finish (kvspaceWatch watch (cstr key) target tick_ns) put_slice).
(** [kvspaceSetValue] *)
Definition c_set_value key value := on_handle (finish (kvspaceSetValue key value) (λ _ _, tt)).
(** [kvspaceSetPart] *)
Definition c_set_part key offset buf buf_len :=
  on_handle (finish (kvspaceSetPart (cstr key) offset buf buf_len) (λ _ _, tt)).

(** [kvspaceGetHead]: [out] is null or the record it points to. *)
Definition c_get_head key := on_handle (λ hd (out : option kvspaceHead_t) err,
  match out with
  | None => mkExit (Some 1) out err (Some hd)
  | Some _ => finish (kvspaceGetHead (cstr key)) (λ r out, match r with Ok t => Some t | _ => out end) hd out err
  end).

(** [kvspaceWriteInPlace]: [body] is null or the pointer it points to. *)
Definition c_write_in_place key resolve body_len := on_handle (λ hd (body : option (option view)) err,
  finish (kvspaceWriteInPlace (cstr key) (flag resolve) body_len match body with None => true | _ => false end)
    (λ r body, put_body r <$> body) hd body err).

(** [kvspaceWriteNewPlace]: the storage class is ignored. *)
Definition c_write_new_place key ref (storetype : Z) body_len body_cap langtype :=
  on_handle (finish (kvspaceWriteNewPlace (cstr key) ref body_len body_cap (cstr langtype)) put_body).

(** [kvspaceListLen] *)
Definition c_list_len prefix expand_ext resolve :=
  on_handle (finish (kvspaceListLen (cstr prefix) (flag expand_ext) (flag resolve)) put_count).

(** [kvspaceListAt]: the name buffer is null or the caller's memory. *)
Definition c_list_at prefix expand_ext resolve idx buf_cap := on_handle (λ hd (out : Z * option bytes) err,
  finish (kvspaceListAt (cstr prefix) (flag expand_ext) (flag resolve) idx
            match out.2 with None => true | _ => false end buf_cap) put_name hd out err).

(** A function without an error buffer leaves the caller's memory alone. *)
Definition quietly {O} (x : exit O) err : exit O := mkExit (e_code x) (e_out x) err (e_handle x).

(** Every function of the table on a handle, its out-parameters and the error buffer. *)
Definition abi_run {O} (c : abi_call O) h (out : O) err : exit O :=
  match c in abi_call O return O → exit O with
  | CGet key resolve => λ out, quietly (c_get key resolve h out no_err) err
  | CSetValue key value => λ out, c_set_value key value h out err
  | CGetPart key offset len => λ out, quietly (c_get_part key offset len h out no_err) err
  | CSetPart key offset buf buf_len => λ out, c_set_part key offset buf buf_len h out err
  | CGetHead key => λ out, quietly (c_get_head key h out no_err) err
  | CWriteInPlace key resolve body_len => λ out, c_write_in_place key resolve body_len h out err
  | CWriteNewPlace key ref st body_len body_cap lt => λ out,
      c_write_new_place key ref st body_len body_cap lt h out err
  | CListLen prefix e r => λ out, quietly (c_list_len prefix e r h out no_err) err
  | CListAt prefix e r idx cap => λ out, quietly (c_list_at prefix e r idx cap h out no_err) err
  | CDel keys => λ out, structural (kvspaceDel (cstr <$> keys)) h out err
  | CDelTree prefix => λ out, structural (kvspaceDelTree (cstr prefix)) h out err
  | CCp src dst => λ out, structural (kvspaceCp (cstr src) (cstr dst)) h out err
  | CCpTree src dst => λ out, structural (kvspaceCpTree (cstr src) (cstr dst)) h out err
  | CCpList src dst => λ out, structural (kvspaceCpList (cstr src) (cstr dst)) h out err
  | CMkindex path capacity => λ out, structural (kvspaceMkindex (cstr path) capacity) h out err
  | CMkindexExt path ext => λ out, structural (kvspaceMkindexExt (cstr path) (cstr ext)) h out err
  | CRmindexExt path => λ out, structural (kvspaceRmindexExt (cstr path)) h out err
  | CWatch key target tick => λ out, quietly (c_watch key target tick h out no_err) err
  | CClear => λ out, structural kvspaceClear h out err
  end out.

End abi.
Arguments mkExit {_ _}.
Arguments e_code {_ _}.
Arguments e_out {_ _}.
Arguments e_err {_ _}.
Arguments e_handle {_ _}.

(** What a C program reads at [mem]: the bytes up to the first NUL. *)
Fixpoint c_string (mem : bytes) : bytes :=
  match mem with
  | [] => []
  | Byte.x00 :: _ => []
  | b :: mem => b :: c_string mem
  end.

(** ** How a computation fails *)

(** [m] never panics and fails only with errors in [Q]. *)
Abbreviation raises Q := (fails Q (λ _, False)).

Section raising.
Context {K : Type} `{KVSpace K}.
Context (Q : fferr → Prop).

Lemma raises_catch {A} p (m : stm K kverr A) :
  (∀ e, Q (FBackend e)) → (∀ e, Q (p e)) → raises Q (catch p m).
Proof. intros Hb Hp h. unfold catch. by destruct (m (kv h)) as [[a|e|e] k]; simpl. Qed.

Lemma raises_catch_read {A} p (f : K → res kverr A) :
  (∀ e, Q (FBackend e)) → (∀ e, Q (p e)) → raises Q (catch_read p f).
Proof. intros Hb Hp h. unfold catch_read. by destruct (f (kv h)); simpl. Qed.

Lemma raises_cleanup {A} (m : stm (Handle K) fferr A) f : raises Q m → raises Q (and_cleanup m f).
Proof. intros Hm h. unfold and_cleanup. specialize (Hm h). by destruct (m h). Qed.

Lemma raises_flush : (∀ e, Q (FBackend e)) → (∀ e, Q (FPanic e)) → raises Q (flush (K:=K)).
Proof.
  intros Hb Hp. unfold flush. fails_steps. apply raises_cleanup. by apply raises_catch.
Qed.

Lemma raises_mutate m f : (∀ e, Q (FBackend e)) → (∀ e, Q (FPanic e)) → raises Q (mutate (K:=K) m f).
Proof.
  intros Hb Hp. unfold mutate, kv_flush. fails_steps; [by apply raises_flush|].
  apply raises_cleanup. by apply raises_catch.
Qed.
End raising.

(** The reads raise something whatever they meet, and never panic. *)
Abbreviation quiet_error := (λ _ : fferr, True).

Section reading.
Context {K : Type} `{KVSpace K}.

Lemma raises_volatile key : raises quiet_error (volatile_refresh (K:=K) key).
Proof.
  unfold volatile_refresh. fails_steps; [by apply raises_catch_read|].
  intros h. unfold volatile_store. rewrite bind_gets. cbv zeta. rewrite bind_modify.
  by destruct (decide _).
Qed.

Lemma raises_fetch key : raises quiet_error (fetch_raw_one (K:=K) key).
Proof.
  unfold fetch_raw_one. fails_steps; [apply raises_volatile|by apply raises_catch_read].
Qed.

Lemma raises_hop key last_hop : raises quiet_error (hop_target (K:=K) key last_hop).
Proof. unfold hop_target. fails_steps; try done. apply raises_fetch. Qed.

Lemma raises_hops n key : raises quiet_error (resolve_hops (K:=K) n key).
Proof.
  revert key. induction n as [|n IH]; intros key; cbn [resolve_hops]; fails_steps;
    try apply raises_hop; [by intros h|apply IH].
Qed.

Lemma raises_resolve key resolve : raises quiet_error (resolve_cached_key (K:=K) key resolve).
Proof. unfold resolve_cached_key. fails_steps; [apply raises_fetch|apply raises_hops]. Qed.

Lemma raises_target Q missing failed key resolve :
  Q missing → Q failed → raises Q (resolve_target (K:=K) missing failed key resolve).
Proof.
  intros Hm Hf h. unfold resolve_target. pose proof (raises_resolve key resolve h) as Hr.
  by destruct (resolve_cached_key key resolve h) as [[[k|]|e|e] h'].
Qed.

Lemma raises_flush_quiet Q : Q Failed → raises Q (flush_quiet (K:=K)).
Proof.
  intros Hf h. unfold flush_quiet. by destruct (flush h) as [[[]|e|e] h'].
Qed.

Lemma raises_list_names prefix e r at_ : raises (λ e, ∃ k, e = FBackend k ∨ e = FPanic k)
  (list_names (K:=K) prefix e r at_).
Proof.
  intros h. unfold list_names. rewrite bind_gets. cbv zeta. rewrite stm_bind_eq.
  match goal with |- context [if ?b then _ else _] => destruct b eqn:Hreuse end.
  - unfold mret, stm_ret, cached_names. by destruct at_, (list_cache h).
  - rewrite bind_modify, stm_bind_eq. unfold catch_read. destruct (ks_list _ _ _ _); simpl; eauto.
Qed.
End reading.

Section exits.
Context {K : Type} `{KVSpace K}.
Context (watch : str → XValue → Z → stm K kverr XValue).
Context (text : kverr → str) (payload_of : kverr → payload).
Implicit Types (h : option (Handle K)) (err : errbuf).

Abbreviation explain := (fferr_text text payload_of).
Abbreviation run := (abi_run watch text payload_of).

(** The error has a text for the error buffer. *)
Definition told (e : fferr) : Prop := is_Some (explain e).

(** ** The error of each call *)

Ltac told := intros; unfold told; simpl; eauto.

Lemma told_flush : raises told (flush (K:=K)).
Proof. apply raises_flush; told. Qed.

Lemma told_catch {A} p (m : stm K kverr A) : (∀ e, told (p e)) → raises told (catch p m).
Proof. intros Hp. apply raises_catch; [told|done]. Qed.

Lemma told_mutate m f : raises told (mutate (K:=K) m f).
Proof. apply raises_mutate; told. Qed.

Lemma told_set_value key value : raises told (kvspaceSetValue (K:=K) key value).
Proof.
  unfold kvspaceSetValue. fails_steps; try by told.
  - intros h. destruct key, value as [[|c v]|]; simpl; told.
  - apply told_flush.
  - apply told_catch. told.
Qed.

Lemma told_set_part key offset buf buf_len : raises told (kvspaceSetPart (K:=K) key offset buf buf_len).
Proof.
  unfold kvspaceSetPart. fails_steps; try by told.
  - apply told_flush.
  - apply raises_target; told.
  - apply told_catch. told.
Qed.

Lemma told_take_existing key : raises told (take_existing (K:=K) key).
Proof. unfold take_existing. fails_steps. intros h. told. Qed.

Lemma told_write_in_place key resolve body_len null :
  raises told (kvspaceWriteInPlace (K:=K) key resolve body_len null).
Proof.
  unfold kvspaceWriteInPlace. fails_steps; try by told.
  - apply told_flush.
  - apply raises_target; told.
  - apply told_take_existing.
Qed.

Lemma told_write_new_place key ref body_len body_cap langtype :
  raises told (kvspaceWriteNewPlace (K:=K) key ref body_len body_cap langtype).
Proof. unfold kvspaceWriteNewPlace. fails_steps; try by told. apply told_flush. Qed.

Lemma told_clear : raises told (kvspaceClear (K:=K)).
Proof.
  unfold kvspaceClear, kv_flush. fails_steps; [apply told_flush|]. apply told_catch. told.
Qed.

Lemma quiet_get key resolve : raises quiet_error (kvspaceGet (K:=K) key resolve).
Proof.
  unfold kvspaceGet. fails_steps; [by apply raises_flush_quiet|apply raises_resolve].
Qed.

Lemma quiet_get_part key offset len : raises quiet_error (kvspaceGetPart (K:=K) key offset len).
Proof.
  unfold kvspaceGetPart. fails_steps; [by apply raises_flush_quiet|apply raises_resolve].
Qed.

Lemma quiet_get_head key : raises quiet_error (kvspaceGetHead (K:=K) key).
Proof.
  unfold kvspaceGetHead. fails_steps; try done; [by apply raises_flush_quiet|apply raises_resolve].
Qed.

Lemma quiet_watch key target tick : raises quiet_error (kvspaceWatch watch key target tick).
Proof.
  unfold kvspaceWatch. fails_steps; [by apply raises_flush_quiet|by apply raises_catch].
Qed.

(** A directory argument is checked without a panic leaving the call. *)
Lemma raises_validate Q prefix :
  Q Failed → fails (S:=Handle K) Q (λ _, False) (lift (match validate_dir prefix with Ok _ => Ok tt | _ => Err Failed end)).
Proof. intros Hf h. by destruct (validate_dir prefix). Qed.

Lemma quiet_list_len prefix e r : raises quiet_error (kvspaceListLen (K:=K) prefix e r).
Proof.
  unfold kvspaceListLen. fails_steps;
    [by apply raises_flush_quiet|by apply raises_validate|].
  eapply fails_mono; [|apply raises_list_names]. done.
Qed.

(** A name length is reported only where the buffer cannot take the name. *)
Definition short_buffer (buf_null : bool) (buf_cap : Z) (e : fferr) : Prop :=
  ∀ len, e = FNameLength len → buf_null = true ∨ buf_cap < len.

Lemma short_list_at prefix e r idx buf_null buf_cap :
  raises (short_buffer buf_null buf_cap) (kvspaceListAt (K:=K) prefix e r idx buf_null buf_cap).
Proof.
  unfold kvspaceListAt. fails_steps; try done.
  - by apply raises_flush_quiet.
  - by apply raises_validate.
  - eapply fails_mono; [|apply raises_list_names]. by intros ? (k & [->| ->]) len.
  - intros len [= <-]. destruct buf_null; [by left|right]. lia.
Qed.

(** ** From the computation to the exit *)

Lemma write_in_place_body key resolve body_len null hd v hd' :
  kvspaceWriteInPlace (K:=K) key resolve body_len null hd = (Ok v, hd') → null = false.
Proof. unfold kvspaceWriteInPlace. rewrite bind_err_if. by destruct null. Qed.

(** A name is handed over only to a buffer that takes it. *)
Lemma list_at_room prefix e r idx null cap :
  yields (λ name, null = false ∧ wrap_u 32 (Z.of_nat (length name)) ≤ cap)
    (kvspaceListAt (K:=K) prefix e r idx null cap).
Proof.
  unfold kvspaceListAt. do 4 (apply yields_bind; intros ?). apply yields_bind. intros n.
  intros hd name hd'. cbv zeta. rewrite bind_err_if.
  destruct null, (Z.ltb_spec cap (wrap_u 32 (Z.of_nat (length n)))); [done..|]. by intros [= <- _].
Qed.

(** What a successful call computes. *)
Definition answer {O} (c : abi_call O) : Type :=
  match c with
  | CGet _ _ | CGetPart _ _ _ | CWatch _ _ _ => option view
  | CGetHead _ => kvspaceHead_t
  | CWriteInPlace _ _ _ | CWriteNewPlace _ _ _ _ _ _ => view
  | CListLen _ _ _ => Z
  | CListAt _ _ _ _ _ => str
  | _ => unit
  end.

(** The call of [Ffi] behind an exported function. *)
Definition inner {O} (c : abi_call O) : O → stm (Handle K) fferr (answer c) :=
  match c in abi_call O return O → stm (Handle K) fferr (answer c) with
  | CGet key resolve => λ _, kvspaceGet (cstr key) (flag resolve)
  | CSetValue key value => λ _, kvspaceSetValue key value
  | CGetPart key offset len => λ _, kvspaceGetPart (cstr key) offset len
  | CSetPart key offset buf buf_len => λ _, kvspaceSetPart (cstr key) offset buf buf_len
  | CGetHead key => λ out, match out with Some _ => kvspaceGetHead (cstr key) | None => λ hd, (Err Failed, hd) end
  | CWriteInPlace key resolve body_len => λ out,
      kvspaceWriteInPlace (cstr key) (flag resolve) body_len (negb (bool_decide (is_Some out)))
  | CWriteNewPlace key ref _ body_len body_cap lt => λ _,
      kvspaceWriteNewPlace (cstr key) ref body_len body_cap (cstr lt)
  | CListLen prefix e r => λ _, kvspaceListLen (cstr prefix) (flag e) (flag r)
  | CListAt prefix e r idx cap => λ out,
      kvspaceListAt (cstr prefix) (flag e) (flag r) idx (negb (bool_decide (is_Some out.2))) cap
  | CDel keys => λ _, kvspaceDel (cstr <$> keys)
  | CDelTree prefix => λ _, kvspaceDelTree (cstr prefix)
  | CCp src dst => λ _, kvspaceCp (cstr src) (cstr dst)
  | CCpTree src dst => λ _, kvspaceCpTree (cstr src) (cstr dst)
  | CCpList src dst => λ _, kvspaceCpList (cstr src) (cstr dst)
  | CMkindex path capacity => λ _, kvspaceMkindex (cstr path) capacity
  | CMkindexExt path ext => λ _, kvspaceMkindexExt (cstr path) (cstr ext)
  | CRmindexExt path => λ _, kvspaceRmindexExt (cstr path)
  | CWatch key target tick => λ _, kvspaceWatch watch (cstr key) target tick
  | CClear => λ _, kvspaceClear
  end.

(** A borrowed slice: pointer and length of the value, or the null pointer and 0. *)
Definition slice_of (v : option view) (out : slice_out) : Prop :=
  out.1 = v ∧ out.2 = match v with Some w => Z.of_nat (length (v_bytes w)) mod 2 ^ 32 | None => 0 end.

(** What the out-parameters of a successful call hold: its answer.  A name fills the head of the
    caller's buffer, of which no byte past it changes. *)
Definition filled {O} (c : abi_call O) : answer c → O → O → Prop :=
  match c in abi_call O return answer c → O → O → Prop with
  | CGet _ _ | CGetPart _ _ _ | CWatch _ _ _ => λ v _ out', slice_of v out'
  | CGetHead _ => λ t _ out', out' = Some t
  | CWriteInPlace _ _ _ => λ v _ out', out' = Some (Some v)
  | CWriteNewPlace _ _ _ _ _ _ => λ v _ out', out' = Some v
  | CListLen _ _ _ => λ n _ out', out' = n
  | CListAt _ _ _ _ cap => λ name out out',
      out'.1 = Z.of_nat (length name) mod 2 ^ 32 ∧ out'.1 ≤ cap ∧
      ∃ mem mem', out.2 = Some mem ∧ out'.2 = Some mem' ∧
        take (length name) mem' = name ∧ drop (length name) mem' = drop (length name) mem
  | _ => λ _ _ _, True
  end.

(** What the out-parameters of a failed call hold. *)
Definition failed_out {O} (c : abi_call O) (e : fferr) (out out' : O) : Prop :=
  match c in abi_call O return O → O → Prop with
  | CGet _ _ | CGetPart _ _ _ | CWatch _ _ _ => λ _ out', slice_of None out'
  | CListLen _ _ _ => λ _ out', out' = 0
  | CListAt _ _ _ _ cap => λ out out',
      out'.2 = out.2 ∧
      match e with
      | FNameLength len => out'.1 = len ∧ (out.2 = None ∨ cap < len)
      | _ => out'.1 = 0
      end
  | _ => λ out out', out' = out
  end out out'.

(** The functions with an error buffer. *)
Definition reports {O} (c : abi_call O) : bool :=
  match c with
  | CGet _ _ | CGetPart _ _ _ | CGetHead _ | CListLen _ _ _ | CListAt _ _ _ _ _ | CWatch _ _ _ => false
  | _ => true
  end.

(** The structural calls, which also report a null handle. *)
Definition is_structural {O} (c : abi_call O) : bool :=
  match c with
  | CDel _ | CDelTree _ | CCp _ _ | CCpTree _ _ | CCpList _ _ | CMkindex _ _ | CMkindexExt _ _
  | CRmindexExt _ | CClear => true
  | _ => false
  end.

(** [x] is the exit for the outcome [r]: the code, the handle it leaves, out-parameters as [ok] or
    [bad] has them, and a text for a failure where there is a buffer for one; never a panic. *)
Definition exits {A O} (report : bool) (ok : A → O → Prop) (bad : fferr → O → Prop) err
    (r : res fferr A * Handle K) (x : exit (K:=K) O) : Prop :=
  match r with
  | (Ok a, hd) => e_code x = Some 0 ∧ e_handle x = Some hd ∧ ok a (e_out x) ∧ e_err x = err
  | (Err e, hd) =>
      e_code x = Some 1 ∧ e_handle x = Some hd ∧ bad e (e_out x) ∧
      if report then ∃ msg, explain e = Some msg ∧ e_err x = write_err_to err msg else e_err x = err
  | (Panic _, _) => False
  end.

Section exit_of.
Context {A O : Type} (ok : A → O → Prop) (bad : fferr → O → Prop) (m : stm (Handle K) fferr A).
Context (put : res fferr A → O → O) (hd : Handle K) (out : O).
Context (Hok : ∀ a hd', m hd = (Ok a, hd') → ok a (put (Ok a) out)).

Lemma told_exit err :
  raises told m → (∀ e, bad e (put (Err e) out)) →
  exits true ok bad err (m hd) (finish text payload_of m put hd out err).
Proof using Hok.
  intros Hm Hbad. unfold exits, finish. specialize (Hm hd).
  destruct (m hd) as [[a|e|e] hd'] eqn:E; simpl in *; [by eauto| |done].
  destruct Hm as [msg Hmsg]. rewrite Hmsg. split_and!; eauto.
Qed.

Lemma quiet_exit Q err :
  raises Q m → (∀ e, Q e → bad e (put (Err e) out)) →
  exits false ok bad err (m hd) (quietly (finish text payload_of m put hd out no_err) err).
Proof using Hok.
  intros Hm Hbad. unfold exits, finish, quietly. specialize (Hm hd).
  destruct (m hd) as [[a|e|e] hd'] eqn:E; simpl in *; [by eauto| |done]. split_and!; eauto.
Qed.
End exit_of.

Lemma slice_put_ok v out : slice_of v (put_slice (Ok v) out).
Proof. by destruct v. Qed.

Lemma slice_put_err e out : slice_of None (put_slice (Err e) out).
Proof. done. Qed.

Lemma null_decide {A} (x : option A) :
  match x with None => true | Some _ => false end = negb (bool_decide (is_Some x)).
Proof. by destruct x. Qed.

Lemma name_exit prefix e r idx cap hd (out : Z * option bytes) err :
  let c := CListAt prefix e r idx cap in
  exits false (λ a, filled c a out) (λ e, failed_out c e out) err (inner c out hd)
    (quietly (c_list_at text payload_of prefix e r idx cap (Some hd) out no_err) err).
Proof.
  cbv zeta. unfold c_list_at. cbn [on_handle inner]. rewrite (null_decide out.2).
  eapply quiet_exit; [|apply short_list_at|].
  - intros name hd' Hname. destruct (list_at_room _ _ _ _ _ _ _ _ _ Hname) as [Hb Hcap]. cbn [filled put_name fst snd].
    split; [done|split; [done|]]. destruct (out.2) as [mem|]; [|done].
    exists mem, (name ++ drop (length name) mem). split_and!; [done..| |].
    + by rewrite take_app_length.
    + by rewrite drop_app_length.
  - intros er Her. unfold short_buffer in Her. destruct er; simpl; try done.
    split; [done|]. split; [done|].
    destruct (Her len eq_refl) as [Hn|]; [left|by right]. by destruct out.2.
Qed.

Lemma run_live {O} (c : abi_call O) hd (out : O) err :
  exits (reports c) (λ a, filled c a out) (λ e, failed_out c e out) err (inner c out hd)
    (run c (Some hd) out err).
Proof.
  destruct c; cbn [abi_run on_handle structural reports].
  - apply (quiet_exit _ _ _ _ _ _ (λ v _ _, slice_put_ok v out) quiet_error); [apply quiet_get|done].
  - apply told_exit; [done|apply told_set_value|by destruct out].
  - apply (quiet_exit _ _ _ _ _ _ (λ v _ _, slice_put_ok v out) quiet_error); [apply quiet_get_part|done].
  - apply told_exit; [done|apply told_set_part|by destruct out].
  - unfold c_get_head. cbn [on_handle inner]. destruct out as [t|]; [|done].
    apply (quiet_exit _ _ _ _ _ _ (λ _ _ _, eq_refl) quiet_error); [apply quiet_get_head|done].
  - unfold c_write_in_place. cbn [on_handle inner]. rewrite (null_decide out).
    apply told_exit; [|apply told_write_in_place|by destruct out].
    intros v hd' Hb%write_in_place_body. by destruct out.
  - apply told_exit; [done|apply told_write_new_place|done].
  - apply (quiet_exit _ _ _ _ _ _ (λ _ _ _, eq_refl) quiet_error); [apply quiet_list_len|done].
  - apply name_exit.
  - apply told_exit; [done|apply told_mutate|by destruct out].
  - apply told_exit; [done|apply told_mutate|by destruct out].
  - apply told_exit; [done|apply told_mutate|by destruct out].
  - apply told_exit; [done|apply told_mutate|by destruct out].
  - apply told_exit; [done|apply told_mutate|by destruct out].
  - apply told_exit; [done|apply told_mutate|by destruct out].
  - apply told_exit; [done|apply told_mutate|by destruct out].
  - apply told_exit; [done|apply told_mutate|by destruct out].
  - apply (quiet_exit _ _ _ _ _ _ (λ v _ _, slice_put_ok v out) quiet_error); [apply quiet_watch|done].
  - apply told_exit; [done|apply told_clear|by destruct out].
Qed.

Lemma run_null {O} (c : abi_call O) (out : O) err :
  run c None out err =
    mkExit (Some 1) out (if is_structural c then write_err_to err null_handle_text else err) None.
Proof. by destruct c. Qed.
End exits.

(** ** Error buffers *)

Lemma write_err_shape cap msg w :
  write_err cap msg = Some w → 0 ≤ cap →
  ∃ n, (S n ≤ Z.to_nat cap)%nat ∧ n = Nat.min (length msg) (Z.to_nat (cap - 1)) ∧
       w = take n msg ++ [Byte.x00].
Proof.
  unfold write_err. destruct (Z.eqb_spec cap 0) as [|Hne]; [done|]. intros [= <-] Hcap.
  exists (Nat.min (length msg) (Z.to_nat (cap - 1))). split; [lia|]. split; [done|].
  do 2 f_equal. lia.
Qed.

Lemma c_string_app b rest : c_string (b ++ Byte.x00 :: rest) = c_string b.
Proof. induction b as [|c b IH]; [done|]. cbn. rewrite IH. by destruct c. Qed.

Lemma c_string_clean b : Byte.x00 ∉ b → c_string b = b.
Proof.
  induction b as [|c b IH]; [done|]. intros [Hc Hb]%not_elem_of_cons. cbn. rewrite (IH Hb).
  by destruct c.
Qed.

(** What [write_err] leaves of the caller's memory. *)
Lemma write_err_to_frame mem cap msg :
  0 ≤ cap ≤ Z.of_nat (length mem) →
  ∃ mem', write_err_to (mkErrbuf (Some mem) cap) msg = mkErrbuf (Some mem') cap ∧
    length mem' = length mem ∧ drop (Z.to_nat cap) mem' = drop (Z.to_nat cap) mem ∧
    (0 < cap → c_string mem' = c_string (take (Z.to_nat (cap - 1)) msg)).
Proof.
  intros Hcap. unfold write_err_to. cbn [eb_mem eb_cap].
  destruct (write_err cap msg) as [w|] eqn:Hw.
  - destruct (write_err_shape _ _ _ Hw ltac:(lia)) as (n & Hn & Hmin & ->). eexists. split; [done|].
    assert (Hlen : length (take n msg ++ [Byte.x00]) = S n) by (rewrite length_app, length_take; simpl; lia).
    rewrite Hlen. split_and!.
    + rewrite length_app, length_drop, Hlen. lia.
    + rewrite drop_app_ge, drop_drop by lia. f_equal. lia.
    + intros _. rewrite <-app_assoc. cbn [app]. rewrite c_string_app. f_equal. rewrite Hmin.
      destruct (Nat.min_spec (length msg) (Z.to_nat (cap - 1))) as [[? ->]|[? ->]]; [|done].
      rewrite !take_ge by lia. done.
  - exists mem. split_and!; [done..|]. unfold write_err in Hw. destruct (Z.eqb_spec cap 0); [lia|done].
Qed.

(** ** The contract of the boundary *)

Section contract.
Context {K : Type} `{KVSpace K}.
Context (watch : str → XValue → Z → stm K kverr XValue).
Context (text : kverr → str) (payload_of : kverr → payload).

Abbreviation run := (abi_run watch text payload_of).

(** C38. Every exported function returns 0 or 1; no panic leaves a call, whatever the handle, the
    arguments and the state.  A null handle gives 1 and touches no out-parameter (and a structural
    call reports it).  On a live handle the call of the library behind the function decides: where
    it succeeds the code is 0 and the out-parameters hold its answer - pointer and length of the
    borrowed slice, the head record, the body pointer, the count, the name copied into a buffer
    that takes it - and the error buffer is left alone; where it fails the code is 1, slices,
    counts and name lengths are cleared (or hold the length the name needs), every other
    out-parameter is as it was, and a function with an error buffer has a text for the error. *)
Theorem abi_calls_return {O} (c : abi_call O) (h : option (Handle K)) (out : O) (err : errbuf) :
  let x := run c h out err in
  match h with
  | None =>
      e_code x = Some 1 ∧ e_out x = out ∧ e_handle x = None ∧
      e_err x = if is_structural c then write_err_to err null_handle_text else err
  | Some hd =>
      exits text payload_of (reports c) (λ a, filled c a out) (λ e, failed_out c e out) err
        (inner watch c out hd) x
  end.
Proof. cbv zeta. destruct h as [hd|]; [apply run_live|by rewrite run_null]. Qed.

(** C39. The error buffer: a call writes at most [err_cap] bytes of the caller's memory, and what a
    C program then reads there is the message cut to [err_cap - 1] bytes, NUL included in the
    bound. *)
Theorem error_text_bounded {O} (c : abi_call O) (h : option (Handle K)) (out : O) mem cap
    (Hcap : 0 < cap ≤ Z.of_nat (length mem)) :
  let x := run c h out (mkErrbuf (Some mem) cap) in
  ∃ mem', e_err x = mkErrbuf (Some mem') cap ∧
    length mem' = length mem ∧ drop (Z.to_nat cap) mem' = drop (Z.to_nat cap) mem ∧
    (mem' = mem ∨
     e_code x = Some 1 ∧ ∃ msg, c_string mem' = c_string (take (Z.to_nat (cap - 1)) msg) ∧
       (msg = null_handle_text ∧ h = None ∨ ∃ e, fferr_text text payload_of e = Some msg)).
Proof.
  cbv zeta. set (err := mkErrbuf (Some mem) cap).
  assert (Hsame : ∃ mem', err = mkErrbuf (Some mem') cap ∧ length mem' = length mem ∧
    drop (Z.to_nat cap) mem' = drop (Z.to_nat cap) mem ∧ mem' = mem) by by exists mem.
  destruct h as [hd|].
  - pose proof (run_live watch text payload_of c hd out err) as Hx.
    unfold exits in Hx. destruct (inner watch c out hd) as [[a|e|e] hd']; [| |done].
    + destruct Hx as (_ & _ & _ & ->). destruct Hsame as (mem' & ?). exists mem'. naive_solver.
    + destruct Hx as (Hc & _ & _ & Hw).
      destruct (reports c); [|rewrite Hw; destruct Hsame as (mem' & ?); exists mem'; naive_solver].
      destruct Hw as (msg & Hmsg & ->).
      destruct (write_err_to_frame mem cap msg) as (mem' & Hw & ? & ? & Ht); [lia|].
      exists mem'. split_and!; [done..|]. right. split; [done|]. exists msg. split; [apply Ht; lia|eauto].
  - rewrite run_null. cbn [e_err e_code].
    destruct (is_structural c); [|destruct Hsame as (mem' & ?); exists mem'; naive_solver].
    destruct (write_err_to_frame mem cap null_handle_text) as (mem' & Hw & ? & ? & Ht); [lia|].
    exists mem'. split_and!; [done..|]. right. split; [done|]. eexists. split; [apply Ht; lia|eauto].
Qed.
End contract.

(** ** At concrete inputs *)

Definition sample_watch : str → XValue → Z → stm mem kverr XValue := λ _ v _, mret v.
Definition sample_text (e : kverr) : str :=
  match e with ReservedKey key => "reserved metadata key: "%rs ++ key | _ => "error"%rs end.
Definition sample_run {O} (c : abi_call O) := abi_run sample_watch sample_text (λ e, PayloadString (sample_text e)) c.
Definition sample_space : option (Handle mem) := Some (new_handle ∅).
(** Deleting a reserved key, with room for nine characters and the NUL. *)
Definition sample_del := sample_run (CDel [Some "/.kvspace-meta/x"%rs]) sample_space tt
  (mkErrbuf (Some (replicate 12 Byte.xff)) 10).

Example del_reserved_text :
  e_code sample_del = Some 1 ∧
  eb_mem (e_err sample_del) = Some ("reserved "%rs ++ [Byte.x00; Byte.xff; Byte.xff]).
Proof. split; vm_compute; reflexivity. Qed.

(** A name reaches the caller's buffer; in a buffer too short for it, only its length is told. *)
Definition sample_list cap :=
  let x := sample_run (CMkindex (Some "/dir/"%rs) 0) sample_space tt no_err in
  sample_run (CListAt (Some "/"%rs) 0 0 0 cap) (e_handle x) (7, Some (replicate 6 Byte.xff)) no_err.

Example list_at_fills_the_buffer :
  (e_code (sample_list 6) = Some 0 ∧ e_out (sample_list 6) = (4, Some ("dir/"%rs ++ replicate 2 Byte.xff))) ∧
  (e_code (sample_list 3) = Some 1 ∧ e_out (sample_list 3) = (4, Some (replicate 6 Byte.xff))).
Proof. split; split; vm_compute; reflexivity. Qed.

(** A null handle is reported by the structural calls only. *)
Example null_handle_unreported key value :
  let err := mkErrbuf (Some (replicate 32 Byte.xff)) 32 in
  e_err (sample_run (CSetValue key value) None tt err) = err ∧
  c_string <$> eb_mem (e_err (sample_run (CDelTree key) None tt err)) = Some null_handle_text.
Proof. split; [done|vm_compute; reflexivity]. Qed.

(** The cut may fall inside a character. *)
Example error_text_splits_a_character :
  let msg := sample_text (ReservedKey "/键"%rs) in
  ∃ mem', write_err_to (mkErrbuf (Some (replicate 27 Byte.xff)) 27) msg = mkErrbuf (Some mem') 27 ∧
    utf8_valid msg = true ∧ utf8_valid (c_string mem') = false.
Proof. eexists. split; [done|]. split; vm_compute; reflexivity. Qed.

Lemma error_text_bounded_witness :
  0 < 10 ≤ 12 ∧ ∃ mem', e_err sample_del = mkErrbuf (Some mem') 10 ∧ length mem' = 12%nat.
Proof.
  split; [lia|].
  destruct (error_text_bounded sample_watch sample_text (λ e, PayloadString (sample_text e))
    (CDel [Some "/.kvspace-meta/x"%rs]) sample_space tt (replicate 12 Byte.xff) 10 ltac:(simpl; lia))
    as (mem' & He & Hl & _).
  exists mem'. split; [exact He|exact Hl].
Defined.
